(* ===== verification/_CoqProject ===== *)
-Q . S2P
Prelude.v
Bytes.v
Protocol.v
NetIP.v
Types.v
GoLib.v
Client.v
Socket.v
Wire.v
GroutApi.v
Cni.v
PortName.v
Json.v
Config.v
Unmarshal.v
Lock.v
Netns.v
Handler.v
HandlerFacts.v
Main.v
Serial.v
Ledger.v
Runs.v
Interleave.v
Progress.v
Serializable.v
Waiter.v
Files.v
World.v
Pod.v
Crash.v
Typing.v
Registry.v
EndToEnd.v
Commands.v
Mock.v
PodMock.v
Daemon.v
