(* ===== verification/Prelude.v ===== *)
(** * grout-cni, verified

    grout-cni is a CNI plugin: the container runtime runs it with ADD, DEL,
    CHECK, GC or STATUS, a network configuration on standard input and a
    container's id, interface name and network namespace, and the plugin attaches
    the container to a bridge of the grout router, over grout's control socket.
    This library models the plugin's code (src/cmd/grout-cni, src/pkg/cni,
    src/pkg/groutapi) and proves what makes it correct.

    ** The program and the files that model it

    - The control-socket client, package groutapi.
      [Protocol] is protocol.go: message types, headers, [writeRequest] and
      [readResponse] on a connection ([Conn]) to a [Peer].  [Types] is types.go.
      [Client] is client.go: [Dial] with the handshake, request ids, single
      ([request]) and streamed ([requestStream]) answers, and the calls on
      interfaces, addresses, routes and flood entries with the byte layout of
      grout's C structures.
    - The plugin, package cni.
      [PortName] is portname.go (the deterministic name of an attachment's port);
      [Config] is config.go and logging.go (validation and defaults, log levels,
      the default logger, whose installation changes the state),
      [Unmarshal] the decoding of its JSON object into the fields of the struct;
      [Lock] is lock.go with the lock path and the locking prologue all handlers
      share; [Netns] is netns.go (the pod's side of a TAP); [Handler] is
      handler.go ([HandleAdd], [HandleDel], [HandleCheck], [HandleGC], the bridge,
      the gateways, the clean-up after a failure, the IPAM delegation).
    - The commands.  [Main] is main.go: [cmdAdd], [cmdDel], [cmdCheck], [cmdGC],
      [cmdStatus], each loading the configuration, connecting, running a handler
      on the client and closing the connection, and [main], which hands them to
      the CNI library's dispatcher.
    - The language and its library.  [Bytes] (machine integers, byte slices,
      little-endian fields), [NetIP] (package net), [GoLib] (FNV, SHA-256,
      base32, strings, filepath), [Json] (the decoder of encoding/json), all
      executable and written after the documented algorithms.  This file has errors and results, the two monads, the program
      logics and shared lemmas.

    ** How effects are modelled

    The client's code is a state and error monad ([est]) over the client's
    state: the connection (peer, bytes received and not yet read, how the stream
    ends, closed or not) and the request counter.  A handler is a program tree
    ([prog]) whose nodes are operations of [Cni.cni_op]: the methods of the
    [GroutClient] interface, the IPAM plugin, flock(2), the file system, netlink
    and namespaces.  The tree is run in an environment that answers the
    operations, and it ends with a value or with a panic; deferred calls run in
    both cases.  [Main.link_env] answers the grout operations with the client's
    methods, which is how the two packages are linked in main.go.  A Go error is
    its format string and arguments, with the error it wraps.

    ** What the theorems show

    - On every run, whatever the environment answers: [Ledger] (ADD is
      transactional: what it acquires, it keeps on success and gives back on
      failure), [Serial] (all work is done under the lock of the grout socket,
      which is released on every path), [Runs] (the exact sequence of operations
      of DEL and GC, and when CHECK succeeds, from the answers they got; the
      allocation that ADD keeps when the IPAM answer cannot be converted).
    - In every interleaving of several processes: [Interleave] (mutual exclusion,
      by induction over a step relation), [Progress] (every execution ends, and
      none deadlocks), [Serializable] (the shared world is what the calls make of
      it one after another, in some order, and every call returns what it
      returns at its place).  There flock(2) with its timeout is one operation;
      [Waiter] refines it to the goroutine, the channel and the timer of
      [FileLock.Lock], which race, and lets processes be killed: it is simulated
      by the former, so the calls stay serializable, and no kill, timeout or
      lock granted too late blocks the others.  These files have one lock, that
      of the file all their processes have opened; in [Files] the kernel keeps a
      lock per file and each process locks the file it has opened itself, and
      calls for one grout socket are shown to act as with the one lock, so they
      are serializable.  Calls for different sockets have different lock files
      and do overlap ([Mock.sockets_overlap]).
    - Against an abstract specification: [Registry] (the plugin keeps a registry
      of attachments, a finite map, in grout's interfaces: every verb implements
      it on any world that satisfies [GroutLaws], and so does any interleaving
      of calls for one socket, as a history of the specification), [Commands] (the commands
      implement it over the wire).
    - On the requests: [Typing] (whatever the peer of the socket answers, every
      request that is made fits grout's structures; a typing logic on programs).
    - On the state of grout: [World] (ADD, DEL and GC against any world that
      satisfies [GroutLaws], and DEL undoing ADD), [EndToEnd] (the ADD, DEL
      and STATUS commands from the configuration to the bytes on the socket: a client
      connected to any daemon that keeps the laws of [GroutDaemon] is a world
      that satisfies [GroutLaws], so the theorems of [World] apply).
    - On the pod's side: [Pod] (CHECK succeeds after ADD, unless an operation of
      its own fails, and fails after DEL, in any world that also satisfies
      [PodLaws]).
    - On interrupted calls: [Crash] (an ADD killed after any of its operations is
      undone by DEL, and a killed DEL can be repeated).
    - On the wire: [Protocol] (framing is exact, truncated and oversized
      responses are errors), [Socket] (a request is one exchange with a server
      that speaks the protocol; the response loop terminates), [Wire] (payloads
      decode to the request: the receiver's side is written from the layouts that
      client.go documents, with literal offsets, and not from the client's own
      constants), [GroutApi] (the client's calls are the requests of
      grout's API).
    - On the data: [PortName], [Config], [HandlerFacts] (names, configurations,
      gateways, MAC addresses, results, limits of the devargs field); [Json] and
      [Unmarshal] (the JSON decoder accepts exactly the grammar's documents; the
      configuration is what its text says; what is written is read back; what is
      refused).
    [Mock], [PodMock] and [Daemon] are concrete environments: they satisfy the laws, and the
    theorems are applied in them to concrete configurations.

    ** Parameters and what is assumed of them

    Code outside the repository is a parameter.  [Protocol.Peer] is any peer of
    a byte stream.  [Socket.Server] and [GroutApi.GroutServer] are servers given
    by their answers.  [World.GroutLaws] (ids and names are unique; a new
    interface is listed as requested; deletion removes one interface and is
    refused while it holds addresses; failed calls change nothing) and
    [World.GroutReliable] (listing, flushing and deleting an interface without
    addresses succeed), and the same laws at the level of decoded requests in
    [EndToEnd], state grout's documented behaviour, idealised where the plugin
    allows for more: a listing has the type an interface was created with, and a
    deletion of a listed interface without addresses succeeds.  The theorems of
    [Runs] and [Ledger] do not assume it.  [Pod.PodLaws] states that of
    namespaces, links and [ipam.ConfigureIface].  [Waiter.lstep] has the kernel's
    rules for flock(2): one owner, given up when the file is closed and no call
    on it is under way, or when the process is gone; [Files.fstep] applies them to
    the file a process has opened.  [Cni.CniTypes] and
    [Cni.CniLib] are the opaque types and the two conversions of the CNI
    libraries; [net_dial], [Print] and [SetDefault] (slog's default logger) are
    arguments of the commands, [PluginMainFuncs] of [main],
    and so is the decoder of the configuration, which [Unmarshal.Unmarshal] is
    an instance of; its parameter is the fields of the embedded [types.NetConf],
    assumed to leave the plugin's own fields alone ([embedded]).  [Runs],
    [Ledger] and [Serial] assume nothing of the environment; the injectable
    functions of the handlers' configurations are then those main.go installs
    ([production]).

    ** Fuel and bounds

    [Client.stream_loop] has fuel one more than the number of bytes received:
    every iteration consumes a header, and
    [Socket.requestStream_loop_terminates] shows that the fuel never runs out.
    [Json.value] has twice the number of bytes and two: a call consumes a byte or
    goes from a list to its first element, and [Json.parse_document] shows that
    no document is refused for lack of fuel.
    [GoLib.chunks] has the length of its input as fuel and a group takes at least
    one element; the server loop of [Socket] has the number of buffered bytes and
    a request takes at least its header; [GoLib.strip_left] has
    the length of the text and strips a non-empty pattern at a time.  Machine integers are
    [Z] with the conversions written out ([u8], [u16], [u32]).

    ** What is not modelled

    The text of log records (log/slog); the rendering of error messages; the
    client's mutex, a client being used by one handler at a time (a request and
    its answer are one step); blocking reads of the control socket (a read gets
    what was received, and then how the stream ended); the CNI library's
    dispatcher, which [main] calls; tests, manifests and build files.

    ** Plan

    Next: the IPAM allocations along sequences and interleavings of calls, and
    what GC recovers of killed calls. *)

From stdpp Require Export prelude list strings.
From Stdlib Require Export Strings.Byte.
From Stdlib Require Import Lia ZArith.

#[global] Set Default Goal Selector "!".

(** ** Errors and results

    A Go [error] keeps the format string of the [fmt.Errorf] call that built it
    and the arguments it was given (strings and byte slices, IP networks, integers),
    a wrapped error ([%w]) being one of them.
    The rendering of the message is not modelled.  Errors produced by the
    operating system, by grout or by a library are [EExt] of a code. *)

(** A Go [string] is a sequence of bytes; [str] is a string literal. *)
Abbreviation gostring := (list byte).
Definition str (s : string) : gostring := String.list_byte_of_string s.

Inductive error : Type :=
| EExt (code : Z)
| Errorf (fmt : string) (args : list arg)
with arg : Type :=
| AStr (s : gostring)
| ANet (ip mask : gostring)
| AInt (z : Z)
| AErr (e : error).

(** [io.EOF] and [io.ErrUnexpectedEOF], the only errors of the standard library
    the code can produce by itself. *)
Definition EOF : error := Errorf "EOF" [].
Definition ErrUnexpectedEOF : error := Errorf "unexpected EOF" [].

Inductive result (A : Type) : Type :=
| Ok (a : A)
| Err (e : error).
Arguments Ok {A} a.
Arguments Err {A} e.

Definition is_ok {A} (r : result A) : bool :=
  match r with Ok _ => true | Err _ => false end.

Definition is_err {A} (r : result A) : bool := negb (is_ok r).

#[global] Instance result_ret : MRet result := @Ok.
#[global] Instance result_bind : MBind result :=
  λ _ _ f r, match r with Ok a => f a | Err e => Err e end.
#[global] Instance result_fmap : FMap result :=
  λ _ _ f r, match r with Ok a => Ok (f a) | Err e => Err e end.

(** [map_err f r] is [if err != nil { return fmt.Errorf(..., err) }]. *)
Definition map_err {A} (f : error → error) (r : result A) : result A :=
  match r with Ok a => Ok a | Err e => Err (f e) end.

Lemma map_err_ok {A} f (r : result A) a : map_err f r = Ok a ↔ r = Ok a.
Proof. destruct r; naive_solver. Qed.

Lemma is_err_map_err {A} f (r : result A) : is_err (map_err f r) = is_err r.
Proof. by destruct r. Qed.

(** ** Effectful code

    The code outside the repository that a handler calls (grout, the IPAM
    plugin, the kernel, the file system) is a signature: a type of operations
    and, for each operation, the type of its answers.  A handler is a program
    that performs operations and continues with their answers; what the answers
    are is left to the environment. *)

Structure sig := Sig { op : Type; res : op → Type }.

Inductive prog (S : sig) (A : Type) : Type :=
| Ret (a : A)
| Vis (o : op S) (k : res S o → prog S A).
Arguments Ret {S A} a.
Arguments Vis {S A} o k.

Fixpoint prog_bind_def {S A B} (f : A → prog S B) (p : prog S A) : prog S B :=
  match p with
  | Ret a => f a
  | Vis o k => Vis o (λ r, prog_bind_def f (k r))
  end.

#[global] Instance prog_ret {S} : MRet (prog S) := @Ret S.
#[global] Instance prog_bind {S} : MBind (prog S) := @prog_bind_def S.
#[global] Instance prog_fmap {S} : FMap (prog S) := λ A B f p, p ≫= λ a, mret (f a).

(** One operation, with its answer. *)
Definition call {S : sig} (o : op S) : prog S (res S o) := Vis o (λ r, Ret r).

(** What a run of a program did: its operations, oldest first, each with the
    answer the environment gave. *)
Definition event (S : sig) : Type := {o : op S & res S o}.
Definition trace (S : sig) : Type := list (event S).

(** [wp p t Q]: started after the events [t], every run of [p], whatever the
    answers of the environment, ends with events and a value that satisfy [Q]. *)
Fixpoint wp {S A} (p : prog S A) (t : trace S) (Q : trace S → A → Prop) : Prop :=
  match p with
  | Ret a => Q t a
  | Vis o k => ∀ r, wp (k r) (t ++ [existT o r]) Q
  end.

(** [always p Q]: every run of [p] satisfies [Q]. *)
Definition always {S A} (p : prog S A) (Q : trace S → A → Prop) : Prop := wp p [] Q.

(** A concrete environment: a state and an answer to each operation. *)
Definition handler (S : sig) (W : Type) : Type := ∀ o : op S, W → W * res S o.

Fixpoint interp {S W A} (h : handler S W) (p : prog S A) (w : W) : W * A :=
  match p with
  | Ret a => (w, a)
  | Vis o k => let '(w', r) := h o w in interp h (k r) w'
  end.

(** The same run with its trace. *)
Fixpoint interp_trace {S W A} (h : handler S W) (p : prog S A) (w : W) : W * trace S * A :=
  match p with
  | Ret a => (w, [], a)
  | Vis o k =>
      let '(w', r) := h o w in
      let '(w'', t, a) := interp_trace h (k r) w' in
      (w'', existT o r :: t, a)
  end.

Section wp_rules.
Context {S : sig}.
Implicit Types t : trace S.

Lemma wp_mono {A} (p : prog S A) t (Q Q' : trace S → A → Prop) :
  wp p t Q → (∀ t a, Q t a → Q' t a) → wp p t Q'.
Proof. revert t. induction p; simpl; eauto. Qed.

Lemma wp_both {A} (p : prog S A) t (Q Q' : trace S → A → Prop) :
  wp p t Q → wp p t Q' → wp p t (λ t a, Q t a ∧ Q' t a).
Proof. revert t. induction p; simpl; eauto. Qed.

Lemma wp_bind {A B} (p : prog S A) (f : A → prog S B) t Q :
  wp (p ≫= f) t Q ↔ wp p t (λ t a, wp (f a) t Q).
Proof.
  revert t. induction p as [a|o k IH]; intros t; simpl; [done|].
  split; intros H r; apply IH, H.
Qed.

Lemma wp_call (o : op S) t Q : wp (call o) t Q ↔ ∀ r, Q (t ++ [existT o r]) r.
Proof. done. Qed.

(** A specification proved from the empty trace can be used after any trace. *)
Lemma wp_frame {A} (p : prog S A) t (R : trace S → A → Prop) (Q : trace S → A → Prop) :
  always p R → (∀ t' a, R t' a → Q (t ++ t') a) → wp p t Q.
Proof.
  unfold always. intros HR HQ.
  assert (∀ t0, wp p t0 R → (∀ t' a, R (t0 ++ t') a → Q (t ++ t0 ++ t') a) →
                 wp p (t ++ t0) Q) as Hgen.
  { clear HR HQ. induction p as [a|o k IH]; intros t0 HR HQ; simpl in *.
    - specialize (HQ [] a). rewrite !app_nil_r in HQ. by apply HQ.
    - intros r. rewrite <-app_assoc. apply IH; [apply HR|].
      intros t' a. rewrite <-!app_assoc. apply HQ. }
  specialize (Hgen [] HR). rewrite app_nil_r in Hgen. by apply Hgen.
Qed.

(** What holds of all runs holds of the run in a concrete environment. *)
Lemma always_interp_trace {W A} (h : handler S W) (p : prog S A) w Q :
  always p Q → let '(_, t, a) := interp_trace h p w in Q t a.
Proof.
  unfold always. intros HQ.
  assert (∀ t0, wp p t0 Q → let '(_, t, a) := interp_trace h p w in Q (t0 ++ t) a) as Hgen.
  { clear HQ. revert w. induction p as [a|o k IH]; intros w t0 HQ; simpl in *.
    - by rewrite app_nil_r.
    - destruct (h o w) as [w' r]. specialize (IH r w' _ (HQ r)).
      destruct (interp_trace h (k r) w') as [[w'' t] a].
      by rewrite <-app_assoc in IH. }
  apply (Hgen [] HQ).
Qed.

Lemma interp_trace_interp {W A} (h : handler S W) (p : prog S A) w :
  interp h p w = ((interp_trace h p w).1.1, (interp_trace h p w).2).
Proof.
  revert w. induction p as [a|o k IH]; intros w; simpl; [done|].
  destruct (h o w) as [w' r]. rewrite IH.
  by destruct (interp_trace h (k r) w') as [[??] ?].
Qed.

Lemma interp_bind {W A B} (h : handler S W) (p : prog S A) (f : A → prog S B) w :
  interp h (p ≫= f) w = let '(w', a) := interp h p w in interp h (f a) w'.
Proof.
  revert w. induction p as [a|o k IH]; intros w; simpl; [done|].
  destruct (h o w) as [w' r]. apply IH.
Qed.

Lemma interp_call {W} (h : handler S W) (o : op S) w : interp h (call o) w = h o w.
Proof. simpl. by destruct (h o w). Qed.
End wp_rules.

(** What a program can return. *)
Definition returns {S A} (P : A → Prop) (p : prog S A) : Prop := always p (λ _ a, P a).

Section returns_rules.
Context {S : sig}.

Lemma wp_value {A} (P : A → Prop) (p : prog S A) t : returns P p → wp p t (λ _ a, P a).
Proof. intros Hp. by eapply wp_frame. Qed.

Lemma returns_any {A} (p : prog S A) : returns (λ _, True) p.
Proof. unfold returns, always. generalize (@nil (event S)). induction p; simpl; auto. Qed.

Lemma returns_ret {A} (P : A → Prop) (a : A) : P a → returns P (mret a : prog S A).
Proof. done. Qed.

Lemma returns_bind {A B} (P : A → Prop) (Q : B → Prop) (p : prog S A) (f : A → prog S B) :
  returns P p → (∀ a, P a → returns Q (f a)) → returns Q (p ≫= f).
Proof.
  intros Hp Hf. apply wp_bind. eapply wp_mono; [exact Hp|]. intros t a Ha. by apply wp_value, Hf.
Qed.

Lemma returns_seq {A B} (Q : B → Prop) (p : prog S A) (f : A → prog S B) :
  (∀ a, returns Q (f a)) → returns Q (p ≫= f).
Proof. intros Hf. eapply returns_bind; [apply returns_any|]. intros a _. apply Hf. Qed.
End returns_rules.

(** ** Ghost state

    [step] folds the events of a run into an abstract state; [gwp step p g Q]:
    started in the abstract state [g], every run of [p] ends in an abstract
    state and with a value that satisfy [Q]. *)

Fixpoint gwp {S G A} (step : G → event S → G) (p : prog S A) (g : G) (Q : G → A → Prop) : Prop :=
  match p with
  | Ret a => Q g a
  | Vis o k => ∀ r, gwp step (k r) (step g (existT o r)) Q
  end.

Section gwp_rules.
Context {S : sig} {G : Type} (step : G → event S → G).

Lemma gwp_mono {A} (p : prog S A) g (Q Q' : G → A → Prop) :
  gwp step p g Q → (∀ g a, Q g a → Q' g a) → gwp step p g Q'.
Proof. revert g. induction p; simpl; eauto. Qed.

Lemma gwp_bind {A B} (p : prog S A) (f : A → prog S B) g Q :
  gwp step (p ≫= f) g Q ↔ gwp step p g (λ g a, gwp step (f a) g Q).
Proof.
  revert g. induction p as [a|o k IH]; intros g; simpl; [done|].
  split; intros H r; apply IH, H.
Qed.

Lemma gwp_ret {A} (a : A) g Q : gwp step (mret a) g Q ↔ Q g a.
Proof. done. Qed.

Lemma gwp_always {A} (p : prog S A) g Q :
  gwp step p g Q → always p (λ t a, Q (foldl step g t) a).
Proof.
  unfold always. intros HQ.
  assert (∀ t, gwp step p (foldl step g t) Q → wp p t (λ t a, Q (foldl step g t) a)) as Hgen.
  { clear HQ. induction p as [a|o k IH]; intros t HQ; simpl in *; [done|].
    intros r. apply IH. rewrite foldl_app. apply HQ. }
  by apply (Hgen []).
Qed.
End gwp_rules.

(** An invariant of the environment's state that every operation a program can
    perform preserves is preserved by the program. *)
Fixpoint uses_only {S A} (P : op S → Prop) (p : prog S A) : Prop :=
  match p with
  | Ret _ => True
  | Vis o k => P o ∧ ∀ r, uses_only P (k r)
  end.

Lemma uses_only_bind {S A B} (P : op S → Prop) (p : prog S A) (f : A → prog S B) :
  uses_only P p → (∀ a, uses_only P (f a)) → uses_only P (p ≫= f).
Proof. induction p; simpl; naive_solver. Qed.

Lemma uses_only_mono {S A} (P P' : op S → Prop) (p : prog S A) :
  uses_only P p → (∀ o, P o → P' o) → uses_only P' p.
Proof. induction p; simpl; naive_solver. Qed.

Lemma uses_only_interp {S W A} (P : op S → Prop) (h : handler S W) (I : W → Prop) (p : prog S A) w :
  uses_only P p → (∀ o w, P o → I w → I (h o w).1) → I w → I (interp h p w).1.
Proof.
  intros Hp Hh. revert w. induction p as [a|o k IH]; intros w Hw; simpl in *; [done|].
  destruct Hp as [Ho Hk]. specialize (Hh o w Ho Hw).
  destruct (h o w) as [w' r]. by apply IH.
Qed.

Lemma uses_only_gwp {S G A} (P : op S → Prop) (step : G → event S → G) (p : prog S A) g (Q : G → A → Prop) :
  uses_only P p → (∀ e, P (projT1 e) → step g e = g) → (∀ a, Q g a) → gwp step p g Q.
Proof.
  intros Hp Hstep HQ. induction p as [a|o k IH]; simpl in *; [done|].
  destruct Hp as [Ho Hk]. intros r. rewrite Hstep by done. by apply IH.
Qed.

Lemma uses_only_trace {S A} (P : op S → Prop) (p : prog S A) :
  uses_only P p → always p (λ t _, Forall (λ e, P (projT1 e)) t).
Proof.
  unfold always.
  assert (∀ t, uses_only P p → Forall (λ e, P (projT1 e)) t →
               wp p t (λ t _, Forall (λ e, P (projT1 e)) t)) as Hgen.
  { induction p as [a|o k IH]; intros t Hp Ht; simpl in *; [done|].
    destruct Hp as [Ho Hk]. intros r. apply IH; [done|].
    apply Forall_app; split; [done|]. by repeat constructor. }
  intros Hp. by apply Hgen.
Qed.

(** ** State with errors

    Straight-line code on a mutable object whose calls can fail: a failing call
    ends the function ([if err != nil { return err }]), keeping the state it
    left behind. *)

Definition est (T A : Type) : Type := T → T * result A.

#[global] Instance est_ret {T} : MRet (est T) := λ _ a s, (s, Ok a).
#[global] Instance est_bind {T} : MBind (est T) :=
  λ _ _ f m s,
    match m s with
    | (s', Ok a) => f a s'
    | (s', Err e) => (s', Err e)
    end.

Definition fail {T A} (e : error) : est T A := λ s, (s, Err e).

(** [wrap f m]: the error of [m], if any, is wrapped by [f]. *)
Definition wrap {T A} (f : error → error) (m : est T A) : est T A :=
  λ s, let '(s', r) := m s in (s', map_err f r).

(** A pure fallible step. *)
Definition lift_result {T A} (r : result A) : est T A := λ s, (s, r).

Lemma est_bind_eq {T A B} (m : est T A) (f : A → est T B) s :
  (m ≫= f) s = match m s with (s', Ok a) => f a s' | (s', Err e) => (s', Err e) end.
Proof. done. Qed.

Lemma est_bind_ok {T A B} (m : est T A) (f : A → est T B) s s' a :
  m s = (s', Ok a) → (m ≫= f) s = f a s'.
Proof. intros H. by rewrite est_bind_eq, H. Qed.

Lemma est_bind_err {T A B} (m : est T A) (f : A → est T B) s s' e :
  m s = (s', Err e) → (m ≫= f) s = (s', Err e).
Proof. intros H. by rewrite est_bind_eq, H. Qed.

(** Inversion of a successful sequence. *)
Lemma est_bind_ok_inv {T A B} (m : est T A) (f : A → est T B) s s'' b :
  (m ≫= f) s = (s'', Ok b) → ∃ s' a, m s = (s', Ok a) ∧ f a s' = (s'', Ok b).
Proof. rewrite est_bind_eq. destruct (m s) as [s' [a|e]]; naive_solver. Qed.

Lemma wrap_ok {T A} f (m : est T A) s s' a : wrap f m s = (s', Ok a) ↔ m s = (s', Ok a).
Proof. unfold wrap. destruct (m s) as [? [?|?]]; simpl; naive_solver. Qed.

Lemma wrap_state {T A} f (m : est T A) s : (wrap f m s).1 = (m s).1.
Proof. unfold wrap. by destruct (m s) as [? [?|?]]. Qed.

(** ** Lists *)

Lemma list_filter_iff_in {A} (P Q : A → Prop) `{!∀ x, Decision (P x), !∀ x, Decision (Q x)} (l : list A) :
  (∀ x, x ∈ l → P x ↔ Q x) → filter P l = filter Q l.
Proof.
  induction l as [|x l IH]; intros Hiff; [done|].
  rewrite !filter_cons, IH by set_solver. destruct (decide (P x)), (decide (Q x)); set_solver.
Qed.

Lemma list_filter_all {A} (P : A → Prop) `{!∀ x, Decision (P x)} (l : list A) :
  (∀ x, x ∈ l → P x) → filter P l = l.
Proof.
  induction l as [|x l IH]; intros Hall; [done|].
  rewrite filter_cons_True, IH by set_solver. done.
Qed.

Lemma list_filter_none {A} (P : A → Prop) `{!∀ x, Decision (P x)} (l : list A) :
  (∀ x, x ∈ l → ¬ P x) → filter P l = [].
Proof.
  induction l as [|x l IH]; intros Hall; [done|].
  rewrite filter_cons_False, IH by set_solver. done.
Qed.

Lemma list_filter_map {A B} (f : A → B) (P : B → Prop) `{!∀ x, Decision (P x)} (l : list A) :
  filter P (f <$> l) = f <$> filter (λ x, P (f x)) l.
Proof.
  induction l as [|x l IH]; [done|]. rewrite fmap_cons, !filter_cons, IH.
  by destruct (decide (P (f x))).
Qed.

(** A key that is unique in a list determines the element. *)
Lemma NoDup_fmap_inj {A B} (f : A → B) (l : list A) x y :
  NoDup (f <$> l) → x ∈ l → y ∈ l → f x = f y → x = y.
Proof.
  induction l as [|z l IH]; [set_solver|]. rewrite fmap_cons, NoDup_cons, !elem_of_cons.
  intros [Hz Hl] [->|Hx] [->|Hy] E; [done| | |by apply IH].
  - exfalso. apply Hz. rewrite E. by apply list_elem_of_fmap_2.
  - exfalso. apply Hz. rewrite <-E. by apply list_elem_of_fmap_2.
Qed.
