(* ===== verification/Bytes.v ===== *)
(** * Bytes: machine integers, byte slices and little-endian fields

    What the code uses of Go's [byte], [uint16] and [uint32], of slices that are
    filled in place ([make], [copy], indexing) and of [encoding/binary]'s
    little-endian accessors.  A [[]byte] is a [list byte]; a machine integer is
    a [Z] whose width is written out where the code converts. *)

From S2P Require Import Prelude.
From Stdlib Require Import Lia ZArith.
Open Scope Z_scope.

(** ** Machine integers *)

Definition u8 (z : Z) : Z := z mod 256.
Definition u16 (z : Z) : Z := z mod 65536.
Definition u32 (z : Z) : Z := z mod 4294967296.
Definition u64 (z : Z) : Z := z mod 18446744073709551616.

Definition is_u16 (z : Z) : Prop := 0 ≤ z < 65536.
Definition is_u32 (z : Z) : Prop := 0 ≤ z < 4294967296.

(** ** Bytes *)

#[global] Instance byte_eq_dec : EqDecision byte := Byte.byte_eq_dec.

Definition b2z (b : byte) : Z := Z.of_N (Byte.to_N b).

(** [byte(z)]: the conversion keeps the low eight bits. *)
Definition z2b (z : Z) : byte := default x00 (Byte.of_N (Z.to_N (u8 z))).

Lemma b2z_range b : 0 ≤ b2z b < 256.
Proof. unfold b2z. pose proof (Byte.to_N_bounded b). lia. Qed.

Lemma b2z_z2b z : b2z (z2b z) = u8 z.
Proof.
  unfold b2z, z2b, u8. pose proof (Z.mod_pos_bound z 256 ltac:(lia)).
  destruct (Byte.of_N (Z.to_N (z mod 256))) as [b|] eqn:E; simpl.
  - apply Byte.to_of_N in E. rewrite E. lia.
  - apply Byte.of_N_None_iff in E. lia.
Qed.

Lemma b2z_inj a b : b2z a = b2z b → a = b.
Proof.
  unfold b2z. intros H%N2Z.inj.
  pose proof (Byte.of_to_N a) as Ha. pose proof (Byte.of_to_N b) as Hb. congruence.
Qed.

Lemma z2b_b2z b : z2b (b2z b) = b.
Proof.
  apply b2z_inj. rewrite b2z_z2b. apply Z.mod_small, b2z_range.
Qed.

Lemma b2z_z2b_small z : 0 ≤ z < 256 → b2z (z2b z) = z.
Proof. intros. rewrite b2z_z2b. by apply Z.mod_small. Qed.

Lemma z2b_u8 z : z2b (u8 z) = z2b z.
Proof. apply b2z_inj. rewrite !b2z_z2b. unfold u8. by rewrite Z.mod_mod. Qed.

Definition band (a b : byte) : byte := z2b (Z.land (b2z a) (b2z b)).

(** ** Little-endian integers *)

Fixpoint le_put (n : nat) (z : Z) : list byte :=
  match n with
  | O => []
  | S n => z2b z :: le_put n (Z.shiftr z 8)
  end.

Fixpoint le_get (bs : list byte) : Z :=
  match bs with
  | [] => 0
  | b :: bs => Z.lor (b2z b) (Z.shiftl (le_get bs) 8)
  end.

(** [byteOrder.PutUint16(b, v)] writes [le_put 2 v]; [byteOrder.Uint16(b)] reads
    [le_get] of the first two bytes. *)
Definition put_u16 (v : Z) : list byte := le_put 2 v.
Definition put_u32 (v : Z) : list byte := le_put 4 v.

Lemma length_le_put n z : length (le_put n z) = n.
Proof. revert z; induction n; intros; simpl; auto. Qed.

Lemma lor_shiftl8 a x : 0 ≤ a < 256 → Z.lor a (Z.shiftl x 8) = a + 256 * x.
Proof.
  intros Ha. rewrite Z.shiftl_mul_pow2 by lia. change (2 ^ 8) with 256.
  pose proof (Z.add_lor_land a (x * 256)) as Hadd.
  enough (Z.land a (x * 256) = 0) by lia. clear Hadd.
  apply Z.bits_inj'. intros n Hn. rewrite Z.land_spec, Z.bits_0.
  change 256 with (2 ^ 8) in *. rewrite Z.mul_pow2_bits by lia.
  destruct (decide (n < 8)).
  - rewrite (Z.testbit_neg_r x) by lia. by rewrite andb_false_r.
  - replace a with (a mod 2 ^ 8) by (apply Z.mod_small; lia).
    by rewrite Z.mod_pow2_bits_high by lia.
Qed.

Lemma le_get_cons b bs : le_get (b :: bs) = b2z b + 256 * le_get bs.
Proof. simpl. apply lor_shiftl8, b2z_range. Qed.

Lemma le_get_nonneg bs : 0 ≤ le_get bs.
Proof.
  induction bs as [|b bs IH]; [simpl; lia|].
  rewrite le_get_cons. pose proof (b2z_range b). lia.
Qed.

Lemma le_get_bound bs : 0 ≤ le_get bs < 256 ^ Z.of_nat (length bs).
Proof.
  induction bs as [|b bs IH]; [simpl; lia|].
  rewrite le_get_cons. cbn [length]. rewrite Nat2Z.inj_succ, Z.pow_succ_r by lia.
  pose proof (b2z_range b). lia.
Qed.

Lemma le_get_put n z : 0 ≤ z < 256 ^ Z.of_nat n → le_get (le_put n z) = z.
Proof.
  revert z. induction n as [|n IH]; intros z Hz.
  - simpl in *. lia.
  - rewrite Nat2Z.inj_succ, Z.pow_succ_r in Hz by lia.
    cbn [le_put]. rewrite le_get_cons, b2z_z2b, Z.shiftr_div_pow2 by lia.
    change (2 ^ 8) with 256. unfold u8. rewrite IH.
    + pose proof (Z.div_mod z 256 ltac:(lia)). lia.
    + split; [apply Z.div_pos; lia|apply Z.div_lt_upper_bound; lia].
Qed.

Lemma le_put_get bs : le_put (length bs) (le_get bs) = bs.
Proof.
  induction bs as [|b bs IH]; [done|].
  cbn [length le_put]. rewrite le_get_cons. pose proof (b2z_range b).
  f_equal.
  - apply b2z_inj. rewrite b2z_z2b. unfold u8.
    rewrite (Z.mul_comm 256), Z.mod_add by lia. by apply Z.mod_small.
  - rewrite Z.shiftr_div_pow2 by lia. change (2 ^ 8) with 256.
    by rewrite (Z.mul_comm 256), Z.div_add, (Z.div_small (b2z b)) by lia.
Qed.

Lemma le_get_put_u16 z : is_u16 z → le_get (put_u16 z) = z.
Proof. intros. by apply (le_get_put 2). Qed.

Lemma le_get_put_u32 z : is_u32 z → le_get (put_u32 z) = z.
Proof. intros. by apply (le_get_put 4). Qed.

Lemma le_get_replicate0 n : le_get (replicate n x00) = 0.
Proof. induction n as [|n IH]; [done|]. cbn [replicate]. by rewrite le_get_cons, IH. Qed.

(** ** Slices filled in place *)

(** [make([]byte, n)] *)
Definition make (n : nat) : list byte := replicate n x00.

(** The slice [buf] after [copy(buf[off:], src)] when [src] fits. *)
Definition write_at (off : nat) (src buf : list byte) : list byte :=
  take off buf ++ src ++ drop (off + length src) buf.

(** [copy(buf[off:off+lim], src)]: at most [lim] bytes are copied. *)
Definition copy_at (off lim : nat) (src buf : list byte) : list byte :=
  write_at off (take lim src) buf.

(** [buf[off] = b] *)
Definition set_byte (off : nat) (b : Z) (buf : list byte) : list byte :=
  write_at off [z2b b] buf.

(** [buf[off:off+n]] *)
Definition read_at (off n : nat) (buf : list byte) : list byte := take n (drop off buf).

(** [buf[off]] *)
Definition get_byte (off : nat) (buf : list byte) : Z := le_get (read_at off 1 buf).

Definition get_u16 (off : nat) (buf : list byte) : Z := le_get (read_at off 2 buf).
Definition get_u32 (off : nat) (buf : list byte) : Z := le_get (read_at off 4 buf).

Lemma length_make n : length (make n) = n.
Proof. apply length_replicate. Qed.

Lemma length_write_at off src buf :
  (off + length src ≤ length buf)%nat → length (write_at off src buf) = length buf.
Proof. intros. unfold write_at. rewrite !length_app, length_take, length_drop. lia. Qed.

Lemma read_write_eq off src buf n :
  n = length src → (off + length src ≤ length buf)%nat →
  read_at off n (write_at off src buf) = src.
Proof.
  intros -> Hle. unfold read_at, write_at.
  rewrite drop_app_length' by (rewrite length_take; lia).
  by rewrite take_app_length.
Qed.

Lemma read_write_ne off off' n src buf :
  (off + length src ≤ length buf)%nat →
  (off' + n ≤ off ∨ off + length src ≤ off')%nat →
  read_at off' n (write_at off src buf) = read_at off' n buf.
Proof.
  intros Hle Hdis. unfold read_at, write_at. apply list_eq. intros i.
  destruct (decide (i < n)%nat) as [Hi|Hi].
  2: { rewrite !lookup_take_ge by lia. done. }
  rewrite !lookup_take_lt, !lookup_drop by lia.
  destruct Hdis as [Hd|Hd].
  - rewrite lookup_app_l by (rewrite length_take; lia).
    by rewrite lookup_take_lt by lia.
  - rewrite lookup_app_r by (rewrite length_take; lia). rewrite length_take.
    rewrite lookup_app_r by lia. rewrite lookup_drop. f_equal. lia.
Qed.

Lemma read_make off n m : (off + n ≤ m)%nat → read_at off n (make m) = make n.
Proof.
  intros. unfold read_at, make. rewrite drop_replicate, take_replicate. f_equal. lia.
Qed.

Lemma length_read_at off n buf : (off + n ≤ length buf)%nat → length (read_at off n buf) = n.
Proof. intros. unfold read_at. rewrite length_take, length_drop. lia. Qed.

Lemma read_write_prefix off n src buf :
  (length src ≤ n)%nat → (off + length src ≤ length buf)%nat →
  read_at off n (write_at off src buf) =
    src ++ read_at (off + length src) (n - length src) buf.
Proof.
  intros Hn Hle. unfold read_at, write_at.
  rewrite drop_app_length' by (rewrite length_take; lia).
  by rewrite take_app_ge, Nat.add_comm by lia.
Qed.

Lemma take_full {A} n (l : list A) : (length l ≤ n)%nat → take n l = l.
Proof. apply take_ge. Qed.

(** The automation for the fields of a message.  [layout] unfolds the layout
    constants, [wlen] computes the length of a message under construction, and
    [wire] evaluates reads of fields: a read of the field last written is what
    was written, a read of another field skips the write. *)
Create HintDb layout.

Ltac wlen :=
  lazymatch goal with
  | |- context [length (write_at ?o ?s ?b)] => rewrite (length_write_at o s b) by wlen; wlen
  | |- context [length (make ?n)] => rewrite (length_make n); wlen
  | |- context [length (le_put ?n ?z)] => rewrite (length_le_put n z); wlen
  | |- context [length (put_u16 ?z)] => change (length (put_u16 z)) with 2%nat; wlen
  | |- context [length (put_u32 ?z)] => change (length (put_u32 z)) with 4%nat; wlen
  | |- context [length (take ?n ?l)] => rewrite (length_take l n); wlen
  | |- _ => autounfold with layout in *; cbn [length] in *; lia
  end.

Ltac wire :=
  repeat first
    [ rewrite read_write_eq by wlen
    | rewrite read_write_ne by wlen
    | rewrite read_make by wlen ].
