(* ===== verification/Protocol.v ===== *)
(** * Protocol: grout's request/response framing (src/pkg/groutapi/protocol.go)

    The connection is a byte stream to a peer outside the repository.  What the
    peer does with the bytes written to it, and which bytes it sends back, is
    the [Peer] interface; reading past what the peer has sent reports how the
    stream ended. *)

From S2P Require Import Prelude Bytes.
From Stdlib Require Import Lia ZArith.
Open Scope Z_scope.

(** ** The connection ([net.Conn]) *)

(** [peer_write p bs] is the peer after it was sent [bs]: its new state, whether
    the write succeeded, and the bytes it sends back. *)
Class Peer (P : Type) := { peer_write : P → list byte → P * result unit * list byte }.

(** How a read ends when the peer sends nothing more: it closed the stream, or
    the read fails with an error of the operating system. *)
Inductive stream_end := Closed | Broken (e : error).

Record Conn (P : Type) := mkConn {
  c_peer : P;            (* the other side *)
  c_in : list byte;      (* bytes received and not yet read *)
  c_end : stream_end;    (* what follows them *)
  c_closed : bool        (* [Close] was called *)
}.
Arguments mkConn {P}.
Arguments c_peer {P}.
Arguments c_in {P}.
Arguments c_end {P}.
Arguments c_closed {P}.

Section conn.
Context `{Peer P}.

(** [w.Write(bs)] *)
Definition conn_write (bs : list byte) : est (Conn P) unit := λ c,
  let '(p, r, inb) := peer_write (c_peer c) bs in
  (mkConn p (c_in c ++ inb) (c_end c) (c_closed c), r).

(** [io.ReadFull(r, buf)] with [len(buf) = n]: either [n] bytes, or the error
    that ended the stream, [io.ErrUnexpectedEOF] when it ended half way. *)
Definition read_full (n : nat) : est (Conn P) (list byte) := λ c,
  if decide (n ≤ length (c_in c))%nat then
    (mkConn (c_peer c) (drop n (c_in c)) (c_end c) (c_closed c), Ok (take n (c_in c)))
  else
    (mkConn (c_peer c) [] (c_end c) (c_closed c),
     Err (match c_end c, c_in c with
          | Broken e, _ => e
          | Closed, [] => EOF
          | Closed, _ :: _ => ErrUnexpectedEOF
          end)).

Definition conn_close : est (Conn P) unit := λ c,
  (mkConn (c_peer c) (c_in c) (c_end c) true, Ok tt).
End conn.

(** ** Constants *)

Definition maxMsgLen : Z := 128 * 1024.
Definition apiVersion : Z := 3.
Definition DefaultSocketPath : gostring := str "/run/grout/grout.sock".

Definition moduleMain : Z := 0xcafe.
Definition moduleInfra : Z := 0xacdc.
Definition moduleIP4 : Z := 0xf00d.
Definition moduleIP6 : Z := 0xfeed.
Definition moduleL2 : Z := 0xbabe.

(** [GR_MSG_TYPE(module, id)] *)
Definition msg_type (module id : Z) : Z := Z.lor (Z.shiftl module 16) id.

Definition TypeHello : Z := msg_type moduleMain 0x1981.
Definition TypeIfaceAdd : Z := msg_type moduleInfra 0x0001.
Definition TypeIfaceDel : Z := msg_type moduleInfra 0x0002.
Definition TypeIfaceList : Z := msg_type moduleInfra 0x0004.
Definition TypeIP4RouteAdd : Z := msg_type moduleIP4 0x0001.
Definition TypeIP4RouteDel : Z := msg_type moduleIP4 0x0002.
Definition TypeIP4AddrAdd : Z := msg_type moduleIP4 0x0005.
Definition TypeIP4AddrDel : Z := msg_type moduleIP4 0x0006.
Definition TypeIP4AddrFlush : Z := msg_type moduleIP4 0x0008.
Definition TypeIP6RouteAdd : Z := msg_type moduleIP6 0x0001.
Definition TypeIP6RouteDel : Z := msg_type moduleIP6 0x0002.
Definition TypeIP6AddrAdd : Z := msg_type moduleIP6 0x0005.
Definition TypeIP6AddrDel : Z := msg_type moduleIP6 0x0006.
Definition TypeIP6AddrFlush : Z := msg_type moduleIP6 0x0008.
Definition TypeFloodAdd : Z := msg_type moduleL2 0x0007.
Definition TypeFloodDel : Z := msg_type moduleL2 0x0008.
Definition TypeFloodList : Z := msg_type moduleL2 0x0009.

(** The lower-case aliases of the source ([typeHello] and so on) denote the same
    constants; the list of all of them. *)
Definition msg_types : list Z :=
  [TypeHello; TypeIfaceAdd; TypeIfaceDel; TypeIfaceList; TypeIP4RouteAdd; TypeIP4RouteDel;
   TypeIP4AddrAdd; TypeIP4AddrDel; TypeIP4AddrFlush; TypeIP6RouteAdd; TypeIP6RouteDel;
   TypeIP6AddrAdd; TypeIP6AddrDel; TypeIP6AddrFlush; TypeFloodAdd; TypeFloodDel; TypeFloodList].

(** ** Headers *)

Record RequestHeader := mkRequestHeader { rq_ID : Z; rq_Type : Z; rq_PayloadLen : Z }.
Record ResponseHeader := mkResponseHeader { rs_ForID : Z; rs_Status : Z; rs_PayloadLen : Z }.

(** [binary.Write(w, byteOrder, hdr)]: the three [uint32] fields in order. *)
Definition encode_header (a b c : Z) : list byte := put_u32 a ++ put_u32 b ++ put_u32 c.

Definition encode_request_header (h : RequestHeader) : list byte :=
  encode_header (rq_ID h) (rq_Type h) (rq_PayloadLen h).
Definition encode_response_header (h : ResponseHeader) : list byte :=
  encode_header (rs_ForID h) (rs_Status h) (rs_PayloadLen h).

Definition decode_request_header (bs : list byte) : RequestHeader :=
  mkRequestHeader (get_u32 0 bs) (get_u32 4 bs) (get_u32 8 bs).
Definition decode_response_header (bs : list byte) : ResponseHeader :=
  mkResponseHeader (get_u32 0 bs) (get_u32 4 bs) (get_u32 8 bs).

Definition header_size : nat := 12.

(** ** Framing *)

Section framing.
Context `{Peer P}.

Definition writeRequest (id msgType : Z) (payload : list byte) : est (Conn P) unit :=
  let hdr := mkRequestHeader id msgType (u32 (Z.of_nat (length payload))) in
  wrap (λ e, Errorf "writing request header: %w" [AErr e])
    (conn_write (encode_request_header hdr)) ≫= λ _,
  if decide (0 < length payload)%nat then
    wrap (λ e, Errorf "writing request payload: %w" [AErr e]) (conn_write payload)
  else mret tt.

Definition readResponse : est (Conn P) (ResponseHeader * list byte) :=
  bs ← wrap (λ e, Errorf "reading response header: %w" [AErr e]) (read_full header_size);
  let hdr := decode_response_header bs in
  if decide (rs_PayloadLen hdr > maxMsgLen) then
    fail (Errorf "response payload too large: %d" [AInt (rs_PayloadLen hdr)])
  else if decide (rs_PayloadLen hdr > 0) then
    payload ← wrap (λ e, Errorf "reading response payload: %w" [AErr e])
                (read_full (Z.to_nat (rs_PayloadLen hdr)));
    mret (hdr, payload)
  else mret (hdr, []).
End framing.

(** ** Facts *)

Lemma length_encode_header a b c : length (encode_header a b c) = header_size.
Proof. unfold encode_header, put_u32. by rewrite !length_app, !length_le_put. Qed.

Lemma length_encode_response_header h : length (encode_response_header h) = header_size.
Proof. apply length_encode_header. Qed.

Lemma get_u32_encode_0 a b c tl : is_u32 a → get_u32 0 (encode_header a b c ++ tl) = a.
Proof. intros. unfold get_u32, read_at, encode_header. simpl. by apply le_get_put_u32. Qed.

Lemma get_u32_encode_4 a b c tl : is_u32 b → get_u32 4 (encode_header a b c ++ tl) = b.
Proof. intros. unfold get_u32, read_at, encode_header. simpl. by apply le_get_put_u32. Qed.

Lemma get_u32_encode_8 a b c tl : is_u32 c → get_u32 8 (encode_header a b c ++ tl) = c.
Proof. intros. unfold get_u32, read_at, encode_header. simpl. by apply le_get_put_u32. Qed.

Lemma get_u32_range off bs : is_u32 (get_u32 off bs).
Proof.
  unfold get_u32, is_u32, read_at.
  pose proof (le_get_bound (take 4 (drop off bs))) as [? Hub]. split; [done|].
  eapply Z.lt_le_trans; [done|]. change 4294967296 with (256 ^ 4).
  apply Z.pow_le_mono_r; [lia|]. rewrite length_take. lia.
Qed.

Definition wf_response_header (h : ResponseHeader) : Prop :=
  is_u32 (rs_ForID h) ∧ is_u32 (rs_Status h) ∧ is_u32 (rs_PayloadLen h).

Lemma decode_encode_response_header h :
  wf_response_header h → decode_response_header (encode_response_header h) = h.
Proof.
  intros (H1 & H2 & H3). destruct h as [a b c]; simpl in *.
  unfold decode_response_header, encode_response_header; simpl.
  rewrite <-(app_nil_r (encode_header a b c)).
  by rewrite get_u32_encode_0, get_u32_encode_4, get_u32_encode_8.
Qed.

Lemma encode_decode_response_header bs :
  length bs = header_size → encode_response_header (decode_response_header bs) = bs.
Proof.
  intros Hl. unfold encode_response_header, decode_response_header, encode_header, put_u32, get_u32.
  cbn [rs_ForID rs_Status rs_PayloadLen].
  assert (∀ off, (off + 4 ≤ 12)%nat → le_put 4 (le_get (read_at off 4 bs)) = read_at off 4 bs) as Hp.
  { intros off Ho. rewrite <-(le_put_get (read_at off 4 bs)) at 2.
    rewrite length_read_at by (rewrite Hl; done). done. }
  rewrite !Hp by lia. unfold read_at.
  do 13 (destruct bs as [|? bs]; try done).
Qed.

Lemma wf_decode_response_header bs : wf_response_header (decode_response_header bs).
Proof. repeat split; apply get_u32_range. Qed.

(** The bytes of one response. *)
Definition response_frame (id status : Z) (payload : list byte) : list byte :=
  encode_response_header (mkResponseHeader id status (Z.of_nat (length payload))) ++ payload.

(** The bytes of one request. *)
Definition request_frame (id msgType : Z) (payload : list byte) : list byte :=
  encode_request_header (mkRequestHeader id msgType (u32 (Z.of_nat (length payload)))) ++ payload.

Lemma length_response_frame id st p : length (response_frame id st p) = (12 + length p)%nat.
Proof. unfold response_frame, encode_response_header. by rewrite length_app, length_encode_header. Qed.

Section framing_facts.
Context `{Peer P}.
Implicit Types c : Conn P.

(** The connection with other bytes to read. *)
Definition set_in c (bs : list byte) : Conn P := mkConn (c_peer c) bs (c_end c) (c_closed c).

Lemma set_in_in c : set_in c (c_in c) = c.
Proof. by destruct c. Qed.

Lemma read_full_ok c n bs rest :
  c_in c = bs ++ rest → n = length bs → read_full n c = (set_in c rest, Ok bs).
Proof.
  intros Hin ->. unfold read_full. rewrite Hin.
  rewrite decide_True by (rewrite length_app; lia).
  by rewrite drop_app_length, take_app_length.
Qed.

Lemma read_full_ok_inv c c' n bs :
  read_full n c = (c', Ok bs) → c_in c = bs ++ c_in c' ∧ length bs = n ∧ c' = set_in c (c_in c').
Proof.
  unfold read_full. case_decide; intros; simplify_eq. simpl.
  rewrite take_drop, length_take. repeat split; lia.
Qed.

Lemma read_full_short c n : (length (c_in c) < n)%nat → ∃ e, read_full n c = (set_in c [], Err e).
Proof. intros. unfold read_full. rewrite decide_False by lia. eauto. Qed.

Lemma readResponse_ok c id st payload rest :
  is_u32 id → is_u32 st → Z.of_nat (length payload) ≤ maxMsgLen →
  c_in c = response_frame id st payload ++ rest →
  readResponse c = (set_in c rest,
    Ok (mkResponseHeader id st (Z.of_nat (length payload)), payload)).
Proof.
  intros Hid Hst Hlen Hin. unfold readResponse.
  set (hdr := mkResponseHeader id st (Z.of_nat (length payload))).
  assert (wf_response_header hdr) as Hwf.
  { repeat split; simpl; try apply Hid; try apply Hst; unfold maxMsgLen in Hlen; lia. }
  unfold response_frame in Hin. fold hdr in Hin. rewrite <-app_assoc in Hin.
  pose proof (read_full_ok c header_size _ _ Hin
                (eq_sym (length_encode_response_header _))) as Hrd.
  rewrite (est_bind_ok _ _ _ (set_in c (payload ++ rest)) (encode_response_header hdr))
    by (by apply wrap_ok).
  rewrite decode_encode_response_header by done. cbn [rs_PayloadLen hdr].
  rewrite decide_False by (unfold maxMsgLen in *; lia).
  destruct (decide (Z.of_nat (length payload) > 0)) as [Hpos|Hz].
  - rewrite Nat2Z.id.
    rewrite (est_bind_ok _ _ _ (set_in c rest) payload).
    { done. }
    apply wrap_ok. rewrite (read_full_ok (set_in c (payload ++ rest)) _ payload rest); done.
  - destruct payload; [|simpl in Hz; lia]. done.
Qed.

Lemma readResponse_ok_inv c c' hdr payload :
  readResponse c = (c', Ok (hdr, payload)) →
  c_in c = response_frame (rs_ForID hdr) (rs_Status hdr) payload ++ c_in c' ∧
  rs_PayloadLen hdr = Z.of_nat (length payload) ∧ rs_PayloadLen hdr ≤ maxMsgLen ∧
  wf_response_header hdr ∧ c' = set_in c (c_in c').
Proof.
  unfold readResponse. intros (c1 & bs & Hr1%wrap_ok & Hk)%est_bind_ok_inv.
  apply read_full_ok_inv in Hr1 as (Hin1 & Hl1 & Hc1).
  pose proof (wf_decode_response_header bs) as Hwf.
  pose proof (encode_decode_response_header bs Hl1) as Henc.
  set (h := decode_response_header bs) in *.
  destruct (decide (rs_PayloadLen h > maxMsgLen)); [done|].
  destruct (decide (rs_PayloadLen h > 0)) as [Hpos|Hz].
  - apply est_bind_ok_inv in Hk as (c2 & p & Hr2%wrap_ok & Hk).
    apply read_full_ok_inv in Hr2 as (Hin2 & Hl2 & Hc2).
    injection Hk as -> <- <-.
    assert (rs_PayloadLen h = Z.of_nat (length p)) as Hpl by lia.
    unfold response_frame. rewrite <-Hpl, Hin1, Hin2, <-app_assoc.
    split_and!; [|done|lia|apply Hwf|by rewrite Hc2, Hc1].
    rewrite <-Henc at 1. by destruct h.
  - injection Hk as -> <- <-. pose proof Hwf as (_ & _ & [? _]).
    assert (rs_PayloadLen h = Z.of_nat 0) as Hpl by lia.
    unfold response_frame. cbn [length]. rewrite <-Hpl, Hin1, app_nil_r.
    split_and!; [|done|lia|apply Hwf|done].
    rewrite <-Henc at 1. by destruct h.
Qed.

Lemma readResponse_decreases c c' hp :
  readResponse c = (c', Ok hp) → (length (c_in c') + 12 ≤ length (c_in c))%nat.
Proof.
  destruct hp as [hdr payload]. intros (Hin & _)%readResponse_ok_inv.
  rewrite Hin, length_app, length_response_frame. lia.
Qed.
End framing_facts.

(** ** Properties of the framing *)

(** C27: Reading a response is exact: [readResponse] succeeds with a header and a
    payload if and only if the bytes received start with the frame of that
    response (header fields in range, payload of the announced length and at
    most [maxMsgLen] bytes), and it consumes that frame and nothing else. *)
Theorem readResponse_exact `{Peer P} (c c' : Conn P) hdr payload :
  readResponse c = (c', Ok (hdr, payload)) ↔
  c_in c = response_frame (rs_ForID hdr) (rs_Status hdr) payload ++ c_in c' ∧
  rs_PayloadLen hdr = Z.of_nat (length payload) ∧ rs_PayloadLen hdr ≤ maxMsgLen ∧
  wf_response_header hdr ∧ c' = set_in c (c_in c').
Proof.
  split; [apply readResponse_ok_inv|].
  intros (Hin & Hlen & Hmax & (Hid & Hst & _) & ->).
  rewrite (readResponse_ok c _ _ payload _ Hid Hst ltac:(lia) Hin).
  destruct hdr; simpl in *. by subst.
Qed.

Lemma readResponse_header_step `{Peer P} (c : Conn P) hdr rest :
  wf_response_header hdr → c_in c = encode_response_header hdr ++ rest →
  rs_PayloadLen hdr > maxMsgLen →
  readResponse c = (set_in c rest, Err (Errorf "response payload too large: %d" [AInt (rs_PayloadLen hdr)])).
Proof.
  intros Hwf Hin Hbig. unfold readResponse.
  rewrite (est_bind_ok _ _ _ (set_in c rest) (encode_response_header hdr)).
  - rewrite decode_encode_response_header by done. by rewrite decide_True.
  - apply wrap_ok. apply read_full_ok; [done|]. by rewrite length_encode_response_header.
Qed.

Lemma readResponse_short_payload `{Peer P} (c : Conn P) hdr part :
  wf_response_header hdr → c_in c = encode_response_header hdr ++ part →
  rs_PayloadLen hdr ≤ maxMsgLen → (length part < Z.to_nat (rs_PayloadLen hdr))%nat →
  ∃ e, readResponse c = (set_in c [], Err e).
Proof.
  intros Hwf Hin Hle Hlt. unfold readResponse.
  rewrite (est_bind_ok _ _ _ (set_in c part) (encode_response_header hdr)).
  - rewrite decode_encode_response_header by done.
    rewrite decide_False by lia. rewrite decide_True by lia.
    destruct (read_full_short (set_in c part) (Z.to_nat (rs_PayloadLen hdr)) Hlt) as [e He].
    eexists. erewrite est_bind_err; [done|]. unfold wrap. by rewrite He.
  - apply wrap_ok. apply read_full_ok; [done|]. by rewrite length_encode_response_header.
Qed.

(** A stream that ends inside a response is an error: whatever proper prefix
    of a response frame was received, [readResponse] fails, and never returns
    a shortened payload. *)
Theorem readResponse_truncated `{Peer P} (c : Conn P) id st payload got missing :
  is_u32 id → is_u32 st → Z.of_nat (length payload) ≤ maxMsgLen →
  response_frame id st payload = got ++ missing → missing ≠ [] → c_in c = got →
  ∃ e, readResponse c = (set_in c [], Err e).
Proof.
  intros Hid Hst Hlen Hsplit Hmiss Hin.
  set (hdr := mkResponseHeader id st (Z.of_nat (length payload))).
  assert (wf_response_header hdr) as Hwf.
  { split_and!; simpl; [done..|]. unfold maxMsgLen in Hlen. split; lia. }
  assert (length got < 12 + length payload)%nat as Hgot.
  { apply (f_equal length) in Hsplit. rewrite length_response_frame, length_app in Hsplit.
    destruct missing; [done|]. simpl in Hsplit. lia. }
  destruct (decide (length got < 12)%nat) as [Hs|Hs].
  - destruct (read_full_short c header_size) as [e He]; [by rewrite Hin|].
    eexists. unfold readResponse. erewrite est_bind_err; [done|]. unfold wrap. by rewrite He.
  - unfold response_frame in Hsplit. fold hdr in Hsplit.
    assert (got = encode_response_header hdr ++ drop 12 got) as Hg.
    { rewrite <-(take_drop 12 got) at 1. f_equal.
      apply (f_equal (take 12)) in Hsplit. rewrite !take_app_le in Hsplit.
      - rewrite <-Hsplit. apply take_ge. by rewrite length_encode_response_header.
      - lia.
      - by rewrite length_encode_response_header. }
    apply (readResponse_short_payload c hdr (drop 12 got)); [done| |done|].
    + by rewrite Hin.
    + rewrite length_drop. simpl. lia.
Qed.

(** A response that announces more than [maxMsgLen] bytes is rejected after
    its header, before any of the payload is read or a buffer is allocated. *)
Theorem readResponse_too_large `{Peer P} (c : Conn P) hdr rest :
  wf_response_header hdr → c_in c = encode_response_header hdr ++ rest →
  maxMsgLen < rs_PayloadLen hdr →
  readResponse c =
    (set_in c rest, Err (Errorf "response payload too large: %d" [AInt (rs_PayloadLen hdr)])).
Proof. intros. apply readResponse_header_step; [done..|lia]. Qed.

(** The request types of the protocol are distinct 32-bit values, so a
    message type names one request. *)
Theorem msg_types_distinct : NoDup msg_types ∧ Forall is_u32 msg_types.
Proof.
  split.
  - apply (bool_decide_unpack _). by vm_compute.
  - repeat constructor; by vm_compute.
Qed.

(** A connection to a peer that records what it is sent, for the witnesses. *)
#[global] Instance recorder : Peer (list byte) := {| peer_write p bs := (p ++ bs, Ok tt, []) |}.

Lemma readResponse_truncated_witness :
  ∃ e, readResponse (mkConn (P := list byte) [] (take 13 (response_frame 1 0 [x2a; x00])) Closed false)
       = (mkConn [] [] Closed false, Err e).
Proof.
  apply (readResponse_truncated
           (mkConn (P := list byte) [] (take 13 (response_frame 1 0 [x2a; x00])) Closed false)
           1 0 [x2a; x00] (take 13 (response_frame 1 0 [x2a; x00])) [x00]);
    (done || by vm_compute).
Defined.

Lemma readResponse_too_large_witness :
  ∃ e, readResponse (mkConn (P := list byte) []
                       (encode_response_header (mkResponseHeader 1 0 131073)) Closed false)
       = (mkConn [] [] Closed false, Err e).
Proof.
  eexists.
  apply (readResponse_too_large
           (mkConn (P := list byte) [] (encode_response_header (mkResponseHeader 1 0 131073)) Closed false)
           (mkResponseHeader 1 0 131073) []); [repeat split; by vm_compute..].
Defined.
