(* ===== verification/NetIP.v ===== *)
(** * NetIP: what the code uses of Go's package net

    [net.IP] and [net.IPMask] are byte slices of any length; [nil] is written
    [None] where the code tests for it and is the empty list elsewhere (every
    method below treats the two alike).  [net.IPNet] is a pair of them. *)

From S2P Require Import Prelude Bytes.
From Stdlib Require Import Lia ZArith.
Open Scope Z_scope.

Definition IP : Type := list byte.
Definition IPMask : Type := list byte.
Record IPNet := mkIPNet { IPNet_IP : IP; IPNet_Mask : IPMask }.

#[global] Instance IPNet_eq_dec : EqDecision IPNet.
Proof. solve_decision. Defined.

Definition IPv4len : nat := 4.
Definition IPv6len : nat := 16.
Definition v4InV6Prefix : list byte := replicate 10 x00 ++ [xff; xff].

(** [ip.To4()]: [None] is the [nil] result. *)
Definition To4 (ip : IP) : option IP :=
  if decide (length ip = IPv4len) then Some ip
  else if decide (length ip = IPv6len ∧ take 12 ip = v4InV6Prefix) then Some (drop 12 ip)
  else None.

(** [ip.To16()] *)
Definition To16 (ip : IP) : option IP :=
  if decide (length ip = IPv4len) then Some (v4InV6Prefix ++ ip)
  else if decide (length ip = IPv6len) then Some ip
  else None.

(** [ip.Equal(x)] *)
Definition IP_Equal (ip x : IP) : bool :=
  if decide (length ip = length x) then bool_decide (ip = x)
  else if decide (length ip = IPv4len ∧ length x = IPv6len) then
    bool_decide (take 12 x = v4InV6Prefix) && bool_decide (ip = drop 12 x)
  else if decide (length ip = IPv6len ∧ length x = IPv4len) then
    bool_decide (take 12 ip = v4InV6Prefix) && bool_decide (drop 12 ip = x)
  else false.

(** [ip.Mask(mask)]: [None] is the [nil] result, on a length mismatch. *)
Definition IP_Mask (ip : IP) (mask : IPMask) : option IP :=
  let mask :=
    if decide (length mask = IPv6len ∧ length ip = IPv4len ∧ take 12 mask = replicate 12 xff)
    then drop 12 mask else mask in
  let ip :=
    if decide (length mask = IPv4len ∧ length ip = IPv6len ∧ take 12 ip = v4InV6Prefix)
    then drop 12 ip else ip in
  if decide (length ip = length mask) then Some (zip_with band ip mask) else None.

(** The number of leading one bits of a byte below position [k], or [None] when
    a one follows a zero. *)
Fixpoint byte_ones (k : nat) (v : Z) : option Z :=
  match k with
  | O => Some 0
  | S k =>
      if Z.testbit v (Z.of_nat k) then (λ n, 1 + n) <$> byte_ones k v
      else if decide (v mod 2 ^ Z.of_nat k = 0) then Some 0 else None
  end.

(** [simpleMaskLength]: 8 for each 0xff byte, then a partial byte, then zeros. *)
Fixpoint mask_ones (m : IPMask) : option Z :=
  match m with
  | [] => Some 0
  | b :: m =>
      if decide (b = xff) then (λ n, 8 + n) <$> mask_ones m
      else if decide (m = replicate (length m) x00) then byte_ones 8 (b2z b) else None
  end.

(** The first result of [mask.Size()]: zero for a mask that is not canonical. *)
Definition Mask_Size (m : IPMask) : Z := default 0 (mask_ones m).

(** [net.CIDRMask(ones, bits)] for [bits] a multiple of 8. *)
Definition CIDRMask (ones : Z) (bytes : nat) : IPMask :=
  (λ i, let n := Z.max 0 (Z.min 8 (ones - 8 * Z.of_nat i)) in z2b (255 - (2 ^ (8 - n) - 1)))
    <$> seq 0 bytes.

(** ** Facts *)

Lemma To4_length ip ip4 : To4 ip = Some ip4 → length ip4 = IPv4len.
Proof.
  unfold To4, IPv6len. intros H. repeat case_decide; simplify_eq; [done|].
  rewrite length_drop. destruct H1 as [-> _]. done.
Qed.

Lemma To16_length ip ip16 : To16 ip = Some ip16 → length ip16 = IPv6len.
Proof.
  unfold To16. intros H. repeat case_decide; [|naive_solver|done].
  apply (inj Some) in H as <-. by rewrite length_app, H0.
Qed.

Lemma To4_To16 ip ip4 : To4 ip = Some ip4 → To16 ip = Some (v4InV6Prefix ++ ip4).
Proof.
  unfold To4, To16. intros H. destruct (decide (length ip = IPv4len)); [by simplify_eq|].
  destruct (decide _) as [[Hl Ht]|]; [|done]. apply (inj Some) in H as <-.
  rewrite decide_True by done. by rewrite <-Ht, take_drop.
Qed.

Lemma mask_ones_bound m n : mask_ones m = Some n → 0 ≤ n ≤ 8 * Z.of_nat (length m).
Proof.
  assert (∀ k v n, byte_ones k v = Some n → 0 ≤ n ≤ Z.of_nat k) as Hb.
  { induction k as [|k IH]; intros v n' Hn; simpl in Hn; [simplify_eq; lia|].
    case_match; [|case_decide; simplify_eq; lia].
    destruct (byte_ones k v) eqn:E; simplify_eq/=. apply IH in E. lia. }
  revert n. induction m as [|b m IH]; intros n Hn; cbn [mask_ones] in Hn; [simplify_eq; simpl; lia|].
  cbn [length]. case_decide.
  - destruct (mask_ones m); simplify_eq/=. specialize (IH _ eq_refl). lia.
  - case_decide; [|done]. apply Hb in Hn. lia.
Qed.

(** The prefix length always fits the one-byte field of a request whose mask has
    at most 16 bytes. *)
Lemma Mask_Size_bound m : (length m ≤ IPv6len)%nat → 0 ≤ Mask_Size m ≤ 128.
Proof.
  unfold Mask_Size, IPv6len. intros Hl. destruct (mask_ones m) eqn:E; simpl; [|lia].
  apply mask_ones_bound in E. lia.
Qed.

Example CIDRMask_24 : CIDRMask 24 4 = [xff; xff; xff; x00] ∧ Mask_Size (CIDRMask 24 4) = 24.
Proof. done. Qed.
Example Mask_Size_bad : Mask_Size [xff; x00; xff; x00] = 0.
Proof. done. Qed.
