(* ===== verification/Types.v ===== *)
(** * Types: requests and answers of the grout client (src/pkg/groutapi/types.go) *)

From S2P Require Import Prelude Bytes NetIP.
Open Scope Z_scope.

(** [type InterfaceType uint8] and its constants. *)
Definition InterfaceType : Type := Z.
Definition InterfaceTypeUndef : InterfaceType := 0.
Definition InterfaceTypeVRF : InterfaceType := 1.
Definition InterfaceTypePort : InterfaceType := 2.
Definition InterfaceTypeTAP : InterfaceType := 2.
Definition InterfaceTypeVLAN : InterfaceType := 3.
Definition InterfaceTypeIPIP : InterfaceType := 4.
Definition InterfaceTypeBond : InterfaceType := 5.
Definition InterfaceTypeBridge : InterfaceType := 6.
Definition InterfaceTypeVXLAN : InterfaceType := 7.

Record VXLANConfig := mkVXLANConfig {
  vx_VNI : Z; vx_EncapVRFID : Z; vx_DstPort : Z; vx_LocalAddr : IP }.

Record InterfaceAddRequest := mkInterfaceAddRequest {
  ia_Name : gostring; ia_Type : InterfaceType; ia_DomainID : Z; ia_MTU : Z;
  ia_VhostUserPath : gostring; ia_VXLAN : option VXLANConfig }.

Record FloodAddRequest := mkFloodAddRequest {
  fa_VRFID : Z; fa_VNI : Z; fa_Addr : IP; fa_ExistOK : bool }.
Record FloodDelRequest := mkFloodDelRequest {
  fd_VRFID : Z; fd_VNI : Z; fd_Addr : IP; fd_MissingOK : bool }.
Record FloodListRequest := mkFloodListRequest { fl_VRFID : Z }.
(** [Addr] is [nil] for an entry that is not IPv4. *)
Record FloodVTEPInfo := mkFloodVTEPInfo { fv_VNI : Z; fv_Addr : option IP }.

Record InterfaceAddResponse := mkInterfaceAddResponse { IfaceID : Z }.
Record InterfaceDelRequest := mkInterfaceDelRequest { id_IfaceID : Z }.
Record InterfaceListRequest := mkInterfaceListRequest { il_Type : InterfaceType }.

Record InterfaceInfo := mkInterfaceInfo {
  if_ID : Z; if_Type : InterfaceType; if_Name : gostring; if_Domain : Z }.

Record AddressAddRequest := mkAddressAddRequest {
  aa_IfaceID : Z; aa_Address : IPNet; aa_ExistOK : bool }.
Record AddressDelRequest := mkAddressDelRequest {
  ad_IfaceID : Z; ad_Address : IPNet; ad_MissingOK : bool }.
Record RouteAddRequest := mkRouteAddRequest {
  ra_VRFID : Z; ra_Destination : IPNet; ra_NextHop : IP; ra_IfaceID : Z; ra_ExistOK : bool }.
Record RouteDelRequest := mkRouteDelRequest {
  rd_VRFID : Z; rd_Destination : IPNet; rd_MissingOK : bool }.

#[global] Instance InterfaceInfo_eq_dec : EqDecision InterfaceInfo.
Proof. solve_decision. Defined.
