(* ===== verification/GoLib.v ===== *)
(** * GoLib: the standard-library functions the code computes with

    [hash/fnv], [crypto/sha256], [encoding/base32], [strings] and
    [path/filepath], each an executable definition that follows the documented
    algorithm. *)

From S2P Require Import Prelude Bytes.
From Stdlib Require Import Lia ZArith.
Open Scope Z_scope.

(** ** hash/fnv *)

Definition fnv_step (prime modulus : Z) (h : Z) (b : byte) : Z :=
  (Z.lxor h (b2z b) * prime) mod modulus.

(** [fnv.New32a] and [fnv.New64a] followed by one [Write] and [Sum]. *)
Definition fnv32a (s : gostring) : Z :=
  foldl (fnv_step 16777619 (2 ^ 32)) 2166136261 s.
Definition fnv64a (s : gostring) : Z :=
  foldl (fnv_step 1099511628211 (2 ^ 64)) 14695981039346656037 s.

(** ** crypto/sha256 *)

(** The round constants: the first 32 bits of the fractional parts of the cube
    roots of the first 64 primes. *)
Definition is_prime (n : Z) : bool :=
  forallb (λ d, negb (n mod Z.of_nat d =? 0)) (seq 2 (Z.to_nat (n - 2))).
Definition primes_below_312 : list Z := List.filter is_prime (Z.of_nat <$> seq 2 310).

(** The largest number whose cube is at most [n], bit by bit from bit [k - 1]. *)
Fixpoint cube_root (k : nat) (n acc : Z) : Z :=
  match k with
  | O => acc
  | S k =>
      let acc' := acc + 2 ^ Z.of_nat k in
      cube_root k n (if acc' * acc' * acc' <=? n then acc' else acc)
  end.

Definition sha256_K : list Z :=
  Eval vm_compute in ((λ p, u32 (cube_root 36 (p * 2 ^ 96) 0)) <$> primes_below_312).

Definition rotr (n x : Z) : Z := Z.lor (Z.shiftr x n) (u32 (Z.shiftl x (32 - n))).
Definition sha_ch (x y z : Z) : Z := Z.lxor (Z.land x y) (Z.land (Z.lxor x 0xffffffff) z).
Definition sha_maj (x y z : Z) : Z := Z.lxor (Z.lxor (Z.land x y) (Z.land x z)) (Z.land y z).
Definition sha_S0 (x : Z) : Z := Z.lxor (Z.lxor (rotr 2 x) (rotr 13 x)) (rotr 22 x).
Definition sha_S1 (x : Z) : Z := Z.lxor (Z.lxor (rotr 6 x) (rotr 11 x)) (rotr 25 x).
Definition sha_s0 (x : Z) : Z := Z.lxor (Z.lxor (rotr 7 x) (rotr 18 x)) (Z.shiftr x 3).
Definition sha_s1 (x : Z) : Z := Z.lxor (Z.lxor (rotr 17 x) (rotr 19 x)) (Z.shiftr x 10).

Definition be_get (bs : list byte) : Z := foldl (λ acc b, 256 * acc + b2z b) 0 bs.
Definition be32 (z : Z) : list byte := reverse (le_put 4 z).
Definition be64 (z : Z) : list byte := reverse (le_put 8 z).

Fixpoint chunks {A} (fuel n : nat) (l : list A) : list (list A) :=
  match fuel, l with
  | O, _ | _, [] => []
  | S fuel, _ => take n l :: chunks fuel n (drop n l)
  end.

(** The message schedule, extended one word at a time. *)
Fixpoint sha_schedule (n : nat) (w : list Z) : list Z :=
  match n with
  | O => w
  | S n =>
      let i := length w in
      let x := nth (i - 16) w 0 + sha_s0 (nth (i - 15) w 0) + nth (i - 7) w 0
               + sha_s1 (nth (i - 2) w 0) in
      sha_schedule n (w ++ [u32 x])
  end.

Record sha_state := Sha { sa : Z; sb : Z; sc : Z; sd : Z; se : Z; sf : Z; sg : Z; sh : Z }.

Definition sha_round (s : sha_state) (kw : Z * Z) : sha_state :=
  let t1 := sh s + sha_S1 (se s) + sha_ch (se s) (sf s) (sg s) + kw.1 + kw.2 in
  let t2 := sha_S0 (sa s) + sha_maj (sa s) (sb s) (sc s) in
  Sha (u32 (t1 + t2)) (sa s) (sb s) (sc s) (u32 (sd s + t1)) (se s) (sf s) (sg s).

Definition sha_block (s : sha_state) (blk : list byte) : sha_state :=
  let w := sha_schedule 48 (be_get <$> chunks 16 4 blk) in
  let r := foldl sha_round s (zip sha256_K w) in
  Sha (u32 (sa s + sa r)) (u32 (sb s + sb r)) (u32 (sc s + sc r)) (u32 (sd s + sd r))
      (u32 (se s + se r)) (u32 (sf s + sf r)) (u32 (sg s + sg r)) (u32 (sh s + sh r)).

Definition sha_pad (m : list byte) : list byte :=
  let len := length m in
  let z := Z.to_nat ((55 - Z.of_nat len) mod 64) in
  m ++ [x80] ++ replicate z x00 ++ be64 (8 * Z.of_nat len).

(** The initial state: the first 32 bits of the fractional parts of the square
    roots of the first eight primes. *)
Definition sha_root (p : Z) : Z := u32 (Z.sqrt (p * 2 ^ 64)).
Definition sha_init : sha_state :=
  Eval vm_compute in
    Sha (sha_root 2) (sha_root 3) (sha_root 5) (sha_root 7)
        (sha_root 11) (sha_root 13) (sha_root 17) (sha_root 19).

(** [sha256.Sum256(m)] *)
Definition Sum256 (m : list byte) : list byte :=
  let p := sha_pad m in
  let s := foldl sha_block sha_init (chunks (length p) 64 p) in
  be32 (sa s) ++ be32 (sb s) ++ be32 (sc s) ++ be32 (sd s)
  ++ be32 (se s) ++ be32 (sf s) ++ be32 (sg s) ++ be32 (sh s).

(** The published test vector of the one-block message. *)
Example Sum256_abc :
  be_get (Sum256 (str "abc")) = 0xba7816bf8f01cfea414140de5dae2223b00361a396177a9cb410ff61f20015ad.
Proof. by vm_compute. Qed.

(** ** encoding/base32 *)

Definition base32_alphabet : gostring := str "ABCDEFGHIJKLMNOPQRSTUVWXYZ234567".

Definition byte_bits (b : byte) : list bool :=
  (λ i, Z.testbit (b2z b) (7 - Z.of_nat i)) <$> seq 0 8.

(** The value of five bits, most significant first; a short last group is
    completed with zeros. *)
Definition bits_val (bs : list bool) : nat :=
  foldl (λ acc i, (2 * acc + Nat.b2n (nth i bs false))%nat) 0%nat (seq 0 5).

Definition base32_char (bs : list bool) : byte := nth (bits_val bs) base32_alphabet x41.

(** [base32.StdEncoding.WithPadding(base32.NoPadding).EncodeToString(bs)] *)
Definition base32_EncodeToString (bs : list byte) : gostring :=
  let bits := bs ≫= byte_bits in
  base32_char <$> chunks (length bits) 5 bits.

(** ** Hexadecimal digits of [fmt] and [net] *)

Definition hex_digit (n : Z) : byte := nth (Z.to_nat n) (str "0123456789abcdef") x30.

(** ** strings *)

Definition ascii_lower (b : byte) : byte :=
  if decide (65 ≤ b2z b ≤ 90) then z2b (b2z b + 32) else b.

(** [strings.ToLower] of a string of ASCII bytes. *)
Definition ToLower_ascii (s : gostring) : gostring := ascii_lower <$> s.

(** The ASCII view of [strings.ToLower] of any string: each rune of the result
    that is an ASCII character, and [None] for bytes of other runes.  Two runes
    outside ASCII have an ASCII lower case: U+0130 (bytes C4 B0) is lowered to
    "i", U+212A (bytes E2 84 AA) to "k". *)
Fixpoint lower_view (s : gostring) : list (option byte) :=
  match s with
  | [] => []
  | xc4 :: xb0 :: s => Some x69 :: lower_view s
  | xe2 :: x84 :: xaa :: s => Some x6b :: lower_view s
  | b :: s => (if decide (b2z b < 128) then Some (ascii_lower b) else None) :: lower_view s
  end.

(** The code points [unicode.IsSpace] accepts, as UTF-8. *)
Definition space_runes : list (list byte) :=
  [[x09]; [x0a]; [x0b]; [x0c]; [x0d]; [x20]; [xc2; x85]; [xc2; xa0]; [xe1; x9a; x80];
   [xe2; x80; x80]; [xe2; x80; x81]; [xe2; x80; x82]; [xe2; x80; x83]; [xe2; x80; x84];
   [xe2; x80; x85]; [xe2; x80; x86]; [xe2; x80; x87]; [xe2; x80; x88]; [xe2; x80; x89];
   [xe2; x80; x8a]; [xe2; x80; xa8]; [xe2; x80; xa9]; [xe2; x80; xaf]; [xe2; x81; x9f];
   [xe3; x80; x80]].

Definition strip_one (pats : list (list byte)) (s : list byte) : option (list byte) :=
  match filter (λ p, take (length p) s = p) pats with
  | [] => None
  | p :: _ => Some (drop (length p) s)
  end.

(** Remove leading patterns; a pattern is not empty, so the length of the string
    is enough fuel. *)
Fixpoint strip_left (fuel : nat) (pats : list (list byte)) (s : list byte) : list byte :=
  match fuel with
  | O => s
  | S fuel => match strip_one pats s with None => s | Some s' => strip_left fuel pats s' end
  end.

(** [strings.TrimSpace] *)
Definition TrimSpace (s : gostring) : gostring :=
  let l := strip_left (length s) space_runes s in
  reverse (strip_left (length l) (reverse <$> space_runes) (reverse l)).

(** [strings.HasPrefix(s, p)] *)
Definition HasPrefix (s p : gostring) : bool := bool_decide (take (length p) s = p).

(** ** path/filepath *)

Definition slash : byte := x2f.

(** The components of a path between slashes (empty ones included). *)
Fixpoint split_slash (acc : list byte) (s : gostring) : list gostring :=
  match s with
  | [] => [reverse acc]
  | b :: s => if decide (b = slash) then reverse acc :: split_slash [] s
              else split_slash (b :: acc) s
  end.

Definition dot : gostring := str ".".
Definition dotdot : gostring := str "..".

(** One component of the path being cleaned, on the stack of those kept (last
    one first): empty and "." components vanish, ".." removes the component
    before it, and is dropped at the root of a rooted path. *)
Definition clean_step (rooted : bool) (stack : list gostring) (c : gostring) : list gostring :=
  if decide (c = [] ∨ c = dot) then stack
  else if decide (c = dotdot) then
    match stack with
    | [] => if rooted then [] else [dotdot]
    | top :: rest => if decide (top = dotdot) then dotdot :: stack else rest
    end
  else c :: stack.

Fixpoint join_slash (cs : list gostring) : gostring :=
  match cs with
  | [] => []
  | [c] => c
  | c :: cs => c ++ slash :: join_slash cs
  end.

Definition is_rooted (s : gostring) : bool :=
  match s with b :: _ => bool_decide (b = slash) | [] => false end.

(** [filepath.Clean] on Unix *)
Definition Clean (s : gostring) : gostring :=
  let rooted := is_rooted s in
  let cs := reverse (foldl (clean_step rooted) [] (split_slash [] s)) in
  let body := join_slash cs in
  if rooted then slash :: body else match body with [] => dot | _ => body end.

(** The path up to and including its last slash. *)
Fixpoint upto_last_slash (s : gostring) : gostring :=
  match s with
  | [] => []
  | b :: s' => if decide (slash ∈ s) then b :: upto_last_slash s' else []
  end.

(** [filepath.Dir] *)
Definition Dir (s : gostring) : gostring := Clean (upto_last_slash s).

(** [filepath.Join(elems...)] *)
Definition Join (elems : list gostring) : gostring :=
  match filter (λ e, e ≠ []) elems with
  | [] => []
  | es => Clean (join_slash es)
  end.

(** ** Facts *)

Lemma chunks_length {A} (fuel n k : nat) (l : list A) :
  (0 < n → length l ≤ fuel → k * n < length l → k < length (chunks fuel n l))%nat.
Proof.
  revert l k. induction fuel as [|fuel IH]; intros l k Hn Hf Hk; [lia|].
  destruct l as [|a l]; [simpl in Hk; lia|].
  cbn [chunks]. simpl length at 1. destruct k as [|k]; [lia|].
  assert (k < length (chunks fuel n (drop n (a :: l))))%nat; [|lia].
  apply IH; rewrite ?length_drop; simpl length in *; nia.
Qed.

Lemma length_Sum256 m : length (Sum256 m) = 32%nat.
Proof.
  unfold Sum256, be32. rewrite !length_app, !length_reverse. by rewrite !length_le_put.
Qed.

Lemma length_bits (bs : list byte) : length (bs ≫= byte_bits) = (8 * length bs)%nat.
Proof. induction bs as [|b bs IH]; [done|]. cbn [mbind list_bind]. rewrite length_app. simpl in *. lia. Qed.

(** The characters of a base32 text, in lower case. *)
Definition base32_lower : gostring := str "abcdefghijklmnopqrstuvwxyz234567".

Lemma base32_char_lower bs : ascii_lower (base32_char bs) ∈ base32_lower.
Proof.
  unfold base32_char.
  assert (∀ n, (n < 32)%nat → ascii_lower (nth n base32_alphabet x41) ∈ base32_lower) as Hin.
  { intros n Hn. do 32 (destruct n as [|n]; [by apply (bool_decide_eq_true_1 _)|]). lia. }
  destruct (decide (bits_val bs < 32)%nat); [by apply Hin|].
  rewrite nth_overflow; [by apply (bool_decide_eq_true_1 _)|]. simpl. lia.
Qed.

Lemma base32_lower_text m :
  Forall (.∈ base32_lower) (ToLower_ascii (base32_EncodeToString m)).
Proof.
  unfold ToLower_ascii, base32_EncodeToString. rewrite !Forall_fmap, Forall_forall.
  intros c _. apply base32_char_lower.
Qed.

(** A lower-case base32 character determines the five bits it stands for. *)
Lemma base32_char_inj bs bs' :
  length bs = 5%nat → length bs' = 5%nat →
  ascii_lower (base32_char bs) = ascii_lower (base32_char bs') → bs = bs'.
Proof.
  set (all := (a ← [true; false]; b ← [true; false]; c ← [true; false]; d ← [true; false]; e ← [true; false];
               [[a; b; c; d; e]]) : list (list bool)).
  assert (∀ l, length l = 5%nat → l ∈ all) as Hall.
  { intros [|a [|b [|c [|d [|e []]]]]] Hl; try done.
    apply (bool_decide_eq_true_1 _). by destruct a, b, c, d, e. }
  assert (Forall (λ l, Forall (λ l', ascii_lower (base32_char l) = ascii_lower (base32_char l') → l = l') all) all)
    as Hinj by (apply (bool_decide_eq_true_1 _); by vm_compute).
  intros Hl Hl'. rewrite Forall_forall in Hinj. specialize (Hinj _ (Hall _ Hl)).
  rewrite Forall_forall in Hinj. exact (Hinj _ (Hall _ Hl')).
Qed.

(** The first [n] characters of a base32 text are the first [5 n] bits. *)
Lemma base32_take_bits n fuel fuel' (b b' : list bool) :
  (5 * n ≤ length b)%nat → (5 * n ≤ length b')%nat → (n ≤ fuel)%nat → (n ≤ fuel')%nat →
  take n (ascii_lower ∘ base32_char <$> chunks fuel 5 b) = take n (ascii_lower ∘ base32_char <$> chunks fuel' 5 b') ↔
  take (5 * n) b = take (5 * n) b'.
Proof.
  revert fuel fuel' b b'. induction n as [|n IH]; intros fuel fuel' b b' Hb Hb' Hf Hf'; [by rewrite !take_0|].
  destruct fuel as [|fuel], fuel' as [|fuel']; [lia..|].
  assert (∀ f (l : list bool), (5 * S n ≤ length l)%nat → chunks (S f) 5 l = take 5 l :: chunks f 5 (drop 5 l)) as Hc
    by (intros f [|x l] Hl; [simpl in Hl; lia|done]).
  rewrite (Hc fuel b), (Hc fuel' b') by done.
  assert (∀ l : list bool, take (5 * S n) l = take 5 l ++ take (5 * n) (drop 5 l)) as Ht
    by (intros l; rewrite take_take_drop; f_equal; lia).
  rewrite !Ht, !fmap_cons. cbn [take].
  assert (∀ l : list bool, (5 * S n ≤ length l)%nat → length (take 5 l) = 5%nat) as Hlen
    by (intros l Hl; rewrite length_take; lia).
  specialize (IH fuel fuel' (drop 5 b) (drop 5 b')). rewrite !length_drop in IH.
  split.
  - intros [E1 E2]%(inj2 cons). apply base32_char_inj in E1; [|by apply Hlen..].
    rewrite E1. f_equal. apply IH; [lia..|done].
  - intros [E1 E2]%app_inj_1; [|by rewrite !Hlen]. rewrite E1. f_equal. apply IH; [lia..|done].
Qed.

(** A digest has at least 11 base32 characters. *)
Lemma length_digest_text m : (11 ≤ length (ToLower_ascii (base32_EncodeToString (Sum256 m))))%nat.
Proof.
  unfold ToLower_ascii, base32_EncodeToString. rewrite !length_fmap.
  assert (length (Sum256 m ≫= byte_bits) = 256)%nat as Hl by (rewrite length_bits, length_Sum256; done).
  pose proof (chunks_length (length (Sum256 m ≫= byte_bits)) 5 51 (Sum256 m ≫= byte_bits)). lia.
Qed.

(** Cleaning a path brings in no byte but slashes and dots. *)
Section paths.
Implicit Types (b : byte) (s : gostring).

Lemma split_slash_bytes b acc s c :
  c ∈ split_slash acc s → b ∈ c → b ∈ acc ∨ b ∈ s.
Proof.
  revert acc. induction s as [|x s IH]; intros acc; simpl.
  - intros ->%list_elem_of_singleton. rewrite elem_of_reverse. auto.
  - case_decide.
    + intros [->|Hc]%elem_of_cons; [rewrite elem_of_reverse; auto|].
      intros Hb. destruct (IH [] Hc Hb); set_solver.
    + intros Hc Hb. destruct (IH _ Hc Hb); set_solver.
Qed.

Lemma clean_step_bytes b rooted stack c c' :
  c' ∈ clean_step rooted stack c → b ∈ c' → b ∈ dotdot ∨ b ∈ c ∨ ∃ c0, c0 ∈ stack ∧ b ∈ c0.
Proof.
  intros Hc Hb. unfold clean_step in Hc. destruct (decide (c = [] ∨ c = dot)); [by eauto|].
  destruct (decide (c = dotdot)); [|apply elem_of_cons in Hc as [->|Hc]; eauto].
  destruct stack as [|top rest].
  - destruct rooted; [by apply not_elem_of_nil in Hc|]. apply list_elem_of_singleton in Hc as ->. by left.
  - destruct (decide (top = dotdot)); [apply elem_of_cons in Hc as [->|Hc]; [by left|by eauto]|].
    right. right. exists c'. split; [by apply list_elem_of_further|done].
Qed.

Lemma clean_fold_bytes b rooted cs stack c :
  c ∈ foldl (clean_step rooted) stack cs → b ∈ c →
  b ∈ dotdot ∨ (∃ c0, c0 ∈ cs ∧ b ∈ c0) ∨ ∃ c0, c0 ∈ stack ∧ b ∈ c0.
Proof.
  revert stack. induction cs as [|x cs IH]; intros stack; simpl; [eauto|].
  intros Hc Hb. destruct (IH _ Hc Hb) as [?|[(c0 & ? & ?)|(c0 & Hc0 & Hb0)]]; [by left| |].
  - right. left. exists c0. set_solver.
  - destruct (clean_step_bytes _ _ _ _ _ Hc0 Hb0) as [?|[?|(c1 & ? & ?)]]; [by left| |by eauto].
    right. left. exists x. set_solver.
Qed.

Lemma join_slash_bytes b cs : b ∈ join_slash cs → b = slash ∨ ∃ c, c ∈ cs ∧ b ∈ c.
Proof.
  induction cs as [|c [|c' cs] IH]; simpl; [set_solver|intros; right; exists c; set_solver|].
  intros [Hb|[->|Hb]%elem_of_cons]%elem_of_app; [right; exists c; set_solver|by left|].
  destruct (IH Hb) as [?|(c0 & ? & ?)]; [by left|]. right. exists c0. set_solver.
Qed.

Lemma Clean_bytes b s : b ∈ Clean s → b ∈ s ∨ b = slash ∨ b ∈ dotdot.
Proof.
  assert (b ∈ join_slash (reverse (foldl (clean_step (is_rooted s)) [] (split_slash [] s))) →
          b ∈ s ∨ b = slash ∨ b ∈ dotdot) as Hbody.
  { intros [?|(c & Hc & Hb)]%join_slash_bytes; [auto|]. rewrite elem_of_reverse in Hc.
    destruct (clean_fold_bytes _ _ _ _ _ Hc Hb) as [?|[(c0 & Hc0 & Hb0)|(c0 & Hc0 & _)]];
      [auto| |by apply not_elem_of_nil in Hc0].
    destruct (split_slash_bytes _ _ _ _ Hc0 Hb0); set_solver. }
  unfold Clean. destruct (is_rooted s).
  - intros [->|Hb]%elem_of_cons; auto.
  - case_match eqn:E; [|apply Hbody]. intros Hb. change (b ∈ [x2e]) in Hb.
    apply list_elem_of_singleton in Hb as ->. do 2 right. apply list_elem_of_here.
Qed.

Lemma upto_last_slash_bytes b s : b ∈ upto_last_slash s → b ∈ s.
Proof. induction s as [|x s IH]; simpl; [done|]. case_decide; set_solver. Qed.

End paths.
