(* ===== verification/Client.v ===== *)
(** * Client: the grout control-socket client (src/pkg/groutapi/client.go)

    A client owns a connection and the counter of its request ids; every method
    builds a payload in the layout of grout's C structures, sends it as one
    request and reads the answer.  The client's mutex, which makes a request and
    the reading of its answer one step, is reflected in [request] and
    [requestStream] being functions of the client's state. *)

From S2P Require Import Prelude Bytes Protocol NetIP Types GoLib.
From Stdlib Require Import Lia ZArith.
Open Scope Z_scope.

(** ** Layout constants *)

Definition ifNameSize : nat := 16.
Definition ifDescSize : nat := 256.
Definition portDevargsSize : nat := 128.
Definition portDriverSize : nat := 32.
Definition ifaceBaseSize : nat := 20.
Definition ifaceSize : nat := ifaceBaseSize + ifNameSize + ifDescSize.
Definition portInfoBaseSize : nat := 14.
Definition portInfoSize : nat := portInfoBaseSize + portDevargsSize + portDriverSize.
Definition bridgeMaxMembers : nat := 64.
Definition bridgeInfoBase : nat := 12.
Definition bridgeInfoSize : nat := bridgeInfoBase + bridgeMaxMembers * 2.
Definition offBridgeInfoMAC : nat := 4.
Definition l3AddrSize : nat := 20.
Definition offL3AddrAF : nat := 0.
Definition offL3AddrIPv4 : nat := 4.
Definition afIP4 : Z := 2.
Definition ip6AddrReqSize : nat := 22.
Definition offIP6IfaceID : nat := 0.
Definition offIP6Addr : nat := 2.
Definition offIP6Prefix : nat := 18.
Definition offIP6Flag : nat := 20.
Definition ip6RouteAddReqSize : nat := 44.
Definition offIP6RteVRF : nat := 0.
Definition offIP6RteDest : nat := 2.
Definition offIP6RteDestPfx : nat := 18.
Definition offIP6RteNH : nat := 19.
Definition offIP6RteOrigin : nat := 40.
Definition offIP6RteExistOK : nat := 41.
Definition ip6RouteDelReqSize : nat := 20.
Definition offIP6RteDelMissing : nat := 19.
Definition vxlanInfoSize : nat := 36.
Definition offVxlanVNI : nat := 0.
Definition offVxlanEncapVRF : nat := 4.
Definition offVxlanDstPort : nat := 6.
Definition offVxlanLocal : nat := 8.
Definition floodEntrySize : nat := 28.
Definition floodReqSize : nat := 32.
Definition offFloodType : nat := 0.
Definition offFloodVRFID : nat := 2.
Definition offFloodVTEPVNI : nat := 4.
Definition offFloodVTEPAddr : nat := 8.
Definition floodTypeVTEP : Z := 1.
Definition offIfaceID : nat := 0.
Definition offIfaceType : nat := 2.
Definition offIfaceFlags : nat := 4.
Definition offIfaceMTU : nat := 8.
Definition offIfaceDomain : nat := 12.
Definition offIfaceName : nat := 20.
Definition offIfaceInfo : nat := 292.
Definition offPortDevargs : nat := offIfaceInfo + portInfoBaseSize.
Definition grIfaceIDUndef : Z := 0.
Definition grIfaceFlagUp : Z := 1.
Definition grVRFDefaultID : Z := 1.

(** ** The client *)

Record Client (P : Type) := mkClient { cl_conn : Conn P; cl_reqID : Z }.
Arguments mkClient {P}.
Arguments cl_conn {P}.
Arguments cl_reqID {P}.

(** An operation on the connection, as one on the client. *)
Definition on_conn {P A} (m : est (Conn P) A) : est (Client P) A := λ c,
  let '(cn, r) := m (cl_conn c) in (mkClient cn (cl_reqID c), r).

(** [c.reqID.Add(1)] on an [atomic.Uint32] *)
Definition nextID {P} : est (Client P) Z := λ c,
  let id := u32 (cl_reqID c + 1) in (mkClient (cl_conn c) id, Ok id).

Section requests.
Context `{Peer P}.

(** [resp == nil] is [decode = None]; the response structure keeps its zero
    value [zero] when there is nothing to decode. *)
Definition request {A} (msgType : Z) (payload : list byte) (zero : A)
    (decode : option (list byte → result A)) : est (Client P) A :=
  id ← nextID;
  _ ← on_conn (writeRequest id msgType payload);
  '(hdr, respPayload) ← on_conn readResponse;
  if decide (rs_ForID hdr ≠ id) then
    fail (Errorf "response ID mismatch: got %d, want %d" [AInt (rs_ForID hdr); AInt id])
  else if decide (rs_Status hdr ≠ 0) then
    fail (Errorf "grout error: status %d" [AInt (rs_Status hdr)])
  else
    match decode with
    | Some dec =>
        if decide (0 < length respPayload)%nat then
          lift_result (map_err (λ e, Errorf "decoding response: %w" [AErr e]) (dec respPayload))
        else mret zero
    | None => mret zero
    end.

(** A request whose answer carries nothing of interest. *)
Definition request_nil (msgType : Z) (payload : list byte) : est (Client P) unit :=
  request msgType payload tt None.

(** The [for] loop of [requestStream].  Each response read takes at least a
    header off the bytes received, so their number is enough fuel (lemma
    [stream_loop_enough] in Socket). *)
Fixpoint stream_loop (fuel : nat) (id : Z) (items : list (list byte))
    : est (Client P) (list (list byte)) :=
  match fuel with
  | O => fail (Errorf "unreachable" [])
  | S fuel =>
      '(hdr, respPayload) ← on_conn readResponse;
      if decide (rs_ForID hdr ≠ id) then
        fail (Errorf "response ID mismatch: got %d, want %d" [AInt (rs_ForID hdr); AInt id])
      else if decide (rs_Status hdr ≠ 0) then
        fail (Errorf "grout error: status %d" [AInt (rs_Status hdr)])
      else if decide (rs_PayloadLen hdr = 0) then mret items
      else stream_loop fuel id (items ++ [respPayload])
  end.

Definition read_stream (id : Z) : est (Client P) (list (list byte)) := λ c,
  stream_loop (S (length (c_in (cl_conn c)))) id [] c.

Definition requestStream (msgType : Z) (payload : list byte) : est (Client P) (list (list byte)) :=
  id ← nextID;
  _ ← on_conn (writeRequest id msgType payload);
  read_stream id.

(** ** Connecting *)

Definition hello_payload : list byte :=
  copy_at 4 128 (str "grout-k-cni") (write_at 0 (put_u32 apiVersion) (make (4 + 128))).

Definition hello : est (Client P) unit := request_nil TypeHello hello_payload.

(** [Dial] returns a client, or an error and, when there was a connection, the
    connection it leaves behind. *)
Inductive dialed :=
| Dialed (c : Client P)
| DialFailed (left : option (Conn P)) (e : error).

Definition Close : est (Client P) unit := on_conn conn_close.

(** [conn] is the result of [net.Dial("unix", socketPath)]. *)
Definition Dial (conn : result (Conn P)) : dialed :=
  match conn with
  | Err e => DialFailed None (Errorf "connecting to grout: %w" [AErr e])
  | Ok cn =>
      match hello (mkClient cn 0) with
      | (c, Ok _) => Dialed c
      | (c, Err e) => DialFailed (Some (conn_close (cl_conn c)).1)
                        (Errorf "grout handshake: %w" [AErr e])
      end
  end.
End requests.
Arguments dialed : clear implicits.
Arguments Dialed {P} c.
Arguments DialFailed {P} left e.

(** ** Interfaces *)

(** [cString]: the bytes before the first NUL. *)
Fixpoint cString (b : list byte) : gostring :=
  match b with
  | [] => []
  | x :: b => if decide (x = x00) then [] else x :: cString b
  end.

(** One item of an interface list, [None] when it is too short and skipped. *)
Definition decode_iface (data : list byte) : option InterfaceInfo :=
  if decide (length data < ifaceSize)%nat then None
  else Some (mkInterfaceInfo (get_u16 offIfaceID data) (get_byte offIfaceType data)
               (cString (read_at offIfaceName ifNameSize data)) (get_u16 offIfaceDomain data)).

Section interface_list.
Context `{Peer P}.

Definition InterfaceList (req : InterfaceListRequest) : est (Client P) (list InterfaceInfo) :=
  items ← wrap (λ e, Errorf "interface list: %w" [AErr e])
            (requestStream TypeIfaceList [z2b (il_Type req)]);
  mret (omap decode_iface items).
End interface_list.

Definition bridgeMAC (name : gostring) : list byte :=
  let s := fnv64a name in
  [x02; z2b s; z2b (Z.shiftr s 8); z2b (Z.shiftr s 16); z2b (Z.shiftr s 24); z2b (Z.shiftr s 32)].

(** The loop keeps the runes of the lowered name that are ASCII letters or digits. *)
Definition is_alnum (b : byte) : bool :=
  bool_decide (97 ≤ b2z b ≤ 122) || bool_decide (48 ≤ b2z b ≤ 57).

Definition vdevID (name : gostring) : gostring :=
  filter (λ b, is_alnum b = true) (omap id (lower_view name)).

Definition tapDevargs (name : gostring) : gostring :=
  str "net_tap_" ++ vdevID name ++ str ",iface=" ++ name.

Definition vhostDevargs (name socketPath : gostring) : gostring :=
  str "net_vhost_" ++ vdevID name ++ str ",iface=" ++ socketPath.

(** [putL3AddrIPv4(buf[off:off+l3AddrSize], ip)] *)
Definition putL3AddrIPv4 (off : nat) (ip : IP) (buf : list byte) : result (list byte) :=
  match To4 ip with
  | None => Err (Errorf "not an IPv4 address: %s" [AStr ip])
  | Some ip4 =>
      Ok (copy_at (off + offL3AddrIPv4) 4 ip4 (set_byte (off + offL3AddrAF) afIP4 buf))
  end.

Definition l3AddrIPv4 (buf : list byte) : option IP :=
  if decide (get_byte offL3AddrAF buf ≠ afIP4) then None
  else Some (read_at offL3AddrIPv4 4 buf).

Definition iface_req_size (req : InterfaceAddRequest) : nat :=
  if decide (ia_Type req = InterfaceTypeBridge) then ifaceSize + bridgeInfoSize
  else if decide (ia_Type req = InterfaceTypeVXLAN) then ifaceSize + vxlanInfoSize
  else ifaceSize + portInfoSize.

(** The [gr_iface] base of the request. *)
Definition iface_base (req : InterfaceAddRequest) : list byte :=
  let payload := make (iface_req_size req) in
  let payload := write_at offIfaceID (put_u16 grIfaceIDUndef) payload in
  let payload := set_byte offIfaceType (ia_Type req) payload in
  let payload := write_at offIfaceFlags (put_u16 grIfaceFlagUp) payload in
  let payload := if decide (ia_DomainID req ≠ 0)
                 then write_at offIfaceDomain (put_u16 (ia_DomainID req)) payload else payload in
  let payload := if decide (ia_MTU req ≠ 0)
                 then write_at offIfaceMTU (put_u16 (ia_MTU req)) payload else payload in
  copy_at offIfaceName ifNameSize (ia_Name req) payload.

(** The devargs of a port: a TAP, or a vhost-user port when a path is given. *)
Definition port_devargs (req : InterfaceAddRequest) : gostring :=
  if decide (ia_VhostUserPath req = []) then tapDevargs (ia_Name req)
  else vhostDevargs (ia_Name req) (ia_VhostUserPath req).

(** The whole payload of [InterfaceAdd], or the error returned before anything
    is sent. *)
Definition iface_payload (req : InterfaceAddRequest) : result (list byte) :=
  let payload := iface_base req in
  if decide (ia_Type req = InterfaceTypeBridge) then
    Ok (write_at (offIfaceInfo + offBridgeInfoMAC) (bridgeMAC (ia_Name req)) payload)
  else if decide (ia_Type req = InterfaceTypeVXLAN) then
    match ia_VXLAN req with
    | None => Err (Errorf "interface add %q: VXLAN config required for a VXLAN interface"
                     [AStr (ia_Name req)])
    | Some vx =>
        let payload := write_at (offIfaceInfo + offVxlanVNI) (put_u32 (vx_VNI vx)) payload in
        let payload := write_at (offIfaceInfo + offVxlanEncapVRF) (put_u16 (vx_EncapVRFID vx)) payload in
        let payload := write_at (offIfaceInfo + offVxlanDstPort) (put_u16 (vx_DstPort vx)) payload in
        map_err (λ e, Errorf "interface add %q: VXLAN local address: %w" [AStr (ia_Name req); AErr e])
          (putL3AddrIPv4 (offIfaceInfo + offVxlanLocal) (vx_LocalAddr vx) payload)
    end
  else
    let devargs := port_devargs req in
    if decide (portDevargsSize ≤ length devargs)%nat then
      Err (Errorf "interface add %q: devargs too long (%d >= %d)"
             [AStr (ia_Name req); AInt (Z.of_nat (length devargs)); AInt (Z.of_nat portDevargsSize)])
    else Ok (copy_at offPortDevargs portDevargsSize devargs payload).

(** [binary.Read] of [struct { IfaceID uint16 }] *)
Definition decode_iface_id (bs : list byte) : result Z :=
  if decide (length bs < 2)%nat then Err ErrUnexpectedEOF else Ok (get_u16 0 bs).

Section interface_ops.
Context `{Peer P}.

Definition InterfaceAdd (req : InterfaceAddRequest) : est (Client P) InterfaceAddResponse :=
  payload ← lift_result (iface_payload req);
  id ← wrap (λ e, Errorf "interface add %q: %w" [AStr (ia_Name req); AErr e])
         (request TypeIfaceAdd payload 0 (Some decode_iface_id));
  mret (mkInterfaceAddResponse id).

Definition InterfaceDel (req : InterfaceDelRequest) : est (Client P) unit :=
  wrap (λ e, Errorf "interface del %d: %w" [AInt (id_IfaceID req); AErr e])
    (request_nil TypeIfaceDel (write_at 0 (put_u16 (id_IfaceID req)) (make 2))).
End interface_ops.

(** ** Addresses *)

(** A flag byte is written only when it is set. *)
Definition set_flag (off : nat) (b : bool) (buf : list byte) : list byte :=
  if b then set_byte off 1 buf else buf.

(** The 16-byte IPv4 and 22-byte IPv6 layouts [AddressAdd] and [AddressDel]
    share, the flag being [exist_ok] or [missing_ok]. *)
Definition ip4_addr_payload (ifaceID : Z) (ip4 : IP) (ones : Z) (flag : bool) : list byte :=
  let payload := make 16 in
  let payload := write_at 0 (put_u16 ifaceID) payload in
  let payload := copy_at 4 4 ip4 payload in
  let payload := set_byte 8 ones payload in
  set_flag 12 flag payload.

Definition ip6_addr_payload (ifaceID : Z) (ip6 : IP) (ones : Z) (flag : bool) : list byte :=
  let payload := make ip6AddrReqSize in
  let payload := write_at offIP6IfaceID (put_u16 ifaceID) payload in
  let payload := copy_at offIP6Addr 16 ip6 payload in
  let payload := set_byte offIP6Prefix ones payload in
  set_flag offIP6Flag flag payload.

Section address_ops.
Context `{Peer P}.

Definition AddressAdd (req : AddressAddRequest) : est (Client P) unit :=
  let a := aa_Address req in
  let ones := Mask_Size (IPNet_Mask a) in
  let failed e := Errorf "address add %s on iface %d: %w"
                    [ANet (IPNet_IP a) (IPNet_Mask a); AInt (aa_IfaceID req); AErr e] in
  match To4 (IPNet_IP a) with
  | Some ip4 =>
      wrap failed (request_nil TypeIP4AddrAdd
                     (ip4_addr_payload (aa_IfaceID req) ip4 ones (aa_ExistOK req)))
  | None =>
      match To16 (IPNet_IP a) with
      | None => fail (Errorf "address add: invalid IP address: %s" [AStr (IPNet_IP a)])
      | Some ip6 =>
          wrap failed (request_nil TypeIP6AddrAdd
                         (ip6_addr_payload (aa_IfaceID req) ip6 ones (aa_ExistOK req)))
      end
  end.

Definition AddressDel (req : AddressDelRequest) : est (Client P) unit :=
  let a := ad_Address req in
  let ones := Mask_Size (IPNet_Mask a) in
  let failed e := Errorf "address del %s on iface %d: %w"
                    [ANet (IPNet_IP a) (IPNet_Mask a); AInt (ad_IfaceID req); AErr e] in
  match To4 (IPNet_IP a) with
  | Some ip4 =>
      wrap failed (request_nil TypeIP4AddrDel
                     (ip4_addr_payload (ad_IfaceID req) ip4 ones (ad_MissingOK req)))
  | None =>
      match To16 (IPNet_IP a) with
      | None => fail (Errorf "address del: invalid IP address: %s" [AStr (IPNet_IP a)])
      | Some ip6 =>
          wrap failed (request_nil TypeIP6AddrDel
                         (ip6_addr_payload (ad_IfaceID req) ip6 ones (ad_MissingOK req)))
      end
  end.

Definition AddressFlush (ifaceID : Z) : est (Client P) unit :=
  _ ← wrap (λ e, Errorf "IPv4 address flush on iface %d: %w" [AInt ifaceID; AErr e])
        (request_nil TypeIP4AddrFlush (write_at 0 (put_u16 ifaceID) (make 2)));
  wrap (λ e, Errorf "IPv6 address flush on iface %d: %w" [AInt ifaceID; AErr e])
    (request_nil TypeIP6AddrFlush (write_at 0 (put_u16 ifaceID) (make 2))).
End address_ops.

(** ** Routes *)

(** [if vrfID == 0 { vrfID = grVRFDefaultID }] *)
Definition vrf_or_default (vrf : Z) : Z := if decide (vrf = 0) then grVRFDefaultID else vrf.

Definition ip4_route_add_payload (vrf : Z) (dest : IP) (ones : Z) (nh : IP) (existOK : bool)
    : list byte :=
  let payload := make 24 in
  let payload := write_at 0 (put_u16 vrf) payload in
  let payload := copy_at 4 4 dest payload in
  let payload := set_byte 8 ones payload in
  let payload := copy_at 12 4 nh payload in
  let payload := set_byte 20 4 payload in
  set_flag 21 existOK payload.

Definition ip6_route_add_payload (vrf : Z) (dest : IP) (ones : Z) (nh : IP) (existOK : bool)
    : list byte :=
  let payload := make ip6RouteAddReqSize in
  let payload := write_at offIP6RteVRF (put_u16 vrf) payload in
  let payload := copy_at offIP6RteDest 16 dest payload in
  let payload := set_byte offIP6RteDestPfx ones payload in
  let payload := copy_at offIP6RteNH 16 nh payload in
  let payload := set_byte offIP6RteOrigin 4 payload in
  set_flag offIP6RteExistOK existOK payload.

Definition ip4_route_del_payload (vrf : Z) (dest : IP) (ones : Z) (missingOK : bool) : list byte :=
  let payload := make 16 in
  let payload := write_at 0 (put_u16 vrf) payload in
  let payload := copy_at 4 4 dest payload in
  let payload := set_byte 8 ones payload in
  set_flag 12 missingOK payload.

Definition ip6_route_del_payload (vrf : Z) (dest : IP) (ones : Z) (missingOK : bool) : list byte :=
  let payload := make ip6RouteDelReqSize in
  let payload := write_at offIP6RteVRF (put_u16 vrf) payload in
  let payload := copy_at offIP6RteDest 16 dest payload in
  let payload := set_byte offIP6RteDestPfx ones payload in
  set_flag offIP6RteDelMissing missingOK payload.

Section route_ops.
Context `{Peer P}.

Definition RouteAdd (req : RouteAddRequest) : est (Client P) unit :=
  let d := ra_Destination req in
  let ones := Mask_Size (IPNet_Mask d) in
  let vrfID := vrf_or_default (ra_VRFID req) in
  let failed e := Errorf "route add %s via %s: %w"
                    [ANet (IPNet_IP d) (IPNet_Mask d); AStr (ra_NextHop req); AErr e] in
  match To4 (IPNet_IP d) with
  | Some destIP =>
      match To4 (ra_NextHop req) with
      | None => fail (Errorf "route add: IPv4 destination with non-IPv4 next hop: %s"
                        [AStr (ra_NextHop req)])
      | Some nhIP =>
          wrap failed (request_nil TypeIP4RouteAdd
                         (ip4_route_add_payload vrfID destIP ones nhIP (ra_ExistOK req)))
      end
  | None =>
      match To16 (IPNet_IP d) with
      | None => fail (Errorf "route add: invalid destination: %s" [AStr (IPNet_IP d)])
      | Some destIP6 =>
          match To16 (ra_NextHop req) with
          | None => fail (Errorf "route add: invalid next hop: %s" [AStr (ra_NextHop req)])
          | Some nhIP6 =>
              wrap failed (request_nil TypeIP6RouteAdd
                             (ip6_route_add_payload vrfID destIP6 ones nhIP6 (ra_ExistOK req)))
          end
      end
  end.

Definition RouteDel (req : RouteDelRequest) : est (Client P) unit :=
  let d := rd_Destination req in
  let ones := Mask_Size (IPNet_Mask d) in
  let vrfID := vrf_or_default (rd_VRFID req) in
  let failed e := Errorf "route del %s: %w" [ANet (IPNet_IP d) (IPNet_Mask d); AErr e] in
  match To4 (IPNet_IP d) with
  | Some destIP =>
      wrap failed (request_nil TypeIP4RouteDel
                     (ip4_route_del_payload vrfID destIP ones (rd_MissingOK req)))
  | None =>
      match To16 (IPNet_IP d) with
      | None => fail (Errorf "route del: invalid destination: %s" [AStr (IPNet_IP d)])
      | Some destIP6 =>
          wrap failed (request_nil TypeIP6RouteDel
                         (ip6_route_del_payload vrfID destIP6 ones (rd_MissingOK req)))
      end
  end.
End route_ops.

(** ** Flood lists *)

Definition encodeFloodEntry (vrfID vni : Z) (addr : IP) (buf : list byte) : result (list byte) :=
  let buf := set_byte offFloodType floodTypeVTEP buf in
  let buf := write_at offFloodVRFID (put_u16 vrfID) buf in
  let buf := write_at offFloodVTEPVNI (put_u32 vni) buf in
  putL3AddrIPv4 offFloodVTEPAddr addr buf.

(** The 32-byte request of [FloodAdd] and [FloodDel]. *)
Definition flood_payload (vrf vni : Z) (addr : IP) (flag : bool) : result (list byte) :=
  set_flag floodEntrySize flag <$> encodeFloodEntry (vrf_or_default vrf) vni addr (make floodReqSize).

(** One item of a flood list, [None] when it is too short and skipped. *)
Definition decode_flood (data : list byte) : option FloodVTEPInfo :=
  if decide (length data < floodEntrySize)%nat then None
  else Some (mkFloodVTEPInfo (get_u32 offFloodVTEPVNI data)
               (l3AddrIPv4 (read_at offFloodVTEPAddr l3AddrSize data))).

Section flood_ops.
Context `{Peer P}.

Definition FloodAdd (req : FloodAddRequest) : est (Client P) unit :=
  let failed e := Errorf "flood add vni %d addr %s: %w"
                    [AInt (fa_VNI req); AStr (fa_Addr req); AErr e] in
  payload ← lift_result (map_err failed
              (flood_payload (fa_VRFID req) (fa_VNI req) (fa_Addr req) (fa_ExistOK req)));
  wrap failed (request_nil TypeFloodAdd payload).

Definition FloodDel (req : FloodDelRequest) : est (Client P) unit :=
  let failed e := Errorf "flood del vni %d addr %s: %w"
                    [AInt (fd_VNI req); AStr (fd_Addr req); AErr e] in
  payload ← lift_result (map_err failed
              (flood_payload (fd_VRFID req) (fd_VNI req) (fd_Addr req) (fd_MissingOK req)));
  wrap failed (request_nil TypeFloodDel payload).

Definition FloodList (req : FloodListRequest) : est (Client P) (list FloodVTEPInfo) :=
  let payload := write_at offFloodVRFID (put_u16 (vrf_or_default (fl_VRFID req)))
                   (set_byte offFloodType floodTypeVTEP (make 4)) in
  items ← wrap (λ e, Errorf "flood list: %w" [AErr e]) (requestStream TypeFloodList payload);
  mret (omap decode_flood items).
End flood_ops.
