(* ===== verification/Socket.v ===== *)
(** * Socket: the client against a server that speaks the protocol

    The server is outside the repository: [Server] gives, for each request type
    and payload, the answers it sends (status and payload of each response).
    [socket_peer] turns such a server into the peer of a connection: it
    collects the bytes written, cuts them into request frames and sends back
    the frames of the answers.  The theorems say that [request] and
    [requestStream] implement exactly this request/answer exchange. *)

From S2P Require Import Prelude Bytes Protocol Client.
From Stdlib Require Import Lia ZArith.
Open Scope Z_scope.

Class Server (T : Type) := { answer : T → Z → list byte → T * list (Z * list byte) }.

Record Socket (T : Type) := mkSocket { sk_buf : list byte; sk_srv : T }.
Arguments mkSocket {T}.
Arguments sk_buf {T}.
Arguments sk_srv {T}.

(** The first request of a byte stream: id, type, payload, and what follows. *)
Definition parse_request (bs : list byte) : option (Z * Z * list byte * list byte) :=
  if decide (length bs < header_size)%nat then None
  else
    let hdr := decode_request_header bs in
    let n := Z.to_nat (rq_PayloadLen hdr) in
    let rest := drop header_size bs in
    if decide (length rest < n)%nat then None
    else Some (rq_ID hdr, rq_Type hdr, take n rest, drop n rest).

Definition frames (id : Z) (answers : list (Z * list byte)) : list byte :=
  answers ≫= λ a, response_frame id a.1 a.2.

Section socket.
Context `{Server T}.

(** Every complete request of the buffer is answered; each takes at least a
    header, so the buffer's length is enough fuel. *)
Fixpoint serve (fuel : nat) (s : T) (buf : list byte) : T * list byte * list byte :=
  match fuel with
  | O => (s, buf, [])
  | S fuel =>
      match parse_request buf with
      | None => (s, buf, [])
      | Some (id, ty, payload, rest) =>
          let '(s', answers) := answer s ty payload in
          let '(s'', buf', out) := serve fuel s' rest in
          (s'', buf', frames id answers ++ out)
      end
  end.

#[global] Instance socket_peer : Peer (Socket T) := {|
  peer_write p bs :=
    let buf := sk_buf p ++ bs in
    let '(s, buf', out) := serve (S (length buf)) (sk_srv p) buf in
    (mkSocket buf' s, Ok tt, out)
|}.

(** A client with no request under way. *)
Definition ready (s : T) (n : Z) (e : stream_end) : Client (Socket T) :=
  mkClient (mkConn (mkSocket [] s) [] e false) n.

Lemma parse_request_frame id ty payload rest :
  is_u32 id → is_u32 ty → is_u32 (Z.of_nat (length payload)) →
  parse_request (request_frame id ty payload ++ rest) = Some (id, ty, payload, rest).
Proof.
  intros Hid Hty Hlen. unfold parse_request, request_frame, encode_request_header.
  cbn [rq_ID rq_Type rq_PayloadLen].
  assert (u32 (Z.of_nat (length payload)) = Z.of_nat (length payload)) as ->
    by (apply Z.mod_small, Hlen).
  rewrite decide_False by (rewrite !length_app, length_encode_header; lia).
  unfold decode_request_header. cbn [rq_ID rq_Type rq_PayloadLen]. rewrite <-app_assoc.
  rewrite get_u32_encode_0, get_u32_encode_4, get_u32_encode_8 by done.
  rewrite (drop_app_length' _ _ header_size) by (by rewrite length_encode_header).
  rewrite Nat2Z.id, decide_False by (rewrite length_app; lia).
  by rewrite take_app_length, drop_app_length.
Qed.

(** A header that announces a payload is not a complete request. *)
Lemma parse_request_header_only id ty n :
  is_u32 n → 0 < n → parse_request (encode_request_header (mkRequestHeader id ty n)) = None.
Proof.
  intros Hn Hpos. unfold parse_request, encode_request_header, decode_request_header.
  cbn [rq_ID rq_Type rq_PayloadLen].
  rewrite decide_False by (rewrite length_encode_header; lia).
  pose proof (get_u32_encode_8 id ty n [] Hn) as Hget. rewrite app_nil_r in Hget. rewrite Hget.
  rewrite decide_True; [done|]. rewrite length_drop, length_encode_header. lia.
Qed.

Lemma serve_frame fuel s id ty payload s' answers :
  is_u32 id → is_u32 ty → is_u32 (Z.of_nat (length payload)) →
  answer s ty payload = (s', answers) →
  serve (S (S fuel)) s (request_frame id ty payload) = (s', [], frames id answers).
Proof.
  intros Hid Hty Hlen Ha. simpl.
  rewrite <-(app_nil_r (request_frame id ty payload)).
  rewrite parse_request_frame by done. rewrite Ha.
  unfold parse_request. simpl. by rewrite app_nil_r.
Qed.

Lemma conn_write_socket s s' buf bs buf' out e cl :
  serve (S (length (buf ++ bs))) s (buf ++ bs) = (s', buf', out) →
  conn_write bs (mkConn (mkSocket buf s) [] e cl) = (mkConn (mkSocket buf' s') out e cl, Ok tt).
Proof. intros Hs. unfold conn_write. cbn [peer_write socket_peer c_peer sk_buf sk_srv]. by rewrite Hs. Qed.

Lemma writeRequest_socket s s' id ty payload answers e cl :
  is_u32 id → is_u32 ty → is_u32 (Z.of_nat (length payload)) →
  answer s ty payload = (s', answers) →
  writeRequest id ty payload (mkConn (mkSocket [] s) [] e cl) =
    (mkConn (mkSocket [] s') (frames id answers) e cl, Ok tt).
Proof.
  intros Hid Hty Hlen Ha.
  assert (u32 (Z.of_nat (length payload)) = Z.of_nat (length payload)) as Hu
    by (apply Z.mod_small, Hlen).
  unfold writeRequest. set (hd := encode_request_header _).
  assert (length hd = 12%nat) as Hhd by apply length_encode_header.
  assert (∀ fuel, serve (S (S fuel)) s (hd ++ payload) = (s', [], frames id answers)) as Hs.
  { intros fuel. by apply serve_frame. }
  destruct payload as [|b payload].
  - rewrite app_nil_r in Hs.
    rewrite (est_bind_ok _ _ _ (mkConn (mkSocket [] s') (frames id answers) e cl) tt); [done|].
    apply wrap_ok. apply (conn_write_socket s s' []). rewrite app_nil_l, Hhd. apply Hs.
  - assert (parse_request hd = None) as Hnone.
    { apply parse_request_header_only; rewrite Hu; [done|simpl; lia]. }
    rewrite (est_bind_ok _ _ _ (mkConn (mkSocket hd s) [] e cl) tt).
    + rewrite decide_True by (simpl; lia). apply wrap_ok.
      apply (conn_write_socket s s' hd). rewrite length_app, Hhd. apply Hs.
    + apply wrap_ok. apply (conn_write_socket s s []). rewrite app_nil_l. simpl. by rewrite Hnone.
Qed.

(** The next request id. *)
Definition next (n : Z) : Z := u32 (n + 1).

Lemma next_u32 n : is_u32 (next n).
Proof. apply Z.mod_pos_bound. lia. Qed.

Definition fits (p : list byte) : Prop := Z.of_nat (length p) ≤ maxMsgLen.

Lemma request_socket {A} s s' n e ty payload (zero : A) dec st rp :
  is_u32 ty → is_u32 (Z.of_nat (length payload)) → is_u32 st → fits rp →
  answer s ty payload = (s', [(st, rp)]) →
  request ty payload zero dec (ready s n e) =
    (ready s' (next n) e,
     if decide (st ≠ 0) then Err (Errorf "grout error: status %d" [AInt st])
     else match dec with
          | Some d => if decide (0 < length rp)%nat
                      then map_err (λ e, Errorf "decoding response: %w" [AErr e]) (d rp)
                      else Ok zero
          | None => Ok zero
          end).
Proof.
  intros Hty Hlen Hst Hfit Ha. unfold request.
  rewrite (est_bind_ok _ _ _ (ready s (next n) e) (next n)) by done.
  rewrite (est_bind_ok _ _ _
             (mkClient (mkConn (mkSocket [] s') (frames (next n) [(st, rp)]) e false) (next n)) tt).
  2: { unfold on_conn, ready. cbn [cl_conn cl_reqID].
       by rewrite (writeRequest_socket s s' _ _ _ [(st, rp)]) by (done || apply next_u32). }
  rewrite (est_bind_ok _ _ _ (ready s' (next n) e)
             (mkResponseHeader (next n) st (Z.of_nat (length rp)), rp)).
  2: { unfold on_conn. cbn [cl_conn cl_reqID].
       by rewrite (readResponse_ok _ (next n) st rp []) by (done || apply next_u32). }
  cbn [rs_ForID rs_Status]. rewrite decide_False by auto.
  destruct (decide (st ≠ 0)); [done|]. destruct dec as [d|]; [|done].
  by case_decide.
Qed.
End socket.

(** ** The response stream *)

Section stream.
Context `{Peer P}.

(** What one iteration of the loop does with a response. *)
Definition stream_step (id : Z) (items : list (list byte)) (hp : ResponseHeader * list byte)
    (continue : list (list byte) → est (Client P) (list (list byte)))
    : est (Client P) (list (list byte)) :=
  let '(hdr, respPayload) := hp in
  if decide (rs_ForID hdr ≠ id) then
    fail (Errorf "response ID mismatch: got %d, want %d" [AInt (rs_ForID hdr); AInt id])
  else if decide (rs_Status hdr ≠ 0) then
    fail (Errorf "grout error: status %d" [AInt (rs_Status hdr)])
  else if decide (rs_PayloadLen hdr = 0) then mret items
  else continue (items ++ [respPayload]).

(** The loop entered with the items read so far. *)
Definition stream_from (id : Z) (items : list (list byte)) : est (Client P) (list (list byte)) :=
  λ c, stream_loop (S (length (c_in (cl_conn c)))) id items c.

Lemma stream_loop_unfold fuel id items (c : Client P) :
  stream_loop (S fuel) id items c =
  (on_conn readResponse ≫= λ hp, stream_step id items hp (stream_loop fuel id)) c.
Proof. cbn [stream_loop]. rewrite !est_bind_eq. by destruct (on_conn readResponse c) as [c' [[??]|?]]. Qed.

Lemma on_conn_readResponse_decreases (c c' : Client P) hp :
  on_conn readResponse c = (c', Ok hp) →
  (length (c_in (cl_conn c')) < length (c_in (cl_conn c)))%nat.
Proof.
  unfold on_conn. destruct (readResponse (cl_conn c)) as [cn r] eqn:E.
  intros [= <- ->]. apply readResponse_decreases in E. simpl. lia.
Qed.

(** More fuel than there are bytes to read makes no difference. *)
Lemma stream_loop_enough fuel1 fuel2 id items (c : Client P) :
  (length (c_in (cl_conn c)) < fuel1)%nat → (length (c_in (cl_conn c)) < fuel2)%nat →
  stream_loop fuel1 id items c = stream_loop fuel2 id items c.
Proof.
  revert fuel2 items c. induction fuel1 as [|fuel1 IH]; intros fuel2 items c H1 H2; [lia|].
  destruct fuel2 as [|fuel2]; [lia|].
  rewrite !stream_loop_unfold, !est_bind_eq.
  destruct (on_conn readResponse c) as [c' [[hdr p]|e]] eqn:E; [|done].
  apply on_conn_readResponse_decreases in E.
  unfold stream_step. repeat case_decide; try done. apply IH; lia.
Qed.

Lemma stream_from_unfold id items (c : Client P) :
  stream_from id items c =
  (on_conn readResponse ≫= λ hp, stream_step id items hp (stream_from id)) c.
Proof.
  unfold stream_from at 1. rewrite stream_loop_unfold, !est_bind_eq.
  destruct (on_conn readResponse c) as [c' [[hdr p]|e]] eqn:E; [|done].
  apply on_conn_readResponse_decreases in E.
  unfold stream_step. repeat case_decide; try done.
  unfold stream_from. apply stream_loop_enough; lia.
Qed.

(** C28: The response loop of [requestStream] terminates on every input: run with
    fuel, it satisfies the equation of the unbounded [for] loop of the source
    (read a response; stop on an error, a foreign id, a non-zero status or an
    empty payload; otherwise continue with the item appended), with no
    out-of-fuel case left, and any larger amount of fuel gives the same
    result. *)
Theorem requestStream_loop_terminates (id : Z) (items : list (list byte)) (c : Client P) :
  stream_from id items c =
    (on_conn readResponse ≫= λ hp, stream_step id items hp (stream_from id)) c ∧
  (∀ extra, stream_loop (S (length (c_in (cl_conn c))) + extra) id items c = stream_from id items c).
Proof.
  split; [apply stream_from_unfold|].
  intros extra. apply stream_loop_enough; lia.
Qed.
End stream.

(** An item of a stream: a successful response with a payload. *)
Definition stream_item (p : list byte) : Prop := p ≠ [] ∧ fits p.

(** The answers that end a stream. *)
Definition stream_answers (items : list (list byte)) : list (Z * list byte) :=
  ((λ p, (0, p)) <$> items) ++ [(0, [])].

Lemma frames_cons id st p ans : frames id ((st, p) :: ans) = response_frame id st p ++ frames id ans.
Proof. done. Qed.

Section stream_socket.
Context `{Peer P}.

(** Reading one successful response of the stream. *)
Lemma stream_from_frame id items p rest (c : Client P) :
  is_u32 id → fits p → c_in (cl_conn c) = response_frame id 0 p ++ rest →
  stream_from id items c =
    (if decide (p = []) then mret items else stream_from id (items ++ [p]))
      (mkClient (set_in (cl_conn c) rest) (cl_reqID c)).
Proof.
  intros Hid Hfit Hin. rewrite stream_from_unfold.
  rewrite (est_bind_ok _ _ _ (mkClient (set_in (cl_conn c) rest) (cl_reqID c))
             (mkResponseHeader id 0 (Z.of_nat (length p)), p)).
  2: { unfold on_conn. by rewrite (readResponse_ok _ id 0 p rest) by done. }
  unfold stream_step. cbn [rs_ForID rs_Status rs_PayloadLen].
  rewrite !decide_False by auto.
  destruct p as [|b p].
  - by rewrite !decide_True by done.
  - by rewrite !decide_False by (done || simpl; lia).
Qed.

Lemma stream_from_frames id items acc rest (c : Client P) :
  is_u32 id → Forall stream_item items →
  c_in (cl_conn c) = frames id (stream_answers items) ++ rest →
  stream_from id acc c = (mkClient (set_in (cl_conn c) rest) (cl_reqID c), Ok (acc ++ items)).
Proof.
  intros Hid Hitems. revert acc c.
  induction Hitems as [|p items [Hne Hfit] Hitems IH]; intros acc c Hin.
  - rewrite (stream_from_frame id acc [] rest c) by (done || by rewrite Hin).
    by rewrite app_nil_r.
  - assert (c_in (cl_conn c) = response_frame id 0 p ++ frames id (stream_answers items) ++ rest) as Hin'.
    { rewrite Hin. unfold stream_answers. cbn [fmap list_fmap app].
      by rewrite frames_cons, <-app_assoc. }
    rewrite (stream_from_frame id acc p _ c Hid Hfit Hin'), decide_False by done.
    rewrite IH by done. simpl. by rewrite <-app_assoc.
Qed.
End stream_socket.

Section exchange.
Context `{Server T}.

Lemma requestStream_socket s s' n e ty payload items :
  is_u32 ty → is_u32 (Z.of_nat (length payload)) → Forall stream_item items →
  answer s ty payload = (s', stream_answers items) →
  requestStream ty payload (ready s n e) = (ready s' (next n) e, Ok items).
Proof.
  intros Hty Hlen Hitems Ha. unfold requestStream.
  rewrite (est_bind_ok _ _ _ (ready s (next n) e) (next n)) by done.
  rewrite (est_bind_ok _ _ _
             (mkClient (mkConn (mkSocket [] s') (frames (next n) (stream_answers items)) e false) (next n)) tt).
  2: { unfold on_conn, ready. cbn [cl_conn cl_reqID].
       by rewrite (writeRequest_socket s s' _ _ _ (stream_answers items)) by (done || apply next_u32). }
  apply (stream_from_frames (next n) items [] []); [apply next_u32|done|].
  cbn [cl_conn c_in]. by rewrite app_nil_r.
Qed.
End exchange.
