(* ===== verification/Wire.v ===== *)
(** * Wire: the layout of the requests, as their receiver reads them

    The decoders below read a payload field by field at the offsets of grout's
    C structures, as the comments of src/pkg/groutapi/client.go document them.
    They are the specification: offsets, sizes, message types and the values of
    enumerations are written out as numbers, and none of the client's constants
    or helpers occurs in them.  The theorems say that the payload of every
    request decodes to the request. *)

From S2P Require Import Prelude Bytes Protocol NetIP Types GoLib Client.
From Stdlib Require Import Lia ZArith.
Open Scope Z_scope.

#[export] Hint Unfold ifNameSize ifDescSize portDevargsSize portDriverSize ifaceBaseSize ifaceSize
  portInfoBaseSize portInfoSize bridgeMaxMembers bridgeInfoBase bridgeInfoSize offBridgeInfoMAC
  l3AddrSize offL3AddrAF offL3AddrIPv4 ip6AddrReqSize offIP6IfaceID offIP6Addr offIP6Prefix
  offIP6Flag ip6RouteAddReqSize offIP6RteVRF offIP6RteDest offIP6RteDestPfx offIP6RteNH
  offIP6RteOrigin offIP6RteExistOK ip6RouteDelReqSize offIP6RteDelMissing vxlanInfoSize
  offVxlanVNI offVxlanEncapVRF offVxlanDstPort offVxlanLocal floodEntrySize floodReqSize
  offFloodType offFloodVRFID offFloodVTEPVNI offFloodVTEPAddr offIfaceID offIfaceType
  offIfaceFlags offIfaceMTU offIfaceDomain offIfaceName offIfaceInfo offPortDevargs
  IPv4len IPv6len : layout.

(** ** Strings in fixed-width fields *)

Lemma cString_app_nul s tl : x00 ∉ s → cString (s ++ x00 :: tl) = s.
Proof.
  induction s as [|b s IH]; intros Hs; simpl; [done|].
  rewrite not_elem_of_cons in Hs. rewrite decide_False by naive_solver.
  f_equal. apply IH. naive_solver.
Qed.

Lemma cString_padded s n : x00 ∉ s → (0 < n)%nat → cString (s ++ make n) = s.
Proof. intros. destruct n; [lia|]. by apply cString_app_nul. Qed.

(** What a fixed-width field holds after a string was copied into it. *)
Lemma read_copied off lim s buf :
  (length s < lim)%nat → (off + lim ≤ length buf)%nat →
  read_at off lim buf = make lim →
  read_at off lim (copy_at off lim s buf) = s ++ make (lim - length s).
Proof.
  intros Hs Hb Hz. unfold copy_at. rewrite take_full by lia.
  rewrite read_write_prefix by lia. f_equal.
  transitivity (drop (length s) (read_at off lim buf)).
  - unfold read_at. rewrite skipn_firstn_comm, drop_drop. do 2 f_equal.
  - rewrite Hz. apply drop_replicate.
Qed.

(** ** Interface requests *)

Inductive wire_info :=
| WBridge (mac : list byte)
| WVxlan (vni encap_vrf dst_port : Z) (local : option IP)
| WPort (devargs : gostring).

Record wire_iface := mkWireIface {
  w_id : Z; w_type : Z; w_flags : Z; w_mtu : Z; w_domain : Z; w_name : gostring; w_info : wire_info }.

(** A NUL-terminated string in a field. *)
Fixpoint c_str (bs : list byte) : gostring :=
  match bs with
  | [] => []
  | b :: bs => if decide (b = x00) then [] else b :: c_str bs
  end.

(** [struct l3_addr]: the family (AF_INET is 2), padding, the address. *)
Definition l3_addr (bs : list byte) : option IP :=
  if decide (get_byte 0 bs = 2) then Some (read_at 4 4 bs) else None.

(** [gr_iface_info_bridge], [gr_iface_info_vxlan] and [gr_iface_info_port], which
    follow the 292 bytes of [gr_iface]; bridges have type 6, VXLANs type 7. *)
Definition decode_info (ty : Z) (bs : list byte) : wire_info :=
  if decide (ty = 6) then WBridge (read_at 296 6 bs)
  else if decide (ty = 7) then
    WVxlan (get_u32 292 bs) (get_u16 296 bs) (get_u16 298 bs) (l3_addr (read_at 300 20 bs))
  else WPort (c_str (read_at 306 128 bs)).

Definition info_size (ty : Z) : nat := if decide (ty = 6) then 140 else if decide (ty = 7) then 36 else 174.

(** The receiver's view of a [gr_iface_add_req]: the length must be exact. *)
Definition decode_iface_add (bs : list byte) : option wire_iface :=
  let ty := get_byte 2 bs in
  if decide (length bs = 292 + info_size ty)%nat then
    Some (mkWireIface (get_u16 0 bs) ty (get_u16 4 bs) (get_u16 8 bs) (get_u16 12 bs)
            (c_str (read_at 20 16 bs)) (decode_info ty bs))
  else None.

(** A request whose fields have the widths of the source's types, with a name
    that grout's name field can hold. *)
Definition wf_vxlan (vx : VXLANConfig) : Prop :=
  is_u32 (vx_VNI vx) ∧ is_u16 (vx_EncapVRFID vx) ∧ is_u16 (vx_DstPort vx).

Definition wf_name (name : gostring) : Prop := (length name < 16)%nat ∧ x00 ∉ name.

Record wf_iface_req (req : InterfaceAddRequest) : Prop := {
  wfi_type : 0 ≤ ia_Type req < 256;
  wfi_domain : is_u16 (ia_DomainID req);
  wfi_mtu : is_u16 (ia_MTU req);
  wfi_name : wf_name (ia_Name req);
  wfi_path : x00 ∉ ia_VhostUserPath req;
  wfi_vxlan : ∀ vx, ia_VXLAN req = Some vx → wf_vxlan vx
}.

(** A conditional write is a write in both cases when the buffer holds zeros. *)
Lemma length_write_if (b : bool) off src buf :
  (off + length src ≤ length buf)%nat → length (if b then write_at off src buf else buf) = length buf.
Proof. destruct b; [apply length_write_at|done]. Qed.

Lemma length_iface_base req : length (iface_base req) = iface_req_size req.
Proof.
  unfold iface_base, copy_at, set_byte.
  assert (292 ≤ iface_req_size req)%nat as Hs.
  { unfold iface_req_size. repeat case_decide; autounfold with layout; lia. }
  repeat case_decide; wlen.
Qed.

Lemma iface_req_size_eq req : iface_req_size req = (292 + info_size (ia_Type req))%nat.
Proof. unfold iface_req_size, info_size. by repeat case_decide. Qed.

Lemma iface_req_size_ge req : (ifaceSize + vxlanInfoSize ≤ iface_req_size req)%nat.
Proof. unfold iface_req_size. repeat case_decide; autounfold with layout; lia. Qed.

(** The base section: every field is the request's, the info section is zero. *)
Lemma iface_base_read req :
  wf_iface_req req →
  let b := iface_base req in
  get_u16 0 b = 0 ∧ get_byte 2 b = ia_Type req ∧ get_u16 4 b = 1 ∧ get_u16 8 b = ia_MTU req ∧
  get_u16 12 b = ia_DomainID req ∧ c_str (read_at 20 16 b) = ia_Name req ∧
  (∀ off n, (offIfaceInfo ≤ off)%nat → (off + n ≤ iface_req_size req)%nat → read_at off n b = make n).
Proof.
  intros [Hty Hdom Hmtu [Hlen Hnul] _ _] b.
  pose proof (iface_req_size_ge req) as Hsz.
  assert (le_get (le_put 1 (ia_Type req)) = ia_Type req) as Hty' by (by apply (le_get_put 1)).
  split_and!.
  - unfold b, iface_base, copy_at, set_byte, get_u16. repeat case_decide; by wire.
  - unfold b, iface_base, copy_at, set_byte, get_byte. repeat case_decide; by wire.
  - unfold b, iface_base, copy_at, set_byte, get_u16. repeat case_decide; by wire.
  - unfold b, iface_base, copy_at, set_byte, get_u16.
    repeat case_decide; wire; first [by apply le_get_put_u16 | by replace (ia_MTU req) with 0 by lia].
  - unfold b, iface_base, copy_at, set_byte, get_u16.
    repeat case_decide; wire;
      first [by apply le_get_put_u16 | by replace (ia_DomainID req) with 0 by lia].
  - unfold b, iface_base. change 20%nat with offIfaceName. change 16%nat with ifNameSize at 1. rewrite read_copied.
    + apply cString_padded; [done|unfold ifNameSize; lia].
    + done.
    + unfold set_byte. repeat case_decide; wlen.
    + unfold set_byte. repeat case_decide; by wire.
  - intros off n Hoff Hn. unfold b, iface_base, copy_at, set_byte. repeat case_decide; by wire.
Qed.

(** What the receiver should see of a request.  The MAC of a bridge is locally
    administered and unicast (its first byte is 02), its other five bytes are the
    low ones of the FNV-1a hash of the name. *)
Definition mac_of (name : gostring) : list byte := x02 :: le_put 5 (fnv64a name).

(** The device id: the letters and digits of the name in lower case. *)
Definition device_id (name : gostring) : gostring :=
  filter (λ c, 97 ≤ b2z c ≤ 122 ∨ 48 ≤ b2z c ≤ 57) (omap id (lower_view name)).

Definition devargs_of (name path : gostring) : gostring :=
  if decide (path = []) then str "net_tap_" ++ device_id name ++ str ",iface=" ++ name
  else str "net_vhost_" ++ device_id name ++ str ",iface=" ++ path.

Definition info_of (req : InterfaceAddRequest) : wire_info :=
  if decide (ia_Type req = 6) then WBridge (mac_of (ia_Name req))
  else if decide (ia_Type req = 7) then
    match ia_VXLAN req with
    | Some vx => WVxlan (vx_VNI vx) (vx_EncapVRFID vx) (vx_DstPort vx) (To4 (vx_LocalAddr vx))
    | None => WVxlan 0 0 0 None
    end
  else WPort (devargs_of (ia_Name req) (ia_VhostUserPath req)).

(** No id yet, the up flag, and the fields of the request. *)
Definition wire_of (req : InterfaceAddRequest) : wire_iface :=
  mkWireIface 0 (ia_Type req) 1 (ia_MTU req) (ia_DomainID req) (ia_Name req) (info_of req).

Lemma bridgeMAC_of name : bridgeMAC name = mac_of name.
Proof. unfold bridgeMAC, mac_of. cbn [le_put]. by rewrite !Z.shiftr_shiftr by lia. Qed.

Lemma vdevID_of name : vdevID name = device_id name.
Proof.
  unfold vdevID, device_id. apply list_filter_iff. intros c. unfold is_alnum.
  by rewrite orb_true_iff, !bool_decide_eq_true.
Qed.

Lemma port_devargs_of req : port_devargs req = devargs_of (ia_Name req) (ia_VhostUserPath req).
Proof. unfold port_devargs, devargs_of, tapDevargs, vhostDevargs. by rewrite vdevID_of. Qed.

Lemma length_bridgeMAC name : length (bridgeMAC name) = 6%nat.
Proof. done. Qed.

(** The info section of a payload, and that its base is the one above. *)
Definition extends_base (req : InterfaceAddRequest) (p : list byte) : Prop :=
  length p = iface_req_size req ∧
  ∀ off n, (off + n ≤ offIfaceInfo)%nat → read_at off n p = read_at off n (iface_base req).

Lemma decode_iface_add_ok req p :
  wf_iface_req req → extends_base req p → decode_info (ia_Type req) p = info_of req →
  decode_iface_add p = Some (wire_of req).
Proof.
  intros Hwf [Hlen Hbase] Hinfo.
  destruct (iface_base_read req Hwf) as (H1 & H2 & H3 & H4 & H5 & H6 & _).
  unfold decode_iface_add, get_u16, get_byte in *.
  rewrite !Hbase by (autounfold with layout; lia). rewrite H1, H2, H3, H4, H5, H6.
  by rewrite decide_True, Hinfo by (by rewrite Hlen, iface_req_size_eq).
Qed.

Lemma extends_base_write req p off src :
  extends_base req p → (offIfaceInfo ≤ off)%nat → (off + length src ≤ iface_req_size req)%nat →
  extends_base req (write_at off src p).
Proof.
  intros [Hl Hb] Ho Hs. split; [rewrite length_write_at; lia|].
  intros off' n Hn. rewrite read_write_ne by lia. by apply Hb.
Qed.

Lemma extends_base_refl req : extends_base req (iface_base req).
Proof. split; [apply length_iface_base|done]. Qed.

(** The l3_addr encoding round trips. *)
Lemma putL3AddrIPv4_ok off ip buf buf' :
  putL3AddrIPv4 off ip buf = Ok buf' → (off + l3AddrSize ≤ length buf)%nat →
  ∃ ip4, To4 ip = Some ip4 ∧ buf' = write_at (off + 4) ip4 (write_at (off + 0) [z2b afIP4] buf) ∧
         l3_addr (read_at off 20 buf') = Some ip4.
Proof.
  unfold putL3AddrIPv4. destruct (To4 ip) as [ip4|] eqn:E; [|done]. intros [= <-] Hl.
  apply To4_length in E. exists ip4. unfold copy_at, set_byte, offL3AddrIPv4, offL3AddrAF.
  rewrite take_full by (by rewrite E). autounfold with layout in *.
  split_and!; [done..|].
  unfold l3_addr, get_byte.
  assert (∀ o n b, (o + n ≤ 20)%nat → read_at o n (read_at off 20 b) = read_at (off + o) n b) as Hrr.
  { intros o n b Hon. unfold read_at. rewrite skipn_firstn_comm, drop_drop, take_take.
    f_equal. lia. }
  rewrite !Hrr by lia. wire. done.
Qed.

(** When a payload can be built at all. *)
Definition iface_encodable (req : InterfaceAddRequest) : bool :=
  if decide (ia_Type req = 6) then true
  else if decide (ia_Type req = 7) then
    match ia_VXLAN req with
    | Some vx => bool_decide (is_Some (To4 (vx_LocalAddr vx)))
    | None => false
    end
  else bool_decide (length (devargs_of (ia_Name req) (ia_VhostUserPath req)) < 128)%nat.

Lemma iface_payload_encodable req : is_ok (iface_payload req) = iface_encodable req.
Proof.
  unfold iface_payload, iface_encodable. rewrite port_devargs_of. repeat case_decide; try done.
  - destruct (ia_VXLAN req) as [vx|]; [|done]. unfold putL3AddrIPv4.
    by destruct (To4 (vx_LocalAddr vx)).
  - by rewrite bool_decide_false by (unfold portDevargsSize in *; lia).
  - by rewrite bool_decide_true by (unfold portDevargsSize in *; lia).
Qed.

Lemma no_nul_cons_iff b (s : gostring) : x00 ∉ b :: s ↔ b ≠ x00 ∧ x00 ∉ s.
Proof. rewrite not_elem_of_cons. naive_solver. Qed.

Lemma b2z_x00 b : b2z b = 0 → b = x00.
Proof. intros Hb. by apply b2z_inj. Qed.

Lemma is_alnum_not_nul b : is_alnum b = true → b ≠ x00.
Proof. intros H ->. by vm_compute in H. Qed.

Lemma vdevID_no_nul name : x00 ∉ vdevID name.
Proof. unfold vdevID. intros [H _]%list_elem_of_filter. by apply is_alnum_not_nul in H. Qed.

Lemma port_devargs_no_nul req : wf_iface_req req → x00 ∉ port_devargs req.
Proof.
  intros [_ _ _ [_ Hn] Hp _]. pose proof (vdevID_no_nul (ia_Name req)) as Hv.
  assert (∀ s : gostring, bool_decide (x00 ∈ s) = false → x00 ∉ s) as Hlit
    by (intros s Hs; by apply bool_decide_eq_false in Hs).
  unfold port_devargs, tapDevargs, vhostDevargs. case_decide; rewrite !not_elem_of_app;
    split_and!; try done; by apply Hlit.
Qed.

Lemma iface_payload_wire req p :
  wf_iface_req req → iface_payload req = Ok p → decode_iface_add p = Some (wire_of req).
Proof.
  intros Hwf. pose proof (iface_req_size_ge req) as Hge.
  pose proof (length_iface_base req) as Hlb. pose proof (extends_base_refl req) as Hrefl.
  destruct (iface_base_read req Hwf) as (_ & _ & _ & _ & _ & _ & Hzero).
  unfold iface_payload. destruct (decide (ia_Type req = InterfaceTypeBridge)) as [Hb|Hb].
  { intros [= <-]. apply decode_iface_add_ok; [done|apply extends_base_write; [done|wlen|rewrite length_bridgeMAC; wlen]|].
    unfold decode_info, info_of. rewrite !decide_True by done. f_equal.
    etrans; [|apply bridgeMAC_of]. apply read_write_eq; [done|]. rewrite Hlb, length_bridgeMAC. wlen. }
  destruct (decide (ia_Type req = InterfaceTypeVXLAN)) as [Hv|Hv].
  - destruct (ia_VXLAN req) as [vx|] eqn:Hvx; [|done].
    rewrite map_err_ok. intros Hput.
    destruct (wfi_vxlan req Hwf vx Hvx) as (H1 & H2 & H3).
    apply putL3AddrIPv4_ok in Hput as (ip4 & Hip & -> & Hl3); [|wlen].
    pose proof (To4_length _ _ Hip) as Hip4. unfold IPv4len in Hip4.
    apply decode_iface_add_ok; [done|repeat (apply extends_base_write; [|wlen..]); done|].
    change (offIfaceInfo + offVxlanLocal)%nat with 300%nat in *.
    unfold decode_info, info_of, get_u32, get_u16 in *. rewrite !decide_False, !decide_True, Hvx by done.
    rewrite Hl3, Hip. clear Hl3. wire. rewrite decide_False, decide_True by done. by rewrite le_get_put_u32, !le_get_put_u16.
  - case_decide; [done|]. intros [= <-].
    apply decode_iface_add_ok; [done| |].
    + unfold copy_at. apply extends_base_write; [done|wlen|].
      rewrite iface_req_size_eq. unfold info_size. rewrite !decide_False by done. wlen.
    + unfold decode_info, info_of. rewrite !decide_False, <-port_devargs_of by done. f_equal.
      assert (offPortDevargs + portDevargsSize ≤ iface_req_size req)%nat.
      { rewrite iface_req_size_eq. unfold info_size. rewrite !decide_False by done. wlen. }
      rewrite read_copied; [|lia|lia|].
      * apply cString_padded; [by apply port_devargs_no_nul|lia].
      * apply Hzero; [wlen|lia].
Qed.

(** C24: Every interface request that can be sent decodes to what was asked: at
    the receiver's offsets the payload has the type, the up flag, the MTU, the
    bridge membership and the NUL-terminated name of the request, and the info
    section of its kind (the bridge's MAC, the VXLAN parameters with the IPv4
    local address, or the port's devargs), and its length is exact. *)
Theorem iface_payload_decodes req p :
  wf_iface_req req → iface_payload req = Ok p → decode_iface_add p = Some (wire_of req).
Proof. apply iface_payload_wire. Qed.

(** ** All requests *)

(** A request as its receiver understands it.  [v6] tells the IPv6 layouts,
    [flag] is [exist_ok] or [missing_ok]. *)
Inductive wire_req :=
| WHello (version : Z) (name : gostring)
| WIfaceAdd (w : wire_iface)
| WIfaceDel (iface : Z)
| WIfaceList (type : Z)
| WAddr (del v6 : bool) (iface : Z) (ip : IP) (prefix : Z) (flag : bool)
| WAddrFlush (v6 : bool) (iface : Z)
| WRouteAdd (v6 : bool) (vrf : Z) (dest : IP) (prefix : Z) (nh : IP) (nh_id origin : Z) (flag : bool)
| WRouteDel (v6 : bool) (vrf : Z) (dest : IP) (prefix : Z) (flag : bool)
| WFlood (del : bool) (vrf vni : Z) (addr : option IP) (flag : bool)
| WFloodList (vrf : Z).

Definition get_flag (off : nat) (bs : list byte) : bool := bool_decide (get_byte off bs ≠ 0).

(** [guard_len n bs r]: a payload of the wrong length is not understood. *)
Definition guard_len (n : nat) (bs : list byte) (r : wire_req) : option wire_req :=
  if decide (length bs = n) then Some r else None.

Definition decode_addr (del v6 : bool) (bs : list byte) : option wire_req :=
  if v6 then
    guard_len 22 bs
      (WAddr del true (get_u16 0 bs) (read_at 2 16 bs) (get_byte 18 bs) (get_flag 20 bs))
  else
    guard_len 16 bs
      (WAddr del false (get_u16 0 bs) (read_at 4 4 bs) (get_byte 8 bs) (get_flag 12 bs)).

Definition decode_route_add (v6 : bool) (bs : list byte) : option wire_req :=
  if v6 then
    guard_len 44 bs
      (WRouteAdd true (get_u16 0 bs) (read_at 2 16 bs) (get_byte 18 bs) (read_at 19 16 bs)
         (get_u32 36 bs) (get_byte 40 bs) (get_flag 41 bs))
  else
    guard_len 24 bs
      (WRouteAdd false (get_u16 0 bs) (read_at 4 4 bs) (get_byte 8 bs) (read_at 12 4 bs)
         (get_u32 16 bs) (get_byte 20 bs) (get_flag 21 bs)).

Definition decode_route_del (v6 : bool) (bs : list byte) : option wire_req :=
  if v6 then
    guard_len 20 bs
      (WRouteDel true (get_u16 0 bs) (read_at 2 16 bs) (get_byte 18 bs) (get_flag 19 bs))
  else
    guard_len 16 bs
      (WRouteDel false (get_u16 0 bs) (read_at 4 4 bs) (get_byte 8 bs) (get_flag 12 bs)).

Definition decode_flood_req (del : bool) (bs : list byte) : option wire_req :=
  if decide (get_byte 0 bs = 1) then
    guard_len 32 bs
      (WFlood del (get_u16 2 bs) (get_u32 4 bs) (l3_addr (read_at 8 20 bs)) (get_flag 28 bs))
  else None.

(** The message types are GR_MSG_TYPE(module, id). *)
Definition decode_request (ty : Z) (bs : list byte) : option wire_req :=
  if decide (ty = 0xcafe1981) then guard_len 132 bs (WHello (get_u32 0 bs) (c_str (read_at 4 128 bs)))
  else if decide (ty = 0xacdc0001) then WIfaceAdd <$> decode_iface_add bs
  else if decide (ty = 0xacdc0002) then guard_len 2 bs (WIfaceDel (get_u16 0 bs))
  else if decide (ty = 0xacdc0004) then guard_len 1 bs (WIfaceList (get_byte 0 bs))
  else if decide (ty = 0xf00d0005) then decode_addr false false bs
  else if decide (ty = 0xf00d0006) then decode_addr true false bs
  else if decide (ty = 0xfeed0005) then decode_addr false true bs
  else if decide (ty = 0xfeed0006) then decode_addr true true bs
  else if decide (ty = 0xf00d0008) then guard_len 2 bs (WAddrFlush false (get_u16 0 bs))
  else if decide (ty = 0xfeed0008) then guard_len 2 bs (WAddrFlush true (get_u16 0 bs))
  else if decide (ty = 0xf00d0001) then decode_route_add false bs
  else if decide (ty = 0xfeed0001) then decode_route_add true bs
  else if decide (ty = 0xf00d0002) then decode_route_del false bs
  else if decide (ty = 0xfeed0002) then decode_route_del true bs
  else if decide (ty = 0xbabe0007) then decode_flood_req false bs
  else if decide (ty = 0xbabe0008) then decode_flood_req true bs
  else if decide (ty = 0xbabe0009) then guard_len 4 bs (WFloodList (get_u16 2 bs))
  else None.

(** ** The payloads decode *)

Lemma length_ip4_addr_payload id ip ones flag :
  length ip = 4%nat → length (ip4_addr_payload id ip ones flag) = 16%nat.
Proof.
  intros. unfold ip4_addr_payload, set_flag, set_byte, copy_at. rewrite take_full by lia.
  destruct flag; wlen.
Qed.

Lemma get_byte_z2b z : 0 ≤ z < 256 → le_get [z2b z] = z.
Proof. intros. rewrite le_get_cons. simpl. rewrite b2z_z2b_small by done. lia. Qed.

(** Evaluate the fields of a payload whose construction is visible. *)
Ltac decode_fields :=
  unfold get_u16, get_u32, get_byte, get_flag, get_byte, guard_len, set_byte, copy_at in *;
  rewrite ?take_full by (autounfold with layout in *; lia);
  rewrite ?decide_True by wlen; wire;
  rewrite ?le_get_put_u16, ?le_get_put_u32, ?get_byte_z2b by (done || lia);
  try done.

Lemma decode_ip4_addr del id ip ones flag :
  is_u16 id → length ip = 4%nat → 0 ≤ ones < 256 →
  decode_addr del false (ip4_addr_payload id ip ones flag) = Some (WAddr del false id ip ones flag).
Proof.
  intros. unfold decode_addr, ip4_addr_payload, set_flag. destruct flag; decode_fields.
Qed.

Lemma decode_ip6_addr del id ip ones flag :
  is_u16 id → length ip = 16%nat → 0 ≤ ones < 256 →
  decode_addr del true (ip6_addr_payload id ip ones flag) = Some (WAddr del true id ip ones flag).
Proof.
  intros. unfold decode_addr, ip6_addr_payload, set_flag. destruct flag; decode_fields.
Qed.

Lemma decode_ip4_route_add vrf dest ones nh flag :
  is_u16 vrf → length dest = 4%nat → length nh = 4%nat → 0 ≤ ones < 256 →
  decode_route_add false (ip4_route_add_payload vrf dest ones nh flag) =
    Some (WRouteAdd false vrf dest ones nh 0 4 flag).
Proof.
  intros. unfold decode_route_add, ip4_route_add_payload, set_flag. destruct flag; decode_fields.
Qed.

Lemma decode_ip6_route_add vrf dest ones nh flag :
  is_u16 vrf → length dest = 16%nat → length nh = 16%nat → 0 ≤ ones < 256 →
  decode_route_add true (ip6_route_add_payload vrf dest ones nh flag) =
    Some (WRouteAdd true vrf dest ones nh 0 4 flag).
Proof.
  intros. unfold decode_route_add, ip6_route_add_payload, set_flag. destruct flag; decode_fields.
Qed.

Lemma decode_ip4_route_del vrf dest ones flag :
  is_u16 vrf → length dest = 4%nat → 0 ≤ ones < 256 →
  decode_route_del false (ip4_route_del_payload vrf dest ones flag) =
    Some (WRouteDel false vrf dest ones flag).
Proof.
  intros. unfold decode_route_del, ip4_route_del_payload, set_flag. destruct flag; decode_fields.
Qed.

Lemma decode_ip6_route_del vrf dest ones flag :
  is_u16 vrf → length dest = 16%nat → 0 ≤ ones < 256 →
  decode_route_del true (ip6_route_del_payload vrf dest ones flag) =
    Some (WRouteDel true vrf dest ones flag).
Proof.
  intros. unfold decode_route_del, ip6_route_del_payload, set_flag. destruct flag; decode_fields.
Qed.

Lemma length_set_flag off flag buf :
  (off < length buf)%nat → length (set_flag off flag buf) = length buf.
Proof. intros. unfold set_flag, set_byte. destruct flag; [|done]. wlen. Qed.

(** The VRF a call is about: zero stands for the default VRF, 1. *)
Definition vrf_of (vrf : Z) : Z := if decide (vrf = 0) then 1 else vrf.

Lemma decode_flood_payload del vrf vni addr flag p :
  is_u16 vrf → is_u32 vni → flood_payload vrf vni addr flag = Ok p →
  decode_flood_req del p = Some (WFlood del (vrf_of vrf) vni (To4 addr) flag).
Proof.
  intros Hvrf Hvni. change (vrf_of vrf) with (vrf_or_default vrf). unfold flood_payload, encodeFloodEntry.
  assert (is_u16 (vrf_or_default vrf)) as Hvrf'.
  { unfold vrf_or_default. case_decide; [|done]. by vm_compute. }
  destruct (putL3AddrIPv4 _ _ _) as [buf|] eqn:Hput; [|done]. intros [= <-].
  apply putL3AddrIPv4_ok in Hput as (ip4 & Hip & -> & Hl3); [|unfold set_byte; wlen].
  pose proof (To4_length _ _ Hip) as Hip4. unfold IPv4len in Hip4.
  unfold decode_flood_req, set_flag in *. rewrite Hip. change offFloodVTEPAddr with 8%nat in *.
  assert (∀ b : list byte, (28 < length b)%nat →
    read_at 8 20 (write_at floodEntrySize [z2b 1] b) = read_at 8 20 b) as Hskip.
  { intros b Hb. apply read_write_ne; wlen. }
  destruct flag; unfold set_byte in *.
  - rewrite Hskip by wlen. rewrite Hl3. clear Hl3 Hskip. unfold get_byte. wire.
    rewrite decide_True by done. decode_fields.
  - rewrite Hl3. clear Hl3 Hskip. unfold get_byte. wire. rewrite decide_True by done. decode_fields.
Qed.

Lemma decode_hello : decode_request TypeHello hello_payload = Some (WHello apiVersion (str "grout-k-cni")).
Proof. by vm_compute. Qed.

(** Which request each message type decodes as. *)
Lemma decode_request_types bs :
  decode_request TypeIfaceAdd bs = WIfaceAdd <$> decode_iface_add bs ∧
  decode_request TypeIP4AddrAdd bs = decode_addr false false bs ∧
  decode_request TypeIP4AddrDel bs = decode_addr true false bs ∧
  decode_request TypeIP6AddrAdd bs = decode_addr false true bs ∧
  decode_request TypeIP6AddrDel bs = decode_addr true true bs ∧
  decode_request TypeIP4RouteAdd bs = decode_route_add false bs ∧
  decode_request TypeIP6RouteAdd bs = decode_route_add true bs ∧
  decode_request TypeIP4RouteDel bs = decode_route_del false bs ∧
  decode_request TypeIP6RouteDel bs = decode_route_del true bs ∧
  decode_request TypeFloodAdd bs = decode_flood_req false bs ∧
  decode_request TypeFloodDel bs = decode_flood_req true bs.
Proof. done. Qed.

(** The one-field requests. *)
Lemma get_u16_iface id : is_u16 id → get_u16 0 (write_at 0 (put_u16 id) (make 2)) = id.
Proof. intros. unfold get_u16. wire. by apply le_get_put_u16. Qed.

Lemma decode_iface_del id :
  is_u16 id → decode_request TypeIfaceDel (write_at 0 (put_u16 id) (make 2)) = Some (WIfaceDel id).
Proof. intros. rewrite <-(get_u16_iface id) at 2 by done. done. Qed.

Lemma decode_addr_flush (v6 : bool) id :
  is_u16 id →
  decode_request (if v6 then TypeIP6AddrFlush else TypeIP4AddrFlush) (write_at 0 (put_u16 id) (make 2))
  = Some (WAddrFlush v6 id).
Proof. intros. rewrite <-(get_u16_iface id) at 2 by done. by destruct v6. Qed.

Lemma decode_iface_list ty :
  0 ≤ ty < 256 → decode_request TypeIfaceList [z2b ty] = Some (WIfaceList ty).
Proof. intros. rewrite <-(get_byte_z2b ty) at 2 by done. done. Qed.

Lemma decode_flood_list vrf :
  is_u16 vrf →
  decode_request TypeFloodList
    (write_at offFloodVRFID (put_u16 vrf) (set_byte offFloodType floodTypeVTEP (make 4)))
  = Some (WFloodList vrf).
Proof.
  intros. change (decode_request TypeFloodList ?bs) with
    (guard_len 4 bs (WFloodList (get_u16 offFloodVRFID bs))).
  decode_fields.
Qed.

(** ** Interface lists *)

(** An entry of a list, as grout writes it: [gr_iface] has 292 bytes, the name
    field holds the name, a NUL and any stale bytes of an earlier, longer name.
    [None] is an item that is too short for a [gr_iface]. *)
Record entry_of (data : list byte) (i : InterfaceInfo) : Prop := {
  en_length : (292 ≤ length data)%nat;
  en_id : read_at 0 2 data = put_u16 (if_ID i);
  en_type : read_at 2 1 data = [z2b (if_Type i)];
  en_domain : read_at 12 2 data = put_u16 (if_Domain i);
  en_name : ∃ stale, read_at 20 16 data = if_Name i ++ x00 :: stale;
  en_ranges : is_u16 (if_ID i) ∧ is_u16 (if_Domain i) ∧ 0 ≤ if_Type i < 256 ∧ x00 ∉ if_Name i }.

Definition entry (data : list byte) (i : option InterfaceInfo) : Prop :=
  match i with Some i => entry_of data i | None => (length data < 292)%nat end.

Lemma decode_iface_entry data i : entry data i → decode_iface data = i.
Proof.
  unfold decode_iface. destruct i as [[id ty name dom]|]; simpl; [|by intros ?; rewrite decide_True].
  intros [Hl H1 H2 H3 [stale H4] (Hid & Hdom & Hty & Hn)]. simpl in *. rewrite decide_False by (autounfold with layout; lia).
  unfold get_u16, get_byte. change (read_at offIfaceID 2 data) with (read_at 0 2 data).
  change (read_at offIfaceType 1 data) with (read_at 2 1 data).
  change (read_at offIfaceDomain 2 data) with (read_at 12 2 data).
  change (read_at offIfaceName ifNameSize data) with (read_at 20 16 data).
  by rewrite H1, H2, H3, H4, !le_get_put_u16, get_byte_z2b, cString_app_nul.
Qed.

Lemma decode_iface_entries items infos : Forall2 entry items infos → omap decode_iface items = omap id infos.
Proof.
  induction 1 as [|data i items infos Hi _ IH]; [done|].
  unfold omap in *. simpl. by rewrite (decode_iface_entry data i Hi), IH.
Qed.
