(* ===== verification/GroutApi.v ===== *)
(** * GroutApi: the client's methods implement grout's API

    grout itself is outside the repository: [GroutServer] is any server given by
    its answers to decoded requests ([wire_req]).  Against such a server each
    method of the client is one request of the API, with the arguments it was
    called with, and returns what the server answered.  A request the client
    refuses is refused before anything is sent. *)

From S2P Require Import Prelude Bytes Protocol NetIP Types GoLib Client Socket Wire.
From Stdlib Require Import Lia ZArith.
Open Scope Z_scope.

Class GroutServer (T : Type) := { gserve : T → wire_req → T * list (Z * list byte) }.

(** A request that does not decode is answered with EINVAL. *)
#[global] Instance grout_server `{GroutServer T} : Server T := {|
  answer s ty payload :=
    match decode_request ty payload with
    | Some r => gserve s r
    | None => (s, [(22, [])])
    end
|}.

(** The calls that are one request with nothing to decode in the answer. *)
Inductive api_call :=
| ApiInterfaceDel (r : InterfaceDelRequest)
| ApiAddressAdd (r : AddressAddRequest)
| ApiAddressDel (r : AddressDelRequest)
| ApiRouteAdd (r : RouteAddRequest)
| ApiRouteDel (r : RouteDelRequest)
| ApiFloodAdd (r : FloodAddRequest)
| ApiFloodDel (r : FloodDelRequest).

Definition run_api `{Peer P} (a : api_call) : est (Client P) unit :=
  match a with
  | ApiInterfaceDel r => InterfaceDel r
  | ApiAddressAdd r => AddressAdd r
  | ApiAddressDel r => AddressDel r
  | ApiRouteAdd r => RouteAdd r
  | ApiRouteDel r => RouteDel r
  | ApiFloodAdd r => FloodAdd r
  | ApiFloodDel r => FloodDel r
  end.

(** The request a call should make: an IPv4 address (in either form of
    [net.IP]) selects the IPv4 request, any other 16-byte address the IPv6
    one; a VRF of zero is the default VRF; [None] when the call is refused. *)
Definition addr_req (del : bool) (id : Z) (a : IPNet) (flag : bool) : option wire_req :=
  match To4 (IPNet_IP a), To16 (IPNet_IP a) with
  | Some ip4, _ => Some (WAddr del false id ip4 (Mask_Size (IPNet_Mask a)) flag)
  | None, Some ip6 => Some (WAddr del true id ip6 (Mask_Size (IPNet_Mask a)) flag)
  | None, None => None
  end.

Definition api_req (a : api_call) : option wire_req :=
  match a with
  | ApiInterfaceDel r => Some (WIfaceDel (id_IfaceID r))
  | ApiAddressAdd r => addr_req false (aa_IfaceID r) (aa_Address r) (aa_ExistOK r)
  | ApiAddressDel r => addr_req true (ad_IfaceID r) (ad_Address r) (ad_MissingOK r)
  | ApiRouteAdd r =>
      let d := ra_Destination r in
      let ones := Mask_Size (IPNet_Mask d) in
      let vrf := vrf_of (ra_VRFID r) in
      match To4 (IPNet_IP d) with
      | Some dest =>
          (λ nh, WRouteAdd false vrf dest ones nh 0 4 (ra_ExistOK r)) <$> To4 (ra_NextHop r)
      | None =>
          dest ← To16 (IPNet_IP d); nh ← To16 (ra_NextHop r);
          Some (WRouteAdd true vrf dest ones nh 0 4 (ra_ExistOK r))
      end
  | ApiRouteDel r =>
      let d := rd_Destination r in
      let ones := Mask_Size (IPNet_Mask d) in
      let vrf := vrf_of (rd_VRFID r) in
      match To4 (IPNet_IP d), To16 (IPNet_IP d) with
      | Some dest, _ => Some (WRouteDel false vrf dest ones (rd_MissingOK r))
      | None, Some dest => Some (WRouteDel true vrf dest ones (rd_MissingOK r))
      | None, None => None
      end
  | ApiFloodAdd r =>
      (λ a, WFlood false (vrf_of (fa_VRFID r)) (fa_VNI r) (Some a) (fa_ExistOK r))
        <$> To4 (fa_Addr r)
  | ApiFloodDel r =>
      (λ a, WFlood true (vrf_of (fd_VRFID r)) (fd_VNI r) (Some a) (fd_MissingOK r))
        <$> To4 (fd_Addr r)
  end.

(** How a call reports an error: the operation and its arguments around it. *)
Definition api_failed (a : api_call) (e : error) : error :=
  let net n := ANet (IPNet_IP n) (IPNet_Mask n) in
  match a with
  | ApiInterfaceDel r => Errorf "interface del %d: %w" [AInt (id_IfaceID r); AErr e]
  | ApiAddressAdd r => Errorf "address add %s on iface %d: %w" [net (aa_Address r); AInt (aa_IfaceID r); AErr e]
  | ApiAddressDel r => Errorf "address del %s on iface %d: %w" [net (ad_Address r); AInt (ad_IfaceID r); AErr e]
  | ApiRouteAdd r => Errorf "route add %s via %s: %w" [net (ra_Destination r); AStr (ra_NextHop r); AErr e]
  | ApiRouteDel r => Errorf "route del %s: %w" [net (rd_Destination r); AErr e]
  | ApiFloodAdd r => Errorf "flood add vni %d addr %s: %w" [AInt (fa_VNI r); AStr (fa_Addr r); AErr e]
  | ApiFloodDel r => Errorf "flood del vni %d addr %s: %w" [AInt (fd_VNI r); AStr (fd_Addr r); AErr e]
  end.

(** Arguments in the ranges of their Go types, masks of at most 16 bytes. *)
Definition wf_net (a : IPNet) : Prop := (length (IPNet_Mask a) ≤ IPv6len)%nat.

Definition wf_api (a : api_call) : Prop :=
  match a with
  | ApiInterfaceDel r => is_u16 (id_IfaceID r)
  | ApiAddressAdd r => is_u16 (aa_IfaceID r) ∧ wf_net (aa_Address r)
  | ApiAddressDel r => is_u16 (ad_IfaceID r) ∧ wf_net (ad_Address r)
  | ApiRouteAdd r => is_u16 (ra_VRFID r) ∧ wf_net (ra_Destination r)
  | ApiRouteDel r => is_u16 (rd_VRFID r) ∧ wf_net (rd_Destination r)
  | ApiFloodAdd r => is_u16 (fa_VRFID r) ∧ is_u32 (fa_VNI r)
  | ApiFloodDel r => is_u16 (fd_VRFID r) ∧ is_u32 (fd_VNI r)
  end.

Lemma wf_net_ones a : wf_net a → 0 ≤ Mask_Size (IPNet_Mask a) < 256.
Proof. intros H%Mask_Size_bound. lia. Qed.

Lemma vrf_or_default_u16 vrf : is_u16 vrf → is_u16 (vrf_or_default vrf).
Proof. intros. unfold vrf_or_default. case_decide; [by vm_compute|done]. Qed.

(** A message small enough to be one frame. *)
Definition small (p : list byte) : Prop := (length p ≤ 1024)%nat.

Lemma small_u32 p : small p → is_u32 (Z.of_nat (length p)).
Proof. unfold small, is_u32. lia. Qed.

Lemma decode_request_u32 ty p r : decode_request ty p = Some r → is_u32 ty.
Proof.
  intros Hd. assert (ty ∈ msg_types) as Hin.
  { unfold decode_request in Hd. unfold msg_types.
    repeat (case_decide; [subst; repeat (apply list_elem_of_here || apply list_elem_of_further)|]).
    done. }
  assert (Forall is_u32 msg_types) as Hall by (repeat constructor; by vm_compute).
  rewrite Forall_forall in Hall. by apply Hall.
Qed.

Section served.
Context `{GroutServer T}.

(** What a method returns for a status. *)
Definition status_result {A} (st : Z) (a : result A) : result A :=
  if decide (st ≠ 0) then Err (Errorf "grout error: status %d" [AInt st]) else a.

Lemma request_served {A} s s' n e ty payload r (zero : A) dec st rp :
  decode_request ty payload = Some r → small payload → is_u32 st → fits rp →
  gserve s r = (s', [(st, rp)]) →
  request ty payload zero dec (ready s n e) =
    (ready s' (next n) e,
     status_result st
       match dec with
       | Some d => if decide (0 < length rp)%nat
                   then map_err (λ e, Errorf "decoding response: %w" [AErr e]) (d rp)
                   else Ok zero
       | None => Ok zero
       end).
Proof.
  intros Hdec Hsm Hst Hfit Hs.
  rewrite (request_socket s s' n e ty payload zero dec st rp);
    [done|by eapply decode_request_u32|by apply small_u32|done..|].
  simpl. by rewrite Hdec.
Qed.

(** A method that sends [payload] and wraps the error. *)
Lemma sent_served s s' n e ty payload r f st rp :
  decode_request ty payload = Some r → small payload → is_u32 st → fits rp →
  gserve s r = (s', [(st, rp)]) →
  wrap f (request_nil ty payload) (ready s n e) =
    (ready s' (next n) e, map_err f (status_result st (Ok tt))).
Proof.
  intros. unfold wrap, request_nil. by erewrite request_served by done.
Qed.
End served.

(** Every request that decodes is small. *)
Lemma guard_len_some n bs r r' : guard_len n bs r = Some r' → length bs = n ∧ r' = r.
Proof. unfold guard_len. case_decide; naive_solver. Qed.

Lemma decode_request_small ty p r : decode_request ty p = Some r → small p.
Proof.
  assert (∀ n r0, guard_len n p r0 = Some r → (n ≤ 1024)%nat → small p) as Hg.
  { intros n r0 [Hl _]%guard_len_some Hn. unfold small. lia. }
  unfold decode_request, decode_addr, decode_route_add, decode_route_del, decode_flood_req.
  intros Hd.
  repeat (case_decide; [try (eapply Hg; [exact Hd|autounfold with layout; lia])|]); try done.
  unfold decode_iface_add in Hd. case_decide as Hl; [|done].
  unfold small. rewrite Hl. unfold info_size. repeat case_decide; autounfold with layout; lia.
Qed.

Section refines.
Context `{GroutServer T}.

Lemma sent_served' s s' n e ty payload r f st rp :
  decode_request ty payload = Some r → is_u32 st → fits rp → gserve s r = (s', [(st, rp)]) →
  wrap f (request_nil ty payload) (ready s n e) =
    (ready s' (next n) e, map_err f (status_result st (Ok tt))).
Proof. intros Hd. eapply sent_served; [exact Hd|by eapply decode_request_small|done..]. Qed.

Ltac served := eapply sent_served'; [|done|done|done].

Lemma addr_req_served (del : bool) id (a : IPNet) flag r s s' n e f st rp :
  is_u16 id → wf_net a → addr_req del id a flag = Some r →
  is_u32 st → fits rp → gserve s r = (s', [(st, rp)]) →
  match To4 (IPNet_IP a) with
  | Some ip4 => wrap f (request_nil (if del then TypeIP4AddrDel else TypeIP4AddrAdd)
                  (ip4_addr_payload id ip4 (Mask_Size (IPNet_Mask a)) flag))
  | None =>
      match To16 (IPNet_IP a) with
      | Some ip6 => wrap f (request_nil (if del then TypeIP6AddrDel else TypeIP6AddrAdd)
                      (ip6_addr_payload id ip6 (Mask_Size (IPNet_Mask a)) flag))
      | None => fail (EExt 0)
      end
  end (ready s n e) = (ready s' (next n) e, map_err f (status_result st (Ok tt))).
Proof.
  intros Hid Hnet%wf_net_ones Hreq Hst Hfit Hs. unfold addr_req in Hreq.
  destruct (To4 (IPNet_IP a)) as [ip4|] eqn:E4; simplify_eq.
  - apply To4_length in E4. served.
    destruct del; by apply (decode_ip4_addr _ id ip4 _ flag).
  - destruct (To16 (IPNet_IP a)) as [ip6|] eqn:E6; simplify_eq.
    apply To16_length in E6. served.
    destruct del; by apply (decode_ip6_addr _ id ip6 _ flag).
Qed.

Lemma flood_payload_ok vrf vni addr flag :
  is_Some (To4 addr) → ∃ p, flood_payload vrf vni addr flag = Ok p.
Proof.
  intros [ip4 E]. unfold flood_payload, encodeFloodEntry, putL3AddrIPv4. rewrite E. simpl. eauto.
Qed.

Lemma api_call_served a r s s' n e st rp :
  wf_api a → api_req a = Some r → is_u32 st → fits rp → gserve s r = (s', [(st, rp)]) →
  run_api a (ready s n e) = (ready s' (next n) e, map_err (api_failed a) (status_result st (Ok tt))).
Proof.
  intros Hwf Hreq Hst Hfit Hs. destruct a as [q|q|q|q|q|q|q]; cbn [wf_api api_req run_api] in *.
  - simplify_eq. unfold InterfaceDel. served. by apply decode_iface_del.
  - destruct Hwf as [Hid Hnet].
    rewrite <-(addr_req_served false _ _ _ _ _ _ _ _ _ _ _ Hid Hnet Hreq Hst Hfit Hs).
    unfold AddressAdd, addr_req in *. by repeat case_match.
  - destruct Hwf as [Hid Hnet].
    rewrite <-(addr_req_served true _ _ _ _ _ _ _ _ _ _ _ Hid Hnet Hreq Hst Hfit Hs).
    unfold AddressDel, addr_req in *. by repeat case_match.
  - destruct Hwf as [Hvrf%vrf_or_default_u16 Hnet%wf_net_ones]. unfold RouteAdd.
    destruct (To4 (IPNet_IP (ra_Destination q))) as [d4|] eqn:E4.
    + destruct (To4 (ra_NextHop q)) as [nh|] eqn:En; simplify_eq/=.
      apply To4_length in E4, En. served. by apply decode_ip4_route_add.
    + destruct (To16 (IPNet_IP (ra_Destination q))) as [d6|] eqn:E6; simplify_eq/=.
      destruct (To16 (ra_NextHop q)) as [nh|] eqn:En; simplify_eq/=.
      apply To16_length in E6, En. served. by apply decode_ip6_route_add.
  - destruct Hwf as [Hvrf%vrf_or_default_u16 Hnet%wf_net_ones]. unfold RouteDel.
    destruct (To4 (IPNet_IP (rd_Destination q))) as [d4|] eqn:E4; simplify_eq.
    + apply To4_length in E4. served. by apply decode_ip4_route_del.
    + destruct (To16 (IPNet_IP (rd_Destination q))) as [d6|] eqn:E6; simplify_eq/=.
      apply To16_length in E6. served. by apply decode_ip6_route_del.
  - destruct Hwf as [Hvrf Hvni]. destruct (To4 (fa_Addr q)) as [a4|] eqn:E; simplify_eq/=.
    unfold FloodAdd.
    destruct (flood_payload_ok (fa_VRFID q) (fa_VNI q) (fa_Addr q) (fa_ExistOK q)) as [p Hp]; [by rewrite E|].
    rewrite Hp. simpl. served.
    rewrite <-E in Hs |- *. by apply (decode_flood_payload false).
  - destruct Hwf as [Hvrf Hvni]. destruct (To4 (fd_Addr q)) as [a4|] eqn:E; simplify_eq/=.
    unfold FloodDel.
    destruct (flood_payload_ok (fd_VRFID q) (fd_VNI q) (fd_Addr q) (fd_MissingOK q)) as [p Hp]; [by rewrite E|].
    rewrite Hp. simpl. served.
    rewrite <-E in Hs |- *. by apply (decode_flood_payload true).
Qed.
End refines.

Lemma api_call_refused `{Peer P} a (c : Client P) :
  api_req a = None → ∃ err, run_api a c = (c, Err err).
Proof.
  intros Hreq. destruct a as [q|q|q|q|q|q|q]; cbn [api_req run_api] in *.
  - done.
  - unfold AddressAdd, addr_req in *. repeat case_match; simplify_eq. by eexists.
  - unfold AddressDel, addr_req in *. repeat case_match; simplify_eq. by eexists.
  - unfold RouteAdd. destruct (To4 (IPNet_IP _)) eqn:E; simplify_eq/=.
    + destruct (To4 (ra_NextHop q)); simplify_eq/=. by eexists.
    + destruct (To16 (IPNet_IP _)) eqn:E6; simplify_eq/=; [|by eexists].
      destruct (To16 (ra_NextHop q)); simplify_eq/=. by eexists.
  - unfold RouteDel in *. repeat case_match; simplify_eq. by eexists.
  - unfold FloodAdd, flood_payload, encodeFloodEntry, putL3AddrIPv4.
    destruct (To4 (fa_Addr q)); simplify_eq/=. by eexists.
  - unfold FloodDel, flood_payload, encodeFloodEntry, putL3AddrIPv4.
    destruct (To4 (fd_Addr q)); simplify_eq/=. by eexists.
Qed.

(** ** Properties of the client *)

Section api_theorems.
Context `{GroutServer T}.

(** C22: The client implements grout's API.  For deleting an interface and for
    adding and deleting addresses, routes and flood entries: against any server
    that answers the request the call stands for, the call sends exactly that
    request (IPv4 or IPv6 by the address, the prefix length of the mask, the
    default VRF for zero, the flag), succeeds exactly when the status is zero
    and otherwise reports the status, wrapped with the operation and its
    arguments, and leaves the connection ready for the
    next request. *)
Theorem client_call_refines a r s s' n e st rp :
  wf_api a → api_req a = Some r → is_u32 st → fits rp → gserve s r = (s', [(st, rp)]) →
  run_api a (ready s n e) =
    (ready s' (next n) e,
     if decide (st = 0) then Ok tt
     else Err (api_failed a (Errorf "grout error: status %d" [AInt st]))).
Proof.
  intros Hwf Hreq Hst Hfit Hs. rewrite (api_call_served a r s s' n e st rp Hwf Hreq Hst Hfit Hs). unfold status_result.
  destruct (decide (st = 0)); [by rewrite decide_False by auto|by rewrite decide_True].
Qed.

Lemma InterfaceAdd_served req s s' n e st rp :
  wf_iface_req req → iface_encodable req = true → is_u32 st → fits rp →
  gserve s (WIfaceAdd (wire_of req)) = (s', [(st, rp)]) →
  ∃ f, InterfaceAdd req (ready s n e) =
    (ready s' (next n) e,
     mkInterfaceAddResponse <$>
       map_err f (status_result st
         (if decide (0 < length rp)%nat
          then map_err (λ e, Errorf "decoding response: %w" [AErr e]) (decode_iface_id rp)
          else Ok 0))).
Proof.
  intros Hwf Henc Hst Hfit Hs. rewrite <-iface_payload_encodable in Henc.
  destruct (iface_payload req) as [p|] eqn:Hp; [|done].
  assert (decode_request TypeIfaceAdd p = Some (WIfaceAdd (wire_of req))) as Hd.
  { destruct (decode_request_types p) as [-> _].
    by rewrite (iface_payload_wire req p Hwf Hp). }
  eexists. unfold InterfaceAdd. rewrite Hp, est_bind_eq. simpl. rewrite est_bind_eq. unfold wrap.
  erewrite request_served by (done || by eapply decode_request_small).
  by destruct (status_result st _) as [id|].
Qed.

(** Adding an interface returns the id grout assigned: for a request that can
    be encoded, against any server that answers it with status zero and the two
    bytes of an id, [InterfaceAdd] sends the request's [gr_iface_add_req],
    returns that id, and leaves the connection ready. *)
Theorem InterfaceAdd_returns_id req s s' n e id :
  wf_iface_req req → iface_encodable req = true → is_u16 id →
  gserve s (WIfaceAdd (wire_of req)) = (s', [(0, put_u16 id)]) →
  InterfaceAdd req (ready s n e) = (ready s' (next n) e, Ok (mkInterfaceAddResponse id)).
Proof.
  intros Hwf Henc Hid Hs.
  destruct (InterfaceAdd_served req s s' n e 0 (put_u16 id) Hwf Henc) as [f ->]; [by vm_compute..|done|].
  unfold status_result, decode_iface_id.
  rewrite decide_False by auto. rewrite decide_True by (simpl; lia).
  rewrite decide_False by (simpl; lia).
  assert (get_u16 0 (put_u16 id) = id) as -> by (by apply le_get_put_u16).
  done.
Qed.

Lemma InterfaceList_served ty s s' n e items :
  0 ≤ ty < 256 → Forall stream_item items →
  gserve s (WIfaceList ty) = (s', stream_answers items) →
  InterfaceList (mkInterfaceListRequest ty) (ready s n e) =
    (ready s' (next n) e, Ok (omap decode_iface items)).
Proof.
  intros Hty Hitems Hs. unfold InterfaceList. cbn [il_Type].
  assert (decode_request TypeIfaceList [z2b ty] = Some (WIfaceList ty)) as Hd by (by apply decode_iface_list).
  rewrite (est_bind_ok _ _ _ (ready s' (next n) e) items); [done|].
  apply wrap_ok. apply requestStream_socket; [by vm_compute..|done|].
  cbn [answer grout_server]. by rewrite Hd.
Qed.

(** C25: An interface list is complete and in order: against a server that answers
    with one response per interface, laid out as grout's [gr_iface] (whatever
    follows its 292 bytes, and whatever an earlier name left behind the NUL of
    the name), and an empty one at the end, [InterfaceList] returns exactly those
    interfaces, in the order sent, with their ids, types, names and domains; an
    item too short for a [gr_iface] is skipped; and the whole stream is
    consumed. *)
Theorem InterfaceList_returns_items ty s s' n e items infos :
  0 ≤ ty < 256 → Forall stream_item items → Forall2 entry items infos →
  gserve s (WIfaceList ty) = (s', stream_answers items) →
  InterfaceList (mkInterfaceListRequest ty) (ready s n e) =
    (ready s' (next n) e, Ok (omap id infos)).
Proof. intros Hty Hitems <-%decode_iface_entries Hs. by apply InterfaceList_served. Qed.

Lemma AddressFlush_served id s s1 s2 n e rp1 rp2 :
  is_u16 id → fits rp1 → fits rp2 →
  gserve s (WAddrFlush false id) = (s1, [(0, rp1)]) →
  gserve s1 (WAddrFlush true id) = (s2, [(0, rp2)]) →
  AddressFlush id (ready s n e) = (ready s2 (next (next n)) e, Ok tt).
Proof.
  intros Hid H1 H2 Hs1 Hs2. unfold AddressFlush.
  rewrite (est_bind_ok _ _ _ (ready s1 (next n) e) tt).
  - rewrite (sent_served s1 s2 (next n) e TypeIP6AddrFlush _ (WAddrFlush true id) _ 0 rp2);
      [done|by apply (decode_addr_flush true)|unfold small; wlen|by vm_compute|done|done].
  - rewrite (sent_served s s1 n e TypeIP4AddrFlush _ (WAddrFlush false id) _ 0 rp1);
      [done|by apply (decode_addr_flush false)|unfold small; wlen|by vm_compute|done|done].
Qed.
End api_theorems.

Section dial_theorems.
Context `{GroutServer T}.

(** C26: The handshake decides the connection: [Dial] on a fresh connection sends
    one hello with the API version and the client's name; with status zero it
    returns a client that has used one request id and is ready, and with any
    other status it fails and closes the connection. *)
Theorem Dial_handshake s s' e st rp :
  is_u32 st → fits rp →
  gserve s (WHello apiVersion (str "grout-k-cni")) = (s', [(st, rp)]) →
  match Dial (Ok (mkConn (mkSocket [] s) [] e false)) with
  | Dialed c => st = 0 ∧ c = ready s' 1 e
  | DialFailed lft _ => st ≠ 0 ∧ ∃ cn, lft = Some cn ∧ c_closed cn = true ∧ sk_srv (c_peer cn) = s'
  end.
Proof.
  intros Hst Hfit Hs. unfold Dial, hello, request_nil. fold (ready s 0 e).
  rewrite (request_served s s' 0 e TypeHello hello_payload _ tt None st rp decode_hello);
    [|by apply (decode_request_small _ _ _ decode_hello)|done..].
  unfold status_result. case_decide; simpl; [eauto|]. split; [lia|done].
Qed.
End dial_theorems.

Lemma api_refused_add `{Peer P} req (c : Client P) :
  iface_encodable req = false → ∃ err, InterfaceAdd req c = (c, Err err).
Proof.
  intros Henc. rewrite <-iface_payload_encodable in Henc.
  unfold InterfaceAdd. destruct (iface_payload req) as [p|err] eqn:Hp; [done|].
  exists err. by rewrite est_bind_eq.
Qed.

(** C29: A request the client cannot express is refused locally: an address that
    is neither IPv4 nor IPv6, an IPv4 route with a next hop that is not IPv4, a
    flood entry that is not IPv4, and interface requests that cannot be encoded
    (a VXLAN without configuration or with a local address that is not IPv4,
    devargs of 128 bytes or more) return an error without using the
    connection or a request id. *)
Theorem client_refuses_locally `{Peer P} (c : Client P) :
  (∀ a, api_req a = None → ∃ err, run_api a c = (c, Err err)) ∧
  (∀ req, iface_encodable req = false → ∃ err, InterfaceAdd req c = (c, Err err)).
Proof.
  split; [intros a; apply api_call_refused|].
  intros req. apply api_refused_add.
Qed.

(** ** A concrete server, for the witnesses *)

(** It records the requests it understood and answers like the tests' mock. *)
Definition mock_entry (id ty : Z) (name : gostring) : list byte :=
  copy_at offIfaceName ifNameSize name
    (set_byte offIfaceType ty (write_at offIfaceID (put_u16 id) (make ifaceSize))).

#[global] Instance mock_grout : GroutServer (list wire_req) := {|
  gserve log r :=
    (log ++ [r],
     match r with
     | WIfaceAdd _ => [(0, put_u16 42)]
     | WIfaceList _ => stream_answers [mock_entry 1 2 (str "tap0"); mock_entry 2 2 (str "tap1")]
     | WAddr _ _ _ _ _ _ => [(17, [])]
     | _ => [(0, [])]
     end)
|}.

Definition mock_ready (log : list wire_req) (n : Z) : Client (Socket (list wire_req)) := ready log n Closed.

(** Deciding membership on concrete byte strings. *)
Lemma not_elem_of_bool (b : byte) (s : list byte) : bool_decide (b ∈ s) = false → b ∉ s.
Proof. intros H. by apply bool_decide_eq_false in H. Qed.

Definition tap_req : InterfaceAddRequest :=
  mkInterfaceAddRequest (str "tapx") InterfaceTypeTAP 7 1500 [] None.

Lemma tap_req_wf : wf_iface_req tap_req.
Proof.
  split; [done|done|done| | |done].
  - split; [simpl; unfold ifNameSize; lia|]. by apply not_elem_of_bool.
  - by apply not_elem_of_bool.
Qed.

Lemma iface_payload_decodes_witness :
  ∃ p, iface_payload tap_req = Ok p ∧ decode_iface_add p = Some (wire_of tap_req).
Proof.
  eexists. split; [reflexivity|]. apply iface_payload_decodes; [apply tap_req_wf|reflexivity].
Defined.

Lemma client_call_refines_witness :
  run_api (ApiAddressAdd (mkAddressAddRequest 10 (mkIPNet [x0a; x00; x00; x01] (CIDRMask 24 4)) true))
    (mock_ready [] 1) =
  (mock_ready [WAddr false false 10 [x0a; x00; x00; x01] 24 true] 2,
   Err (Errorf "address add %s on iface %d: %w"
     [ANet [x0a; x00; x00; x01] (CIDRMask 24 4); AInt 10; AErr (Errorf "grout error: status %d" [AInt 17])])).
Proof.
  apply (client_call_refines (T := list wire_req)
           (ApiAddressAdd (mkAddressAddRequest 10 (mkIPNet [x0a; x00; x00; x01] (CIDRMask 24 4)) true))
           (WAddr false false 10 [x0a; x00; x00; x01] 24 true) [] _ 1 Closed 17 []);
    [split; [done|simpl; unfold wf_net, IPv6len; simpl; lia]|reflexivity|done|done|reflexivity].
Defined.

Lemma InterfaceAdd_returns_id_witness :
  InterfaceAdd tap_req (mock_ready [] 1) =
    (mock_ready [WIfaceAdd (wire_of tap_req)] 2, Ok (mkInterfaceAddResponse 42)).
Proof.
  apply (InterfaceAdd_returns_id (T := list wire_req) tap_req [] [WIfaceAdd (wire_of tap_req)] 1 Closed 42);
    [apply tap_req_wf|reflexivity|by vm_compute|reflexivity].
Defined.

(** Deciding the bytes of an entry. *)
Lemma entry_of_bool data i stale :
  bool_decide ((292 ≤ length data)%nat ∧ read_at 0 2 data = put_u16 (if_ID i) ∧ read_at 2 1 data = [z2b (if_Type i)] ∧
    read_at 12 2 data = put_u16 (if_Domain i) ∧ read_at 20 16 data = if_Name i ++ x00 :: stale ∧
    0 ≤ if_ID i < 65536 ∧ 0 ≤ if_Domain i < 65536 ∧ 0 ≤ if_Type i < 256 ∧ x00 ∉ if_Name i) = true →
  entry data (Some i).
Proof. intros (? & ? & ? & ? & ? & ? & ? & ? & ?)%bool_decide_eq_true. split; eauto. Qed.

(** An entry, an item that is too short, and an entry with a stale tail. *)
Definition stale_entry : list byte :=
  write_at 20 (str "br-shared" ++ x00 :: str "irtio" ++ [x00]) (mock_entry 9 6 []).

#[local] Instance mock_lister : GroutServer unit := {|
  gserve _ _ := (tt, stream_answers [mock_entry 1 2 (str "tap0"); [x01; x02]; stale_entry]) |}.

Lemma InterfaceList_returns_items_witness :
  InterfaceList (mkInterfaceListRequest 0) (ready tt 1 Closed) =
    (ready tt 2 Closed,
     Ok [mkInterfaceInfo 1 2 (str "tap0") 0; mkInterfaceInfo 9 6 (str "br-shared") 0]).
Proof.
  apply (InterfaceList_returns_items (T := unit) 0 tt tt 1 Closed [mock_entry 1 2 (str "tap0"); [x01; x02]; stale_entry]
           [Some (mkInterfaceInfo 1 2 (str "tap0") 0); None; Some (mkInterfaceInfo 9 6 (str "br-shared") 0)]);
    [by vm_compute|repeat constructor; by vm_compute| |reflexivity].
  apply Forall2_cons. split; [apply (entry_of_bool _ _ (make 11)); by vm_compute|].
  apply Forall2_cons. split; [simpl; lia|].
  apply Forall2_cons. split; [apply (entry_of_bool _ _ (str "irtio" ++ [x00])); by vm_compute|]. apply Forall2_nil_2.
Defined.

Lemma Dial_handshake_witness :
  Dial (Ok (mkConn (mkSocket [] []) [] Closed false)) =
    Dialed (mock_ready [WHello apiVersion (str "grout-k-cni")] 1).
Proof.
  pose proof (Dial_handshake (T := list wire_req) [] [WHello apiVersion (str "grout-k-cni")] Closed 0 []
                ltac:(by vm_compute) ltac:(by vm_compute) eq_refl) as Hd.
  destruct (Dial _) as [c|]; [by destruct Hd as [_ ->]|by destruct Hd as [[] _]].
Defined.
