(* ===== verification/Cni.v ===== *)
(** * Cni: the data and the outside world of the CNI plugin (package cni)

    The CNI libraries (containernetworking/cni and plugins, vishvananda/netlink)
    are outside the repository.  Their opaque types are the class [CniTypes],
    the two conversion functions the plugin calls are the class [CniLib], and
    everything the plugin does to the world is an operation of [CniSig]: the
    methods of the [GroutClient] interface (src/pkg/cni/handler.go), the calls
    to the IPAM plugin, the file system, flock(2) and netlink. *)

From S2P Require Import Prelude Bytes NetIP Types.
Open Scope Z_scope.

(** ** Opaque types *)

Class CniTypes := {
  RawResult : Type;    (* types.Result, an answer of an IPAM plugin *)
  RawPrev : Type;      (* the prevResult object of a configuration *)
  Route : Type;        (* types.Route *)
  DNS : Type;          (* types.DNS *)
  Link : Type;         (* netlink.Link *)
  NetNS : Type;        (* ns.NetNS *)
  link_flags : Link → Z;             (* link.Attrs().Flags *)
  link_hwaddr : Link → list byte     (* link.Attrs().HardwareAddr *)
}.

(** ** CNI results (types/100) *)

Section results.
Context `{CniTypes}.

Record Interface := mkInterface {
  i_Name : gostring; i_Mac : gostring; i_Sandbox : gostring; i_SocketPath : gostring }.

(** [Interface *int], [Address net.IPNet], [Gateway net.IP] *)
Record IPConfig := mkIPConfig {
  ipc_Interface : option Z; ipc_Address : IPNet; ipc_Gateway : option IP }.

(** [IPs []*IPConfig]: an entry can be a nil pointer. *)
Record Result := mkResult {
  r_CNIVersion : gostring; r_Interfaces : list Interface; r_IPs : list (option IPConfig);
  r_Routes : list Route; r_DNS : DNS }.

(** ** Configuration and arguments *)

(** [types.IPAM] and [types.GCAttachment] *)
Record IPAM := mkIPAM { IPAM_Type : gostring }.
Record GCAttachment := mkGCAttachment { at_ContainerID : gostring; at_IfName : gostring }.

(** [PluginConf] with the fields of the embedded [types.NetConf] the plugin uses. *)
Record PluginConf := mkPluginConf {
  CNIVersion : gostring; Name : gostring; IPAM_conf : IPAM; RawPrevResult : option RawPrev;
  ValidAttachments : list GCAttachment; GroutSocketPath : gostring; Bridge : gostring; MTU : Z;
  InterfaceType : gostring; LogLevel : gostring }.

(** [skel.CmdArgs] *)
Record CmdArgs := mkCmdArgs {
  ContainerID : gostring; Netns : gostring; IfName : gostring; StdinData : list byte }.

(** ** Operations *)

(** [os.Remove] distinguishes a file that does not exist. *)
Inductive remove_res := Removed | NotExist | RemoveErr (e : error).

(** The [select] of [FileLock.Lock]: flock(2) returned, or the timer fired. *)
Inductive flock_res := Locked | LockErr (e : error) | LockTimeout.

Inductive cni_op :=
(* the GroutClient interface *)
| GInterfaceList (r : InterfaceListRequest)
| GInterfaceAdd (r : InterfaceAddRequest)
| GInterfaceDel (r : InterfaceDelRequest)
| GAddressAdd (r : AddressAddRequest)
| GAddressFlush (ifaceID : Z)
(* invoke.DelegateAdd, DelegateDel and DelegateGC *)
| DelegateAdd (plugin : gostring) (stdin : list byte)
| DelegateDel (plugin : gostring) (stdin : list byte)
| DelegateGC (plugin : gostring) (stdin : list byte)
(* the file system *)
| MkdirAll (path : gostring)
| Remove (path : gostring)
| Stat (path : gostring)
(* the lock file *)
| OpenLock (path : gostring)
| FlockEx (fd : Z)
| FlockUn (fd : Z)
| CloseFd (fd : Z)
(* netlink and network namespaces *)
| LinkByName (name : gostring)
| LinkSetNsFd (l : Link) (n : NetNS)
| LinkSetDown (l : Link)
| LinkSetName (l : Link) (name : gostring)
| LinkSetMTU (l : Link) (mtu : Z)
| LinkSetHardwareAddr (l : Link) (mac : list byte)
| AddrList (l : Link)
| ConfigureIface (name : gostring) (r : Result)
| GetNS (path : gostring)
| NsClose (n : NetNS)
| NsEnter (n : NetNS)
| NsLeave (n : NetNS).

Definition cni_res (o : cni_op) : Type :=
  match o with
  | GInterfaceList _ => result (list InterfaceInfo)
  | GInterfaceAdd _ => result InterfaceAddResponse
  | GInterfaceDel _ | GAddressAdd _ | GAddressFlush _ => result unit
  | DelegateAdd _ _ => result RawResult
  | DelegateDel _ _ | DelegateGC _ _ => result unit
  | MkdirAll _ => result unit
  | Remove _ => remove_res
  | Stat _ => bool
  | OpenLock _ => result Z
  | FlockEx _ => flock_res
  | FlockUn _ | CloseFd _ => result unit
  | LinkByName _ => result Link
  | LinkSetNsFd _ _ | LinkSetDown _ | LinkSetName _ _ | LinkSetMTU _ _
  | LinkSetHardwareAddr _ _ => result unit
  | AddrList _ => result (list (option IPNet))
  | ConfigureIface _ _ => result unit
  | GetNS _ => result NetNS
  | NsClose _ => result unit
  | NsEnter _ => result unit
  | NsLeave _ => unit
  end.

Definition CniSig : sig := Sig cni_op cni_res.

(** Classes of operations, by the part of the world they touch. *)
Definition is_grout (o : cni_op) : bool :=
  match o with
  | GInterfaceList _ | GInterfaceAdd _ | GInterfaceDel _ | GAddressAdd _ | GAddressFlush _ => true
  | _ => false
  end.
Definition is_ipam (o : cni_op) : bool :=
  match o with DelegateAdd _ _ | DelegateDel _ _ | DelegateGC _ _ => true | _ => false end.
Definition is_lock (o : cni_op) : bool :=
  match o with OpenLock _ | FlockEx _ | FlockUn _ | CloseFd _ => true | _ => false end.
Definition is_fs (o : cni_op) : bool :=
  match o with MkdirAll _ | Remove _ | Stat _ => true | _ => false end.
Definition is_link (o : cni_op) : bool :=
  negb (is_grout o || is_ipam o || is_lock o || is_fs o).
End results.

(** The conversion functions of the CNI library. *)
Class CniLib `{CniTypes} := {
  NewResultFromResult : RawResult → result Result;
  (* version.ParsePrevResult: the PrevResult field afterwards, None being nil *)
  ParsePrevResult : gostring → RawPrev → result (option RawResult);
  IPAM_IsEmpty : IPAM → bool
}.

(** A program of the plugin, and how a Go function ends. *)
Abbreviation cni := (prog CniSig).

Definition op_call `{CniTypes} (o : cni_op) : cni (cni_res o) := call (S := CniSig) o.

Inductive outcome (A : Type) :=
| Returns (a : A)
| Panics.
Arguments Returns {A} a.
Arguments Panics {A}.
