(* ===== verification/PortName.v ===== *)
(** * PortName: the deterministic port name of an attachment (src/pkg/cni/portname.go) *)

From S2P Require Import Prelude Bytes Types GoLib Client.
From Stdlib Require Import Lia ZArith.
Open Scope Z_scope.

Definition portPrefix : gostring := str "grk-".

Definition groutPortName (containerID ifName : gostring) : gostring :=
  let sum := Sum256 (containerID ++ [x00] ++ ifName) in
  portPrefix ++ take 11 (ToLower_ascii (base32_EncodeToString sum)).

Fixpoint findPortByName (ifaces : list InterfaceInfo) (name : gostring) : option InterfaceInfo :=
  match ifaces with
  | [] => None
  | iface :: ifaces => if decide (if_Name iface = name) then Some iface else findPortByName ifaces name
  end.

(** ** The shape of a port name *)

(** The 55 bits of the digest that the name keeps, as text. *)
Definition digest_text (m : list byte) : gostring :=
  take 11 (ToLower_ascii (base32_EncodeToString (Sum256 m))).

Lemma groutPortName_eq c i : groutPortName c i = portPrefix ++ digest_text (c ++ [x00] ++ i).
Proof. done. Qed.

Lemma length_digest m : length (digest_text m) = 11%nat.
Proof. unfold digest_text. rewrite length_take. pose proof (length_digest_text m). lia. Qed.

Lemma digest_chars m : Forall (.∈ base32_lower) (digest_text m).
Proof. apply Forall_take, base32_lower_text. Qed.

Lemma groutPortName_length c i : length (groutPortName c i) = 15%nat.
Proof. rewrite groutPortName_eq, length_app, length_digest. done. Qed.

Lemma groutPortName_nonempty c i : groutPortName c i ≠ [].
Proof. intros E. pose proof (groutPortName_length c i) as H. by rewrite E in H. Qed.

Lemma groutPortName_prefix c i : HasPrefix (groutPortName c i) portPrefix = true.
Proof. unfold HasPrefix. by rewrite groutPortName_eq, take_app_length, bool_decide_true. Qed.

(** Every character is its own lower case and, but for the dash, alphanumeric. *)
Lemma base32_lower_facts b :
  b ∈ base32_lower →
  b ≠ x00 ∧ is_alnum b = true ∧ ∀ s, lower_view (b :: s) = Some b :: lower_view s.
Proof.
  intros Hb. unfold base32_lower in Hb. simpl in Hb.
  repeat (apply elem_of_cons in Hb as [->|Hb]; [by split_and!|]). by apply elem_of_nil in Hb.
Qed.

Lemma lower_view_digest m : lower_view (digest_text m) = Some <$> digest_text m.
Proof.
  generalize (digest_chars m). generalize (digest_text m) as s.
  induction 1 as [|b s Hb _ IH]; [done|].
  destruct (base32_lower_facts b Hb) as (_ & _ & ->). by rewrite IH.
Qed.

Lemma omap_id_Some {A} (s : list A) : omap id (Some <$> s) = s.
Proof. induction s as [|b s IH]; [done|]. cbn. by rewrite IH. Qed.

Lemma filter_alnum_digest m : filter (λ b, is_alnum b = true) (digest_text m) = digest_text m.
Proof.
  generalize (digest_chars m). generalize (digest_text m) as s.
  induction 1 as [|b s Hb _ IH]; [done|].
  destruct (base32_lower_facts b Hb) as (_ & Ha & _). by rewrite filter_cons_True, IH.
Qed.

Lemma vdevID_portname c i : vdevID (groutPortName c i) = str "grk" ++ digest_text (c ++ [x00] ++ i).
Proof.
  rewrite groutPortName_eq. unfold vdevID.
  pose proof (lower_view_digest (c ++ [x00] ++ i)) as Hl.
  pose proof (filter_alnum_digest (c ++ [x00] ++ i)) as Hf.
  revert Hl Hf. generalize (digest_text (c ++ [x00] ++ i)) as d. intros d Hl Hf.
  assert (lower_view (portPrefix ++ d) = Some <$> (portPrefix ++ d)) as ->.
  { rewrite fmap_app, <-Hl. reflexivity. }
  rewrite omap_id_Some, filter_app, Hf. reflexivity.
Qed.

Lemma groutPortName_no_nul c i : x00 ∉ groutPortName c i.
Proof.
  rewrite groutPortName_eq. intros [Hp|Hd]%elem_of_app.
  - unfold portPrefix in Hp. set_solver.
  - pose proof (digest_chars (c ++ [x00] ++ i)) as Hall. rewrite Forall_forall in Hall.
    by destruct (base32_lower_facts _ (Hall _ Hd)).
Qed.

Lemma app_sep_inj (x : byte) (a a' b b' : list byte) :
  x ∉ a → x ∉ a' → a ++ x :: b = a' ++ x :: b' → a = a' ∧ b = b'.
Proof.
  revert a'. induction a as [|y a IH]; intros [|y' a'] Ha Ha' E; simplify_eq/=; [done|set_solver..|].
  destruct (IH a') as [-> ->]; set_solver.
Qed.

(** The 55 bits of a message's digest that reach the name. *)
Definition digest_bits (m : list byte) : list bool := take 55 (Sum256 m ≫= byte_bits).

Lemma groutPortName_bits c i c' i' :
  groutPortName c i = groutPortName c' i' ↔ digest_bits (c ++ x00 :: i) = digest_bits (c' ++ x00 :: i').
Proof.
  rewrite !groutPortName_eq. change ([x00] ++ ?l) with (x00 :: l).
  trans (digest_text (c ++ x00 :: i) = digest_text (c' ++ x00 :: i')).
  { split; [by intros [_ E]%app_inj_1|by intros ->]. }
  unfold digest_text, digest_bits, ToLower_ascii, base32_EncodeToString. rewrite <-!list_fmap_compose.
  apply (base32_take_bits 11); rewrite length_bits, length_Sum256; lia.
Qed.

(** ** Finding a port *)

Lemma findPortByName_some ifaces name port :
  findPortByName ifaces name = Some port → port ∈ ifaces ∧ if_Name port = name.
Proof.
  induction ifaces as [|i l IH]; simpl; [done|]. case_decide; intros ?; simplify_eq; set_solver.
Qed.

Lemma findPortByName_none ifaces name :
  findPortByName ifaces name = None ↔ name ∉ if_Name <$> ifaces.
Proof.
  induction ifaces as [|i l IH]; simpl; [set_solver|].
  case_decide; rewrite elem_of_cons; [naive_solver|]. rewrite IH. naive_solver.
Qed.

(** ** Properties *)

(** A port name is 15 bytes, so grout's 16-byte name field holds it with its
    terminator; it is the prefix "grk-" and 11 characters of the lower-case
    base32 alphabet, so it carries the prefix GC looks for and contains no
    NUL byte; this holds for every container id and interface name. *)
Theorem groutPortName_shape c i :
  length (groutPortName c i) = 15%nat ∧ HasPrefix (groutPortName c i) portPrefix = true ∧
  x00 ∉ groutPortName c i ∧ Forall (.∈ base32_lower) (drop 4 (groutPortName c i)).
Proof.
  split_and!; [apply groutPortName_length|apply groutPortName_prefix|apply groutPortName_no_nul|].
  rewrite groutPortName_eq. apply digest_chars.
Qed.

(** C35: The name identifies the attachment up to 55 bits of SHA-256.  For
    container ids without NUL bytes, two attachments have the same port name
    exactly when they are the same attachment or their (then different) messages
    have digests that agree in the first 55 bits: the NUL separator rules out
    every confusion of a container id with an interface name, and the text form
    of the digest (base32, lower case, cut at 11 characters) loses nothing of
    these bits. *)
Theorem groutPortName_identifies c i c' i' :
  x00 ∉ c → x00 ∉ c' →
  groutPortName c i = groutPortName c' i' ↔
  (c = c' ∧ i = i') ∨
  (c ++ x00 :: i ≠ c' ++ x00 :: i' ∧ digest_bits (c ++ x00 :: i) = digest_bits (c' ++ x00 :: i')).
Proof.
  intros Hc Hc'. rewrite groutPortName_bits. split.
  - intros E. destruct (decide (c ++ x00 :: i = c' ++ x00 :: i')) as [Em|Hne]; [|by right].
    left. by apply app_sep_inj in Em.
  - by intros [[-> ->]|[_ E]].
Qed.

Lemma groutPortName_identifies_witness :
  groutPortName (str "abc") (str "eth0") = groutPortName (str "abc") (str "eth0") ↔
  (str "abc" = str "abc" ∧ str "eth0" = str "eth0") ∨
  (str "abc" ++ x00 :: str "eth0" ≠ str "abc" ++ x00 :: str "eth0" ∧
   digest_bits (str "abc" ++ x00 :: str "eth0") = digest_bits (str "abc" ++ x00 :: str "eth0")).
Proof.
  apply (groutPortName_identifies (str "abc") (str "eth0") (str "abc") (str "eth0"));
    by apply (bool_decide_eq_false_1 _).
Defined.

(** The DPDK device id of a port determines the port: although [vdevID]
    drops characters and case, on port names it is injective, so the devices of
    two different ports never share an id. *)
Theorem vdevID_portname_inj c i c' i' :
  vdevID (groutPortName c i) = vdevID (groutPortName c' i') →
  groutPortName c i = groutPortName c' i'.
Proof. rewrite !vdevID_portname, !groutPortName_eq. by intros ->%(inj _). Qed.

Lemma vdevID_portname_inj_witness :
  groutPortName (str "c1") (str "eth0") = groutPortName (str "c1") (str "eth0").
Proof. apply (vdevID_portname_inj (str "c1") (str "eth0") (str "c1") (str "eth0")). reflexivity. Defined.

(** In general [vdevID] is not injective: names that differ only in case or
    in punctuation have the same device id. *)
Theorem vdevID_collides :
  vdevID (str "tap-1") = vdevID (str "TAP1") ∧ str "tap-1" ≠ str "TAP1".
Proof. by split. Qed.
