(* ===== verification/Json.v ===== *)
(** * Json: encoding/json, the decoding of text

    The text that [json.Unmarshal] accepts, as encoding/json documents it: the
    grammar of RFC 8259 on bytes, with at most 10000 nested arrays and
    objects, strings of any bytes from 0x20 on, and their unquoting, which
    replaces what is not UTF-8 by U+FFFD.  [parse] is the decoder, and [document] is
    the grammar it is measured against. *)

From S2P Require Import Prelude Bytes.
From Stdlib Require Import Lia ZArith.
Open Scope Z_scope.

(** ** Values

    A number keeps its text, a string is unquoted, an object keeps its members
    in order, with duplicates. *)

#[local] Unset Elimination Schemes.
Inductive json :=
| JNull
| JBool (b : bool)
| JNum (lit : gostring)
| JStr (s : gostring)
| JArr (elems : list json)
| JObj (members : list (gostring * json)).
#[local] Set Elimination Schemes.

Fixpoint json_ind (P : json → Prop) (Hnull : P JNull) (Hbool : ∀ b, P (JBool b)) (Hnum : ∀ l, P (JNum l))
    (Hstr : ∀ s, P (JStr s)) (Harr : ∀ l, Forall P l → P (JArr l))
    (Hobj : ∀ l, Forall (λ m, P m.2) l → P (JObj l)) (j : json) : P j :=
  let IH := json_ind P Hnull Hbool Hnum Hstr Harr Hobj in
  match j with
  | JNull => Hnull
  | JBool b => Hbool b
  | JNum l => Hnum l
  | JStr s => Hstr s
  | JArr l => Harr l ((fix go l : Forall P l := match l with
      | [] => Forall_nil_2 _ | j :: l => Forall_cons_2 _ _ _ (IH j) (go l) end) l)
  | JObj l => Hobj l ((fix go l : Forall (λ m, P m.2) l := match l with
      | [] => Forall_nil_2 _ | m :: l => Forall_cons_2 _ _ _ (IH m.2) (go l) end) l)
  end.

(** ** Characters *)

Definition is_space (c : byte) : bool := bool_decide (c ∈ [x20; x09; x0d; x0a]).
Definition is_digit (c : byte) : bool := bool_decide (48 ≤ b2z c ≤ 57).
Definition hex_val (c : byte) : option Z :=
  if decide (48 ≤ b2z c ≤ 57) then Some (b2z c - 48)
  else if decide (97 ≤ b2z c ≤ 102) then Some (b2z c - 87)
  else if decide (65 ≤ b2z c ≤ 70) then Some (b2z c - 55)
  else None.

Definition hex4_val (a b c d : byte) : option Z :=
  x ← hex_val a; y ← hex_val b; z ← hex_val c; w ← hex_val d;
  Some (4096 * x + 256 * y + 16 * z + w).

Fixpoint skip_space (s : list byte) : list byte :=
  match s with
  | c :: s' => if is_space c then skip_space s' else s
  | [] => []
  end.

Fixpoint span (P : byte → bool) (s : list byte) : list byte * list byte :=
  match s with
  | c :: s' => if P c then let '(a, b) := span P s' in (c :: a, b) else ([], s)
  | [] => ([], [])
  end.

(** ** UTF-8 *)

(** [utf8.AppendRune] for a rune that is not a surrogate. *)
Definition encode_rune (r : Z) : list byte :=
  if decide (r < 128) then [z2b r]
  else if decide (r < 2048) then [z2b (192 + r / 64); z2b (128 + r mod 64)]
  else if decide (r < 65536) then [z2b (224 + r / 4096); z2b (128 + r / 64 mod 64); z2b (128 + r mod 64)]
  else [z2b (240 + r / 262144); z2b (128 + r / 4096 mod 64); z2b (128 + r / 64 mod 64); z2b (128 + r mod 64)].

Definition replacement : list byte := [xef; xbf; xbd].

Definition between (lo hi : Z) (c : byte) : bool := bool_decide (lo ≤ b2z c ≤ hi).
Definition cont (c : byte) : bool := between 128 191 c.

(** The well-formed sequences of two, three and four bytes. *)
Definition utf8_2 (a b : byte) : bool := between 194 223 a && cont b.
Definition utf8_3 (a b c : byte) : bool :=
  (between 224 224 a && between 160 191 b || between 225 236 a && cont b
   || between 237 237 a && between 128 159 b || between 238 239 a && cont b) && cont c.
Definition utf8_4 (a b c d : byte) : bool :=
  (between 240 240 a && between 144 191 b || between 241 243 a && cont b
   || between 244 244 a && between 128 143 b) && cont c && cont d.

(** ** Strings *)

(** The byte a one-letter escape stands for. *)
Definition escaped (e : byte) : option byte :=
  if decide (e = x22) then Some x22
  else if decide (e = x5c) then Some x5c
  else if decide (e = x2f) then Some x2f
  else if decide (e = x62) then Some x08
  else if decide (e = x66) then Some x0c
  else if decide (e = x6e) then Some x0a
  else if decide (e = x72) then Some x0d
  else if decide (e = x74) then Some x09
  else None.

Definition is_surrogate (r : Z) : bool := bool_decide (55296 ≤ r < 57344).
Definition surrogate_pair (r1 r2 : Z) : option Z :=
  if decide (55296 ≤ r1 < 56320 ∧ 56320 ≤ r2 < 57344) then Some ((r1 - 55296) * 1024 + (r2 - 56320) + 65536) else None.

(** The text of a string up to its closing quote, and what follows it. *)
Fixpoint scan_string (s : list byte) : option (list byte * list byte) :=
  match s with
  | [] => None
  | c :: s =>
      if decide (c = x22) then Some ([], s)
      else if decide (c = x5c) then
        match s with
        | [] => None
        | e :: s =>
            if decide (e = x75) then
              match s with
              | h1 :: h2 :: h3 :: h4 :: s =>
                  _ ← hex4_val h1 h2 h3 h4; '(raw, s) ← scan_string s; Some (c :: e :: h1 :: h2 :: h3 :: h4 :: raw, s)
              | _ => None
              end
            else _ ← escaped e; '(raw, s) ← scan_string s; Some (c :: e :: raw, s)
        end
      else if decide (b2z c < 32) then None
      else '(raw, s) ← scan_string s; Some (c :: raw, s)
  end.

(** [unquote] on a text [scan_string] accepts. *)
Fixpoint unquote (s : list byte) : gostring :=
  match s with
  | [] => []
  | a :: s1 =>
      if decide (a = x5c) then
        match s1 with
        | [] => []
        | e :: s2 =>
            if decide (e = x75) then
              match s2 with
              | h1 :: h2 :: h3 :: h4 :: s3 =>
                  let r := default 0 (hex4_val h1 h2 h3 h4) in
                  if is_surrogate r then
                    match s3 with
                    | b :: u :: k1 :: k2 :: k3 :: k4 :: s4 =>
                        match (if decide (b = x5c ∧ u = x75)
                               then r2 ← hex4_val k1 k2 k3 k4; surrogate_pair r r2 else None) with
                        | Some r => encode_rune r ++ unquote s4
                        | None => replacement ++ unquote s3
                        end
                    | _ => replacement ++ unquote s3
                    end
                  else encode_rune r ++ unquote s3
              | _ => []
              end
            else default e (escaped e) :: unquote s2
        end
      else if decide (b2z a < 128) then a :: unquote s1
      else
        match s1 with
        | b :: s2 =>
            if utf8_2 a b then a :: b :: unquote s2
            else
              match s2 with
              | c :: s3 =>
                  if utf8_3 a b c then a :: b :: c :: unquote s3
                  else
                    match s3 with
                    | d :: s4 => if utf8_4 a b c d then a :: b :: c :: d :: unquote s4 else replacement ++ unquote s1
                    | [] => replacement ++ unquote s1
                    end
              | [] => replacement ++ unquote s1
              end
        | [] => replacement
        end
  end.

(** ** Numbers *)

Definition some_digits (s : list byte) : option (list byte * list byte) :=
  let '(ds, s) := span is_digit s in if decide (ds = []) then None else Some (ds, s).

Definition scan_sign (signs : list byte) (s : list byte) : list byte * list byte :=
  match s with c :: s' => if decide (c ∈ signs) then ([c], s') else ([], s) | [] => ([], []) end.

Definition scan_int (s : list byte) : option (list byte * list byte) :=
  match s with
  | c :: s' => if decide (c = x30) then Some ([c], s') else some_digits s
  | [] => None
  end.

Definition scan_frac (s : list byte) : option (list byte * list byte) :=
  match s with
  | c :: s' => if decide (c = x2e) then '(ds, s') ← some_digits s'; Some (c :: ds, s') else Some ([], s)
  | [] => Some ([], [])
  end.

Definition scan_exp (s : list byte) : option (list byte * list byte) :=
  match s with
  | c :: s' =>
      if decide (c ∈ [x65; x45]) then
        let '(sg, s') := scan_sign [x2b; x2d] s' in '(ds, s') ← some_digits s'; Some (c :: sg ++ ds, s')
      else Some ([], s)
  | [] => Some ([], [])
  end.

Definition scan_number (s : list byte) : option (list byte * list byte) :=
  let '(sg, s) := scan_sign [x2d] s in
  '(i, s) ← scan_int s; '(f, s) ← scan_frac s; '(e, s) ← scan_exp s;
  Some (sg ++ i ++ f ++ e, s).

(** ** Values *)

Definition scan_literal (s : list byte) : option (json * list byte) :=
  if decide (take 4 s = str "null") then Some (JNull, drop 4 s)
  else if decide (take 4 s = str "true") then Some (JBool true, drop 4 s)
  else if decide (take 5 s = str "false") then Some (JBool false, drop 5 s)
  else '(lit, s) ← scan_number s; Some (JNum lit, s).

(** The next token is the character [c]. *)
Definition eat (c : byte) (s : list byte) : option (list byte) :=
  match skip_space s with b :: s => if decide (b = c) then Some s else None | [] => None end.

(** [n] is fuel, [d] is how many arrays and objects may still be opened. *)
Fixpoint value (n d : nat) (s : list byte) : option (json * list byte) :=
  match n with
  | O => None
  | S n =>
      match skip_space s with
      | [] => None
      | c :: s =>
          if decide (c = x7b) then
            match d with
            | O => None
            | S d =>
                match eat x7d s with
                | Some s => Some (JObj [], s)
                | None => '(ms, s) ← members n d s; Some (JObj ms, s)
                end
            end
          else if decide (c = x5b) then
            match d with
            | O => None
            | S d =>
                match eat x5d s with
                | Some s => Some (JArr [], s)
                | None => '(l, s) ← elements n d s; Some (JArr l, s)
                end
            end
          else if decide (c = x22) then '(raw, s) ← scan_string s; Some (JStr (unquote raw), s)
          else scan_literal (c :: s)
      end
  end
with elements (n d : nat) (s : list byte) : option (list json * list byte) :=
  match n with
  | O => None
  | S n =>
      '(j, s) ← value n d s;
      match eat x2c s with
      | Some s => '(l, s) ← elements n d s; Some (j :: l, s)
      | None => s ← eat x5d s; Some ([j], s)
      end
  end
with members (n d : nat) (s : list byte) : option (list (gostring * json) * list byte) :=
  match n with
  | O => None
  | S n =>
      s ← eat x22 s; '(raw, s) ← scan_string s; s ← eat x3a s; '(j, s) ← value n d s;
      match eat x2c s with
      | Some s => '(l, s) ← members n d s; Some ((unquote raw, j) :: l, s)
      | None => s ← eat x7d s; Some ([(unquote raw, j)], s)
      end
  end.

(** [maxNestingDepth] *)
Definition max_depth : nat := Z.to_nat 10000.

(** A recursive call either consumes a byte or goes from a list to its first
    element, so twice the length is enough. *)
Definition parse (s : list byte) : option json :=
  '(j, s') ← value (2 * length s + 2) max_depth s;
  if decide (skip_space s' = []) then Some j else None.

Example parse_example :
  parse (str "{ ") = None ∧
  parse (x7b :: x22 :: str "mtu" ++ [x22; x3a] ++ str " -1.5e3 , " ++ x22 :: str "a\u0041\ud83d\ude00" ++ [x22; x3a] ++ str "[null,true]}")
    = Some (JObj [(str "mtu", JNum (str "-1.5e3"));
                  (str "aA" ++ [xf0; x9f; x98; x80], JArr [JNull; JBool true])]).
Proof. by vm_compute. Qed.

(** ** The grammar *)

Definition spaces (w : list byte) : Prop := Forall (λ c, is_space c = true) w.

Lemma spaces_nil : spaces [].
Proof. constructor. Qed.
#[export] Hint Resolve spaces_nil : core.

Inductive string_body : list byte → Prop :=
| body_nil : string_body []
| body_plain c s : c ≠ x22 → c ≠ x5c → 32 ≤ b2z c → string_body s → string_body (c :: s)
| body_escape e s : is_Some (escaped e) → string_body s → string_body (x5c :: e :: s)
| body_unicode h1 h2 h3 h4 s :
    is_Some (hex4_val h1 h2 h3 h4) → string_body s → string_body (x5c :: x75 :: h1 :: h2 :: h3 :: h4 :: s).

Definition digits (s : list byte) : Prop := s ≠ [] ∧ Forall (λ c, is_digit c = true) s.

(** A sign, an integer without leading zeros, a fraction, an exponent. *)
Definition number (lit : list byte) : Prop :=
  ∃ sg i f e, lit = sg ++ i ++ f ++ e ∧ (sg = [] ∨ sg = [x2d]) ∧
    (i = [x30] ∨ digits i ∧ head i ≠ Some x30) ∧
    (f = [] ∨ ∃ ds, f = x2e :: ds ∧ digits ds) ∧
    (e = [] ∨ ∃ c esg ds, e = c :: esg ++ ds ∧ c ∈ [x65; x45] ∧ (esg = [] ∨ esg = [x2b] ∨ esg = [x2d]) ∧ digits ds).

(** The texts of values that nest at most [d] deep, of the elements of an array
    up to its bracket, and of the members of an object. *)
Inductive text : nat → list byte → json → Prop :=
| text_null d : text d (str "null") JNull
| text_true d : text d (str "true") (JBool true)
| text_false d : text d (str "false") (JBool false)
| text_number d lit : number lit → text d lit (JNum lit)
| text_string d raw : string_body raw → text d (x22 :: raw ++ [x22]) (JStr (unquote raw))
| text_array d s l : elements_text d s l → text (S d) (x5b :: s) (JArr l)
| text_array_empty d w : spaces w → text (S d) (x5b :: w ++ [x5d]) (JArr [])
| text_object d s l : members_text d s l → text (S d) (x7b :: s) (JObj l)
| text_object_empty d w : spaces w → text (S d) (x7b :: w ++ [x7d]) (JObj [])
with elements_text : nat → list byte → list json → Prop :=
| elements_last d w s w' j :
    spaces w → text d s j → spaces w' → elements_text d (w ++ s ++ w' ++ [x5d]) [j]
| elements_more d w s w' j s' l :
    spaces w → text d s j → spaces w' → elements_text d s' l → elements_text d (w ++ s ++ w' ++ x2c :: s') (j :: l)
with members_text : nat → list byte → list (gostring * json) → Prop :=
| members_last d w raw w1 w2 s w' j :
    spaces w → string_body raw → spaces w1 → spaces w2 → text d s j → spaces w' →
    members_text d (w ++ x22 :: raw ++ x22 :: w1 ++ x3a :: w2 ++ s ++ w' ++ [x7d]) [(unquote raw, j)]
| members_more d w raw w1 w2 s w' j s' l :
    spaces w → string_body raw → spaces w1 → spaces w2 → text d s j → spaces w' → members_text d s' l →
    members_text d (w ++ x22 :: raw ++ x22 :: w1 ++ x3a :: w2 ++ s ++ w' ++ x2c :: s') ((unquote raw, j) :: l).

Scheme text_mind := Minimality for text Sort Prop
  with elements_mind := Minimality for elements_text Sort Prop
  with members_mind := Minimality for members_text Sort Prop.
Combined Scheme grammar_ind from text_mind, elements_mind, members_mind.

(** A document: a value between spaces. *)
Definition document (s : list byte) (j : json) : Prop :=
  ∃ w s' w', s = w ++ s' ++ w' ∧ spaces w ∧ text max_depth s' j ∧ spaces w'.

(** ** The parser follows the grammar: tokens *)

Lemma skip_space_spec s : ∃ w, s = w ++ skip_space s ∧ spaces w.
Proof.
  induction s as [|c s (w & E & Hw)]; [by exists []|]. simpl. destruct (is_space c) eqn:Ec; [|by exists []].
  exists (c :: w). split; [simpl; by f_equal|by constructor].
Qed.

Lemma skip_space_app w s : spaces w → skip_space (w ++ s) = skip_space s.
Proof. induction 1 as [|c w Hc _ IH]; [done|]. simpl. by rewrite Hc. Qed.

Lemma skip_space_nil w : spaces w → skip_space w = [].
Proof. intros Hw. rewrite <-(app_nil_r w). by apply skip_space_app. Qed.

Lemma eat_sound c s s' : eat c s = Some s' → ∃ w, s = w ++ c :: s' ∧ spaces w.
Proof.
  unfold eat. destruct (skip_space_spec s) as (w & E & Hw). destruct (skip_space s) as [|b s0]; [done|].
  case_decide; [|done]. intros [= ->]. subst b. by exists w.
Qed.

Lemma eat_token c b w s :
  spaces w → is_space b = false → eat c (w ++ b :: s) = if decide (b = c) then Some s else None.
Proof. intros Hw Hb. unfold eat. rewrite skip_space_app by done. simpl. by rewrite Hb. Qed.

Lemma scan_string_sound s raw r : scan_string s = Some (raw, r) → s = raw ++ x22 :: r ∧ string_body raw.
Proof.
  revert raw r. induction s as [s IH] using (induction_ltof1 _ (@length byte)). unfold ltof in IH.
  intros raw r. destruct s as [|c s]; simpl; [done|].
  case_decide as H1; [intros [= <- <-]; subst; split; [done|constructor]|].
  case_decide as H2.
  - destruct s as [|e s]; [done|]. case_decide as H3.
    + destruct s as [|h1 [|h2 [|h3 [|h4 s]]]]; try done.
      destruct (hex4_val h1 h2 h3 h4) as [z|] eqn:Eh; [|done]. simpl.
      destruct (scan_string s) as [[raw' s']|] eqn:E; [|done]. intros [= <- <-]. subst.
      apply IH in E as [-> Hb]; [|simpl; lia]. split; [done|]. by apply body_unicode; [rewrite Eh|].
    + destruct (escaped e) as [b|] eqn:Ee; [|done]. simpl.
      destruct (scan_string s) as [[raw' s']|] eqn:E; [|done]. intros [= <- <-]. subst.
      apply IH in E as [-> Hb]; [|simpl; lia]. split; [done|]. by apply body_escape; [rewrite Ee|].
  - case_decide as H3; [done|].
    destruct (scan_string s) as [[raw' s']|] eqn:E; [|done]. intros [= <- <-].
    apply IH in E as [-> Hb]; [|simpl; lia]. split; [done|]. apply body_plain; [done|done|lia|done].
Qed.

Lemma scan_string_complete raw r : string_body raw → scan_string (raw ++ x22 :: r) = Some (raw, r).
Proof.
  induction 1 as [|c s H1 H2 H3 _ IH|e s [b Hb] _ IH|h1 h2 h3 h4 s [z Hz] _ IH]; simpl; [done|..].
  - rewrite decide_False, decide_False, decide_False by (done || lia). by rewrite IH.
  - rewrite decide_False by (intros ->; by vm_compute in Hb). rewrite Hb. simpl. by rewrite IH.
  - rewrite Hz. simpl. by rewrite IH.
Qed.

Lemma span_sound P s a b :
  span P s = (a, b) → s = a ++ b ∧ Forall (λ c, P c = true) a ∧ ∀ c, head b = Some c → P c = false.
Proof.
  revert a b. induction s as [|c s IH]; intros a b; simpl; [by intros [= <- <-]|].
  destruct (P c) eqn:Ec.
  - destruct (span P s) as [a' b']. intros [= <- <-]. destruct (IH a' b') as (-> & Ha & Hb); [done|].
    split_and!; [done|by constructor|done].
  - intros [= <- <-]. split_and!; [done|done|]. by intros ? [= <-].
Qed.

Lemma span_complete P a b :
  Forall (λ c, P c = true) a → (∀ c, head b = Some c → P c = false) → span P (a ++ b) = (a, b).
Proof.
  intros Ha Hb. induction Ha as [|c a Hc _ IH]; simpl; [|by rewrite Hc, IH].
  destruct b as [|c b]; [done|]. simpl. by rewrite (Hb c).
Qed.

Lemma some_digits_sound s ds r : some_digits s = Some (ds, r) → s = ds ++ r ∧ digits ds.
Proof.
  unfold some_digits. destruct (span is_digit s) as [a b] eqn:E. case_decide; [done|]. intros [= <- <-].
  apply span_sound in E as (-> & Ha & _). done.
Qed.

Lemma some_digits_complete ds r :
  digits ds → (∀ c, head r = Some c → is_digit c = false) → some_digits (ds ++ r) = Some (ds, r).
Proof. intros [Hne Hd] Hr. unfold some_digits. rewrite span_complete by done. by rewrite decide_False. Qed.

(** What may follow a value: spaces, or the character that ends or separates it. *)
Definition stops (r : list byte) : Prop := ∀ c, head r = Some c → is_space c = true ∨ c ∈ [x2c; x5d; x7d].

Lemma stops_char c : is_space c = true ∨ c ∈ [x2c; x5d; x7d] → is_digit c = false ∧ c ≠ x2e ∧ c ∉ [x65; x45].
Proof.
  intros Hc. assert (c ∈ [x20; x09; x0d; x0a; x2c; x5d; x7d]) as Hin.
  { destruct Hc as [Hc%bool_decide_eq_true|Hc]; set_solver. }
  clear Hc. repeat (apply elem_of_cons in Hin as [->|Hin]; [split_and!; [done|done|by apply (bool_decide_eq_false_1 _)]|]).
  by apply not_elem_of_nil in Hin.
Qed.

Lemma stops_spaces w c s : spaces w → c ∈ [x2c; x5d; x7d] → stops (w ++ c :: s).
Proof. intros [|b w' Hb _] Hc; intros ? [= <-]; auto. Qed.

Lemma scan_number_sound s lit r : scan_number s = Some (lit, r) → s = lit ++ r ∧ number lit.
Proof.
  unfold scan_number. destruct (scan_sign [x2d] s) as [sg s1] eqn:Esg.
  assert (s = sg ++ s1 ∧ (sg = [] ∨ sg = [x2d])) as [-> Hsg].
  { destruct s as [|c s]; simpl in Esg; [injection Esg as <- <-; auto|].
    case_decide as Hc; injection Esg as <- <-; [|by auto]. apply list_elem_of_singleton in Hc as ->. auto. }
  destruct (scan_int s1) as [[i s2]|] eqn:Ei; [|done]. cbn [mbind option_bind].
  assert (s1 = i ++ s2 ∧ (i = [x30] ∨ digits i ∧ head i ≠ Some x30)) as [-> Hi].
  { destruct s1 as [|c s1]; [done|]. simpl in Ei. case_decide as Hc; [injection Ei as <- <-; subst; auto|].
    apply some_digits_sound in Ei as [E Hd]. split; [done|]. right. split; [done|].
    destruct i as [|c' i]; [by destruct Hd|]. injection E as -> _. simpl. congruence. }
  destruct (scan_frac s2) as [[f s3]|] eqn:Ef; [|done]. cbn [mbind option_bind].
  assert (s2 = f ++ s3 ∧ (f = [] ∨ ∃ ds, f = x2e :: ds ∧ digits ds)) as [-> Hf].
  { destruct s2 as [|c s2]; simpl in Ef; [injection Ef as <- <-; auto|].
    case_decide as Hc; [|injection Ef as <- <-; auto].
    destruct (some_digits s2) as [[ds s']|] eqn:Ed; [|done]. injection Ef as <- <-.
    apply some_digits_sound in Ed as [-> Hd]. subst. split; [done|]. right. by exists ds. }
  destruct (scan_exp s3) as [[e s4]|] eqn:Ee; [|done]. cbn [mbind option_bind]. intros [= <- <-].
  assert (s3 = e ++ s4 ∧ (e = [] ∨ ∃ c esg ds, e = c :: esg ++ ds ∧ c ∈ [x65; x45] ∧
    (esg = [] ∨ esg = [x2b] ∨ esg = [x2d]) ∧ digits ds)) as [-> He].
  { destruct s3 as [|c s3]; simpl in Ee; [injection Ee as <- <-; auto|].
    case_decide as Hc; [|injection Ee as <- <-; auto].
    destruct (scan_sign [x2b; x2d] s3) as [esg s'] eqn:Es.
    assert (s3 = esg ++ s' ∧ (esg = [] ∨ esg = [x2b] ∨ esg = [x2d])) as [-> Hesg].
    { destruct s3 as [|b s3]; simpl in Es; [injection Es as <- <-; auto|].
      case_decide as Hb; injection Es as <- <-; [|by auto].
      apply elem_of_cons in Hb as [->|Hb%list_elem_of_singleton]; subst; auto. }
    destruct (some_digits s') as [[ds s'']|] eqn:Ed; [|done]. injection Ee as <- <-.
    apply some_digits_sound in Ed as [-> Hd]. split; [simpl; by rewrite <-app_assoc|]. right. by exists c, esg, ds. }
  split; [by rewrite <-!app_assoc|]. by exists sg, i, f, e.
Qed.

Lemma digit_not_in c l : is_digit c = true → Forall (λ b, is_digit b = false) l → c ∉ l.
Proof. intros Hc Hl Hin. rewrite Forall_forall in Hl. by rewrite (Hl c Hin) in Hc. Qed.

(** The first digit of some digits, before whatever follows. *)
Lemma digits_head ds : digits ds → ∃ c ds', ds = c :: ds' ∧ is_digit c = true.
Proof. intros [Hne Hd]. destruct Hd as [|c ds' Hc _]; [done|]. by exists c, ds'. Qed.

Lemma scan_sign_complete signs sg s :
  sg = [] ∨ (∃ c, c ∈ signs ∧ sg = [c]) → (∀ c, head s = Some c → c ∉ signs) → scan_sign signs (sg ++ s) = (sg, s).
Proof.
  intros [->|(c & Hc & ->)] Hs; simpl; [|by rewrite decide_True].
  destruct s as [|c s]; [done|]. simpl. rewrite decide_False; [done|by apply Hs].
Qed.

Lemma scan_exp_complete e r :
  (e = [] ∨ ∃ c esg ds, e = c :: esg ++ ds ∧ c ∈ [x65; x45] ∧ (esg = [] ∨ esg = [x2b] ∨ esg = [x2d]) ∧ digits ds) →
  stops r → scan_exp (e ++ r) = Some (e, r).
Proof.
  intros [->|(c & esg & ds & -> & Hc & Hesg & Hds)] Hr; simpl.
  - destruct r as [|c r]; [done|]. simpl. rewrite decide_False; [done|]. by apply stops_char, Hr.
  - rewrite decide_True by done. rewrite <-app_assoc, scan_sign_complete.
    + rewrite some_digits_complete; [done|done|]. intros b Hb. by apply stops_char, Hr.
    + destruct Hesg as [->|[->| ->]]; [by left|right; eexists; (split; [|done])..]; [left|right; left].
    + destruct (digits_head ds Hds) as (b & ds' & -> & Hb). intros ? [= <-]. apply digit_not_in; [done|].
      repeat constructor.
Qed.

Lemma scan_number_complete lit r : number lit → stops r → scan_number (lit ++ r) = Some (lit, r).
Proof.
  intros (sg & i & f & e & -> & Hsg & Hi & Hf & He) Hr.
  assert (∀ c, head (e ++ r) = Some c → is_digit c = false ∧ c ≠ x2e) as Hhe.
  { destruct He as [->|(c & ? & ? & -> & Hc & _)].
    - intros c Hc. destruct (stops_char c) as (? & ? & _); [by apply Hr|done].
    - intros ? [= <-]. by apply elem_of_cons in Hc as [->|Hc%list_elem_of_singleton]; [|subst]. }
  assert (∀ c, head (f ++ e ++ r) = Some c → is_digit c = false) as Hhf.
  { destruct Hf as [->|(ds & -> & _)]; [intros c Hc; by apply Hhe|by intros ? [= <-]]. }
  assert (∃ c i', i = c :: i' ∧ is_digit c = true) as (c0 & i' & Ei & Hc0).
  { destruct Hi as [->|[Hd _]]; [by exists x30, []|by apply digits_head]. }
  unfold scan_number. rewrite <-!app_assoc, scan_sign_complete.
  - assert (scan_int (i ++ f ++ e ++ r) = Some (i, f ++ e ++ r)) as ->.
    { destruct Hi as [->|[Hd Hh]]; [done|]. rewrite Ei in *. cbn [scan_int app].
      rewrite decide_False by (intros ->; by apply Hh). by rewrite <-(some_digits_complete (c0 :: i')). }
    cbn [mbind option_bind].
    assert (scan_frac (f ++ e ++ r) = Some (f, e ++ r)) as ->.
    { destruct Hf as [->|(ds & -> & Hd)]; cbn [scan_frac app].
      - destruct (e ++ r) as [|c s]; [done|]. cbn [scan_frac]. rewrite decide_False; [done|]. by apply Hhe.
      - cbn [scan_frac]. rewrite decide_True by done. rewrite some_digits_complete; [done|done|].
        intros c Hc. by apply Hhe. }
    cbn [mbind option_bind]. by rewrite scan_exp_complete.
  - destruct Hsg as [->| ->]; [by left|right]. exists x2d. split; [left|done].
  - rewrite Ei. intros ? [= <-]. apply digit_not_in; [done|]. repeat constructor.
Qed.

(** The first character of a value. *)
Lemma number_head lit : number lit → ∃ c s, lit = c :: s ∧ (c = x2d ∨ is_digit c = true).
Proof.
  intros (sg & i & f & e & -> & Hsg & Hi & _). destruct Hsg as [->| ->]; [|eexists _, _; split; [done|by left]].
  destruct Hi as [->|[(c & i' & -> & Hc)%digits_head _]]; (eexists _, _; split; [done|by right]).
Qed.

Lemma number_char c :
  c = x2d ∨ is_digit c = true → c ∉ [x20; x09; x0d; x0a; x7b; x5b; x22; x5d; x6e; x74; x66].
Proof. intros [->|Hc]; [by apply (bool_decide_eq_false_1 _)|]. apply digit_not_in; [done|]. repeat constructor. Qed.

Lemma number_char_space c : c = x2d ∨ is_digit c = true → is_space c = false.
Proof. intros Hc%number_char. apply bool_decide_eq_false. set_solver. Qed.

Lemma scan_literal_number lit r : number lit → stops r → scan_literal (lit ++ r) = Some (JNum lit, r).
Proof.
  intros Hn Hr. unfold scan_literal. destruct (number_head lit Hn) as (c & s & E & Hc%number_char).
  rewrite !decide_False by (rewrite E; simpl; intros [= -> _]; set_solver).
  by rewrite scan_number_complete.
Qed.

(** ** The parser follows the grammar: values *)

Lemma text_head d s j : text d s j → ∃ c s', s = c :: s' ∧ is_space c = false ∧ c ≠ x5d.
Proof.
  destruct 1 as [| | |d lit Hn| | | | |]; try (by eexists _, _).
  destruct (number_head lit Hn) as (c & s & -> & Hc). eexists _, _. split; [done|].
  split; [by apply number_char_space|]. apply number_char in Hc. set_solver.
Qed.

Lemma elements_text_eat d s l r : elements_text d s l → eat x5d (s ++ r) = None.
Proof.
  destruct 1 as [d w s w' j Hw Ht _|d w s w' j s' l Hw Ht _ _];
    destruct (text_head _ _ _ Ht) as (c & s0 & -> & Hc & Hne);
    rewrite <-app_assoc; simpl; by rewrite eat_token, decide_False.
Qed.

Lemma members_text_eat d s l r : members_text d s l → eat x7d (s ++ r) = None.
Proof. destruct 1; rewrite <-app_assoc; simpl; by rewrite eat_token, decide_False. Qed.

(** The steps of the parser on well-formed text. *)
Lemma value_step n d w s : spaces w → value (S n) d (w ++ s) = value (S n) d s.
Proof. intros Hw. cbn [value]. by rewrite skip_space_app. Qed.

Lemma elements_step n d w s w' j c r :
  value n d (w ++ s ++ w' ++ c :: r) = Some (j, w' ++ c :: r) → spaces w' → is_space c = false →
  elements (S n) d (w ++ s ++ w' ++ c :: r) =
    if decide (c = x2c) then '(l, s) ← elements n d r; Some (j :: l, s)
    else if decide (c = x5d) then Some ([j], r) else None.
Proof.
  intros Hv Hw' Hc. cbn [elements]. rewrite Hv. cbn [mbind option_bind].
  rewrite eat_token by done. case_decide; [done|]. rewrite eat_token by done. by case_decide.
Qed.

Lemma members_step n d w raw w1 w2 s w' j c r :
  value n d (w2 ++ s ++ w' ++ c :: r) = Some (j, w' ++ c :: r) →
  spaces w → string_body raw → spaces w1 → spaces w' → is_space c = false →
  members (S n) d (w ++ x22 :: raw ++ x22 :: w1 ++ x3a :: w2 ++ s ++ w' ++ c :: r) =
    if decide (c = x2c) then '(l, s) ← members n d r; Some ((unquote raw, j) :: l, s)
    else if decide (c = x7d) then Some ([(unquote raw, j)], r) else None.
Proof.
  intros Hv Hw Hb Hw1 Hw' Hc. cbn [members]. rewrite eat_token by done. rewrite decide_True by done.
  cbn [mbind option_bind]. rewrite scan_string_complete by done. cbn [mbind option_bind].
  rewrite eat_token by done. rewrite decide_True by done. cbn [mbind option_bind]. rewrite Hv. cbn [mbind option_bind].
  rewrite eat_token by done. case_decide; [done|]. rewrite eat_token by done. by case_decide.
Qed.

(** Fuel of twice the length, and one or two, is enough. *)
Lemma parser_complete :
  (∀ d s j, text d s j → ∀ n w r, spaces w → stops r → (2 * length s + 1 ≤ n)%nat →
     value n d (w ++ s ++ r) = Some (j, r)) ∧
  (∀ d s l, elements_text d s l → ∀ n r, (2 * length s + 2 ≤ n)%nat → elements n d (s ++ r) = Some (l, r)) ∧
  (∀ d s l, members_text d s l → ∀ n r, (2 * length s + 2 ≤ n)%nat → members n d (s ++ r) = Some (l, r)).
Proof.
  apply grammar_ind.
  1-3: intros d [|n] w r Hw Hr Hn; [simpl in Hn; lia|by rewrite value_step].
  - intros d lit Hl [|n] w r Hw Hr Hn; [lia|]. rewrite value_step by done.
    pose proof (scan_literal_number lit r Hl Hr) as Hs. destruct (number_head lit Hl) as (c & s & -> & Hc).
    cbn [value app skip_space] in *. rewrite number_char_space by done. apply number_char in Hc.
    rewrite !decide_False by set_solver. done.
  - intros d raw Hb [|n] w r Hw _ Hn; [lia|]. rewrite value_step by done. simpl.
    rewrite <-app_assoc. simpl. by rewrite scan_string_complete.
  - intros d s l Hs IH [|n] w r Hw _ Hn; simpl in Hn; [lia|]. rewrite value_step by done. simpl.
    rewrite (elements_text_eat d s l) by done. rewrite IH; [done|lia].
  - intros d w' Hw' [|n] w r Hw _ Hn; [lia|]. rewrite value_step by done. simpl.
    rewrite <-app_assoc. simpl. by rewrite eat_token.
  - intros d s l Hs IH [|n] w r Hw _ Hn; simpl in Hn; [lia|]. rewrite value_step by done. simpl.
    rewrite (members_text_eat d s l) by done. rewrite IH; [done|lia].
  - intros d w' Hw' [|n] w r Hw _ Hn; [lia|]. rewrite value_step by done. simpl.
    rewrite <-app_assoc. simpl. by rewrite eat_token.
  - intros d w s w' j Hw _ IH Hw' [|n] r Hn; [lia|]. rewrite !length_app in Hn. rewrite <-!app_assoc. cbn [app].
    rewrite (elements_step n d w s w' j x5d); [done| |done|done].
    apply IH; [done|apply stops_spaces; [done|set_solver]|lia].
  - intros d w s w' j s' l Hw _ IH Hw' _ IH' [|n] r Hn; [lia|]. rewrite !length_app in Hn. simpl in Hn.
    rewrite <-!app_assoc. cbn [app]. rewrite (elements_step n d w s w' j x2c); [|  |done|done].
    + rewrite decide_True by done. rewrite IH'; [done|lia].
    + apply IH; [done|apply stops_spaces; [done|set_solver]|lia].
  - intros d w raw w1 w2 s w' j Hw Hb Hw1 Hw2 _ IH Hw' [|n] r Hn; [lia|]. repeat (rewrite length_app in Hn; simpl in Hn).
    repeat (rewrite <-app_assoc; cbn [app]). rewrite (members_step n d w raw w1 w2 s w' j x7d); [done| |done..].
    apply IH; [done|apply stops_spaces; [done|set_solver]|lia].
  - intros d w raw w1 w2 s w' j s' l Hw Hb Hw1 Hw2 _ IH Hw' _ IH' [|n] r Hn; [lia|].
    repeat (rewrite length_app in Hn; simpl in Hn).
    repeat (rewrite <-app_assoc; cbn [app]). rewrite (members_step n d w raw w1 w2 s w' j x2c); [| |done..].
    + rewrite decide_True by done. rewrite IH'; [done|lia].
    + apply IH; [done|apply stops_spaces; [done|set_solver]|lia].
Qed.

Lemma take_drop_eq (n : nat) (s lit : list byte) : take n s = lit → s = lit ++ drop n s.
Proof. intros <-. by rewrite take_drop. Qed.

Lemma scan_literal_sound d s j r : scan_literal s = Some (j, r) → ∃ s', s = s' ++ r ∧ text d s' j.
Proof.
  unfold scan_literal. case_decide as H1; [|case_decide as H2; [|case_decide as H3]].
  1-3: intros [= <- <-]; eexists; (split; [by apply take_drop_eq|constructor]).
  destruct (scan_number s) as [[lit s']|] eqn:E; [|done]. intros [= <- <-].
  apply scan_number_sound in E as [-> Hn]. exists lit. split; [done|by constructor].
Qed.

(** What the parser accepts with fuel [n] is well formed. *)
Definition value_ok (n : nat) : Prop :=
  ∀ d s j r, value n d s = Some (j, r) → ∃ w s', s = w ++ s' ++ r ∧ spaces w ∧ text d s' j.
Definition elements_ok (n : nat) : Prop :=
  ∀ d s l r, elements n d s = Some (l, r) → ∃ s', s = s' ++ r ∧ elements_text d s' l.
Definition members_ok (n : nat) : Prop :=
  ∀ d s l r, members n d s = Some (l, r) → ∃ s', s = s' ++ r ∧ members_text d s' l.

Section sound.
Variable n : nat.
Hypothesis IHv : value_ok n.
Hypothesis IHe : elements_ok n.
Hypothesis IHm : members_ok n.

Lemma value_sound : value_ok (S n).
Proof.
  intros d s j r. cbn [value]. destruct (skip_space_spec s) as (w & E & Hw).
  destruct (skip_space s) as [|c s0]; [done|]. rewrite E. clear E.
  intros Hp. exists w. case_decide as H1; [|case_decide as H2; [|case_decide as H3]].
  - subst c. destruct d as [|d]; [done|]. destruct (eat x7d s0) as [s1|] eqn:Ee.
    + injection Hp as <- <-. apply eat_sound in Ee as (w' & -> & Hw'). exists (x7b :: w' ++ [x7d]).
      split_and!; [simpl; by rewrite <-app_assoc|done|by constructor].
    + destruct (members n d s0) as [[ms s1]|] eqn:Em; [|done]. injection Hp as <- <-.
      apply IHm in Em as (s' & -> & Hs'). exists (x7b :: s'). split_and!; [done|done|by constructor].
  - subst c. destruct d as [|d]; [done|]. destruct (eat x5d s0) as [s1|] eqn:Ee.
    + injection Hp as <- <-. apply eat_sound in Ee as (w' & -> & Hw'). exists (x5b :: w' ++ [x5d]).
      split_and!; [simpl; by rewrite <-app_assoc|done|by constructor].
    + destruct (elements n d s0) as [[ms s1]|] eqn:Em; [|done]. injection Hp as <- <-.
      apply IHe in Em as (s' & -> & Hs'). exists (x5b :: s'). split_and!; [done|done|by constructor].
  - subst c. destruct (scan_string s0) as [[raw s1]|] eqn:Es; [|done]. injection Hp as <- <-.
    apply scan_string_sound in Es as [-> Hb]. exists (x22 :: raw ++ [x22]).
    split_and!; [simpl; by rewrite <-app_assoc|done|by constructor].
  - apply (scan_literal_sound d) in Hp as (s' & -> & Ht). by exists s'.
Qed.

Lemma elements_sound : elements_ok (S n).
Proof.
  intros d s l r. cbn [elements]. destruct (value n d s) as [[j s1]|] eqn:Ev; [|done].
  apply IHv in Ev as (w & s' & -> & Hw & Ht). cbn [mbind option_bind].
  destruct (eat x2c s1) as [s2|] eqn:Ec.
  - apply eat_sound in Ec as (w' & -> & Hw'). destruct (elements n d s2) as [[l' s3]|] eqn:Ee; [|done].
    intros [= <- <-]. apply IHe in Ee as (s'' & -> & Hs''). eexists (w ++ s' ++ w' ++ x2c :: s'').
    split; [by rewrite <-!app_assoc|by constructor].
  - destruct (eat x5d s1) as [s2|] eqn:Ed; [|done]. intros [= <- <-].
    apply eat_sound in Ed as (w' & -> & Hw'). exists (w ++ s' ++ w' ++ [x5d]).
    split; [by rewrite <-!app_assoc|by constructor].
Qed.

Lemma members_sound : members_ok (S n).
Proof.
  intros d s l r. cbn [members]. destruct (eat x22 s) as [s1|] eqn:Eq; [|done]. cbn [mbind option_bind].
  apply eat_sound in Eq as (w & -> & Hw). destruct (scan_string s1) as [[raw s2]|] eqn:Es; [|done].
  cbn [mbind option_bind]. apply scan_string_sound in Es as [-> Hb].
  destruct (eat x3a s2) as [s3|] eqn:Eq; [|done]. cbn [mbind option_bind]. apply eat_sound in Eq as (w1 & -> & Hw1).
  destruct (value n d s3) as [[j s4]|] eqn:Ev; [|done]. cbn [mbind option_bind].
  apply IHv in Ev as (w2 & s' & -> & Hw2 & Ht). destruct (eat x2c s4) as [s5|] eqn:Ec.
  - apply eat_sound in Ec as (w' & -> & Hw'). destruct (members n d s5) as [[l' s6]|] eqn:Ee; [|done].
    intros [= <- <-]. apply IHm in Ee as (s'' & -> & Hs'').
    eexists (w ++ x22 :: raw ++ x22 :: w1 ++ x3a :: w2 ++ s' ++ w' ++ x2c :: s'').
    split; [by repeat (rewrite <-app_assoc; simpl)|by constructor].
  - destruct (eat x7d s4) as [s5|] eqn:Ed; [|done]. intros [= <- <-].
    apply eat_sound in Ed as (w' & -> & Hw').
    exists (w ++ x22 :: raw ++ x22 :: w1 ++ x3a :: w2 ++ s' ++ w' ++ [x7d]).
    split; [by repeat (rewrite <-app_assoc; simpl)|by constructor].
Qed.
End sound.

Lemma parser_sound n : value_ok n ∧ elements_ok n ∧ members_ok n.
Proof.
  induction n as [|n (IHv & IHe & IHm)]; [done|].
  split_and!; [by apply value_sound|by apply elements_sound|by apply members_sound].
Qed.

(** The decoder accepts exactly the documents, and gives their value. *)
Lemma parse_document s j : parse s = Some j ↔ document s j.
Proof.
  unfold parse. split.
  - destruct (value _ max_depth s) as [[j' r]|] eqn:Ev; [|done]. simpl. case_decide as Hr; [|done]. intros [= ->].
    apply parser_sound in Ev as (w & s' & -> & Hw & Ht). exists w, s', r. split_and!; [done|done|done|].
    destruct (skip_space_spec r) as (w' & E & Hw'). rewrite Hr, app_nil_r in E. by subst.
  - intros (w & s' & w' & -> & Hw & Ht & Hw').
    rewrite (proj1 parser_complete max_depth s' j Ht); [|done| |rewrite !length_app; lia].
    + simpl. by rewrite decide_True by (by apply skip_space_nil).
    + destruct Hw' as [|c w'' Hc _]; [done|]. intros ? [= <-]. by left.
Qed.

Lemma document_unique s j j' : document s j → document s j' → j = j'.
Proof. rewrite <-!parse_document. congruence. Qed.

(** ** Writing

    A text for every value whose numbers are numbers and whose strings are
    UTF-8. *)

Inductive utf8 : list byte → Prop :=
| utf8_nil : utf8 []
| utf8_one c s : b2z c < 128 → utf8 s → utf8 (c :: s)
| utf8_two a b s : utf8_2 a b = true → utf8 s → utf8 (a :: b :: s)
| utf8_three a b c s : utf8_3 a b c = true → utf8 s → utf8 (a :: b :: c :: s)
| utf8_four a b c d s : utf8_4 a b c d = true → utf8 s → utf8 (a :: b :: c :: d :: s).

Definition hex_char (z : Z) : byte := if decide (z < 10) then z2b (48 + z) else z2b (87 + z).

Definition quote_char (c : byte) : list byte :=
  if decide (c = x22) then [x5c; x22]
  else if decide (c = x5c) then [x5c; x5c]
  else if decide (b2z c < 32) then [x5c; x75; x30; x30; hex_char (b2z c / 16); hex_char (b2z c mod 16)]
  else [c].

Fixpoint quoted (s : gostring) : list byte :=
  match s with [] => [] | c :: s => quote_char c ++ quoted s end.

Fixpoint join_with (close : byte) (l : list (list byte)) : list byte :=
  match l with
  | [] => [close]
  | [s] => s ++ [close]
  | s :: l => s ++ x2c :: join_with close l
  end.

Definition print_string (s : gostring) : list byte := x22 :: quoted s ++ [x22].

Fixpoint print (j : json) : list byte :=
  match j with
  | JNull => str "null"
  | JBool b => if b then str "true" else str "false"
  | JNum lit => lit
  | JStr s => print_string s
  | JArr l => x5b :: join_with x5d (print <$> l)
  | JObj l => x7b :: join_with x7d ((λ m, print_string m.1 ++ x3a :: print m.2) <$> l)
  end.

(** Values that nest at most [d] deep. *)
Fixpoint writable (d : nat) (j : json) {struct d} : Prop :=
  match j with
  | JNum lit => number lit
  | JStr s => utf8 s
  | JArr l => match d with O => False | S d => Forall (writable d) l end
  | JObj l => match d with O => False | S d => Forall (λ m, utf8 m.1 ∧ writable d m.2) l end
  | _ => True
  end.

Lemma writable_object l :
  Forall (λ m, utf8 m.1 ∧ writable (pred max_depth) m.2) l → writable max_depth (JObj l).
Proof.
  assert (∃ d, max_depth = S d) as [d ->] by (exists (pred max_depth); unfold max_depth; lia). done.
Qed.

Lemma quote_high c : 128 ≤ b2z c → quote_char c = [c].
Proof.
  intros Hc. unfold quote_char. rewrite !decide_False; [done|lia|..]; intros ->; vm_compute in Hc; congruence.
Qed.

(** A control character, as its escape. *)
Lemma quote_control c :
  b2z c < 32 →
  hex4_val x30 x30 (hex_char (b2z c / 16)) (hex_char (b2z c mod 16)) = Some (b2z c) ∧ encode_rune (b2z c) = [c].
Proof. intros Hc. destruct c; try (exfalso; vm_compute in Hc; discriminate Hc); by vm_compute. Qed.

Lemma between_true lo hi c : between lo hi c = true ↔ lo ≤ b2z c ≤ hi.
Proof. apply bool_decide_eq_true. Qed.

Lemma utf8_2_true a b : utf8_2 a b = true → 194 ≤ b2z a ≤ 223 ∧ 128 ≤ b2z b.
Proof. unfold utf8_2, cont. rewrite andb_true_iff, !between_true. lia. Qed.

Lemma utf8_3_true a b c : utf8_3 a b c = true → 224 ≤ b2z a ≤ 239 ∧ 128 ≤ b2z b ∧ 128 ≤ b2z c.
Proof. unfold utf8_3, cont. rewrite andb_true_iff, !orb_true_iff, !andb_true_iff, !between_true. lia. Qed.

Lemma utf8_4_true a b c d :
  utf8_4 a b c d = true → 240 ≤ b2z a ≤ 244 ∧ 128 ≤ b2z b ∧ 128 ≤ b2z c ∧ 128 ≤ b2z d.
Proof. unfold utf8_4, cont. rewrite !andb_true_iff, !orb_true_iff, !andb_true_iff, !between_true. lia. Qed.

Lemma utf8_2_false a b : 224 ≤ b2z a → utf8_2 a b = false.
Proof. intros Ha. destruct (utf8_2 a b) eqn:E; [|done]. apply utf8_2_true in E. lia. Qed.
Lemma utf8_3_false a b c : 240 ≤ b2z a → utf8_3 a b c = false.
Proof. intros Ha. destruct (utf8_3 a b c) eqn:E; [|done]. apply utf8_3_true in E. lia. Qed.

Lemma unquote_quoted s : utf8 s → unquote (quoted s) = s.
Proof.
  assert (∀ c, 128 ≤ b2z c → c ≠ x5c) as Hne by (intros c Hc ->; vm_compute in Hc; congruence).
  induction 1 as [|c s Hc _ IH|a b s Hu _ IH|a b c s Hu _ IH|a b c d s Hu _ IH]; [done|..]; simpl.
  - unfold quote_char. case_decide as H1; [subst; simpl; by f_equal|].
    case_decide as H2; [subst; simpl; by f_equal|]. case_decide as H3.
    + destruct (quote_control c H3) as [Eh Er].
      cbn -[hex4_val encode_rune hex_char Z.div Z.modulo]. rewrite Eh. simpl default.
      assert (is_surrogate (b2z c) = false) as -> by (apply bool_decide_eq_false; lia).
      rewrite Er. simpl. by f_equal.
    + simpl. rewrite decide_False, decide_True by done. by f_equal.
  - destruct (utf8_2_true a b Hu) as [Ha Hb]. rewrite !quote_high by lia. simpl.
    rewrite decide_False, decide_False by (lia || (apply Hne; lia)). rewrite Hu. by rewrite IH.
  - destruct (utf8_3_true a b c Hu) as (Ha & Hb & Hc). rewrite !quote_high by lia. simpl.
    rewrite decide_False, decide_False by (lia || (apply Hne; lia)).
    rewrite utf8_2_false by lia. rewrite Hu. by rewrite IH.
  - destruct (utf8_4_true a b c d Hu) as (Ha & Hb & Hc & Hd). rewrite !quote_high by lia. simpl.
    rewrite decide_False, decide_False by (lia || (apply Hne; lia)).
    rewrite utf8_2_false, utf8_3_false by lia. rewrite Hu. by rewrite IH.
Qed.

Lemma string_body_quoted s : string_body (quoted s).
Proof.
  induction s as [|c s IH]; [constructor|]. simpl. unfold quote_char.
  case_decide; [by apply body_escape|]. case_decide; [by apply body_escape|]. case_decide as H3.
  - apply body_unicode; [|done]. by rewrite (proj1 (quote_control c H3)).
  - apply body_plain; [done|done|lia|done].
Qed.

Lemma print_elements d l :
  Forall (λ j, text d (print j) j) l → l ≠ [] → elements_text d (join_with x5d (print <$> l)) l.
Proof.
  induction 1 as [|j l Hj Hl IH]; [done|]. intros _. destruct l as [|j' l].
  - by apply (elements_last d [] (print j) [] j).
  - apply (elements_more d [] (print j) [] j); [done|done|done|]. by apply IH.
Qed.

Definition print_member (m : gostring * json) : list byte := print_string m.1 ++ x3a :: print m.2.

Lemma print_members d l :
  Forall (λ m, utf8 m.1 ∧ text d (print m.2) m.2) l → l ≠ [] →
  members_text d (join_with x7d (print_member <$> l)) l.
Proof.
  induction 1 as [|[k j] l [Hk Hj] Hl IH]; [done|]. intros _. cbn [fst snd] in *.
  pose proof (string_body_quoted k) as Hb. pose proof (unquote_quoted k Hk) as Eu.
  destruct l as [|m l].
  - pose proof (members_last d [] (quoted k) [] [] (print j) [] j) as Hm. rewrite Eu in Hm.
    unfold print_member, print_string. simpl in *. repeat (rewrite <-app_assoc; simpl). by apply Hm.
  - change (join_with x7d (print_member <$> (k, j) :: m :: l))
      with (print_member (k, j) ++ x2c :: join_with x7d (print_member <$> m :: l)).
    specialize (IH ltac:(done)). revert IH. generalize (join_with x7d (print_member <$> m :: l)) as rest. intros rest IH.
    pose proof (members_more d [] (quoted k) [] [] (print j) [] j rest) as Hm. rewrite Eu in Hm.
    unfold print_member, print_string. simpl in *. repeat (rewrite <-app_assoc; simpl). by apply Hm.
Qed.

Lemma print_text j : ∀ d, writable d j → text d (print j) j.
Proof.
  induction j as [|b|lit|s|l IH|l IH] using json_ind; intros d Hj.
  - constructor.
  - destruct b; constructor.
  - constructor. by destruct d.
  - assert (utf8 s) as Hs by (by destruct d). cbn [print]. rewrite <-(unquote_quoted s Hs) at 2.
    constructor. apply string_body_quoted.
  - destruct d as [|d]; [done|]. destruct (decide (l = [])) as [->|Hne]; [by apply (text_array_empty d [])|].
    constructor. apply print_elements; [|done]. simpl in Hj. rewrite Forall_forall in *. intros j Hin. by apply IH, Hj.
  - destruct d as [|d]; [done|]. destruct (decide (l = [])) as [->|Hne]; [by apply (text_object_empty d [])|].
    constructor. apply print_members; [|done]. simpl in Hj. rewrite Forall_forall in *.
    intros m Hm. split; [by apply Hj|by apply IH, Hj].
Qed.

Lemma print_document j : writable max_depth j → document (print j) j.
Proof. intros Hj. exists [], (print j), []. rewrite app_nil_r. split_and!; [done|done|by apply print_text|done]. Qed.

(** Reading what was written. *)
Lemma parse_print j : writable max_depth j → parse (print j) = Some j.
Proof. intros Hj. by apply parse_document, print_document. Qed.
