(* ===== verification/Config.v ===== *)
(** * Config: the network configuration and the log level
    (src/pkg/cni/config.go and src/pkg/cni/logging.go) *)

From S2P Require Import Prelude Bytes GoLib Cni.
From Stdlib Require Import Lia ZArith.
Open Scope Z_scope.

Definition DefaultSocketPath : gostring := str "/run/grout/grout.sock".
Definition grIfaceNameSize : Z := 16.
Definition ErrPluginNotAvailable : Z := 50.
Definition InterfaceTypeTAP : gostring := str "tap".
Definition InterfaceTypeVirtio : gostring := str "virtio".

(** ** Log levels *)

Definition LevelDebug : Z := -4.
Definition LevelInfo : Z := 0.
Definition LevelWarn : Z := 4.
Definition LevelError : Z := 8.

(** [strings.ToLower(strings.TrimSpace(s)) == lit] *)
Definition level_is (s : gostring) (lit : string) : bool :=
  bool_decide (lower_view (TrimSpace s) = Some <$> str lit).

Definition parseLogLevel (s : gostring) : Z :=
  if level_is s "debug" then LevelDebug
  else if level_is s "info" then LevelInfo
  else if level_is s "warn" || level_is s "warning" then LevelWarn
  else if level_is s "error" then LevelError
  else LevelWarn.

Definition validLogLevel (s : gostring) : bool :=
  level_is s "debug" || level_is s "info" || level_is s "warn" || level_is s "warning"
  || level_is s "error".

(** ** Bridge names *)

(** [fmt.Sprintf("%04x", v)] for [v] of 16 bits *)
Definition hex4 (v : Z) : gostring :=
  [hex_digit (v / 4096 mod 16); hex_digit (v / 256 mod 16); hex_digit (v / 16 mod 16);
   hex_digit (v mod 16)].

Definition bridgeNameFor (network : gostring) : gostring :=
  let name := str "br-" ++ network in
  let maxLen := grIfaceNameSize - 1 in
  if decide (Z.of_nat (length name) ≤ maxLen) then name
  else
    let suffix := str "-" ++ hex4 (Z.land (fnv32a network) 0xffff) in
    let head := maxLen - Z.of_nat (length suffix) in
    let head := if decide (head < Z.of_nat (length (str "br-")))
                then Z.of_nat (length (str "br-")) else head in
    take (Z.to_nat head) name ++ suffix.

(** ** Loading *)

Section load.
Context `{CniTypes}.

(** The configuration [json.Unmarshal] is given: zero but for the socket path. *)
Definition default_conf : PluginConf :=
  mkPluginConf [] [] (mkIPAM []) None [] DefaultSocketPath [] 0 [] [].

Definition set_Bridge (c : PluginConf) (b : gostring) : PluginConf :=
  mkPluginConf (CNIVersion c) (Name c) (IPAM_conf c) (RawPrevResult c) (ValidAttachments c)
    (GroutSocketPath c) b (MTU c) (InterfaceType c) (LogLevel c).
Definition set_InterfaceType (c : PluginConf) (t : gostring) : PluginConf :=
  mkPluginConf (CNIVersion c) (Name c) (IPAM_conf c) (RawPrevResult c) (ValidAttachments c)
    (GroutSocketPath c) (Bridge c) (MTU c) t (LogLevel c).

Context `{!CniLib}.

(** The JSON decoding of the configuration's fields, starting from a given
    value. *)
Variable Unmarshal : list byte → PluginConf → result PluginConf.

Definition check_bridge (conf : PluginConf) : result PluginConf :=
  if decide (Bridge conf = []) then Ok (set_Bridge conf (bridgeNameFor (Name conf)))
  else if decide (grIfaceNameSize ≤ Z.of_nat (length (Bridge conf))) then
    Err (Errorf "bridge name %q exceeds %d bytes" [AStr (Bridge conf); AInt (grIfaceNameSize - 1)])
  else Ok conf.

Definition check_type (conf : PluginConf) : result PluginConf :=
  if decide (InterfaceType conf = []) then Ok (set_InterfaceType conf InterfaceTypeTAP)
  else if decide (InterfaceType conf = InterfaceTypeTAP ∨ InterfaceType conf = InterfaceTypeVirtio)
  then Ok conf
  else Err (Errorf "interfaceType must be %q or %q, got %q"
              [AStr InterfaceTypeTAP; AStr InterfaceTypeVirtio; AStr (InterfaceType conf)]).

Definition LoadConfig (stdin : list byte) : result PluginConf :=
  conf ← map_err (λ e, Errorf "parsing CNI config: %w" [AErr e]) (Unmarshal stdin default_conf);
  if IPAM_IsEmpty (IPAM_conf conf) then
    Err (Errorf "IPAM configuration is required (specify an ipam section)" [])
  else if decide (Name conf = []) then Err (Errorf "network name is required" [])
  else if decide (MTU conf < 0 ∨ MTU conf > 65535) then
    Err (Errorf "mtu must be between 0 and 65535, got %d" [AInt (MTU conf)])
  else
    conf ← check_bridge conf;
    conf ← check_type conf;
    if decide (LogLevel conf ≠ [] ∧ validLogLevel (LogLevel conf) = false) then
      Err (Errorf "logLevel must be one of debug, info, warn, error, got %q" [AStr (LogLevel conf)])
    else Ok conf.
End load.

(** [ConfigureLogging] installs a logger on standard error as the default one of
    the process; [SetDefault] is [slog.SetDefault] of such a logger with a level. *)
Definition ConfigureLogging `{CniTypes} {W} (SetDefault : Z → W → W) (conf : PluginConf) (w : W) : W :=
  SetDefault (parseLogLevel (LogLevel conf)) w.

(** ** Facts *)

Lemma bridgeNameFor_short n :
  (length n ≤ 12)%nat → bridgeNameFor n = str "br-" ++ n.
Proof.
  intros Hl. unfold bridgeNameFor. rewrite decide_True; [done|].
  rewrite length_app. simpl. unfold grIfaceNameSize. lia.
Qed.

Lemma bridgeNameFor_long n :
  (12 < length n)%nat →
  bridgeNameFor n = str "br-" ++ take 7 n ++ str "-" ++ hex4 (Z.land (fnv32a n) 0xffff).
Proof.
  intros Hl. unfold bridgeNameFor. rewrite decide_False.
  - rewrite decide_False; [done|]. simpl. unfold grIfaceNameSize. lia.
  - rewrite length_app. simpl. unfold grIfaceNameSize. lia.
Qed.

Lemma length_hex4 v : length (hex4 v) = 4%nat.
Proof. done. Qed.

Lemma bridgeNameFor_length n : (3 ≤ length (bridgeNameFor n) ≤ 15)%nat.
Proof.
  destruct (decide (length n ≤ 12)%nat).
  - rewrite bridgeNameFor_short by done. rewrite length_app. simpl. lia.
  - rewrite bridgeNameFor_long by lia. rewrite !length_app, length_take, length_hex4.
    change (length (str "br-")) with 3%nat. change (length (str "-")) with 1%nat. lia.
Qed.

Section load_facts.
Context `{CniLib}.
Variable Unmarshal : list byte → PluginConf → result PluginConf.

(** What the plugin requires of a configuration as it was written. *)
Record acceptable (c : PluginConf) : Prop := {
  acc_ipam : IPAM_IsEmpty (IPAM_conf c) = false;
  acc_name : Name c ≠ [];
  acc_mtu : 0 ≤ MTU c ≤ 65535;
  acc_bridge : (length (Bridge c) ≤ 15)%nat;
  acc_type : InterfaceType c ∈ [[]; InterfaceTypeTAP; InterfaceTypeVirtio];
  acc_level : LogLevel c = [] ∨ validLogLevel (LogLevel c) = true }.

(** The defaults it completes it with. *)
Definition with_defaults (c : PluginConf) : PluginConf :=
  let c := if decide (Bridge c = []) then set_Bridge c (bridgeNameFor (Name c)) else c in
  if decide (InterfaceType c = []) then set_InterfaceType c InterfaceTypeTAP else c.

(** What the handlers rely on. *)
Record usable (c : PluginConf) : Prop := {
  use_mtu : u16 (MTU c) = MTU c;
  use_bridge : (1 ≤ length (Bridge c) ≤ 15)%nat;
  use_type : InterfaceType c = InterfaceTypeTAP ∨ InterfaceType c = InterfaceTypeVirtio }.

Lemma with_defaults_fields c :
  IPAM_conf (with_defaults c) = IPAM_conf c ∧ Name (with_defaults c) = Name c ∧
  MTU (with_defaults c) = MTU c ∧ GroutSocketPath (with_defaults c) = GroutSocketPath c ∧
  LogLevel (with_defaults c) = LogLevel c ∧ ValidAttachments (with_defaults c) = ValidAttachments c.
Proof. unfold with_defaults. by repeat case_decide. Qed.

Lemma with_defaults_usable c : acceptable c → usable (with_defaults c).
Proof.
  intros [_ _ Hm Hb Ht _]. pose proof (bridgeNameFor_length (Name c)).
  assert (0 < length (Bridge c) ∨ Bridge c = [])%nat by (destruct (Bridge c); simpl; [auto|lia]).
  split.
  - destruct (with_defaults_fields c) as (_ & _ & -> & _). unfold u16. rewrite Z.mod_small; lia.
  - unfold with_defaults. repeat case_decide; simplify_eq/=; lia || naive_solver lia.
  - unfold with_defaults. repeat case_decide; simplify_eq/=; set_solver.
Qed.

Lemma check_bridge_ok c c' :
  check_bridge c = Ok c' ↔
  (length (Bridge c) ≤ 15)%nat ∧
  c' = if decide (Bridge c = []) then set_Bridge c (bridgeNameFor (Name c)) else c.
Proof.
  unfold check_bridge, grIfaceNameSize. case_decide as Hb; [rewrite Hb; simpl; naive_solver lia|].
  case_decide; naive_solver lia.
Qed.

Lemma check_type_ok c c' :
  check_type c = Ok c' ↔
  InterfaceType c ∈ [[]; InterfaceTypeTAP; InterfaceTypeVirtio] ∧
  c' = if decide (InterfaceType c = []) then set_InterfaceType c InterfaceTypeTAP else c.
Proof. unfold check_type. rewrite !elem_of_cons, elem_of_nil. repeat case_decide; naive_solver. Qed.

Lemma LoadConfig_ok stdin c' :
  LoadConfig Unmarshal stdin = Ok c' ↔
  ∃ c, Unmarshal stdin default_conf = Ok c ∧ acceptable c ∧ c' = with_defaults c.
Proof.
  unfold LoadConfig. destruct (Unmarshal stdin default_conf) as [c|e]; simpl; [|naive_solver].
  split.
  - intros Hok. exists c. split; [done|].
    case_match; [done|]. repeat (case_decide; [done|]).
    destruct (check_bridge c) as [c1|] eqn:Hb; [|done]. simpl in Hok.
    destruct (check_type c1) as [c2|] eqn:Ht; [|done]. simpl in Hok.
    apply check_bridge_ok in Hb as [Hb ->]. apply check_type_ok in Ht as [Ht ->].
    fold (with_defaults c) in Hok. case_decide as Hl; [done|]. simplify_eq.
    destruct (with_defaults_fields c) as (_ & _ & _ & _ & El & _). rewrite El in Hl.
    split; [|done]. split; [done|done|lia|done| |].
    + by destruct (decide (Bridge c = [])).
    + destruct (validLogLevel (LogLevel c)) eqn:?; [by right|left].
      apply dec_stable. naive_solver.
  - intros (c2 & Hc & Ha & ->). injection Hc as <-.
    pose proof (with_defaults_fields c) as Hf. destruct Ha as [Hi Hn Hm Hb Ht Hl]. rewrite Hi.
    rewrite decide_False by done. rewrite decide_False by lia.
    set (c1 := if decide (Bridge c = []) then set_Bridge c (bridgeNameFor (Name c)) else c).
    assert (check_bridge c = Ok c1) as -> by (by apply check_bridge_ok). simpl.
    assert (check_type c1 = Ok (with_defaults c)) as ->.
    { apply check_type_ok. split; [|done]. unfold c1. by case_decide. }
    simpl. rewrite decide_False; [done|]. destruct Hf as (_&_&_&_&->&_). intros [? Hv]. destruct Hl as [?|Hl]; [done|]. by rewrite Hl in Hv.
Qed.

Lemma LoadConfig_gives_usable stdin c : LoadConfig Unmarshal stdin = Ok c → usable c.
Proof. intros (c0 & _ & Ha & ->)%LoadConfig_ok. by apply with_defaults_usable. Qed.

(** C30: [LoadConfig] accepts exactly the configurations that decode and are
    acceptable (an IPAM section, a network name, an MTU in range, a bridge name
    that fits, a known interface type and log level), and what it returns is
    the decoded configuration with only the bridge name and the interface type
    filled in where they were empty. *)
Theorem LoadConfig_accepts stdin c' :
  LoadConfig Unmarshal stdin = Ok c' ↔
  ∃ c, Unmarshal stdin default_conf = Ok c ∧ acceptable c ∧ c' = with_defaults c.
Proof. apply LoadConfig_ok. Qed.

(** C34: What [LoadConfig] returns can be used without loss: the MTU survives the
    conversion to 16 bits, the bridge has a name and it fits grout's name field
    with its terminator (whatever the length of the network's name), and the
    interface type is TAP or virtio. *)
Theorem LoadConfig_usable stdin c :
  LoadConfig Unmarshal stdin = Ok c → usable c.
Proof. apply LoadConfig_gives_usable. Qed.
End load_facts.

(** The bridge of a network: at most 15 bytes and "br-" first for every
    network name; for names of up to 12 bytes it is the name itself behind the
    prefix, so these networks have different bridges. *)
Theorem bridgeNameFor_spec n :
  (length (bridgeNameFor n) ≤ 15)%nat ∧ HasPrefix (bridgeNameFor n) (str "br-") = true ∧
  ((length n ≤ 12)%nat → bridgeNameFor n = str "br-" ++ n).
Proof.
  split_and!; [apply bridgeNameFor_length| |apply bridgeNameFor_short].
  unfold HasPrefix. destruct (decide (length n ≤ 12)%nat).
  - rewrite bridgeNameFor_short by done. by rewrite (take_app_length (str "br-")), bool_decide_true.
  - rewrite bridgeNameFor_long by lia. by rewrite (take_app_length (str "br-")), bool_decide_true.
Qed.

(** Longer network names can collide: a long name and the short name equal to
    its truncation with the hash suffix get the same bridge, as do two long
    names with the same first seven bytes and the same 16 bits of hash. *)
Theorem bridgeNameFor_collides :
  str "production-network" ≠ drop 3 (bridgeNameFor (str "production-network")) ∧
  bridgeNameFor (str "production-network") =
    bridgeNameFor (drop 3 (bridgeNameFor (str "production-network"))).
Proof. split; [by apply (bool_decide_eq_false_1 _)|by vm_compute]. Qed.

(** A word has one meaning. *)
Lemma level_is_inj s a b : level_is s a = true → level_is s b = true → str a = str b.
Proof.
  unfold level_is. rewrite !bool_decide_eq_true. intros E ?. rewrite E in *. by apply (inj (fmap Some)).
Qed.

(** The log level is decided by the accepted words: a word [validLogLevel]
    rejects selects the warning level, and an accepted one the level it names. *)
Theorem parseLogLevel_spec s :
  parseLogLevel s =
    if negb (validLogLevel s) then LevelWarn
    else if level_is s "error" then LevelError
    else if level_is s "warning" || level_is s "warn" then LevelWarn
    else if level_is s "info" then LevelInfo
    else LevelDebug.
Proof.
  unfold validLogLevel, parseLogLevel. pose proof (level_is_inj s) as Hinj.
  destruct (level_is s "debug") eqn:E1; destruct (level_is s "info") eqn:E2;
    destruct (level_is s "warn") eqn:E3; destruct (level_is s "warning") eqn:E4;
    destruct (level_is s "error") eqn:E5; simpl; try done;
    match goal with
    | H1 : level_is s ?a = true, H2 : level_is s ?b = true |- _ =>
        assert_fails (constr_eq a b); by discriminate (Hinj a b H1 H2)
    end.
Qed.
