(* ===== verification/Unmarshal.v ===== *)
(** * Unmarshal: the configuration's JSON object
    ([json.Unmarshal] into a [PluginConf], src/pkg/cni/config.go)

    How encoding/json stores the members of an object into the fields of the
    struct: a member selects a field by the exact name of its tag, or else by
    the first name that is equal under case folding; members are stored in the order
    of the text, null leaves a field as it is, and a value of the wrong type is
    an error.  The fields of the embedded [types.NetConf] are a parameter. *)

From S2P Require Import Prelude Bytes GoLib Cni Json Config.
From Stdlib Require Import Lia ZArith.
Open Scope Z_scope.

(** ** Names *)

Definition ascii_upper (c : byte) : byte := if decide (97 ≤ b2z c ≤ 122) then z2b (b2z c - 32) else c.

(** [foldName], for comparison with a name of ASCII characters: U+017F (bytes C5
    BF) is folded to "S" and U+212A (bytes E2 84 AA) to "K", and no other
    character outside ASCII to one in it. *)
Fixpoint fold_name (s : gostring) : gostring :=
  match s with
  | [] => []
  | xc5 :: xbf :: s => x53 :: fold_name s
  | xe2 :: x84 :: xaa :: s => x4b :: fold_name s
  | c :: s => ascii_upper c :: fold_name s
  end.

(** ** Integers *)

Definition decimal (ds : list byte) : Z := foldl (λ acc c, 10 * acc + (b2z c - 48)) 0 ds.

(** [strconv.ParseInt(lit, 10, 64)] of the text of a JSON number. *)
Definition ParseInt (lit : gostring) : option Z :=
  let '(sg, ds) := scan_sign [x2d] lit in
  if decide (ds = [] ∨ ¬ Forall (λ c, is_digit c = true) ds) then None
  else
    let z := if decide (sg = []) then decimal ds else - decimal ds in
    if decide (- 2 ^ 63 ≤ z < 2 ^ 63) then Some z else None.

(** ** Fields *)

Definition SyntaxError : error := EExt 100.
Definition UnmarshalTypeError (field : gostring) : error :=
  Errorf "json: cannot unmarshal value into Go struct field %s" [AStr field].

(** A field: the name of its tag, and what storing a value does. *)
Abbreviation store := (json → PluginConf → PluginConf * option error).
Abbreviation field := (gostring * store)%type.

Section fields.
Context `{CniTypes}.


Definition string_field (name : string) (set : gostring → PluginConf → PluginConf) : field :=
  (str name, λ j c,
    match j with
    | JNull => (c, None)
    | JStr s => (set s c, None)
    | _ => (c, Some (UnmarshalTypeError (str name)))
    end).

Definition int_field (name : string) (set : Z → PluginConf → PluginConf) : field :=
  (str name, λ j c,
    match j with
    | JNull => (c, None)
    | JNum lit => match ParseInt lit with
                  | Some z => (set z c, None)
                  | None => (c, Some (UnmarshalTypeError (str name)))
                  end
    | _ => (c, Some (UnmarshalTypeError (str name)))
    end).

(** The fields of the plugin's own, and those of [types.NetConf]. *)
Record own_conf := mkOwn {
  o_GroutSocketPath : gostring; o_Bridge : gostring; o_MTU : Z; o_InterfaceType : gostring; o_LogLevel : gostring }.
Definition own (c : PluginConf) : own_conf :=
  mkOwn (GroutSocketPath c) (Bridge c) (MTU c) (InterfaceType c) (LogLevel c).
Definition set_own (o : own_conf) (c : PluginConf) : PluginConf :=
  mkPluginConf (CNIVersion c) (Name c) (IPAM_conf c) (RawPrevResult c) (ValidAttachments c)
    (o_GroutSocketPath o) (o_Bridge o) (o_MTU o) (o_InterfaceType o) (o_LogLevel o).

Definition field_socket : field :=
  string_field "groutSocketPath" (λ s c, set_own (mkOwn s (Bridge c) (MTU c) (InterfaceType c) (LogLevel c)) c).
Definition field_bridge : field :=
  string_field "bridge" (λ s c, set_own (mkOwn (GroutSocketPath c) s (MTU c) (InterfaceType c) (LogLevel c)) c).
Definition field_mtu : field :=
  int_field "mtu" (λ z c, set_own (mkOwn (GroutSocketPath c) (Bridge c) z (InterfaceType c) (LogLevel c)) c).
Definition field_type : field :=
  string_field "interfaceType" (λ s c, set_own (mkOwn (GroutSocketPath c) (Bridge c) (MTU c) s (LogLevel c)) c).
Definition field_level : field :=
  string_field "logLevel" (λ s c, set_own (mkOwn (GroutSocketPath c) (Bridge c) (MTU c) (InterfaceType c) s) c).

Definition own_fields : list field := [field_socket; field_bridge; field_mtu; field_type; field_level].

(** The fields of the embedded [types.NetConf], outside the repository. *)
Variable net_fields : list field.

(** All fields, in the order of the struct; a field of the outer struct hides an
    embedded one of the same name. *)
Definition all_fields : list field :=
  filter (λ f, f.1 ∉ own_fields.*1) net_fields ++ own_fields.

Definition named (P : gostring → bool) : option field := head (filter (λ f, P f.1 = true) all_fields).

(** The field a member is stored in. *)
Definition find_field (key : gostring) : option field :=
  match named (λ n, bool_decide (n = key)) with
  | Some f => Some f
  | None => named (λ n, bool_decide (fold_name n = fold_name key))
  end.

(** [saveError] keeps the first error, and decoding goes on. *)
Definition first_error (e e' : option error) : option error := if e is Some _ then e else e'.

Definition store_member (r : PluginConf * option error) (m : gostring * json) : PluginConf * option error :=
  match find_field m.1 with
  | None => r
  | Some f => let '(c, e) := f.2 m.2 r.1 in (c, first_error r.2 e)
  end.

(** [json.Unmarshal(stdin, c)] *)
Definition Unmarshal (stdin : list byte) (c : PluginConf) : result PluginConf :=
  match parse stdin with
  | None => Err SyntaxError
  | Some JNull => Ok c
  | Some (JObj ms) => let '(c, e) := foldl store_member (c, None) ms in
                      match e with None => Ok c | Some e => Err e end
  | Some _ => Err (UnmarshalTypeError [])
  end.
End fields.

(** ** What the text says *)

Section said.
Context `{CniLib}.
Variable net_fields : list field.

(** Storing a field of [types.NetConf] leaves the plugin's own fields alone. *)
Definition embedded (fs : list field) : Prop := ∀ f j c, f ∈ fs → own (f.2 j c).1 = own c.
Hypothesis Hnet : embedded net_fields.

(** The value the last member that is not null gives to the field [name]. *)
Definition said_by (name : gostring) (m : gostring * json) : option json :=
  match m.2 with
  | JNull => None
  | j => if decide (fst <$> find_field net_fields m.1 = Some name) then Some j else None
  end.
Definition said (name : string) (ms : list (gostring * json)) : option json :=
  last (omap (said_by (str name)) ms).

Definition said_string (name : string) (dflt : gostring) (ms : list (gostring * json)) : gostring :=
  match said name ms with Some (JStr s) => s | _ => dflt end.
Definition said_int (name : string) (dflt : Z) (ms : list (gostring * json)) : Z :=
  match said name ms with Some (JNum lit) => default dflt (ParseInt lit) | _ => dflt end.

Definition own_said (o : own_conf) (ms : list (gostring * json)) : own_conf :=
  mkOwn (said_string "groutSocketPath" (o_GroutSocketPath o) ms) (said_string "bridge" (o_Bridge o) ms)
    (said_int "mtu" (o_MTU o) ms) (said_string "interfaceType" (o_InterfaceType o) ms)
    (said_string "logLevel" (o_LogLevel o) ms).

Lemma said_app name ms m :
  said name (ms ++ [m]) = match said_by (str name) m with Some j => Some j | None => said name ms end.
Proof.
  unfold said. rewrite omap_app. simpl. destruct (said_by (str name) m); [by rewrite last_snoc|by rewrite app_nil_r].
Qed.

Lemma named_elem P f : named net_fields P = Some f → f ∈ all_fields net_fields ∧ P f.1 = true.
Proof.
  unfold named. intros Hf. assert (f ∈ filter (λ f, P f.1 = true) (all_fields net_fields)) as Hin.
  { destruct (filter _ _); [done|]. injection Hf as <-. apply list_elem_of_here. }
  by apply list_elem_of_filter in Hin as [? ?].
Qed.

Lemma find_field_elem key f : find_field net_fields key = Some f → f ∈ all_fields net_fields.
Proof.
  unfold find_field. destruct (named _ _) as [g|] eqn:E.
  - intros [= <-]. by eapply named_elem.
  - intros Hf. by eapply named_elem.
Qed.

(** A field is the plugin's own, or it keeps the own fields and has another name. *)
Lemma all_fields_cases f :
  f ∈ all_fields net_fields → f ∈ own_fields ∨ (∀ j c, own (f.2 j c).1 = own c) ∧ f.1 ∉ own_fields.*1.
Proof.
  unfold all_fields. rewrite elem_of_app, list_elem_of_filter. intros [[Hn Hf]|Hf]; [right|by left].
  split; [|done]. intros j c. by apply Hnet.
Qed.

Lemma said_by_other name k j :
  fst <$> find_field net_fields k ≠ Some name → said_by name (k, j) = None.
Proof. intros Hn. unfold said_by. simpl. by destruct j; rewrite ?decide_False. Qed.

(** What storing one member does to the own fields, if it is no error. *)
Lemma store_member_own r m c' :
  store_member net_fields r m = (c', None) →
  r.2 = None ∧ ∀ o ms, own r.1 = own_said o ms → own c' = own_said o (ms ++ [m]).
Proof.
  unfold store_member. destruct r as [c e], m as [k j]. unfold own_said, said_string, said_int. simpl.
  setoid_rewrite said_app.
  destruct (find_field net_fields k) as [f|] eqn:Ef.
  2:{ intros [= -> ->]. split; [done|]. intros o ms Ho. by rewrite !said_by_other by (by rewrite Ef). }
  destruct (f.2 j c) as [c1 e1] eqn:Ec. unfold first_error. destruct e as [e|]; [done|]. intros [= <- ->].
  split; [done|]. intros o ms Ho. destruct (all_fields_cases f) as [Hf|[Hown Hf]]; [by eapply find_field_elem|..].
  - unfold said_by, own in *. simpl. rewrite Ef. injection Ho as E1 E2 E3 E4 E5. unfold own_fields in Hf. simpl.
    repeat (apply elem_of_cons in Hf as [->|Hf]; [
      simpl in Ec; destruct j as [|b|lit|s|l|l]; simplify_eq/=;
      try (destruct (ParseInt lit) eqn:Ep; simplify_eq/=; rewrite ?Ep);
      by rewrite ?E1, ?E2, ?E3, ?E4, ?E5|]).
    by apply not_elem_of_nil in Hf.
  - assert (own c1 = own c) as -> by (rewrite <-(Hown j c); by rewrite Ec). rewrite Ho.
    assert (∀ n, n ∈ own_fields.*1 → said_by n (k, j) = None) as Hnone.
    { intros n Hin. apply said_by_other. rewrite Ef. by intros [= <-]. }
    rewrite !Hnone; [done|..]; simpl; set_solver.
Qed.

Lemma store_members_own ms c c' :
  foldl (store_member net_fields) (c, None) ms = (c', None) → own c' = own_said (own c) ms.
Proof.
  revert c'. induction ms as [|m ms IH] using rev_ind; intros c'; [by intros [= <-]|].
  rewrite foldl_app. simpl. intros Hm. destruct (store_member_own _ _ _ Hm) as [E Ho].
  destruct (foldl (store_member net_fields) (c, None) ms) as [c1 e1]. simpl in *. subst e1. by apply Ho, IH.
Qed.

Lemma Unmarshal_ok s ms c c' :
  document s (JObj ms) → Unmarshal net_fields s c = Ok c' ↔ foldl (store_member net_fields) (c, None) ms = (c', None).
Proof.
  intros Hd%parse_document. unfold Unmarshal. rewrite Hd.
  destruct (foldl _ _ ms) as [c1 [e|]]; naive_solver.
Qed.

(** C31: The configuration is what its text says.  When [LoadConfig] accepts a text,
    whatever its layout, the order of its members, their spelling and the
    members it does not know: each of the plugin's own fields has the value of
    the last member that names it (by its exact name, or else up to case) and
    is not null; a field that no member names has its documented default, the
    socket path [/run/grout/grout.sock], the bridge of the network's name, no
    MTU, a TAP, no log level. *)
Theorem LoadConfig_reads_text s ms conf :
  document s (JObj ms) → LoadConfig (Unmarshal net_fields) s = Ok conf →
  GroutSocketPath conf = said_string "groutSocketPath" DefaultSocketPath ms ∧
  Bridge conf = (let b := said_string "bridge" [] ms in if decide (b = []) then bridgeNameFor (Name conf) else b) ∧
  MTU conf = said_int "mtu" 0 ms ∧
  InterfaceType conf = (let t := said_string "interfaceType" [] ms in if decide (t = []) then InterfaceTypeTAP else t) ∧
  LogLevel conf = said_string "logLevel" [] ms.
Proof.
  intros Hd (c & Hu & _ & ->)%LoadConfig_ok. apply (Unmarshal_ok s ms _ c Hd) in Hu.
  apply store_members_own in Hu. unfold own, own_said in Hu. injection Hu as E1 E2 E3 E4 E5.
  destruct (with_defaults_fields c) as (_ & -> & -> & -> & -> & _). cbv zeta. rewrite <-E1, <-E2, <-E3, <-E4, <-E5.
  unfold with_defaults. by repeat case_decide.
Qed.

(** An own field and a value that is not of its type. *)
Definition misfit (f : field) (j : json) : Prop := f ∈ own_fields ∧ ∀ c, is_Some (f.2 j c).2.

Lemma store_members_error r ms :
  is_Some r.2 → is_Some (foldl (store_member net_fields) r ms).2.
Proof.
  revert r. induction ms as [|m ms IH]; intros r Hr; [done|]. simpl. apply IH. unfold store_member.
  destruct (find_field net_fields m.1) as [f|]; [|done]. destruct (f.2 m.2 r.1) as [c e].
  destruct Hr as [e' He]. simpl. rewrite He. by eexists.
Qed.

Lemma store_members_misfit r ms m f :
  m ∈ ms → find_field net_fields m.1 = Some f → misfit f m.2 → is_Some (foldl (store_member net_fields) r ms).2.
Proof.
  intros Hm Hf [_ Hmis]. revert r. induction ms as [|m' ms IH]; intros r; [by apply not_elem_of_nil in Hm|].
  apply elem_of_cons in Hm as [<-|Hm]; [|by apply IH]. simpl. apply store_members_error. unfold store_member. rewrite Hf.
  specialize (Hmis r.1). destruct (f.2 m.2 r.1) as [c e]. simpl in *. by destruct r.2.
Qed.

(** C33: Texts [LoadConfig] refuses before it looks at any value: a text that is
    not a JSON document is a syntax error (a misspelled literal, a missing
    bracket, more than 10000 nested ones, anything after the value); a document
    that is neither an object nor null is a type error; and so is an object with a
    member for one of the plugin's own fields that is not of the field's type, such as
    a number for a string, a fraction or a number out of range for the MTU, even
    when a later member names the same field. *)
Theorem LoadConfig_refuses_text s :
  ((∀ j, ¬ document s j) →
     LoadConfig (Unmarshal net_fields) s = Err (Errorf "parsing CNI config: %w" [AErr SyntaxError])) ∧
  (∀ j, document s j → j ≠ JNull → (∀ ms, j ≠ JObj ms) →
     LoadConfig (Unmarshal net_fields) s = Err (Errorf "parsing CNI config: %w" [AErr (UnmarshalTypeError [])])) ∧
  (∀ ms m f, document s (JObj ms) → m ∈ ms → find_field net_fields m.1 = Some f → misfit f m.2 →
     ∃ e, LoadConfig (Unmarshal net_fields) s = Err (Errorf "parsing CNI config: %w" [AErr e])).
Proof.
  unfold LoadConfig, Unmarshal. split_and!.
  - intros Hno. destruct (parse s) as [j|] eqn:E; [|done]. by apply parse_document in E as ?%Hno.
  - intros j Hd%parse_document Hn Ho. rewrite Hd. destruct j; try done. by destruct (Ho members).
  - intros ms m f Hd%parse_document Hm Hf Hmis. rewrite Hd.
    destruct (store_members_misfit (default_conf, None) ms m f Hm Hf Hmis) as [e He].
    destruct (foldl _ _ ms) as [c e']. simpl in He. subst e'. by exists e.
Qed.
End said.

(** ** Writing a configuration *)

(** The decimal digits of a number of at most [n] digits. *)
Fixpoint dec_digits (n : nat) (z : Z) : list byte :=
  match n with
  | O => []
  | S n => if decide (z < 10) then [z2b (48 + z)] else dec_digits n (z / 10) ++ [z2b (48 + z mod 10)]
  end.

Definition print_int (z : Z) : gostring :=
  if decide (z < 0) then x2d :: dec_digits 20 (- z) else dec_digits 20 z.

Lemma digit_byte z : 0 ≤ z < 10 → is_digit (z2b (48 + z)) = true ∧ b2z (z2b (48 + z)) - 48 = z.
Proof. intros Hz. unfold is_digit. rewrite b2z_z2b_small by lia. split; [apply bool_decide_eq_true; lia|lia]. Qed.

Lemma dec_digits_spec n z :
  0 ≤ z < 10 ^ Z.of_nat n → (0 < n)%nat →
  digits (dec_digits n z) ∧ decimal (dec_digits n z) = z ∧
  (dec_digits n z = [x30] ∨ head (dec_digits n z) ≠ Some x30).
Proof.
  revert z. induction n as [|n IH]; intros z Hz Hn; [lia|]. simpl. case_decide as Hlt.
  - destruct (digit_byte z) as [Hd Hv]; [lia|]. split_and!.
    + split; [done|by repeat constructor].
    + unfold decimal. simpl. lia.
    + destruct (decide (z = 0)) as [->|Hne]; [by left|]. right. intros [= E].
      rewrite E in Hv. change (b2z x30 - 48) with 0 in Hv. lia.
  - destruct (digit_byte (z mod 10)) as [Hd Hv]; [apply Z.mod_pos_bound; lia|].
    assert (0 < n)%nat as Hn'. { destruct n; [change (10 ^ Z.of_nat 1) with 10 in Hz; lia|lia]. }
    assert (0 < z / 10 < 10 ^ Z.of_nat n) as Hz'.
    { split; [apply Z.div_str_pos; lia|]. apply Z.div_lt_upper_bound; [lia|].
      rewrite Nat2Z.inj_succ, Z.pow_succ_r in Hz by lia. lia. }
    destruct (IH (z / 10)) as ([Hne Hall] & Hval & Hh); [lia|done|]. split_and!.
    + split; [by destruct (dec_digits n (z / 10))|]. apply Forall_app. split; [done|by repeat constructor].
    + unfold decimal. rewrite foldl_app. fold (decimal (dec_digits n (z / 10))). rewrite Hval. simpl. rewrite Hv.
      symmetry. apply Z.div_mod. lia.
    + right. destruct Hh as [E|Hh].
      * rewrite E in Hval. change (decimal [x30]) with 0 in Hval. lia.
      * by destruct (dec_digits n (z / 10)).
Qed.

Definition magnitude (z : Z) : list byte := dec_digits 20 (if decide (z < 0) then - z else z).

Lemma print_int_eq z : print_int z = (if decide (z < 0) then [x2d] else []) ++ magnitude z.
Proof. unfold print_int, magnitude. by case_decide. Qed.

Lemma magnitude_spec z :
  - 2 ^ 63 ≤ z < 2 ^ 63 →
  digits (magnitude z) ∧ decimal (magnitude z) = (if decide (z < 0) then - z else z) ∧
  (magnitude z = [x30] ∨ head (magnitude z) ≠ Some x30).
Proof. intros Hz. apply dec_digits_spec; [case_decide; lia|lia]. Qed.
#[local] Opaque magnitude.

Lemma print_int_number z : - 2 ^ 63 ≤ z < 2 ^ 63 → number (print_int z).
Proof.
  intros Hz. destruct (magnitude_spec z Hz) as (Hd & _ & Hh). rewrite print_int_eq.
  exists (if decide (z < 0) then [x2d] else []), (magnitude z), [], []. rewrite app_nil_r.
  split_and!; [done|case_decide; auto|destruct Hh; auto|by left|by left].
Qed.

Lemma ParseInt_print z : - 2 ^ 63 ≤ z < 2 ^ 63 → ParseInt (print_int z) = Some z.
Proof.
  intros Hz. destruct (magnitude_spec z Hz) as ([Hne Hd] & Hv & _). rewrite print_int_eq. unfold ParseInt.
  rewrite scan_sign_complete.
  - rewrite decide_False by (intros [?|?]; contradiction). rewrite Hv. destruct (decide (z < 0)) as [Hneg|Hneg].
    + rewrite (decide_False (P := [x2d] = [])), Z.opp_involutive by done. by rewrite decide_True.
    + rewrite (decide_True (P := [] = [])) by done. by rewrite decide_True.
  - case_decide; [right; exists x2d; split; [left|done]|by left].
  - destruct Hd as [|c l Hc _]; [done|]. intros ? [= <-]. apply digit_not_in; [done|by repeat constructor].
Qed.

Section writing.
Context `{CniLib}.
Variable net_fields : list field.

(** The members of the plugin's own fields. *)
Definition own_members (o : own_conf) : list (gostring * json) := [
  (field_socket.1, JStr (o_GroutSocketPath o)); (field_bridge.1, JStr (o_Bridge o));
  (field_mtu.1, JNum (print_int (o_MTU o))); (field_type.1, JStr (o_InterfaceType o));
  (field_level.1, JStr (o_LogLevel o))].

(** The exact name of an own field selects it, whatever [types.NetConf] has. *)
Lemma find_own_field f : f ∈ own_fields → find_field net_fields f.1 = Some f.
Proof.
  intros Hf. unfold find_field, named, all_fields. rewrite filter_app, list_filter_filter, list_filter_none, app_nil_l.
  - unfold own_fields in *. repeat (apply elem_of_cons in Hf as [->|Hf]; [done|]). by apply not_elem_of_nil in Hf.
  - intros g _ [E Hn]. apply bool_decide_eq_true in E. apply Hn. rewrite E. by apply list_elem_of_fmap_2.
Qed.

Lemma store_own r f j c :
  f ∈ own_fields → f.2 j r = (c, None) → store_member net_fields (r, None) (f.1, j) = (c, None).
Proof. intros Hf E. unfold store_member. cbn [fst snd]. by rewrite find_own_field, E. Qed.

Lemma store_own_members o c :
  - 2 ^ 63 ≤ o_MTU o < 2 ^ 63 → foldl (store_member net_fields) (c, None) (own_members o) = (set_own o c, None).
Proof.
  intros Hm. unfold own_members. cbn [foldl].
  erewrite (store_own _ field_socket); [|by left|reflexivity].
  erewrite (store_own _ field_bridge); [|by right; left|reflexivity].
  erewrite (store_own _ field_mtu); [|by do 2 right; left|by simpl; rewrite ParseInt_print].
  erewrite (store_own _ field_type); [|by do 3 right; left|reflexivity].
  erewrite (store_own _ field_level); [|by do 4 right; left|reflexivity].
  by destruct o.
Qed.

(** What an own configuration must satisfy to be written. *)
Record own_writable (o : own_conf) : Prop := {
  ow_socket : utf8 (o_GroutSocketPath o); ow_bridge : utf8 (o_Bridge o); ow_mtu : - 2 ^ 63 ≤ o_MTU o < 2 ^ 63;
  ow_type : utf8 (o_InterfaceType o); ow_level : utf8 (o_LogLevel o) }.

Lemma utf8_ascii s : Forall (λ c, b2z c < 128) s → utf8 s.
Proof. induction 1; by constructor. Qed.

Lemma own_members_writable d o :
  own_writable o → Forall (λ m, utf8 m.1 ∧ writable d m.2) (own_members o).
Proof.
  intros [H1 H2 H3 H4 H5]. pose proof (print_int_number _ H3).
  repeat constructor; cbn [fst snd]; try (apply utf8_ascii; by repeat constructor); by destruct d.
Qed.

(** C32: A configuration that is written is read back.  For every acceptable
    configuration [c] whose strings are UTF-8: the text of an object with members
    [net_ms] that [types.NetConf] stores as the fields it has in [c], followed
    by the plugin's own members of [c], is accepted, and [LoadConfig] returns
    [c] with its empty bridge name and interface type filled in. *)
Theorem LoadConfig_roundtrip net_ms c c0 :
  acceptable c → own_writable (own c) → Forall (λ m, utf8 m.1 ∧ writable (pred max_depth) m.2) net_ms →
  foldl (store_member net_fields) (default_conf, None) net_ms = (c0, None) → set_own (own c) c0 = c →
  LoadConfig (Unmarshal net_fields) (print (JObj (net_ms ++ own_members (own c)))) = Ok (with_defaults c).
Proof.
  intros Ha Ho Hn Hs Hc. apply LoadConfig_ok. exists c. split_and!; [|done|done].
  apply (Unmarshal_ok net_fields _ (net_ms ++ own_members (own c))).
  - apply print_document, writable_object, Forall_app. split; [done|by apply own_members_writable].
  - rewrite foldl_app, Hs, store_own_members by apply Ho. by rewrite Hc.
Qed.
End writing.
