(* ===== verification/Lock.v ===== *)
(** * Lock: the file lock of CNI calls, one per grout socket (src/pkg/cni/lock.go) *)

From S2P Require Import Prelude Bytes GoLib Cni Config.
Open Scope Z_scope.

Definition defaultLockPath : gostring := str "/var/run/grout-k-cni.lock".

(** A [time.Duration]: nanoseconds. *)
Definition lockAcquireTimeout : Z := 60 * 1000000000.

(** The lock path of a grout socket (src/pkg/cni/netns.go). *)
Definition lockPathForSocket (socketPath : gostring) : gostring :=
  let socketPath := if decide (socketPath = []) then DefaultSocketPath else socketPath in
  socketPath ++ str ".lock".

Section lock.
Context `{CniTypes}.

(** A [FileLock] is its file descriptor. *)
Definition NewFileLock (path : gostring) : cni (result Z) :=
  let path := if decide (path = []) then defaultLockPath else path in
  let dir := Dir path in
  r ← (if decide (dir ≠ []) then op_call (MkdirAll dir) else mret (Ok tt));
  match r with
  | Err e => mret (Err (Errorf "creating lock directory %s: %w" [AStr dir; AErr e]))
  | Ok _ =>
      fd ← op_call (OpenLock path);
      mret (map_err (λ e, Errorf "opening lock file %s: %w" [AStr path; AErr e]) fd)
  end.

Definition FileLock_Lock (fd : Z) : cni (result unit) :=
  r ← op_call (FlockEx fd);
  mret match r with
       | Locked => Ok tt
       | LockErr e => Err (Errorf "acquiring exclusive lock: %w" [AErr e])
       | LockTimeout => Err (Errorf "timed out waiting for lock after %v" [AInt lockAcquireTimeout])
       end.

Definition FileLock_Unlock (fd : Z) : cni (result unit) := op_call (FlockUn fd).
Definition FileLock_Close (fd : Z) : cni (result unit) := op_call (CloseFd fd).

(** The opening of every handler: create and acquire the lock, run the body, and
    in the deferred function, also after a panic, release and close it. *)
Definition with_lock {A} (socketPath : gostring) (body : cni (outcome (result A)))
    : cni (outcome (result A)) :=
  lock ← NewFileLock (lockPathForSocket socketPath);
  match lock with
  | Err e => mret (Returns (Err (Errorf "creating lock: %w" [AErr e])))
  | Ok fd =>
      acquired ← FileLock_Lock fd;
      match acquired with
      | Err e =>
          _ ← FileLock_Close fd;
          mret (Returns (Err (Errorf "acquiring lock: %w" [AErr e])))
      | Ok _ =>
          r ← body;
          _ ← FileLock_Unlock fd;
          _ ← FileLock_Close fd;
          mret r
      end
  end.
End lock.
