(* ===== verification/Netns.v ===== *)
(** * Netns: the pod's side of an interface (src/pkg/cni/netns.go) *)

From S2P Require Import Prelude Bytes NetIP GoLib Cni.
From Stdlib Require Import Lia ZArith.
Open Scope Z_scope.

(** [net.HardwareAddr.String()]: two hexadecimal digits per byte, colons between. *)
Fixpoint HardwareAddr_String (mac : list byte) : gostring :=
  match mac with
  | [] => []
  | b :: rest =>
      hex_digit (b2z b / 16) :: hex_digit (b2z b mod 16) ::
      match rest with [] => [] | _ => x3a :: HardwareAddr_String rest end
  end.

Definition FlagUp : Z := 1.

Section netns.
Context `{CniTypes}.

(** ** The pod's MAC *)

(** The two loops over [result.IPs]: the first IPv4 address, or else the first
    address of 16 bytes; nil entries are skipped. *)
Fixpoint first_ip (f : IP → option IP) (ips : list (option IPConfig)) : option IP :=
  match ips with
  | [] => None
  | None :: ips => first_ip f ips
  | Some ipc :: ips =>
      match f (IPNet_IP (ipc_Address ipc)) with
      | Some ip => Some ip
      | None => first_ip f ips
      end
  end.

(** [result == nil] is [None]. *)
Definition podMACFromResult (result : option Result) : option (list byte) :=
  match result with
  | None => None
  | Some r =>
      match first_ip To4 (r_IPs r) with
      | Some ip4 => Some ([x02; x00] ++ ip4)
      | None =>
          match first_ip To16 (r_IPs r) with
          | Some ip6 => Some ([x02; x00] ++ drop 12 ip6)
          | None => None
          end
      end
  end.

(** ** Namespaces *)

(** Sequencing of fallible steps inside the plugin: [if err != nil { return wrapped }]. *)
Definition try_ {A B} (m : cni (result A)) (f : error → error) (k : A → cni (result B)) : cni (result B) :=
  r ← m;
  match r with
  | Err e => mret (Err (f e))
  | Ok a => k a
  end.

Definition moveLinkToNamespace (linkName netnsPath : gostring) : cni (result unit) :=
  try_ (op_call (LinkByName linkName)) (λ e, Errorf "finding link %q: %w" [AStr linkName; AErr e]) (λ link,
  try_ (op_call (GetNS netnsPath)) (λ e, Errorf "opening netns %s: %w" [AStr netnsPath; AErr e]) (λ nsHandle,
  r ← op_call (LinkSetNsFd link nsHandle);
  _ ← op_call (NsClose nsHandle);
  mret (map_err (λ e, Errorf "moving link %q to netns %s: %w" [AStr linkName; AStr netnsPath; AErr e]) r))).

(** [nsHandle.Do(f)]: [f] runs inside the namespace, unless entering it fails. *)
Definition ns_Do {A} (n : NetNS) (fail : error → A) (f : cni A) : cni A :=
  r ← op_call (NsEnter n);
  match r with
  | Err e => mret (fail e)
  | Ok _ =>
      a ← f;
      _ ← op_call (NsLeave n);
      mret a
  end.

(** [result.Interfaces[0].Mac = mac] when there is an interface. *)
Definition set_mac (r : Result) (mac : gostring) : Result :=
  match r_Interfaces r with
  | [] => r
  | i :: rest => mkResult (r_CNIVersion r)
                 (mkInterface (i_Name i) mac (i_Sandbox i) (i_SocketPath i) :: rest)
                 (r_IPs r) (r_Routes r) (r_DNS r)
  end.

(** The link under its pod name: renamed when the names differ. *)
Definition rename_link (hostIfName podIfName : gostring) (link : Link) : cni (result Link) :=
  if decide (hostIfName ≠ podIfName) then
    try_ (op_call (LinkSetDown link))
      (λ e, Errorf "setting %q down for rename: %w" [AStr hostIfName; AErr e]) (λ _,
    try_ (op_call (LinkSetName link podIfName))
      (λ e, Errorf "renaming %q to %q: %w" [AStr hostIfName; AStr podIfName; AErr e]) (λ _,
    try_ (op_call (LinkByName podIfName))
      (λ e, Errorf "re-finding renamed link %q: %w" [AStr podIfName; AErr e]) (λ link,
    mret (Ok link))))
  else mret (Ok link).

Definition set_link_mtu (podIfName : gostring) (link : Link) (mtu : Z) : cni (result unit) :=
  if decide (mtu > 0) then
    r ← op_call (LinkSetMTU link mtu);
    mret (map_err (λ e, Errorf "setting MTU %d on %q: %w" [AInt mtu; AStr podIfName; AErr e]) r)
  else mret (Ok tt).

Definition set_link_mac (podIfName : gostring) (link : Link) (result : Result) : cni (Prelude.result unit) :=
  match podMACFromResult (Some result) with
  | Some mac =>
      r ← op_call (LinkSetHardwareAddr link mac);
      mret (map_err (λ e, Errorf "setting MAC on %q: %w" [AStr podIfName; AErr e]) r)
  | None => mret (Ok tt)
  end.

(** The function literal run inside the pod's namespace; the returned result is
    the caller's, with the MAC of its first interface filled in. *)
Definition configure_in_ns (hostIfName podIfName : gostring) (mtu : Z) (result : Result)
    : cni (Prelude.result Result) :=
  try_ (op_call (LinkByName hostIfName))
    (λ e, Errorf "finding moved link %q in pod netns: %w" [AStr hostIfName; AErr e]) (λ link,
  try_ (rename_link hostIfName podIfName link) (λ e, e) (λ link,
  try_ (set_link_mtu podIfName link mtu) (λ e, e) (λ _,
  try_ (set_link_mac podIfName link result) (λ e, e) (λ _,
  try_ (op_call (ConfigureIface podIfName result))
    (λ e, Errorf "configuring pod interface %q: %w" [AStr podIfName; AErr e]) (λ _,
  l ← op_call (LinkByName podIfName);
  mret (Ok match l with
           | Ok l => set_mac result (HardwareAddr_String (link_hwaddr l))
           | Err _ => result
           end)))))).

Definition configurePodInterface (netnsPath hostIfName podIfName : gostring) (mtu : Z) (result : Result)
    : cni (Prelude.result Result) :=
  try_ (op_call (GetNS netnsPath)) (λ e, Errorf "opening netns %s: %w" [AStr netnsPath; AErr e]) (λ nsHandle,
  r ← ns_Do nsHandle Err (configure_in_ns hostIfName podIfName mtu result);
  _ ← op_call (NsClose nsHandle);
  mret r).

(** ** Verification *)

Definition addrPresent (addrs : list (option IPNet)) (ip : IP) : bool :=
  existsb (λ a, match a with Some n => IP_Equal (IPNet_IP n) ip | None => false end) addrs.

(** The loop over the expected addresses: the first that is missing. *)
Fixpoint missing_addr (addrs : list (option IPNet)) (expected : list IPNet) : option IPNet :=
  match expected with
  | [] => None
  | want :: expected =>
      if addrPresent addrs (IPNet_IP want) then missing_addr addrs expected else Some want
  end.

Definition verify_in_ns (netnsPath podIfName : gostring) (expectedIPs : list IPNet)
    : cni (Prelude.result unit) :=
  try_ (op_call (LinkByName podIfName))
    (λ e, Errorf "pod interface %q not found in netns %s: %w" [AStr podIfName; AStr netnsPath; AErr e]) (λ link,
  if decide (Z.land (link_flags link) FlagUp = 0) then
    mret (Err (Errorf "pod interface %q is not administratively up" [AStr podIfName]))
  else if decide (expectedIPs = []) then mret (Ok tt)
  else
    try_ (op_call (AddrList link))
      (λ e, Errorf "listing addresses on %q: %w" [AStr podIfName; AErr e]) (λ addrs,
    match missing_addr addrs expectedIPs with
    | Some want => mret (Err (Errorf "pod interface %q missing expected address %s"
                                [AStr podIfName; ANet (IPNet_IP want) (IPNet_Mask want)]))
    | None => mret (Ok tt)
    end)).

Definition verifyPodInterface (netnsPath podIfName : gostring) (expectedIPs : list IPNet)
    : cni (Prelude.result unit) :=
  try_ (op_call (GetNS netnsPath)) (λ e, Errorf "opening netns %s: %w" [AStr netnsPath; AErr e]) (λ nsHandle,
  r ← ns_Do nsHandle Err (verify_in_ns netnsPath podIfName expectedIPs);
  _ ← op_call (NsClose nsHandle);
  mret r).

Definition linkExists (linkName : gostring) : cni bool :=
  r ← op_call (LinkByName linkName);
  mret (is_ok r).

Definition fileExists (path : gostring) : cni bool := op_call (Stat path).
End netns.
