(* ===== verification/Handler.v ===== *)
(** * Handler: CNI ADD, DEL, CHECK and GC (src/pkg/cni/handler.go) *)

From stdpp Require Import pretty.
From S2P Require Import Prelude Bytes NetIP Types GoLib Cni PortName Config Lock Netns.
From Stdlib Require Import Lia ZArith.
Open Scope Z_scope.

Section types.
Context `{CniTypes}.

(** ** The injectable functions and the inputs of the handlers

    A nil function is [None]: the production implementation is used.  The
    client of a configuration is the [GroutClient] operations of [CniSig].  A
    [ConfigurePodIfaceFunc] also returns the result it may have changed. *)
Definition IPAMAddFunc : Type := PluginConf → CmdArgs → cni (result RawResult).
Definition IPAMDelFunc : Type := PluginConf → CmdArgs → cni unit.
Definition MoveLinkFunc : Type := gostring → gostring → cni (result unit).
Definition ConfigurePodIfaceFunc : Type :=
  gostring → gostring → gostring → Z → Result → cni (result Result).
Definition VerifyPodIfaceFunc : Type := gostring → gostring → list IPNet → cni (result unit).
Definition IPAMGCFunc : Type := PluginConf → CmdArgs → cni (result unit).

Record AddConfig := mkAddConfig {
  add_Config : PluginConf; add_Args : CmdArgs; add_IPAMAdd : option IPAMAddFunc;
  add_IPAMDel : option IPAMDelFunc; add_MoveLink : option MoveLinkFunc;
  add_ConfigurePodIface : option ConfigurePodIfaceFunc }.

Record DelConfig := mkDelConfig {
  del_Config : PluginConf; del_Args : CmdArgs; del_IPAMDel : option IPAMDelFunc;
  del_VerifyPodIface : option VerifyPodIfaceFunc }.

Record GCConfig := mkGCConfig {
  gc_Config : PluginConf; gc_Args : CmdArgs; gc_IPAMGC : option IPAMGCFunc }.
End types.

(** ** Pure helpers *)

Definition vhostSocketPath (groutSocketPath tapName : gostring) : gostring :=
  Join [Dir groutSocketPath; str "vhost"; tapName ++ str ".sock"].

Fixpoint findBridgeID (ifaces : list InterfaceInfo) (name : gostring) : option Z :=
  match ifaces with
  | [] => None
  | iface :: ifaces =>
      if decide (if_Name iface = name ∧ if_Type iface = InterfaceTypeBridge)
      then Some (if_ID iface) else findBridgeID ifaces name
  end.

Fixpoint findByName (ifaces : list InterfaceInfo) (name : gostring) : option Z :=
  match ifaces with
  | [] => None
  | iface :: ifaces =>
      if decide (if_Name iface = name) then Some (if_ID iface) else findByName ifaces name
  end.

(** [fmt.Sprintf("%d", z)] *)
Definition dec (z : Z) : gostring := str (pretty z).

Fixpoint strings_Join (sep : gostring) (parts : list gostring) : gostring :=
  match parts with
  | [] => []
  | [p] => p
  | p :: parts => p ++ sep ++ strings_Join sep parts
  end.

Definition summarizeIfaces (ifaces : list InterfaceInfo) : gostring :=
  strings_Join (str ", ")
    ((λ i, if_Name i ++ str "(id=" ++ dec (if_ID i) ++ str ",type=" ++ dec (if_Type i)
           ++ str ",domain=" ++ dec (if_Domain i) ++ str ")") <$> ifaces).

(** [gw[len(gw)-1]++]: [None] is the index panic on an empty slice. *)
Fixpoint incr_last (ip : IP) : option IP :=
  match ip with
  | [] => None
  | [b] => Some [z2b (b2z b + 1)]
  | b :: ip => cons b <$> incr_last ip
  end.

Section helpers.
Context `{CniTypes}.

(** The gateway of one address: IPAM's, or the address after the network's. *)
Definition gateway_of (ip : IPConfig) : option IP :=
  match ipc_Gateway ip with
  | Some gw => Some gw
  | None =>
      incr_last (default [] (IP_Mask (IPNet_IP (ipc_Address ip)) (IPNet_Mask (ipc_Address ip))))
  end.

(** The loop of [gatewaysFor]; [None] is a panic (a nil entry, or no gateway
    and a mask that does not fit the address). *)
Fixpoint gateways_loop (seen4 seen6 : bool) (ips : list (option IPConfig)) : option (list IPNet) :=
  match ips with
  | [] => Some []
  | None :: _ => None
  | Some ip :: ips =>
      let isV4 := bool_decide (is_Some (To4 (IPNet_IP (ipc_Address ip)))) in
      if (isV4 && seen4) || (negb isV4 && seen6) then gateways_loop seen4 seen6 ips
      else
        gw ← gateway_of ip;
        gws ← gateways_loop (seen4 || isV4) (seen6 || negb isV4) ips;
        Some (mkIPNet gw (IPNet_Mask (ipc_Address ip)) :: gws)
  end.

Definition gatewaysFor (result : Result) : option (list IPNet) :=
  gateways_loop false false (r_IPs result).

(** [ipc.Interface = &ifaceIdx] for every entry; [None] is the panic on a nil one. *)
Fixpoint point_ips (idx : Z) (ips : list (option IPConfig)) : option (list (option IPConfig)) :=
  match ips with
  | [] => Some []
  | None :: _ => None
  | Some ip :: ips =>
      cons (Some (mkIPConfig (Some idx) (ipc_Address ip) (ipc_Gateway ip))) <$> point_ips idx ips
  end.

Definition vhostResult (args : CmdArgs) (ipamResult : Result) (socketPath : gostring) : option Result :=
  ips ← point_ips 0 (r_IPs ipamResult);
  Some (mkResult (r_CNIVersion ipamResult) [mkInterface (IfName args) [] [] socketPath] ips
          (r_Routes ipamResult) (r_DNS ipamResult)).

Definition podResult (args : CmdArgs) (ipamResult : Result) : option Result :=
  ips ← point_ips 0 (r_IPs ipamResult);
  Some (mkResult (r_CNIVersion ipamResult) [mkInterface (IfName args) [] (Netns args) []] ips
          (r_Routes ipamResult) (r_DNS ipamResult)).

(** ** IPAM *)

Definition delegateIPAMAdd (config : PluginConf) (args : CmdArgs) : cni (result RawResult) :=
  r ← op_call (DelegateAdd (IPAM_Type (IPAM_conf config)) (StdinData args));
  mret (map_err (λ e, Errorf "invoking IPAM plugin %q: %w" [AStr (IPAM_Type (IPAM_conf config)); AErr e]) r).

Definition delegateIPAMDel (config : PluginConf) (args : CmdArgs) : cni unit :=
  _ ← op_call (DelegateDel (IPAM_Type (IPAM_conf config)) (StdinData args));
  mret tt.

Definition delegateIPAMGC (config : PluginConf) (args : CmdArgs) : cni (result unit) :=
  r ← op_call (DelegateGC (IPAM_Type (IPAM_conf config)) (StdinData args));
  mret (map_err (λ e, Errorf "invoking IPAM plugin %q GC: %w" [AStr (IPAM_Type (IPAM_conf config)); AErr e]) r).

Definition ipamDel (fn : option IPAMDelFunc) (config : PluginConf) (args : CmdArgs) : cni unit :=
  default delegateIPAMDel fn config args.

Definition gcIPAM (fn : option IPAMGCFunc) (config : PluginConf) (args : CmdArgs) : cni unit :=
  _ ← default delegateIPAMGC fn config args;
  mret tt.

(** ** Bridges *)

Definition ensureBridge (name : gostring) : cni (result Z) :=
  l ← op_call (GInterfaceList (mkInterfaceListRequest 0));
  match l with
  | Err e => mret (Err (Errorf "listing interfaces: %w" [AErr e]))
  | Ok ifaces =>
      match findBridgeID ifaces name with
      | Some id => mret (Ok id)
      | None =>
          resp ← op_call (GInterfaceAdd (mkInterfaceAddRequest name InterfaceTypeBridge 0 0 [] None));
          match resp with
          | Ok resp => mret (Ok (IfaceID resp))
          | Err err =>
              l2 ← op_call (GInterfaceList (mkInterfaceListRequest 0));
              let failed ifaces :=
                Err (Errorf "creating bridge (interfaces seen: %s): %w"
                       [AStr (summarizeIfaces ifaces); AErr err]) in
              match l2 with
              | Ok ifaces2 =>
                  match findByName ifaces2 name with
                  | Some id => mret (Ok id)
                  | None => mret (failed ifaces2)
                  end
              | Err _ => mret (failed ifaces)
              end
          end
      end
  end.

(** What the loop of [gcBridgeIfEmpty] finds: whether to go on to the deletion. *)
Fixpoint gc_scan (bridgeID : Z) (bridgeFound : bool) (ifaces : list InterfaceInfo) : bool :=
  match ifaces with
  | [] => bridgeFound
  | iface :: ifaces =>
      if decide (if_ID iface = bridgeID ∧ if_Type iface ≠ InterfaceTypeBridge) then false
      else if decide (if_Domain iface = bridgeID) then false
      else gc_scan bridgeID (bridgeFound || bool_decide (if_ID iface = bridgeID)) ifaces
  end.

Definition gcBridgeIfEmpty (bridgeID : Z) : cni unit :=
  l ← op_call (GInterfaceList (mkInterfaceListRequest 0));
  match l with
  | Err _ => mret tt
  | Ok ifaces =>
      if gc_scan bridgeID false ifaces then
        _ ← op_call (GAddressFlush bridgeID);
        _ ← op_call (GInterfaceDel (mkInterfaceDelRequest bridgeID));
        mret tt
      else mret tt
  end.

Definition removeVhostSocket (groutSocketPath portName : gostring) : cni unit :=
  _ ← op_call (Remove (vhostSocketPath groutSocketPath portName));
  mret tt.
End helpers.

(** ** ADD *)

Section handlers.
Context `{CniLib}.

Definition convertResult (r : RawResult) : result Result :=
  map_err (λ e, Errorf "converting result to 1.0.0 format: %w" [AErr e]) (NewResultFromResult r).

Definition cleanupAfterAddFailure (cfg : AddConfig) (ifaceID : Z) : cni unit :=
  _ ← op_call (GInterfaceDel (mkInterfaceDelRequest ifaceID));
  ipamDel (add_IPAMDel cfg) (add_Config cfg) (add_Args cfg).

(** Release the IPAM allocation and return the error. *)
Definition add_fail {A} (cfg : AddConfig) (e : error) : cni (outcome (result A)) :=
  _ ← ipamDel (add_IPAMDel cfg) (add_Config cfg) (add_Args cfg);
  mret (Returns (Err e)).

(** The loop that assigns the gateways to the bridge, up to the first failure. *)
Fixpoint assign_gateways (bridgeID : Z) (gws : list IPNet) : cni (result unit) :=
  match gws with
  | [] => mret (Ok tt)
  | gw :: gws =>
      r ← op_call (GAddressAdd (mkAddressAddRequest bridgeID gw true));
      match r with
      | Err e => mret (Err e)
      | Ok _ => assign_gateways bridgeID gws
      end
  end.

Definition is_virtio (c : PluginConf) : bool := bool_decide (InterfaceType c = InterfaceTypeVirtio).

(** The request for the pod's port. *)
Definition port_request (cfg : AddConfig) (tapName : gostring) (bridgeID : Z) (sockPath : gostring)
    : InterfaceAddRequest :=
  mkInterfaceAddRequest tapName Types.InterfaceTypeTAP bridgeID (u16 (MTU (add_Config cfg))) sockPath None.

(** After the port was added to grout: the result for the runtime and, for a
    TAP with a namespace, the pod's side. *)
Definition finish_add (cfg : AddConfig) (tapName sockPath : gostring) (cniResult : Result)
    (addResp : InterfaceAddResponse) : cni (outcome (result Result)) :=
  let args := add_Args cfg in
  if is_virtio (add_Config cfg) then
    match vhostResult args cniResult sockPath with
    | None => mret Panics
    | Some podRes => mret (Returns (Ok podRes))
    end
  else
    match podResult args cniResult with
    | None => mret Panics
    | Some podRes =>
        if decide (Netns args = []) then mret (Returns (Ok podRes))
        else
          moved ← default moveLinkToNamespace (add_MoveLink cfg) tapName (Netns args);
          match moved with
          | Err e =>
              _ ← cleanupAfterAddFailure cfg (IfaceID addResp);
              mret (Returns (Err (Errorf "moving TAP to pod namespace: %w" [AErr e])))
          | Ok _ =>
              configured ← default configurePodInterface (add_ConfigurePodIface cfg)
                             (Netns args) tapName (IfName args) (MTU (add_Config cfg)) podRes;
              match configured with
              | Err e =>
                  _ ← cleanupAfterAddFailure cfg (IfaceID addResp);
                  mret (Returns (Err (Errorf "configuring pod interface: %w" [AErr e])))
              | Ok podRes => mret (Returns (Ok podRes))
              end
          end
    end.

(** The pod's port: for virtio the socket's directory first. *)
Definition add_port (cfg : AddConfig) (tapName : gostring) (cniResult : Result) (bridgeID : Z)
    : cni (outcome (result Result)) :=
  let virtio := is_virtio (add_Config cfg) in
  let sockPath := if virtio then vhostSocketPath (GroutSocketPath (add_Config cfg)) tapName else [] in
  dir ← (if virtio then op_call (MkdirAll (Dir sockPath)) else mret (Ok tt));
  match dir with
  | Err e => add_fail cfg (Errorf "creating vhost socket dir: %w" [AErr e])
  | Ok _ =>
      addResp ← op_call (GInterfaceAdd (port_request cfg tapName bridgeID sockPath));
      match addResp with
      | Err e => add_fail cfg (Errorf "grout interface add: %w" [AErr e])
      | Ok addResp => finish_add cfg tapName sockPath cniResult addResp
      end
  end.

(** From the bridge on: the IPAM allocation is [cniResult]. *)
Definition add_attach (cfg : AddConfig) (tapName : gostring) (cniResult : Result)
    : cni (outcome (result Result)) :=
  let bridge := Bridge (add_Config cfg) in
  br ← ensureBridge bridge;
  match br with
  | Err e => add_fail cfg (Errorf "ensuring grout bridge %q: %w" [AStr bridge; AErr e])
  | Ok bridgeID =>
      match gatewaysFor cniResult with
      | None => mret Panics
      | Some gws =>
          assigned ← assign_gateways bridgeID gws;
          match assigned with
          | Err e => add_fail cfg (Errorf "grout bridge address add: %w" [AErr e])
          | Ok _ => add_port cfg tapName cniResult bridgeID
          end
      end
  end.

Definition HandleAdd (cfg : AddConfig) : cni (outcome (result Result)) :=
  with_lock (GroutSocketPath (add_Config cfg)) (
    let args := add_Args cfg in
    let tapName := groutPortName (ContainerID args) (IfName args) in
    r ← default delegateIPAMAdd (add_IPAMAdd cfg) (add_Config cfg) args;
    match r with
    | Err e => mret (Returns (Err (Errorf "IPAM add: %w" [AErr e])))
    | Ok raw =>
        match convertResult raw with
        | Err e => mret (Returns (Err (Errorf "converting IPAM result: %w" [AErr e])))
        | Ok cniResult => add_attach cfg tapName cniResult
        end
    end).

(** ** DEL *)

Definition HandleDel (cfg : DelConfig) : cni (outcome (result unit)) :=
  with_lock (GroutSocketPath (del_Config cfg)) (
    let args := del_Args cfg in
    let name := groutPortName (ContainerID args) (IfName args) in
    l ← op_call (GInterfaceList (mkInterfaceListRequest 0));
    match l with
    | Err e => mret (Returns (Err (Errorf "listing interfaces: %w" [AErr e])))
    | Ok ifaces =>
        _ ← match findPortByName ifaces name with
            | Some port =>
                _ ← op_call (GInterfaceDel (mkInterfaceDelRequest (if_ID port)));
                _ ← removeVhostSocket (GroutSocketPath (del_Config cfg)) name;
                if decide (if_Domain port ≠ 0) then gcBridgeIfEmpty (if_Domain port) else mret tt
            | None => mret tt
            end;
        _ ← ipamDel (del_IPAMDel cfg) (del_Config cfg) args;
        mret (Returns (Ok tt))
    end).

(** ** CHECK *)

(** The addresses of the previous result; nil entries are skipped. *)
Definition expectedPodIPs (conf : PluginConf) : result (list IPNet) :=
  match RawPrevResult conf with
  | None => Ok []
  | Some raw =>
      prev ← map_err (λ e, Errorf "parsing prevResult: %w" [AErr e]) (ParsePrevResult (CNIVersion conf) raw);
      match prev with
      | None => Ok []
      | Some prev =>
          r ← map_err (λ e, Errorf "converting prevResult to 1.0.0 format: %w" [AErr e])
                (NewResultFromResult prev);
          Ok (omap (fmap ipc_Address) (r_IPs r))
      end
  end.

Definition HandleCheck (cfg : DelConfig) : cni (outcome (result unit)) :=
  with_lock (GroutSocketPath (del_Config cfg)) (
    let conf := del_Config cfg in
    let args := del_Args cfg in
    let name := groutPortName (ContainerID args) (IfName args) in
    l ← op_call (GInterfaceList (mkInterfaceListRequest 0));
    match l with
    | Err e => mret (Returns (Err (Errorf "listing interfaces: %w" [AErr e])))
    | Ok ifaces =>
        match findPortByName ifaces name with
        | None =>
            mret (Returns (Err (Errorf "grout port %q for container %s ifname %s is missing (grout lost state)"
                                  [AStr name; AStr (ContainerID args); AStr (IfName args)])))
        | Some _ =>
            if is_virtio conf then
              let sockPath := vhostSocketPath (GroutSocketPath conf) name in
              present ← fileExists sockPath;
              mret (Returns (if (present : bool) then Ok tt
                             else Err (Errorf "vhost-user socket %q for grout port %q is missing"
                                         [AStr sockPath; AStr name])))
            else if decide (Netns args = []) then mret (Returns (Ok tt))
            else
              match expectedPodIPs conf with
              | Err e => mret (Returns (Err (Errorf "determining expected pod addresses: %w" [AErr e])))
              | Ok expectedIPs =>
                  r ← default verifyPodInterface (del_VerifyPodIface cfg) (Netns args) (IfName args) expectedIPs;
                  mret (Returns (map_err (λ e, Errorf "verifying pod interface %q: %w"
                                                 [AStr (IfName args); AErr e]) r))
              end
        end
    end).

(** ** GC *)

(** The keys of the [valid] map. *)
Definition valid_names (c : PluginConf) : list gostring :=
  (λ a, groutPortName (at_ContainerID a) (at_IfName a)) <$> ValidAttachments c.

(** A port of this network that the runtime no longer lists. *)
Definition is_stale (bridgeID : Z) (valid : list gostring) (iface : InterfaceInfo) : bool :=
  bool_decide (if_Domain iface = bridgeID) && HasPrefix (if_Name iface) portPrefix
  && negb (bool_decide (if_Name iface ∈ valid)).

(** The reaping loop; the result is [reaped]. *)
Fixpoint reap (socketPath : gostring) (bridgeID : Z) (valid : list gostring) (ifaces : list InterfaceInfo)
    (reaped : bool) : cni bool :=
  match ifaces with
  | [] => mret reaped
  | iface :: ifaces =>
      if is_stale bridgeID valid iface then
        r ← op_call (GInterfaceDel (mkInterfaceDelRequest (if_ID iface)));
        match r with
        | Err _ => reap socketPath bridgeID valid ifaces reaped
        | Ok _ =>
            _ ← removeVhostSocket socketPath (if_Name iface);
            reap socketPath bridgeID valid ifaces true
        end
      else reap socketPath bridgeID valid ifaces reaped
  end.

Definition HandleGC (cfg : GCConfig) : cni (outcome (result unit)) :=
  let conf := gc_Config cfg in
  with_lock (GroutSocketPath conf) (
    l ← op_call (GInterfaceList (mkInterfaceListRequest 0));
    match l with
    | Err e => mret (Returns (Err (Errorf "GC: listing interfaces: %w" [AErr e])))
    | Ok ifaces =>
        match findBridgeID ifaces (Bridge conf) with
        | None =>
            _ ← gcIPAM (gc_IPAMGC cfg) conf (gc_Args cfg);
            mret (Returns (Ok tt))
        | Some bridgeID =>
            reaped ← reap (GroutSocketPath conf) bridgeID (valid_names conf) ifaces false;
            _ ← (if (reaped : bool) then gcBridgeIfEmpty bridgeID else mret tt);
            _ ← gcIPAM (gc_IPAMGC cfg) conf (gc_Args cfg);
            mret (Returns (Ok tt))
        end
    end).
End handlers.
