(* ===== verification/HandlerFacts.v ===== *)
(** * HandlerFacts: gateways, MAC addresses, results and port requests *)

From S2P Require Import Prelude Bytes NetIP Types GoLib Client Wire Cni PortName Config Lock Netns Handler.
From Stdlib Require Import Lia ZArith.
Open Scope Z_scope.
#[local] Opaque groutPortName.

(** ** Gateways *)

Lemma incr_last_snoc (l : IP) b : incr_last (l ++ [b]) = Some (l ++ [z2b (b2z b + 1)]).
Proof.
  induction l as [|x l IH]; [done|]. simpl. rewrite IH. simpl. destruct l; done.
Qed.

Lemma b2z_band x m : b2z (band x m) = Z.land (b2z x) (b2z m).
Proof.
  unfold band. rewrite b2z_z2b. unfold u8. apply Z.mod_small.
  pose proof (b2z_range x) as Hx. pose proof (b2z_range m) as Hm.
  split; [apply Z.land_nonneg; lia|].
  destruct (decide (Z.land (b2z x) (b2z m) = 0)) as [->|Hne]; [lia|].
  assert (0 < Z.land (b2z x) (b2z m)) by (pose proof (proj2 (Z.land_nonneg (b2z x) (b2z m))); lia).
  apply Z.log2_lt_pow2 with (b := 8); [lia|].
  pose proof (Z.log2_land (b2z x) (b2z m)) as Hl. destruct (decide (b2z m = 0)) as [E|]; [by rewrite E, Z.land_0_r in Hne|].
  assert (Z.log2 (b2z m) < 8) by (apply Z.log2_lt_pow2; lia). lia.
Qed.

Lemma band_idem x m : band (band x m) m = band x m.
Proof. apply b2z_inj. rewrite !b2z_band, <-Z.land_assoc. by rewrite Z.land_diag. Qed.

(** The byte after an even masked byte: no carry, and the mask gives it back. *)
Lemma band_succ x m :
  Z.even (b2z m) = true →
  band (z2b (b2z (band x m) + 1)) m = band x m ∧ z2b (b2z (band x m) + 1) ≠ band x m.
Proof.
  intros Hm. rewrite Z.even_spec in Hm. destruct Hm as [k Hk].
  set (v := band x m).
  assert (Z.testbit (b2z v) 0 = false) as Hv0.
  { unfold v. rewrite b2z_band, Z.land_spec, (Z.bit0_odd (b2z m)), Hk, Z.odd_mul. apply andb_false_r. }
  assert (Z.land (b2z v) 1 = 0) as Hl1.
  { change 1 with (Z.ones 1). rewrite Z.land_ones by lia. change (2 ^ 1) with 2.
    rewrite Z.bit0_odd in Hv0. rewrite Zmod_odd. by rewrite Hv0. }
  assert (b2z v + 1 = Z.lor (b2z v) 1) as Hor.
  { rewrite Z.add_nocarry_lxor, Z.lxor_lor by done. done. }
  assert (b2z v ≠ 255) as H255 by (intros E; by rewrite E in Hv0).
  pose proof (b2z_range v). assert (b2z (z2b (b2z v + 1)) = b2z v + 1) as Hb by (apply b2z_z2b_small; lia).
  split.
  - apply b2z_inj. rewrite b2z_band, Hb, Hor, Z.land_lor_distr_l. rewrite <-b2z_band.
    assert (Z.land 1 (b2z m) = 0) as ->.
    { rewrite Z.land_comm. change 1 with (Z.ones 1). rewrite Z.land_ones by lia. rewrite Hk. change (2 ^ 1) with 2.
      rewrite Z.mul_comm. apply Z.mod_mul. lia. }
    rewrite Z.lor_0_r. unfold v. by rewrite band_idem.
  - intros E. apply (f_equal b2z) in E. lia.
Qed.

Lemma zip_band_snoc a x m y :
  length a = length m → zip_with band (a ++ [x]) (m ++ [y]) = zip_with band a m ++ [band x y].
Proof. intros Hl. by rewrite zip_with_app. Qed.

Lemma zip_band_idem a m : zip_with band (zip_with band a m) m = zip_with band a m.
Proof.
  revert m. induction a as [|x a IH]; intros [|y m]; simpl; [done..|]. by rewrite band_idem, IH.
Qed.

(** [IP_Mask] with the mask that is effective for an address. *)
Definition effective_mask (ip : IP) (mask : IPMask) : IPMask :=
  if decide (length mask = IPv6len ∧ length ip = IPv4len ∧ take 12 mask = replicate 12 xff)
  then drop 12 mask else mask.

Lemma IP_Mask_eq ip mask :
  IP_Mask ip mask =
    let mask := effective_mask ip mask in
    let ip := if decide (length mask = IPv4len ∧ length ip = IPv6len ∧ take 12 ip = v4InV6Prefix)
              then drop 12 ip else ip in
    if decide (length ip = length mask) then Some (zip_with band ip mask) else None.
Proof. reflexivity. Qed.

Lemma IP_Mask_some ip mask net :
  IP_Mask ip mask = Some net →
  ∃ ip', length ip' = length (effective_mask ip mask) ∧ net = zip_with band ip' (effective_mask ip mask).
Proof.
  rewrite IP_Mask_eq. intros Hn. cbv zeta in Hn.
  match type of Hn with context [if decide ?P then drop 12 ip else ip] =>
    set (ip' := if decide P then drop 12 ip else ip) in Hn end.
  case_decide as Hl; [|done]. injection Hn as <-. by exists ip'.
Qed.

(** An address as long as the effective mask is masked with it. *)
Lemma IP_Mask_same_length ip mask gw :
  length gw = length (effective_mask ip mask) →
  IP_Mask gw mask = Some (zip_with band gw (effective_mask ip mask)).
Proof.
  intros Hl. assert (effective_mask gw mask = effective_mask ip mask) as E.
  { unfold effective_mask, IPv6len, IPv4len in *.
    destruct (decide (length mask = 16%nat ∧ length ip = 4%nat ∧ take 12 mask = replicate 12 xff)) as [(H1 & H2 & H3)|Hn].
    - rewrite decide_True; [done|]. rewrite Hl, length_drop, H1. done.
    - rewrite decide_False; [done|]. intros (H1 & H2 & _). lia. }
  rewrite IP_Mask_eq, E. cbv zeta.
  
  destruct (decide (length (effective_mask ip mask) = IPv4len ∧ _)) as [(H4 & H6 & _)|_].
  - unfold IPv4len, IPv6len in *. lia.
  - by rewrite decide_True.
Qed.

Lemma effective_mask_last ip mask m : last mask = Some m → last (effective_mask ip mask) = Some m.
Proof.
  unfold effective_mask. case_decide as Hc; [|done]. destruct Hc as (Hl & _ & _). unfold IPv6len in Hl.
  intros Hm. rewrite <-(take_drop 12 mask), last_app in Hm.
  destruct (last (drop 12 mask)) as [m'|] eqn:E; [done|].
  apply last_None in E. apply (f_equal length) in E. rewrite length_drop, Hl in E. done.
Qed.

Section gateways.
Context `{CniTypes}.

(** The gateway derived for a subnet is a host address of it: when IPAM names
    no gateway and the last byte of the mask is even (a prefix shorter than
    the address), the gateway that is assigned is in the subnet of the pod's
    address and is not the network's own address. *)
Theorem derived_gateway_in_subnet idx ip mask net m :
  IP_Mask ip mask = Some net → last mask = Some m → Z.even (b2z m) = true →
  ∃ gw, gateway_of (mkIPConfig idx (mkIPNet ip mask) None) = Some gw ∧
    IP_Mask gw mask = Some net ∧ gw ≠ net.
Proof.
  intros Hnet Hlast Heven. destruct (IP_Mask_some _ _ _ Hnet) as (ip' & Hl & ->).
  pose proof (effective_mask_last ip mask m Hlast) as Heff. apply last_Some in Heff as [ms Ems].
  rewrite Ems in *. rewrite length_app in Hl. simpl in Hl.
  destruct ip' as [|x a _] using rev_ind; [simpl in Hl; lia|]. rewrite length_app in Hl. simpl in Hl.
  assert (length a = length ms) as Hla by lia. rewrite zip_band_snoc in * by done.
  destruct (band_succ x m Heven) as [Hsucc Hne].
  exists (zip_with band a ms ++ [z2b (b2z (band x m) + 1)]). split_and!.
  - unfold gateway_of. cbn [ipc_Gateway ipc_Address IPNet_IP IPNet_Mask]. rewrite Hnet. simpl default. apply incr_last_snoc.
  - rewrite (IP_Mask_same_length ip mask), Ems.
    + rewrite zip_band_snoc by (rewrite length_zip_with; lia). by rewrite zip_band_idem, Hsucc.
    + rewrite Ems, !length_app, length_zip_with. simpl. lia.
  - intros [_ E]%app_inj_tail. by apply Hne.
Qed.

(** For a host route there is no such address: the gateway derived for
    10.0.0.5/32 is 10.0.0.6, outside the subnet. *)
Theorem derived_gateway_host_route :
  ∃ gw, gateway_of (mkIPConfig None (mkIPNet [x0a; x00; x00; x05] (CIDRMask 32 4)) None) = Some gw ∧
    gw = [x0a; x00; x00; x06] ∧ IP_Mask gw (CIDRMask 32 4) ≠ IP_Mask [x0a; x00; x00; x05] (CIDRMask 32 4).
Proof. eexists. split; [reflexivity|]. split; [reflexivity|]. by vm_compute. Qed.

(** The first address of each family. *)
Definition is_v4 (ip : IPConfig) : bool := bool_decide (is_Some (To4 (IPNet_IP (ipc_Address ip)))).

Fixpoint first_per_family (ips : list IPConfig) : list IPConfig :=
  match ips with
  | [] => []
  | ip :: ips => ip :: filter (λ ip', is_v4 ip' ≠ is_v4 ip) (first_per_family ips)
  end.

(** The gateway of an entry, as it is assigned to the bridge. *)
Definition gateway_net (ip : IPConfig) : option IPNet :=
  (λ gw, mkIPNet gw (IPNet_Mask (ipc_Address ip))) <$> gateway_of ip.

Definition unseen (s4 s6 : bool) (ip : IPConfig) : bool := negb (if is_v4 ip then s4 else s6).

Lemma gateways_loop_spec s4 s6 ips :
  gateways_loop s4 s6 (Some <$> ips) =
    mapM gateway_net (filter (λ ip, unseen s4 s6 ip = true) (first_per_family ips)).
Proof.
  revert s4 s6. induction ips as [|ip ips IH]; intros s4 s6; [done|].
  cbn [gateways_loop fmap list_fmap first_per_family]. fold (is_v4 ip).
  rewrite filter_cons, list_filter_filter.
  destruct (unseen s4 s6 ip) eqn:Eu; unfold unseen in Eu.
  - rewrite decide_True by done.
    assert ((is_v4 ip && s4) || (negb (is_v4 ip) && s6) = false) as -> by (by destruct (is_v4 ip), s4, s6).
    rewrite IH. cbn [mapM]. destruct (gateway_of ip) as [gw|] eqn:Eg.
    2:{ assert (gateway_net ip = None) as -> by (unfold gateway_net; by rewrite Eg). done. }
    assert (gateway_net ip = Some (mkIPNet gw (IPNet_Mask (ipc_Address ip)))) as ->
      by (unfold gateway_net; by rewrite Eg).
    simpl. do 2 f_equal. apply list_filter_iff_in. intros x _. unfold unseen.
    destruct (is_v4 x), (is_v4 ip), s4, s6; naive_solver.
  - rewrite decide_False by done.
    assert ((is_v4 ip && s4) || (negb (is_v4 ip) && s6) = true) as -> by (by destruct (is_v4 ip), s4, s6).
    rewrite IH. f_equal. apply list_filter_iff_in. intros x _. unfold unseen.
    destruct (is_v4 x), (is_v4 ip), s4, s6; naive_solver.
Qed.

Lemma gateways_loop_nil s4 s6 ips : None ∈ ips → gateways_loop s4 s6 ips = None.
Proof.
  revert s4 s6. induction ips as [|[ip|] ips IH]; intros s4 s6 Hin; [by apply not_elem_of_nil in Hin| |done].
  apply elem_of_cons in Hin as [?|Hin]; [done|]. cbn [gateways_loop]. case_match; [by apply IH|].
  destruct (gateway_of ip); [|done]. simpl. by rewrite IH.
Qed.

(** C36: The gateways assigned to the bridge: the first address of each family in
    the IPAM result decides, in order, with the gateway IPAM gives or the one
    derived from the subnet, and the address's mask; at most one IPv4 and one
    IPv6 gateway. *)
Theorem gatewaysFor_spec (r : Result) ips :
  r_IPs r = Some <$> ips →
  gatewaysFor r = mapM gateway_net (first_per_family ips) ∧
  (length (filter (λ ip, is_v4 ip = true) (first_per_family ips)) ≤ 1)%nat ∧
  (length (filter (λ ip, is_v4 ip = false) (first_per_family ips)) ≤ 1)%nat.
Proof.
  intros E. unfold gatewaysFor. rewrite E, gateways_loop_spec, list_filter_all.
  2:{ intros x _. unfold unseen. by destruct (is_v4 x). }
  assert (∀ b, length (filter (λ ip, is_v4 ip = b) (first_per_family ips)) ≤ 1)%nat as Hone; [|by split_and!].
  intros b. clear E. induction ips as [|ip ips IH]; [simpl; lia|]. cbn [first_per_family].
  rewrite filter_cons, list_filter_filter. case_decide as Hb.
  - rewrite list_filter_none by naive_solver.
    simpl. lia.
  - rewrite (list_filter_iff_in _ (λ x, is_v4 x = b)); [apply IH|]. intros x _.
    destruct (is_v4 x), (is_v4 ip), b; naive_solver.
Qed.

(** C39: A nil entry anywhere in the IPAM result makes [gatewaysFor] panic, while
    the other readers of a result skip nil entries: the MAC address of the
    pod is that of the result without them. *)
Theorem nil_entry_panics (r : Result) :
  None ∈ r_IPs r →
  gatewaysFor r = None ∧
  podMACFromResult (Some r) =
    podMACFromResult (Some (mkResult (r_CNIVersion r) (r_Interfaces r) (filter is_Some (r_IPs r)) (r_Routes r) (r_DNS r))).
Proof.
  intros Hin. split; [by apply gateways_loop_nil|].
  assert (∀ f ips, first_ip f (filter is_Some ips) = first_ip f ips) as Hskip.
  { intros f ips. induction ips as [|[ip|] ips IH]; [done| |].
    - rewrite filter_cons_True by done. cbn [first_ip]. by rewrite IH.
    - rewrite filter_cons_False; [apply IH|]. by intros [? ?]. }
  unfold podMACFromResult. cbn [r_IPs]. by rewrite !Hskip.
Qed.
End gateways.

(** ** MAC addresses *)

(** Locally administered and not multicast. *)
Definition local_unicast (mac : list byte) : Prop :=
  length mac = 6%nat ∧ ∃ b, head mac = Some b ∧ Z.testbit (b2z b) 1 = true ∧ Z.testbit (b2z b) 0 = false.

Section macs.
Context `{CniTypes}.

Lemma first_ip_some f ips ip :
  first_ip f ips = Some ip ↔
  ∃ pre ipc post, ips = pre ++ Some ipc :: post ∧ f (IPNet_IP (ipc_Address ipc)) = Some ip ∧
    ∀ ipc', Some ipc' ∈ pre → f (IPNet_IP (ipc_Address ipc')) = None.
Proof.
  induction ips as [|[ipc|] ips IH]; simpl.
  - split; [done|]. by intros ([] & ? & ? & ? & _).
  - destruct (f (IPNet_IP (ipc_Address ipc))) as [ip'|] eqn:Ef.
    + split.
      * intros [= ->]. exists [], ipc, ips. split_and!; [done|done|]. intros ? ?%not_elem_of_nil. done.
      * intros ([|x pre] & ipc' & post & [= <- ->] & Hf & Hpre); [by rewrite <-Hf, Ef|].
        rewrite Hpre in Ef by apply list_elem_of_here. done.
    + rewrite IH. split.
      * intros (pre & ipc' & post & -> & Hf & Hpre). exists (Some ipc :: pre), ipc', post.
        split_and!; [done..|]. intros ? [[= ->]|?]%elem_of_cons; auto.
      * intros ([|x pre] & ipc' & post & [= <- ->] & Hf & Hpre); [by rewrite Hf in Ef|].
        exists pre, ipc', post. split_and!; [done..|]. intros. apply Hpre. by apply list_elem_of_further.
  - rewrite IH. split.
    + intros (pre & ipc' & post & -> & Hf & Hpre). exists (None :: pre), ipc', post.
      split_and!; [done..|]. intros ? [?|?]%elem_of_cons; [done|auto].
    + intros ([|x pre] & ipc' & post & [= <- ->] & Hf & Hpre).
      exists pre, ipc', post. split_and!; [done..|]. intros. apply Hpre. by apply list_elem_of_further.
Qed.

Lemma first_ip_none f ips :
  first_ip f ips = None ↔ ∀ ipc, Some ipc ∈ ips → f (IPNet_IP (ipc_Address ipc)) = None.
Proof.
  induction ips as [|[ipc|] ips IH]; simpl.
  - split; [|done]. by intros _ ? ?%not_elem_of_nil.
  - destruct (f (IPNet_IP (ipc_Address ipc))) eqn:Ef.
    + split; [done|]. intros Hall. rewrite Hall in Ef by apply list_elem_of_here. done.
    + rewrite IH. setoid_rewrite elem_of_cons. naive_solver.
  - rewrite IH. setoid_rewrite elem_of_cons. naive_solver.
Qed.

(** The MAC address of a pod is locally administered and unicast, and it is
    derived from the pod's address: 02:00 and the four bytes of the first IPv4
    address of the result if there is one, else the last four bytes of the
    first IPv6 address; there is none exactly when no entry has an address of
    4 or 16 bytes. *)
Theorem podMAC_spec (r : Result) :
  match podMACFromResult (Some r) with
  | Some mac =>
      local_unicast mac ∧
      ((∃ ip4, first_ip To4 (r_IPs r) = Some ip4 ∧ mac = [x02; x00] ++ ip4) ∨
       ((∀ ipc, Some ipc ∈ r_IPs r → To4 (IPNet_IP (ipc_Address ipc)) = None) ∧
        ∃ ip6, first_ip To16 (r_IPs r) = Some ip6 ∧ mac = [x02; x00] ++ drop 12 ip6))
  | None => ∀ ipc, Some ipc ∈ r_IPs r → To16 (IPNet_IP (ipc_Address ipc)) = None
  end.
Proof.
  unfold podMACFromResult. destruct (first_ip To4 (r_IPs r)) as [ip4|] eqn:E4.
  - split; [|left; by exists ip4]. destruct (proj1 (first_ip_some _ _ _) E4) as (_ & ipc & _ & _ & Hf & _).
    apply To4_length in Hf. split; [rewrite length_app, Hf; done|by exists x02].
  - destruct (first_ip To16 (r_IPs r)) as [ip6|] eqn:E6; [|by apply first_ip_none].
    split; [|right; split; [by apply first_ip_none|by exists ip6]].
    destruct (proj1 (first_ip_some _ _ _) E6) as (_ & ipc & _ & _ & Hf & _).
    apply To16_length in Hf. split; [rewrite length_app, length_drop, Hf; done|by exists x02].
Qed.

(** Pods with different IPv4 addresses have different MAC addresses. *)
Theorem podMAC_distinct (r r' : Result) ip ip' mac :
  first_ip To4 (r_IPs r) = Some ip → first_ip To4 (r_IPs r') = Some ip' →
  podMACFromResult (Some r) = Some mac → podMACFromResult (Some r') = Some mac → ip = ip'.
Proof. unfold podMACFromResult. intros -> -> [= <-] [= ?]. done. Qed.
End macs.

(** The MAC address a bridge is created with is six bytes, locally
    administered and unicast, whatever the bridge's name. *)
Theorem bridgeMAC_local name : local_unicast (bridgeMAC name).
Proof. split; [done|]. by exists x02. Qed.

(** ** Results *)

Section result_facts.
Context `{CniTypes}.

Lemma point_ips_spec idx ips ips' :
  point_ips idx ips = Some ips' →
  Forall2 (λ i i', ∃ ip, i = Some ip ∧ i' = Some (mkIPConfig (Some idx) (ipc_Address ip) (ipc_Gateway ip))) ips ips'.
Proof.
  revert ips'. induction ips as [|[ip|] ips IH]; intros ips' Hp; simpl in Hp; simplify_eq; [constructor|].
  destruct (point_ips idx ips) as [l|]; simplify_eq/=. constructor; [by eexists|by apply IH].
Qed.

(** The result for the runtime describes one interface, with the requested
    name and, for a TAP, the pod's namespace or, for virtio, the vhost-user
    socket; every address IPAM allocated is in it, unchanged with its gateway,
    and points at that interface by index; version, routes and DNS are IPAM's. *)
Theorem results_describe_interface args (r : Result) sock :
  (∀ res, podResult args r = Some res →
     r_Interfaces res = [mkInterface (IfName args) [] (Netns args) []] ∧
     Forall2 (λ i i', ∃ ip, i = Some ip ∧ i' = Some (mkIPConfig (Some 0) (ipc_Address ip) (ipc_Gateway ip)))
       (r_IPs r) (r_IPs res) ∧
     r_CNIVersion res = r_CNIVersion r ∧ r_Routes res = r_Routes r ∧ r_DNS res = r_DNS r) ∧
  (∀ res, vhostResult args r sock = Some res →
     r_Interfaces res = [mkInterface (IfName args) [] [] sock] ∧
     Forall2 (λ i i', ∃ ip, i = Some ip ∧ i' = Some (mkIPConfig (Some 0) (ipc_Address ip) (ipc_Gateway ip)))
       (r_IPs r) (r_IPs res) ∧
     r_CNIVersion res = r_CNIVersion r ∧ r_Routes res = r_Routes r ∧ r_DNS res = r_DNS r).
Proof.
  unfold podResult, vhostResult.
  destruct (point_ips 0 (r_IPs r)) as [ips|] eqn:E; [|done]. apply point_ips_spec in E.
  split; intros res [= <-]; by split_and!.
Qed.
End result_facts.

(** ** The port request *)

Section port_facts.
Context `{CniTypes}.

(** A TAP port can always be requested: the devargs of a port name fit
    grout's 128-byte field; for virtio they fit exactly when the socket path
    has at most 96 bytes, and otherwise the client refuses the request. *)
Theorem port_request_encodable cfg c i id sock :
  iface_encodable (port_request cfg (groutPortName c i) id sock) =
    bool_decide (sock = [] ∨ (length sock ≤ 96)%nat).
Proof.
  assert (length (vdevID (groutPortName c i)) = 14%nat) as Hv.
  { rewrite vdevID_portname, length_app, length_digest. done. }
  unfold iface_encodable. rewrite <-(port_devargs_of (port_request cfg (groutPortName c i) id sock)). unfold port_devargs. cbn [ia_Type ia_VhostUserPath ia_Name port_request].
  rewrite decide_False by done. rewrite decide_False by done.
  apply bool_decide_ext. unfold tapDevargs, vhostDevargs, portDevargsSize. case_decide as Hs.
  - split; [by left|]. intros _. rewrite !length_app, Hv, groutPortName_length. simpl. lia.
  - rewrite !length_app, Hv. change (length (str "net_vhost_")) with 10%nat.
    change (length (str ",iface=")) with 7%nat. split; [intros; right; lia|]. intros [?|?]; [contradiction|lia].
Qed.
End port_facts.

