(* ===== verification/Main.v ===== *)
(** * Main: the commands of the plugin (src/cmd/grout-cni/main.go)

    A command loads the configuration, connects to grout, runs a handler with
    the client and closes the connection.  [link_env] is what makes a
    [groutapi.Client] the [GroutClient] of a handler: the five operations on
    grout are the client's methods on its connection, every other operation is
    the environment's. *)

From S2P Require Import Prelude Bytes Protocol NetIP Types GoLib Client Cni PortName Config Lock Netns Handler.
From Stdlib Require Import Lia ZArith.
Open Scope Z_scope.
#[local] Opaque groutPortName.

Definition supportedVersions : list gostring := [str "0.3.1"; str "0.4.0"; str "1.0.0"; str "1.1.0"].

Section main.
Context `{CniLib} `{Peer P} {W : Type}.

(** The decoder of the configuration, the operations outside grout,
    [slog.SetDefault], [net.Dial("unix", path)] and [types.Result.Print]. *)
Variable Unmarshal : list byte → PluginConf → result PluginConf.
Variable base : handler CniSig W.
Variable SetDefault : Z → W → W.
Variable net_dial : gostring → W → W * result (Conn P).
Variable Print : Result → W → W * result unit.

(** A method of the client as an operation. *)
Definition method {A} (m : est (Client P) A) (s : Client P * W) : Client P * W * result A :=
  let '(c, r) := m s.1 in (c, s.2, r).

Definition link_env (o : cni_op) (s : Client P * W) : Client P * W * cni_res o :=
  match o with
  | GInterfaceList r => method (InterfaceList r) s
  | GInterfaceAdd r => method (InterfaceAdd r) s
  | GInterfaceDel r => method (InterfaceDel r) s
  | GAddressAdd r => method (AddressAdd r) s
  | GAddressFlush id => method (AddressFlush id) s
  | o => let '(w, r) := base o s.2 in (s.1, w, r)
  end.

Definition linked : handler CniSig (Client P * W) := link_env.

(** How a command ended: the world, the connection if there was one, and the
    result. *)
Definition ended (A : Type) : Type := W * option (Conn P) * outcome (result A).

Definition loading (e : error) : error := Errorf "loading config: %w" [AErr e].
Definition connecting (e : error) : error := Errorf "connecting to grout: %w" [AErr e].

(** The part the commands share: load, install the logger, connect, run [body] with the client, and
    close the connection in the deferred call, also after a panic. *)
Definition with_client {A} (args : CmdArgs)
    (body : PluginConf → Client P * W → Client P * W * outcome (result A)) (w : W) : ended A :=
  match LoadConfig Unmarshal (StdinData args) with
  | Err e => (w, None, Returns (Err (loading e)))
  | Ok config =>
      let w := ConfigureLogging SetDefault config w in
      let '(w, conn) := net_dial (GroutSocketPath config) w in
      match Dial conn with
      | DialFailed lft e => (w, lft, Returns (Err (connecting e)))
      | Dialed c =>
          let '(c, w, out) := body config (c, w) in
          (w, Some (cl_conn (Close c).1), out)
      end
  end.

(** The package-level function variables are nil in production. *)
Definition ipamAddFunc : option IPAMAddFunc := None.
Definition ipamDelFunc : option IPAMDelFunc := None.
Definition moveLinkFunc : option MoveLinkFunc := None.
Definition configurePodIfaceFunc : option ConfigurePodIfaceFunc := None.

Definition cmdAdd (args : CmdArgs) : W → ended unit :=
  with_client args (λ config s,
    let '(s, out) := interp linked (HandleAdd (mkAddConfig config args ipamAddFunc ipamDelFunc moveLinkFunc configurePodIfaceFunc)) s in
    match out with
    | Returns (Ok result) => let '(w, r) := Print result s.2 in (s.1, w, Returns r)
    | Returns (Err e) => (s, Returns (Err (Errorf "CNI ADD: %w" [AErr e])))
    | Panics => (s, Panics)
    end).

Definition cmdDel (args : CmdArgs) : W → ended unit :=
  with_client args (λ config s, interp linked (HandleDel (mkDelConfig config args ipamDelFunc None)) s).

Definition cmdCheck (args : CmdArgs) : W → ended unit :=
  with_client args (λ config s, interp linked (HandleCheck (mkDelConfig config args None None)) s).

Definition cmdGC (args : CmdArgs) : W → ended unit :=
  with_client args (λ config s, interp linked (HandleGC (mkGCConfig config args None)) s).

(** [types.NewError(code, msg, "")] is told apart from the other errors. *)
Inductive status := Available | Failed (e : error) | Unavailable (code : Z) (msg : error).

Definition cmdStatus (args : CmdArgs) (w : W) : W * option (Conn P) * status :=
  match LoadConfig Unmarshal (StdinData args) with
  | Err e => (w, None, Failed (loading e))
  | Ok config =>
      let w := ConfigureLogging SetDefault config w in
      let '(w, conn) := net_dial (GroutSocketPath config) w in
      match Dial conn with
      | DialFailed lft e =>
          (w, lft, Unavailable ErrPluginNotAvailable
                     (Errorf "grout not reachable at %s: %v" [AStr (GroutSocketPath config); AErr e]))
      | Dialed c => (w, Some (cl_conn (Close c).1), Available)
      end
  end.

(** ** What is handed to the CNI library *)

(** [skel.CNIFuncs] *)
Record CNIFuncs := mkCNIFuncs {
  f_Add : CmdArgs → W → ended unit;
  f_Del : CmdArgs → W → ended unit;
  f_Check : CmdArgs → W → ended unit;
  f_GC : CmdArgs → W → ended unit;
  f_Status : CmdArgs → W → W * option (Conn P) * status }.

Definition funcs : CNIFuncs := mkCNIFuncs cmdAdd cmdDel cmdCheck cmdGC cmdStatus.

(** Build metadata, unless the linker sets it. *)
Definition version : gostring := str "dev".
Definition commit : gostring := str "none".
Definition date : gostring := str "unknown".

(** [fmt.Sprintf("grout-cni %s (commit %s, built %s)", version, commit, date)] *)
Definition about (version commit date : gostring) : gostring :=
  str "grout-cni " ++ version ++ str " (commit " ++ commit ++ str ", built " ++ date ++ str ")".

(** [PluginMainFuncs] is the dispatcher of the CNI library, given the functions,
    the supported versions and the description. *)
Definition main {R} (PluginMainFuncs : CNIFuncs → list gostring → gostring → R) : R :=
  PluginMainFuncs funcs supportedVersions (about version commit date).

(** ** Properties *)

Lemma Dial_failed_closed conn lft e : Dial (P := P) conn = DialFailed lft e → ∀ cn, lft = Some cn → c_closed cn = true.
Proof.
  unfold Dial. destruct conn as [cn|]; [|by intros [= <- _]].
  destruct (hello (mkClient cn 0)) as [c [[]|err]]; [done|]. by intros [= <- _] ? [= <-].
Qed.

Lemma with_client_closes {A} args body w :
  ∀ cn, (with_client (A := A) args body w).1.2 = Some cn → c_closed cn = true.
Proof.
  unfold with_client. intros cn. destruct (LoadConfig Unmarshal (StdinData args)) as [config|e]; [|done].
  destruct (net_dial _ _) as [w1 conn]. destruct (Dial conn) as [c|lft e] eqn:E.
  - destruct (body config (c, w1)) as [[c' w2] out]. by intros [= <-].
  - simpl. intros ->. by eapply Dial_failed_closed.
Qed.

(** C38: None of the functions that [main] hands to the CNI library leaks its
    connection: whatever the server answers and however the handler ends (a
    result, an error, a panic), and also when the handshake fails, the connection
    that was opened is closed. *)
Theorem commands_close_connection args w :
  main (λ f versions _,
    (∀ cn, (f_Add f args w).1.2 = Some cn → c_closed cn = true) ∧
    (∀ cn, (f_Del f args w).1.2 = Some cn → c_closed cn = true) ∧
    (∀ cn, (f_Check f args w).1.2 = Some cn → c_closed cn = true) ∧
    (∀ cn, (f_GC f args w).1.2 = Some cn → c_closed cn = true) ∧
    (∀ cn, (f_Status f args w).1.2 = Some cn → c_closed cn = true)).
Proof.
  unfold main. split_and!; [apply with_client_closes..|].
  simpl. unfold cmdStatus. intros cn. destruct (LoadConfig Unmarshal (StdinData args)) as [config|e]; [|done].
  destruct (net_dial _ _) as [w1 conn]. destruct (Dial conn) as [c|lft e] eqn:E; [by intros [= <-]|].
  simpl. intros ->. by eapply Dial_failed_closed.
Qed.

(** A command does nothing before it has a valid configuration and a
    connection that completed the handshake: with an invalid configuration the
    world is untouched and grout is not even connected to; when connecting or
    the handshake fails, the world is as the attempt to connect left it and
    no handler runs. *)
Theorem commands_need_config_and_grout {A} args body w0 :
  (∀ e, LoadConfig Unmarshal (StdinData args) = Err e →
     with_client (A := A) args body w0 = (w0, None, Returns (Err (loading e)))) ∧
  (∀ config lft e, LoadConfig Unmarshal (StdinData args) = Ok config →
     let w := ConfigureLogging SetDefault config w0 in
     Dial (net_dial (GroutSocketPath config) w).2 = DialFailed lft e →
     with_client (A := A) args body w0 =
       ((net_dial (GroutSocketPath config) w).1, lft, Returns (Err (connecting e)))).
Proof.
  split.
  - intros e E. unfold with_client. by rewrite E.
  - intros config lft e E w. unfold with_client. rewrite E. fold w.
    destruct (net_dial (GroutSocketPath config) w) as [w1 conn]. simpl. by intros ->.
Qed.
End main.
