(* ===== verification/Serial.v ===== *)
(** * Serial: every handler works under the lock of its grout socket

    The discipline of the lock, as an automaton over what a handler did: the
    lock file of this grout socket is opened, then locked, then the work is
    done, then it is unlocked and closed, and after that nothing happens; when
    it could not be opened nothing else happens, and when it could not be locked
    it is closed and nothing else happens. *)

From S2P Require Import Prelude Bytes NetIP Types GoLib Cni PortName Config Lock Netns Handler.
From Stdlib Require Import Lia ZArith.
Open Scope Z_scope.

Section serial.
Context `{CniLib}.

Inductive lock_state := Idle | Opened (fd : Z) | Held (fd : Z) | Released (fd : Z) | Done | Violated.

Definition lock_step (path : gostring) (s : lock_state) (e : event CniSig) : lock_state :=
  match s, e with
  | Idle, existT (MkdirAll _) _ => Idle
  | Idle, existT (OpenLock p) r =>
      if decide (p = path) then match r with Ok fd => Opened fd | Err _ => Done end else Violated
  | Opened fd, existT (FlockEx fd') r =>
      if decide (fd' = fd) then match r with Locked => Held fd | _ => Released fd end else Violated
  | Held fd, existT (FlockUn fd') _ => if decide (fd' = fd) then Released fd else Violated
  | Held fd, existT o _ => if is_lock o then Violated else Held fd
  | Released fd, existT (CloseFd fd') _ => if decide (fd' = fd) then Done else Violated
  | _, _ => Violated
  end.

(** The whole run followed the discipline. *)
Definition serialized (path : gostring) (t : trace CniSig) : Prop :=
  foldl (lock_step path) Idle t = Idle ∨ foldl (lock_step path) Idle t = Done.

(** A program that leaves the lock alone. *)
Definition lockless {A} (p : cni A) : Prop := uses_only (S := CniSig) (λ o, is_lock o = false) p.

Lemma lockless_held {A} path (p : cni A) fd (Q : lock_state → A → Prop) :
  lockless p → (∀ a, Q (Held fd) a) → gwp (lock_step path) p (Held fd) Q.
Proof.
  intros Hp HQ. eapply uses_only_gwp; [done| |done].
  intros [o r] Ho. simpl in Ho. destruct o; simpl in *; done.
Qed.

Lemma with_lock_discipline {A} socketPath (body : cni (outcome (result A))) :
  lockless body →
  gwp (lock_step (lockPathForSocket socketPath)) (with_lock socketPath body) Idle (λ g _, g = Idle ∨ g = Done).
Proof.
  intros Hb.
  assert (lockPathForSocket socketPath ≠ []) as Hne.
  { unfold lockPathForSocket. intros [_ ?]%app_nil. done. }
  unfold with_lock. generalize dependent (lockPathForSocket socketPath). intros path Hne.
  unfold NewFileLock. rewrite decide_False by done.
  rewrite !gwp_bind. apply (gwp_mono _ _ _ (λ g _, g = Idle)).
  { case_decide; simpl; auto. }
  intros g [[]|e] ->; [|simpl; by left].
  rewrite gwp_bind. intros [fd|e]; simpl; rewrite decide_True by done; [|by right].
  intros [|e|]; simpl; rewrite decide_True by done; [|simpl; rewrite decide_True by done; by right..].
  rewrite gwp_bind. apply lockless_held; [done|].
  intros a. simpl. intros r. rewrite decide_True by done. simpl. intros _. rewrite decide_True by done. by right.
Qed.

End serial.

(** ** What each part of the handlers touches *)

(** Walk through a program, one operation, sequence or branch at a time. *)
Ltac footprint :=
  repeat match goal with
  | |- uses_only _ (op_call _) => split; [|done]
  | |- uses_only _ (mret _) => exact I
  | |- uses_only _ (mbind _ _) => apply uses_only_bind; [|intros ?]
  | |- uses_only _ (try_ _ _ _) => apply uses_only_bind; [|intros [?|?]]
  | |- uses_only _ (match ?x with _ => _ end) => destruct x
  | |- uses_only _ (let x := _ in _) => cbv zeta
  | |- uses_only _ (default _ ?x) => destruct x
  end.

(** The operations that only look at the pod's side. *)
Definition is_probe `{CniTypes} (o : cni_op) : bool :=
  match o with
  | LinkByName _ | AddrList _ | GetNS _ | NsClose _ | NsEnter _ | NsLeave _ => true
  | _ => false
  end.

Create HintDb footprint.

Section footprints.
Context `{CniLib}.

Lemma moveLink_footprint l n : uses_only (S := CniSig) (λ o, is_link o = true) (moveLinkToNamespace l n).
Proof. unfold moveLinkToNamespace. footprint; done. Qed.

Lemma configurePod_footprint n h p m r :
  uses_only (S := CniSig) (λ o, is_link o = true) (configurePodInterface n h p m r).
Proof.
  unfold configurePodInterface, ns_Do, configure_in_ns, rename_link, set_link_mtu, set_link_mac.
  footprint; done.
Qed.

Lemma verifyPod_footprint n p ips :
  uses_only (S := CniSig) (λ o, is_probe o = true) (verifyPodInterface n p ips).
Proof. unfold verifyPodInterface, ns_Do, verify_in_ns. footprint; done. Qed.

Lemma ensureBridge_footprint name :
  uses_only (S := CniSig) (λ o, o = GInterfaceList (mkInterfaceListRequest 0) ∨
    o = GInterfaceAdd (mkInterfaceAddRequest name Types.InterfaceTypeBridge 0 0 [] None)) (ensureBridge name).
Proof. unfold ensureBridge. footprint; auto. Qed.

Lemma assign_gateways_footprint id gws :
  uses_only (S := CniSig) (λ o, ∃ gw, gw ∈ gws ∧ o = GAddressAdd (mkAddressAddRequest id gw true))
    (assign_gateways id gws).
Proof.
  induction gws as [|gw gws IH]; simpl; [done|]. split; [exists gw; set_solver|].
  intros [?|?]; [|done]. eapply uses_only_mono; [apply IH|]. set_solver.
Qed.

Lemma gcBridge_footprint id :
  uses_only (S := CniSig) (λ o, o = GInterfaceList (mkInterfaceListRequest 0) ∨ o = GAddressFlush id ∨
    o = GInterfaceDel (mkInterfaceDelRequest id)) (gcBridgeIfEmpty id).
Proof. unfold gcBridgeIfEmpty. footprint; auto. Qed.

Lemma reap_footprint sock id valid ifaces b :
  uses_only (S := CniSig) (λ o, ∃ iface, iface ∈ ifaces ∧ is_stale id valid iface = true ∧
      (o = GInterfaceDel (mkInterfaceDelRequest (if_ID iface)) ∨
       o = Remove (vhostSocketPath sock (if_Name iface))))
    (reap sock id valid ifaces b).
Proof.
  revert b. induction ifaces as [|iface l IH]; intros b; [exact I|].
  assert (∀ b, uses_only (S := CniSig) (λ o, ∃ i, i ∈ iface :: l ∧ is_stale id valid i = true ∧
      (o = GInterfaceDel (mkInterfaceDelRequest (if_ID i)) ∨
       o = Remove (vhostSocketPath sock (if_Name i)))) (reap sock id valid l b)) as IH'.
  { intros b'. eapply uses_only_mono; [apply IH|]. set_solver. }
  cbn [reap]. destruct (is_stale id valid iface) eqn:Es; [|apply IH'].
  assert (iface ∈ iface :: l) by set_solver.
  footprint; [naive_solver| |apply IH'..]. unfold removeVhostSocket. footprint. naive_solver.
Qed.
End footprints.

#[export] Hint Resolve moveLink_footprint configurePod_footprint verifyPod_footprint
  ensureBridge_footprint assign_gateways_footprint gcBridge_footprint reap_footprint : footprint.

(** ** The production configurations: nothing is injected *)

Section production.
Context `{CniTypes}.

Definition production_add (cfg : AddConfig) : Prop :=
  add_IPAMAdd cfg = None ∧ add_IPAMDel cfg = None ∧ add_MoveLink cfg = None ∧
  add_ConfigurePodIface cfg = None.
Definition production_del (cfg : DelConfig) : Prop :=
  del_IPAMDel cfg = None ∧ del_VerifyPodIface cfg = None.
Definition production_gc (cfg : GCConfig) : Prop := gc_IPAMGC cfg = None.
End production.

Section lockless_bodies.
Context `{CniLib}.

Lemma add_attach_lockless cfg tap r : production_add cfg → lockless (add_attach cfg tap r).
Proof.
  intros (E1 & E2 & E3 & E4).
  unfold lockless, add_attach, add_port, finish_add, add_fail, cleanupAfterAddFailure, ipamDel, delegateIPAMDel.
  rewrite E2, E3, E4. simpl default.
  footprint; try done; (eapply uses_only_mono; [eauto with footprint|]).
  - by intros ? [->| ->].
  - by intros ? (? & _ & ->).
  - by intros [].
  - by intros [].
Qed.

(** ** The four verbs *)

(** A call of the plugin that reaches a handler. *)
Inductive verb :=
| VAdd (cfg : AddConfig)
| VDel (cfg : DelConfig)
| VCheck (cfg : DelConfig)
| VGC (cfg : GCConfig).

Definition verb_conf (v : verb) : PluginConf :=
  match v with
  | VAdd cfg => add_Config cfg
  | VDel cfg | VCheck cfg => del_Config cfg
  | VGC cfg => gc_Config cfg
  end.

Definition production (v : verb) : Prop :=
  match v with
  | VAdd cfg => production_add cfg
  | VDel cfg | VCheck cfg => production_del cfg
  | VGC cfg => production_gc cfg
  end.

(** How a call ends, as the runtime sees it: success, an error, or a crash. *)
Inductive verdict := Succeeded | Errored | Crashed.

Definition verdict_of {A} (out : outcome (result A)) : verdict :=
  match out with
  | Returns (Ok _) => Succeeded
  | Returns (Err _) => Errored
  | Panics => Crashed
  end.

Definition run_verb (v : verb) : cni verdict :=
  match v with
  | VAdd cfg => verdict_of <$> HandleAdd cfg
  | VDel cfg => verdict_of <$> HandleDel cfg
  | VCheck cfg => verdict_of <$> HandleCheck cfg
  | VGC cfg => verdict_of <$> HandleGC cfg
  end.

Lemma ipamDel_lockless config args : lockless (ipamDel None config args).
Proof. unfold lockless, ipamDel, delegateIPAMDel. simpl default. by footprint. Qed.

(** Every verb is a body without lock operations, under the lock. *)
Lemma verb_locked v :
  production v →
  ∃ A (body : cni (outcome (result A))),
    run_verb v = (verdict_of <$> with_lock (GroutSocketPath (verb_conf v)) body) ∧ lockless body.
Proof.
  intros Hp. destruct v as [cfg|cfg|cfg|cfg]; cbn [production run_verb verb_conf] in *;
    (eexists _, _; split; [reflexivity|]); unfold lockless.
  - pose proof (add_attach_lockless cfg) as Hatt. unfold lockless in Hatt.
    destruct (Hp) as (E1 & _). rewrite E1. simpl default. unfold delegateIPAMAdd.
    footprint; [done|]. by apply Hatt.
  - destruct Hp as [E _]. rewrite E. pose proof ipamDel_lockless as Hdel. unfold lockless in Hdel.
    unfold removeVhostSocket. footprint; try done; try apply Hdel.
    eapply uses_only_mono; [eauto with footprint|]. by intros ? [->|[->| ->]].
  - destruct Hp as [_ E]. rewrite E. unfold fileExists. footprint; try done.
    eapply uses_only_mono; [apply verifyPod_footprint|]. by intros [].
  - unfold production_gc in Hp. rewrite Hp. unfold gcIPAM, delegateIPAMGC. simpl default.
    footprint; try done; (eapply uses_only_mono; [eauto with footprint|]).
    + by intros ? (? & _ & _ & [->| ->]).
    + by intros ? [->|[->| ->]].
Qed.

Lemma verb_discipline v :
  production v →
  gwp (lock_step (lockPathForSocket (GroutSocketPath (verb_conf v)))) (run_verb v) Idle (λ g _, g = Idle ∨ g = Done).
Proof.
  intros (A & body & -> & Hb)%verb_locked. unfold fmap, prog_fmap. apply gwp_bind. by apply with_lock_discipline.
Qed.

(** Every verb works under the lock of its grout socket: whatever the
    environment answers, and whether the handler returns or panics, each
    operation on grout, the IPAM plugin, the pod's namespace or the socket
    files happens between a successful flock of that socket's lock file and its
    release; the file is always unlocked and closed at the end; and when the
    lock cannot be opened or taken, nothing is done at all. *)
Theorem verbs_serialized v :
  production v →
  always (run_verb v) (λ t _, serialized (lockPathForSocket (GroutSocketPath (verb_conf v))) t).
Proof.
  intros Hp. apply (gwp_always _ _ Idle (λ g _, g = Idle ∨ g = Done)). by apply verb_discipline.
Qed.
End lockless_bodies.
