(* ===== verification/Ledger.v ===== *)
(** * Ledger: what a handler acquires, it keeps or gives back

    The ledger folds what a handler did into the resources it holds: IPAM
    allocations, grout ports, namespace handles, being inside a namespace, the
    descriptor of the lock file and the lock.  A release counts when it is
    requested: the plugin releases on a best-effort basis and goes on when a
    release fails.  [stray] collects deletions of interfaces the handler did
    not create itself and address flushes. *)

From S2P Require Import Prelude Bytes NetIP Types GoLib Cni PortName Config Lock Netns Handler Serial.
From Stdlib Require Import Lia ZArith.
Open Scope Z_scope.

Inductive resource := RLease | RPort (id : Z) | RNs | RInside | RFd (fd : Z) | RLock (fd : Z).

#[global] Instance resource_eq_dec : EqDecision resource.
Proof. solve_decision. Defined.

(** One entry less, the latest first. *)
Fixpoint give_back (x : resource) (held : list resource) : list resource :=
  match held with
  | [] => []
  | y :: held => if decide (y = x) then held else y :: give_back x held
  end.

Record ledger (R : Type) := mkLedger { held : list resource; stray : list Z; answered : option R }.
Arguments mkLedger {R}.
Arguments held {R}.
Arguments stray {R}.
Arguments answered {R}.

Section ledger.
Context `{CniLib}.
Implicit Types g : ledger RawResult.

Definition push (x : resource) g := mkLedger (x :: held g) (stray g) (answered g).
Definition pop (x : resource) g := mkLedger (give_back x (held g)) (stray g) (answered g).

(** [answered] is the answer of the IPAM plugin to ADD. *)
Definition ledger_step g (e : event CniSig) : ledger RawResult :=
  match e with
  | existT (DelegateAdd _ _) (Ok raw) => mkLedger (RLease :: held g) (stray g) (Some raw)
  | existT (DelegateDel _ _) _ => pop RLease g
  | existT (GInterfaceAdd r) (Ok resp) =>
      if decide (ia_Type r = Types.InterfaceTypeTAP) then push (RPort (IfaceID resp)) g else g
  | existT (GInterfaceDel r) _ =>
      if decide (RPort (id_IfaceID r) ∈ held g) then pop (RPort (id_IfaceID r)) g
      else mkLedger (held g) (id_IfaceID r :: stray g) (answered g)
  | existT (GAddressFlush id) _ => mkLedger (held g) (id :: stray g) (answered g)
  | existT (GetNS _) (Ok _) => push RNs g
  | existT (NsClose _) _ => pop RNs g
  | existT (NsEnter _) (Ok _) => push RInside g
  | existT (NsLeave _) _ => pop RInside g
  | existT (OpenLock _) (Ok fd) => push (RFd fd) g
  | existT (CloseFd fd) _ => pop (RFd fd) g
  | existT (FlockEx fd) Locked => push (RLock fd) g
  | existT (FlockUn fd) _ => pop (RLock fd) g
  | _ => g
  end.

Definition ledger_of (t : trace CniSig) : ledger RawResult :=
  foldl ledger_step (mkLedger [] [] None) t.

(** A program that gives back everything it takes. *)
Definition balanced {A} (p : cni A) : Prop :=
  ∀ g (Q : ledger RawResult → A → Prop), (∀ a, Q g a) → gwp ledger_step p g Q.

Lemma pop_push x g : pop x (push x g) = g.
Proof. unfold pop, push. simpl. rewrite decide_True by done. by destruct g. Qed.

Lemma balanced_ret {A} (a : A) : balanced (mret a).
Proof. intros g Q HQ. apply HQ. Qed.
Lemma balanced_bind {A B} (p : cni A) (f : A → cni B) :
  balanced p → (∀ a, balanced (f a)) → balanced (p ≫= f).
Proof. intros Hp Hf g Q HQ. apply gwp_bind, Hp. intros a. by apply Hf. Qed.
Lemma balanced_try {A B} (p : cni (result A)) e (f : A → cni (result B)) :
  balanced p → (∀ a, balanced (f a)) → balanced (try_ p e f).
Proof. intros Hp Hf. apply balanced_bind; [done|]. intros [a|?]; [apply Hf|apply balanced_ret]. Qed.
Lemma balanced_op o : (∀ g r, ledger_step g (existT o r) = g) → balanced (op_call o).
Proof. intros Ho g Q HQ r. rewrite Ho. apply HQ. Qed.

(** Namespaces are left and closed on every path. *)
Lemma balanced_ns_Do {A} n e (f : cni A) : balanced f → balanced (ns_Do n e f).
Proof.
  intros Hf g Q HQ. unfold ns_Do. apply gwp_bind. intros [[]|err]; simpl; [|apply HQ].
  apply gwp_bind, Hf. intros a []. simpl. by rewrite pop_push.
Qed.
Lemma balanced_ns {A} path e (f : NetNS → cni (result A)) :
  (∀ n, balanced (f n)) →
  balanced (try_ (op_call (GetNS path)) e (λ n, r ← f n; _ ← op_call (NsClose n); mret r)).
Proof.
  intros Hf g Q HQ. apply gwp_bind. intros [n|err]; simpl; [|apply HQ].
  apply gwp_bind, Hf. intros a r. simpl. by rewrite pop_push.
Qed.
End ledger.

Create HintDb ledger.
#[export] Hint Resolve balanced_ret : ledger.

Ltac balance :=
  repeat match goal with
  | |- balanced (op_call ?o) => apply (balanced_op o); 
      let x := fresh in intros ? x; (reflexivity || (destruct x; reflexivity))
  | |- balanced (mret _) => apply balanced_ret
  | |- balanced (mbind _ _) => apply balanced_bind; [|intros ?]
  | |- balanced (try_ _ _ _) => apply balanced_try; [|intros ?]
  | |- balanced (ns_Do _ _ _) => apply balanced_ns_Do
  | |- balanced (match ?x with _ => _ end) => destruct x
  end.

Section balanced_parts.
Context `{CniLib}.

Lemma moveLink_balanced l n : balanced (moveLinkToNamespace l n).
Proof.
  unfold moveLinkToNamespace. apply balanced_try; [balance|]. intros link g Q HQ.
  apply gwp_bind. intros [h|err]; simpl; [|apply HQ]. intros r r'. rewrite pop_push. apply HQ.
Qed.

Lemma configurePod_balanced n h p m r : balanced (configurePodInterface n h p m r).
Proof.
  unfold configurePodInterface. apply balanced_ns. intros h'.
  unfold configure_in_ns, rename_link, set_link_mtu, set_link_mac. balance.
Qed.

Lemma verifyPod_balanced n p ips : balanced (verifyPodInterface n p ips).
Proof. unfold verifyPodInterface. apply balanced_ns. intros h. unfold verify_in_ns. balance. Qed.

Lemma ensureBridge_balanced name : balanced (ensureBridge name).
Proof. unfold ensureBridge. balance. Qed.

Lemma assign_gateways_balanced id gws : balanced (assign_gateways id gws).
Proof. induction gws as [|gw gws IH]; cbn [assign_gateways]; balance. apply IH. Qed.
End balanced_parts.

Section add_ledger.
Context `{CniLib}.

Definition empty_ledger : ledger RawResult := mkLedger [] [] None.

Lemma with_lock_ledger {A} path (body : cni (outcome (result A))) (Q : ledger RawResult → _ → Prop) :
  (∀ fd, gwp ledger_step body (mkLedger [RLock fd; RFd fd] [] None)
           (λ g a, Q (pop (RFd fd) (pop (RLock fd) g)) a)) →
  (∀ e, Q empty_ledger (Returns (Err e))) →
  gwp ledger_step (with_lock path body) empty_ledger Q.
Proof.
  intros Hb He. unfold with_lock, NewFileLock, FileLock_Lock.
  repeat rewrite ?gwp_bind. apply (gwp_mono _ _ _ (λ g _, g = empty_ledger)).
  { case_decide; [intros r; done|done]. }
  intros ? [[]|e] ->; [|apply He].
  rewrite gwp_bind. intros [fd|e]; simpl; [|apply He].
  intros [|e|]; simpl.
  - apply gwp_bind. eapply gwp_mono; [apply Hb|]. intros g a HQ r r'. done.
  - intros _. rewrite (pop_push (RFd fd) empty_ledger). apply He.
  - intros _. rewrite (pop_push (RFd fd) empty_ledger). apply He.
Qed.

(** Without a panic over the gateways there is none over the result. *)
Lemma gateways_point_ips idx s4 s6 ips gws :
  gateways_loop s4 s6 ips = Some gws → is_Some (point_ips idx ips).
Proof.
  revert s4 s6 gws. induction ips as [|[ip|] ips IH]; intros s4 s6 gws Hg; simpl in *; [by eexists| |done].
  assert (is_Some (point_ips idx ips)) as [? ->]; [|by eexists].
  case_match; [by eapply IH|].
  destruct (gateway_of ip); simpl in Hg; [|done].
  destruct (gateways_loop _ _ ips) eqn:E; [by eapply IH|done].
Qed.

Section production.
Variable cfg : AddConfig.
Hypothesis Hprod : production_add cfg.

Lemma add_fail_ledger {A} e g (Q : ledger RawResult → outcome (result A) → Prop) :
  Q (pop RLease g) (Returns (Err e)) → gwp ledger_step (add_fail cfg e) g Q.
Proof.
  intros HQ. destruct Hprod as (_ & E & _). unfold add_fail, ipamDel. rewrite E. intros r. exact HQ.
Qed.

Lemma cleanup_ledger id g (Q : ledger RawResult → unit → Prop) :
  Q (pop RLease g) tt → gwp ledger_step (cleanupAfterAddFailure cfg id) (push (RPort id) g) Q.
Proof.
  intros HQ. destruct Hprod as (_ & E & _). unfold cleanupAfterAddFailure, ipamDel. rewrite E.
  intros r. simpl. rewrite decide_True by set_solver. intros r'. by rewrite pop_push.
Qed.

Variables (base : list resource) (raw : RawResult) (conv : Result).
Hypothesis Hconv : convertResult raw = Ok conv.

(** What an ADD leaves held beyond [base]. *)
Definition add_outcome (base : list resource) (g : ledger RawResult) (out : outcome (result Result)) : Prop :=
  stray g = [] ∧
  match out with
  | Returns (Ok _) => ∃ id, held g = RPort id :: RLease :: base
  | Returns (Err _) =>
      held g = base ∨
      (held g = RLease :: base ∧ ∃ raw e, answered g = Some raw ∧ convertResult raw = Err e)
  | Panics =>
      held g = RLease :: base ∧
      ∃ raw r, answered g = Some raw ∧ convertResult raw = Ok r ∧ gatewaysFor r = None
  end.

Definition leased : ledger RawResult := mkLedger (RLease :: base) [] (Some raw).

Lemma released_outcome e : add_outcome base (pop RLease leased) (Returns (Err e)).
Proof. by split; [|left]. Qed.

Lemma finish_add_ledger tap sock resp gws :
  gatewaysFor conv = Some gws →
  gwp ledger_step (finish_add cfg tap sock conv resp) (push (RPort (IfaceID resp)) leased) (add_outcome base).
Proof.
  intros Hg. destruct (gateways_point_ips 0 _ _ _ _ Hg) as [ips Hips].
  assert (∀ r, add_outcome base (push (RPort (IfaceID resp)) leased) (Returns (Ok r))) as Hok.
  { intros r. split; [done|]. by eexists. }
  destruct Hprod as (_ & _ & E3 & E4).
  unfold finish_add, vhostResult, podResult. rewrite Hips, E3, E4. cbn [default mbind option_bind].
  case_match; [apply Hok|]. case_decide; [apply Hok|].
  apply gwp_bind, moveLink_balanced. intros [[]|e].
  - apply gwp_bind, configurePod_balanced. intros [r|e]; [apply Hok|].
    apply gwp_bind, cleanup_ledger. apply released_outcome.
  - apply gwp_bind, cleanup_ledger. apply released_outcome.
Qed.

Lemma add_attach_ledger tap : gwp ledger_step (add_attach cfg tap conv) leased (add_outcome base).
Proof.
  unfold add_attach. apply gwp_bind, ensureBridge_balanced. intros [id|e];
    [|apply add_fail_ledger, released_outcome].
  destruct (gatewaysFor conv) as [gws|] eqn:Hg.
  - apply gwp_bind, assign_gateways_balanced. intros [[]|e]; [|apply add_fail_ledger, released_outcome].
    unfold add_port. apply gwp_bind.
    assert (balanced (if is_virtio (add_Config cfg)
              then op_call (MkdirAll (Dir (if is_virtio (add_Config cfg)
                     then vhostSocketPath (GroutSocketPath (add_Config cfg)) tap else [])))
              else mret (Ok tt))) as Hdir by balance.
    apply Hdir. intros [[]|e]; [|apply add_fail_ledger, released_outcome].
    apply gwp_bind. intros [resp|e]; [|apply add_fail_ledger, released_outcome].
    by eapply finish_add_ledger.
  - split; [done|]. split; [done|]. by exists raw, conv.
Qed.
End production.

Lemma pop_lock_outcome fd g out :
  add_outcome [RLock fd; RFd fd] g out → add_outcome [] (pop (RFd fd) (pop (RLock fd) g)) out.
Proof.
  intros [Hs Hout]. split; [done|]. unfold pop. cbn [held answered].
  destruct out as [[r|e]|]; [destruct Hout as [id ->]|destruct Hout as [->|[-> ?]]|destruct Hout as [-> ?]];
    simpl; repeat (rewrite decide_True by done || rewrite decide_False by done; simpl); eauto.
Qed.

(** C3: ADD is transactional.  Whatever grout, the IPAM plugin, the kernel and
    the file system answer: if it succeeds, exactly one IPAM allocation and one
    grout port are held; if it returns an error, the port (if it was created)
    has been deleted and the allocation (if there was one) has been released,
    except when the IPAM plugin's answer could not be converted, where the
    allocation is kept; it panics only when the answer has a nil entry or an
    address without a gateway whose mask does not fit, with the allocation
    kept.  On all paths no namespace handle stays open, the namespace entered is
    left, the lock is released and closed, and no interface it did not create
    is deleted and no address is flushed: the shared bridge is left alone. *)
Theorem HandleAdd_transactional cfg :
  production_add cfg → always (HandleAdd cfg) (λ t out, add_outcome [] (ledger_of t) out).
Proof.
  intros Hp. apply (gwp_always ledger_step _ empty_ledger (add_outcome [])).
  unfold HandleAdd. apply with_lock_ledger; [|split; [done|by left]].
  intros fd. eapply gwp_mono; [|by apply pop_lock_outcome].
  destruct (Hp) as (E1 & _). rewrite E1. cbn [default]. unfold delegateIPAMAdd.
  repeat rewrite ?gwp_bind. intros [raw|e]; simpl; [|split; [done|by left]].
  destruct (convertResult raw) as [conv|e] eqn:Hc.
  - by apply (add_attach_ledger cfg Hp [RLock fd; RFd fd] raw conv Hc).
  - split; [done|]. right. split; [done|]. by exists raw, e.
Qed.
End add_ledger.
