(* ===== verification/Runs.v ===== *)
(** * Runs: what DEL, CHECK and GC do on every run

    Statements over the trace of a run: which operations a handler performed,
    in terms of the answers it got, whatever these were. *)

From S2P Require Import Prelude Bytes NetIP Types GoLib Cni PortName Config Lock Netns Handler Serial.
From Stdlib Require Import Lia ZArith.
Open Scope Z_scope.

Section ops.
Context `{CniLib}.

Definition ops (t : trace CniSig) : list cni_op := projT1 <$> t.

(** An operation on the lock file, or the creation of its directory. *)
Definition lockish (o : cni_op) : Prop := is_lock o = true ∨ ∃ p, o = MkdirAll p.

Definition list_all : cni_op := GInterfaceList (mkInterfaceListRequest 0).

Lemma ops_app t t' : ops (t ++ t') = ops t ++ ops t'.
Proof. apply fmap_app. Qed.

(** The operations that change what grout holds, and those on the IPAM plugin. *)
Definition is_mutation (o : cni_op) : bool :=
  match o with
  | GInterfaceAdd _ | GInterfaceDel _ | GAddressAdd _ | GAddressFlush _ => true
  | _ => false
  end.
(** The events of a call other than those on its lock. *)
Definition is_work (o : cni_op) : bool :=
  match o with OpenLock _ | FlockEx _ | FlockUn _ | CloseFd _ | MkdirAll _ => false | _ => true end.
Definition work (t : trace CniSig) : trace CniSig :=
  filter (λ e, is_work (projT1 e) = true) (t : list (event CniSig)).

Lemma work_lockish t : Forall lockish (ops t) → work t = [].
Proof.
  induction t as [|[o r] t IH]; [done|]. intros [Ho Ht]%Forall_cons. unfold work.
  rewrite filter_cons_False; [by apply IH|]. simpl in *. destruct Ho as [Ho|[p ->]]; [by destruct o|done].
Qed.

Lemma work_all t : Forall (λ o, is_work o = true) (ops t) → work t = t.
Proof.
  induction t as [|[o r] t IH]; [done|]. intros [Ho Ht]%Forall_cons. unfold work.
  rewrite filter_cons_True by done. f_equal. by apply IH.
Qed.

Lemma work_app t t' : work (t ++ t') = work t ++ work t'.
Proof. apply filter_app. Qed.

Lemma uses_only_ops {A} (P : cni_op → Prop) (p : cni A) :
  uses_only (S := CniSig) P p → always p (λ t _, Forall P (ops t)).
Proof.
  intros Hp. eapply wp_mono; [by apply uses_only_trace|]. intros t a Ht. by apply Forall_fmap.
Qed.

(** The trace of a handler: the lock, the body, the release. *)
Lemma with_lock_runs {A} path (body : cni (outcome (result A))) (R Q : trace CniSig → _ → Prop) :
  always body R →
  (∀ t e, Forall lockish (ops t) → Q t (Returns (Err e))) →
  (∀ pre t post a, Forall lockish (ops pre) → Forall lockish (ops post) → R t a →
     Q (pre ++ t ++ post) a) →
  always (with_lock path body) Q.
Proof.
  intros Hb He HQ. unfold always, with_lock, NewFileLock, FileLock_Lock.
  rewrite !wp_bind. apply (wp_mono _ _ (λ t _, Forall lockish (ops t))).
  { case_decide; [|by constructor]. intros r. constructor; [|done]. right. by eexists. }
  intros t [[]|e] Ht; [|by apply He].
  rewrite wp_bind. intros [fd|e]; simpl.
  2:{ apply He. rewrite ops_app. apply Forall_app. split; [done|]. repeat constructor. }
  set (t1 := t ++ _).
  assert (Forall lockish (ops t1)) as Ht1.
  { unfold t1. rewrite ops_app. apply Forall_app. split; [done|]. repeat constructor. }
  assert (∀ r, Forall lockish (ops (t1 ++ [existT (P := res CniSig) (FlockEx fd) r]))) as Ht2.
  { intros r. rewrite ops_app. apply Forall_app. split; [done|]. repeat constructor. }
  assert (∀ r r' e, Q ((t1 ++ [existT (P := res CniSig) (FlockEx fd) r]) ++
                     [existT (P := res CniSig) (CloseFd fd) r']) (Returns (Err e))) as Hfail.
  { intros r r' e. apply He. rewrite ops_app. apply Forall_app. split; [apply Ht2|]. repeat constructor. }
  intros [|e|]; simpl; [|intros r; apply Hfail..].
  apply wp_bind. eapply wp_frame; [exact Hb|].
  intros t' a HR r r'. rewrite <-!app_assoc. rewrite app_assoc.
  apply HQ; [apply Ht2|repeat constructor|done].
Qed.

(** A handler whose body does not touch the lock: what its body does is all the
    work of the call, and there is none when the lock is not taken. *)
Lemma with_lock_work {A} path (body : cni (outcome (result A))) (R : trace CniSig → _ → Prop) :
  uses_only (S := CniSig) (λ o, is_work o = true) body → always body R → (∀ e, R [] (Returns (Err e))) →
  always (with_lock path body) (λ t, R (work t)).
Proof.
  intros Hu Hb He. eapply with_lock_runs; [apply (wp_both _ _ _ _ (uses_only_ops _ _ Hu) Hb)|..].
  - intros t e Ht. by rewrite work_lockish.
  - intros pre t post a Hpre Hpost [Ht HR]. rewrite !work_app.
    by rewrite (work_lockish pre), (work_lockish post), work_all, app_nil_r.
Qed.
End ops.

(** An operation with its answer. *)
Abbreviation ev o r := (existT (P := res CniSig) o r).

Lemma wp_op `{CniTypes} o t (Q : trace CniSig → cni_res o → Prop) :
  (∀ r, Q (t ++ [existT (P := res CniSig) o r]) r) → wp (op_call o) t Q.
Proof. done. Qed.

(** Up to the next operation, whose answer is introduced by [pat]. *)
Tactic Notation "wp_step" simple_intropattern(pat) :=
  repeat match goal with |- wp (mbind _ _) _ _ => apply (proj2 (wp_bind _ _ _ _)) end;
  match goal with |- wp (op_call ?o) _ _ => apply (wp_op o) end; intros pat; cbv beta iota.

(** Every operation of a concrete list satisfies a predicate. *)
Ltac all_ops := repeat (apply Forall_cons_2; [done|]); apply Forall_nil_2.

(** ** The bridge *)

Lemma findBridgeID_some l name id :
  findBridgeID l name = Some id → ∃ b, b ∈ l ∧ if_Name b = name ∧ if_Type b = InterfaceTypeBridge ∧ if_ID b = id.
Proof.
  induction l as [|i l IH]; simpl; [done|]. case_decide; intros ?; simplify_eq; [|set_solver].
  exists i. set_solver.
Qed.


Section bridge.
Context `{CniLib}.

(** The bridge can go: the id is in the list, only as a bridge, and no interface
    has it as its domain. *)
Definition bridge_empty (id : Z) (ifaces : list InterfaceInfo) : Prop :=
  (∃ b, b ∈ ifaces ∧ if_ID b = id) ∧
  (∀ b, b ∈ ifaces → if_ID b = id → if_Type b = InterfaceTypeBridge) ∧
  (∀ p, p ∈ ifaces → if_Domain p ≠ id).

Lemma gc_scan_spec id found ifaces :
  gc_scan id found ifaces = true ↔
  (found = true ∨ ∃ b, b ∈ ifaces ∧ if_ID b = id) ∧
  (∀ b, b ∈ ifaces → if_ID b = id → if_Type b = InterfaceTypeBridge) ∧
  (∀ p, p ∈ ifaces → if_Domain p ≠ id).
Proof.
  revert found. induction ifaces as [|i l IH]; intros found; simpl.
  { set_solver. }
  case_decide as H1; [set_solver|]. case_decide as H2; [set_solver|].
  rewrite IH, orb_true_iff, bool_decide_eq_true.
  assert (if_ID i = id → if_Type i = InterfaceTypeBridge) by (intros; apply dec_stable; naive_solver).
  set_solver.
Qed.

Lemma gc_scan_empty id ifaces : gc_scan id false ifaces = true ↔ bridge_empty id ifaces.
Proof. rewrite gc_scan_spec. unfold bridge_empty. naive_solver. Qed.

#[global] Instance bridge_empty_dec id ifaces : Decision (bridge_empty id ifaces).
Proof.
  destruct (gc_scan id false ifaces) eqn:E; [left; by apply gc_scan_empty|right].
  rewrite <-gc_scan_empty. by rewrite E.
Defined.

(** The events of a garbage collection of the bridge [id]. *)
Inductive collects (id : Z) : trace CniSig → Prop :=
| collects_unlisted e : collects id [ev list_all (Err e)]
| collects_used l : ¬ bridge_empty id l → collects id [ev list_all (Ok l)]
| collects_empty l r r' :
    bridge_empty id l →
    collects id [ev list_all (Ok l); ev (GAddressFlush id) r; ev (GInterfaceDel (mkInterfaceDelRequest id)) r'].

(** The bridge is garbage-collected exactly when it is empty: after one
    listing of the interfaces, it is flushed and then deleted, in this order,
    if the id is listed, is still a bridge, and is the domain of no interface;
    otherwise, or when the listing fails, nothing is done.  No other interface
    is touched. *)
Lemma gcBridge_runs id : always (gcBridgeIfEmpty id) (λ t _, collects id t).
Proof.
  unfold gcBridgeIfEmpty, always. wp_step [l|e]; [|apply collects_unlisted].
  destruct (gc_scan id false l) eqn:Es.
  - apply gc_scan_empty in Es. intros r r'. by apply (collects_empty id l r r').
  - apply collects_used. rewrite <-gc_scan_empty. by rewrite Es.
Qed.
End bridge.

(** ** DEL *)

Section del.
Context `{CniLib}.

Lemma removeVhostSocket_wp sock name t (Q : trace CniSig → unit → Prop) :
  (∀ r, Q (t ++ [existT (P := res CniSig) (Remove (vhostSocketPath sock name)) r]) tt) →
  wp (removeVhostSocket sock name) t Q.
Proof. done. Qed.

(** The removal of the port [name] by DEL: the first listed port of that name is
    deleted, its socket file removed, and its bridge, if it has one, collected. *)
Inductive del_port (sock name : gostring) (l : list InterfaceInfo) : trace CniSig → Prop :=
| del_absent : name ∉ if_Name <$> l → del_port sock name l []
| del_present l1 port l2 r r' tgc :
    l = l1 ++ port :: l2 → name ∉ if_Name <$> l1 → if_Name port = name →
    (if decide (if_Domain port = 0) then tgc = [] else collects (if_Domain port) tgc) →
    del_port sock name l
      (ev (GInterfaceDel (mkInterfaceDelRequest (if_ID port))) r :: ev (Remove (vhostSocketPath sock name)) r' :: tgc).

(** What DEL does, and what it returns. *)
Inductive del_outcome (cfg : DelConfig) : trace CniSig → outcome (result unit) → Prop :=
| del_unlocked e : del_outcome cfg [] (Returns (Err e))
| del_unlisted e e' : del_outcome cfg [ev list_all (Err e)] (Returns (Err e'))
| del_done l t r :
    del_port (GroutSocketPath (del_Config cfg))
      (groutPortName (ContainerID (del_Args cfg)) (IfName (del_Args cfg))) l t →
    del_outcome cfg
      (ev list_all (Ok l) :: t ++
       [ev (DelegateDel (IPAM_Type (IPAM_conf (del_Config cfg))) (StdinData (del_Args cfg))) r]) (Returns (Ok tt)).

Lemma findPortByName_first l name :
  match findPortByName l name with
  | Some port => ∃ l1 l2, l = l1 ++ port :: l2 ∧ name ∉ if_Name <$> l1 ∧ if_Name port = name
  | None => name ∉ if_Name <$> l
  end.
Proof.
  induction l as [|i l IH]; simpl; [set_solver|]. case_decide as Hi.
  - exists [], l. by split_and!; [|apply not_elem_of_nil|].
  - destruct (findPortByName l name) as [port|]; [|set_solver].
    destruct IH as (l1 & l2 & -> & Hn & Hp). exists (i :: l1), l2. split_and!; [done|set_solver|done].
Qed.

End del.

(** ** CHECK *)

Section check.
Context `{CniLib}.

(** A pod's interface that is as it should be, seen from inside the namespace at
    [ns]: the namespace is entered, the interface is found and up, every expected
    address is among those it has, and the namespace is left. *)
Inductive pod_verified (ns ifName : gostring) (expected : list IPNet) : trace CniSig → Prop :=
| pod_up n link r :
    Z.land (link_flags link) FlagUp ≠ 0 → expected = [] →
    pod_verified ns ifName expected
      [ev (GetNS ns) (Ok n); ev (NsEnter n) (Ok tt); ev (LinkByName ifName) (Ok link); ev (NsLeave n) tt; ev (NsClose n) r]
| pod_addressed n link addrs r :
    Z.land (link_flags link) FlagUp ≠ 0 →
    (∀ want, want ∈ expected → ∃ net, Some net ∈ addrs ∧ IP_Equal (IPNet_IP net) (IPNet_IP want) = true) →
    pod_verified ns ifName expected
      [ev (GetNS ns) (Ok n); ev (NsEnter n) (Ok tt); ev (LinkByName ifName) (Ok link);
       ev (AddrList link) (Ok addrs); ev (NsLeave n) tt; ev (NsClose n) r].

Lemma addrPresent_spec addrs ip :
  addrPresent addrs ip = true ↔ ∃ n, Some n ∈ addrs ∧ IP_Equal (IPNet_IP n) ip = true.
Proof.
  unfold addrPresent. rewrite existsb_exists. split.
  - intros ([n|] & Hn%list_elem_of_In & Heq); [by exists n|done].
  - intros (n & Hn & Heq). exists (Some n). by rewrite <-list_elem_of_In.
Qed.

Lemma missing_addr_none addrs expected :
  missing_addr addrs expected = None ↔ ∀ want, want ∈ expected → addrPresent addrs (IPNet_IP want) = true.
Proof.
  induction expected as [|w l IH]; simpl; [set_solver|].
  destruct (addrPresent addrs (IPNet_IP w)) eqn:E; [rewrite IH|]; [set_solver|].
  split; [done|]. intros Hall. rewrite Hall in E by set_solver. done.
Qed.

(** The interface and the addresses that a run was told of. *)
Definition link_seen (e : event CniSig) : option Link :=
  match e with existT (LinkByName _) (Ok link) => Some link | _ => None end.
Definition addrs_seen (e : event CniSig) : option (list (option IPNet)) :=
  match e with existT (AddrList _) (Ok addrs) => Some addrs | _ => None end.

Lemma pod_verified_seen ns ifName expected t :
  pod_verified ns ifName expected t →
  ∃ link, omap link_seen t = [link] ∧ Z.land (link_flags link) FlagUp ≠ 0 ∧
    (expected = [] ∨ ∃ addrs, omap addrs_seen t = [addrs] ∧ missing_addr addrs expected = None).
Proof.
  intros [n link r Hup ->|n link addrs r Hup Hall]; exists link; (split_and!; [done|done|]); [by left|right].
  exists addrs. split; [done|]. apply missing_addr_none. intros want Hw. apply addrPresent_spec. auto.
Qed.

Ltac unverified :=
  simpl; intros; split; [done|]; intros (? & ? & ? & [?|(? & ? & ?)])%pod_verified_seen; simplify_eq/=.

Lemma verifyPod_runs ns ifName expected :
  always (verifyPodInterface ns ifName expected) (λ t r, r = Ok tt ↔ pod_verified ns ifName expected t).
Proof.
  unfold always, verifyPodInterface, ns_Do, verify_in_ns, try_.
  wp_step [n|e]; [|unverified]. wp_step [[]|e]; [|unverified]. wp_step [link|e]; [|unverified].
  case_decide as Hup; [unverified|]. case_decide as He.
  - intros [] r. split; [intros _; by apply pod_up|done].
  - wp_step [addrs|e]; [|unverified]. destruct (missing_addr addrs expected) as [w|] eqn:Em.
    + unverified.
    + intros [] r. split; [intros _|done]. apply pod_addressed; [done|].
      intros want Hw. apply addrPresent_spec. by eapply missing_addr_none.
Qed.

(** The operations of CHECK: a listing, a look at a file, a look at the pod. *)
Definition is_check_op (o : cni_op) : Prop := o = list_all ∨ is_probe o = true ∨ ∃ p, o = Stat p.

(** What CHECK has seen, after the listing [l], when it succeeds. *)
Definition attachment_seen (cfg : DelConfig) (l : list InterfaceInfo) (t : trace CniSig) : Prop :=
  let conf := del_Config cfg in
  let args := del_Args cfg in
  let name := groutPortName (ContainerID args) (IfName args) in
  name ∈ if_Name <$> l ∧
  if is_virtio conf then t = [ev (Stat (vhostSocketPath (GroutSocketPath conf) name)) true]
  else if decide (Netns args = []) then t = []
  else ∃ expected, expectedPodIPs conf = Ok expected ∧ pod_verified (Netns args) (IfName args) expected t.

Definition check_passed (cfg : DelConfig) (t : trace CniSig) : Prop :=
  ∃ l t', t = ev list_all (Ok l) :: t' ∧ attachment_seen cfg l t'.

Definition check_outcome (cfg : DelConfig) (t : trace CniSig) (out : outcome (result unit)) : Prop :=
  Forall is_check_op (ops t) ∧
  (is_virtio (del_Config cfg) = true → Forall (λ o, is_link o = false) (ops t)) ∧
  out ≠ Panics ∧ (out = Returns (Ok tt) ↔ check_passed cfg t).

Definition listing_seen (e : event CniSig) : option (list InterfaceInfo) :=
  match e with existT (GInterfaceList _) (Ok l) => Some l | _ => None end.
Definition file_seen (e : event CniSig) : option bool :=
  match e with existT (Stat _) present => Some present | _ => None end.

Lemma check_passed_cons cfg r t :
  check_passed cfg (ev list_all r :: t) ↔ ∃ l, r = Ok l ∧ attachment_seen cfg l t.
Proof.
  split; [|intros (l & -> & ?); by exists l, t]. intros (l & t' & E & Hs). pose proof (f_equal (@tail _) E) as Et. simpl in Et. subst t'.
  apply (f_equal (λ t, head t ≫= listing_seen)) in E. destruct r as [l'|e]; simplify_eq/=. by exists l.
Qed.

End check.

(** ** GC *)

Section gc.
Context `{CniLib}.

(** The ports of a network that the runtime no longer lists. *)
Definition stale_ports (conf : PluginConf) (bridgeID : Z) (ifaces : list InterfaceInfo) : list InterfaceInfo :=
  filter (λ i, if_Domain i = bridgeID ∧ HasPrefix (if_Name i) portPrefix = true ∧
               if_Name i ∉ valid_names conf) ifaces.

Lemma is_stale_spec id valid i :
  is_stale id valid i = true ↔
  if_Domain i = id ∧ HasPrefix (if_Name i) portPrefix = true ∧ if_Name i ∉ valid.
Proof.
  unfold is_stale. rewrite !andb_true_iff, negb_true_iff, bool_decide_eq_true, bool_decide_eq_false. naive_solver.
Qed.

Definition port_del (i : InterfaceInfo) : cni_op := GInterfaceDel (mkInterfaceDelRequest (if_ID i)).

(** The reaping of stale ports: every one is deleted, and the socket file of those
    whose deletion succeeded is removed; the boolean tells whether any was. *)
Inductive reaps (sock : gostring) : list InterfaceInfo → trace CniSig → bool → Prop :=
| reaps_nil : reaps sock [] [] false
| reaps_deleted i l t b r :
    reaps sock l t b →
    reaps sock (i :: l) (ev (port_del i) (Ok tt) :: ev (Remove (vhostSocketPath sock (if_Name i))) r :: t) true
| reaps_failed i l t b e : reaps sock l t b → reaps sock (i :: l) (ev (port_del i) (Err e) :: t) b.

Lemma reap_runs conf sock id l b :
  always (reap sock id (valid_names conf) l b) (λ t b', ∃ b2, b' = b || b2 ∧ reaps sock (stale_ports conf id l) t b2).
Proof.
  revert b. induction l as [|i l IH]; intros b; unfold always.
  { exists false. split; [by rewrite orb_false_r|constructor]. }
  cbn [reap]. unfold stale_ports. rewrite filter_cons. fold (stale_ports conf id l).
  destruct (is_stale id (valid_names conf) i) eqn:Es.
  - apply is_stale_spec in Es. rewrite decide_True by done. wp_step [[]|e].
    + apply wp_bind, removeVhostSocket_wp. intros r. eapply wp_frame; [apply IH|].
      intros t b' (b2 & -> & Hr). exists true. split; [by rewrite orb_true_r|]. by eapply (reaps_deleted sock i _ t b2 r).
    + eapply wp_frame; [apply IH|]. intros t b' (b2 & -> & Hr). exists b2. split; [done|]. by apply (reaps_failed sock i).
  - rewrite decide_False; [apply IH|]. intros Hs%is_stale_spec. by rewrite Hs in Es.
Qed.

(** The network's bridge. *)
Definition is_bridge (conf : PluginConf) (b : InterfaceInfo) : Prop :=
  if_Name b = Bridge conf ∧ if_Type b = InterfaceTypeBridge.

Lemma findBridgeID_first l conf :
  match findBridgeID l (Bridge conf) with
  | Some id => ∃ l1 b l2, l = l1 ++ b :: l2 ∧ Forall (λ i, ¬ is_bridge conf i) l1 ∧ is_bridge conf b ∧ if_ID b = id
  | None => Forall (λ i, ¬ is_bridge conf i) l
  end.
Proof.
  induction l as [|i l IH]; simpl; [apply Forall_nil_2|]. case_decide as Hi.
  - exists [], i, l. by split_and!; [|apply Forall_nil_2|..].
  - destruct (findBridgeID l (Bridge conf)) as [id|]; [|by constructor].
    destruct IH as (l1 & b & l2 & -> & Hn & Hb & Hid). exists (i :: l1), b, l2. split_and!; [done|by constructor|done..].
Qed.

(** What GC does between the first listing and the IPAM plugin. *)
Inductive gc_ports (conf : PluginConf) (l : list InterfaceInfo) : trace CniSig → Prop :=
| gc_no_bridge : Forall (λ i, ¬ is_bridge conf i) l → gc_ports conf l []
| gc_bridge l1 b l2 t (reaped : bool) tgc :
    l = l1 ++ b :: l2 → Forall (λ i, ¬ is_bridge conf i) l1 → is_bridge conf b →
    reaps (GroutSocketPath conf) (stale_ports conf (if_ID b) l) t reaped →
    (if reaped then collects (if_ID b) tgc else tgc = []) →
    gc_ports conf l (t ++ tgc).

Inductive gc_outcome (cfg : GCConfig) : trace CniSig → outcome (result unit) → Prop :=
| gc_unlocked e : gc_outcome cfg [] (Returns (Err e))
| gc_unlisted e e' : gc_outcome cfg [ev list_all (Err e)] (Returns (Err e'))
| gc_done l t r :
    gc_ports (gc_Config cfg) l t →
    gc_outcome cfg
      (ev list_all (Ok l) :: t ++
       [ev (DelegateGC (IPAM_Type (IPAM_conf (gc_Config cfg))) (StdinData (gc_Args cfg))) r]) (Returns (Ok tt)).

End gc.

(** ** ADD, when the IPAM plugin's answer cannot be converted *)

Section unconverted.
Context `{CniLib}.

Definition allocated (e : event CniSig) : option RawResult :=
  match e with existT (DelegateAdd _ _) (Ok raw) => Some raw | _ => None end.

Lemma ops_elem (P : cni_op → Prop) (t : trace CniSig) o r : Forall P (ops t) → ev o r ∈ t → P o.
Proof. intros HP Ho. apply (Forall_forall P (ops t)); [done|]. by apply (list_elem_of_fmap_2 projT1) in Ho. Qed.

(** ADD asks the IPAM plugin for an allocation once. *)
Lemma add_attach_allocates_nothing cfg tap r :
  production_add cfg → uses_only (S := CniSig) (λ o, ∀ ty data, o ≠ DelegateAdd ty data) (add_attach cfg tap r).
Proof.
  intros (_ & E2 & E3 & E4).
  unfold add_attach, add_port, finish_add, add_fail, cleanupAfterAddFailure, ipamDel, delegateIPAMDel.
  rewrite E2, E3, E4. cbn [default].
  footprint; try done; (eapply uses_only_mono; [eauto with footprint|]).
  - by intros ? [->| ->].
  - by intros ? (? & _ & ->).
  - by intros [].
  - by intros [].
Qed.

(** C40: The one error path of ADD that keeps the allocation.  On every run of ADD
    in which the IPAM plugin has allocated and its answer cannot be converted to
    the result format, whatever else is answered: ADD returns the conversion
    error, and apart from the operations on its lock that allocation is all it
    has done; the IPAM plugin is never asked to release it. *)
Theorem convert_failure_keeps_lease cfg :
  production_add cfg →
  always (HandleAdd cfg) (λ t out, ∀ ty data raw e,
    ev (DelegateAdd ty data) (Ok raw) ∈ t → NewResultFromResult raw = Err e →
    out = Returns (Err (Errorf "converting IPAM result: %w"
            [AErr (Errorf "converting result to 1.0.0 format: %w" [AErr e])])) ∧
    work t = [ev (DelegateAdd ty data) (Ok raw)]).
Proof.
  intros Hp. destruct (Hp) as (E & _). unfold HandleAdd. rewrite E. cbn [default]. unfold delegateIPAMAdd.
  apply (with_lock_runs _ _ (λ t out, ∀ ty data raw e,
    ev (DelegateAdd ty data) (Ok raw) ∈ t → NewResultFromResult raw = Err e →
    out = Returns (Err (Errorf "converting IPAM result: %w"
            [AErr (Errorf "converting result to 1.0.0 format: %w" [AErr e])])) ∧
    t = [ev (DelegateAdd ty data) (Ok raw)])).
  - unfold always. wp_step answer. simpl app.
    lazymatch goal with |- wp (mret ?a) ?t ?Q => change (Q t a) end. cbv beta. set (first := ev _ answer).
    assert (∀ ty data raw, ev (DelegateAdd ty data) (Ok raw) = first → answer = Ok raw) as Hfirst.
    { intros ty data raw Ef%(f_equal allocated). destruct answer; simplify_eq/=. done. }
    destruct answer as [raw'|e']; cbn [map_err];
      [destruct (convertResult raw') as [conv|e'] eqn:Hc|].
    + eapply wp_frame; [apply (uses_only_ops _ _ (add_attach_allocates_nothing cfg _ conv Hp))|].
      intros t out Ht ty data raw e [Ein|Hin]%elem_of_cons Hr.
      * apply Hfirst in Ein as [= ->]. unfold convertResult in Hc. by rewrite Hr in Hc.
      * by destruct (ops_elem _ _ _ _ Ht Hin ty data).
    + intros ty data raw e Ein%list_elem_of_singleton Hr. rewrite Ein. split; [|done].
      apply Hfirst in Ein as [= ->]. unfold convertResult in Hc. rewrite Hr in Hc. by injection Hc as <-.
    + intros ty data raw e Ein%list_elem_of_singleton. by apply Hfirst in Ein.
  - intros t e Ht ty data raw e' Hin. apply (ops_elem _ _ _ _ Ht) in Hin as [?|[? ?]]; done.
  - intros pre t post out Hpre Hpost HR ty data raw e Hin Hr. rewrite !elem_of_app in Hin.
    destruct Hin as [Hin|[Hin|Hin]]; [by apply (ops_elem _ _ _ _ Hpre) in Hin as [?|[? ?]]|
      |by apply (ops_elem _ _ _ _ Hpost) in Hin as [?|[? ?]]].
    destruct (HR _ _ _ _ Hin Hr) as [-> ->]. split; [done|].
    by rewrite !work_app, (work_lockish pre), (work_lockish post).
Qed.
End unconverted.
