(* ===== verification/Interleave.v ===== *)
(** * Interleave: concurrent calls of the plugin

    The runtime may start several plugin processes at once.  [sys] is a set of
    them, each somewhere in its program, and who holds the exclusive flock(2) of
    the lock file; a step is one operation of one process, with any answer of
    the environment, flock being granted to one holder at a time.  There is one
    lock file, the one that all these processes have opened: this is the view of
    the calls for one grout socket.  Files has a lock per file and shows that
    these calls act as they do here. *)

From stdpp Require Import relations.
From S2P Require Import Prelude Bytes NetIP Types GoLib Cni PortName Config Lock Netns Handler Serial Runs.
From Stdlib Require Import Lia ZArith.
Open Scope Z_scope.
#[local] Opaque groutPortName.

Section interleave.
Context `{CniLib}.

Record sys := mkSys { procs : list (cni verdict); holder : option nat }.

(** The lock after process [i] gave it up, if it had it. *)
Definition release (i : nat) (h : option nat) : option nat := if decide (h = Some i) then None else h.

(** One operation of process [i]: taking the lock when it is free, failing to take
    it, giving it up (unlocking, or closing the file), or anything else. *)
Inductive step (s : sys) (i : nat) : cni_op → sys → Prop :=
| step_lock fd k :
    procs s !! i = Some (Vis (S := CniSig) (FlockEx fd) k) → holder s = None →
    step s i (FlockEx fd) (mkSys (<[i:=k Locked]> (procs s)) (Some i))
| step_lock_fail fd k r :
    procs s !! i = Some (Vis (S := CniSig) (FlockEx fd) k) → r ≠ Locked →
    step s i (FlockEx fd) (mkSys (<[i:=k r]> (procs s)) (holder s))
| step_unlock fd k r :
    procs s !! i = Some (Vis (S := CniSig) (FlockUn fd) k) →
    step s i (FlockUn fd) (mkSys (<[i:=k r]> (procs s)) (release i (holder s)))
| step_close fd k r :
    procs s !! i = Some (Vis (S := CniSig) (CloseFd fd) k) →
    step s i (CloseFd fd) (mkSys (<[i:=k r]> (procs s)) (release i (holder s)))
| step_other o k r :
    procs s !! i = Some (Vis (S := CniSig) o k) → is_lock o = false ∨ (∃ p, o = OpenLock p) →
    step s i o (mkSys (<[i:=k r]> (procs s)) (holder s)).

Definition any_step (s s' : sys) : Prop := ∃ i o, step s i o s'.

(** Calls for one grout instance, none of them started. *)
Definition start (vs : list verb) : sys := mkSys (run_verb <$> vs) None.

Definition reachable (vs : list verb) (s : sys) : Prop := rtc any_step (start vs) s.

(** An operation on grout, the IPAM plugin, a namespace or a socket file. *)
Definition touches (o : cni_op) : Prop := ¬ lockish o.

(** ** The invariant *)

Definition finished (g : lock_state) (_ : verdict) : Prop := g = Idle ∨ g = Done.

(** Every process follows the lock's discipline from where it is, and it is in
    its critical section exactly when it holds the lock. *)
Definition invariant (path : gostring) (s : sys) : Prop :=
  ∀ i p, procs s !! i = Some p →
    ∃ g, gwp (lock_step path) p g finished ∧ ((∃ fd, g = Held fd) ↔ holder s = Some i).

#[global] Instance cni_res_inhabited (o : cni_op) : Inhabited (cni_res o).
Proof. destruct o; exact (populate (Err EOF)) || exact (populate NotExist) || exact (populate true) ||
  exact (populate LockTimeout) || exact (populate tt). Qed.

(** A violation cannot be mended. *)
Lemma gwp_violated path (p : cni verdict) : ¬ gwp (lock_step path) p Violated finished.
Proof.
  induction p as [a|o k IH]; simpl; [by intros []|].
  intros Hp. apply (IH (inhabitant (A := cni_res o))). apply Hp.
Qed.

Lemma lock_step_violated path g o r :
  touches o → (¬ ∃ fd, g = Held fd) → lock_step path g (existT (P := res CniSig) o r) = Violated.
Proof.
  intros Ht Hg. destruct g; simpl; try done; [| |by destruct Hg; eexists|].
  - destruct o; try done; exfalso; apply Ht; [right; by eexists|by left].
  - destruct o; try done. exfalso. apply Ht. by left.
  - destruct o; try done. exfalso. apply Ht. by left.
Qed.

Lemma invariant_start path vs :
  (∀ v, v ∈ vs → production v ∧ lockPathForSocket (GroutSocketPath (verb_conf v)) = path) →
  invariant path (start vs).
Proof.
  intros Hvs i p Hp. simpl in Hp. apply list_lookup_fmap_Some in Hp as (v & -> & Hv).
  apply list_elem_of_lookup_2 in Hv. destruct (Hvs v Hv) as [Hprod <-].
  exists Idle. split; [by apply verb_discipline|]. simpl. naive_solver.
Qed.

(** A process moves on, the others stay. *)
Lemma invariant_update path s i p g h :
  invariant path s → gwp (lock_step path) p g finished →
  ((∃ fd, g = Held fd) ↔ h = Some i) → (∀ j, j ≠ i → h = Some j ↔ holder s = Some j) →
  invariant path (mkSys (<[i:=p]> (procs s)) h).
Proof.
  intros Hinv Hp Hi Hothers j q Hq. simpl in Hq. apply list_lookup_insert_Some in Hq as [(<- & <- & _)|[Hne Hq]].
  - by exists g.
  - destruct (Hinv j q Hq) as (g' & ? & ?). exists g'. split; [done|]. simpl. rewrite Hothers by done. done.
Qed.

Lemma release_other i j h : j ≠ i → release i h = Some j ↔ h = Some j.
Proof. unfold release. case_decide; naive_solver. Qed.

Lemma invariant_step path s i o s' :
  invariant path s → step s i o s' → invariant path s' ∧ (touches o → holder s = Some i).
Proof.
  intros Hinv Hstep.
  assert (∀ k r, procs s !! i = Some (Vis (S := CniSig) o k) → ∃ g,
    gwp (lock_step path) (k r) (lock_step path g (existT (P := res CniSig) o r)) finished ∧
    lock_step path g (existT (P := res CniSig) o r) ≠ Violated ∧ ((∃ fd, g = Held fd) ↔ holder s = Some i)) as Hmove.
  { intros k r Hp. destruct (Hinv i _ Hp) as (g & Hg & Hheld). exists g. split; [apply Hg|]. split; [|done].
    intros Ev. specialize (Hg r). rewrite Ev in Hg. by apply gwp_violated in Hg. }
  split.
  - destruct Hstep as [fd k Hp Hfree|fd k r Hp Hr|fd k r Hp|fd k r Hp|o k r Hp Ho];
      [destruct (Hmove k Locked Hp) as (g & Hg & Hnv & Hheld)|destruct (Hmove k r Hp) as (g & Hg & Hnv & Hheld)..];
      (eapply invariant_update; [done|exact Hg|..]).
    + destruct g; simpl in *; try done; case_decide; try done. naive_solver.
    + intros j Hj. rewrite Hfree. naive_solver.
    + destruct g; simpl in *; try done; case_decide; try done. rewrite <-Hheld. destruct r; naive_solver.
    + done.
    + destruct g; simpl in *; try done; case_decide; try done. unfold release. rewrite decide_True; naive_solver.
    + intros j Hj. by apply release_other.
    + destruct g; simpl in *; try done; case_decide; try done. unfold release. rewrite decide_False; naive_solver.
    + intros j Hj. by apply release_other.
    + rewrite <-Hheld. destruct Ho as [Ho|[p ->]]; [destruct g, o; simpl in *; naive_solver|].
      destruct g; simpl in *; try done. case_decide; [|done]. destruct r; naive_solver.
    + done.
  - intros Ht. assert (∃ k r, procs s !! i = Some (Vis (S := CniSig) o k) ∧ (r : cni_res o) = r) as (k & r & Hp & _).
    { destruct Hstep; eexists _, inhabitant; by split. }
    destruct (Hmove k r Hp) as (g & _ & Hnv & Hheld).
    destruct (decide (holder s = Some i)) as [|Hn]; [done|]. exfalso.
    apply Hnv, lock_step_violated; [done|]. by rewrite Hheld.
Qed.

Lemma invariant_reachable path vs s :
  (∀ v, v ∈ vs → production v ∧ lockPathForSocket (GroutSocketPath (verb_conf v)) = path) →
  reachable vs s → invariant path s.
Proof.
  intros Hvs Hr. pose proof (invariant_start path vs Hvs) as Hinv. unfold reachable in Hr.
  induction Hr as [s|s1 s2 s3 (i & o & Hstep) _ IH]; [done|].
  apply IH. by destruct (invariant_step _ _ _ _ _ Hinv Hstep).
Qed.

(** Concurrent calls exclude each other.  For any number of plugin processes
    for the same grout socket, in any interleaving of their operations and with
    any answers: a process that performs an operation on grout, the IPAM
    plugin, a pod's namespace or a socket file holds the lock, so no two
    processes are ever in the middle of their work at the same time. *)
Theorem calls_exclude_each_other path vs s i o s' :
  (∀ v, v ∈ vs → production v ∧ lockPathForSocket (GroutSocketPath (verb_conf v)) = path) →
  reachable vs s → step s i o s' → touches o → holder s = Some i.
Proof.
  intros Hvs Hr Hstep Ht.
  by destruct (invariant_step path s i o s' (invariant_reachable _ _ _ Hvs Hr) Hstep) as [_ Hheld]; apply Hheld.
Qed.
End interleave.
