(* ===== verification/Progress.v ===== *)
(** * Progress: concurrent calls finish

    In the interleavings of Interleave: every execution is finite, whatever the
    answers and the schedule; it never gets stuck before every call has ended,
    even when no call ever gives up waiting for the lock; and when every call has
    ended, the lock is free. *)

From stdpp Require Import relations.
From S2P Require Import Prelude Bytes NetIP Types GoLib Cni PortName Config Lock Netns Handler Serial Runs Interleave.
From Stdlib Require Import Lia ZArith.
Open Scope Z_scope.
#[local] Opaque groutPortName.

Section progress.
Context `{CniLib}.

(** ** Every execution is finite *)

(** Where a program can be after its next operation, or when it is killed. *)
Definition after {A} (p q : cni A) : Prop :=
  match p with
  | Ret _ => False
  | Vis o k => (∃ r, q = k r) ∨ ∃ a, q = Ret a
  end.

(** One of several programs performs its next operation. *)
Definition advances {A} (ps ps' : list (cni A)) : Prop :=
  ∃ i p q, ps !! i = Some p ∧ after p q ∧ ps' = <[i:=q]> ps.

Lemma sn_advances_ended {A} (a : A) ps : sn advances ps → sn advances (Ret a :: ps).
Proof.
  induction 1 as [ps Hps IH]. constructor. intros ps' ([|i] & p & q & Hp & Hq & ->); simpl in Hp.
  - injection Hp as <-. by destruct Hq.
  - apply IH. by exists i, p, q.
Qed.

Lemma sn_advances_cons {A} (p : cni A) ps : sn advances ps → sn advances (p :: ps).
Proof.
  revert ps. induction p as [a|o k IHp]; intros ps Hps; [by apply sn_advances_ended|].
  induction Hps as [ps Hps IH]. constructor. intros ps' ([|i] & p & q & Hp & Hq & ->); simpl in Hp.
  - injection Hp as <-. destruct Hq as [[r ->]|[a ->]]; [by apply IHp; constructor|by apply sn_advances_ended; constructor].
  - apply IH. by exists i, p, q.
Qed.

Lemma sn_advances {A} (ps : list (cni A)) : sn advances ps.
Proof.
  induction ps as [|p ps IH]; [|by apply sn_advances_cons].
  constructor. intros ps' (i & ? & ? & Hp & _). by rewrite lookup_nil in Hp.
Qed.

Lemma step_advances s i o s' : step s i o s' → advances (procs s) (procs s').
Proof. intros []; simpl; eexists _, _, _; (split_and!; [done|left; by eexists|done]). Qed.

Lemma sn_any_step s : sn any_step s.
Proof.
  destruct s as [ps hl]. revert hl. induction (sn_advances ps) as [ps _ IH]. intros hl. constructor.
  intros [ps' hl'] (i & o & Hs%step_advances). by apply IH.
Qed.

(** ** No execution gets stuck *)

Definition all_ended (s : sys) : Prop := Forall (λ p, ∃ a, p = Ret a) (procs s).

Lemma holder_in_range vs s i : reachable vs s → holder s = Some i → (i < length (procs s))%nat.
Proof.
  intros Hr. assert (∀ j, holder (start vs) = Some j → (j < length (procs (start vs)))%nat) as Hinv by done.
  unfold reachable in Hr. revert i. induction Hr as [s|s1 s2 s3 (j & o & Hstep) _ IH]; [done|]. apply IH.
  destruct Hstep as [fd k Hp ?|fd k r Hp ?|fd k r Hp|fd k r Hp|o k r Hp ?]; simpl; intros j'; rewrite length_insert.
  - intros [= <-]. by eapply lookup_lt_Some.
  - apply Hinv.
  - unfold release. case_decide; [done|apply Hinv].
  - unfold release. case_decide; [done|apply Hinv].
  - apply Hinv.
Qed.

(** A process that has not ended can go on; when it asks for the lock, the lock
    must be free. *)
Lemma can_step s i o k :
  procs s !! i = Some (Vis (S := CniSig) o k) → ((∃ fd, o = FlockEx fd) → holder s = None) →
  ∃ s', step s i o s' ∧ ((∃ fd, o = FlockEx fd) → holder s' = Some i).
Proof.
  intros Hp Hfree.
  destruct o; try (eexists; split; [eapply step_other with (r := inhabitant); [exact Hp|by left]|by intros [? ?]]).
  - eexists. split; [eapply step_other with (r := Ok 3); [exact Hp|right; by eexists]|by intros [? ?]].
  - eexists. split; [eapply step_lock; [exact Hp|apply Hfree; by eexists]|done].
  - eexists. split; [eapply step_unlock with (r := Ok tt); exact Hp|by intros [? ?]].
  - eexists. split; [eapply step_close with (r := Ok tt); exact Hp|by intros [? ?]].
Qed.

(** The holder of the lock is in its critical section, and not at its end. *)
Lemma holder_works path s i :
  invariant path s → holder s = Some i → (i < length (procs s))%nat →
  ∃ o k, procs s !! i = Some (Vis (S := CniSig) o k) ∧ ¬ ∃ fd, o = FlockEx fd.
Proof.
  intros Hinv Hh [p Hp]%lookup_lt_is_Some_2. destruct (Hinv i p Hp) as (g & Hg & Hheld).
  destruct Hheld as [_ Hheld]. destruct (Hheld Hh) as [fd ->].
  destruct p as [a|o k]; [by destruct Hg|]. exists o, k. split; [done|].
  intros [fd' ->]. exact (gwp_violated path (k Locked) (Hg Locked)).
Qed.

Lemma unended ps : Forall (λ p : cni verdict, ∃ a, p = Ret a) ps ∨ ∃ i o k, ps !! i = Some (Vis (S := CniSig) o k).
Proof.
  induction ps as [|[a|o k] ps [IH|(i & o' & k' & Hi)]]; [by left|left; constructor; eauto|right|right; by exists 0%nat, o, k..].
  by exists (S i), o', k'.
Qed.

(** C17: Concurrent calls finish.  For any number of plugin processes for the same
    grout socket: every execution is finite, whatever is answered and whoever
    runs; in every reachable state either all calls have ended and the lock is
    free, or some call can go on without giving up on the lock, so there is no
    deadlock even when nobody's wait for the lock times out. *)
Theorem calls_finish path vs :
  (∀ v, v ∈ vs → production v ∧ lockPathForSocket (GroutSocketPath (verb_conf v)) = path) →
  sn any_step (start vs) ∧
  ∀ s, reachable vs s →
    (all_ended s ∧ holder s = None) ∨
    ∃ i o s', step s i o s' ∧ ((∃ fd, o = FlockEx fd) → holder s' = Some i).
Proof.
  intros Hvs. split; [apply sn_any_step|]. intros s Hr.
  pose proof (invariant_reachable path vs s Hvs Hr) as Hinv.
  destruct (holder s) as [i|] eqn:Hh.
  - right. destruct (holder_works path s i Hinv Hh) as (o & k & Hp & Ho); [by eapply holder_in_range|].
    destruct (can_step s i o k Hp) as (s' & ? & ?); [done|]. by exists i, o, s'.
  - destruct (unended (procs s)) as [He|(i & o & k & Hp)]; [by left|right].
    destruct (can_step s i o k Hp) as (s' & ? & ?); [done|]. by exists i, o, s'.
Qed.
End progress.
