(* ===== verification/Serializable.v ===== *)
(** * Serializable: interleaved calls have the effect of calls one after another

    The processes of Interleave act on a shared world (grout, the IPAM plugin,
    the pods and the socket files) that answers their operations.  Whatever the
    interleaving, whenever nobody holds the lock the world is what the calls
    that went through their critical section make of it, one after another in
    some order, each run alone. *)

From stdpp Require Import relations.
From S2P Require Import Prelude Bytes NetIP Types GoLib Cni PortName Config Lock Netns Handler Serial Runs Interleave.
From Stdlib Require Import Lia ZArith.
Open Scope Z_scope.
#[local] Opaque groutPortName.

Section serializable.
Context `{CniLib} {W : Type} (h : handler CniSig W).

Record wsys := mkWsys { base : sys; world : W }.

(** A lock operation, or the creation of the lock's directory before the lock is
    taken, leaves the shared world alone; anything else is answered by it. *)
Inductive wstep (s : wsys) (i : nat) : wsys → Prop :=
| wstep_lock o s' :
    step (base s) i o s' → is_lock o = true ∨ (lockish o ∧ holder (base s) ≠ Some i) →
    wstep s i (mkWsys s' (world s))
| wstep_work o k w r :
    procs (base s) !! i = Some (Vis (S := CniSig) o k) → is_lock o = false →
    touches o ∨ holder (base s) = Some i → h o (world s) = (w, r) →
    wstep s i (mkWsys (mkSys (<[i:=k r]> (procs (base s))) (holder (base s))) w).

Definition wreachable (vs : list verb) (w0 : W) (s : wsys) : Prop :=
  rtc (λ s s', ∃ i, wstep s i s') (mkWsys (start vs) w0) s.

(** A call run alone: the lock is free and its directory is there. *)
Definition alone : handler CniSig (W * bool) := λ o w,
  match o return W * bool * cni_res o with
  | OpenLock _ => (w, Ok 3)
  | FlockEx _ => (w.1, true, Locked)
  | FlockUn _ => (w.1, false, Ok tt)
  | CloseFd _ => (w, Ok tt)
  | MkdirAll p => if w.2 then let '(w', r) := h (MkdirAll p) w.1 in (w', w.2, r) else (w, Ok tt)
  | o => let '(w', r) := h o w.1 in (w', w.2, r)
  end.

Definition run_alone (v : verb) (w : W) : W * verdict :=
  let '(w', _, a) := interp alone (run_verb v) (w, false) in (w', a).

(** ** The phases of a call *)

(** The lock was given up, or not taken: the file is closed and [a] returned. *)
Fixpoint closing {A} (a : A) (p : cni A) : Prop :=
  match p with
  | Ret b => b = a
  | Vis o k => (∃ fd, o = CloseFd fd) ∧ ∀ r, closing a (k r)
  end.

(** In the critical section: work, then the unlocking. *)
Inductive working {A} : cni A → Prop :=
| working_op o k : is_lock o = false → (∀ r, working (k r)) → working (Vis (S := CniSig) o k)
| working_unlock fd k a : (∀ r, closing a (k r)) → working (Vis (S := CniSig) (FlockUn fd) k).

(** What the rest of a call in its critical section makes of the world, and
    what it returns. *)
Definition rest {A} (p : cni A) (w : W) : W * A :=
  let '(w', _, a) := interp alone p (w, true) in (w', a).

(** Before the critical section of a call whose effect is [B]; [F] are the values
    returned when the lock was not taken. *)
Inductive awaiting {A} (F : A → Prop) (B : W → W * A) : cni A → Prop :=
| awaiting_ret a : F a → awaiting F B (Ret a)
| awaiting_mkdir p k : (∀ r, awaiting F B (k r)) → awaiting F B (Vis (S := CniSig) (MkdirAll p) k)
| awaiting_open p k : (∀ r, awaiting F B (k r)) → awaiting F B (Vis (S := CniSig) (OpenLock p) k)
| awaiting_lock fd k :
    (∀ r, r ≠ Locked → ∃ a, F a ∧ closing a (k r)) → working (k Locked) →
    (∀ w, rest (k Locked) w = B w) →
    awaiting F B (Vis (S := CniSig) (FlockEx fd) k).

Lemma alone_work o (w : W) : is_lock o = false → alone o (w, true) = let '(w', r) := h o w in (w', true, r).
Proof. by destruct o. Qed.

Lemma rest_op {A} o (k : cni_res o → cni A) w w' (r : cni_res o) :
  is_lock o = false → h o w = (w', r) → rest (Vis (S := CniSig) o k) w = rest (k r) w'.
Proof. intros Ho Hh. unfold rest. simpl. by rewrite alone_work, Hh by done. Qed.

Lemma closing_alone {A} (a : A) (p : cni A) (w : W) b : closing a p → interp alone p (w, b) = (w, b, a).
Proof.
  induction p as [a'|o k IH]; simpl; [by intros ->|]. intros [[fd ->] Hk]. simpl. by apply IH.
Qed.

Lemma closing_map {A C} (f : A → C) a (p : cni A) : closing a p → closing (f a) (f <$> p).
Proof.
  induction p as [a'|o k IH]; simpl; [by intros ->|]. intros [Ho Hk]. split; [done|]. intros r. by apply IH.
Qed.

Lemma working_bind {A B} (p : cni A) (f : A → cni B) :
  lockless p → (∀ a, working (f a)) → working (p ≫= f).
Proof.
  intros Hp Hf. induction p as [a|o k IH]; [apply Hf|].
  destruct Hp as [Ho Hk]. apply working_op; [done|]. intros r. apply IH, Hk.
Qed.

Lemma working_map {A C} (f : A → C) (p : cni A) : working p → working (f <$> p).
Proof.
  induction 1 as [o k Ho _ IH|fd k a Hk]; [by apply working_op|].
  apply (working_unlock _ _ (f a)). intros r. by apply closing_map.
Qed.

Lemma rest_map {A C} (f : A → C) (p : cni A) w :
  rest (f <$> p) w = let '(w', a) := rest p w in (w', f a).
Proof.
  unfold rest, fmap, prog_fmap. rewrite interp_bind. by destruct (interp alone p (w, true)) as [[??] ?].
Qed.

Lemma awaiting_map {A C} (f : A → C) F F' B B' (p : cni A) :
  awaiting F B p → (∀ a, F a → F' (f a)) → (∀ w, B' w = let '(w', a) := B w in (w', f a)) →
  awaiting F' B' (f <$> p).
Proof.
  intros Hp HF HB. induction Hp as [a|d k _ IH|d k _ IH|fd k Hfail Hk Hrest];
    [by apply awaiting_ret, HF|by apply awaiting_mkdir|by apply awaiting_open|].
  apply awaiting_lock; [|by apply working_map|].
  - intros r Hr. destruct (Hfail r Hr) as (a & Ha & Hcl). exists (f a). split; [by apply HF|by apply closing_map].
  - intros w. rewrite HB, <-Hrest. apply rest_map.
Qed.

Lemma lockless_alone {A} (p : cni A) (w : W) :
  lockless p → interp alone p (w, true) = let '(w', a) := interp h p w in (w', true, a).
Proof.
  revert w. induction p as [a|o k IH]; intros w Hp; [done|]. destruct Hp as [Ho Hk]. simpl.
  rewrite alone_work by done. destruct (h o w) as [w' r]. apply IH, Hk.
Qed.

Definition refused {A} (out : outcome (result A)) : Prop := ∃ e, out = Returns (Err e).

(** A call waits for the lock, and in its critical section runs its body. *)
Lemma with_lock_awaiting {A} sock (body : cni (outcome (result A))) :
  lockless body → awaiting refused (interp h body) (with_lock sock body).
Proof.
  intros Hb. unfold with_lock, NewFileLock. cbv zeta.
  generalize (if decide (lockPathForSocket sock = []) then defaultLockPath else lockPathForSocket sock).
  intros path. case_decide; [apply awaiting_mkdir; intros [[]|e]; [|apply awaiting_ret; by eexists]|];
    (apply awaiting_open; intros [fd|e]; [|apply awaiting_ret; by eexists]); apply awaiting_lock.
  1,4: intros [|e|] Hr; [done|..]; (eexists; split; [by eexists|]); by split; [eexists|].
  1,3: apply working_bind; [done|]; intros a; apply (working_unlock _ _ a); intros r; by split; [eexists|].
  all: intros w; unfold rest; cbn -[interp]; rewrite interp_bind, lockless_alone by done;
    by destruct (interp h body w).
Qed.

Lemma with_lock_alone {A} sock (body : cni (outcome (result A))) w :
  lockless body →
  interp alone (with_lock sock body) (w, false) = let '(w', a) := interp h body w in (w', false, a).
Proof.
  intros Hb. unfold with_lock, NewFileLock. cbv zeta.
  generalize (if decide (lockPathForSocket sock = []) then defaultLockPath else lockPathForSocket sock).
  intros path. case_decide; simpl; change prog_bind_def with (@mbind cni prog_bind);
    rewrite interp_bind, lockless_alone by done; by destruct (interp h body w).
Qed.

Lemma verb_awaiting v : production v → awaiting (.= Errored) (run_alone v) (run_verb v).
Proof.
  intros Hp. destruct (verb_locked v Hp) as (A & body & E & Hb). unfold run_alone. rewrite E.
  eapply awaiting_map; [by apply with_lock_awaiting|by intros ? [e ->]|].
  intros w. unfold fmap, prog_fmap. rewrite interp_bind, with_lock_alone by done.
  by destruct (interp h body w).
Qed.

(** ** The invariant *)

(** What the calls of [order] make of the world, one after another. *)
Definition serial (vs : list verb) (w0 : W) (order : list nat) : W :=
  foldl (λ w v, (run_alone v w).1) w0 (omap (vs !!.) order).

(** Call [i] is one of them, and [a] is what it returns at its place. *)
Definition served (vs : list verb) (w0 : W) (order : list nat) (i : nat) (a : verdict) : Prop :=
  ∃ before after v, order = before ++ i :: after ∧ vs !! i = Some v ∧
    a = (run_alone v (serial vs w0 before)).2.

Definition phase (vs : list verb) (w0 : W) (order : list nat) (s : wsys) (i : nat) (p : cni verdict) : Prop :=
  if decide (holder (base s) = Some i) then
    i ∉ order ∧ working p ∧ ∃ v, vs !! i = Some v ∧ rest p (world s) = run_alone v (serial vs w0 order)
  else
    (∃ a, closing a p ∧ (served vs w0 order i a ∨ (i ∉ order ∧ a = Errored))) ∨
    (i ∉ order ∧ ∃ v, vs !! i = Some v ∧ awaiting (.= Errored) (run_alone v) p).

(** [order] are the calls that have left their critical section. *)
Definition winv (vs : list verb) (w0 : W) (s : wsys) : Prop :=
  ∃ order, NoDup order ∧ (∀ i, i ∈ order → (i < length vs)%nat) ∧
    (∀ i p, procs (base s) !! i = Some p → phase vs w0 order s i p) ∧
    match holder (base s) with
    | None => world s = serial vs w0 order
    | Some i => (i < length (procs (base s)))%nat
    end.

Lemma winv_start vs w0 : (∀ v, v ∈ vs → production v) → winv vs w0 (mkWsys (start vs) w0).
Proof.
  intros Hvs. exists []. split; [constructor|]. split; [set_solver|]. split; [|done].
  intros i p Hp. simpl in Hp. apply list_lookup_fmap_Some in Hp as (v & -> & Hv).
  right. split; [set_solver|]. exists v. split; [done|]. apply verb_awaiting, Hvs.
  by eapply list_elem_of_lookup_2.
Qed.

(** What a phase says of the next operation. *)
Lemma awaiting_next {A} F B o (k : cni_res o → cni A) :
  awaiting F B (Vis (S := CniSig) o k) →
  match o return (cni_res o → cni A) → Prop with
  | FlockEx _ => λ k, (∀ r, r ≠ Locked → ∃ a, F a ∧ closing a (k r)) ∧ working (k Locked) ∧
                        ∀ w, rest (k Locked) w = B w
  | MkdirAll _ | OpenLock _ => λ k, ∀ r, awaiting F B (k r)
  | _ => λ _, False
  end k.
Proof.
  intros Hp. refine (match Hp in awaiting _ _ p return
    match p with
    | Ret _ => True
    | Vis o k => match o return (cni_res o → cni A) → Prop with
      | FlockEx _ => λ k, (∀ r, r ≠ Locked → ∃ a, F a ∧ closing a (k r)) ∧ working (k Locked) ∧
                            ∀ w, rest (k Locked) w = B w
      | MkdirAll _ | OpenLock _ => λ k, ∀ r, awaiting F B (k r)
      | _ => λ _, False
      end k
    end with awaiting_ret _ _ _ _ => I | _ => _ end); done.
Qed.

Lemma awaiting_done {A} F B (a : A) : awaiting F B (Ret a) → F a.
Proof.
  intros Hp. by refine (match Hp in awaiting _ _ p return match p with Ret a => F a | _ => True end
    with awaiting_ret _ _ _ Ha => Ha | _ => I end).
Qed.

Lemma working_next {A} o (k : cni_res o → cni A) :
  working (Vis (S := CniSig) o k) →
  (is_lock o = false ∧ ∀ r, working (k r)) ∨ ((∃ fd, o = FlockUn fd) ∧ ∃ a, ∀ r, closing a (k r)).
Proof.
  intros Hp. refine (match Hp in working p return
    match p with
    | Ret _ => True
    | Vis o k => (is_lock o = false ∧ ∀ r, working (k r)) ∨ ((∃ fd, o = FlockUn fd) ∧ ∃ a, ∀ r, closing a (k r))
    end with working_op _ _ _ _ => _ | working_unlock _ _ _ _ => _ end); [by left|right; by eauto].
Qed.

Lemma served_app vs w0 order i j a : served vs w0 order i a → served vs w0 (order ++ [j]) i a.
Proof.
  intros (before & after & v & -> & ? & ?). exists before, (after ++ [j]), v. by rewrite <-app_assoc.
Qed.

Lemma served_last vs w0 order i v :
  vs !! i = Some v → served vs w0 (order ++ [i]) i (run_alone v (serial vs w0 order)).2.
Proof. intros Hv. by exists order, [], v. Qed.

Lemma phase_other vs w0 order order' s s' i j p :
  j ≠ i → (holder (base s') = Some j ↔ holder (base s) = Some j) → order' = order ∨ order' = order ++ [i] →
  (holder (base s) = Some j → order' = order ∧ world s' = world s) →
  phase vs w0 order s j p → phase vs w0 order' s' j p.
Proof.
  intros Hne Hh Hord Hheld. unfold phase. repeat case_decide; try (exfalso; tauto).
  - destruct (Hheld ltac:(done)) as [-> ->]. done.
  - assert (j ∉ order → j ∉ order') as Hj.
    { destruct Hord as [->| ->]; [done|]. rewrite not_elem_of_app, list_elem_of_singleton. done. }
    assert (∀ a, served vs w0 order j a → served vs w0 order' j a) as Hs.
    { destruct Hord as [->| ->]; [done|]. intros a. apply served_app. }
    intros [(a & Hcl & [Ha|[Ha ->]])|[Ha Hv]]; [left; exists a; auto|left; exists Errored; auto|right; auto].
Qed.

(** Process [i] moves on; the others' phases and the lock are as they should be. *)
Lemma winv_move vs w0 s s' i p' order order' :
  (∀ j p, procs (base s) !! j = Some p → phase vs w0 order s j p) →
  procs (base s') = <[i:=p']> (procs (base s)) →
  (∀ j, j ≠ i → holder (base s') = Some j ↔ holder (base s) = Some j) →
  order' = order ∨ order' = order ++ [i] →
  (∀ j, j ≠ i → holder (base s) = Some j → order' = order ∧ world s' = world s) →
  phase vs w0 order' s' i p' →
  ∀ j p, procs (base s') !! j = Some p → phase vs w0 order' s' j p.
Proof.
  intros Hph E Hh Hord Hheld Hi j p Hj. rewrite E in Hj.
  apply list_lookup_insert_Some in Hj as [(<- & <- & _)|[Hne Hj]]; [done|].
  eapply phase_other; [done|by apply Hh|exact Hord|by apply Hheld|by apply Hph].
Qed.

(** Steps that leave the world, the lock and the order alone. *)
Lemma winv_stay vs w0 s i p' :
  winv vs w0 s → (i < length (procs (base s)))%nat →
  (∀ order, (∀ p, procs (base s) !! i = Some p → phase vs w0 order s i p) → phase vs w0 order s i p') →
  winv vs w0 (mkWsys (mkSys (<[i:=p']> (procs (base s))) (holder (base s))) (world s)).
Proof.
  intros (order & Hnd & Hlt & Hph & Hw) Hi Hp'. exists order. split_and!; [done|done| |].
  - eapply (winv_move vs w0 s _ i p' order); [done|done|done|by left|done|]. apply Hp'. intros p Hp. by apply Hph.
  - simpl. destruct (holder (base s)); [by rewrite length_insert|done].
Qed.

Lemma winv_acquire vs w0 s i fd k :
  winv vs w0 s → procs (base s) !! i = Some (Vis (S := CniSig) (FlockEx fd) k) → holder (base s) = None →
  winv vs w0 (mkWsys (mkSys (<[i:=k Locked]> (procs (base s))) (Some i)) (world s)).
Proof.
  intros (order & Hnd & Hlt & Hph & Hw) Hp Hfree. rewrite Hfree in Hw. exists order. split_and!; [done|done| |].
  - eapply (winv_move vs w0 s _ i (k Locked) order); [done|done| |by left|by intros j _ ?; congruence|].
    { intros j Hj. rewrite Hfree. naive_solver. }
    specialize (Hph i _ Hp). unfold phase in Hph |- *. rewrite decide_True by done. rewrite decide_False in Hph by congruence.
    destruct Hph as [(a & [[? ?] _] & _)|(Hi & v & Hv & (_ & Hk & Hr)%awaiting_next)]; [done|].
    split_and!; [done|done|]. exists v. split; [done|]. simpl. by rewrite Hr, Hw.
  - simpl. rewrite length_insert. by eapply lookup_lt_Some.
Qed.

Lemma serial_app vs w0 order i v :
  vs !! i = Some v → serial vs w0 (order ++ [i]) = (run_alone v (serial vs w0 order)).1.
Proof. intros Hv. unfold serial. rewrite omap_app, foldl_app. simpl. by rewrite Hv. Qed.

Lemma winv_unlock vs w0 s i fd k r :
  length (procs (base s)) = length vs →
  winv vs w0 s → procs (base s) !! i = Some (Vis (S := CniSig) (FlockUn fd) k) →
  winv vs w0 (mkWsys (mkSys (<[i:=k r]> (procs (base s))) (release i (holder (base s)))) (world s)).
Proof.
  intros Hlen (order & Hnd & Hlt & Hph & Hw) Hp. pose proof (Hph i _ Hp) as Hi. unfold phase in Hi.
  destruct (decide (holder (base s) = Some i)) as [Hh|Hh].
  2:{ by destruct Hi as [(a & [[? ?] _] & _)|(_ & v & _ & []%awaiting_next)]. }
  destruct Hi as (Hni & [[? _]|[_ [a Hcl]]]%working_next & v & Hv & Hrest); [done|].
  assert (run_alone v (serial vs w0 order) = (world s, a)) as Hv'.
  { rewrite <-Hrest. unfold rest. simpl. by rewrite (closing_alone a). }
  unfold release. rewrite decide_True by done. exists (order ++ [i]). split_and!.
  - apply NoDup_app. split_and!; [done|set_solver|apply NoDup_singleton].
  - intros x [?| ->%list_elem_of_singleton]%elem_of_app; [by apply Hlt|]. rewrite <-Hlen. by eapply lookup_lt_Some.
  - eapply (winv_move vs w0 s _ i (k r) order); [done|done| |by right| |].
    + intros j Hj. rewrite Hh. simpl. naive_solver.
    + intros j Hj. rewrite Hh. naive_solver.
    + unfold phase. rewrite decide_False by done. left. exists a. split; [apply Hcl|left].
      pose proof (served_last vs w0 order i v Hv) as Hs. by rewrite Hv' in Hs.
  - simpl. by rewrite (serial_app _ _ _ _ _ Hv), Hv'.
Qed.

Lemma winv_work vs w0 s i o k w r :
  winv vs w0 s → procs (base s) !! i = Some (Vis (S := CniSig) o k) → is_lock o = false →
  touches o ∨ holder (base s) = Some i → h o (world s) = (w, r) →
  winv vs w0 (mkWsys (mkSys (<[i:=k r]> (procs (base s))) (holder (base s))) w).
Proof.
  intros (order & Hnd & Hlt & Hph & Hw) Hp Ho Ht Hh. pose proof (Hph i _ Hp) as Hi. unfold phase in Hi.
  destruct (decide (holder (base s) = Some i)) as [Hheld|Hheld].
  2:{ destruct Ht as [Ht|]; [|done]. exfalso. apply Ht.
      destruct Hi as [(a & [[fd ->] _] & _)|(_ & v & _ & Ha%awaiting_next)]; [by left|].
      destruct o; try done; [right; by eexists]. }
  destruct Hi as (Hni & [[_ Hk]|[[fd ->] _]]%working_next & v & Hv & Hrest); [|done].
  exists order. split_and!; [done|done| |].
  - eapply (winv_move vs w0 s _ i (k r) order); [done|done|done|by left|by intros j ?; rewrite Hheld; naive_solver|].
    unfold phase. rewrite decide_True by done. split_and!; [done|done|]. exists v. split; [done|].
    simpl. rewrite <-Hrest. symmetry. by apply rest_op.
  - simpl. rewrite Hheld in Hw |- *. by rewrite length_insert.
Qed.

Lemma wstep_length s i s' : wstep s i s' → length (procs (base s')) = length (procs (base s)).
Proof. intros [o s1 Hs _|]; [|simpl; by rewrite length_insert]. destruct Hs; simpl; by rewrite length_insert. Qed.

(** An operation outside the critical section that does not take the lock. *)
Lemma phase_quiet vs w0 order s i o k r :
  is_lock o = true ∨ holder (base s) ≠ Some i → (∀ fd, o ≠ FlockUn fd ∧ o ≠ FlockEx fd) →
  phase vs w0 order s i (Vis (S := CniSig) o k) → holder (base s) ≠ Some i ∧ phase vs w0 order s i (k r).
Proof.
  intros Hq Ho. unfold phase. case_decide as Hh.
  - intros (_ & [[Hl _]|[[fd ->] _]]%working_next & _); [|by destruct (Ho fd)].
    destruct Hq as [Hq|]; [|done]. by rewrite Hl in Hq.
  - intros [(a & [_ Hcl] & Ha)|(Hi & v & Hv & Ha%awaiting_next)]; (split; [done|]); [left; by exists a|right].
    split; [done|]. exists v. split; [done|]. destruct o; try done. by destruct (Ho fd).
Qed.

Lemma winv_step vs w0 s i s' :
  length (procs (base s)) = length vs → winv vs w0 s → wstep s i s' → winv vs w0 s'.
Proof.
  intros Hlen Hinv [o s1 Hs Hw|o k w r Hp Ho Ht Hh]; [|by eapply winv_work].
  assert (∀ k r, procs (base s) !! i = Some (Vis (S := CniSig) o k) → (∀ fd, o ≠ FlockUn fd ∧ o ≠ FlockEx fd) →
    holder (base s) ≠ Some i ∧
    winv vs w0 (mkWsys (mkSys (<[i:=k r]> (procs (base s))) (holder (base s))) (world s))) as Hquiet.
  { intros k r Hp Ho. assert (is_lock o = true ∨ holder (base s) ≠ Some i) as Hq by tauto.
    split; [|apply winv_stay; [done|by eapply lookup_lt_Some|]].
    - destruct Hinv as (order & _ & _ & Hph & _). by apply (phase_quiet _ _ _ _ _ _ _ r Hq Ho (Hph i _ Hp)).
    - intros order Hph. by apply (phase_quiet _ _ _ _ _ _ _ r Hq Ho (Hph _ Hp)). }
  destruct Hs as [fd k Hp Hfree|fd k r Hp Hr|fd k r Hp|fd k r Hp|o k r Hp Ho].
  - by eapply winv_acquire.
  - apply winv_stay; [done|by eapply lookup_lt_Some|]. intros order Hph. specialize (Hph _ Hp).
    unfold phase in *. case_decide.
    + by destruct Hph as (_ & [[? _]|[[? ?] _]]%working_next & _).
    + destruct Hph as [(a & [[? ?] _] & _)|(Hi & v & _ & (Hcl & _)%awaiting_next)]; [done|].
      left. destruct (Hcl r Hr) as (a & -> & ?). exists Errored. auto.
  - by eapply winv_unlock.
  - destruct (Hquiet k r Hp) as [Hne Hs]; [done|]. unfold release. by rewrite decide_False.
  - apply Hquiet; [done|]. intros fd. split; intros ->; by destruct Ho as [|[? ?]].
Qed.

Lemma winv_reachable vs w0 s : (∀ v, v ∈ vs → production v) → wreachable vs w0 s → winv vs w0 s.
Proof.
  intros Hvs Hr. pose proof (winv_start vs w0 Hvs) as Hinv.
  assert (length (procs (base (mkWsys (start vs) w0))) = length vs) as Hlen by (simpl; apply length_fmap).
  unfold wreachable in Hr. revert Hlen Hinv. generalize (mkWsys (start vs) w0) Hr. clear Hr.
  induction 1 as [s1|s1 s2 s3 (i & Hstep) _ IH]; intros Hlen Hinv; [done|].
  apply IH; [by rewrite (wstep_length _ _ _ Hstep)|by eapply winv_step].
Qed.

(** What serializability says of a state in which nobody holds the lock. *)
Definition serialized_state (vs : list verb) (w0 : W) (s : wsys) (order : list nat) : Prop :=
  NoDup order ∧ (∀ i, i ∈ order → (i < length vs)%nat) ∧ world s = serial vs w0 order ∧
  ∀ i a, procs (base s) !! i = Some (Ret a) → served vs w0 order i a ∨ (i ∉ order ∧ a = Errored).

Lemma serializable vs w0 s :
  (∀ v, v ∈ vs → production v) → wreachable vs w0 s → holder (base s) = None →
  ∃ order, serialized_state vs w0 s order.
Proof.
  intros Hvs Hr Hfree. destruct (winv_reachable vs w0 s) as (order & ? & ? & Hph & Hw); [done|done|].
  rewrite Hfree in Hw. exists order. split_and!; [done..|].
  intros i a Hp. specialize (Hph i _ Hp). unfold phase in Hph. rewrite decide_False in Hph by congruence.
  destruct Hph as [(a' & -> & ?)|(? & v & _ & ->%awaiting_done)]; auto.
Qed.
End serializable.
