(* ===== verification/Waiter.v ===== *)
(** * Waiter: the goroutine and the timer of [FileLock.Lock], and killed processes

    [FileLock.Lock] starts a goroutine that blocks in flock(2) and waits for its
    answer or for a timer.  The two race: the lock may be granted when the timer
    has already been chosen, or after [Lock] has returned with a timeout, before
    or after the file was closed.  And the runtime may kill a process at any
    time.  Here the processes of Interleave are refined to that level, and what
    was shown of them with flock(2) as one operation is carried over.  As there,
    the lock is that of the one file the processes have opened; Files has a lock
    per file. *)

From stdpp Require Import relations.
From S2P Require Import Prelude Bytes NetIP Types GoLib Cni PortName Config Lock Netns Handler Serial.
From S2P Require Import Runs Interleave Progress Serializable.
From Stdlib Require Import Lia ZArith.
Open Scope Z_scope.
#[local] Opaque groutPortName.

Section waiter.
Context `{CniLib}.

(** ** Processes *)

(** The goroutine of [Lock], whose answer goes to a channel that holds one. *)
Inductive waiter :=
| NotStarted
| Blocked                 (* in flock(2), waiting *)
| Acquired                (* in flock(2), the lock was granted *)
| Granted                 (* flock(2) has returned, its answer is in the channel *)
| Refused (e : error)
| Delayed                 (* not yet in flock(2), but [Lock] has timed out *)
| Late                    (* waiting in flock(2), but [Lock] has timed out *)
| LateHeld                (* in flock(2) with the lock, but [Lock] has timed out *)
| Expired                 (* flock(2) has returned with the lock, but [Lock] has timed out *)
| Orphan                  (* waiting in flock(2), the file descriptor was closed *)
| OrphanHeld              (* in flock(2) with the lock, the file descriptor was closed *)
| Over.                   (* the answer was received, or nobody will *)

(** The timer is chosen. *)
Definition expire (w : waiter) : option waiter :=
  match w with
  | NotStarted => Some Delayed
  | Blocked => Some Late
  | Acquired => Some LateHeld
  | Granted => Some Expired
  | Refused _ => Some Over
  | _ => None
  end.

(** The file descriptor is closed: a call on it that is under way keeps the open
    file, and the lock, and a later one is refused. *)
Definition closed (w : waiter) : waiter :=
  match w with Late => Orphan | LateHeld => OrphanHeld | Delayed | Expired => Over | w => w end.
Definition close_lock (i : nat) (w : waiter) (lk : option nat) : option nat :=
  match w with Late | LateHeld => lk | _ => release i lk end.

(** An operation with its answer, the timer, a kill, or a step of the goroutine. *)
Inductive label := Tau | Op (o : cni_op) (r : cni_res o) | Timer (fd : Z) | Killed.

Abbreviation kproc := (cni verdict * waiter)%type.

(** What process [i] can do when the kernel has given the lock to [lk]: its main
    goroutine, the goroutine of [Lock], the kernel when it exits or is killed.
    The kernel gives the lock up when it is asked to, when the file is
    closed and no call on it is under way, or when the process is gone. *)
Inductive lstep (i : nat) (lk : option nat) : kproc → label → kproc → option nat → Prop :=
| l_go fd k : lstep i lk (Vis (S := CniSig) (FlockEx fd) k, NotStarted) Tau (Vis (S := CniSig) (FlockEx fd) k, Blocked) lk
| l_grant p : lk = None → lstep i lk (p, Blocked) Tau (p, Acquired) (Some i)
| l_return p : lstep i lk (p, Acquired) Tau (p, Granted) lk
| l_refuse p e : lstep i lk (p, Blocked) Tau (p, Refused e) lk
| l_recv fd k : lstep i lk (Vis (S := CniSig) (FlockEx fd) k, Granted) (Op (FlockEx fd) Locked) (k Locked, Over) lk
| l_recv_err fd k e :
    lstep i lk (Vis (S := CniSig) (FlockEx fd) k, Refused e) (Op (FlockEx fd) (LockErr e)) (k (LockErr e), Over) lk
| l_timeout fd k w w' :
    expire w = Some w' → lstep i lk (Vis (S := CniSig) (FlockEx fd) k, w) (Timer fd) (k LockTimeout, w') lk
| l_late_go p : lstep i lk (p, Delayed) Tau (p, Late) lk
| l_late_grant p : lk = None → lstep i lk (p, Late) Tau (p, LateHeld) (Some i)
| l_late_return p : lstep i lk (p, LateHeld) Tau (p, Expired) lk
| l_late_refuse p : lstep i lk (p, Late) Tau (p, Over) lk
| l_orphan_grant p : lk = None → lstep i lk (p, Orphan) Tau (p, OrphanHeld) (Some i)
| l_orphan_refuse p : lstep i lk (p, Orphan) Tau (p, Over) lk
| l_orphan_return p : lstep i lk (p, OrphanHeld) Tau (p, Over) (release i lk)
| l_unlock fd k r w : lstep i lk (Vis (S := CniSig) (FlockUn fd) k, w) (Op (FlockUn fd) r) (k r, w) (release i lk)
| l_close fd k r w :
    lstep i lk (Vis (S := CniSig) (CloseFd fd) k, w) (Op (CloseFd fd) r) (k r, closed w) (close_lock i w lk)
| l_other o k r w :
    is_lock o = false ∨ (∃ p, o = OpenLock p) → lstep i lk (Vis (S := CniSig) o k, w) (Op o r) (k r, w) lk
| l_exit a w : w ≠ NotStarted → w ≠ Over → lstep i lk (Ret a, w) Tau (Ret a, Over) (release i lk)
| l_kill o k w : lstep i lk (Vis (S := CniSig) o k, w) Killed (Ret Crashed, Over) (release i lk).

Record ksys := mkKsys { kprocs : list kproc; klock : option nat }.

Definition kstep (s : ksys) (i : nat) (l : label) (s' : ksys) : Prop :=
  ∃ pw pw' lk', kprocs s !! i = Some pw ∧ lstep i (klock s) pw l pw' lk' ∧
    s' = mkKsys (<[i:=pw']> (kprocs s)) lk'.

Definition kstart (vs : list verb) : ksys := mkKsys ((λ v, (run_verb v, NotStarted)) <$> vs) None.

(** Executions, and those in which nobody is killed. *)
Definition kany (s s' : ksys) : Prop := ∃ i l, kstep s i l s'.
Definition kalive (s s' : ksys) : Prop := ∃ i l, kstep s i l s' ∧ l ≠ Killed.

(** ** The view with one operation for the lock *)

(** The process that has received its lock and not given it up. *)
Definition working_on (s : ksys) : option nat :=
  match klock s with
  | Some j => match kprocs s !! j with Some (_, Over) => Some j | _ => None end
  | None => None
  end.

Definition abs (s : ksys) : sys := mkSys (kprocs s).*1 (working_on s).

(** ** The invariant *)

(** How far a process is in the lock's discipline, what its goroutine does, and
    whether it has the lock. *)
Definition consistent (p : cni verdict) (g : lock_state) (w : waiter) (held : Prop) : Prop :=
  match w with
  | NotStarted => (∀ fd, g ≠ Held fd ∧ g ≠ Released fd) ∧ ¬ held
  | Blocked | Refused _ => (∃ fd k, p = Vis (S := CniSig) (FlockEx fd) k) ∧ (∃ fd, g = Opened fd) ∧ ¬ held
  | Acquired | Granted => (∃ fd k, p = Vis (S := CniSig) (FlockEx fd) k) ∧ (∃ fd, g = Opened fd) ∧ held
  | Delayed | Late => (∃ fd, g = Released fd) ∧ ¬ held
  | LateHeld | Expired => (∃ fd, g = Released fd) ∧ held
  | Orphan => g = Done ∧ ¬ held
  | OrphanHeld => g = Done ∧ held
  | Over => (∀ fd, g ≠ Opened fd) ∧ g ≠ Idle ∧ ((∃ fd, g = Held fd) ↔ held)
  end.

Definition kinv (path : gostring) (s : ksys) : Prop :=
  ∀ i p w, kprocs s !! i = Some (p, w) →
    ∃ g, gwp (lock_step path) p g finished ∧ consistent p g w (klock s = Some i).

Lemma discipline_next path (o : cni_op) (k : cni_res o → cni verdict) g r :
  gwp (lock_step path) (Vis (S := CniSig) o k) g finished →
  lock_step path g (existT (P := res CniSig) o r) ≠ Violated ∧
  gwp (lock_step path) (k r) (lock_step path g (existT (P := res CniSig) o r)) finished.
Proof.
  intros Hg. split; [|apply Hg]. intros E. specialize (Hg r). rewrite E in Hg. by apply gwp_violated in Hg.
Qed.

(** A lock operation at its place in the discipline. *)
Lemma discipline_lock path fd g r :
  lock_step path g (existT (P := res CniSig) (FlockEx fd) r) ≠ Violated →
  g = Opened fd ∧ lock_step path g (existT (P := res CniSig) (FlockEx fd) r) =
    match r with Locked => Held fd | _ => Released fd end.
Proof. destruct g; simpl; try done. case_decide; [by subst|done]. Qed.

Lemma discipline_unlock path fd g r :
  lock_step path g (existT (P := res CniSig) (FlockUn fd) r) ≠ Violated →
  g = Held fd ∧ lock_step path g (existT (P := res CniSig) (FlockUn fd) r) = Released fd.
Proof. destruct g; simpl; try done. case_decide; [by subst|done]. Qed.

Lemma discipline_close path fd g r :
  lock_step path g (existT (P := res CniSig) (CloseFd fd) r) ≠ Violated →
  g = Released fd ∧ lock_step path g (existT (P := res CniSig) (CloseFd fd) r) = Done.
Proof. destruct g; simpl; try done. case_decide; [by subst|done]. Qed.

Lemma discipline_other path o g (r : cni_res o) :
  is_lock o = false ∨ (∃ p, o = OpenLock p) → lock_step path g (existT (P := res CniSig) o r) ≠ Violated →
  let g' := lock_step path g (existT (P := res CniSig) o r) in
  (∃ fd, g = Held fd) ∧ g' = g ∨ g = Idle ∧ (g' = Idle ∨ (∃ fd, g' = Opened fd) ∨ g' = Done).
Proof.
  intros Ho Hv. destruct Ho as [Ho|[p ->]].
  - destruct g, o; simpl in *; try done; naive_solver.
  - destruct g; simpl in *; try done. right. case_decide; [|done]. destruct r; naive_solver.
Qed.

Lemma release_self i lk : release i lk ≠ Some i.
Proof. unfold release. by case_decide. Qed.

(** One step of a process keeps it consistent. *)
Lemma lstep_consistent path i lk pw l pw' lk' g :
  lstep i lk pw l pw' lk' → gwp (lock_step path) pw.1 g finished → consistent pw.1 g pw.2 (lk = Some i) →
  ∃ g', gwp (lock_step path) pw'.1 g' finished ∧ consistent pw'.1 g' pw'.2 (lk' = Some i).
Proof.
  intros Hs Hg Hc. destruct Hs as [fd k|q E|q|q e|fd k|fd k e|fd k w1 w2 Hex|q|q E|q|q|q E|q|q|fd k r w1|fd k r w1|o k r w1 Ho
    |a w1 Hw1 Hw2|o k w1]; cbn [fst snd] in *.
  - exists g. split; [done|]. destruct (discipline_next path _ k g LockTimeout Hg) as [[-> _]%discipline_lock _].
    destruct Hc as [_ Hn]. simpl. split_and!; eauto.
  - exists g. split; [done|]. destruct Hc as (? & ? & _). done.
  - by exists g.
  - by exists g.
  - destruct (discipline_next path _ k g Locked Hg) as [[-> E]%discipline_lock Hk]. rewrite E in Hk.
    eexists. split; [exact Hk|]. destruct Hc as (_ & _ & Hh). simpl. split_and!; [done|done|]. split; eauto.
  - destruct (discipline_next path _ k g (LockErr e) Hg) as [[-> E]%discipline_lock Hk]. rewrite E in Hk.
    eexists. split; [exact Hk|]. destruct Hc as (_ & _ & Hh). simpl. split_and!; [done|done|]. split; [by intros [? ?]|done].
  - destruct (discipline_next path _ k g LockTimeout Hg) as [[-> E]%discipline_lock Hk]. rewrite E in Hk.
    eexists. split; [exact Hk|]. destruct w1; simplify_eq/=; naive_solver.
  - by exists g.
  - exists g. split; [done|]. by destruct Hc.
  - by exists g.
  - exists g. split; [done|]. destruct Hc as [[fd ->] Hn]. simpl. split_and!; [done|done|]. split; [by intros [? ?]|done].
  - exists g. split; [done|]. by destruct Hc.
  - exists g. split; [done|]. destruct Hc as [-> Hn]. simpl. split_and!; [done|done|]. split; [by intros [? ?]|done].
  - exists g. split; [done|]. destruct Hc as [-> Hn]. simpl. split_and!; [done|done|].
    split; [by intros [? ?]|by intros ?%release_self].
  - destruct (discipline_next path _ k g r Hg) as [[-> E]%discipline_unlock Hk]. rewrite E in Hk.
    eexists. split; [exact Hk|]. pose proof (release_self i lk). destruct w1; simpl in *; naive_solver.
  - destruct (discipline_next path _ k g r Hg) as [[-> E]%discipline_close Hk]. rewrite E in Hk.
    eexists. split; [exact Hk|]. pose proof (release_self i lk). destruct w1; simpl in *; naive_solver.
  - destruct (discipline_next path _ k g r Hg) as [Hv Hk]. eexists. split; [exact Hk|].
    destruct (discipline_other path o g r Ho Hv) as [[[fd ->] E]|[-> E]].
    + rewrite E. destruct w1; simpl in *; naive_solver.
    + clear Hk Hv. revert E. generalize (lock_step path Idle (existT (P := res CniSig) o r)) as g'. intros g' E.
      destruct w1; simpl in *; naive_solver.
  - exists Done. split; [by right|]. simpl. split_and!; [done|done|]. split; [by intros [? ?]|by intros ?%release_self].
  - exists Done. split; [by right|]. simpl. split_and!; [done|done|]. split; [by intros [? ?]|by intros ?%release_self].
Qed.

(** The lock of the other processes. *)
Lemma lstep_others i j lk pw l pw' lk' : lstep i lk pw l pw' lk' → j ≠ i → lk' = Some j ↔ lk = Some j.
Proof.
  intros Hs Hj. pose proof (release_other i j lk Hj) as Hr.
  destruct Hs; subst; try done; try (split; [by intros [= ->]|done]).
  destruct w; done.
Qed.

Lemma kinv_start path vs :
  (∀ v, v ∈ vs → production v ∧ lockPathForSocket (GroutSocketPath (verb_conf v)) = path) → kinv path (kstart vs).
Proof.
  intros Hvs i p w Hp. simpl in Hp. apply list_lookup_fmap_Some in Hp as (v & [= -> ->] & Hv).
  apply list_elem_of_lookup_2 in Hv. destruct (Hvs v Hv) as [Hprod <-].
  exists Idle. by split; [apply verb_discipline|].
Qed.

Lemma kinv_step path s i l s' : kinv path s → kstep s i l s' → kinv path s'.
Proof.
  intros Hinv ([p w] & [p' w'] & lk' & Hp & Hs & ->) j q v Hj. cbn [kprocs klock] in *.
  apply list_lookup_insert_Some in Hj as [(<- & [= <- <-] & _)|[Hne Hj]].
  - destruct (Hinv i p w Hp) as (g & Hg & Hc). by eapply (lstep_consistent path i _ (p, w) _ (p', w')).
  - destruct (Hinv j q v Hj) as (g & Hg & Hc). exists g. split; [done|].
    pose proof (lstep_others i j _ _ _ _ _ Hs ltac:(congruence)) as Hiff.
    destruct v; simpl in *; rewrite ?Hiff; done.
Qed.

Lemma kinv_reachable path vs s :
  (∀ v, v ∈ vs → production v ∧ lockPathForSocket (GroutSocketPath (verb_conf v)) = path) →
  rtc kany (kstart vs) s → kinv path s.
Proof.
  intros Hvs Hr. pose proof (kinv_start path vs Hvs) as Hinv.
  induction Hr as [s|s1 s2 s3 (i & l & Hstep) _ IH]; [done|]. by eapply IH, kinv_step.
Qed.

(** ** The simulation *)

(** A process that has received its lock and not given it up. *)
Definition working_at (i : nat) (lk : option nat) (pw : kproc) : Prop := lk = Some i ∧ pw.2 = Over.

Lemma working_on_spec s j :
  working_on s = Some j ↔ ∃ pw, kprocs s !! j = Some pw ∧ working_at j (klock s) pw.
Proof.
  unfold working_on, working_at. destruct (klock s) as [i|]; [|naive_solver].
  split.
  - intros E. destruct (kprocs s !! i) as [[p w]|] eqn:Ei; [|done]. destruct w; simplify_eq. by exists (p, Over).
  - intros ([p w] & Hj & [= ->] & Hw). simpl in Hw. subst w. by rewrite Hj.
Qed.

(** What a step makes of the work of process [i], as the operation on the lock. *)
Lemma lstep_working path i lk pw l pw' lk' g :
  lstep i lk pw l pw' lk' → gwp (lock_step path) pw.1 g finished → consistent pw.1 g pw.2 (lk = Some i) →
  match l with
  | Tau => pw'.1 = pw.1 ∧ ¬ working_at i lk pw ∧ ¬ working_at i lk' pw'
  | Timer fd => ∃ k, pw.1 = Vis (S := CniSig) (FlockEx fd) k ∧ pw'.1 = k LockTimeout ∧
                  ¬ working_at i lk pw ∧ ¬ working_at i lk' pw'
  | Killed => (∃ o k, pw.1 = Vis (S := CniSig) o k) ∧ pw'.1 = Ret Crashed ∧ ¬ working_at i lk' pw'
  | Op o r => ∃ k, pw.1 = Vis (S := CniSig) o k ∧ pw'.1 = k r ∧
      match o return cni_res o → Prop with
      | FlockEx _ => λ r, (r = Locked ∧ lk = Some i ∧ working_at i lk' pw' ∨ r ≠ Locked ∧ ¬ working_at i lk' pw') ∧
                      ¬ working_at i lk pw
      | FlockUn _ | CloseFd _ => λ r, ¬ working_at i lk' pw'
      | _ => λ r, working_at i lk pw ↔ working_at i lk' pw'
      end r
  end.
Proof.
  intros Hs Hg Hc. pose proof (release_self i lk) as Hrel. unfold working_at.
  destruct Hs as [fd k|q E|q|q e|fd k|fd k e|fd k w1 w2 Hex|q|q E|q|q|q E|q|q|fd k r w1|fd k r w1|o k r w1 Ho
    |a w1 Hw1 Hw2|o k w1]; cbn [fst snd] in *; try (simpl in Hc; naive_solver).
  - exists k. destruct w1; simplify_eq/=; naive_solver.
  - exists k. split_and!; [done|done|]. destruct (discipline_next path _ k g r Hg) as [[-> _]%discipline_close _].
    destruct w1; simpl in *; naive_solver.
  - exists k. split_and!; [done|done|]. destruct Ho as [Ho|[p ->]]; [by destruct o|done].
Qed.

(** The processes of Interleave, any of which may be killed: the kernel closes
    its files, and so gives up its lock. *)
Inductive xstep (s s' : sys) : Prop :=
| x_op i o : step s i o s' → xstep s s'
| x_kill i o k :
    procs s !! i = Some (Vis (S := CniSig) o k) →
    s' = mkSys (<[i:=Ret Crashed]> (procs s)) (release i (holder s)) → xstep s s'.

Lemma abs_insert ps i pw lk :
  abs (mkKsys (<[i:=pw]> ps) lk) = mkSys (<[i:=pw.1]> ps.*1) (working_on (mkKsys (<[i:=pw]> ps) lk)).
Proof. unfold abs. simpl. by rewrite list_fmap_insert. Qed.

Section simulation.
Variables (path : gostring) (s : ksys) (i : nat) (l : label) (pw pw' : kproc) (lk' : option nat).
Hypothesis Hinv : kinv path s.
Hypothesis Hpw : kprocs s !! i = Some pw.
Hypothesis Hstep : lstep i (klock s) pw l pw' lk'.
Let s' := mkKsys (<[i:=pw']> (kprocs s)) lk'.

Lemma working_self' : working_on s' = Some i ↔ working_at i lk' pw'.
Proof.
  rewrite working_on_spec. simpl. rewrite list_lookup_insert_eq by (by eapply lookup_lt_Some). naive_solver.
Qed.
Lemma working_self : working_on s = Some i ↔ working_at i (klock s) pw.
Proof. rewrite working_on_spec. naive_solver. Qed.

Lemma working_other j : j ≠ i → working_on s' = Some j ↔ working_on s = Some j.
Proof.
  intros Hj. rewrite !working_on_spec. simpl. rewrite list_lookup_insert_ne by done.
  unfold working_at. setoid_rewrite (lstep_others i j _ _ _ _ _ Hstep Hj). done.
Qed.

Lemma working_gone : ¬ working_at i lk' pw' → working_on s' = release i (working_on s).
Proof.
  rewrite <-working_self'. intros Hn. apply option_eq. intros j. destruct (decide (j = i)) as [->|Hj].
  - split; [done|]. intros E. by apply release_self in E.
  - rewrite (working_other j Hj), (release_other i j) by done. done.
Qed.

Lemma working_same : (working_at i (klock s) pw ↔ working_at i lk' pw') → working_on s' = working_on s.
Proof.
  rewrite <-working_self', <-working_self. intros Hiff. apply option_eq. intros j.
  destruct (decide (j = i)) as [->|Hj]; [done|by apply working_other].
Qed.

Lemma simulated :
  match l with
  | Tau => abs s' = abs s
  | Timer fd => step (abs s) i (FlockEx fd) (abs s')
  | Op o r => step (abs s) i o (abs s') ∧ ∃ k, procs (abs s) !! i = Some (Vis (S := CniSig) o k) ∧
      procs (abs s') = <[i:=k r]> (procs (abs s)) ∧ (is_lock o = false → working_on s' = working_on s)
  | Killed => ∃ o k, procs (abs s) !! i = Some (Vis (S := CniSig) o k) ∧
      abs s' = mkSys (<[i:=Ret Crashed]> (procs (abs s))) (release i (holder (abs s)))
  end.
Proof.
  destruct (Hinv i pw.1 pw.2) as (g & Hg & Hc); [by destruct pw|].
  pose proof (lstep_working path i _ _ _ _ _ g Hstep Hg Hc) as Hw.
  assert (procs (abs s) !! i = Some pw.1) as Hp by (simpl; by rewrite list_lookup_fmap, Hpw).
  unfold s'. rewrite abs_insert. fold s'. change (kprocs s).*1 with (procs (abs s)).
  pose proof working_same as Hsame. pose proof working_gone as Hgone.
  pose proof working_self' as Hself'. pose proof working_self as Hself.
  destruct l as [|o r|fd|].
  - destruct Hw as (-> & Hn & Hn'). rewrite list_insert_id, Hsame by (done || tauto). done.
  - destruct Hw as (k & E & -> & Ho). rewrite E in Hp.
    split; [|exists k; split_and!; [done|done|by destruct o; try done; intros _; apply Hsame]].
    destruct o; try (rewrite (Hsame Ho); apply (step_other (abs s) i); [done|first [by left|right; by eexists]]).
    + destruct Ho as [[(-> & Hl & Hw)|[Hr Hw]] Hn].
      * apply Hself' in Hw as ->. apply (step_lock (abs s) i); [done|]. simpl.
        destruct (working_on s) as [j|] eqn:Ej; [|done]. exfalso. apply Hn, Hself.
        pose proof Ej as (? & _ & Hj & _)%working_on_spec. congruence.
      * rewrite Hsame by tauto. by apply (step_lock_fail (abs s) i).
    + rewrite (Hgone Ho). by apply (step_unlock (abs s) i).
    + rewrite (Hgone Ho). by apply (step_close (abs s) i).
  - destruct Hw as (k & E & -> & Hn & Hn'). rewrite E in Hp. rewrite Hsame by tauto.
    by apply (step_lock_fail (abs s) i).
  - destruct Hw as ((o & k & E) & -> & Hn). rewrite E in Hp. exists o, k. by rewrite (Hgone Hn).
Qed.
End simulation.

(** ** Every execution is finite *)

Definition rank (w : waiter) : nat :=
  match w with
  | NotStarted => 9 | Blocked => 8 | Acquired => 7 | Granted | Refused _ => 6
  | Delayed => 6 | Late => 5 | LateHeld => 4 | Expired => 3 | Orphan => 2 | OrphanHeld => 1 | Over => 0
  end.

Lemma lstep_decreases i lk pw l pw' lk' :
  lstep i lk pw l pw' lk' → after pw.1 pw'.1 ∨ pw'.1 = pw.1 ∧ (rank pw'.2 < rank pw.2)%nat.
Proof.
  destruct 1; simpl; try (left; by left; eexists); try (left; right; by eexists); right; (split; [done|]); try lia.
  destruct w; simpl; done || lia.
Qed.

Definition total (ps : list kproc) : nat := sum_list_with (λ pw, rank pw.2) ps.

Lemma total_insert ps i pw pw' :
  ps !! i = Some pw → (total (<[i:=pw']> ps) + rank pw.2 = total ps + rank pw'.2)%nat.
Proof.
  revert i. induction ps as [|q ps IH]; intros [|i]; simpl; [done|done|by intros [= ->]; lia|].
  intros Hi. specialize (IH i Hi). lia.
Qed.

Lemma sn_kany s : sn kany s.
Proof.
  remember (kprocs s).*1 as ps eqn:E. revert s E. induction (sn_advances ps) as [ps _ IH].
  intros s. remember (total (kprocs s)) as n eqn:En. revert s En.
  induction n as [n IHn] using lt_wf_ind. intros s -> ->. constructor.
  intros s' (i & l & pw & pw' & lk' & Hp & Hs & ->). destruct (lstep_decreases _ _ _ _ _ _ Hs) as [Ha|[E Hlt]].
  - eapply IH; [|reflexivity]. exists i, pw.1, pw'.1. split_and!; [by rewrite list_lookup_fmap, Hp|done|].
    simpl. by rewrite list_fmap_insert.
  - eapply IHn; [|reflexivity|].
    + simpl. pose proof (total_insert (kprocs s) i pw pw' Hp). lia.
    + simpl. rewrite list_fmap_insert, E. symmetry. apply list_insert_id. by rewrite list_lookup_fmap, Hp.
Qed.

(** ** No execution gets stuck *)

Lemma klock_in_range vs s i : rtc kany (kstart vs) s → klock s = Some i → (i < length (kprocs s))%nat.
Proof.
  intros Hr. assert (∀ j, klock (kstart vs) = Some j → (j < length (kprocs (kstart vs)))%nat) as Hinv by done.
  revert i. induction Hr as [s|s1 s2 s3 (j & l & pw & pw' & lk' & Hp & Hs & ->) _ IH]; [done|]. apply IH.
  intros j'. simpl. rewrite length_insert. destruct (decide (j' = j)) as [->|Hj]; [intros _; by eapply lookup_lt_Some|].
  rewrite (lstep_others _ _ _ _ _ _ _ Hs Hj). apply Hinv.
Qed.

(** A step that is neither a kill nor the timer. *)
Definition proceeds (s : ksys) : Prop := ∃ i l s', kstep s i l s' ∧ l ≠ Killed ∧ ∀ fd, l ≠ Timer fd.

Lemma proceeds_intro s i pw l pw' lk' :
  kprocs s !! i = Some pw → lstep i (klock s) pw l pw' lk' → l ≠ Killed → (∀ fd, l ≠ Timer fd) → proceeds s.
Proof. intros Hp Hs ??. eexists i, l, _. split; [by exists pw, pw', lk'|done]. Qed.

Lemma can_proceed s i o k w :
  kprocs s !! i = Some (Vis (S := CniSig) o k, w) → (¬ ∃ fd, o = FlockEx fd) → proceeds s.
Proof.
  intros Hp Ho.
  destruct o; try (eapply proceeds_intro; [exact Hp|apply l_other with (r := inhabitant); by left|done|done]).
  - eapply proceeds_intro; [exact Hp|apply l_other with (r := Ok 3); right; by eexists|done|done].
  - destruct Ho. by eexists.
  - by eapply proceeds_intro; [exact Hp|apply l_unlock with (r := Ok tt)|..].
  - by eapply proceeds_intro; [exact Hp|apply l_close with (r := Ok tt)|..].
Qed.

(** A process in the middle of its discipline has not ended. *)
Lemma unfinished path (p : cni verdict) g :
  gwp (lock_step path) p g finished → (∃ fd, g = Held fd ∨ g = Released fd) →
  ∃ o k, p = Vis (S := CniSig) o k ∧ ¬ ∃ fd, o = FlockEx fd.
Proof.
  intros Hg [fd Hfd]. destruct p as [a|o k]; [exfalso; destruct Hg, Hfd; congruence|]. exists o, k. split; [done|].
  intros [fd' ->]. destruct (discipline_next path _ k g Locked Hg) as [[-> _]%discipline_lock _].
  destruct Hfd; congruence.
Qed.

Lemma owner_proceeds path vs s i :
  kinv path s → rtc kany (kstart vs) s → klock s = Some i → proceeds s.
Proof.
  intros Hinv Hr Hl. destruct (lookup_lt_is_Some_2 (kprocs s) i) as [[p w] Hp]; [by eapply klock_in_range|].
  destruct (Hinv i p w Hp) as (g & Hg & Hc). rewrite Hl in Hc.
  assert ((∃ fd, g = Held fd ∨ g = Released fd) → proceeds s) as Hgo.
  { intros (o & k & -> & Ho)%(unfinished path p g Hg). by eapply can_proceed. }
  destruct w; simpl in Hc; try (exfalso; naive_solver).
  - by eapply proceeds_intro; [exact Hp|apply l_return|..].
  - destruct Hc as ((fd & k & ->) & _). by eapply proceeds_intro; [exact Hp|apply l_recv|..].
  - by eapply proceeds_intro; [exact Hp|apply l_late_return|..].
  - apply Hgo. naive_solver.
  - by eapply proceeds_intro; [exact Hp|apply l_orphan_return|..].
  - apply Hgo. naive_solver.
Qed.

Lemma waiting_proceeds path s i fd k w :
  kinv path s → klock s = None → kprocs s !! i = Some (Vis (S := CniSig) (FlockEx fd) k, w) → proceeds s.
Proof.
  intros Hinv Hl Hp. destruct (Hinv i _ w Hp) as (g & Hg & Hc). rewrite Hl in Hc.
  destruct (discipline_next path _ k g Locked Hg) as [[-> _]%discipline_lock _].
  destruct w; simpl in Hc; try (exfalso; naive_solver).
  - by eapply proceeds_intro; [exact Hp|apply l_go|..].
  - by eapply proceeds_intro; [exact Hp|by apply l_grant|..].
  - by eapply proceeds_intro; [exact Hp|apply l_recv_err|..].
Qed.

(** All processes and their goroutines are gone. *)
Definition gone (s : ksys) : Prop :=
  Forall (λ pw : kproc, (∃ a, pw.1 = Ret a) ∧ (pw.2 = NotStarted ∨ pw.2 = Over)) (kprocs s) ∧ klock s = None.

Lemma gone_or_left (ps : list kproc) :
  Forall (λ pw : kproc, (∃ a, pw.1 = Ret a) ∧ (pw.2 = NotStarted ∨ pw.2 = Over)) ps ∨
  (∃ i a w, ps !! i = Some (Ret a, w) ∧ w ≠ NotStarted ∧ w ≠ Over) ∨
  ∃ i o k w, ps !! i = Some (Vis (S := CniSig) o k, w).
Proof.
  induction ps as [|[p w] ps [IH|[(i & a & v & Hi)|(i & o & k & v & Hi)]]]; [by left|..].
  - destruct p as [a|o k]; [|right; right; by exists 0%nat, o, k, w].
    destruct w; try (by left; constructor; [split; [by exists a|simpl; auto]|]); right; left; exists 0%nat, a; by eexists.
  - right; left. by exists (S i), a, v.
  - right; right. by exists (S i), o, k, v.
Qed.

Lemma kinv_proceeds path vs s : kinv path s → rtc kany (kstart vs) s → gone s ∨ proceeds s.
Proof.
  intros Hinv Hr. destruct (klock s) as [i|] eqn:Hl; [right; by eapply owner_proceeds|].
  destruct (gone_or_left (kprocs s)) as [Hg|[(i & a & w & Hp & ? & ?)|(i & o & k & w & Hp)]]; [by left|right..].
  - by eapply proceeds_intro; [exact Hp|by apply l_exit|..].
  - destruct o; try (eapply can_proceed; [exact Hp|by intros [? ?]]). by eapply waiting_proceeds.
Qed.

(** An operation of a process that touches something shared is in its critical
    section. *)
Lemma working_touches path s i o r s' :
  kinv path s → kstep s i (Op o r) s' → touches o → working_on s = Some i.
Proof.
  intros Hinv ([p w] & pw' & lk' & Hp & Hs & ->) Ht. destruct (Hinv i p w Hp) as (g & Hg & Hc).
  destruct (lstep_working path i _ _ _ _ _ g Hs Hg Hc) as (k & Ek & _). simpl in Ek, Hg, Hc. subst p.
  assert ((∃ fd, g = Held fd) ∨ ¬ ∃ fd, g = Held fd) as [[fd ->]|Hn] by (destruct g; naive_solver).
  - apply working_on_spec. exists (Vis (S := CniSig) o k, w). split; [done|].
    destruct w; simpl in Hc; try (exfalso; naive_solver). split; [naive_solver|done].
  - exfalso. destruct (discipline_next path o k g r Hg) as [Hv _]. by apply Hv, lock_step_violated.
Qed.

(** ** Killed processes *)

(** C16: Killed plugin processes do not block the others.  For any number of
    processes for one grout socket, whose lock is taken by a goroutine that races
    with a timer, and any of which may be killed at any time: a process that
    touches grout, the IPAM plugin, a pod's namespace or a socket file has been
    given the lock by the kernel and has received it; every execution is finite;
    and in every reachable state either all processes and goroutines are gone and
    the kernel has the lock back, or something can go on without a timeout or
    another kill. *)
Theorem killed_calls_release_lock path vs :
  (∀ v, v ∈ vs → production v ∧ lockPathForSocket (GroutSocketPath (verb_conf v)) = path) →
  sn kany (kstart vs) ∧
  ∀ s, rtc kany (kstart vs) s →
    (gone s ∨ proceeds s) ∧
    ∀ i o r s', kstep s i (Op o r) s' → touches o → klock s = Some i ∧ working_on s = Some i.
Proof.
  intros Hvs. split; [apply sn_kany|]. intros s Hr. pose proof (kinv_reachable path vs s Hvs Hr) as Hinv.
  split; [by eapply kinv_proceeds|]. intros i o r s' Hs Ht.
  pose proof (working_touches path s i o r s' Hinv Hs Ht) as Hw. split; [|done].
  by apply working_on_spec in Hw as (? & _ & ? & _).
Qed.

(** ** Refinement, with the shared world *)

Lemma kstep_simulated path s i l s' :
  kinv path s → kstep s i l s' →
  match l with
  | Tau => abs s' = abs s
  | Timer fd => step (abs s) i (FlockEx fd) (abs s')
  | Op o r => step (abs s) i o (abs s') ∧ ∃ k, procs (abs s) !! i = Some (Vis (S := CniSig) o k) ∧
      procs (abs s') = <[i:=k r]> (procs (abs s)) ∧ (is_lock o = false → working_on s' = working_on s)
  | Killed => ∃ o k, procs (abs s) !! i = Some (Vis (S := CniSig) o k) ∧
      abs s' = mkSys (<[i:=Ret Crashed]> (procs (abs s))) (release i (holder (abs s)))
  end.
Proof. intros Hinv (pw & pw' & lk' & Hp & Hs & ->). by apply (simulated path s i l pw pw' lk'). Qed.

Lemma abs_start vs : abs (kstart vs) = start vs.
Proof. unfold abs, start. simpl. by rewrite <-list_fmap_compose. Qed.

(** An execution of [R] from a state in which the invariant holds is simulated. *)
Lemma rtc_simulated {A B} (R : A → A → Prop) (Q : B → B → Prop) (f : A → B) (I : A → Prop) x y :
  (∀ x y, I x → R x y → I y ∧ rtc Q (f x) (f y)) → I x → rtc R x y → rtc Q (f x) (f y).
Proof.
  intros HR Hx Hr. induction Hr as [x|x1 x2 x3 H12 _ IH]; [done|].
  destruct (HR x1 x2 Hx H12) as [Hx2 Hq]. etrans; [exact Hq|by apply IH].
Qed.

Section world.
Context {W : Type} (h : handler CniSig W).

(** The processes with the shared world that answers them.  What the goroutine
    and the lock do leaves the world alone, and so does a process that makes the
    lock's directory before it takes the lock. *)
Record kwsys := mkKw { kbase : ksys; kworld : W }.

Inductive kwstep (s : kwsys) : kwsys → Prop :=
| kw_lock i l s' :
    kstep (kbase s) i l s' →
    match l with
    | Op o _ => is_lock o = true ∨ (lockish o ∧ working_on (kbase s) ≠ Some i)
    | Killed => False
    | _ => True
    end → kwstep s (mkKw s' (kworld s))
| kw_work i o r s' w :
    kstep (kbase s) i (Op o r) s' → is_lock o = false → touches o ∨ working_on (kbase s) = Some i →
    h o (kworld s) = (w, r) → kwstep s (mkKw s' w).

Definition absw (s : kwsys) : wsys := mkWsys (abs (kbase s)) (kworld s).

Lemma kwstep_simulated path s s' :
  kinv path (kbase s) → kwstep s s' →
  kinv path (kbase s') ∧ rtc (λ s s', ∃ i, wstep h s i s') (absw s) (absw s').
Proof.
  intros Hinv [i l s1 Hs Hl|i o r s1 w Hs Ho Ht Hh];
    (split; [by eapply kinv_step|]); pose proof (kstep_simulated path _ _ _ _ Hinv Hs) as Hsim.
  - unfold absw. simpl. destruct l as [|o r|fd|]; [by rewrite Hsim|..|done]; apply rtc_once; exists i.
    + destruct Hsim as [Hst _]. by eapply (wstep_lock h (mkWsys _ _)).
    + eapply (wstep_lock h (mkWsys _ _)); [exact Hsim|by left].
  - destruct Hsim as (_ & k & Hk & Hps & Hw). apply rtc_once. exists i. unfold absw. simpl.
    assert (abs s1 = mkSys (<[i:=k r]> (procs (abs (kbase s)))) (holder (abs (kbase s)))) as ->.
    { rewrite <-Hps. simpl. by rewrite <-(Hw Ho). }
    by eapply (wstep_work h (mkWsys _ _)).
Qed.

(** *** A scheduler *)

(** What the schedule chooses: the goroutine of [Lock], the main goroutine, the
    timer, or a kill. *)
Inductive turn := Goroutine | Main | Fire | Kill.

#[global] Instance turn_eq_dec : EqDecision turn.
Proof. solve_decision. Defined.

Definition goroutine (i : nat) (lk : option nat) (pw : kproc) : option (waiter * option nat) :=
  match pw.2, pw.1 with
  | NotStarted, Vis (FlockEx _) _ => Some (Blocked, lk)
  | Blocked, _ => if lk is None then Some (Acquired, Some i) else None
  | Acquired, _ => Some (Granted, lk)
  | Delayed, _ => Some (Late, lk)
  | Late, _ => if lk is None then Some (LateHeld, Some i) else None
  | LateHeld, _ => Some (Expired, lk)
  | Orphan, _ => if lk is None then Some (OrphanHeld, Some i) else None
  | OrphanHeld, _ => Some (Over, release i lk)
  | _, _ => None
  end.

(** The main goroutine, which is in its critical section or not, with the answers
    of the world; the lock's own operations succeed. *)
Definition mainly (i : nat) (lk : option nat) (inside : bool) (w : W) (pw : kproc)
    : option (label * kproc * option nat * W) :=
  match pw.1 with
  | Ret _ => None
  | Vis o k =>
      match o return (cni_res o → cni verdict) → option (label * kproc * option nat * W) with
      | FlockEx fd => λ k,
          match pw.2 with
          | Granted => Some (Op (FlockEx fd) Locked, (k Locked, Over), lk, w)
          | Refused e => Some (Op (FlockEx fd) (LockErr e), (k (LockErr e), Over), lk, w)
          | _ => None
          end
      | OpenLock p => λ k, Some (Op (OpenLock p) (Ok 3), (k (Ok 3), pw.2), lk, w)
      | FlockUn fd => λ k, Some (Op (FlockUn fd) (Ok tt), (k (Ok tt), pw.2), release i lk, w)
      | CloseFd fd => λ k, Some (Op (CloseFd fd) (Ok tt), (k (Ok tt), closed pw.2), close_lock i pw.2 lk, w)
      | MkdirAll p => λ k,
          if inside then let '(w', r) := h (MkdirAll p) w in Some (Op (MkdirAll p) r, (k r, pw.2), lk, w')
          else Some (Op (MkdirAll p) (Ok tt), (k (Ok tt), pw.2), lk, w)
      | o => λ k, let '(w', r) := h o w in Some (Op o r, (k r, pw.2), lk, w')
      end k
  end.

Definition fired (pw : kproc) : option kproc :=
  match pw.1 with
  | Vis (FlockEx _) k => w ← expire pw.2; Some (k LockTimeout, w)
  | _ => None
  end.

Definition take_turn (s : kwsys) (it : nat * turn) : kwsys :=
  let '(i, t) := it in
  let lk := klock (kbase s) in
  let moved pw lk w := mkKw (mkKsys (<[i:=pw]> (kprocs (kbase s))) lk) w in
  match kprocs (kbase s) !! i with
  | None => s
  | Some pw =>
      default s match t with
      | Goroutine => '(w, lk') ← goroutine i lk pw; Some (moved (pw.1, w) lk' (kworld s))
      | Main =>
          '(_, pw', lk', w) ← mainly i lk (bool_decide (working_on (kbase s) = Some i)) (kworld s) pw; Some (moved pw' lk' w)
      | Fire => pw' ← fired pw; Some (moved pw' lk (kworld s))
      | Kill => if pw.1 is Vis _ _ then Some (moved (Ret Crashed, Over) (release i lk) (kworld s)) else None
      end
  end.

Lemma goroutine_lstep i lk pw w lk' : goroutine i lk pw = Some (w, lk') → lstep i lk pw Tau (pw.1, w) lk'.
Proof.
  destruct pw as [p []]; unfold goroutine; simpl; intros E;
    [destruct p as [|[] k]; simplify_eq; constructor|..]; destruct lk; simplify_eq; by constructor.
Qed.

Lemma fired_lstep i lk pw pw' : fired pw = Some pw' → ∃ fd, lstep i lk pw (Timer fd) pw' lk.
Proof.
  destruct pw as [[a|o k] w]; unfold fired; simpl; [done|]. destruct o; try done.
  destruct (expire w) as [w'|] eqn:Ew; simpl; [|done]. intros [= <-]. exists fd. by constructor.
Qed.

Lemma mainly_lstep i lk inside w pw l pw' lk' w' :
  mainly i lk inside w pw = Some (l, pw', lk', w') →
  lstep i lk pw l pw' lk' ∧ ∃ o r, l = Op o r ∧
    (w' = w ∧ (is_lock o = true ∨ lockish o ∧ inside = false) ∨
     is_lock o = false ∧ (touches o ∨ inside = true) ∧ h o w = (w', r)).
Proof.
  destruct pw as [[a|o k] v]; unfold mainly; cbn [fst snd]; [done|].
  destruct o; try (destruct (h _ _) as [w2 answer] eqn:Hh; intros [= <- <- <- <-];
    split; [apply l_other; by left|]; eexists _, answer; split; [done|];
    right; split_and!; [done|left; by intros [?|[? ?]]|done]).
  - destruct inside; [destruct (h _ _) as [w2 answer] eqn:Hh|]; intros [= <- <- <- <-];
      (split; [apply l_other; by left|]); eexists (MkdirAll _), _; (split; [done|]); [right; auto|left].
    split; [done|right]. split; [right; by eexists|done].
  - intros [= <- <- <- <-]. split; [apply l_other; right; by eexists|]. eexists (OpenLock _), _. by auto.
  - destruct v; intros [= <- <- <- <-]; (split; [constructor|]); eexists (FlockEx _), _; by auto.
  - intros [= <- <- <- <-]. split; [constructor|]. eexists (FlockUn _), _. by auto.
  - intros [= <- <- <- <-]. split; [constructor|]. eexists (CloseFd _), _. by auto.
Qed.

Lemma take_turn_kwstep s it : it.2 ≠ Kill → rtc kwstep s (take_turn s it).
Proof.
  destruct it as [i t]. simpl. intros Ht. destruct (kprocs (kbase s) !! i) as [pw|] eqn:Hp; [|done].
  assert (∀ l pw' lk', lstep i (klock (kbase s)) pw l pw' lk' →
    kstep (kbase s) i l (mkKsys (<[i:=pw']> (kprocs (kbase s))) lk')) as Hk by (intros; by exists pw, pw', lk').
  destruct t; [| | |done].
  - destruct (goroutine i _ pw) as [[w lk']|] eqn:E; simpl; [|done]. apply goroutine_lstep, Hk in E.
    by apply rtc_once, (kw_lock s i Tau).
  - destruct (mainly i _ _ _ pw) as [[[[l pw'] lk'] w]|] eqn:E; simpl; [|done].
    apply mainly_lstep in E as (Hs%Hk & o & r & -> & [[-> Hl]|(Ho & Hw & Hh)]); apply rtc_once.
    + eapply (kw_lock s i (Op o r)); [done|]. destruct Hl as [|[? Hb%bool_decide_eq_false]]; auto.
    + eapply (kw_work s i o r); [done|done| |done]. destruct Hw as [|Hb%bool_decide_eq_true]; auto.
  - destruct (fired pw) as [pw'|] eqn:E; simpl; [|done]. apply (fired_lstep i (klock (kbase s))) in E as [fd Hs%Hk].
    by apply rtc_once, (kw_lock s i (Timer fd)).
Qed.

Lemma take_turn_kany s it : rtc kany (kbase s) (kbase (take_turn s it)).
Proof.
  destruct it as [i []].
  4:{ simpl. destruct (kprocs (kbase s) !! i) as [[[a|o k] w]|] eqn:Hp; simpl; [done| |done].
      apply rtc_once. exists i, Killed. eexists _, _, _. split_and!; [exact Hp|apply l_kill|done]. }
  all: match goal with |- rtc _ _ (kbase (take_turn _ ?it)) => pose proof (take_turn_kwstep s it ltac:(done)) as Hr end.
  all: revert Hr; generalize (take_turn s); intros f Hr; induction Hr as [|s1 s2 s3 Hs _ IH]; [done|].
  all: eapply rtc_l; [|exact IH]; destruct Hs; simpl; eexists _, _; eauto.
Qed.

Definition turns (vs : list verb) (w0 : W) (sched : list (nat * turn)) : kwsys :=
  foldl take_turn (mkKw (kstart vs) w0) sched.

Lemma turns_kwstep vs w0 sched :
  Forall (λ it, it.2 ≠ Kill) sched → rtc kwstep (mkKw (kstart vs) w0) (turns vs w0 sched).
Proof.
  unfold turns. generalize (mkKw (kstart vs) w0) as s. induction sched as [|it sched IH]; intros s Hf; [done|].
  apply Forall_cons in Hf as [Hit Hf]. simpl. etrans; [by apply take_turn_kwstep|by apply IH].
Qed.

Lemma turns_kany vs w0 sched : rtc kany (kstart vs) (kbase (turns vs w0 sched)).
Proof.
  unfold turns. change (kstart vs) with (kbase (mkKw (kstart vs) w0)) at 1.
  generalize (mkKw (kstart vs) w0) as s. induction sched as [|it sched IH]; intros s; [done|].
  simpl. etrans; [apply take_turn_kany|apply IH].
Qed.
End world.

(** C15: The goroutine and the timer of [FileLock.Lock] implement flock with a
    timeout as one operation, and the calls stay serializable.  For any number of
    processes for one grout socket: an execution in which a goroutine waits in
    flock(2), the timer may be chosen before or after the lock was granted, and
    the file may be closed before the goroutine has returned, is an execution of
    the processes of Interleave; with kills, of those whose lock is given up when
    they are killed; and with the shared world, whenever no process is in its
    critical section, the world and the results of the calls that have ended are
    those of calls run alone, one after another in some order. *)
Theorem lock_refines_flock path vs :
  (∀ v, v ∈ vs → production v ∧ lockPathForSocket (GroutSocketPath (verb_conf v)) = path) →
  (∀ s, rtc kalive (kstart vs) s → reachable vs (abs s)) ∧
  (∀ s, rtc kany (kstart vs) s → rtc xstep (start vs) (abs s)) ∧
  ∀ W (h : handler CniSig W) w0 s, rtc (kwstep h) (mkKw (kstart vs) w0) s →
    wreachable h vs w0 (absw s) ∧
    (working_on (kbase s) = None → ∃ order, serialized_state h vs w0 (absw s) order).
Proof.
  intros Hvs. pose proof (kinv_start path vs Hvs) as Hinv. unfold reachable. rewrite <-abs_start. split_and!.
  - intros s. apply (rtc_simulated _ _ _ (kinv path)); [|done]. clear. intros s s' Hinv (i & l & Hs & Hl).
    split; [by eapply kinv_step|]. pose proof (kstep_simulated path _ _ _ _ Hinv Hs) as Hsim.
    destruct l as [|o r|fd|]; [by rewrite Hsim|..|done]; apply rtc_once; [exists i, o|exists i, (FlockEx fd)]; naive_solver.
  - intros s. apply (rtc_simulated _ _ _ (kinv path)); [|done]. clear. intros s s' Hinv (i & l & Hs).
    split; [by eapply kinv_step|]. pose proof (kstep_simulated path _ _ _ _ Hinv Hs) as Hsim.
    destruct l as [|o r|fd|]; [by rewrite Hsim|..]; apply rtc_once.
    + destruct Hsim as [Hsim _]. by eapply x_op.
    + by eapply x_op.
    + destruct Hsim as (o & k & ? & ?). by eapply x_kill.
  - intros W h w0 s Hr. assert (wreachable h vs w0 (absw s)) as Hw.
    { unfold wreachable. rewrite <-abs_start.
      apply (rtc_simulated (kwstep h) _ absw (λ s, kinv path (kbase s)) (mkKw (kstart vs) w0)); [|done|done].
      intros x y. apply (kwstep_simulated h). }
    split; [done|]. intros Hfree. eapply serializable; [by intros v [? ?]%Hvs|exact Hw|exact Hfree].
Qed.
End waiter.
