(* ===== verification/Files.v ===== *)
(** * Files: each process locks the file it has opened

    A lock file belongs to a grout socket ([lockPathForSocket]), and flock(2)
    gives the lock of one file to one process at a time, whatever happens to the
    other files.  Here the kernel keeps which file each process has opened and
    the owner of every file, and the processes of Waiter act on the lock of their
    own file.  The one lock of Waiter, Interleave and Serializable is the view of
    processes that have all opened the same file; that the plugin's calls for one
    grout socket do so is proved here, from the discipline of Serial.  Processes
    for different sockets do not exclude each other. *)

From stdpp Require Import relations functions.
From S2P Require Import Prelude Bytes NetIP Types GoLib Cni PortName Config Lock Netns Handler Serial.
From S2P Require Import Runs Interleave Progress Serializable Waiter.
From Stdlib Require Import Lia ZArith.
Open Scope Z_scope.
#[local] Opaque groutPortName.

Section files.
Context `{CniLib}.

(** The processes, the lock file that each has opened, and the owners of the
    files' locks. *)
Record fsys := mkFsys { fprocs : list (cni verdict * waiter); ffile : nat → option gostring; flocks : gostring → option nat }.

(** The lock of the file that process [i] has opened. *)
Definition own_lock (s : fsys) (i : nat) : option nat := ffile s i ≫= flocks s.

Definition set_lock (file : option gostring) (lk : option nat) (locks : gostring → option nat)
    : gostring → option nat :=
  match file with Some path => <[path:=lk]> locks | None => locks end.

(** The file a process has opened after a step. *)
Definition opened (l : label) (file : option gostring) : option gostring :=
  match l with Op (OpenLock path) (Ok _) => Some path | _ => file end.

Definition fstep (s : fsys) (i : nat) (l : label) (s' : fsys) : Prop :=
  ∃ pw pw' lk', fprocs s !! i = Some pw ∧ lstep i (own_lock s i) pw l pw' lk' ∧
    s' = mkFsys (<[i:=pw']> (fprocs s)) (<[i:=opened l (ffile s i)]> (ffile s))
           (set_lock (ffile s i) lk' (flocks s)).

Definition fstart (vs : list verb) : fsys :=
  mkFsys ((λ v, (run_verb v, NotStarted)) <$> vs) (λ _, None) (λ _, None).

(** Process [i] has received the lock of its file and not given it up. *)
Definition inside (s : fsys) (i : nat) : bool :=
  match fprocs s !! i with
  | Some (_, Over) => bool_decide (own_lock s i = Some i)
  | _ => false
  end.

(** ** One file *)

Definition view (path : gostring) (s : fsys) : ksys := mkKsys (fprocs s) (flocks s path).

(** Every process follows the lock's discipline on [path], and has opened that
    file, or none and is before or after everything that needs the lock. *)
Definition finv (path : gostring) (s : fsys) : Prop :=
  ∀ i p w, fprocs s !! i = Some (p, w) →
    ∃ g, gwp (lock_step path) p g finished ∧ consistent p g w (flocks s path = Some i) ∧
      (ffile s i = Some path ∨ ffile s i = None ∧ (g = Idle ∨ g = Done) ∧ (w = NotStarted ∨ w = Over)).

Lemma finv_kinv path s : finv path s → kinv path (view path s).
Proof. intros Hinv i p w Hp. destruct (Hinv i p w Hp) as (g & ? & ? & _). by exists g. Qed.

Lemma finv_start path vs :
  (∀ v, v ∈ vs → production v ∧ lockPathForSocket (GroutSocketPath (verb_conf v)) = path) → finv path (fstart vs).
Proof.
  intros Hvs i p w Hp. simpl in Hp. apply list_lookup_fmap_Some in Hp as (v & [= -> ->] & Hv).
  apply list_elem_of_lookup_2 in Hv. destruct (Hvs v Hv) as [Hprod <-].
  exists Idle. split_and!; [by apply verb_discipline|done|]. right. auto.
Qed.

(** A process that has opened no file does not use the lock: its steps are the
    same whoever owns it, and it may open [path]. *)
Lemma unopened_step path i lk pw l pw' lk' g :
  lstep i None pw l pw' lk' → gwp (lock_step path) pw.1 g finished → consistent pw.1 g pw.2 (lk = Some i) →
  g = Idle ∨ g = Done → pw.2 = NotStarted ∨ pw.2 = Over →
  lstep i lk pw l pw' lk ∧
  ∃ g', gwp (lock_step path) pw'.1 g' finished ∧ consistent pw'.1 g' pw'.2 (lk = Some i) ∧
    (opened l None = Some path ∨ opened l None = None ∧ (g' = Idle ∨ g' = Done) ∧ (pw'.2 = NotStarted ∨ pw'.2 = Over)).
Proof.
  intros Hs Hg Hc Hgs Hws. assert (lk ≠ Some i) as Hn.
  { destruct Hws as [Hw|Hw]; rewrite Hw in Hc; simpl in Hc; [by destruct Hc|]. naive_solver. }
  assert (release i lk = lk) as Hrel by (unfold release; by rewrite decide_False).
  assert (∀ o (k : cni_res o → cni verdict), pw.1 = Vis (S := CniSig) o k → ∀ r,
    lock_step path g (existT (P := res CniSig) o r) ≠ Violated ∧
    gwp (lock_step path) (k r) (lock_step path g (existT (P := res CniSig) o r)) finished) as Hnext.
  { intros o k Eo r. rewrite Eo in Hg. by apply discipline_next. }
  destruct Hs as [fd k|q E|q|q e|fd k|fd k e|fd k w1 w2 Hex|q|q E|q|q|q E|q|q|fd k r w1|fd k r w1|o k r w1 Ho
    |a w1 Hw1 Hw2|o k w1]; cbn [fst snd] in *; try (exfalso; naive_solver).
  - destruct (Hnext _ _ eq_refl LockTimeout) as [[-> _]%discipline_lock _]. naive_solver.
  - destruct (Hnext _ _ eq_refl LockTimeout) as [[-> _]%discipline_lock _]. naive_solver.
  - destruct (Hnext _ _ eq_refl r) as [[-> _]%discipline_unlock _]. naive_solver.
  - destruct (Hnext _ _ eq_refl r) as [[-> _]%discipline_close _]. naive_solver.
  - split; [by apply l_other|]. destruct (Hnext _ _ eq_refl r) as [Hv Hk].
    eexists. split; [exact Hk|]. clear Hk. destruct Hgs as [-> | ->]; [|by destruct o].
    destruct Hws as [-> | ->]; [|by destruct Hc as (_ & ? & _)]. destruct o; try (by exfalso); simpl in Hv |- *.
    + naive_solver.
    + case_decide; [subst|done]. destruct r; naive_solver.
  - split; [rewrite <-Hrel at 2; apply l_kill|]. exists Done. split_and!; [by right| |].
    + simpl. split_and!; [done|done|]. split; [by intros [? ?]|done].
    + right. auto.
Qed.

(** The discipline lets a process open [path] only. *)
Lemma opened_path path i lk pw l pw' lk' g :
  lstep i lk pw l pw' lk' → gwp (lock_step path) pw.1 g finished → opened l (Some path) = Some path.
Proof.
  intros Hs Hg. destruct Hs as [| | | | | | | | | | | | | | | |o k r w Ho| |]; try done.
  destruct o; try done. destruct r as [fd|e]; [|done].
  destruct (discipline_next path _ k g (Ok fd) Hg) as [Hv _]. destruct g; simpl in Hv; try done.
  by case_decide; subst.
Qed.

(** A step of a process on the lock of its own file is one on the lock of [path]. *)
Lemma fstep_view path s i l s' :
  finv path s → fstep s i l s' → finv path s' ∧ kstep (view path s) i l (view path s').
Proof.
  intros Hinv ([p w] & [p' w'] & lk' & Hp & Hs & ->). destruct (Hinv i p w Hp) as (g & Hg & Hc & Hf).
  assert (∃ lk2, set_lock (ffile s i) lk' (flocks s) path = lk2 ∧
    lstep i (flocks s path) (p, w) l (p', w') lk2 ∧
    ∃ g', gwp (lock_step path) p' g' finished ∧ consistent p' g' w' (lk2 = Some i) ∧
      (opened l (ffile s i) = Some path ∨
       opened l (ffile s i) = None ∧ (g' = Idle ∨ g' = Done) ∧ (w' = NotStarted ∨ w' = Over)))
    as (lk2 & Elk & Hs2 & g' & Hg' & Hc' & Hf').
  { unfold own_lock in Hs. destruct Hf as [Ef|(Ef & Hgs & Hws)]; rewrite Ef in Hs |- *; simpl in *.
    - exists lk'. split; [by rewrite fn_lookup_insert|]. split; [done|].
      destruct (lstep_consistent path i _ _ _ _ _ g Hs Hg Hc) as (g' & ? & ?). exists g'.
      split_and!; [done|done|left]. by apply (opened_path path i _ _ _ _ _ g Hs Hg).
    - exists (flocks s path). split; [done|]. by apply (unopened_step path i (flocks s path) (p, w) l (p', w') lk' g). }
  split; [|exists (p, w), (p', w'), lk2; split_and!; [done|done|]; unfold view; simpl; by rewrite Elk].
  intros j q v Hj. simpl in *. apply list_lookup_insert_Some in Hj as [(<- & [= <- <-] & _)|[Hne Hj]].
  - exists g'. rewrite fn_lookup_insert, Elk. auto.
  - destruct (Hinv j q v Hj) as (g2 & Hg2 & Hc2 & Hf2). exists g2. rewrite fn_lookup_insert_ne by done.
    split_and!; [done| |done]. rewrite Elk.
    pose proof (lstep_others i j _ _ _ _ _ Hs2 ltac:(congruence)) as Hiff.
    destruct v; simpl in *; rewrite ?Hiff; done.
Qed.

Lemma inside_view path s i : finv path s → inside s i = true ↔ working_on (view path s) = Some i.
Proof.
  intros Hinv. rewrite working_on_spec. unfold inside, working_at, own_lock. simpl.
  destruct (fprocs s !! i) as [[p w]|] eqn:Hp; [|naive_solver].
  destruct (Hinv i p w Hp) as (g & _ & Hc & [->|(-> & Hgs & Hws)]); simpl.
  - destruct w; rewrite ?bool_decide_eq_true; naive_solver.
  - split; [by destruct w|]. intros (? & [= <-] & Hl & Hw). simpl in Hw, Hc. subst w.
    destruct Hc as (_ & _ & [_ Hh]). destruct (Hh Hl). naive_solver.
Qed.

(** ** With the shared world *)

Section world.
Context {W : Type} (h : handler CniSig W).

Record fwsys := mkFw { fbase : fsys; fworld : W }.

(** As for one lock: the goroutines, the timers and the lock operations leave the
    world alone, and so does a process that makes the lock's directory before it
    takes the lock; the world answers everything else. *)
Inductive fwstep (s : fwsys) : fwsys → Prop :=
| fw_lock i l s' :
    fstep (fbase s) i l s' →
    match l with
    | Op o _ => is_lock o = true ∨ (lockish o ∧ inside (fbase s) i = false)
    | Killed => False
    | _ => True
    end → fwstep s (mkFw s' (fworld s))
| fw_work i o r s' w :
    fstep (fbase s) i (Op o r) s' → is_lock o = false → touches o ∨ inside (fbase s) i = true →
    h o (fworld s) = (w, r) → fwstep s (mkFw s' w).

Definition freachable (vs : list verb) (w0 : W) (s : fwsys) : Prop := rtc fwstep (mkFw (fstart vs) w0) s.

(** What is seen of the calls when no process is in its critical section. *)
Definition seen (s : fwsys) : wsys := mkWsys (mkSys (fprocs (fbase s)).*1 None) (fworld s).

Definition wview (path : gostring) (s : fwsys) : kwsys := mkKw (view path (fbase s)) (fworld s).

Lemma fwstep_view path s s' :
  finv path (fbase s) → fwstep s s' → finv path (fbase s') ∧ kwstep h (wview path s) (wview path s').
Proof.
  intros Hinv [i l s1 Hs Hl|i o r s1 w Hs Ho Ht Hh];
    destruct (fstep_view path _ _ _ _ Hinv Hs) as [Hinv' Hk]; (split; [done|]).
  - eapply kw_lock; [exact Hk|]. destruct l as [|o r|fd|]; [done| |done|done].
    destruct Hl as [|[? Hi]]; [by left|right]. split; [done|]. simpl. rewrite <-inside_view by done. by rewrite Hi.
  - eapply kw_work; [exact Hk|done| |done]. destruct Ht as [|Hi]; [by left|right]. by apply inside_view.
Qed.

(** An execution of calls for one socket is one with the one lock of Waiter. *)
Lemma freachable_view path vs w0 s :
  (∀ v, v ∈ vs → production v ∧ lockPathForSocket (GroutSocketPath (verb_conf v)) = path) →
  freachable vs w0 s → finv path (fbase s) ∧ rtc (kwstep h) (mkKw (kstart vs) w0) (wview path s).
Proof.
  intros Hvs Hr. assert (finv path (fbase (mkFw (fstart vs) w0))) as Hinv by (by apply finv_start).
  change (mkKw (kstart vs) w0) with (wview path (mkFw (fstart vs) w0)).
  unfold freachable in Hr. revert Hinv. generalize (mkFw (fstart vs) w0) Hr. clear Hr.
  induction 1 as [s1|s1 s2 s3 H12 _ IH]; intros Hinv; [done|].
  destruct (fwstep_view path _ _ Hinv H12) as [Hinv2 Hk]. destruct (IH Hinv2) as [? ?].
  split; [done|]. by eapply rtc_l.
Qed.

Lemma freachable_serialized path vs w0 s :
  (∀ v, v ∈ vs → production v ∧ lockPathForSocket (GroutSocketPath (verb_conf v)) = path) →
  freachable vs w0 s → (∀ i, inside (fbase s) i = false) →
  ∃ order, serialized_state h vs w0 (seen s) order.
Proof.
  intros Hvs Hr Hfree. destruct (freachable_view path vs w0 s Hvs Hr) as [Hinv Hk].
  assert (wreachable h vs w0 (absw (wview path s))) as Hw.
  { unfold wreachable. rewrite <-abs_start.
    apply (rtc_simulated (kwstep h) _ absw (λ s, kinv path (kbase s)) (mkKw (kstart vs) w0)); [|by apply kinv_start|done].
    intros x y. apply (kwstep_simulated h). }
  destruct (serializable h vs w0 (absw (wview path s))) as [order Hs]; [by intros v [? ?]%Hvs|done| |by exists order].
  simpl. destruct (working_on (view path (fbase s))) as [i|] eqn:Ei; [|done].
  apply inside_view in Ei; [|done]. by rewrite Hfree in Ei.
Qed.

(** *** A scheduler *)

Definition take_fturn (s : fwsys) (it : nat * turn) : fwsys :=
  let '(i, t) := it in
  let b := fbase s in
  let lk := own_lock b i in
  let moved l pw lk w :=
    mkFw (mkFsys (<[i:=pw]> (fprocs b)) (<[i:=opened l (ffile b i)]> (ffile b)) (set_lock (ffile b i) lk (flocks b))) w in
  match fprocs b !! i with
  | None => s
  | Some pw =>
      default s match t with
      | Goroutine => '(w, lk') ← goroutine i lk pw; Some (moved Tau (pw.1, w) lk' (fworld s))
      | Main => '(l, pw', lk', w) ← mainly h i lk (inside b i) (fworld s) pw; Some (moved l pw' lk' w)
      | Fire => pw' ← fired pw; Some (moved (Timer 0) pw' lk (fworld s))
      | Kill => None
      end
  end.

Lemma take_fturn_fwstep s it : rtc fwstep s (take_fturn s it).
Proof.
  destruct it as [i t]. simpl. destruct (fprocs (fbase s) !! i) as [pw|] eqn:Hp; [|done].
  assert (∀ l f pw' lk', lstep i (own_lock (fbase s) i) pw l pw' lk' →
    f = opened l (ffile (fbase s) i) →
    fstep (fbase s) i l (mkFsys (<[i:=pw']> (fprocs (fbase s)))
      (<[i:=f]> (ffile (fbase s)))
      (set_lock (ffile (fbase s) i) lk' (flocks (fbase s))))) as Hf by (intros ? ? ? ? ? ->; by eexists _, _, _).
  destruct t; [| | |done].
  - destruct (goroutine i _ pw) as [[w lk']|] eqn:E; simpl; [|done]. apply goroutine_lstep in E.
    apply rtc_once, (fw_lock s i Tau); [by apply Hf|done].
  - destruct (mainly h i _ _ _ pw) as [[[[l pw'] lk'] w]|] eqn:E; simpl; [|done].
    apply mainly_lstep in E as (Hs & o & r & -> & [[-> Hl]|(Ho & Hw & Hh)]); apply rtc_once.
    + eapply (fw_lock s i (Op o r)); [by apply Hf|done].
    + eapply (fw_work s i o r); [by apply Hf|done..].
  - destruct (fired pw) as [pw'|] eqn:E; simpl; [|done]. apply (fired_lstep i (own_lock (fbase s) i)) in E as [fd Hs].
    apply rtc_once, (fw_lock s i (Timer fd)); [by apply Hf|done].
Qed.

Definition fturns (vs : list verb) (w0 : W) (sched : list (nat * turn)) : fwsys :=
  foldl take_fturn (mkFw (fstart vs) w0) sched.

Lemma fturns_reachable vs w0 sched : freachable vs w0 (fturns vs w0 sched).
Proof.
  unfold freachable, fturns. generalize (mkFw (fstart vs) w0) as s.
  induction sched as [|it sched IH]; intros s; [done|]. simpl. by etrans; [apply take_fturn_fwstep|].
Qed.

(** C14: Interleaved calls are serializable.  For any number of plugin processes
    for the same grout socket, each of which locks the file that it has itself
    opened and waits for it in a goroutine that races with a timer, acting on a
    shared world in any interleaving: whenever no process is in its critical
    section, the world is exactly what some of the calls, each at most once and
    run alone one after another in some order, make of the initial world; a call
    among them that has ended returned what it returns at its place in that
    order, and a call that is not among them did not change the world and, when
    it has ended, returned an error. *)
Theorem calls_serializable path vs w0 s :
  (∀ v, v ∈ vs → production v ∧ lockPathForSocket (GroutSocketPath (verb_conf v)) = path) →
  freachable vs w0 s → (∀ i, inside (fbase s) i = false) →
  ∃ order, serialized_state h vs w0 (seen s) order.
Proof. apply freachable_serialized. Qed.
End world.
End files.
