(* ===== verification/World.v ===== *)
(** * World: the handlers against what grout holds

    grout is outside the repository.  [Grout] is a world in which the plugin's
    operations are answered, with the view the plugin has of it: the interfaces
    grout would list and the L3 addresses each of them holds.  [GroutLaws]
    states what the plugin relies on: interface names and ids are unique, a new
    interface gets a fresh id and is listed with the name, type and domain it
    was requested with, a deletion removes one interface and is refused while it
    holds addresses, and nothing but the four changing calls changes the view.
    Calls may fail.  [GroutReliable] adds that listing, flushing, and deleting
    an interface without addresses succeed. *)

From S2P Require Import Prelude Bytes NetIP Types GoLib Client Wire Cni PortName Config Lock Netns.
From S2P Require Import Handler Serial Ledger Runs.
From Stdlib Require Import Lia ZArith.
Open Scope Z_scope.
#[local] Opaque groutPortName.

(** An L3 address as grout keeps it: family, address, prefix length. *)
Definition addr_key (a : IPNet) : option (bool * IP * Z) :=
  match To4 (IPNet_IP a), To16 (IPNet_IP a) with
  | Some ip4, _ => Some (false, ip4, u8 (Mask_Size (IPNet_Mask a)))
  | None, Some ip6 => Some (true, ip6, u8 (Mask_Size (IPNet_Mask a)))
  | None, None => None
  end.

Class Grout `{CniTypes} (W : Type) := {
  env : handler CniSig W;
  valid : W → Prop;                          (* states the world can be in *)
  ifaces : W → list InterfaceInfo;           (* what grout lists *)
  addrs : W → Z → list (bool * IP * Z)       (* the addresses of an interface *)
}.

Section laws.
Context `{CniTypes} {W} `{!Grout W}.

Definition same (w w' : W) : Prop := ifaces w' = ifaces w ∧ ∀ id, addrs w' id = addrs w id.

(** Requests whose fields fit grout's structures, and listings of everything. *)
Definition wf_op (o : cni_op) : Prop :=
  match o with
  | GInterfaceAdd r => wf_iface_req r
  | GInterfaceDel r => is_u16 (id_IfaceID r)
  | GAddressAdd r => is_u16 (aa_IfaceID r)
  | GAddressFlush id => is_u16 id
  | GInterfaceList r => il_Type r = 0
  | _ => True
  end.

Definition without (id : Z) (l : list InterfaceInfo) : list InterfaceInfo := filter (λ i, if_ID i ≠ id) l.

Class GroutLaws := {
  law_names w : valid w → NoDup (if_Name <$> ifaces w);
  law_ids w : valid w → NoDup (if_ID <$> ifaces w);
  law_u16 w i : valid w → i ∈ ifaces w → is_u16 (if_ID i) ∧ is_u16 (if_Domain i);
  law_nonzero w i : valid w → i ∈ ifaces w → if_ID i ≠ 0;
  law_valid o w : valid w → wf_op o → valid (env o w).1;
  law_frame o w : valid w → wf_op o → is_mutation o = false → same w (env o w).1;
  law_list w l : valid w → (env list_all w).2 = Ok l → l = ifaces w;
  law_add_refused req w e : valid w → wf_iface_req req →
    (env (GInterfaceAdd req) w).2 = Err e → same w (env (GInterfaceAdd req) w).1;
  law_del_refused r w e : valid w → is_u16 (id_IfaceID r) →
    (env (GInterfaceDel r) w).2 = Err e → same w (env (GInterfaceDel r) w).1;
  law_addr_refused r w e : valid w → is_u16 (aa_IfaceID r) →
    (env (GAddressAdd r) w).2 = Err e → same w (env (GAddressAdd r) w).1;
  law_add req w resp : valid w → wf_iface_req req → (env (GInterfaceAdd req) w).2 = Ok resp →
    let w' := (env (GInterfaceAdd req) w).1 in
    IfaceID resp ≠ 0 ∧ ia_Name req ∉ if_Name <$> ifaces w ∧
    IfaceID resp ∉ if_ID <$> ifaces w ∧ IfaceID resp ∉ if_Domain <$> ifaces w ∧
    (∃ d, ifaces w' ≡ₚ mkInterfaceInfo (IfaceID resp) (ia_Type req) (ia_Name req) d :: ifaces w ∧
          (ia_DomainID req ≠ 0 → d = ia_DomainID req) ∧
          (ia_DomainID req = 0 → d ∉ if_ID <$> ifaces w')) ∧
    addrs w' (IfaceID resp) = [] ∧ ∀ id, id ≠ IfaceID resp → addrs w' id = addrs w id;
  law_del r w : valid w → is_u16 (id_IfaceID r) → (env (GInterfaceDel r) w).2 = Ok tt →
    let w' := (env (GInterfaceDel r) w).1 in
    addrs w (id_IfaceID r) = [] ∧ ifaces w' ≡ₚ without (id_IfaceID r) (ifaces w) ∧
    ∀ id, addrs w' id = addrs w id;
  law_addr r w : valid w → is_u16 (aa_IfaceID r) → (env (GAddressAdd r) w).2 = Ok tt →
    let w' := (env (GAddressAdd r) w).1 in
    ifaces w' = ifaces w ∧ (∀ id, id ≠ aa_IfaceID r → addrs w' id = addrs w id) ∧
    ∃ k, addr_key (aa_Address r) = Some k ∧
      ∀ k', k' ∈ addrs w' (aa_IfaceID r) ↔ k' = k ∨ k' ∈ addrs w (aa_IfaceID r);
  law_flush id w : valid w → is_u16 id →
    let w' := (env (GAddressFlush id) w).1 in
    ifaces w' = ifaces w ∧ (∀ id', id' ≠ id → addrs w' id' = addrs w id') ∧
    ((env (GAddressFlush id) w).2 = Ok tt → addrs w' id = [])
}.

Class GroutReliable := {
  rel_list w : valid w → ∃ l, (env list_all w).2 = Ok l;
  rel_flush id w : valid w → id ∈ if_ID <$> ifaces w → (env (GAddressFlush id) w).2 = Ok tt;
  rel_del r w : valid w → id_IfaceID r ∈ if_ID <$> ifaces w → addrs w (id_IfaceID r) = [] →
    (env (GInterfaceDel r) w).2 = Ok tt
}.

(** The run of a program from a world, as a predicate on where it ends. *)
Definition run {A} (p : cni A) (w : W) (Q : W → A → Prop) : Prop :=
  let '(w', a) := interp env p w in Q w' a.

Lemma run_mono {A} (p : cni A) w (Q Q' : W → A → Prop) :
  run p w Q → (∀ w a, Q w a → Q' w a) → run p w Q'.
Proof. unfold run. destruct (interp env p w). auto. Qed.

Lemma run_bind {A B} (p : cni A) (f : A → cni B) w Q :
  run p w (λ w a, run (f a) w Q) → run (p ≫= f) w Q.
Proof. unfold run. rewrite interp_bind. by destruct (interp env p w). Qed.

Lemma run_ret {A} (a : A) w (Q : W → A → Prop) : Q w a → run (mret a) w Q.
Proof. done. Qed.

Lemma run_op o w (Q : W → cni_res o → Prop) : Q (env o w).1 (env o w).2 → run (op_call o) w Q.
Proof. unfold run, op_call. simpl. by destruct (env o w). Qed.

Lemma same_refl w : same w w.
Proof. done. Qed.
Lemma same_trans w1 w2 w3 : same w1 w2 → same w2 w3 → same w1 w3.
Proof. intros [E A] [E' A']. split; [by rewrite E'|]. intros id. by rewrite A'. Qed.
Lemma same_sym w1 w2 : same w1 w2 → same w2 w1.
Proof. intros [E A]. by split. Qed.
End laws.
Arguments GroutLaws {_} W {_}.
Arguments GroutReliable {_} W {_}.

(** ** Programs that leave grout alone *)

Section frame.
Context `{CniLib} {W} `{!Grout W} `{!GroutLaws W}.
Implicit Types w : W.

Definition quiet_op (o : cni_op) : Prop := is_mutation o = false ∧ wf_op o.
Definition quiet {A} (p : cni A) : Prop := uses_only (S := CniSig) quiet_op p.

Lemma run_quiet_op o w : quiet_op o → valid w → valid (env o w).1 ∧ same w (env o w).1.
Proof. intros [Hm Ho] Hv. split; [by apply law_valid|by apply law_frame]. Qed.

Lemma run_quiet {A} (p : cni A) w (Q : W → A → Prop) :
  quiet p → valid w → (∀ w' a, valid w' → same w w' → Q w' a) → run p w Q.
Proof.
  intros Hp Hv HQ.
  assert (valid (interp env p w).1 ∧ same w (interp env p w).1) as [Hv' Hs].
  { apply (uses_only_interp (S := CniSig) quiet_op env (λ w', valid w' ∧ same w w')); [done| |].
    - intros o w1 Ho [Hv1 Hs1]. destruct (run_quiet_op o w1 Ho Hv1). split; [done|by eapply same_trans].
    - split; [done|apply same_refl]. }
  unfold run. destruct (interp env p w) as [w' a]. by apply HQ.
Qed.

(** The lock around a body: the postcondition must not depend on more than the
    view. *)
Lemma run_with_lock {A} path (body : cni (outcome (result A))) w (Q : W → outcome (result A) → Prop) :
  (∀ w w' a, same w w' → Q w a → Q w' a) →
  valid w →
  (∀ e, Q w (Returns (Err e))) →
  (∀ w1, valid w1 → same w w1 → run body w1 (λ w2 a, valid w2 ∧ Q w2 a)) →
  run (with_lock path body) w (λ w' a, valid w' ∧ Q w' a).
Proof.
  intros HQ Hv He Hb. unfold with_lock. apply run_bind. apply run_quiet; [|done|].
  { unfold quiet, NewFileLock. footprint; done. }
  intros w1 [fd|e] Hv1 Hs1; [|apply run_ret; split; [done|by eapply HQ]].
  apply run_bind, run_quiet; [unfold quiet, FileLock_Lock; footprint; done|done|].
  intros w2 [[]|e] Hv2 Hs2.
  - apply run_bind. eapply run_mono; [apply Hb; [done|by eapply same_trans]|].
    intros w3 a [Hv3 HQ3]. apply run_bind, run_quiet; [unfold quiet, FileLock_Unlock; footprint; done|done|].
    intros w4 r Hv4 Hs4. apply run_bind, run_quiet; [unfold quiet, FileLock_Close; footprint; done|done|].
    intros w5 r' Hv5 Hs5. apply run_ret. split; [done|].
    eapply HQ, HQ3. by eapply same_trans.
  - apply run_bind, run_quiet; [unfold quiet, FileLock_Close; footprint; done|done|].
    intros w3 r Hv3 Hs3. apply run_ret. split; [done|]. eapply HQ, He.
    by do 2 (eapply same_trans; [done|]).
Qed.
End frame.

(** ** The calls *)

Section calls.
Context `{CniLib} {W} `{!Grout W} `{!GroutLaws W}.
Implicit Types w : W.

Lemma run_list w Q :
  valid w →
  (∀ w', valid w' → same w w' → Q w' (Ok (ifaces w))) →
  (∀ w' e, valid w' → same w w' → Q w' (Err e)) →
  run (op_call list_all) w Q.
Proof.
  intros Hv Hok Herr. apply run_op. destruct (run_quiet_op list_all w (conj eq_refl eq_refl) Hv) as [Hv' Hs].
  pose proof (law_list w) as Hl. destruct (env list_all w) as [w' [l|e]]; simpl in *; [|by apply Herr].
  rewrite (Hl l Hv eq_refl). by apply Hok.
Qed.

(** What adding an interface does. *)
Record added (req : InterfaceAddRequest) (id : Z) w w' : Prop := {
  added_id : id ≠ 0;
  added_name : ia_Name req ∉ if_Name <$> ifaces w;
  added_fresh : id ∉ if_ID <$> ifaces w;
  added_nodomain : id ∉ if_Domain <$> ifaces w;
  added_iface : ∃ d, ifaces w' ≡ₚ mkInterfaceInfo id (ia_Type req) (ia_Name req) d :: ifaces w ∧
    (ia_DomainID req ≠ 0 → d = ia_DomainID req) ∧ (ia_DomainID req = 0 → d ∉ if_ID <$> ifaces w');
  added_addrs : addrs w' id = [];
  added_frame : ∀ id', id' ≠ id → addrs w' id' = addrs w id' }.

Lemma run_add req w Q :
  valid w → wf_iface_req req →
  (∀ w' resp, valid w' → added req (IfaceID resp) w w' → Q w' (Ok resp)) →
  (∀ w' e, valid w' → same w w' → Q w' (Err e)) →
  run (op_call (GInterfaceAdd req)) w Q.
Proof.
  intros Hv Hwf Hok Herr. apply run_op.
  pose proof (law_valid (GInterfaceAdd req) w Hv Hwf) as Hv'.
  pose proof (law_add_refused req w) as Href. pose proof (law_add req w) as Hadd.
  destruct (env (GInterfaceAdd req) w) as [w' [resp|e]]; simpl in *; [|by apply Herr, (Href e)].
  apply Hok; [done|]. destruct (Hadd resp Hv Hwf eq_refl) as (? & ? & ? & ? & ? & ? & ?). by split.
Qed.

Lemma run_addr_add r w Q :
  valid w → is_u16 (aa_IfaceID r) →
  (∀ w' k, valid w' → ifaces w' = ifaces w → (∀ id, id ≠ aa_IfaceID r → addrs w' id = addrs w id) →
     addr_key (aa_Address r) = Some k →
     (∀ k', k' ∈ addrs w' (aa_IfaceID r) ↔ k' = k ∨ k' ∈ addrs w (aa_IfaceID r)) → Q w' (Ok tt)) →
  (∀ w' e, valid w' → same w w' → Q w' (Err e)) →
  run (op_call (GAddressAdd r)) w Q.
Proof.
  intros Hv Hwf Hok Herr. apply run_op.
  pose proof (law_valid (GAddressAdd r) w Hv Hwf) as Hv'.
  pose proof (law_addr_refused r w) as Href. pose proof (law_addr r w) as Hadd.
  destruct (env (GAddressAdd r) w) as [w' [[]|e]]; simpl in *; [|by apply Herr, (Href e)].
  destruct (Hadd Hv Hwf eq_refl) as (? & ? & k & ? & ?). by eapply Hok.
Qed.

Context `{!GroutReliable W}.

Lemma run_list_ok w Q :
  valid w → (∀ w', valid w' → same w w' → Q w' (Ok (ifaces w))) → run (op_call list_all) w Q.
Proof.
  intros Hv Hok. apply run_op. destruct (run_quiet_op list_all w (conj eq_refl eq_refl) Hv) as [Hv' Hs].
  destruct (rel_list w Hv) as [l Hl]. rewrite Hl, (law_list w l Hv Hl). by apply Hok.
Qed.

Lemma run_del id w Q :
  valid w → is_u16 id → id ∈ if_ID <$> ifaces w → addrs w id = [] →
  (∀ w', valid w' → ifaces w' ≡ₚ without id (ifaces w) → (∀ id, addrs w' id = addrs w id) → Q w' (Ok tt)) →
  run (op_call (GInterfaceDel (mkInterfaceDelRequest id))) w Q.
Proof.
  intros Hv Hid Hin Ha Hok. apply run_op. set (r := mkInterfaceDelRequest id).
  pose proof (rel_del r w Hv Hin Ha) as Hr. rewrite Hr.
  destruct (law_del r w Hv Hid Hr) as (_ & ? & ?). apply Hok; [|done..].
  by apply (law_valid (GInterfaceDel r)).
Qed.

Lemma run_flush id w Q :
  valid w → is_u16 id → id ∈ if_ID <$> ifaces w →
  (∀ w', valid w' → ifaces w' = ifaces w → addrs w' id = [] →
     (∀ id', id' ≠ id → addrs w' id' = addrs w id') → Q w' (Ok tt)) →
  run (op_call (GAddressFlush id)) w Q.
Proof.
  intros Hv Hid Hin Hok. apply run_op.
  pose proof (rel_flush id w Hv Hin) as Hr. rewrite Hr.
  destruct (law_flush id w Hv Hid) as (? & ? & He). apply Hok; [by apply (law_valid (GAddressFlush id))|done|auto|done].
Qed.
End calls.

(** ** DEL and GC *)

Section removal.
Context `{CniLib} {W} `{!Grout W} `{!GroutLaws W} `{!GroutReliable W}.
Implicit Types w : W.

(** The interfaces after an empty bridge was collected. *)
Definition collect (id : Z) (l : list InterfaceInfo) : list InterfaceInfo :=
  if decide (bridge_empty id l) then without id l else l.

#[global] Instance bridge_empty_proper id : Proper ((≡ₚ) ==> iff) (bridge_empty id).
Proof. intros l l' E. unfold bridge_empty. setoid_rewrite E. done. Qed.

#[global] Instance without_proper id : Proper ((≡ₚ) ==> (≡ₚ)) (without id).
Proof. intros l l' E. unfold without. by rewrite E. Qed.

#[global] Instance collect_proper id : Proper ((≡ₚ) ==> (≡ₚ)) (collect id).
Proof.
  intros l l' E. unfold collect.
  destruct (decide (bridge_empty id l)) as [H1|H1]; [|].
  - rewrite decide_True by (by rewrite <-E). by rewrite E.
  - rewrite decide_False by (by rewrite <-E). done.
Qed.

Lemma run_gcBridge id w :
  valid w → is_u16 id →
  run (gcBridgeIfEmpty id) w (λ w' _,
    valid w' ∧ ifaces w' ≡ₚ collect id (ifaces w) ∧ ∀ id', id' ≠ id → addrs w' id' = addrs w id').
Proof.
  intros Hv Hid. unfold gcBridgeIfEmpty, collect. apply run_bind, run_list_ok; [done|].
  intros w1 Hv1 [E1 A1]. destruct (gc_scan id false (ifaces w)) eqn:Es.
  - apply gc_scan_empty in Es. rewrite decide_True by done.
    assert (id ∈ if_ID <$> ifaces w1) as Hin.
    { rewrite E1. destruct Es as [(b & Hb & <-) _]. by apply list_elem_of_fmap_2. }
    apply run_bind, run_flush; [done|done|done|]. intros w2 Hv2 E2 A2 F2.
    apply run_bind, run_del; [done|done|by rewrite E2|done|]. intros w3 Hv3 E3 F3.
    apply run_ret. split_and!; [done|by rewrite E3, E2, E1|]. intros id' Hne. by rewrite F3, F2, A1.
  - rewrite decide_False by (rewrite <-gc_scan_empty; by rewrite Es).
    apply run_ret. split_and!; [done|by rewrite E1|auto].
Qed.

(** What DEL makes of the interfaces. *)
Definition after_del (name : gostring) (l : list InterfaceInfo) : list InterfaceInfo :=
  match findPortByName l name with
  | None => l
  | Some port =>
      let l1 := without (if_ID port) l in
      if decide (if_Domain port = 0) then l1 else collect (if_Domain port) l1
  end.

Lemma elem_of_without id l i : i ∈ without id l ↔ i ∈ l ∧ if_ID i ≠ id.
Proof. unfold without. rewrite list_elem_of_filter. naive_solver. Qed.

Lemma collect_subset id l i : i ∈ collect id l → i ∈ l.
Proof. unfold collect. case_decide; [|done]. rewrite elem_of_without. naive_solver. Qed.

Lemma after_del_name name l :
  NoDup (if_Name <$> l) → name ∉ if_Name <$> after_del name l.
Proof.
  intros Hnd. unfold after_del. destruct (findPortByName l name) as [port|] eqn:Ef.
  - apply findPortByName_some in Ef as [Hp En].
    assert (∀ i, i ∈ without (if_ID port) l → if_Name i ≠ name) as Hne.
    { intros i [Hi Hid]%elem_of_without Ei. apply Hid. f_equal.
      eapply NoDup_fmap_inj; [exact Hnd|done|done|by rewrite Ei]. }
    intros (i & Ei & Hi)%list_elem_of_fmap. symmetry in Ei. revert Ei. apply Hne.
    revert Hi. case_decide; [done|apply collect_subset].
  - by apply findPortByName_none.
Qed.

Lemma quiet_ipamDel config args : quiet (ipamDel None config args).
Proof. unfold quiet, ipamDel, delegateIPAMDel. simpl. footprint; done. Qed.
Lemma quiet_removeVhostSocket sock name : quiet (removeVhostSocket sock name).
Proof. unfold quiet, removeVhostSocket. footprint; done. Qed.

Definition del_name (cfg : DelConfig) : gostring :=
  groutPortName (ContainerID (del_Args cfg)) (IfName (del_Args cfg)).

(** How the interfaces are after a DEL. *)
Definition del_state (cfg : DelConfig) (w w' : W) (out : outcome (result unit)) : Prop :=
  match out with
  | Returns (Ok _) => ifaces w' ≡ₚ after_del (del_name cfg) (ifaces w) ∧ del_name cfg ∉ if_Name <$> ifaces w'
  | Returns (Err _) => ifaces w' = ifaces w
  | Panics => False
  end.

Lemma run_HandleDel cfg w :
  production_del cfg → valid w →
  (∀ p, findPortByName (ifaces w) (del_name cfg) = Some p → addrs w (if_ID p) = []) →
  run (HandleDel cfg) w (λ w' out, valid w' ∧ del_state cfg w w' out).
Proof.
  intros [E _] Hv Ha. unfold HandleDel. apply run_with_lock; [|done|done|].
  { intros w1 w2 [[?|?]|] [Es _]; simpl; by rewrite ?Es. }
  intros w1 Hv1 [E1 A1]. fold (del_name cfg). rewrite E.
  apply run_bind, run_list; [done| |]; [|intros w2 e Hv2 [E2 _]; apply run_ret; split; [done|]; simpl; by rewrite E2].
  intros w2 Hv2 [E2 A2]. rewrite E1 in *.
  assert (∀ w3, valid w3 → ifaces w3 ≡ₚ after_del (del_name cfg) (ifaces w) →
    run (_ ← ipamDel None (del_Config cfg) (del_Args cfg); mret (Returns (Ok tt))) w3 (λ w' out, valid w' ∧ del_state cfg w w' out)) as Hipam.
  { intros w3 Hv3 E3. apply run_bind, run_quiet; [apply quiet_ipamDel|done|].
    intros w4 [] Hv4 [E4 _]. apply run_ret. split; [done|]. simpl. rewrite E4. split; [done|].
    rewrite E3. by apply after_del_name, law_names. }
  apply run_bind. destruct (findPortByName (ifaces w) (del_name cfg)) as [port|] eqn:Ef.
  2:{ apply Hipam; [done|]. unfold after_del. by rewrite Ef, E2. }
  pose proof (findPortByName_some _ _ _ Ef) as [Hp _]. destruct (law_u16 w port Hv Hp) as [Hu Hud].
  apply run_bind, run_del; [done|done|rewrite E2; by apply list_elem_of_fmap_2|by rewrite A2, A1, Ha|].
  intros w3 Hv3 E3 A3. rewrite E2 in E3.
  apply run_bind, run_quiet; [apply quiet_removeVhostSocket|done|]. intros w4 [] Hv4 [E4 A4].
  case_decide as Hd.
  - eapply run_mono; [by apply run_gcBridge|]. intros w5 [] (Hv5 & E5 & _). apply Hipam; [done|].
    unfold after_del. rewrite Ef, decide_False by done. by rewrite E5, E4, E3.
  - apply run_ret, Hipam; [done|]. unfold after_del. rewrite Ef, decide_True by lia. by rewrite E4, E3.
Qed.

(** C6: What DEL makes of grout's state, in any world that satisfies the laws.
    When it returns success the attachment's port is gone; nothing else is gone,
    except the bridge that was the port's domain when no other interface is
    still a member of it; a bridge with other members stays.  When it returns an
    error nothing changed, and it does not panic. *)
Theorem HandleDel_state cfg w :
  production_del cfg → valid w →
  (∀ p, findPortByName (ifaces w) (del_name cfg) = Some p → addrs w (if_ID p) = []) →
  run (HandleDel cfg) w (λ w' out, valid w' ∧ del_state cfg w w' out).
Proof. apply run_HandleDel. Qed.

(** The interfaces that are not in a list. *)
Definition minus (stale l : list InterfaceInfo) : list InterfaceInfo := filter (λ i, i ∉ stale) l.

#[global] Instance minus_proper stale : Proper ((≡ₚ) ==> (≡ₚ)) (minus stale).
Proof. intros l l' E. unfold minus. by rewrite E. Qed.

(** What GC makes of the interfaces. *)
Definition after_gc (conf : PluginConf) (l : list InterfaceInfo) : list InterfaceInfo :=
  match findBridgeID l (Bridge conf) with
  | None => l
  | Some id =>
      let stale := stale_ports conf id l in
      if decide (stale = []) then l else collect id (minus stale l)
  end.

Lemma without_minus i stale l :
  NoDup (if_ID <$> l) → i ∈ l → minus stale (without (if_ID i) l) = minus (i :: stale) l.
Proof.
  intros Hnd Hi. unfold minus, without. rewrite list_filter_filter. apply list_filter_iff_in.
  intros x Hx. rewrite not_elem_of_cons. split; [intros [? Hne]; split; [|done]|intros [Hne ?]; split; [done|]].
  - by intros ->.
  - intros E. apply Hne. by eapply (NoDup_fmap_inj if_ID).
Qed.

Lemma stale_ports_elem conf id l i :
  i ∈ stale_ports conf id l ↔ i ∈ l ∧ is_stale id (valid_names conf) i = true.
Proof. unfold stale_ports. rewrite list_elem_of_filter, is_stale_spec. naive_solver. Qed.

Lemma run_reap conf sock id l b w :
  valid w → NoDup (if_ID <$> l) →
  (∀ i, i ∈ stale_ports conf id l → i ∈ ifaces w ∧ addrs w (if_ID i) = []) →
  run (reap sock id (valid_names conf) l b) w (λ w' b',
    valid w' ∧ b' = (b || bool_decide (stale_ports conf id l ≠ [])) ∧
    ifaces w' ≡ₚ minus (stale_ports conf id l) (ifaces w)).
Proof.
  revert b w. induction l as [|i l IH]; intros b w Hv Hnd Hst.
  { apply run_ret. split_and!; [done|by rewrite bool_decide_false, orb_false_r by auto|].
    unfold minus. by rewrite list_filter_all by set_solver. }
  cbn [reap]. rewrite fmap_cons, NoDup_cons in Hnd. destruct Hnd as [Hi Hnd].
  destruct (is_stale id (valid_names conf) i) eqn:Es.
  - assert (stale_ports conf id (i :: l) = i :: stale_ports conf id l) as Econs.
    { unfold stale_ports. apply filter_cons_True. by apply is_stale_spec in Es. }
    rewrite Econs in *. destruct (Hst i) as [Hin Ha]; [set_solver|]. destruct (law_u16 w i Hv Hin) as [Hu _].
    apply run_bind, run_del; [done|done|by apply list_elem_of_fmap_2|done|]. intros w1 Hv1 E1 A1.
    apply run_bind, run_quiet; [apply quiet_removeVhostSocket|done|]. intros w2 [] Hv2 [E2 A2].
    eapply run_mono; [apply IH; [done|done|]|].
    + intros j Hj. rewrite E2, E1, A2, A1, elem_of_without.
      destruct (Hst j) as [Hjin Hja]; [set_solver|]. split_and!; [done| |done].
      intros Eid. apply Hi. rewrite <-Eid. apply stale_ports_elem in Hj as [Hj _]. by apply list_elem_of_fmap_2.
    + intros w3 b' (Hv3 & -> & E3). split_and!; [done|by rewrite orb_true_l, orb_true_r|].
      rewrite E3, E2, E1. rewrite without_minus; [done|by apply law_ids|done].
  - assert (stale_ports conf id (i :: l) = stale_ports conf id l) as Econs.
    { unfold stale_ports. apply filter_cons_False. intros Hs%is_stale_spec. by rewrite Hs in Es. }
    rewrite Econs in *. by apply IH.
Qed.

Lemma run_HandleGC cfg w :
  production_gc cfg → valid w →
  (∀ id i, findBridgeID (ifaces w) (Bridge (gc_Config cfg)) = Some id →
     i ∈ stale_ports (gc_Config cfg) id (ifaces w) → addrs w (if_ID i) = []) →
  run (HandleGC cfg) w (λ w' out,
    valid w' ∧
    match out with
    | Returns (Ok _) => ifaces w' ≡ₚ after_gc (gc_Config cfg) (ifaces w)
    | Returns (Err _) => ifaces w' = ifaces w
    | Panics => False
    end).
Proof.
  intros E Hv Ha. unfold HandleGC. apply run_with_lock; [|done|done|].
  { intros w1 w2 [[?|?]|] [Es _]; by rewrite ?Es. }
  intros w1 Hv1 [E1 A1]. rewrite E. set (conf := gc_Config cfg) in *.
  apply run_bind, run_list; [done| |]; [|intros w2 e Hv2 [E2 _]; apply run_ret; split; [done|]; by rewrite E2].
  intros w2 Hv2 [E2 A2]. rewrite E1 in *.
  assert (∀ w3, valid w3 → ifaces w3 ≡ₚ after_gc conf (ifaces w) →
    run (_ ← gcIPAM None conf (gc_Args cfg); mret (Returns (Ok tt))) w3 (λ w' out,
      valid w' ∧ match out with
        | Returns (Ok _) => ifaces w' ≡ₚ after_gc conf (ifaces w)
        | Returns (Err _) => ifaces w' = ifaces w
        | Panics => False
        end)) as Hipam.
  { intros w3 Hv3 E3. apply run_bind, run_quiet; [|done|].
    { unfold quiet, gcIPAM, delegateIPAMGC. simpl. footprint; done. }
    intros w4 [] Hv4 [E4 _]. apply run_ret. split; [done|]. by rewrite E4. }
  unfold after_gc in *. destruct (findBridgeID (ifaces w) (Bridge conf)) as [id|] eqn:Ef.
  2:{ apply Hipam; [done|]. by rewrite E2. }
  destruct (findBridgeID_some _ _ _ Ef) as (br & Hbr & _ & _ & Eid). destruct (law_u16 w br Hv Hbr) as [Hu _].
  rewrite Eid in Hu.
  apply run_bind. eapply run_mono; [apply (run_reap conf); [done|by apply law_ids|]|].
  { intros i Hi. pose proof Hi as [Hin _]%stale_ports_elem. rewrite E2, A2, A1. split; [done|by eapply Ha]. }
  intros w3 b (Hv3 & -> & E3). rewrite E2 in E3. rewrite orb_false_l.
  apply run_bind. destruct (decide (stale_ports conf id (ifaces w) = [])) as [Es|Es].
  - rewrite bool_decide_false by auto. apply run_ret, Hipam; [done|].
    rewrite E3, Es. unfold minus. by rewrite list_filter_all by set_solver.
  - rewrite bool_decide_true by done. eapply run_mono; [by apply run_gcBridge|].
    intros w4 [] (Hv4 & E4 & _). apply Hipam; [done|]. by rewrite E4, E3.
Qed.

(** C7: What GC makes of grout's state, in any world that satisfies the laws:
    exactly the ports of this network's bridge that carry the plugin's prefix
    and belong to no valid attachment are gone, and with them the bridge when
    they were its last members; everything else is as before.  When it returns
    an error nothing changed, and it does not panic. *)
Theorem HandleGC_state cfg w :
  production_gc cfg → valid w →
  (∀ id i, findBridgeID (ifaces w) (Bridge (gc_Config cfg)) = Some id →
     i ∈ stale_ports (gc_Config cfg) id (ifaces w) → addrs w (if_ID i) = []) →
  run (HandleGC cfg) w (λ w' out,
    valid w' ∧
    match out with
    | Returns (Ok _) => ifaces w' ≡ₚ after_gc (gc_Config cfg) (ifaces w)
    | Returns (Err _) => ifaces w' = ifaces w
    | Panics => False
    end).
Proof. apply run_HandleGC. Qed.
End removal.

(** ** ADD *)

(** At most a bridge, without members, was added. *)
Definition only_bridge (name : gostring) (l l' : list InterfaceInfo) : Prop :=
  l' ≡ₚ l ∨
  ∃ b, if_Type b = Types.InterfaceTypeBridge ∧ if_Name b = name ∧ name ∉ if_Name <$> l ∧
       if_ID b ∉ if_Domain <$> b :: l ∧ l' ≡ₚ b :: l.

Definition has_bridge (id : Z) (name : gostring) (l : list InterfaceInfo) : Prop :=
  ∃ b, b ∈ l ∧ if_ID b = id ∧ if_Name b = name.

Lemma findByName_some l name id : findByName l name = Some id → has_bridge id name l.
Proof.
  unfold has_bridge. induction l as [|i l IH]; simpl; [done|].
  case_decide; intros ?; simplify_eq; [exists i; set_solver|]. set_solver.
Qed.


Lemma vhostSocketPath_no_nul p name :
  x00 ∉ p → x00 ∉ name → x00 ∉ vhostSocketPath p name.
Proof.
  intros Hp Hn. unfold vhostSocketPath, Join.
  assert (∀ e, e ∈ [Dir p; str "vhost"; name ++ str ".sock"] → x00 ∉ e) as Hes.
  { assert (x00 ∉ dotdot) by (unfold dotdot; simpl; set_solver).
    intros e [->|[->|[->|He]%elem_of_cons]%elem_of_cons]%elem_of_cons.
    - unfold Dir. intros [Hb%upto_last_slash_bytes|[?|?]]%Clean_bytes; done.
    - simpl. set_solver.
    - rewrite not_elem_of_app. split; [done|]. simpl. set_solver.
    - by apply not_elem_of_nil in He. }
  destruct (filter _ _) as [|e es] eqn:Ef; [apply not_elem_of_nil|].
  intros [Hb|[?|Hb]]%Clean_bytes; [|done|unfold dotdot in Hb; simpl in Hb; set_solver].
  apply join_slash_bytes in Hb as [?|(c & Hc & Hb)]; [done|].
  rewrite <-Ef in Hc. apply list_elem_of_filter in Hc as [_ Hc]. by apply (Hes c).
Qed.

Section addition.
Context `{CniLib} {W} `{!Grout W} `{!GroutLaws W}.
Implicit Types w : W.

Lemma run_and {A} (p : cni A) w (Q Q' : W → A → Prop) :
  run p w Q → run p w Q' → run p w (λ w a, Q w a ∧ Q' w a).
Proof. unfold run. by destruct (interp env p w). Qed.

Lemma run_value {A} (p : cni A) w (P : A → Prop) : always p (λ _ a, P a) → run p w (λ _ a, P a).
Proof.
  intros Hp%(always_interp_trace env p w). unfold run. rewrite interp_trace_interp.
  by destruct (interp_trace env p w) as [[??] ?].
Qed.

(** The conditions on a configuration under which its requests fit grout's
    structures: what [LoadConfig] guarantees, and no NUL byte in the names. *)
Record clean_conf (c : PluginConf) : Prop := {
  clean_usable : usable c;
  clean_bridge : x00 ∉ Bridge c;
  clean_socket : x00 ∉ GroutSocketPath c }.

Definition bridge_request (name : gostring) : InterfaceAddRequest :=
  mkInterfaceAddRequest name Types.InterfaceTypeBridge 0 0 [] None.

Lemma bridge_request_wf c : clean_conf c → wf_iface_req (bridge_request (Bridge c)).
Proof.
  intros [[_ Hb _] Hn _]. split; simpl; try done; [|apply not_elem_of_nil].
  split; [unfold ifNameSize; lia|done].
Qed.

Lemma port_request_wf cfg c i id :
  clean_conf (add_Config cfg) → is_u16 id →
  wf_iface_req (port_request cfg (groutPortName c i) id
    (if is_virtio (add_Config cfg)
     then vhostSocketPath (GroutSocketPath (add_Config cfg)) (groutPortName c i) else [])).
Proof.
  intros [_ _ Hs] Hid. split; cbn [ia_Type ia_DomainID ia_MTU ia_Name ia_VhostUserPath ia_VXLAN port_request].
  - done.
  - done.
  - apply Z.mod_pos_bound. lia.
  - split; [rewrite groutPortName_length; unfold ifNameSize; lia|apply groutPortName_no_nul].
  - destruct (is_virtio _); [|apply not_elem_of_nil].
    apply vhostSocketPath_no_nul; [done|apply groutPortName_no_nul].
  - done.
Qed.

Lemma run_ensureBridge c w :
  clean_conf c → valid w →
  run (ensureBridge (Bridge c)) w (λ w' r,
    valid w' ∧
    match r with
    | Ok id => only_bridge (Bridge c) (ifaces w) (ifaces w') ∧ has_bridge id (Bridge c) (ifaces w')
    | Err _ => ifaces w' = ifaces w
    end).
Proof.
  intros Hc Hv. unfold ensureBridge. apply run_bind, run_list; [done| |].
  2:{ intros w1 e Hv1 [E1 _]. apply run_ret. by split. }
  intros w1 Hv1 [E1 _]. destruct (findBridgeID (ifaces w) (Bridge c)) as [id|] eqn:Ef.
  { apply run_ret. split; [done|]. rewrite E1. split; [by left|].
    destruct (findBridgeID_some _ _ _ Ef) as (b & ? & ? & ? & ?). by exists b. }
  apply run_bind, (run_add (bridge_request (Bridge c))); [done|by apply bridge_request_wf| |].
  - intros w2 resp Hv2 Ha. apply run_ret. split; [done|].
    destruct Ha as [_ Hn _ Hnd (d & E2 & _ & Hd) _ _]. rewrite E1 in *. split.
    + right. eexists. split_and!; [| | | |exact E2]; [done..|]. simpl. rewrite not_elem_of_cons. split; [|done].
      intros Ed. apply Hd; [done|]. rewrite E2, <-Ed. apply list_elem_of_here.
    + eexists. rewrite E2. split; [apply list_elem_of_here|done].
  - intros w2 e Hv2 [E2 _]. apply run_bind, run_list; [done| |].
    + intros w3 Hv3 [E3 _]. destruct (findByName (ifaces w2) (Bridge c)) as [id|] eqn:Eb; apply run_ret.
      * split; [done|]. apply findByName_some in Eb. rewrite E3. split; [left; by rewrite E2, E1|done].
      * split; [done|]. by rewrite E3, E2.
    + intros w3 e' Hv3 [E3 _]. apply run_ret. split; [done|]. by rewrite E3, E2.
Qed.

(** The interface holds the address of every gateway. *)
Definition holds (w : W) (id : Z) (gws : list IPNet) : Prop :=
  ∀ gw, gw ∈ gws → ∃ k, addr_key gw = Some k ∧ k ∈ addrs w id.

Lemma run_assign_gateways id gws w :
  valid w → is_u16 id →
  run (assign_gateways id gws) w (λ w' r,
    valid w' ∧ ifaces w' = ifaces w ∧ (∀ k, k ∈ addrs w id → k ∈ addrs w' id) ∧
    match r with Ok _ => holds w' id gws | Err _ => True end).
Proof.
  revert w. induction gws as [|gw gws IH]; intros w Hv Hid; cbn [assign_gateways].
  { apply run_ret. split_and!; [done..|]. intros gw Hgw. by apply not_elem_of_nil in Hgw. }
  apply run_bind, run_addr_add; [done|done| |].
  - intros w1 k Hv1 E1 _ Hk A1. eapply run_mono; [by apply IH|].
    intros w2 r (Hv2 & E2 & Hmono & Hr). simpl in A1. split_and!; [done|by rewrite E2| |].
    + intros k' Hk'. apply Hmono, A1. by right.
    + destruct r as [[]|e]; [|done]. intros gw' [->|Hgw]%elem_of_cons; [|by apply Hr].
      exists k. split; [done|]. apply Hmono, A1. by left.
  - intros w1 e Hv1 [E1 A1]. apply run_ret. split_and!; [done|done| |done]. intros k. by rewrite A1.
Qed.

(** ** The result *)

(** The result handed to the runtime has the addresses and gateways of the IPAM
    result. *)
Lemma point_ips_gateways idx ips ips' s4 s6 :
  point_ips idx ips = Some ips' → gateways_loop s4 s6 ips' = gateways_loop s4 s6 ips.
Proof.
  revert ips' s4 s6. induction ips as [|[ip|] ips IH]; intros ips' s4 s6 Hp; simpl in Hp; simplify_eq; [done|].
  destruct (point_ips idx ips) as [ips1|]; simplify_eq/=. rewrite !(IH ips1) by done. done.
Qed.

(** The result after the pod's interface was configured: only the MAC of its
    first interface may differ. *)
Definition configured (r : Result) (x : result Result) : Prop :=
  ∀ r', x = Ok r' → r' = r ∨ ∃ mac, r' = set_mac r mac.

Lemma returns_try {A B} (P : result B → Prop) (m : cni (result A)) f (k : A → cni (result B)) :
  (∀ e, P (Err e)) → (∀ a, returns P (k a)) → returns P (try_ m f k).
Proof. intros He Hk. apply returns_seq. intros [a|e]; [apply Hk|apply returns_ret, He]. Qed.

Lemma configurePod_value n h p m r : returns (configured r) (configurePodInterface n h p m r).
Proof.
  assert (∀ e, configured r (Err e)) as He by done.
  unfold configurePodInterface. apply returns_try; [done|]. intros ns.
  apply (returns_bind (configured r)).
  - unfold ns_Do. apply returns_seq. intros [[]|e]; [|by apply returns_ret].
    apply (returns_bind (configured r)).
    + unfold configure_in_ns. do 5 (apply returns_try; [done|intros ?]).
      apply returns_seq. intros [l|e]; apply returns_ret; intros r' ?; simplify_eq; eauto.
    + intros x Hx. apply returns_seq. intros _. by apply returns_ret.
  - intros x Hx. apply returns_seq. intros _. by apply returns_ret.
Qed.

Lemma gatewaysFor_set_mac r mac : gatewaysFor (set_mac r mac) = gatewaysFor r.
Proof. unfold set_mac, gatewaysFor. by destruct (r_Interfaces r). Qed.

Context `{!GroutReliable W}.

Lemma only_bridge_proper name l l1 l2 : l1 ≡ₚ l2 → only_bridge name l l1 → only_bridge name l l2.
Proof. intros E [?|(b & ? & ? & ? & ? & Eb)]; [left; by rewrite <-E|right; exists b]. by rewrite <-E. Qed.

Lemma without_fresh i l : if_ID i ∉ if_ID <$> l → without (if_ID i) (i :: l) = l.
Proof.
  intros Hi. unfold without. rewrite filter_cons_False by auto. apply list_filter_all.
  intros x Hx E. apply Hi. rewrite <-E. by apply list_elem_of_fmap_2.
Qed.

Section port.
Variables (cfg : AddConfig) (tap : gostring) (conv : Result) (gws : list IPNet).
Hypothesis Hprod : production_add cfg.
Hypothesis Hgws : gatewaysFor conv = Some gws.

(** From the creation of the port [i] on: it stays when ADD succeeds, and is gone
    otherwise. *)
Lemma run_finish_add sock resp i l w :
  valid w → ifaces w ≡ₚ i :: l → if_ID i = IfaceID resp → IfaceID resp ∉ if_ID <$> l →
  addrs w (IfaceID resp) = [] →
  run (finish_add cfg tap sock conv resp) w (λ w' out,
    valid w' ∧
    match out with
    | Returns (Ok res) => same w w' ∧ gatewaysFor res = Some gws
    | _ => ifaces w' ≡ₚ l
    end).
Proof.
  intros Hv Ew Ei Hfresh Ha. destruct (gateways_point_ips 0 _ _ _ _ Hgws) as [ips Hips].
  assert (∀ vsn is_ rt dns, gatewaysFor (mkResult vsn is_ ips rt dns) = Some gws) as Hg.
  { intros. unfold gatewaysFor. simpl. by rewrite (point_ips_gateways _ _ _ _ _ Hips). }
  assert (is_u16 (IfaceID resp)) as Hu.
  { rewrite <-Ei. apply (law_u16 w i Hv). rewrite Ew. apply list_elem_of_here. }
  assert (∀ w1 e, valid w1 → same w w1 →
    run (_ ← cleanupAfterAddFailure cfg (IfaceID resp); mret (Returns (Err e))) w1 (λ w' out,
      valid w' ∧ match out with
        | Returns (Ok res) => same w w' ∧ gatewaysFor res = Some gws | _ => ifaces w' ≡ₚ l end)) as Hclean.
  { intros w1 e Hv1 [E1 A1]. apply run_bind. unfold cleanupAfterAddFailure.
    destruct Hprod as (_ & -> & _). apply run_bind, run_del; [done|done| |by rewrite A1|].
    { rewrite E1, Ew, <-Ei. apply list_elem_of_here. }
    intros w2 Hv2 E2 _. apply run_quiet; [apply quiet_ipamDel|done|]. intros w3 [] Hv3 [E3 _].
    apply run_ret. split; [done|]. rewrite E3, E2, E1, Ew, <-Ei, without_fresh; [done|by rewrite Ei]. }
  destruct Hprod as (_ & _ & Emove & Econf).
  unfold finish_add, vhostResult, podResult. rewrite Hips, Emove, Econf. cbn [default mbind option_bind].
  case_match; [by apply run_ret|]. case_decide; [by apply run_ret|].
  apply run_bind, run_quiet; [|done|].
  { unfold quiet. eapply uses_only_mono; [apply moveLink_footprint|]. by intros []. }
  intros w1 [[]|e] Hv1 Hs1; [|by apply Hclean].
  apply run_bind. eapply run_mono.
  { apply run_and; [|apply (run_value _ _ _ (configurePod_value _ _ _ _ _))].
    apply (run_quiet _ _ (λ w2 _, valid w2 ∧ same w w2)); [|done|].
    - unfold quiet. eapply uses_only_mono; [apply configurePod_footprint|]. by intros [].
    - intros w2 a Hv2 Hs2. split; [done|by eapply same_trans]. }
  intros w2 [res|e] [[Hv2 Hs2] Hres]; [|by apply Hclean].
  apply run_ret. split; [done|]. split; [done|].
  destruct (Hres res eq_refl) as [->|[mac ->]]; [apply Hg|]. rewrite gatewaysFor_set_mac. apply Hg.
Qed.
End port.

Definition add_name (cfg : AddConfig) : gostring :=
  groutPortName (ContainerID (add_Args cfg)) (IfName (add_Args cfg)).

(** What ADD makes of grout's state. *)
Definition add_state (cfg : AddConfig) (w w' : W) (out : outcome (result Result)) : Prop :=
  let bridge := Bridge (add_Config cfg) in
  match out with
  | Returns (Ok res) =>
      ∃ pid bid l gws,
        only_bridge bridge (ifaces w) l ∧ has_bridge bid bridge l ∧ add_name cfg ∉ if_Name <$> l ∧
        ifaces w' ≡ₚ mkInterfaceInfo pid Types.InterfaceTypeTAP (add_name cfg) bid :: l ∧
        addrs w' pid = [] ∧ gatewaysFor res = Some gws ∧ holds w' bid gws
  | _ => only_bridge bridge (ifaces w) (ifaces w')
  end.

Lemma add_state_same cfg w w1 w2 out : same w1 w2 → add_state cfg w w1 out → add_state cfg w w2 out.
Proof.
  intros [E A]. unfold add_state. destruct out as [[res|e]|]; rewrite ?E; [|done..].
  intros (pid & bid & l & gws & ? & ? & ? & ? & ? & ? & Hh). exists pid, bid, l, gws.
  split_and!; rewrite ?A; try done. intros gw Hgw. rewrite A. by apply Hh.
Qed.

Section attach.
Variables (cfg : AddConfig) (conv : Result).
Hypothesis Hprod : production_add cfg.
Hypothesis Hconf : clean_conf (add_Config cfg).

Lemma run_add_fail {A} w0 w1 e (Q : W → outcome (result A) → Prop) :
  valid w1 → ifaces w1 = ifaces w0 →
  (∀ w2, valid w2 → ifaces w2 = ifaces w0 → Q w2 (Returns (Err e))) →
  run (add_fail cfg e) w1 Q.
Proof.
  intros Hv1 E1 HQ. unfold add_fail. destruct Hprod as (_ & -> & _).
  apply run_bind, run_quiet; [apply quiet_ipamDel|done|]. intros w2 [] Hv2 [E2 _].
  apply run_ret, HQ; [done|]. by rewrite E2.
Qed.

Lemma run_add_port w w1 bid gws :
  valid w1 → only_bridge (Bridge (add_Config cfg)) (ifaces w) (ifaces w1) →
  has_bridge bid (Bridge (add_Config cfg)) (ifaces w1) →
  gatewaysFor conv = Some gws → holds w1 bid gws →
  run (add_port cfg (add_name cfg) conv bid) w1 (λ w' out, valid w' ∧ add_state cfg w w' out).
Proof.
  intros Hv1 Hob (br & Hbr & Ebid & Ebn) Hgws Hholds. unfold add_port.
  assert (∀ w2 e, valid w2 → ifaces w2 = ifaces w1 →
    run (add_fail cfg e) w2 (λ w' out, valid w' ∧ add_state cfg w w' out)) as Hfail.
  { intros w2 e Hv2 E2. apply (run_add_fail w1); [done|done|]. intros w3 Hv3 E3. split; [done|].
    simpl. by rewrite E3. }
  apply run_bind, run_quiet; [by unfold quiet; footprint|done|]. intros w2 [[]|e] Hv2 [E2 A2]; [|by apply Hfail].
  destruct (law_u16 w1 br Hv1 Hbr) as [Hu _]. rewrite Ebid in Hu.
  pose proof (port_request_wf cfg (ContainerID (add_Args cfg)) (IfName (add_Args cfg)) bid Hconf Hu) as Hwf.
  fold (add_name cfg) in Hwf. apply run_bind, run_add; [done|exact Hwf| |].
  2:{ intros w3 e Hv3 [E3 _]. apply Hfail; [done|]. by rewrite E3. }
  intros w3 resp Hv3 [Hid Hn Hfr _ (d & E3 & Hd & _) Ha3 F3]. cbn [ia_Name ia_Type ia_DomainID port_request] in *.
  rewrite E2 in *. rewrite Hd in E3 by (rewrite <-Ebid; by apply (law_nonzero w1)).
  eapply run_mono; [eapply (run_finish_add cfg (add_name cfg) conv gws Hprod Hgws); [done|exact E3|done..]|].
  intros w4 out [Hv4 Hout]. split; [done|]. destruct out as [[res|e]|];
    [|apply (only_bridge_proper _ _ (ifaces w1)); [by symmetry|exact Hob]..].
  destruct Hout as [[E4 A4] Hres]. exists (IfaceID resp), bid, (ifaces w1), gws.
  split_and!; [done|by exists br|done|by rewrite E4|by rewrite A4|done|].
  intros gw Hgw. destruct (Hholds gw Hgw) as (k & ? & Hk). exists k. split; [done|].
  rewrite A4, F3; [by rewrite A2|]. intros E. apply Hfr. rewrite <-E, <-Ebid. by apply list_elem_of_fmap_2.
Qed.

Lemma run_add_attach w w1 :
  valid w1 → ifaces w1 = ifaces w →
  run (add_attach cfg (add_name cfg) conv) w1 (λ w' out, valid w' ∧ add_state cfg w w' out).
Proof.
  intros Hv1 E1. unfold add_attach. apply run_bind.
  eapply run_mono; [by apply run_ensureBridge|]. intros w2 [bid|e] [Hv2 Hr].
  2:{ apply (run_add_fail w1); [done|done|]. intros w3 Hv3 E3. split; [done|]. left. by rewrite E3, E1. }
  destruct Hr as [Hob Hhb]. rewrite E1 in Hob.
  destruct (gatewaysFor conv) as [gws|] eqn:Hgws; [|by apply run_ret].
  assert (is_u16 bid) as Hu.
  { destruct Hhb as (b & Hb & <- & _). by apply (law_u16 w2). }
  apply run_bind. eapply run_mono; [by apply run_assign_gateways|].
  intros w3 [[]|e] (Hv3 & E3 & _ & Hh).
  - apply (run_add_port w w3 bid gws); by rewrite ?E3.
  - apply (run_add_fail w3); [done|done|]. intros w4 Hv4 E4. split; [done|]. simpl. by rewrite E4, E3.
Qed.
End attach.

Lemma run_HandleAdd cfg w :
  production_add cfg → clean_conf (add_Config cfg) → valid w →
  run (HandleAdd cfg) w (λ w' out, valid w' ∧ add_state cfg w w' out).
Proof.
  intros Hprod Hconf Hv. unfold HandleAdd. apply run_with_lock; [|done|by left|].
  { intros w1 w2 out. apply add_state_same. }
  intros w1 Hv1 [E1 _]. fold (add_name cfg). destruct (Hprod) as (E & _). rewrite E.
  apply run_bind, run_quiet; [unfold quiet, delegateIPAMAdd; simpl; footprint; done|done|].
  intros w2 [raw|e] Hv2 [E2 _].
  - destruct (convertResult raw) as [conv|e].
    + apply run_add_attach; [done..|]. by rewrite E2.
    + apply run_ret. split; [done|]. left. by rewrite E2, E1.
  - apply run_ret. split; [done|]. left. by rewrite E2, E1.
Qed.

(** C5: What ADD makes of grout's state, in any world that satisfies the laws.
    When it returns a result, grout has exactly one interface more, or two when
    the network's bridge had to be created: the attachment's port, under its
    deterministic name, a member of the bridge named in the configuration, and
    that bridge holds the gateway address of every address family of the
    result.  When it returns an error or panics, the port does not exist: the
    interfaces are as before, except for the bridge, which stays for the next
    attachment. *)
Theorem HandleAdd_state cfg w :
  production_add cfg → clean_conf (add_Config cfg) → valid w →
  run (HandleAdd cfg) w (λ w' out, valid w' ∧ add_state cfg w w' out).
Proof. apply run_HandleAdd. Qed.
End addition.

(** ** ADD followed by DEL *)

Section round_trip.
Context `{CniLib} {W} `{!Grout W} `{!GroutLaws W} `{!GroutReliable W}.
Implicit Types w : W.

Lemma findPortByName_unique l p :
  NoDup (if_Name <$> l) → p ∈ l → findPortByName l (if_Name p) = Some p.
Proof.
  intros Hnd Hp. destruct (findPortByName l (if_Name p)) as [p'|] eqn:Ef.
  - apply findPortByName_some in Ef as [? ?]. f_equal. by eapply (NoDup_fmap_inj if_Name).
  - apply findPortByName_none in Ef. exfalso. by apply Ef, list_elem_of_fmap_2.
Qed.

(** A bridge that was created for an attachment is collected with it. *)
Lemma collect_new_bridge b l l0 :
  NoDup (if_ID <$> l) → l ≡ₚ b :: l0 → if_Type b = Types.InterfaceTypeBridge →
  if_ID b ∉ if_Domain <$> b :: l0 → collect (if_ID b) l ≡ₚ l0.
Proof.
  intros Hnd E Ht Hd. rewrite E in Hnd |- *. unfold collect. rewrite decide_True.
  - rewrite without_fresh; [done|]. by apply NoDup_cons in Hnd as [? _].
  - split_and!.
    + exists b. split; [apply list_elem_of_here|done].
    + intros b' Hb' Eid. by rewrite (NoDup_fmap_inj if_ID (b :: l0) b' b Hnd Hb' (list_elem_of_here _ _) Eid).
    + intros p Hp Edom. apply Hd. rewrite <-Edom. by apply list_elem_of_fmap_2.
Qed.

(** C8: DEL undoes ADD.  For an attachment on a network that has no bridge yet:
    when ADD succeeds and then DEL of the same container and interface
    succeeds, grout holds exactly the interfaces it held before, the bridge
    included; on a network that has a bridge already, the same holds, except
    that the bridge is collected when it has no other member. *)
Theorem add_then_del cfg dcfg w :
  production_add cfg → production_del dcfg → clean_conf (add_Config cfg) → valid w →
  ContainerID (del_Args dcfg) = ContainerID (add_Args cfg) → IfName (del_Args dcfg) = IfName (add_Args cfg) →
  run (HandleAdd cfg) w (λ w1 out1, ∀ res, out1 = Returns (Ok res) →
    run (HandleDel dcfg) w1 (λ w2 out2, out2 = Returns (Ok tt) →
      (Bridge (add_Config cfg) ∉ if_Name <$> ifaces w → ifaces w2 ≡ₚ ifaces w) ∧
      (∀ b, b ∈ ifaces w → if_Name b = Bridge (add_Config cfg) → ifaces w2 ≡ₚ collect (if_ID b) (ifaces w)))).
Proof.
  intros Hpa Hpd Hc Hv Ec Ei. assert (del_name dcfg = add_name cfg) as En.
  { unfold del_name, add_name. by rewrite Ec, Ei. }
  eapply run_mono; [by apply run_HandleAdd|]. intros w1 out1 [Hv1 Hst] res ->.
  destruct Hst as (pid & bid & l & gws & Hob & (br & Hbr & Ebid & Ebn) & Hn & E1 & Ha & _ & _).
  set (p := mkInterfaceInfo pid Types.InterfaceTypeTAP (add_name cfg) bid) in *.
  assert (p ∈ ifaces w1) as Hp by (rewrite E1; apply list_elem_of_here).
  pose proof (law_names w1 Hv1) as Hnames. pose proof (law_ids w1 Hv1) as Hids.
  assert (findPortByName (ifaces w1) (add_name cfg) = Some p) as Ef.
  { by apply (findPortByName_unique (ifaces w1) p). }
  assert (bid ≠ 0) as Hnz.
  { rewrite <-Ebid. apply (law_nonzero w1); [done|]. rewrite E1. by apply list_elem_of_further. }
  assert (NoDup (if_ID <$> p :: l)) as Hidl by (by rewrite <-E1).
  assert (NoDup (if_Name <$> p :: l)) as Hnamel by (by rewrite <-E1).
  apply NoDup_cons in Hidl as [Hpl Hidl]. apply NoDup_cons in Hnamel as [_ Hnamel].
  eapply run_mono; [apply run_HandleDel; [done|done|]|].
  { rewrite En, Ef. by intros ? [= <-]. }
  intros w2 out2 [_ Hdel] ->. destruct Hdel as [E2 _]. rewrite En in E2.
  unfold after_del in E2. rewrite Ef in E2. cbn [if_Domain if_ID p] in E2. rewrite decide_False in E2 by done.
  assert (ifaces w2 ≡ₚ collect bid l) as E3.
  { rewrite E2. apply collect_proper. rewrite E1. by rewrite (without_fresh p). }
  split.
  - intros Hnew. destruct Hob as [Eo|(b & Ht & Eb & _ & Hd & Eo)].
    { exfalso. apply Hnew. rewrite <-Ebn. apply list_elem_of_fmap_2. by rewrite <-Eo. }
    assert (br = b) as ->.
    { eapply (NoDup_fmap_inj if_Name l); [done|done|rewrite Eo; apply list_elem_of_here|by rewrite Eb]. }
    rewrite E3, <-Ebid. by apply collect_new_bridge.
  - intros b Hb Eb. destruct Hob as [Eo|(b' & _ & _ & Hno & _)].
    2:{ exfalso. apply Hno. rewrite <-Eb. by apply list_elem_of_fmap_2. }
    assert (br = b) as -> by (eapply (NoDup_fmap_inj if_Name l); [done|done|by rewrite Eo|by rewrite Eb]).
    rewrite E3, <-Ebid. by apply collect_proper.
Qed.
End round_trip.
