(* ===== verification/Pod.v ===== *)
(** * Pod: what CHECK finds after ADD and after DEL

    The pod's side of an attachment (its interface in the pod's namespace, or the
    vhost-user socket of a virtio port) is kept by the kernel and by grout.
    [PodView] is what the plugin can see of it and [PodLaws] what it relies on:
    a namespace handle enters the namespace it was opened for, an interface that
    the CNI library has configured is up and has the addresses of the result, a
    port created with a vhost-user path has its socket, and looking does not
    change any of it.  Every operation may fail. *)

From S2P Require Import Prelude Bytes NetIP Types GoLib Client Wire Cni PortName Config Lock Netns.
From S2P Require Import Handler HandlerFacts Serial Ledger Runs World.
From Stdlib Require Import Lia ZArith.
Open Scope Z_scope.
#[local] Opaque groutPortName.

(** ** The pod's side *)

Class PodView `{CniTypes} (W : Type) := {
  inside : W → option gostring;                           (* the namespace the thread has entered *)
  refers : W → NetNS → gostring → Prop;                   (* an open handle of the namespace at a path *)
  pod_iface : W → gostring → gostring → list IP → Prop;   (* up in the namespace, with these addresses *)
  socket_at : W → gostring → Prop                         (* a socket file *)
}.

Section laws.
Context `{CniTypes} {W} `{!Grout W} `{!PodView W}.

(** Operations that leave the interfaces of pods and the socket files alone. *)
Definition looks (o : cni_op) : bool :=
  match o with
  | GInterfaceList _ | MkdirAll _ | Stat _ | OpenLock _ | FlockEx _ | FlockUn _ | CloseFd _
  | LinkByName _ | AddrList _ | GetNS _ | NsClose _ | NsEnter _ | NsLeave _ => true
  | _ => false
  end.

Definition switches (o : cni_op) : bool := match o with NsEnter _ | NsLeave _ => true | _ => false end.

(** The addresses of a result that belong to one of its interfaces. *)
Definition assigned (r : Result) : list IP :=
  omap (λ x, x ≫= λ ip, match ipc_Interface ip with
                        | Some _ => Some (IPNet_IP (ipc_Address ip)) | None => None end) (r_IPs r).

Class PodLaws := {
  pod_frame o (w : W) ns name ips : looks o = true → pod_iface w ns name ips → pod_iface (env o w).1 ns name ips;
  pod_socket_frame o (w : W) p : looks o = true → socket_at w p → socket_at (env o w).1 p;
  pod_inside o (w : W) : switches o = false → inside (env o w).1 = inside w;
  pod_open p (w : W) n : (env (GetNS p) w).2 = Ok n → refers (env (GetNS p) w).1 n p;
  pod_enter n p (w : W) : refers w n p → (env (NsEnter n) w).2 = Ok tt → inside (env (NsEnter n) w).1 = Some p;
  pod_configure name r ns (w : W) : inside w = Some ns → (env (ConfigureIface name r) w).2 = Ok tt →
    pod_iface (env (ConfigureIface name r) w).1 ns name (assigned r);
  pod_link name ns ips l (w : W) : inside w = Some ns → pod_iface w ns name ips →
    (env (LinkByName name) w).2 = Ok l →
    let w' := (env (LinkByName name) w).1 in
    Z.land (link_flags l) FlagUp ≠ 0 ∧
    ∀ found, (env (AddrList l) w').2 = Ok found →
      ∀ ip, ip ∈ ips → ∃ n, Some n ∈ found ∧ IP_Equal (IPNet_IP n) ip = true;
  pod_vhost req resp (w : W) : (env (GInterfaceAdd req) w).2 = Ok resp → ia_VhostUserPath req ≠ [] →
    socket_at (env (GInterfaceAdd req) w).1 (ia_VhostUserPath req);
  pod_stat p (w : W) : socket_at w p → (env (Stat p) w).2 = true
}.
End laws.
Arguments PodLaws {_} W {_ _}.

(** ** Runs in which an operation may fail *)

Section smooth.
Context `{CniTypes} {W} `{!Grout W}.
Implicit Types w : W.

Definition failed (o : cni_op) : cni_res o → bool :=
  match o return cni_res o → bool with
  | GInterfaceList _ => λ r, is_err r
  | GInterfaceAdd _ => λ r, is_err r
  | GInterfaceDel _ | GAddressAdd _ | GAddressFlush _ => λ r, is_err r
  | DelegateAdd _ _ => λ r, is_err r
  | DelegateDel _ _ | DelegateGC _ _ | MkdirAll _ => λ r, is_err r
  | Remove _ => λ r, match r with RemoveErr _ => true | _ => false end
  | OpenLock _ => λ r, is_err r
  | FlockEx _ => λ r, match r with Locked => false | _ => true end
  | FlockUn _ | CloseFd _ => λ r, is_err r
  | LinkByName _ => λ r, is_err r
  | LinkSetNsFd _ _ | LinkSetDown _ | LinkSetName _ _ | LinkSetMTU _ _ | LinkSetHardwareAddr _ _ => λ r, is_err r
  | AddrList _ => λ r, is_err r
  | ConfigureIface _ _ => λ r, is_err r
  | GetNS _ => λ r, is_err r
  | NsClose _ | NsEnter _ => λ r, is_err r
  | Stat _ | NsLeave _ => λ _, false
  end.

(** Unless one of its operations fails, the program ends with [Q]. *)
Fixpoint smooth {A} (p : cni A) (w : W) (Q : W → A → Prop) : Prop :=
  match p with
  | Ret a => Q w a
  | Vis o k => failed o (env o w).2 = false → smooth (k (env o w).2) (env o w).1 Q
  end.

Lemma smooth_ret {A} (a : A) w (Q : W → A → Prop) : Q w a → smooth (mret a) w Q.
Proof. done. Qed.

Lemma smooth_bind {A B} (p : cni A) (f : A → cni B) w Q :
  smooth p w (λ w a, smooth (f a) w Q) → smooth (p ≫= f) w Q.
Proof. revert w. induction p as [a|o k IH]; intros w Hp; [done|]. intros Hf. by apply IH, Hp. Qed.

Lemma smooth_mono {A} (p : cni A) w (Q Q' : W → A → Prop) :
  smooth p w Q → (∀ w a, Q w a → Q' w a) → smooth p w Q'.
Proof. intros Hp HQ. revert w Hp. induction p as [a|o k IH]; intros w Hp; simpl in *; [by apply HQ|auto]. Qed.

Lemma smooth_op o w (Q : W → cni_res o → Prop) :
  (failed o (env o w).2 = false → Q (env o w).1 (env o w).2) → smooth (op_call o) w Q.
Proof. done. Qed.

(** A step whose failure ends the function. *)
Lemma smooth_try {A B} (m : cni (result A)) f (k : A → cni (result B)) w Q :
  smooth m w (λ w r, match r with Ok a => smooth (k a) w Q | Err _ => False end) → smooth (try_ m f k) w Q.
Proof.
  intros Hm. apply smooth_bind. revert w Hm. induction m as [a|o k' IH]; intros w Hm; simpl in *.
  - by destruct a.
  - intros Hf. by apply IH, Hm.
Qed.

Lemma smooth_trace {A} (p : cni A) w (Q : W → A → Prop) :
  smooth p w Q →
  let '(w', t, a) := interp_trace env p w in
  Q w' a ∨ ∃ o r, existT (P := res CniSig) o r ∈ t ∧ failed o r = true.
Proof.
  revert w. induction p as [a|o k IH]; intros w Hp; simpl in *; [by left|].
  destruct (failed o (env o w).2) eqn:Hf.
  - destruct (env o w) as [w' r]. simpl in *. destruct (interp_trace env (k r) w') as [[w2 t] a].
    right. exists o, r. split; [apply list_elem_of_here|done].
  - specialize (IH _ _ (Hp Hf)). destruct (env o w) as [w' r]. simpl in *.
    destruct (interp_trace env (k r) w') as [[w2 t] a]. destruct IH as [IH|(o' & r' & Ht & Hr)]; [by left|right].
    exists o', r'. split; [by apply list_elem_of_further|done].
Qed.
End smooth.

(** ** What ADD makes of the pod's side *)

Section pod.
Context `{CniLib} {W} `{!Grout W} `{!PodView W} `{!PodLaws W}.
Implicit Types w : W.

Lemma run_any {A} (p : cni A) w (Q : W → A → Prop) : (∀ w a, Q w a) → run p w Q.
Proof. intros HQ. unfold run. by destruct (interp env p w). Qed.

(** A program that does not enter or leave a namespace. *)
Lemma run_inside {A} (p : cni A) w (Q : W → A → Prop) :
  uses_only (S := CniSig) (λ o, switches o = false) p →
  (∀ w' a, inside w' = inside w → Q w' a) → run p w Q.
Proof.
  intros Hp HQ. assert (inside (interp env p w).1 = inside w) as Hi.
  { apply (uses_only_interp (S := CniSig) (λ o, switches o = false) env (λ w', inside w' = inside w)); [done| |done].
    intros o w1 Ho E. by rewrite pod_inside. }
  unfold run. destruct (interp env p w) as [w' a]. by apply HQ.
Qed.

(** A property of the world that no operation that only looks changes. *)
Definition steady (P : W → Prop) : Prop := ∀ o w, looks o = true → P w → P (env o w).1.

Lemma steady_pod ns name ips : steady (λ w, pod_iface w ns name ips).
Proof. intros o w Ho. by apply pod_frame. Qed.
Lemma steady_socket p : steady (λ w, socket_at w p).
Proof. intros o w Ho. by apply pod_socket_frame. Qed.

Lemma run_steady {A} (P : W → Prop) (p : cni A) w (Q : W → A → Prop) :
  steady P → uses_only (S := CniSig) (λ o, looks o = true) p → P w → (∀ w' a, P w' → Q w' a) → run p w Q.
Proof.
  intros Hst Hp Hw HQ. assert (P (interp env p w).1) as Hi.
  { by apply (uses_only_interp (S := CniSig) (λ o, looks o = true) env P). }
  unfold run. destruct (interp env p w) as [w' a]. by apply HQ.
Qed.

Lemma run_try {A B} (m : cni (result A)) f (k : A → cni (result B)) w Q :
  (∀ w e, Q w (Err e)) →
  run m w (λ w r, match r with Ok a => run (k a) w Q | Err _ => True end) → run (try_ m f k) w Q.
Proof.
  intros He Hm. unfold try_. apply run_bind. eapply run_mono; [exact Hm|].
  intros w' [a|e] Ha; [exact Ha|by apply run_ret].
Qed.

(** What is left of the pod's interface when its configuration succeeded. *)
Definition pod_done (ns name : gostring) (r : Result) w (x : result Result) : Prop :=
  match x with Ok _ => pod_iface w ns name (assigned r) | Err _ => True end.

Lemma run_configure_in_ns ns host name mtu r w :
  inside w = Some ns → run (configure_in_ns host name mtu r) w (pod_done ns name r).
Proof.
  intros Hin. unfold configure_in_ns.
  apply run_try; [done|]. apply run_inside; [by split|]. intros w1 [l|e] E1; [|done]. rewrite Hin in E1.
  apply run_try; [done|]. apply run_inside; [unfold rename_link; footprint; done|]. intros w2 [l'|e] E2; [|done].
  apply run_try; [done|]. apply run_inside; [unfold set_link_mtu; footprint; done|]. intros w3 [[]|e] E3; [|done].
  apply run_try; [done|]. apply run_inside; [unfold set_link_mac; footprint; done|]. intros w4 [[]|e] E4; [|done].
  apply run_try; [done|]. apply (run_op (ConfigureIface name r)).
  destruct (env (ConfigureIface name r) w4).2 as [[]|e] eqn:Ec; [|done].
  apply run_bind, (run_steady _ _ _ _ (steady_pod ns name (assigned r))); [by split|apply pod_configure; congruence|].
  intros w5 x Hpod. by apply run_ret.
Qed.

Lemma run_configurePod ns host name mtu r w :
  run (configurePodInterface ns host name mtu r) w (pod_done ns name r).
Proof.
  unfold configurePodInterface. apply run_try; [done|]. apply (run_op (GetNS ns)).
  destruct (env (GetNS ns) w).2 as [n|e] eqn:En; [|done]. apply pod_open in En.
  assert (∀ w x, pod_done ns name r w x → run (_ ← op_call (NsClose n); mret x) w (pod_done ns name r)) as Hclose.
  { intros w1 [r'|e] Hx; [|apply run_bind, run_any; intros; by apply run_ret].
    apply run_bind, (run_steady _ _ _ _ (steady_pod ns name (assigned r))); [by split|done|]. done. }
  apply run_bind. unfold ns_Do. apply run_bind, (run_op (NsEnter n)).
  destruct (env (NsEnter n) (env (GetNS ns) w).1).2 as [[]|e] eqn:Ee; [|by apply run_ret, Hclose].
  apply run_bind. eapply run_mono; [apply run_configure_in_ns; by apply pod_enter|].
  intros w2 [r'|e] Hx; [|apply run_bind, run_any; intros w3 []; by apply run_ret, Hclose].
  apply run_bind, (run_steady _ _ _ _ (steady_pod ns name (assigned r))); [by split|done|].
  intros w3 [] Hw3. by apply run_ret, Hclose.
Qed.

(** The addresses of a result, as CHECK expects them. *)
Definition result_ips (r : Result) : list IP := IPNet_IP <$> omap (fmap ipc_Address) (r_IPs r).

Lemma point_ips_assigned idx ips ips' vsn is_ rt dns :
  point_ips idx ips = Some ips' →
  assigned (mkResult vsn is_ ips' rt dns) = result_ips (mkResult vsn is_ ips' rt dns).
Proof.
  unfold assigned, result_ips. simpl. revert ips'.
  induction ips as [|[ip|] ips IH]; intros ips' Hp; simpl in Hp; simplify_eq; [done|].
  destruct (point_ips idx ips) as [ips1|]; simplify_eq/=. by rewrite (IH ips1).
Qed.

Lemma result_ips_mac r mac : result_ips (set_mac r mac) = result_ips r.
Proof. unfold set_mac, result_ips. by destruct (r_Interfaces r). Qed.

(** The pod's side after ADD: the socket of a virtio port, or the interface in
    the pod's namespace with the addresses of the result. *)
Definition pod_state (cfg : AddConfig) w (out : outcome (result Result)) : Prop :=
  match out with
  | Returns (Ok res) =>
      if is_virtio (add_Config cfg)
      then socket_at w (vhostSocketPath (GroutSocketPath (add_Config cfg)) (add_name cfg))
      else Netns (add_Args cfg) ≠ [] → pod_iface w (Netns (add_Args cfg)) (IfName (add_Args cfg)) (result_ips res)
  | _ => True
  end.

Lemma steady_pod_state cfg out : steady (λ w, pod_state cfg w out).
Proof.
  intros o w Ho. unfold pod_state. destruct out as [[res|e]|]; [|done..].
  case_match; [by apply pod_socket_frame|]. intros Hw Hn. by apply pod_frame, Hw.
Qed.

Section add.
Variable cfg : AddConfig.
Hypothesis Hprod : production_add cfg.

(** A program that ends in an error or a panic says nothing of the pod. *)
Lemma run_no_result {A} (p : cni A) w e :
  run (_ ← p; mret (Returns (Err e))) w (pod_state cfg).
Proof. apply run_bind, run_any. intros w' a. by apply run_ret. Qed.

Lemma run_finish_pod conv sock resp w :
  (is_virtio (add_Config cfg) = true →
     socket_at w (vhostSocketPath (GroutSocketPath (add_Config cfg)) (add_name cfg))) →
  run (finish_add cfg (add_name cfg) sock conv resp) w (pod_state cfg).
Proof.
  intros Hsock. destruct Hprod as (_ & _ & Emove & Econf). unfold finish_add, vhostResult, podResult.
  destruct (is_virtio (add_Config cfg)) eqn:Ev.
  { destruct (point_ips 0 (r_IPs conv)); apply run_ret; [|done]. unfold pod_state. rewrite Ev. by apply Hsock. }
  destruct (point_ips 0 (r_IPs conv)) as [ips|] eqn:Hips; [|by apply run_ret].
  cbn [mbind option_bind]. case_decide as Hns; [apply run_ret; unfold pod_state; by rewrite Ev|].
  rewrite Emove, Econf. cbn [default].
  apply run_bind, run_any. intros w1 [[]|e]; [|apply run_no_result].
  set (r := mkResult _ _ ips _ _). apply run_bind.
  eapply run_mono; [apply run_and; [apply run_configurePod|apply (run_value _ _ _ (configurePod_value _ _ _ _ r))]|].
  intros w2 [res|e] [Hpod Hres]; [|apply run_no_result]. apply run_ret. unfold pod_state. rewrite Ev. intros _.
  unfold pod_done, r in Hpod. rewrite (point_ips_assigned 0 _ _ _ _ _ _ Hips) in Hpod. fold r in Hpod.
  destruct (Hres res eq_refl) as [->|[mac ->]]; [done|by rewrite result_ips_mac].
Qed.

Lemma vhostSocketPath_nonempty p name : vhostSocketPath p name ≠ [].
Proof.
  unfold vhostSocketPath, Join. destruct (filter _ _) as [|e es] eqn:Ef.
  - assert (str "vhost" ∈ filter (λ e : gostring, e ≠ []) [Dir p; str "vhost"; name ++ str ".sock"]) as Hin.
    { apply list_elem_of_filter. split; [done|]. apply list_elem_of_further, list_elem_of_here. }
    rewrite Ef in Hin. by apply not_elem_of_nil in Hin.
  - unfold Clean. case_match; [done|]. by destruct (join_slash (reverse _)).
Qed.

Lemma run_port_pod conv bid w : run (add_port cfg (add_name cfg) conv bid) w (pod_state cfg).
Proof.
  unfold add_port. apply run_bind, run_any. intros w1 [[]|e]; [|apply run_no_result].
  set (req := port_request _ _ _ _). apply run_bind, (run_op (GInterfaceAdd req)).
  destruct (env (GInterfaceAdd req) w1).2 as [resp|e] eqn:Ea; [|apply run_no_result].
  apply run_finish_pod. intros Ev. unfold req in *. rewrite Ev in *.
  by apply (pod_vhost _ _ _ Ea), vhostSocketPath_nonempty.
Qed.

Lemma run_HandleAdd_pod w : run (HandleAdd cfg) w (pod_state cfg).
Proof.
  unfold HandleAdd, with_lock. apply run_bind, run_any. intros w1 [fd|e]; [|by apply run_ret].
  apply run_bind, run_any. intros w2 [[]|e]; [|apply run_no_result].
  apply run_bind. apply (run_mono _ _ (pod_state cfg)).
  - fold (add_name cfg). apply run_bind, run_any. intros w3 [raw|e]; [|by apply run_ret].
    destruct (convertResult raw) as [conv|e]; [|by apply run_ret].
    unfold add_attach. apply run_bind, run_any. intros w4 [bid|e]; [|apply run_no_result].
    destruct (gatewaysFor conv) as [gws|]; [|by apply run_ret].
    apply run_bind, run_any. intros w5 [[]|e]; [|apply run_no_result]. apply run_port_pod.
  - intros w3 out Hout. apply run_bind, (run_steady _ _ _ _ (steady_pod_state cfg out)); [by split|done|].
    intros w4 r Hw4. apply run_bind, (run_steady _ _ _ _ (steady_pod_state cfg out)); [by split|done|].
    intros w5 r' Hw5. by apply run_ret.
Qed.
End add.

(** ** What CHECK finds *)

Section check.
Context `{!GroutLaws W}.

(** A world that is as before for who only looks. *)
Record kept (w w' : W) : Prop := {
  kept_valid : valid w';
  kept_same : same w w';
  kept_pod ns name ips : pod_iface w ns name ips → pod_iface w' ns name ips;
  kept_socket p : socket_at w p → socket_at w' p }.

Lemma kept_op o w w0 : looks o = true → wf_op o → kept w0 w → kept w0 (env o w).1.
Proof.
  intros Hl Ho [Hv Hs Hp Hk]. destruct (run_quiet_op o w) as [Hv' Hs']; [by split; [destruct o|]|done|].
  split; [done|by eapply same_trans|intros; by apply pod_frame, Hp|intros; by apply pod_socket_frame, Hk].
Qed.

Lemma smooth_look o w w0 (Q : W → cni_res o → Prop) :
  looks o = true → wf_op o → kept w0 w →
  (kept w0 (env o w).1 → failed o (env o w).2 = false → Q (env o w).1 (env o w).2) → smooth (op_call o) w Q.
Proof. intros Hl Ho Hk HQ. apply smooth_op. intros Hf. by apply HQ; [apply kept_op|]. Qed.

Lemma smooth_NewFileLock path w w0 Q :
  kept w0 w → (∀ w' fd, kept w0 w' → Q w' (Ok fd)) → smooth (NewFileLock path) w Q.
Proof.
  intros Hk HQ. unfold NewFileLock. cbv zeta. set (path' := if decide (path = []) then _ else _).
  apply smooth_bind. assert (∀ w1 (r : result unit), kept w0 w1 → is_err r = false →
    smooth match r with
      | Err e => mret (Err (Errorf "creating lock directory %s: %w" [AStr (Dir path'); AErr e]))
      | Ok _ => fd ← op_call (OpenLock path');
          mret (map_err (λ e, Errorf "opening lock file %s: %w" [AStr path'; AErr e]) fd)
      end w1 Q) as Hopen.
  { intros w1 [[]|e] Hk1 Hr; [|done]. apply smooth_bind, (smooth_look (OpenLock path') _ w0); [done..|].
    intros Hk2 Hf. destruct (env (OpenLock path') w1).2 as [fd|e]; [|done]. by apply smooth_ret, HQ. }
  case_decide; [|exact (Hopen w (Ok tt) Hk eq_refl)].
  apply (smooth_look (MkdirAll (Dir path')) _ w0); [done..|]. intros Hk1 Hf. exact (Hopen _ _ Hk1 Hf).
Qed.

Lemma smooth_with_lock {A} path (body : cni (outcome (result A))) w (P : outcome (result A) → Prop) :
  valid w → (∀ w1, kept w w1 → smooth body w1 (λ _ a, P a)) → smooth (with_lock path body) w (λ _ a, P a).
Proof.
  intros Hv Hb. unfold with_lock. apply smooth_bind, (smooth_NewFileLock _ _ w); [by split|].
  intros w1 fd Hk1. apply smooth_bind. unfold FileLock_Lock. apply smooth_bind, (smooth_look (FlockEx fd) _ w); [done..|].
  intros Hk2 Hf. destruct (env (FlockEx fd) w1).2; [|done..]. apply smooth_ret, smooth_bind.
  specialize (Hb _ Hk2). revert Hb. generalize (env (FlockEx fd) w1).1. clear -A.
  induction body as [a|o k IH]; intros w2 Hb; simpl in *; [done|]. intros Hf. by apply IH, Hb.
Qed.

Lemma nothing_missing found expected :
  (∀ ip, ip ∈ IPNet_IP <$> expected → ∃ n, Some n ∈ found ∧ IP_Equal (IPNet_IP n) ip = true) →
  missing_addr found expected = None.
Proof.
  intros Hex. apply missing_addr_none. intros want Hw. apply addrPresent_spec, Hex. by apply list_elem_of_fmap_2.
Qed.

Lemma smooth_verifyPod ns name ips expected w :
  valid w → pod_iface w ns name ips → IPNet_IP <$> expected ⊆ ips →
  smooth (verifyPodInterface ns name expected) w (λ _ r, r = Ok tt).
Proof.
  intros Hv Hpod Hsub. unfold verifyPodInterface. assert (kept w w) as Hk by (by split).
  apply smooth_try, (smooth_look (GetNS ns) _ w); [done..|]. intros Hk1 Hf1.
  destruct (env (GetNS ns) w).2 as [n|e] eqn:En; [|done]. apply pod_open in En.
  apply smooth_bind. unfold ns_Do. apply smooth_bind, (smooth_look (NsEnter n) _ w); [done..|]. intros Hk2 Hf2.
  set (w1 := (env (GetNS ns) w).1) in *. destruct (env (NsEnter n) w1).2 as [[]|e] eqn:Ee; [|done].
  pose proof (pod_enter n ns w1 En Ee) as Hin. set (w2 := (env (NsEnter n) w1).1) in *.
  apply smooth_bind. unfold verify_in_ns.
  assert (∀ w, smooth (_ ← op_call (NsLeave n); mret (Ok tt)) w
    (λ w a, smooth (_ ← op_call (NsClose n); mret a) w (λ _ r, r = Ok tt))) as Hend by done.
  apply smooth_try, (smooth_look (LinkByName name) _ w); [done..|]. intros Hk3 Hf3.
  destruct (env (LinkByName name) w2).2 as [l|e] eqn:El; [|done].
  destruct (pod_link name ns ips l w2 Hin (kept_pod _ _ Hk2 _ _ _ Hpod) El) as [Hup Hfound].
  rewrite decide_False by done. case_decide; [apply smooth_ret, Hend|].
  apply smooth_try, (smooth_look (AddrList l) _ w); [done..|]. intros Hk4 Hf4.
  destruct (env (AddrList l) _).2 as [found|e] eqn:Ea; [|done].
  rewrite nothing_missing; [apply smooth_ret, Hend|]. intros ip Hip. by apply (Hfound found eq_refl), Hsub.
Qed.

(** The call CHECK of the attachment that ADD made: the same container, interface,
    namespace, interface type and grout socket, and the result of the ADD as the
    previous result, if there is one. *)
Record checks (cfg : AddConfig) (res : Result) (chk : DelConfig) : Prop := {
  checks_id : ContainerID (del_Args chk) = ContainerID (add_Args cfg);
  checks_name : IfName (del_Args chk) = IfName (add_Args cfg);
  checks_netns : Netns (del_Args chk) = Netns (add_Args cfg);
  checks_type : InterfaceType (del_Config chk) = InterfaceType (add_Config cfg);
  checks_socket : GroutSocketPath (del_Config chk) = GroutSocketPath (add_Config cfg);
  checks_prev raw : RawPrevResult (del_Config chk) = Some raw →
    ∃ prev r, ParsePrevResult (CNIVersion (del_Config chk)) raw = Ok (Some prev) ∧
      NewResultFromResult prev = Ok r ∧ result_ips r = result_ips res }.

Lemma checks_expected cfg res chk :
  checks cfg res chk → ∃ ips, expectedPodIPs (del_Config chk) = Ok ips ∧ IPNet_IP <$> ips ⊆ result_ips res.
Proof.
  intros Hc. unfold expectedPodIPs. destruct (RawPrevResult (del_Config chk)) as [raw|] eqn:Er.
  - destruct (checks_prev _ _ _ Hc raw Er) as (prev & r & -> & Hr & Hips). simpl. rewrite Hr. simpl.
    eexists. split; [done|]. by rewrite <-Hips.
  - exists []. split; [done|]. simpl. set_solver.
Qed.

Lemma smooth_HandleCheck cfg res chk p w :
  del_VerifyPodIface chk = None → checks cfg res chk → valid w →
  p ∈ ifaces w → if_Name p = add_name cfg → pod_state cfg w (Returns (Ok res)) →
  smooth (HandleCheck chk) w (λ _ out, out = Returns (Ok tt)).
Proof.
  intros Ev Hc Hv Hp En Hst. unfold HandleCheck. apply smooth_with_lock; [done|]. intros w1 Hk1.
  destruct Hc as [Eid Ename Ens Ety Esock Hprev] eqn:Ec. clear Ec. rewrite Eid, Ename, Ens, Esock. fold (add_name cfg).
  apply smooth_bind, (smooth_look list_all _ w); [done..|]. intros Hk2 Hf.
  destruct (env list_all w1).2 as [l|e] eqn:El; [|done].
  apply law_list in El as ->; [|by apply Hk1]. rewrite (proj1 (kept_same _ _ Hk1)).
  rewrite <-En, (findPortByName_unique _ p); [|by apply law_names|done]. rewrite En.
  unfold pod_state in Hst. assert (is_virtio (del_Config chk) = is_virtio (add_Config cfg)) as ->.
  { unfold is_virtio. by rewrite Ety. }
  destruct (is_virtio (add_Config cfg)).
  { apply smooth_bind. unfold fileExists. apply (smooth_look (Stat _) _ w); [done..|]. intros _ _.
    rewrite pod_stat; [by apply smooth_ret|by apply Hk2]. }
  case_decide as Hns; [by apply smooth_ret|].
  destruct (checks_expected cfg res chk Hc) as (ips & -> & Hsub). rewrite Ev. cbn [default].
  apply smooth_bind. eapply smooth_mono; [eapply smooth_verifyPod; [apply Hk2|by apply Hk2, Hst|done]|].
  intros w2 r ->. by apply smooth_ret.
Qed.
End check.
End pod.

(** ** ADD, then CHECK *)

Section round_trip.
Context `{CniLib} {W} `{!Grout W} `{!GroutLaws W} `{!GroutReliable W} `{!PodView W} `{!PodLaws W}.
Implicit Types w : W.

(** C9: CHECK confirms what ADD has made.  In any world that satisfies the laws:
    after an ADD that returned a result, a CHECK of the same attachment that is
    given the addresses of that result succeeds, for a TAP interface in a pod
    and for a virtio one, unless one of CHECK's own operations fails (the lock is
    not taken, grout or the kernel refuses to answer). *)
Theorem add_then_check cfg chk w :
  production_add cfg → del_VerifyPodIface chk = None → clean_conf (add_Config cfg) → valid w →
  run (HandleAdd cfg) w (λ w1 out1, ∀ got, out1 = Returns (Ok got) → checks cfg got chk →
    let '(_, t, out2) := interp_trace env (HandleCheck chk) w1 in
    out2 = Returns (Ok tt) ∨ ∃ o r, existT (P := res CniSig) o r ∈ t ∧ failed o r = true).
Proof.
  intros Hpa Hpc Hc Hv. eapply run_mono; [apply run_and; [by apply run_HandleAdd|by apply run_HandleAdd_pod]|].
  intros w1 out1 [[Hv1 Hst] Hpod] got -> Hch.
  destruct Hst as (pid & bid & l & gws & _ & _ & _ & E1 & _).
  pose proof (smooth_trace (HandleCheck chk) w1 (λ _ out, out = Returns (Ok tt))) as Ht.
  destruct (interp_trace env (HandleCheck chk) w1) as [[w2 t] out2]. apply Ht.
  eapply (smooth_HandleCheck cfg got chk); [done..| | |done]; [rewrite E1; apply list_elem_of_here|done].
Qed.

(** C21: CHECK notices that an attachment is gone.  In any world that satisfies the
    laws: after a DEL of an attachment that returned success, a CHECK of it does
    not succeed, and does not panic. *)
Theorem del_then_check cfg chk w :
  production_del cfg → valid w →
  (∀ p, findPortByName (ifaces w) (del_name cfg) = Some p → addrs w (if_ID p) = []) →
  del_name chk = del_name cfg →
  run (HandleDel cfg) w (λ w1 out1, out1 = Returns (Ok tt) →
    run (HandleCheck chk) w1 (λ _ out2, ∃ e, out2 = Returns (Err e))).
Proof.
  intros Hpd Hv Ha En. eapply run_mono; [by apply run_HandleDel|].
  intros w1 out1 [Hv1 Hst] ->. destruct Hst as [_ Hgone]. unfold HandleCheck.
  eapply (run_mono _ _ (λ w' out, valid w' ∧ ∃ e, out = Returns (Err e))); [|naive_solver].
  apply run_with_lock; [naive_solver|done|by eexists|]. intros w2 Hv2 [E2 _]. fold (del_name chk). rewrite En.
  apply run_bind, run_list; [done| |]; [|intros w3 e Hv3 _; apply run_ret; split; [done|by eexists]].
  intros w3 Hv3 _. rewrite E2. destruct (findPortByName (ifaces w1) (del_name cfg)) as [p|] eqn:Ef.
  - exfalso. apply findPortByName_some in Ef as [Hp Hn]. apply Hgone. rewrite <-Hn. by apply list_elem_of_fmap_2.
  - apply run_ret. split; [done|by eexists].
Qed.
End round_trip.
