(* ===== verification/Crash.v ===== *)
(** * Crash: a killed ADD, and the DEL that follows

    The runtime may kill the plugin in the middle of an ADD, after any of its
    operations; it then calls DEL.  [through] is a program logic for what holds
    after every operation of a run, and [run_killed] runs a program up to a
    number of operations. *)

From S2P Require Import Prelude Bytes NetIP Types GoLib Client Wire Cni PortName Config Lock Netns.
From S2P Require Import Handler HandlerFacts Serial Ledger Runs World.
From Stdlib Require Import Lia ZArith.
Open Scope Z_scope.
#[local] Opaque groutPortName.

(** ** Programs that are killed *)

Section through.
Context `{CniTypes} {W} `{!Grout W}.
Implicit Types w : W.

(** The world when the program is killed after [n] operations, if it has not
    ended before. *)
Fixpoint run_killed {A} (n : nat) (p : cni A) w : W :=
  match n, p with
  | O, _ | _, Ret _ => w
  | S n, Vis o k => run_killed n (k (env o w).2) (env o w).1
  end.

(** [I] holds all the time, and [Q] at the end. *)
Fixpoint through {A} (p : cni A) w (I : W → Prop) (Q : W → A → Prop) : Prop :=
  I w ∧ match p with
        | Ret a => Q w a
        | Vis o k => through (k (env o w).2) (env o w).1 I Q
        end.

Lemma through_killed {A} (p : cni A) w I Q n : through p w I Q → I (run_killed n p w).
Proof. revert n w. induction p as [a|o k IH]; intros [|n] w [Hi Hp]; [done..|]. simpl. by apply IH. Qed.

Lemma through_ret {A} (a : A) w (I : W → Prop) (Q : W → A → Prop) : I w → Q w a → through (mret a) w I Q.
Proof. done. Qed.

Lemma through_bind {A B} (p : cni A) (f : A → cni B) w I Q :
  through p w I (λ w a, through (f a) w I Q) → through (p ≫= f) w I Q.
Proof.
  revert w. induction p as [a|o k IH]; intros w [Hi Hp]; [done|]. split; [done|]. by apply IH.
Qed.

Lemma through_mono {A} (p : cni A) w (I I' : W → Prop) (Q Q' : W → A → Prop) :
  through p w I Q → (∀ w, I w → I' w) → (∀ w a, Q w a → Q' w a) → through p w I' Q'.
Proof.
  intros Hp HI HQ. revert w Hp. induction p as [a|o k IH]; intros w [Hi Hp]; (split; [by apply HI|]); [by apply HQ|by apply IH].
Qed.

(** At its end the program has kept [I]. *)
Lemma through_strengthen {A} (p : cni A) w (I : W → Prop) (Q Q' : W → A → Prop) :
  through p w I Q → (∀ w a, I w → Q w a → Q' w a) → through p w I Q'.
Proof.
  intros Hp HQ. revert w Hp. induction p as [a|o k IH]; intros w [Hi Hp]; (split; [done|]); [by apply HQ|by apply IH].
Qed.

(** One operation: what [run] knows of it. *)
Lemma through_op o w (I : W → Prop) (Q : W → cni_res o → Prop) :
  I w → run (op_call o) w (λ w r, I w ∧ Q w r) → through (op_call o) w I Q.
Proof. unfold run, op_call. simpl. destruct (env o w) as [w' r]. by intros Hi [Hi' Hq]. Qed.
End through.

Section frame.
Context `{CniLib} {W} `{!Grout W} `{!GroutLaws W}.
Implicit Types w : W.

(** A property of grout's view. *)
Definition of_view (I : W → Prop) : Prop := ∀ w w', valid w' → same w w' → I w → I w'.

Lemma through_quiet {A} (p : cni A) w I (Q : W → A → Prop) :
  quiet p → of_view I → valid w → I w → (∀ w' a, valid w' → same w w' → I w' → Q w' a) → through p w I Q.
Proof.
  intros Hp HI. revert w. induction p as [a|o k IH]; intros w Hv Hw HQ; (split; [done|]); [by apply HQ|].
  destruct Hp as [Ho Hk]. destruct (run_quiet_op o w Ho Hv) as [Hv' Hs].
  apply IH; [apply Hk|done|by eapply HI|]. intros w' a Hv2 Hs2. apply HQ; [done|by eapply same_trans].
Qed.

Lemma through_with_lock {A} path (body : cni (outcome (result A))) w I :
  of_view I → valid w → I w →
  (∀ w1, valid w1 → same w w1 → I w1 → through body w1 I (λ w2 _, valid w2)) →
  through (with_lock path body) w I (λ w' _, valid w').
Proof.
  intros HI Hv Hw Hb. unfold with_lock.
  apply through_bind, through_quiet; [unfold quiet, NewFileLock; footprint; done|done..|].
  intros w1 [fd|e] Hv1 Hs1 Hi1; [|by apply through_ret].
  apply through_bind, through_quiet; [unfold quiet, FileLock_Lock; footprint; done|done..|].
  intros w2 [[]|e] Hv2 Hs2 Hi2.
  - assert (∀ w3 (a : outcome (result A)), valid w3 → I w3 →
      through (_ ← FileLock_Unlock fd; _ ← FileLock_Close fd; mret a) w3 I (λ w' _, valid w')) as Hend.
    { intros w3 a Hv3 Hi3. apply through_quiet; [unfold quiet, FileLock_Unlock, FileLock_Close; footprint; done|done..|done]. }
    apply through_bind. eapply through_strengthen; [apply Hb; [done|by eapply same_trans|done]|]. eauto.
  - apply through_quiet; [unfold quiet, FileLock_Close; footprint; done|done..|done].
Qed.
End frame.

(** ** ADD *)

Section addition.
Context `{CniLib} {W} `{!Grout W} `{!GroutLaws W} `{!GroutReliable W}.
Implicit Types w : W.

Lemma through_run {A} (p : cni A) w (I : W → Prop) (Q : W → A → Prop) :
  through p w I (λ _ _, True) → run p w Q → through p w I Q.
Proof.
  revert w. induction p as [a|o k IH]; intros w [Hi Hp] Hr; (split; [done|]); [done|].
  apply IH; [done|]. unfold run in *. simpl in Hr. by destruct (env o w).
Qed.

Variables (cfg : AddConfig) (w0 : W).
Hypothesis Hprod : production_add cfg.
Hypothesis Hconf : clean_conf (add_Config cfg).
Hypothesis Hv0 : valid w0.

(** At most the network's bridge was added. *)
Definition no_port w : Prop := valid w ∧ only_bridge (Bridge (add_Config cfg)) (ifaces w0) (ifaces w).

(** And on top of it the attachment's port, without addresses, in that bridge. *)
Definition port_on w (p : InterfaceInfo) (l : list InterfaceInfo) : Prop :=
  valid w ∧ only_bridge (Bridge (add_Config cfg)) (ifaces w0) l ∧ ifaces w ≡ₚ p :: l ∧
  if_Name p = add_name cfg ∧ add_name cfg ∉ if_Name <$> l ∧ addrs w (if_ID p) = [] ∧
  has_bridge (if_Domain p) (Bridge (add_Config cfg)) l.

(** What an interrupted ADD may leave. *)
Definition leftover w : Prop := no_port w ∨ ∃ p l, port_on w p l.

Lemma no_port_view : of_view no_port.
Proof. intros w w' Hv' [E _] [_ Hb]. split; [done|]. by rewrite E. Qed.

Lemma port_on_view p l : of_view (λ w, port_on w p l).
Proof. intros w w' Hv' [E A] (_ & ? & ? & ? & ? & ? & ?). split_and!; rewrite ?E, ?A; done. Qed.

Lemma leftover_view : of_view leftover.
Proof.
  intros w w' Hv' Hs [Hn|(p & l & Hp)]; [left; by eapply no_port_view|right; exists p, l; by eapply port_on_view].
Qed.

(** A quiet program in the middle of ADD. *)
Lemma through_middle {A} (p : cni A) w (Q : W → A → Prop) :
  quiet p → leftover w → (∀ w' a, valid w' → same w w' → leftover w' → Q w' a) → through p w leftover Q.
Proof.
  intros Hp Hw HQ. apply through_quiet; [done|apply leftover_view| |done|done].
  by destruct Hw as [[? _]|(? & ? & ? & _)].
Qed.

Lemma through_no_port_quiet {A} (p : cni A) w (Q : W → A → Prop) :
  quiet p → no_port w → (∀ w' a, no_port w' → Q w' a) → through p w leftover Q.
Proof.
  intros Hp Hw HQ. apply through_middle; [done|by left|]. intros w' a Hv' Hs _. apply HQ. by eapply no_port_view.
Qed.

Lemma through_ensureBridge w :
  valid w → ifaces w = ifaces w0 →
  through (ensureBridge (Bridge (add_Config cfg))) w leftover (λ _ _, True).
Proof.
  intros Hv E. assert (∀ w', valid w' → ifaces w' = ifaces w0 → no_port w') as Hstart.
  { intros w' Hv' E'. split; [done|]. left. by rewrite E'. }
  assert (∀ w', no_port w' → leftover w') as Hl by (by left).
  unfold ensureBridge. apply through_bind, through_quiet; [by split|apply leftover_view|auto..|].
  intros w1 [l|e] Hv1 [E1 _] _; [|apply through_ret; auto]. 2:{ apply Hl, Hstart; [done|congruence]. }
  assert (no_port w1) as Hn1 by (apply Hstart; [done|congruence]).
  destruct (findBridgeID l (Bridge (add_Config cfg))); [apply through_ret; auto|].
  apply through_bind, through_op; [auto|].
  apply (run_add (bridge_request (Bridge (add_Config cfg)))); [done|by apply bridge_request_wf| |].
  - intros w2 resp Hv2 [_ Hn _ Hnd (d & E2 & _ & Hd) _ _]. rewrite E1, E in *.
    assert (no_port w2) as Hn2.
    { split; [done|]. right. eexists. split_and!; [| | | |exact E2]; [done..|]. simpl. rewrite not_elem_of_cons. split; [|done].
      intros Ed. apply Hd; [done|]. rewrite E2, <-Ed. apply list_elem_of_here. }
    split; [auto|]. apply through_ret; auto.
  - intros w2 e Hv2 [E2 _]. assert (no_port w2) as Hn2 by (apply Hstart; [done|congruence]). split; [auto|].
    apply through_no_port_quiet; [|done|done].
    unfold quiet. footprint; done.
Qed.

Lemma through_assign bid gws w :
  no_port w → is_u16 bid → through (assign_gateways bid gws) w leftover (λ _ _, True).
Proof.
  revert w. induction gws as [|gw gws IH]; intros w Hn Hu; [by split; [left|]|]. cbn [assign_gateways].
  apply through_bind, through_op; [by left|]. apply run_addr_add; [apply Hn|done| |].
  - intros w1 k Hv1 E1 _ _ _. assert (no_port w1) by (split; [done|rewrite E1; apply Hn]). split; [by left|by apply IH].
  - intros w1 e Hv1 Hs. assert (no_port w1) by (by eapply no_port_view). split; [by left|]. by apply through_ret; [left|].
Qed.

Lemma through_add_fail {A} w e : no_port w → through (add_fail (A := A) cfg e) w leftover (λ w' _, valid w').
Proof.
  intros Hn. unfold add_fail. destruct Hprod as (_ & -> & _).
  apply through_bind, through_no_port_quiet; [apply quiet_ipamDel|done|].
  intros w1 [] Hn1. apply through_ret; [by left|apply Hn1].
Qed.

Lemma through_finish conv sock resp p l w :
  port_on w p l → if_ID p = IfaceID resp →
  through (finish_add cfg (add_name cfg) sock conv resp) w leftover (λ w' _, valid w').
Proof.
  intros Hp Ei. assert (∀ w', port_on w' p l → leftover w' ∧ valid w') as Hl.
  { intros w' Hw'. split; [right; eauto|apply Hw']. }
  assert (∀ w1 e, port_on w1 p l → through (_ ← cleanupAfterAddFailure cfg (IfaceID resp);
    mret (Returns (A := result Result) (Err e))) w1 leftover (λ w' _, valid w')) as Hclean.
  { intros w1 e Hp1. pose proof Hp1 as (Hv1 & Hob & E1 & En & Hn & Ha & _). apply through_bind. unfold cleanupAfterAddFailure.
    assert (p ∈ ifaces w1) as Hin by (rewrite E1; apply list_elem_of_here).
    destruct Hprod as (_ & -> & _). rewrite <-Ei. apply through_bind, through_op; [by apply Hl|].
    apply run_del; [done|by apply (law_u16 w1 p)|by apply list_elem_of_fmap_2|done|].
    intros w2 Hv2 E2 _. assert (no_port w2) as Hn2.
    { split; [done|]. apply (only_bridge_proper _ _ l); [|done]. rewrite E2, E1, without_fresh; [done|].
      pose proof (law_ids w1 Hv1) as Hids. rewrite E1, fmap_cons, NoDup_cons in Hids. by destruct Hids. }
    split; [by left|]. apply through_no_port_quiet; [apply quiet_ipamDel|done|].
    intros w3 [] Hn3. apply through_ret; [by left|apply Hn3]. }
  destruct Hprod as (_ & _ & Emove & Econf). unfold finish_add. rewrite Emove, Econf. cbn [default].
  assert (∀ (a : outcome (result Result)) w', port_on w' p l → through (mret a) w' leftover (λ w' _, valid w')) as Hret.
  { intros a w' Hw'. apply through_ret; by apply Hl. }
  case_match; [case_match; by apply Hret|]. case_match; [|by apply Hret]. case_decide; [by apply Hret|].
  apply through_bind, through_quiet; [|apply leftover_view|by apply Hl..|].
  { unfold quiet. eapply uses_only_mono; [apply moveLink_footprint|]. by intros []. }
  intros w1 x Hv1 Hs1 _. assert (port_on w1 p l) as Hp1 by (by eapply port_on_view).
  destruct x as [[]|e]; [|by apply Hclean].
  apply through_bind, through_quiet; [|apply leftover_view|by apply Hl..|].
  { unfold quiet. eapply uses_only_mono; [apply configurePod_footprint|]. by intros []. }
  intros w2 x Hv2 Hs2 _. assert (port_on w2 p l) as Hp2 by (by eapply port_on_view).
  destruct x as [res|e]; [|by apply Hclean]. by apply Hret.
Qed.

Lemma through_port conv bid w :
  no_port w → has_bridge bid (Bridge (add_Config cfg)) (ifaces w) →
  through (add_port cfg (add_name cfg) conv bid) w leftover (λ w' _, valid w').
Proof.
  intros Hn (br & Hbr & Ebid & Ebn). unfold add_port.
  apply through_bind, through_middle; [by unfold quiet; footprint|by left|]. intros w1 r Hv1 Hs1 _.
  assert (no_port w1) as Hn1 by (by eapply no_port_view). destruct r as [[]|e]; [|by apply through_add_fail].
  destruct Hs1 as [E1 _]. rewrite <-E1 in Hbr. destruct (law_u16 w1 br Hv1 Hbr) as [Hu _]. rewrite Ebid in Hu.
  pose proof (port_request_wf cfg (ContainerID (add_Args cfg)) (IfName (add_Args cfg)) bid Hconf Hu) as Hwf.
  fold (add_name cfg) in Hwf. apply through_bind, through_op; [by left|]. apply run_add; [done|exact Hwf| |].
  - intros w2 resp Hv2 [Hid Hname Hfr _ (d & E2 & Hd & _) Ha2 _]. cbn [ia_Name ia_Type ia_DomainID port_request] in *.
    rewrite Hd in E2 by (rewrite <-Ebid; by apply (law_nonzero w1)).
    assert (port_on w2 (mkInterfaceInfo (IfaceID resp) Types.InterfaceTypeTAP (add_name cfg) bid) (ifaces w1)) as Hp.
    { split_and!; [done|apply Hn1|done|done|done|done|by exists br]. }
    split; [right; eauto|]. by eapply through_finish.
  - intros w2 e Hv2 Hs2. assert (no_port w2) by (by eapply no_port_view). split; [by left|by apply through_add_fail].
Qed.

(** Whenever ADD is interrupted, it leaves at most the bridge and the port. *)
Lemma through_HandleAdd : through (HandleAdd cfg) w0 leftover (λ w' _, valid w').
Proof.
  assert (no_port w0) as Hn0 by (split; [done|by left]).
  unfold HandleAdd. apply through_with_lock; [apply leftover_view|done|by left|]. intros w1 Hv1 Hs1 _.
  fold (add_name cfg). destruct (Hprod) as (E & _). rewrite E.
  assert (no_port w1) as Hn1 by (by eapply no_port_view).
  apply through_bind, through_middle; [unfold quiet, delegateIPAMAdd; simpl; footprint; done|by left|].
  intros w2 r Hv2 Hs2 _. assert (no_port w2) as Hn2 by (by eapply no_port_view).
  destruct r as [raw|e]; [|by apply through_ret; [left|]].
  destruct (convertResult raw) as [conv|e]; [|by apply through_ret; [left|]].
  assert (ifaces w2 = ifaces w0) as E2 by (destruct Hs1, Hs2; congruence).
  unfold add_attach. apply through_bind. eapply through_run; [by apply through_ensureBridge|].
  eapply run_mono; [by apply run_ensureBridge|]. intros w3 [bid|e] [Hv3 Hr].
  2:{ apply through_add_fail. split; [done|]. left. by rewrite Hr, E2. }
  destruct Hr as [Hob Hhb]. rewrite E2 in Hob. assert (no_port w3) as Hn3 by done.
  destruct (gatewaysFor conv) as [gws|]; [|by apply through_ret; [left|]].
  assert (is_u16 bid) as Hu by (destruct Hhb as (b & Hb & <- & _); by apply (law_u16 w3)).
  apply through_bind. eapply through_run; [by apply through_assign|].
  eapply run_mono; [by apply run_assign_gateways|]. intros w4 r (Hv4 & E4 & _).
  assert (no_port w4) as Hn4 by (split; [done|by rewrite E4]).
  destruct r as [[]|e]; [|by apply through_add_fail]. apply through_port; [done|by rewrite E4].
Qed.
End addition.

(** ** DEL *)

Section removal.
Context `{CniLib} {W} `{!Grout W} `{!GroutLaws W} `{!GroutReliable W}.
Implicit Types w : W.

Variables (cfg : DelConfig) (w0 : W) (p : InterfaceInfo).
Hypothesis Hprod : production_del cfg.
Hypothesis Hv0 : valid w0.
Hypothesis Hport : findPortByName (ifaces w0) (del_name cfg) = Some p.
Hypothesis Haddrs : addrs w0 (if_ID p) = [].

(** What an interrupted DEL of the port [p] may have removed: the port, and then
    the interface that is its domain. *)
Definition removing w : Prop :=
  valid w ∧ (p ∈ ifaces w → addrs w (if_ID p) = []) ∧
  (∀ i, i ∈ ifaces w → i ∈ ifaces w0) ∧
  ∀ i, i ∈ ifaces w0 → i ≠ p → if_ID i ≠ if_Domain p → i ∈ ifaces w.

Lemma removing_view : of_view removing.
Proof. intros w w' Hv' [E A] (_ & ? & ? & ?). split_and!; rewrite ?E, ?A; done. Qed.

Lemma port_listed : p ∈ ifaces w0.
Proof. by destruct (findPortByName_some _ _ _ Hport). Qed.

Lemma removing_del id w w' :
  removing w → valid w' → id = if_ID p ∨ id = if_Domain p →
  ifaces w' ≡ₚ without id (ifaces w) → (∀ i, addrs w' i = addrs w i) → removing w'.
Proof.
  intros (Hv & Ha & Hsub & Hkeep) Hv' Hid E A. split_and!; [done|..].
  - rewrite E, A, elem_of_without. intros [? _]. auto.
  - intros i. rewrite E, elem_of_without. intros [? _]. auto.
  - intros i Hi Hne Hd. rewrite E, elem_of_without. split; [auto|]. destruct Hid as [->| ->]; [|done].
    intros Eid. apply Hne. by apply (NoDup_fmap_inj if_ID (ifaces w0) i p (law_ids w0 Hv0) Hi port_listed).
Qed.

(** Deleting an interface, refused or not. *)
Lemma run_del_any id w (Q : W → result unit → Prop) :
  valid w → is_u16 id →
  (∀ w' r, valid w' → same w w' ∨ ifaces w' ≡ₚ without id (ifaces w) ∧ (∀ i, addrs w' i = addrs w i) → Q w' r) →
  run (op_call (GInterfaceDel (mkInterfaceDelRequest id))) w Q.
Proof.
  intros Hv Hu HQ. apply run_op. set (r := mkInterfaceDelRequest id).
  pose proof (law_valid (GInterfaceDel r) w Hv Hu) as Hv'. pose proof (law_del_refused r w) as Href.
  pose proof (law_del r w) as Hdel. destruct (env (GInterfaceDel r) w) as [w' [[]|e]]; simpl in *; apply HQ; try done.
  - right. by destruct (Hdel Hv Hu eq_refl) as (_ & ? & ?).
  - left. by apply (Href e).
Qed.

Lemma through_del id w :
  removing w → id = if_ID p ∨ id = if_Domain p →
  through (op_call (GInterfaceDel (mkInterfaceDelRequest id))) w removing (λ w' _, removing w').
Proof.
  intros Hw Hid. destruct (law_u16 w0 p Hv0 port_listed) as [Hu Hud].
  apply through_op; [done|]. apply run_del_any; [apply Hw|by destruct Hid as [->| ->]|].
  intros w' r Hv' Hcase. assert (removing w'); [|done].
  destruct Hcase as [Hs|[E A]]; [by eapply removing_view|by eapply removing_del].
Qed.

Lemma through_removing {A} (q : cni A) w (Q : W → A → Prop) :
  quiet q → removing w → (∀ w' a, removing w' → Q w' a) → through q w removing Q.
Proof. intros Hq Hw HQ. apply through_quiet; [done|apply removing_view|apply Hw|done|]. intros w' a _ _. apply HQ. Qed.

Lemma through_gcBridge w :
  removing w → p ∉ ifaces w → through (gcBridgeIfEmpty (if_Domain p)) w removing (λ w' _, removing w').
Proof.
  intros Hw Hgone. unfold gcBridgeIfEmpty. apply through_bind, through_quiet; [by split|apply removing_view|apply Hw|done|].
  intros w1 [l|e] Hv1 [E1 _] Hw1; [|by apply through_ret]. case_match; [|by apply through_ret].
  apply through_bind, through_op; [done|]. apply run_op.
  destruct (law_u16 w0 p Hv0 port_listed) as [_ Hud]. destruct (law_flush (if_Domain p) w1 Hv1 Hud) as (E2 & _ & _).
  set (w2 := (env (GAddressFlush (if_Domain p)) w1).1) in *.
  assert (removing w2) as Hw2.
  { destruct Hw1 as (_ & _ & ? & ?). split_and!; rewrite ?E2; try done;
      [by apply (law_valid (GAddressFlush (if_Domain p)))|]. by rewrite E1. }
  split; [done|]. apply through_bind. eapply through_mono; [apply through_del; [done|by right]|done|].
  intros w3 r Hw3. by apply through_ret.
Qed.

(** Whenever DEL is interrupted, nothing but the port and its bridge is gone. *)
Lemma through_HandleDel : through (HandleDel cfg) w0 removing (λ w' _, valid w').
Proof.
  assert (removing w0) as Hw0 by (by split_and!). unfold HandleDel.
  apply through_with_lock; [apply removing_view|done|done|]. intros w1 Hv1 [E1 A1] Hw1.
  fold (del_name cfg). destruct Hprod as [Eipam _]. rewrite Eipam.
  apply through_bind, through_op; [done|]. apply run_list; [done| |].
  2:{ intros w2 e Hv2 Hs2. assert (removing w2) by (by eapply removing_view). split; [done|]. by apply through_ret. }
  intros w2 Hv2 [E2 A2]. assert (removing w2) as Hw2 by (by eapply removing_view). split; [done|].
  rewrite E1, Hport. destruct (law_u16 w0 p Hv0 port_listed) as [Hu _].
  assert (∀ w3, removing w3 → through (_ ← ipamDel None (del_Config cfg) (del_Args cfg);
    mret (Returns (A := result unit) (Ok tt))) w3 removing (λ w' _, valid w')) as Hend.
  { intros w3 Hw3. apply through_bind, through_removing; [apply quiet_ipamDel|done|].
    intros w4 [] Hw4. apply through_ret; [done|apply Hw4]. }
  apply through_bind, through_bind, through_op; [done|].
  apply run_del; [done|done|rewrite E2, E1; apply list_elem_of_fmap_2, port_listed|by rewrite A2, A1|].
  intros w3 Hv3 E3 A3. assert (removing w3) as Hw3 by (eapply removing_del; [exact Hw2|done|by left|done..]).
  split; [done|]. apply through_bind, through_quiet; [apply quiet_removeVhostSocket|apply removing_view|done|done|].
  intros w4 [] Hv4 [E4 _] Hw4. case_decide; [|by apply through_ret; [|apply Hend]].
  eapply through_mono; [apply through_gcBridge; [done|]|done|].
  - rewrite E4, E3, elem_of_without. naive_solver.
  - intros w5 [] Hw5. by apply Hend.
Qed.
End removal.

(** A DEL of an attachment without a port changes nothing. *)
Section nothing.
Context `{CniLib} {W} `{!Grout W} `{!GroutLaws W} `{!GroutReliable W}.
Implicit Types w : W.

Lemma through_HandleDel_none cfg w0 :
  production_del cfg → valid w0 → findPortByName (ifaces w0) (del_name cfg) = None →
  through (HandleDel cfg) w0 (λ w, valid w ∧ same w0 w) (λ w' _, valid w').
Proof.
  intros [Eipam _] Hv0 Hport.
  assert (of_view (λ w, valid w ∧ same w0 w)) as Hview.
  { intros w w' Hv' Hs [_ Hs0]. split; [done|by eapply same_trans]. }
  unfold HandleDel. apply through_with_lock; [done|done|done|]. intros w1 Hv1 [E1 _] Hw1.
  fold (del_name cfg). rewrite Eipam. apply through_bind, through_op; [done|]. apply run_list; [done| |].
  - intros w2 Hv2 Hs2. pose proof (Hview w1 w2 Hv2 Hs2 Hw1) as Hw2. split; [done|]. rewrite E1, Hport.
    apply through_bind, through_ret; [done|].
    apply through_bind, through_quiet; [apply quiet_ipamDel|done|done|done|]. intros w3 [] Hv3 _ Hw3. by apply through_ret.
  - intros w2 e Hv2 Hs2. pose proof (Hview w1 w2 Hv2 Hs2 Hw1) as Hw2. split; [done|]. by apply through_ret.
Qed.
End nothing.

(** ** Recovery *)

Section recovery.
Context `{CniLib} {W} `{!Grout W} `{!GroutLaws W} `{!GroutReliable W}.
Implicit Types w : W.

Lemma only_bridge_others name l l' i : only_bridge name l l' → if_Name i ≠ name → i ∈ l' ↔ i ∈ l.
Proof.
  intros [E|(b & _ & Eb & _ & _ & E)] Hi; rewrite E; [done|]. rewrite elem_of_cons. naive_solver.
Qed.

Lemma only_bridge_names name l l' n :
  only_bridge name l l' → n ≠ name → n ∉ if_Name <$> l → n ∉ if_Name <$> l'.
Proof.
  intros Hob Hn Hl (i & Ei & Hi)%list_elem_of_fmap. apply Hl. rewrite Ei. apply list_elem_of_fmap_2.
  apply (only_bridge_others name l l'); [done|congruence|done].
Qed.

(** Collecting a bridge leaves everything that has another name. *)
Lemma collect_others id name l i :
  NoDup (if_ID <$> l) → has_bridge id name l → if_Name i ≠ name → i ∈ collect id l ↔ i ∈ l.
Proof.
  intros Hnd (br & Hbr & Eid & En) Hi. unfold collect. case_decide; [|done].
  rewrite elem_of_without. split; [by intros [? _]|]. intros Hin. split; [done|]. intros E. apply Hi.
  rewrite <-En. f_equal. eapply (NoDup_fmap_inj if_ID l); [done|done|done|congruence].
Qed.

(** C10: A killed ADD is undone by DEL.  In any world that satisfies the laws: when
    an ADD of a new attachment is killed after any number of its operations, and
    DEL of the same container and interface then succeeds, the attachment's port
    is gone and every interface other than the network's bridge is as it was
    before the ADD; and DEL does not panic. *)
Theorem killed_add_recovered cfg dcfg w n :
  production_add cfg → production_del dcfg → clean_conf (add_Config cfg) → valid w →
  HasPrefix (Bridge (add_Config cfg)) portPrefix = false → add_name cfg ∉ if_Name <$> ifaces w →
  ContainerID (del_Args dcfg) = ContainerID (add_Args cfg) → IfName (del_Args dcfg) = IfName (add_Args cfg) →
  run (HandleDel dcfg) (run_killed n (HandleAdd cfg) w) (λ w2 out,
    out ≠ Panics ∧
    (out = Returns (Ok tt) →
       add_name cfg ∉ if_Name <$> ifaces w2 ∧
       ∀ i, if_Name i ≠ Bridge (add_Config cfg) → i ∈ ifaces w2 ↔ i ∈ ifaces w)).
Proof.
  intros Hpa Hpd Hc Hv Hpre Hnew Ec Ei.
  assert (del_name dcfg = add_name cfg) as En by (unfold del_name, add_name; by rewrite Ec, Ei).
  assert (add_name cfg ≠ Bridge (add_Config cfg)) as Hne.
  { intros E. rewrite <-E in Hpre. unfold add_name in Hpre. by rewrite groutPortName_prefix in Hpre. }
  pose proof (through_killed _ _ _ _ n (through_HandleAdd cfg w Hpa Hc Hv)) as Hleft.
  set (w1 := run_killed n (HandleAdd cfg) w) in *.
  destruct Hleft as [[Hv1 Hob]|(p & l & Hv1 & Hob & E1 & Ename & Hn & Ha & Hbr)].
  - assert (findPortByName (ifaces w1) (add_name cfg) = None) as Ef.
    { apply findPortByName_none. by eapply only_bridge_names. }
    eapply run_mono; [apply run_HandleDel; [done|done|by rewrite En, Ef]|].
    intros w2 out [_ Hst]. split; [by intros ->|]. intros ->. destruct Hst as [E2 Hgone].
    rewrite En in E2, Hgone. split; [done|]. intros i Hi. unfold after_del in E2. rewrite Ef in E2. rewrite E2.
    by apply only_bridge_others with (name := Bridge (add_Config cfg)).
  - assert (findPortByName (ifaces w1) (add_name cfg) = Some p) as Ef.
    { rewrite <-Ename. apply findPortByName_unique; [by apply law_names|]. rewrite E1. apply list_elem_of_here. }
    pose proof (law_ids w1 Hv1) as Hids. rewrite E1, fmap_cons, NoDup_cons in Hids. destruct Hids as [Hpl Hids].
    eapply run_mono; [apply run_HandleDel; [done|done|rewrite En, Ef; by intros ? [= <-]]|].
    intros w2 out [_ Hst]. split; [by intros ->|]. intros ->. destruct Hst as [E2 Hgone].
    rewrite En in E2, Hgone. split; [done|]. intros i Hi. unfold after_del in E2. rewrite Ef in E2.
    rewrite <-(only_bridge_others _ _ _ i Hob Hi), E2.
    assert (without (if_ID p) (ifaces w1) ≡ₚ l) as El by (rewrite E1; by rewrite without_fresh).
    case_decide; rewrite El; [done|]. by apply collect_others with (name := Bridge (add_Config cfg)).
Qed.

Lemma after_del_subset name l i : i ∈ after_del name l → i ∈ l.
Proof.
  unfold after_del. destruct (findPortByName l name) as [p|]; [|done].
  case_decide; [|intros Hi%collect_subset; revert Hi]; rewrite elem_of_without; by intros [? _].
Qed.

Lemma after_del_keeps name l i :
  NoDup (if_ID <$> l) → i ∈ l → if_Name i ≠ name →
  (∀ p, findPortByName l name = Some p → if_ID i ≠ if_Domain p) → i ∈ after_del name l.
Proof.
  intros Hnd Hi Hn Hd. unfold after_del. destruct (findPortByName l name) as [p|] eqn:Ef; [|done].
  destruct (findPortByName_some _ _ _ Ef) as [Hp Ep]. specialize (Hd p eq_refl).
  assert (i ∈ without (if_ID p) l) as Hw.
  { apply elem_of_without. split; [done|]. intros Eid. apply Hn. rewrite <-Ep. f_equal.
    by apply (NoDup_fmap_inj if_ID l). }
  case_decide; [done|]. unfold collect. case_decide; [by apply elem_of_without|done].
Qed.

(** C11: A killed DEL can be repeated.  In any world that satisfies the laws: when a
    DEL is killed after any number of its operations and a DEL of the same
    attachment then succeeds, the attachment's port is gone, every interface that
    is left was there before, and all are left but the port and the bridge that
    was its domain; and DEL does not panic. *)
Theorem killed_del_resumed cfg cfg' w n :
  production_del cfg → production_del cfg' → valid w → del_name cfg' = del_name cfg →
  (∀ p, findPortByName (ifaces w) (del_name cfg) = Some p → addrs w (if_ID p) = []) →
  run (HandleDel cfg') (run_killed n (HandleDel cfg) w) (λ w2 out,
    out ≠ Panics ∧
    (out = Returns (Ok tt) →
       del_name cfg ∉ if_Name <$> ifaces w2 ∧ (∀ i, i ∈ ifaces w2 → i ∈ ifaces w) ∧
       ∀ i, i ∈ ifaces w → if_Name i ≠ del_name cfg →
         (∀ p, findPortByName (ifaces w) (del_name cfg) = Some p → if_ID i ≠ if_Domain p) → i ∈ ifaces w2)).
Proof.
  intros Hpd Hpd' Hv En Ha. set (w1 := run_killed n (HandleDel cfg) w).
  assert (valid w1 ∧ (∀ i, i ∈ ifaces w1 → i ∈ ifaces w) ∧
    (∀ p, findPortByName (ifaces w) (del_name cfg) = Some p → p ∈ ifaces w1 → addrs w1 (if_ID p) = []) ∧
    ∀ i, i ∈ ifaces w → if_Name i ≠ del_name cfg →
      (∀ p, findPortByName (ifaces w) (del_name cfg) = Some p → if_ID i ≠ if_Domain p) → i ∈ ifaces w1)
    as (Hv1 & Hsub & Ha1 & Hkeep).
  { destruct (findPortByName (ifaces w) (del_name cfg)) as [p|] eqn:Ef.
    - destruct (through_killed _ _ _ _ n (through_HandleDel cfg w p Hpd Hv Ef (Ha p eq_refl))) as (? & ? & ? & Hk).
      split_and!; [done|done|by intros ? [= <-]|]. intros i Hi Hn Hd. apply Hk; [done| |by apply Hd].
      intros ->. by destruct (findPortByName_some _ _ _ Ef).
    - destruct (through_killed _ _ _ _ n (through_HandleDel_none cfg w Hpd Hv Ef)) as (? & E & _).
      fold w1 in E. split_and!; [done|by rewrite E|done|by rewrite E]. }
  assert (∀ p, findPortByName (ifaces w1) (del_name cfg) = Some p →
    p ∈ ifaces w1 ∧ findPortByName (ifaces w) (del_name cfg) = Some p) as Hsame.
  { intros p (Hp & Hn)%findPortByName_some. split; [done|]. rewrite <-Hn. apply findPortByName_unique; [by apply law_names|auto]. }
  eapply run_mono; [apply run_HandleDel; [done|done|rewrite En; intros p [? ?]%Hsame; auto]|].
  intros w2 out [_ Hst]. split; [by intros ->|]. intros ->. destruct Hst as [E2 Hgone]. rewrite En in E2, Hgone.
  split_and!; [done|intros i; rewrite E2; intros Hi%after_del_subset; auto|].
  intros i Hi Hn Hd. rewrite E2. apply after_del_keeps; [by apply law_ids|auto|done|]. intros p [_ Hp]%Hsame. auto.
Qed.
End recovery.
