(* ===== verification/Typing.v ===== *)
(** * Typing: every request of the plugin fits grout's structures

    The handlers compute with ids, domains and names they read from the socket.
    [twp] is a typing of programs: given answers whose fields are in the ranges of
    their Go types, every request has fields that fit the C structures they are
    written to.  The client's decoders give such answers whatever bytes the
    server sends, so no server can make the plugin send a malformed request.
    The prefix length of an address comes from the IPAM plugin's mask and is not
    among these fields; the client sends its low byte. *)

From S2P Require Import Prelude Bytes Protocol NetIP Types GoLib Client Wire Cni PortName Config Lock.
From S2P Require Import Netns Handler Main Serial Runs World.
From Stdlib Require Import Lia ZArith.
Open Scope Z_scope.
#[local] Opaque groutPortName.

(** ** Well-formed answers *)

(** The fields the handlers compute with. *)
Definition wf_listed (i : InterfaceInfo) : Prop := is_u16 (if_ID i) ∧ is_u16 (if_Domain i).

Lemma get_u16_range off bs : is_u16 (get_u16 off bs).
Proof.
  unfold get_u16, is_u16. pose proof (le_get_bound (read_at off 2 bs)) as [? Hub]. split; [done|].
  eapply Z.lt_le_trans; [done|]. change 65536 with (256 ^ 2). apply Z.pow_le_mono_r; [lia|].
  unfold read_at. rewrite length_take. lia.
Qed.

(** Whatever the bytes are. *)
Lemma decode_iface_wf data i : decode_iface data = Some i → wf_listed i.
Proof.
  unfold decode_iface. case_decide; [done|]. intros [= <-]. split; apply get_u16_range.
Qed.

Section typing.
Context `{CniLib}.

Definition wf_res (o : cni_op) : cni_res o → Prop :=
  match o return cni_res o → Prop with
  | GInterfaceList _ => λ r, ∀ l, r = Ok l → Forall wf_listed l
  | GInterfaceAdd _ => λ r, ∀ resp, r = Ok resp → is_u16 (IfaceID resp)
  | _ => λ _, True
  end.

(** ** The typing *)

Fixpoint twp {A} (p : cni A) (Q : A → Prop) : Prop :=
  match p with
  | Ret a => Q a
  | Vis o k => wf_op o ∧ ∀ r, wf_res o r → twp (k r) Q
  end.

Lemma twp_mono {A} (p : cni A) (Q Q' : A → Prop) : twp p Q → (∀ a, Q a → Q' a) → twp p Q'.
Proof. intros Hp HQ. induction p as [a|o k IH]; simpl in *; [auto|]. destruct Hp as [Ho Hk]. eauto. Qed.

Lemma twp_bind {A B} (p : cni A) (f : A → cni B) Q : twp p (λ a, twp (f a) Q) → twp (p ≫= f) Q.
Proof. induction p as [a|o k IH]; simpl; [done|]. intros [Ho Hk]. split; [done|]. intros r Hr. by apply IH, Hk. Qed.

Lemma twp_op o (Q : cni_res o → Prop) : wf_op o → (∀ r, wf_res o r → Q r) → twp (op_call o) Q.
Proof. done. Qed.

(** A program whose requests are well formed whatever it is answered. *)
Lemma twp_uses_only {A} (p : cni A) (Q : A → Prop) :
  uses_only (S := CniSig) wf_op p → (∀ a, Q a) → twp p Q.
Proof. intros Hp HQ. induction p as [a|o k IH]; simpl in *; [done|]. destruct Hp as [Ho Hk]. eauto. Qed.

Lemma twp_quiet {A} (p : cni A) (Q : A → Prop) : quiet p → (∀ a, Q a) → twp p Q.
Proof. intros Hp. apply twp_uses_only. eapply uses_only_mono; [exact Hp|]. by intros o [_ Ho]. Qed.

Lemma twp_list (Q : result (list InterfaceInfo) → Prop) :
  (∀ l, Forall wf_listed l → Q (Ok l)) → (∀ e, Q (Err e)) → twp (op_call list_all) Q.
Proof. intros Hok Herr. apply twp_op; [done|]. intros [l|e] Hr; [|apply Herr]. apply Hok. by apply Hr. Qed.

Lemma twp_with_lock {A} sock (body : cni (outcome (result A))) :
  twp body (λ _, True) → twp (with_lock sock body) (λ _, True).
Proof.
  intros Hb. unfold with_lock. apply twp_bind, twp_quiet; [unfold quiet, NewFileLock; footprint; done|].
  intros [fd|e]; [|done]. apply twp_bind, twp_quiet; [unfold quiet, FileLock_Lock; footprint; done|].
  intros [[]|e]; [|by apply twp_quiet; [unfold quiet, FileLock_Close; footprint|]].
  apply twp_bind. eapply twp_mono; [exact Hb|]. intros a _.
  by apply twp_quiet; [unfold quiet, FileLock_Unlock, FileLock_Close; footprint|].
Qed.

(** ** The handlers *)

Lemma findBridgeID_wf l name id : Forall wf_listed l → findBridgeID l name = Some id → is_u16 id.
Proof.
  intros Hl Hf. destruct (findBridgeID_some _ _ _ Hf) as (b & Hb & _ & _ & <-).
  rewrite Forall_forall in Hl. by apply Hl.
Qed.

Lemma twp_ensureBridge c :
  clean_conf c → twp (ensureBridge (Bridge c)) (λ r, ∀ id, r = Ok id → is_u16 id).
Proof.
  intros Hc. unfold ensureBridge. apply twp_bind, twp_list; [|done].
  intros l Hl. destruct (findBridgeID l (Bridge c)) as [id|] eqn:Ef.
  { intros id' [= <-]. by eapply findBridgeID_wf. }
  apply twp_bind, twp_op; [by apply bridge_request_wf|]. intros [resp|e] Hr.
  { intros id [= <-]. by apply Hr. }
  apply twp_bind, twp_list; [|done].
  intros l2 Hl2. destruct (findByName l2 (Bridge c)) as [id|] eqn:Eb; [|done].
  intros id' [= <-]. destruct (findByName_some _ _ _ Eb) as (b & Hb & <- & _).
  rewrite Forall_forall in Hl2. by apply Hl2.
Qed.

Lemma assign_gateways_wf id gws : is_u16 id → uses_only (S := CniSig) wf_op (assign_gateways id gws).
Proof. intros Hid. eapply uses_only_mono; [apply assign_gateways_footprint|]. by intros o (gw & _ & ->). Qed.

Lemma gcBridge_wf id : is_u16 id → uses_only (S := CniSig) wf_op (gcBridgeIfEmpty id).
Proof. intros Hid. eapply uses_only_mono; [apply gcBridge_footprint|]. by intros o [->|[->| ->]]. Qed.

Lemma twp_finish_add cfg tap sock conv resp :
  production_add cfg → is_u16 (IfaceID resp) → twp (finish_add cfg tap sock conv resp) (λ _, True).
Proof.
  intros (_ & Ed & Em & Ec) Hid. apply twp_uses_only; [|done].
  unfold finish_add, cleanupAfterAddFailure, ipamDel, delegateIPAMDel. rewrite Ed, Em, Ec. simpl default.
  footprint; try done; (eapply uses_only_mono; [eauto with footprint|]); by intros [].
Qed.

Lemma twp_add_fail {A} cfg e : production_add cfg → twp (add_fail (A := A) cfg e) (λ _, True).
Proof. intros (_ & E & _). unfold add_fail. rewrite E. apply twp_bind, twp_quiet; [apply quiet_ipamDel|done]. Qed.

Lemma twp_add_port cfg conv bid :
  production_add cfg → clean_conf (add_Config cfg) → is_u16 bid →
  twp (add_port cfg (add_name cfg) conv bid) (λ _, True).
Proof.
  intros Hp Hc Hbid. unfold add_port.
  apply twp_bind, twp_quiet; [by unfold quiet; footprint|]. intros [[]|e]; [|by apply twp_add_fail].
  apply twp_bind, twp_op; [by apply port_request_wf|].
  intros [resp|e] Hr; [|by apply twp_add_fail]. apply twp_finish_add; [done|by apply Hr].
Qed.

Lemma twp_add_attach cfg conv :
  production_add cfg → clean_conf (add_Config cfg) →
  twp (add_attach cfg (add_name cfg) conv) (λ _, True).
Proof.
  intros Hp Hc. unfold add_attach. apply twp_bind. eapply twp_mono; [by apply twp_ensureBridge|].
  intros [bid|e] Hbid; [|by apply twp_add_fail]. specialize (Hbid bid eq_refl).
  destruct (gatewaysFor conv) as [gws|]; [|done].
  apply twp_bind, twp_uses_only; [by apply assign_gateways_wf|].
  intros [[]|e]; [by apply twp_add_port|by apply twp_add_fail].
Qed.

Lemma twp_HandleAdd cfg :
  production_add cfg → clean_conf (add_Config cfg) → twp (HandleAdd cfg) (λ _, True).
Proof.
  intros Hp Hc. apply twp_with_lock. fold (add_name cfg). destruct (Hp) as (-> & _).
  apply twp_bind, twp_quiet; [unfold quiet, delegateIPAMAdd; simpl; footprint; done|].
  intros [raw|e]; [|done]. destruct (convertResult raw) as [conv|e]; [by apply twp_add_attach|done].
Qed.

Lemma twp_HandleDel cfg : production_del cfg → twp (HandleDel cfg) (λ _, True).
Proof.
  intros [E _]. apply twp_with_lock. rewrite E. apply twp_bind, twp_list; [|done]. intros l Hl.
  assert (twp (_ ← ipamDel None (del_Config cfg) (del_Args cfg); mret (Returns (Ok tt)) : cni (outcome (result unit)))
    (λ _, True)) as Hipam by (apply twp_bind, twp_quiet; [apply quiet_ipamDel|done]).
  apply twp_bind. destruct (findPortByName l _) as [port|] eqn:Ef; [|exact Hipam].
  apply findPortByName_some in Ef as [Hin _]. rewrite Forall_forall in Hl.
  destruct (Hl port Hin) as [Hid Hdom].
  apply twp_bind, twp_op; [done|]. intros r _.
  apply twp_bind, twp_quiet; [apply quiet_removeVhostSocket|]. intros _.
  case_decide; [|exact Hipam]. by apply twp_uses_only; [apply gcBridge_wf|].
Qed.

Lemma twp_HandleCheck cfg : production_del cfg → twp (HandleCheck cfg) (λ _, True).
Proof.
  intros [_ E]. apply twp_with_lock, twp_uses_only; [|done]. rewrite E. unfold fileExists.
  footprint; try done. eapply uses_only_mono; [apply verifyPod_footprint|]. by intros [].
Qed.

Lemma twp_HandleGC cfg : production_gc cfg → twp (HandleGC cfg) (λ _, True).
Proof.
  intros E. apply twp_with_lock. rewrite E. apply twp_bind, twp_list; [|done]. intros l Hl.
  assert (twp (_ ← gcIPAM None (gc_Config cfg) (gc_Args cfg); mret (Returns (Ok tt)) : cni (outcome (result unit)))
    (λ _, True)) as Hipam.
  { apply twp_quiet; [|done]. unfold quiet, gcIPAM, delegateIPAMGC. simpl. footprint; done. }
  destruct (findBridgeID l _) as [id|] eqn:Ef; [|exact Hipam].
  assert (is_u16 id) as Hid by (by eapply findBridgeID_wf). rewrite Forall_forall in Hl.
  apply twp_bind, twp_uses_only.
  { eapply uses_only_mono; [apply reap_footprint|]. intros o (i & Hi & _ & [->| ->]); [|done].
    by apply Hl in Hi as []. }
  intros [|]; [|exact Hipam]. by apply twp_bind, twp_uses_only; [apply gcBridge_wf|].
Qed.

Lemma twp_verb v : production v → clean_conf (verb_conf v) → twp (run_verb v) (λ _, True).
Proof.
  intros Hp Hc. destruct v as [cfg|cfg|cfg|cfg]; apply twp_bind; cbn [production verb_conf] in *;
    (eapply twp_mono; [|done]);
    [by apply twp_HandleAdd|by apply twp_HandleDel|by apply twp_HandleCheck|by apply twp_HandleGC].
Qed.

(** A typed program in an environment that gives well-formed answers. *)
Lemma twp_trace {W A} (h : handler CniSig W) (p : cni A) (Q : A → Prop) w :
  (∀ o w, wf_res o (h o w).2) → twp p Q →
  let '(_, t, a) := interp_trace h p w in Forall wf_op (ops t) ∧ Q a.
Proof.
  intros Hh. revert w. induction p as [a|o k IH]; intros w Hp; simpl; [by split|].
  destruct Hp as [Ho Hk]. specialize (Hh o w). destruct (h o w) as [w' r].
  specialize (IH r w' (Hk r Hh)). destruct (interp_trace h (k r) w') as [[w'' t] a].
  destruct IH as [Ht HQ]. split; [by constructor|done].
Qed.

(** ** The client *)

Context `{Peer P} {W : Type} (base : handler CniSig W).

(** A request returns its zero value or what was decoded. *)
Lemma request_value {A} ty payload (zero : A) dec (c c' : Client P) a :
  request ty payload zero dec c = (c', Ok a) → a = zero ∨ ∃ d bs, dec = Some d ∧ d bs = Ok a.
Proof.
  unfold request. intros (c1 & id & _ & E)%est_bind_ok_inv.
  apply est_bind_ok_inv in E as (c2 & u & _ & E). apply est_bind_ok_inv in E as (c3 & [hdr bs] & _ & E).
  case_decide; [done|]. case_decide; [done|].
  destruct dec as [d|]; [|injection E as _ <-; by left].
  case_decide; [|injection E as _ <-; by left].
  right. exists d, bs. split; [done|]. unfold lift_result in E. injection E as _ E. by apply map_err_ok in E.
Qed.

(** Whatever the peer sends. *)
Lemma link_env_wf o (s : Client P * W) : wf_res o (link_env base o s).2.
Proof.
  destruct o; try exact I; simpl; unfold method.
  - destruct (InterfaceList r s.1) as [c x] eqn:E. intros l Hx. simpl in Hx. subst x.
    apply est_bind_ok_inv in E as (c1 & items & _ & E). injection E as _ <-. rewrite Forall_forall.
    intros i (data & _ & Hd)%list_elem_of_omap. by eapply decode_iface_wf.
  - destruct (InterfaceAdd r s.1) as [c x] eqn:E. intros resp Hx. simpl in Hx. subst x.
    apply est_bind_ok_inv in E as (c1 & payload & _ & E). apply est_bind_ok_inv in E as (c2 & id & E1 & E).
    injection E as _ <-. simpl. apply wrap_ok in E1. apply request_value in E1 as [->|(d & bs & [= <-] & Hd)]; [done|].
    unfold decode_iface_id in Hd. case_decide; [done|]. injection Hd as <-. apply get_u16_range.
Qed.

(** C23: No server can make the plugin send a malformed request.  Whatever bytes
    the peer of the socket sends, whatever the IPAM plugin and the operating
    system do, and whatever the verb: every request that reaches the client has
    a name of at most 15 bytes without NUL, ids, domain and MTU of 16 bits, a
    type of 8 bits, and a path without NUL, so that its encoding loses nothing;
    for a configuration that [LoadConfig] returned, without NUL bytes in its
    bridge name and socket path. *)
Theorem requests_well_formed v (c : Client P) w stdin Unmarshal :
  production v → LoadConfig Unmarshal stdin = Ok (verb_conf v) →
  x00 ∉ Bridge (verb_conf v) → x00 ∉ GroutSocketPath (verb_conf v) →
  let '(_, t, _) := interp_trace (linked base) (run_verb v) (c, w) in Forall wf_op (ops t).
Proof.
  intros Hp Hload Hb Hs.
  pose proof (twp_trace (linked base) (run_verb v) (λ _, True) (c, w) link_env_wf) as Ht.
  destruct (interp_trace (linked base) (run_verb v) (c, w)) as [[s t] a]. apply Ht. apply twp_verb; [done|].
  split; [by eapply LoadConfig_gives_usable|done|done].
Qed.
End typing.
