(* ===== verification/Registry.v ===== *)
(** * Registry: an abstract specification of the plugin, and its refinement

    To its users the plugin keeps a registry of attachments: a finite map from
    the port names of attachments to the bridges of their networks.  ADD enters
    an attachment, DEL removes it, GC removes those of its network that the
    runtime does not list, CHECK looks one up; a call that fails leaves the
    registry alone.  The plugin has no store for it: it is read off grout's
    interfaces.  The theorems say that the handlers implement the registry, and
    that they do so under any interleaving of calls. *)

From stdpp Require Import gmap relations.
From S2P Require Import Prelude Bytes Protocol NetIP Types GoLib Client Wire Cni PortName Config Lock.
From S2P Require Import Netns Handler Main Serial Runs Interleave Serializable Waiter Files World Typing.
From Stdlib Require Import Lia ZArith.
Open Scope Z_scope.
#[local] Opaque groutPortName.

#[global] Instance byte_countable : Countable byte.
Proof.
  refine (inj_countable' (λ b, Byte.to_N b) (λ n, default x00 (Byte.of_N n)) _).
  intros b. by rewrite Byte.of_to_N.
Defined.

(** ** The specification *)

Abbreviation registry := (gmap gostring gostring).

Section spec.
Context `{CniTypes}.

Definition spec (v : verb) (a : verdict) (m : registry) : registry :=
  match a, v with
  | Succeeded, VAdd cfg => <[add_name cfg := Bridge (add_Config cfg)]> m
  | Succeeded, VDel cfg => delete (del_name cfg) m
  | Succeeded, VGC cfg =>
      filter (λ nb, ¬ (nb.2 = Bridge (gc_Config cfg) ∧ nb.1 ∉ valid_names (gc_Config cfg))) m
  | _, _ => m
  end.

(** What a verdict says of the registry it was given on. *)
Definition spec_answer (v : verb) (a : verdict) (m : registry) : Prop :=
  match a, v with
  | Succeeded, VAdd cfg => m !! add_name cfg = None
  | Succeeded, VCheck cfg => is_Some (m !! del_name cfg)
  | Crashed, VAdd _ => True
  | Crashed, _ => False
  | _, _ => True
  end.
End spec.

(** ** How grout's interfaces hold it *)

Definition plugin_port (i : InterfaceInfo) : Prop := HasPrefix (if_Name i) portPrefix = true.

(** Attachment [n] has a port that is a member of the interface called [b]. *)
Definition registered (l : list InterfaceInfo) (n b : gostring) : Prop :=
  ∃ p br, p ∈ l ∧ plugin_port p ∧ if_Name p = n ∧ br ∈ l ∧ if_ID br = if_Domain p ∧ if_Name br = b.

Definition tracks (l : list InterfaceInfo) (m : registry) : Prop :=
  ∀ n b, m !! n = Some b ↔ registered l n b.

#[global] Instance registered_proper : Proper ((≡ₚ) ==> (=) ==> (=) ==> iff) registered.
Proof. intros l l' E n ? <- b ? <-. unfold registered. by setoid_rewrite E. Qed.

#[global] Instance tracks_proper : Proper ((≡ₚ) ==> (=) ==> iff) tracks.
Proof. intros l l' E m ? <-. unfold tracks. by setoid_rewrite E. Qed.

(** The shape of a node: interface ids and names are unique, the port of an
    attachment is a member of an interface that is not such a port, and the names
    [Bs] of the networks' bridges belong to bridges. *)
Record shape (Bs : list gostring) (l : list InterfaceInfo) : Prop := {
  shape_ids : NoDup (if_ID <$> l);
  shape_names : NoDup (if_Name <$> l);
  shape_ports : ∀ p, p ∈ l → plugin_port p → ∃ br, br ∈ l ∧ if_ID br = if_Domain p ∧ ¬ plugin_port br;
  shape_bridges : ∀ br, br ∈ l → if_Name br ∈ Bs → if_Type br = Types.InterfaceTypeBridge }.

#[global] Instance shape_proper Bs : Proper ((≡ₚ) ==> iff) (shape Bs).
Proof.
  assert (∀ l l', l ≡ₚ l' → shape Bs l → shape Bs l') as Himp.
  { intros l l' E [H1 H2 H3 H4]. split; setoid_rewrite <-E; done. }
  intros l l' E. split; apply Himp; done.
Qed.

Section lists.
Variable Bs : list gostring.
Implicit Types l : list InterfaceInfo.

Lemma same_id l i j : shape Bs l → i ∈ l → j ∈ l → if_ID i = if_ID j → i = j.
Proof. intros Hs. apply (NoDup_fmap_inj if_ID). apply Hs. Qed.
Lemma same_name l i j : shape Bs l → i ∈ l → j ∈ l → if_Name i = if_Name j → i = j.
Proof. intros Hs. apply (NoDup_fmap_inj if_Name). apply Hs. Qed.

(** A new port [p] in the interface [br]. *)
Lemma registered_add l p br m :
  shape Bs (p :: l) → plugin_port p → br ∈ l → if_ID br = if_Domain p → ¬ plugin_port br → shape Bs l →
  tracks l m → m !! if_Name p = None ∧ tracks (p :: l) (<[if_Name p := if_Name br]> m).
Proof.
  intros Hs' Hp Hbr Edom Hnb Hs Ht.
  assert (∀ q, q ∈ l → if_Name q ≠ if_Name p) as Hnew.
  { intros q Hq E. pose proof (shape_names _ _ Hs') as [Hn _]%NoDup_cons. apply Hn. rewrite <-E.
    by apply list_elem_of_fmap_2. }
  split.
  - destruct (m !! if_Name p) as [b|] eqn:E; [|done]. apply Ht in E as (q & _ & Hq & _ & En & _).
    by destruct (Hnew q Hq).
  - intros n b. destruct (decide (n = if_Name p)) as [->|Hn].
    + rewrite lookup_insert_eq. split.
      * intros [= <-]. exists p, br. set_solver.
      * intros (q & br' & Hq & _ & En & Hbr' & Ed & <-).
        assert (q = p) as -> by (apply elem_of_cons in Hq as [->|Hq]; [done|by destruct (Hnew q Hq)]).
        f_equal. f_equal. eapply (same_id (p :: l)); [done|set_solver|done|congruence].
    + rewrite lookup_insert_ne by done. rewrite (Ht n b). split.
      * intros (q & br' & Hq & ? & ? & Hbr' & ? & ?). exists q, br'. set_solver.
      * intros (q & br' & Hq & Hpq & En & Hbr' & Ed & Eb).
        assert (q ∈ l) as Hql by (apply elem_of_cons in Hq as [->|Hq]; [by destruct Hn|done]).
        destruct (shape_ports _ _ Hs q Hql Hpq) as (br2 & Hbr2 & Ed2 & _).
        assert (br' = br2) as -> by (eapply (same_id (p :: l)); [done|done|set_solver|congruence]).
        by exists q, br2.
Qed.

(** A new bridge without members. *)
Lemma registered_bridge l b m :
  shape Bs (b :: l) → shape Bs l → ¬ plugin_port b → tracks l m → tracks (b :: l) m.
Proof.
  intros Hs' Hs Hnb Ht n c. rewrite (Ht n c). split.
  - intros (q & br & Hq & ? & ? & Hbr & ? & ?). exists q, br. set_solver.
  - intros (q & br & Hq & Hpq & En & Hbr & Ed & Eb).
    assert (q ∈ l) as Hql by (apply elem_of_cons in Hq as [->|Hq]; done).
    destruct (shape_ports _ _ Hs q Hql Hpq) as (br2 & Hbr2 & Ed2 & _).
    assert (br = br2) as -> by (eapply (same_id (b :: l)); [done|done|set_solver|congruence]).
    by exists q, br2.
Qed.

(** ** Removal *)

(** Ports [stale] of one interface [dom] are removed, and then perhaps [dom]. *)
Section removal.
Variables (l stale l' : list InterfaceInfo) (dom : Z).
Hypothesis Hshape : shape Bs l.
Hypothesis Hstale : ∀ p, p ∈ stale → p ∈ l ∧ plugin_port p ∧ if_Domain p = dom.
Hypothesis Hdom : ∀ br, br ∈ l → if_ID br = dom → ¬ plugin_port br.
Hypothesis Hl' : l' = minus stale l ∨ l' = collect dom (minus stale l).

Lemma removal_sublist : sublist l' l.
Proof.
  assert (sublist (minus stale l) l) as Hm by apply sublist_filter.
  destruct Hl' as [->| ->]; [done|]. unfold collect. case_decide; [|done].
  etrans; [apply sublist_filter|done].
Qed.

Lemma removal_elem i : i ∈ l' → i ∈ l ∧ i ∉ stale.
Proof.
  assert (i ∈ minus stale l → i ∈ l ∧ i ∉ stale) as Hm.
  { unfold minus. rewrite list_elem_of_filter. naive_solver. }
  destruct Hl' as [->| ->]; [done|]. intros Hi%collect_subset. by apply Hm.
Qed.

Lemma removal_kept i :
  i ∈ l → i ∉ stale → i ∈ l' ∨ (if_ID i = dom ∧ ∀ q, q ∈ l → q ∉ stale → if_Domain q ≠ dom).
Proof.
  intros Hi Hn. assert (i ∈ minus stale l) as Him by (unfold minus; rewrite list_elem_of_filter; done).
  destruct Hl' as [->| ->]; [by left|]. unfold collect. case_decide as He; [|by left].
  destruct (decide (if_ID i = dom)) as [E|E].
  - right. split; [done|]. intros q Hq Hqn. apply He. unfold minus. rewrite list_elem_of_filter. done.
  - left. rewrite elem_of_without. done.
Qed.

(** What stays of a port that is not removed: the port and its interface. *)
Lemma removal_port p :
  p ∈ l → plugin_port p → p ∉ stale →
  p ∈ l' ∧ ∃ br, br ∈ l' ∧ br ∈ l ∧ if_ID br = if_Domain p ∧ ¬ plugin_port br.
Proof.
  intros Hp Hpp Hn. destruct (shape_ports _ _ Hshape p Hp Hpp) as (br & Hbr & Ed & Hnb). split.
  - destruct (removal_kept p Hp Hn) as [?|[E _]]; [done|]. by destruct (Hdom p Hp E).
  - exists br. split_and!; [|done..].
    destruct (removal_kept br Hbr) as [?|[E Hno]]; [|done|].
    + intros Hs. by apply Hstale in Hs as (_ & ? & _).
    + exfalso. apply (Hno p Hp Hn). by rewrite <-Ed.
Qed.

Lemma removal_shape : shape Bs l'.
Proof.
  split.
  - eapply sublist_NoDup; [apply (shape_ids _ _ Hshape)|]. apply fmap_sublist, removal_sublist.
  - eapply sublist_NoDup; [apply (shape_names _ _ Hshape)|]. apply fmap_sublist, removal_sublist.
  - intros p [Hp Hn]%removal_elem Hpp. destruct (removal_port p Hp Hpp Hn) as (_ & br & ? & _ & ? & ?). by exists br.
  - intros br [Hbr _]%removal_elem. by apply (shape_bridges _ _ Hshape).
Qed.

Lemma removal_registered n b :
  registered l' n b ↔ registered l n b ∧ n ∉ if_Name <$> stale.
Proof.
  split.
  - intros (p & br & Hp & Hpp & En & Hbr & Ed & Eb).
    apply removal_elem in Hp as [Hp Hn], Hbr as [Hbr _]. split; [by exists p, br|].
    intros (q & -> & Hq)%list_elem_of_fmap. apply Hn. destruct (Hstale q Hq) as (Hql & _).
    by rewrite (same_name l p q Hshape Hp Hql En).
  - intros [(p & br & Hp & Hpp & <- & Hbr & Ed & Eb) Hn].
    assert (p ∉ stale) as Hns by (intros Hs; by apply Hn, list_elem_of_fmap_2).
    destruct (removal_port p Hp Hpp Hns) as (Hp' & br2 & Hbr2 & Hbr2l & Ed2 & _).
    rewrite (same_id l br br2 Hshape Hbr Hbr2l) in Eb by congruence. by exists p, br2.
Qed.
End removal.
End lists.

(** ** The handlers on grout's state *)

Section refinement.
Context `{CniLib} {W} `{!Grout W} `{!GroutLaws W} `{!GroutReliable W}.
Implicit Types w : W.

(** The names of the networks' bridges; none is named like a port. *)
Variable Bs : list gostring.
Hypothesis HBs : ∀ b, b ∈ Bs → HasPrefix b portPrefix = false.

(** The ports of attachments hold no addresses. *)
Definition bare w : Prop := ∀ p, p ∈ ifaces w → plugin_port p → addrs w (if_ID p) = [].

Lemma bare_same w w' : same w w' → bare w → bare w'.
Proof. intros [E A] Hb p. rewrite E, A. apply Hb. Qed.

Lemma env_wf_res o w : valid w → wf_op o → wf_res o (env o w).2.
Proof.
  intros Hv Ho. destruct o; try exact I; simpl in *.
  - destruct r as [ty]. simpl in Ho. subst ty. pose proof (law_list w) as Hl. unfold list_all in Hl.
    intros l El. rewrite (Hl l Hv El). rewrite Forall_forall. intros i Hi. by apply (law_u16 w).
  - intros resp Er. destruct (law_add r w resp Hv Ho Er) as (_ & _ & _ & _ & (d & E & _) & _).
    pose proof (law_valid (GInterfaceAdd r) w Hv Ho) as Hv'.
    assert (mkInterfaceInfo (IfaceID resp) (ia_Type r) (ia_Name r) d ∈ ifaces (env (GInterfaceAdd r) w).1) as Hin
      by (rewrite E; apply list_elem_of_here).
    by apply (law_u16 _ _ Hv' Hin).
Qed.

(** A typed program that assigns no addresses keeps the ports bare. *)
Lemma bare_step o w : valid w → wf_op o → (∀ r, o ≠ GAddressAdd r) → bare w → bare (env o w).1.
Proof.
  intros Hv Ho Hna Hb. destruct (is_mutation o) eqn:Em; [|by eapply bare_same; [apply law_frame|]].
  destruct o; try done; simpl in Ho.
  - pose proof (law_add r w) as Ha. pose proof (law_add_refused r w) as Hr.
    destruct (env (GInterfaceAdd r) w) as [w' [resp|e]]; simpl in *; [|by eapply bare_same; [eapply Hr|]].
    destruct (Ha resp Hv Ho eq_refl) as (_ & _ & Hf & _ & (d & E & _) & A0 & A).
    intros p Hp Hpp. rewrite E in Hp. apply elem_of_cons in Hp as [->|Hp]; [done|].
    rewrite A; [by apply Hb|]. intros E'. apply Hf. rewrite <-E'. by apply list_elem_of_fmap_2.
  - pose proof (law_del r w) as Ha. pose proof (law_del_refused r w) as Hr.
    destruct (env (GInterfaceDel r) w) as [w' [[]|e]]; simpl in *; [|by eapply bare_same; [eapply Hr|]].
    destruct (Ha Hv Ho eq_refl) as (_ & E & A). intros p Hp Hpp. rewrite E in Hp.
    apply elem_of_without in Hp as [Hp _]. rewrite A. by apply Hb.
  - by destruct (Hna r).
  - destruct (law_flush ifaceID w Hv Ho) as (E & A & A0). intros p Hp Hpp. rewrite E in Hp.
    destruct (decide (if_ID p = ifaceID)) as [Eid|Hne]; [|rewrite A by done; by apply Hb].
    rewrite Eid. apply A0, rel_flush; [done|]. rewrite <-Eid. by apply list_elem_of_fmap_2.
Qed.

Lemma run_twp {A} (p : cni A) w (Q : A → Prop) :
  twp p Q → uses_only (S := CniSig) (λ o, ∀ r, o ≠ GAddressAdd r) p → valid w → bare w →
  run p w (λ w' a, valid w' ∧ bare w' ∧ Q a).
Proof.
  revert w. induction p as [a|o k IH]; intros w Hp Hu Hv Hb; [done|].
  destruct Hp as [Ho Hk], Hu as [Hna Hu].
  pose proof (bare_step o w Hv Ho Hna Hb) as Hb'. pose proof (law_valid o w Hv Ho) as Hv'.
  pose proof (env_wf_res o w Hv Ho) as Hr. specialize (IH (env o w).2 (env o w).1). revert IH Hb' Hv' Hr.
  unfold run. simpl. destruct (env o w) as [w' r]. simpl. intros IH Hb' Hv' Hr. apply IH; auto.
Qed.

Lemma run_assign_bare id name gws w :
  valid w → bare w → has_bridge id name (ifaces w) → HasPrefix name portPrefix = false →
  run (assign_gateways id gws) w (λ w' _, valid w' ∧ bare w' ∧ ifaces w' = ifaces w).
Proof.
  intros Hv Hb (br & Hbr & Eid & En) Hnp. destruct (law_u16 w br Hv Hbr) as [Hu _]. rewrite Eid in Hu.
  assert (∀ w', valid w' → bare w' → ifaces w' = ifaces w →
    run (assign_gateways id gws) w' (λ w' _, valid w' ∧ bare w' ∧ ifaces w' = ifaces w)) as Hgen; [|by apply Hgen].
  induction gws as [|gw gws IH]; intros w1 Hv1 Hb1 E1; [done|]. cbn [assign_gateways].
  apply run_bind, run_addr_add; [done|done| |].
  - intros w2 k Hv2 E2 A2 _ _. apply IH; [done| |by rewrite E2].
    intros p Hp Hpp. rewrite E2 in Hp. rewrite A2; [by apply Hb1|]. simpl. intros E.
    rewrite E1 in Hp. assert (p = br) as ->.
    { eapply (NoDup_fmap_inj if_ID); [by apply (law_ids w)|done|done|congruence]. }
    unfold plugin_port in Hpp. rewrite En, Hnp in Hpp. done.
  - intros w2 e Hv2 [E2 A2]. apply run_ret. split_and!; [done|by eapply bare_same|by rewrite E2].
Qed.

Lemma bare_quiet {A} (p : cni A) w : quiet p → valid w → bare w → run p w (λ w' _, valid w' ∧ bare w').
Proof. intros Hp Hv Hb. apply run_quiet; [done|done|]. intros w' a Hv' Hs. split; [done|by eapply bare_same]. Qed.

Lemma add_port_no_assign cfg tap conv bid :
  production_add cfg → uses_only (S := CniSig) (λ o, ∀ r, o ≠ GAddressAdd r) (add_port cfg tap conv bid).
Proof.
  intros (_ & Ed & Em & Ec).
  unfold add_port, add_fail, finish_add, cleanupAfterAddFailure, ipamDel, delegateIPAMDel.
  rewrite Ed, Em, Ec. simpl default.
  footprint; try done; (eapply uses_only_mono; [eauto with footprint|]); by intros [].
Qed.

Lemma run_HandleAdd_bare cfg w :
  production_add cfg → clean_conf (add_Config cfg) → HasPrefix (Bridge (add_Config cfg)) portPrefix = false →
  valid w → bare w → run (HandleAdd cfg) w (λ w' _, valid w' ∧ bare w').
Proof.
  intros Hp Hc Hnp Hv Hb. unfold HandleAdd. apply (run_with_lock _ _ _ (λ w _, bare w)); [|done|done|].
  { intros w1 w2 _. apply bare_same. }
  intros w1 Hv1 Hs1. apply (bare_same w w1) in Hb; [|done]. fold (add_name cfg). destruct (Hp) as (E & _). rewrite E.
  apply run_bind. eapply run_mono.
  { apply bare_quiet; [unfold quiet, delegateIPAMAdd; simpl; footprint; done|done|done]. }
  intros w2 [raw|e] [Hv2 Hb2]; [|done]. destruct (convertResult raw) as [conv|e]; [|done].
  assert (∀ w3 e, valid w3 → bare w3 →
    run (add_fail (A := Result) cfg e) w3 (λ w' _, valid w' ∧ bare w')) as Hfail.
  { intros w3 e Hv3 Hb3. apply bare_quiet; [|done|done]. unfold add_fail. destruct (Hp) as (_ & -> & _).
    unfold quiet, ipamDel, delegateIPAMDel. simpl. footprint; done. }
  unfold add_attach. apply run_bind. eapply run_mono.
  { apply run_and; [by apply run_ensureBridge|]. apply run_twp; [by apply twp_ensureBridge| |done|done].
    eapply uses_only_mono; [apply ensureBridge_footprint|]. by intros o [->| ->]. }
  intros w3 [bid|e] [[Hv3 Hr] (_ & Hb3 & Hu)]; [|by apply Hfail]. destruct Hr as [_ Hhb].
  destruct (gatewaysFor conv) as [gws|]; [|done].
  apply run_bind. eapply run_mono; [by eapply run_assign_bare|]. intros w4 [[]|e] (Hv4 & Hb4 & _); [|by apply Hfail].
  eapply run_mono; [apply run_twp; [by apply twp_add_port; [..|apply Hu]|by apply add_port_no_assign|done|done]|].
  naive_solver.
Qed.

(** The other verbs assign no addresses at all. *)
Lemma no_assign_with_lock {A} sock (body : cni (outcome (result A))) :
  uses_only (S := CniSig) (λ o, ∀ r, o ≠ GAddressAdd r) body →
  uses_only (S := CniSig) (λ o, ∀ r, o ≠ GAddressAdd r) (with_lock sock body).
Proof. intros Hb. unfold with_lock, NewFileLock, FileLock_Lock, FileLock_Unlock, FileLock_Close. footprint; done. Qed.

Lemma gcBridge_no_assign id : uses_only (S := CniSig) (λ o, ∀ r, o ≠ GAddressAdd r) (gcBridgeIfEmpty id).
Proof. eapply uses_only_mono; [apply gcBridge_footprint|]. by intros o [->|[->| ->]]. Qed.

Lemma run_HandleDel_bare cfg w :
  production_del cfg → valid w → bare w → run (HandleDel cfg) w (λ w' _, valid w' ∧ bare w').
Proof.
  intros Hp Hv Hb. eapply run_mono; [apply run_twp; [by apply twp_HandleDel| |done|done]|naive_solver].
  destruct Hp as [E _]. apply no_assign_with_lock. rewrite E.
  unfold ipamDel, delegateIPAMDel, removeVhostSocket. simpl default. footprint; try done. apply gcBridge_no_assign.
Qed.

Lemma run_HandleGC_bare cfg w :
  production_gc cfg → valid w → bare w → run (HandleGC cfg) w (λ w' _, valid w' ∧ bare w').
Proof.
  intros Hp Hv Hb. eapply run_mono; [apply run_twp; [by apply twp_HandleGC| |done|done]|naive_solver].
  apply no_assign_with_lock. rewrite Hp. unfold gcIPAM, delegateIPAMGC. simpl default. footprint; try done.
  - eapply uses_only_mono; [apply reap_footprint|]. by intros o (i & _ & _ & [->| ->]).
  - apply gcBridge_no_assign.
Qed.

(** ** The refinement, verb by verb *)

Record node w : Prop := {
  node_valid : valid w;
  node_bare : bare w;
  node_shape : shape Bs (ifaces w) }.

Lemma only_bridge_shape name l l' m :
  name ∈ Bs → only_bridge name l l' → NoDup (if_ID <$> l') → NoDup (if_Name <$> l') → shape Bs l → tracks l m → shape Bs l' ∧ tracks l' m.
Proof.
  intros Hin [E|(b & Hty & En & _ & _ & E)] Hids Hnames Hs Ht; [by rewrite E|]. rewrite E in *.
  pose proof (HBs name Hin) as Hnp.
  assert (¬ plugin_port b) as Hnb by (unfold plugin_port; by rewrite En, Hnp).
  assert (shape Bs (b :: l)) as Hs'.
  { split; [done|done| |].
    - intros p [->|Hp]%elem_of_cons Hpp; [done|]. destruct (shape_ports _ _ Hs p Hp Hpp) as (br & ? & ? & ?).
      exists br. split; [by apply list_elem_of_further|done].
    - intros br [->|Hbr]%elem_of_cons Hn; [done|]. by apply (shape_bridges _ _ Hs). }
  split; [done|]. by eapply registered_bridge.
Qed.

Lemma port_shape l p br :
  NoDup (if_ID <$> p :: l) → NoDup (if_Name <$> p :: l) → shape Bs l → plugin_port p →
  br ∈ l → if_ID br = if_Domain p → ¬ plugin_port br → shape Bs (p :: l).
Proof.
  intros Hids Hnames Hs Hpp Hbr Ed Hnb. split; [done|done| |].
  - intros q [->|Hq]%elem_of_cons Hqp; [exists br; split; [by apply list_elem_of_further|done]|].
    destruct (shape_ports _ _ Hs q Hq Hqp) as (br2 & ? & ? & ?). exists br2.
    split; [by apply list_elem_of_further|done].
  - intros q [->|Hq]%elem_of_cons Hn; [|by apply (shape_bridges _ _ Hs)].
    unfold plugin_port in Hpp. by rewrite HBs in Hpp.
Qed.

Lemma add_refines cfg w m :
  production_add cfg → clean_conf (add_Config cfg) → Bridge (add_Config cfg) ∈ Bs → node w → tracks (ifaces w) m →
  run (HandleAdd cfg) w (λ w' out,
    node w' ∧ tracks (ifaces w') (spec (VAdd cfg) (verdict_of out) m) ∧ spec_answer (VAdd cfg) (verdict_of out) m).
Proof.
  intros Hp Hc Hin [Hv Hb Hs] Ht. pose proof (HBs _ Hin) as Hnp.
  eapply run_mono; [apply run_and; [by apply run_HandleAdd|by apply run_HandleAdd_bare]|].
  intros w' out [[Hv' Hst] [_ Hb']]. pose proof (law_ids w' Hv') as Hids. pose proof (law_names w' Hv') as Hnames.
  assert (only_bridge (Bridge (add_Config cfg)) (ifaces w) (ifaces w') →
    node w' ∧ tracks (ifaces w') m) as Hfail.
  { intros Hob. destruct (only_bridge_shape _ _ _ m Hin Hob) as [? ?]; [done..|]. by split. }
  destruct out as [[res|e]|]; simpl in *; [|destruct (Hfail Hst); by split_and!..].
  destruct Hst as (pid & bid & l & gws & Hob & (br & Hbr & Eid & En) & _ & E & _).
  set (p := mkInterfaceInfo pid Types.InterfaceTypeTAP (add_name cfg) bid) in *.
  assert (plugin_port p) as Hpp by apply groutPortName_prefix.
  rewrite E in Hids, Hnames.
  destruct (only_bridge_shape _ _ l m Hin Hob) as [Hsl Htl];
    [by apply NoDup_cons in Hids as []|by apply NoDup_cons in Hnames as []|done|done|].
  assert (¬ plugin_port br) as Hnb by (unfold plugin_port; by rewrite En, Hnp).
  assert (shape Bs (p :: l)) as Hs' by (by apply (port_shape l p br)).
  destruct (registered_add Bs l p br m) as [Hnone Htr]; [done..|].
  rewrite En in Htr. split_and!; [split; [done|done|by rewrite E]|by rewrite E|done].
Qed.

(** The interface of a port is not itself a port of the plugin. *)
Lemma domain_not_port l p br :
  shape Bs l → p ∈ l → plugin_port p → br ∈ l → if_ID br = if_Domain p → ¬ plugin_port br.
Proof.
  intros Hs Hp Hpp Hbr Ed. destruct (shape_ports _ _ Hs p Hp Hpp) as (br2 & Hbr2 & Ed2 & Hnb).
  by rewrite (same_id Bs l br br2 Hs Hbr Hbr2) by congruence.
Qed.

Lemma del_refines cfg w m :
  production_del cfg → node w → tracks (ifaces w) m →
  run (HandleDel cfg) w (λ w' out,
    node w' ∧ tracks (ifaces w') (spec (VDel cfg) (verdict_of out) m) ∧ spec_answer (VDel cfg) (verdict_of out) m).
Proof.
  intros Hp [Hv Hb Hs] Ht. eapply run_mono.
  { apply run_and; [apply run_HandleDel; [done|done|]|by apply run_HandleDel_bare].
    intros p Hf. pose proof (findPortByName_some _ _ _ Hf) as [Hin En]. apply Hb; [done|].
    unfold plugin_port. rewrite En. apply groutPortName_prefix. }
  intros w' out [[Hv' Hst] [_ Hb']]. destruct out as [[[]|e]|]; simpl in *; [|rewrite Hst in *|done];
    [|split_and!; [split; [done|done|by rewrite Hst]|done|done]].
  destruct Hst as [E _]. unfold after_del in E.
  destruct (findPortByName (ifaces w) (del_name cfg)) as [port|] eqn:Ef.
  - pose proof (findPortByName_some _ _ _ Ef) as [Hin En].
    assert (plugin_port port) as Hpp by (unfold plugin_port; rewrite En; apply groutPortName_prefix).
    assert (without (if_ID port) (ifaces w) = minus [port] (ifaces w)) as Em.
    { rewrite <-without_minus; [|apply Hs|done]. unfold minus. symmetry. apply list_filter_all. set_solver. }
    rewrite Em in E. set (l' := if decide _ then _ else _) in E.
    assert (l' = minus [port] (ifaces w) ∨ l' = collect (if_Domain port) (minus [port] (ifaces w))) as Hl'.
    { unfold l'. case_decide; auto. }
    assert (∀ p, p ∈ [port] → p ∈ ifaces w ∧ plugin_port p ∧ if_Domain p = if_Domain port) as Hst
      by (by intros p ->%list_elem_of_singleton).
    assert (∀ br, br ∈ ifaces w → if_ID br = if_Domain port → ¬ plugin_port br) as Hdom
      by (intros br; by apply (domain_not_port (ifaces w))).
    split_and!; [split; [done|done|]| |done].
    + rewrite E. by eapply (removal_shape Bs (ifaces w) [port]).
    + rewrite E. intros n b. rewrite (removal_registered Bs (ifaces w) [port] l' _ Hs Hst Hdom Hl').
      rewrite lookup_delete_Some, (Ht n b). simpl. rewrite list_elem_of_singleton, En. naive_solver.
  - rewrite findPortByName_none in Ef. split_and!; [split; [done|done|by rewrite E]| |done].
    rewrite E. intros n b. rewrite <-(Ht n b), lookup_delete_Some. split; [by intros [_ ?]|].
    intros Hm. split; [|done]. intros <-. apply Ef. apply Ht in Hm as (p & _ & Hin & _ & <- & _).
    by apply list_elem_of_fmap_2.
Qed.

Lemma findBridgeID_found l name :
  findBridgeID l name = None → ∀ br, br ∈ l → if_Name br = name → if_Type br ≠ Types.InterfaceTypeBridge.
Proof.
  induction l as [|i l IH]; simpl; [intros _ br Hbr; by apply not_elem_of_nil in Hbr|].
  case_decide as Hd; [done|]. intros Hn br [->|Hbr]%elem_of_cons Eb Ht; [by destruct Hd|by eapply IH].
Qed.

Lemma gc_refines cfg w m :
  production_gc cfg → Bridge (gc_Config cfg) ∈ Bs → node w → tracks (ifaces w) m →
  run (HandleGC cfg) w (λ w' out,
    node w' ∧ tracks (ifaces w') (spec (VGC cfg) (verdict_of out) m) ∧ spec_answer (VGC cfg) (verdict_of out) m).
Proof.
  intros Hp HinB [Hv Hb Hs] Ht. set (conf := gc_Config cfg) in *. eapply run_mono.
  { apply run_and; [apply run_HandleGC; [done|done|]|by apply run_HandleGC_bare].
    intros id i Hf [Hin (_ & Hpre & _)%is_stale_spec]%stale_ports_elem. by apply Hb. }
  intros w' out [[Hv' Hst] [_ Hb']]. destruct out as [[[]|e]|]; simpl in *; [|rewrite Hst in *|done];
    [|split_and!; [split; [done|done|by rewrite Hst]|done|done]].
  fold conf in Hst. unfold after_gc in Hst.
  assert (ifaces w' ≡ₚ ifaces w → (∀ n, registered (ifaces w) n (Bridge conf) → n ∈ valid_names conf) →
    node w' ∧ tracks (ifaces w')
      (filter (λ nb, ¬ (nb.2 = Bridge conf ∧ nb.1 ∉ valid_names conf)) m)) as Hsame.
  { intros E Hno. split; [split; [done|done|by rewrite E]|]. rewrite E. rewrite map_filter_id; [done|].
    intros n b Hm%Ht [Eb Hn]. simpl in *. subst b. by apply Hn, Hno. }
  destruct (findBridgeID (ifaces w) (Bridge conf)) as [id|] eqn:Ef.
  2:{ destruct (Hsame Hst); [|by split_and!]. intros n (p & br & _ & _ & _ & Hbr & _ & Eb). exfalso.
      apply (findBridgeID_found _ _ Ef br Hbr Eb). apply (shape_bridges _ _ Hs); [done|by rewrite Eb]. }
  destruct (findBridgeID_some _ _ _ Ef) as (br & Hbr & Enbr & _ & Eid).
  set (stale := stale_ports conf id (ifaces w)) in *.
  assert (∀ n, registered (ifaces w) n (Bridge conf) → n ∉ valid_names conf → n ∈ if_Name <$> stale) as Hsome.
  { intros n (p & br2 & Hpin & Hpp & <- & Hbr2 & Ed & Eb) Hn. apply list_elem_of_fmap_2, stale_ports_elem.
    split; [done|]. apply is_stale_spec. split_and!; [|done|done].
    rewrite <-Ed, <-Eid. f_equal. eapply (same_name Bs (ifaces w)); [done..|congruence]. }
  destruct (decide (stale = [])) as [Es|Es].
  { destruct (Hsame Hst); [|by split_and!]. intros n Hr. apply dec_stable. intros Hn.
    specialize (Hsome n Hr Hn). rewrite Es in Hsome. by apply not_elem_of_nil in Hsome. }
  assert (∀ p, p ∈ stale → p ∈ ifaces w ∧ plugin_port p ∧ if_Domain p = id) as Hstale.
  { by intros p [? (? & ? & ?)%is_stale_spec]%stale_ports_elem. }
  destruct stale as [|p0 stale0] eqn:Estale; [done|]. rewrite <-Estale in *.
  assert (∀ br, br ∈ ifaces w → if_ID br = id → ¬ plugin_port br) as Hdom.
  { destruct (Hstale p0) as (? & ? & Ep0); [rewrite Estale; apply list_elem_of_here|].
    intros br'. rewrite <-Ep0. by apply (domain_not_port (ifaces w)). }
  pose proof (removal_registered Bs (ifaces w) stale _ id Hs Hstale Hdom (or_intror eq_refl)) as Hreg.
  pose proof (removal_shape Bs (ifaces w) stale _ id Hs Hstale Hdom (or_intror eq_refl)) as Hshape.
  split_and!; [split; [done|done|by rewrite Hst]| |done].
  rewrite Hst. intros n b. rewrite Hreg, map_lookup_filter_Some, (Ht n b). simpl.
  split; intros [Hr Hn]; (split; [done|]).
  - intros (p & -> & Hps)%list_elem_of_fmap. apply Hn.
    destruct (Hstale p Hps) as (Hpin & Hpp & Edom). apply stale_ports_elem in Hps as [_ (_ & _ & Hnv)%is_stale_spec].
    split; [|done]. destruct Hr as (q & br2 & Hq & _ & Eq & Hbr2 & Ed2 & <-).
    rewrite (same_name Bs (ifaces w) q p Hs Hq Hpin Eq) in Ed2.
    transitivity (if_Name br); [|done]. f_equal. eapply (same_id Bs (ifaces w)); [done..|congruence].
  - intros [-> Hnv]. by apply Hn, Hsome.
Qed.

(** CHECK leaves grout alone, and what it approves of has its port. *)
Lemma run_HandleCheck cfg w :
  production_del cfg → valid w →
  run (HandleCheck cfg) w (λ w' out, valid w' ∧ same w w' ∧
    match out with
    | Returns (Ok _) => del_name cfg ∈ if_Name <$> ifaces w
    | Returns (Err _) => True
    | Panics => False
    end).
Proof.
  intros [_ E] Hv. unfold HandleCheck.
  apply (run_with_lock _ _ _ (λ w' out, same w w' ∧ match out with
    | Returns (Ok _) => del_name cfg ∈ if_Name <$> ifaces w | Returns (Err _) => True | Panics => False end));
    [|done|by intros e; split; [apply same_refl|]|].
  { intros w1 w2 a Hs [Hs1 Ha]. split; [by eapply same_trans|done]. }
  intros w1 Hv1 Hs1. fold (del_name cfg). rewrite E. simpl default. destruct (Hs1) as [E1 _].
  apply run_bind, run_list; [done| |].
  2:{ intros w2 e Hv2 Hs2. apply run_ret. split; [done|]. split; [by eapply same_trans|done]. }
  intros w2 Hv2 Hs2. assert (same w w2) as Hs by (by eapply same_trans). rewrite E1.
  destruct (findPortByName (ifaces w) (del_name cfg)) as [port|] eqn:Ef; [|by apply run_ret].
  assert (del_name cfg ∈ if_Name <$> ifaces w) as Hin.
  { apply findPortByName_some in Ef as [? <-]. by apply list_elem_of_fmap_2. }
  destruct (is_virtio _).
  { apply run_bind, run_quiet; [unfold quiet, fileExists; footprint; done|done|].
    intros w3 present Hv3 Hs3. apply run_ret. split; [done|]. split; [by eapply same_trans|by destruct present]. }
  case_decide; [by apply run_ret|].
  destruct (expectedPodIPs _) as [ips|e]; [|by apply run_ret].
  apply run_bind, run_quiet; [|done|].
  { eapply uses_only_mono; [apply verifyPod_footprint|]. by intros []. }
  intros w3 r Hv3 Hs3. apply run_ret. split; [done|]. split; [by eapply same_trans|by destruct r].
Qed.

Lemma check_refines cfg w m :
  production_del cfg → node w → tracks (ifaces w) m →
  run (HandleCheck cfg) w (λ w' out,
    node w' ∧ tracks (ifaces w') (spec (VCheck cfg) (verdict_of out) m) ∧ spec_answer (VCheck cfg) (verdict_of out) m).
Proof.
  intros Hp [Hv Hb Hs] Ht. eapply run_mono; [by apply run_HandleCheck|].
  intros w' out (Hv' & Hsame & Hout). pose proof (bare_same _ _ Hsame Hb) as Hb'. destruct Hsame as [E _].
  assert (node w') as Hn by (split; [done|done|by rewrite E]).
  destruct out as [[[]|e]|]; simpl in *; [|by rewrite E|done].
  split_and!; [done|by rewrite E|]. apply list_elem_of_fmap in Hout as (p & En & Hin).
  assert (plugin_port p) as Hpp by (unfold plugin_port; rewrite <-En; apply groutPortName_prefix).
  destruct (shape_ports _ _ Hs p Hin Hpp) as (br & Hbr & Ed & _).
  exists (if_Name br). apply Ht. by exists p, br.
Qed.

(** A verb on a node that holds the registry [m]. *)
Definition implements (v : verb) (w : W) (m : registry) : Prop :=
  run (run_verb v) w (λ w' a, node w' ∧ tracks (ifaces w') (spec v a m) ∧ spec_answer v a m).

Lemma verb_implements v w m :
  production v → clean_conf (verb_conf v) → Bridge (verb_conf v) ∈ Bs → node w → tracks (ifaces w) m →
  implements v w m.
Proof.
  intros Hp Hc Hin Hn Ht. unfold implements.
  destruct v as [cfg|cfg|cfg|cfg]; apply run_bind; cbn [production verb_conf] in *;
    (eapply run_mono; [|intros w' out Hout; apply run_ret; exact Hout]);
    [by apply add_refines|by apply del_refines|by apply check_refines|by apply gc_refines].
Qed.
End refinement.

(** ** A call run alone

    The world of a call run alone is a grout too: the lock's operations leave
    it as it is. *)

Section alone.
Context `{CniLib} {W} `{!Grout W} `{!GroutLaws W} `{!GroutReliable W}.

#[local] Instance alone_grout : Grout (W * bool) := {|
  env := alone env;
  valid w := valid w.1;
  ifaces w := ifaces w.1;
  addrs w := addrs w.1 |}.

(** Grout answers its operations; the others leave it alone, or are answered by
    the world. *)
Lemma alone_grout_op o (w : W * bool) :
  is_grout o = true → (alone env o w).1.1 = (env o w.1).1 ∧ (alone env o w).2 = (env o w.1).2.
Proof. destruct o; try done; intros _; simpl; by destruct (env _ w.1). Qed.

Lemma alone_world o (w : W * bool) :
  (alone env o w).1.1 = (env o w.1).1 ∨ (alone env o w).1.1 = w.1.
Proof. destruct o; simpl; repeat case_match; auto. Qed.

#[local] Instance alone_laws : GroutLaws (W * bool).
Proof.
  split; cbn [env valid ifaces addrs alone_grout].
  - intros w. apply law_names.
  - intros w. apply law_ids.
  - intros w i. apply law_u16.
  - intros w i. apply law_nonzero.
  - intros o w Hv Ho. destruct (alone_world o w) as [->| ->]; [by apply law_valid|done].
  - intros o w Hv Ho Hm. unfold same. cbn [env ifaces addrs alone_grout].
    destruct (alone_world o w) as [->| ->]; [exact (law_frame o w.1 Hv Ho Hm)|done].
  - intros w l Hv Hl. destruct (alone_grout_op list_all w) as [_ E]; [done|].
    apply (law_list w.1 l Hv). rewrite <-Hl. symmetry. exact E.
  - intros req w e Hv Hr He. unfold same. cbn [env ifaces addrs alone_grout] in *.
    destruct (alone_grout_op (GInterfaceAdd req) w) as [-> E]; [done|]. rewrite E in He. by eapply law_add_refused.
  - intros req w e Hv Hr He. unfold same. cbn [env ifaces addrs alone_grout] in *.
    destruct (alone_grout_op (GInterfaceDel req) w) as [-> E]; [done|]. rewrite E in He. by eapply law_del_refused.
  - intros req w e Hv Hr He. unfold same. cbn [env ifaces addrs alone_grout] in *.
    destruct (alone_grout_op (GAddressAdd req) w) as [-> E]; [done|]. rewrite E in He. by eapply law_addr_refused.
  - intros req w resp Hv Hr He.
    destruct (alone_grout_op (GInterfaceAdd req) w) as [-> E]; [done|]. rewrite E in He. by apply law_add.
  - intros req w Hv Hr He.
    destruct (alone_grout_op (GInterfaceDel req) w) as [-> E]; [done|]. rewrite E in He. by apply law_del.
  - intros req w Hv Hr He.
    destruct (alone_grout_op (GAddressAdd req) w) as [-> E]; [done|]. rewrite E in He. by apply law_addr.
  - intros id w Hv Hr.
    destruct (alone_grout_op (GAddressFlush id) w) as [-> ->]; [done|]. by apply law_flush.
Qed.

#[local] Instance alone_reliable : GroutReliable (W * bool).
Proof.
  split; cbn [env valid ifaces addrs alone_grout].
  - intros w Hv. destruct (rel_list w.1 Hv) as [l Hl]. exists l.
    destruct (alone_grout_op list_all w) as [_ E]; [done|]. etrans; [exact E|done].
  - intros id w Hv Hin. destruct (alone_grout_op (GAddressFlush id) w) as [_ E]; [done|].
    etrans; [exact E|]. by apply rel_flush.
  - intros r w Hv Hin Ha. destruct (alone_grout_op (GInterfaceDel r) w) as [_ E]; [done|].
    etrans; [exact E|]. by apply rel_del.
Qed.

Variable Bs : list gostring.
Hypothesis HBs : ∀ b, b ∈ Bs → HasPrefix b portPrefix = false.

(** The calls of a well-configured node. *)
Definition well_configured (v : verb) : Prop :=
  production v ∧ clean_conf (verb_conf v) ∧ Bridge (verb_conf v) ∈ Bs.

Lemma run_alone_implements v (w : W) m :
  well_configured v → node Bs w → tracks (ifaces w) m →
  let '(w', a) := run_alone env v w in
  node Bs w' ∧ tracks (ifaces w') (spec v a m) ∧ spec_answer v a m.
Proof.
  intros (Hp & Hc & Hin) [Hv Hb Hs] Ht.
  assert (node (W := W * bool) Bs (w, false)) as Hn by (by split).
  pose proof (verb_implements (W := W * bool) Bs HBs v (w, false) m Hp Hc Hin Hn Ht) as Hi.
  unfold implements, run in Hi. unfold run_alone. change (@env _ (W * bool) alone_grout) with (alone (W := W) env) in Hi.
  destruct (interp (alone env) (run_verb v) (w, false)) as [[w' b] a].
  destruct Hi as ([Hv' Hb' Hs'] & Ht' & Ha). by split_and!.
Qed.

(** A history of the registry: calls of [vs] with the verdicts they gave. *)
Inductive spec_run (vs : list verb) : registry → list (nat * verdict) → registry → Prop :=
| spec_run_nil m : spec_run vs m [] m
| spec_run_call m i v a t m' :
    vs !! i = Some v → spec_answer v a m → spec_run vs (spec v a m) t m' → spec_run vs m ((i, a) :: t) m'.

Lemma serial_implements vs order : ∀ (w : W) m,
  (∀ v, v ∈ vs → well_configured v) → (∀ i, i ∈ order → (i < length vs)%nat) →
  node Bs w → tracks (ifaces w) m →
  ∃ t m', t.*1 = order ∧ spec_run vs m t m' ∧
    node Bs (serial env vs w order) ∧ tracks (ifaces (serial env vs w order)) m' ∧
    ∀ i a, served env vs w order i a → (i, a) ∈ t.
Proof.
  induction order as [|i order IH]; intros w m Hvs Hlt Hn Ht.
  { exists [], m. split_and!; [done|constructor|done|done|]. by intros i a ([|??] & ? & ? & ? & _). }
  destruct (lookup_lt_is_Some_2 vs i) as [v Hv]; [by apply Hlt, list_elem_of_here|].
  assert (v ∈ vs) as Hin by (by eapply list_elem_of_lookup_2).
  pose proof (run_alone_implements v w m (Hvs v Hin) Hn Ht) as Hi. destruct (run_alone env v w) as [w' a] eqn:Ea.
  destruct Hi as (Hn' & Ht' & Ha).
  destruct (IH w' (spec v a m) Hvs) as (t & m' & Et & Hr & Hns & Hts & Hserved); [|done|done|].
  { intros j Hj. by apply Hlt, list_elem_of_further. }
  assert (∀ o, serial env vs w (i :: o) = serial env vs w' o) as Es.
  { intros o. unfold serial. simpl. rewrite Hv. simpl. by rewrite Ea. }
  exists ((i, a) :: t), m'. rewrite Es. split_and!; [by simpl; f_equal|by eapply spec_run_call|done|done|].
  intros j b (before & after & v' & Eo & Hv' & ->). destruct before as [|j' before]; simplify_eq/=.
  - unfold serial. simpl. rewrite Ea. apply list_elem_of_here.
  - apply list_elem_of_further, Hserved. exists before, after, v'. split_and!; [done|done|]. by rewrite Es.
Qed.

(** C12: The plugin implements the registry of attachments.  On a node whose
    interfaces hold the registry [m], any call of the installed binary ends with
    the interfaces holding exactly the registry the specification gives for the
    call and its verdict: a successful ADD has entered its attachment, which was
    not in it before, under its network's bridge; a successful DEL has removed it; a
    successful GC has removed those of its network that the runtime does not
    list and no others; a CHECK that succeeds found its attachment; and a
    failed call has changed nothing.  Only ADD can crash. *)
Theorem verbs_refine_registry v (w : W) m :
  well_configured v → node Bs w → tracks (ifaces w) m → implements Bs v w m.
Proof. intros (? & ? & ?). by apply verb_implements. Qed.

(** C4: The registry stays consistent under concurrency.  For any number of
    calls of the installed binary for one grout socket on such a node, each of
    which locks the file that it has opened, in any interleaving of their
    operations: whenever no process is in its critical section, grout's interfaces
    hold the registry that some history of the specification ends with, which has
    each call at most once; every call that has ended is in it with the verdict
    it returned, or returned an error without having changed anything. *)
Theorem interleaved_registry path vs (w0 : W) m0 s :
  (∀ v, v ∈ vs → well_configured v ∧ lockPathForSocket (GroutSocketPath (verb_conf v)) = path) →
  node Bs w0 → tracks (ifaces w0) m0 →
  freachable env vs w0 s → (∀ i, inside (fbase s) i = false) →
  ∃ t m, NoDup t.*1 ∧ spec_run vs m0 t m ∧ node Bs (fworld s) ∧ tracks (ifaces (fworld s)) m ∧
    ∀ i a w, fprocs (fbase s) !! i = Some (Ret a, w) → (i, a) ∈ t ∨ (i ∉ t.*1 ∧ a = Errored).
Proof.
  intros Hvs Hn Ht Hr Hfree.
  destruct (freachable_serialized env path vs w0 s) as (order & Hnd & Hlt & Ew & Hend); [|done|done|].
  { intros v Hv. destruct (Hvs v Hv) as [[? _] ?]. done. }
  destruct (serial_implements vs order w0 m0) as (t & m & Et & Hrun & Hn' & Ht' & Hserved);
    [by intros v [? _]%Hvs|done..|].
  simpl in Ew. exists t, m. rewrite Et, Ew. split_and!; [done..|]. intros i a w Hp.
  destruct (Hend i a) as [Hs|Hs]; [by simpl; rewrite list_lookup_fmap, Hp|left; by apply Hserved|by right].
Qed.
End alone.
