(* ===== verification/EndToEnd.v ===== *)
(** * EndToEnd: the handlers over the wire

    The handlers are specified against a world that satisfies the laws of World;
    the client is specified against a server that answers decoded requests
    (GroutApi).  Here the two meet: [GroutDaemon] states the laws of a grout
    daemon at the level of the requests it decodes and the answers it sends,
    and a client connected to such a daemon, with an operating system that may
    do anything, is shown to be a world that satisfies the laws.  So what the
    theorems of World say of ADD, DEL and GC holds for the bytes exchanged on
    the socket. *)

From S2P Require Import Prelude Bytes Protocol NetIP Types GoLib Client Socket Wire GroutApi Cni PortName.
From S2P Require Import Config Lock Netns Handler HandlerFacts Main Serial Ledger Runs World.
From Stdlib Require Import Lia ZArith.
Open Scope Z_scope.
#[local] Opaque groutPortName.

(** ** A grout daemon *)

Class GroutDaemon (T : Type) `{GroutServer T} := {
  d_valid : T → Prop;
  d_ifaces : T → list InterfaceInfo;
  d_addrs : T → Z → list (bool * IP * Z)
}.

Section daemon_laws.
Context {T} `{!GroutServer T} `{!GroutDaemon T}.

Definition d_same (s s' : T) : Prop := d_ifaces s' = d_ifaces s ∧ ∀ id, d_addrs s' id = d_addrs s id.

(** One response: a status and a payload. *)
Definition one_answer (s : T) (r : wire_req) (s' : T) (st : Z) (rp : list byte) : Prop :=
  gserve s r = (s', [(st, rp)]) ∧ is_u32 st ∧ fits rp ∧ d_valid s'.

Class GroutDaemonLaws := {
  d_names s : d_valid s → NoDup (if_Name <$> d_ifaces s);
  d_ids s : d_valid s → NoDup (if_ID <$> d_ifaces s);
  d_u16 s i : d_valid s → i ∈ d_ifaces s → is_u16 (if_ID i) ∧ is_u16 (if_Domain i) ∧ if_ID i ≠ 0;
  (* the handshake is accepted *)
  d_hello s : d_valid s → ∃ s' rp,
    one_answer s (WHello apiVersion (str "grout-k-cni")) s' 0 rp ∧ d_same s s';
  (* the list of all interfaces is streamed, one entry per interface *)
  d_list s : d_valid s → ∃ s' items,
    gserve s (WIfaceList 0) = (s', stream_answers items) ∧ Forall stream_item items ∧
    omap decode_iface items = d_ifaces s ∧ d_valid s' ∧ d_same s s';
  (* a new interface gets a fresh id, or nothing changes *)
  d_add s req : d_valid s → wf_iface_req req → ∃ s' st rp,
    one_answer s (WIfaceAdd (wire_of req)) s' st rp ∧ (st ≠ 0 → d_same s s') ∧
    (st = 0 → ∃ id d, rp = put_u16 id ∧ is_u16 id ∧ id ≠ 0 ∧ ia_Name req ∉ if_Name <$> d_ifaces s ∧
       id ∉ if_ID <$> d_ifaces s ∧ id ∉ if_Domain <$> d_ifaces s ∧
       d_ifaces s' ≡ₚ mkInterfaceInfo id (ia_Type req) (ia_Name req) d :: d_ifaces s ∧
       (ia_DomainID req ≠ 0 → d = ia_DomainID req) ∧ (ia_DomainID req = 0 → d ∉ if_ID <$> d_ifaces s') ∧
       d_addrs s' id = [] ∧ ∀ id', id' ≠ id → d_addrs s' id' = d_addrs s id');
  (* an interface without addresses is deleted, or nothing changes *)
  d_del s id : d_valid s → is_u16 id → ∃ s' st rp,
    one_answer s (WIfaceDel id) s' st rp ∧ (st ≠ 0 → d_same s s') ∧
    (st = 0 → d_addrs s id = [] ∧ d_ifaces s' ≡ₚ without id (d_ifaces s) ∧ ∀ id', d_addrs s' id' = d_addrs s id') ∧
    (id ∈ if_ID <$> d_ifaces s → d_addrs s id = [] → st = 0);
  d_addr s id v6 ip ones flag : d_valid s → is_u16 id → ∃ s' st rp,
    one_answer s (WAddr false v6 id ip ones flag) s' st rp ∧ (st ≠ 0 → d_same s s') ∧
    (st = 0 → d_ifaces s' = d_ifaces s ∧ (∀ id', id' ≠ id → d_addrs s' id' = d_addrs s id') ∧
       ∀ k, k ∈ d_addrs s' id ↔ k = (v6, ip, ones) ∨ k ∈ d_addrs s id);
  (* a flush removes the addresses of one family *)
  d_flush s v6 id : d_valid s → is_u16 id → ∃ s' st rp,
    one_answer s (WAddrFlush v6 id) s' st rp ∧ d_ifaces s' = d_ifaces s ∧
    (∀ id', id' ≠ id → d_addrs s' id' = d_addrs s id') ∧
    (st = 0 → d_addrs s' id = filter (λ k, k.1.1 = negb v6) (d_addrs s id)) ∧
    (id ∈ if_ID <$> d_ifaces s → st = 0)
}.
End daemon_laws.
Arguments GroutDaemonLaws T {_ _}.

(** ** The client's calls against a daemon *)

Section calls.
Context {T} `{!GroutServer T} `{!GroutDaemon T} `{!GroutDaemonLaws T}.
Implicit Types (s : T) (n : Z) (e : stream_end).

Lemma ip4_payload_u8 id ip ones flag :
  ip4_addr_payload id ip ones flag = ip4_addr_payload id ip (u8 ones) flag.
Proof. unfold ip4_addr_payload, set_byte. simpl le_put. by rewrite z2b_u8. Qed.
Lemma ip6_payload_u8 id ip ones flag :
  ip6_addr_payload id ip ones flag = ip6_addr_payload id ip (u8 ones) flag.
Proof. unfold ip6_addr_payload, set_byte. simpl le_put. by rewrite z2b_u8. Qed.

(** A method leaves the connection ready, with the daemon in a valid state. *)
Definition served {A} (m : est (Client (Socket T)) A) s (Post : T → result A → Prop) : Prop :=
  ∀ n e, ∃ s' n' r, m (ready s n e) = (ready s' n' e, r) ∧ d_valid s' ∧ Post s' r.

Lemma InterfaceList_daemon s :
  d_valid s → served (InterfaceList (mkInterfaceListRequest 0)) s (λ s' r, r = Ok (d_ifaces s) ∧ d_same s s').
Proof.
  intros Hv n e. destruct (d_list s Hv) as (s' & items & Hs & Hitems & <- & Hv' & Hsame).
  exists s', (next n), (Ok (omap decode_iface items)).
  by rewrite (InterfaceList_served 0 s s' n e items).
Qed.

Lemma InterfaceAdd_daemon s req :
  d_valid s → wf_iface_req req →
  served (InterfaceAdd req) s (λ s' r,
    match r with
    | Err _ => d_same s s'
    | Ok resp =>
        let id := IfaceID resp in
        id ≠ 0 ∧ ia_Name req ∉ if_Name <$> d_ifaces s ∧ id ∉ if_ID <$> d_ifaces s ∧
        id ∉ if_Domain <$> d_ifaces s ∧
        (∃ d, d_ifaces s' ≡ₚ mkInterfaceInfo id (ia_Type req) (ia_Name req) d :: d_ifaces s ∧
           (ia_DomainID req ≠ 0 → d = ia_DomainID req) ∧ (ia_DomainID req = 0 → d ∉ if_ID <$> d_ifaces s')) ∧
        d_addrs s' id = [] ∧ ∀ id', id' ≠ id → d_addrs s' id' = d_addrs s id'
    end).
Proof.
  intros Hv Hwf n e. destruct (iface_encodable req) eqn:Henc.
  - destruct (d_add s req Hv Hwf) as (s' & st & rp & (Hs & Hst & Hfit & Hv') & Herr & Hok).
    destruct (InterfaceAdd_served req s s' n e st rp Hwf Henc Hst Hfit Hs) as [f Hf].
    eexists s', (next n), _. split; [exact Hf|]. split; [done|]. unfold status_result.
    destruct (decide (st = 0)) as [->|Hne]; [|rewrite decide_True by done; by apply Herr].
    rewrite decide_False by auto. destruct (Hok eq_refl) as (id & d & -> & Hid & Hrest).
    rewrite decide_True by (simpl; lia). unfold decode_iface_id.
    rewrite decide_False by (simpl; lia).
    assert (get_u16 0 (put_u16 id) = id) as -> by (by apply le_get_put_u16). simpl.
    destruct Hrest as (? & ? & ? & ? & ? & ? & ? & ? & ?). split_and!; try done. by exists d.
  - exists s, n. destruct (api_refused_add req (ready s n e) Henc) as [err Herr]. exists (Err err). done.
Qed.

Lemma InterfaceDel_daemon s r :
  d_valid s → is_u16 (id_IfaceID r) →
  served (InterfaceDel r) s (λ s' x,
    let id := id_IfaceID r in
    match x with
    | Err _ => d_same s s'
    | Ok _ => d_addrs s id = [] ∧ d_ifaces s' ≡ₚ without id (d_ifaces s) ∧ ∀ id', d_addrs s' id' = d_addrs s id'
    end ∧ (id ∈ if_ID <$> d_ifaces s → d_addrs s id = [] → x = Ok tt)).
Proof.
  intros Hv Hid n e. destruct (d_del s (id_IfaceID r) Hv Hid) as (s' & st & rp & (Hs & Hst & Hfit & Hv') & Herr & Hok & Hrel).
  pose proof (api_call_served (ApiInterfaceDel r) (WIfaceDel (id_IfaceID r)) s s' n e st rp) as Hf.
  specialize (Hf Hid eq_refl Hst Hfit Hs).
  eexists s', (next n), _. split; [exact Hf|]. split; [done|]. unfold status_result.
  destruct (decide (st = 0)) as [->|Hne].
  - rewrite decide_False by auto. simpl. split; [by apply Hok|done].
  - rewrite decide_True by done. simpl. split; [by apply Herr|]. intros Hin Ha. by destruct (Hne (Hrel Hin Ha)).
Qed.

Lemma AddressAdd_daemon s r :
  d_valid s → is_u16 (aa_IfaceID r) →
  served (AddressAdd r) s (λ s' x,
    match x with
    | Err _ => d_same s s'
    | Ok _ => d_ifaces s' = d_ifaces s ∧ (∀ id', id' ≠ aa_IfaceID r → d_addrs s' id' = d_addrs s id') ∧
        ∃ k, addr_key (aa_Address r) = Some k ∧
          ∀ k', k' ∈ d_addrs s' (aa_IfaceID r) ↔ k' = k ∨ k' ∈ d_addrs s (aa_IfaceID r)
    end).
Proof.
  intros Hv Hid n e.
  assert (∀ v6 ip f, addr_key (aa_Address r) = Some (v6, ip, u8 (Mask_Size (IPNet_Mask (aa_Address r)))) →
    (∀ s' st rp, is_u32 st → fits rp → 
       gserve s (WAddr false v6 (aa_IfaceID r) ip (u8 (Mask_Size (IPNet_Mask (aa_Address r)))) (aa_ExistOK r)) = (s', [(st, rp)]) →
       AddressAdd r (ready s n e) = (ready s' (next n) e, map_err f (status_result st (Ok tt)))) →
    ∃ s' n' x, AddressAdd r (ready s n e) = (ready s' n' e, x) ∧ d_valid s' ∧
      match x with
      | Err _ => d_same s s'
      | Ok _ => d_ifaces s' = d_ifaces s ∧ (∀ id', id' ≠ aa_IfaceID r → d_addrs s' id' = d_addrs s id') ∧
          ∃ k, addr_key (aa_Address r) = Some k ∧
            ∀ k', k' ∈ d_addrs s' (aa_IfaceID r) ↔ k' = k ∨ k' ∈ d_addrs s (aa_IfaceID r)
      end) as Hgen.
  { intros v6 ip f Hk Hserved.
    destruct (d_addr s (aa_IfaceID r) v6 ip (u8 (Mask_Size (IPNet_Mask (aa_Address r)))) (aa_ExistOK r) Hv Hid)
      as (s' & st & rp & (Hs & Hst & Hfit & Hv') & Herr & Hok).
    eexists s', (next n), _. split; [by apply (Hserved s' st rp)|]. split; [done|]. unfold status_result.
    destruct (decide (st = 0)) as [->|Hne].
    - rewrite decide_False by auto. simpl. destruct (Hok eq_refl) as (? & ? & ?). split_and!; [done..|]. by eexists.
    - rewrite decide_True by done. by apply Herr. }
  pose proof (Z.mod_pos_bound (Mask_Size (IPNet_Mask (aa_Address r))) 256 ltac:(lia)) as Hu8.
  unfold addr_key in *. unfold AddressAdd in *.
  destruct (To4 (IPNet_IP (aa_Address r))) as [ip4|] eqn:E4.
  - apply To4_length in E4. eapply (Hgen false ip4); [done|]. intros s' st rp Hst Hfit Hs.
    rewrite ip4_payload_u8.
    assert (decode_request TypeIP4AddrAdd (ip4_addr_payload (aa_IfaceID r) ip4
      (u8 (Mask_Size (IPNet_Mask (aa_Address r)))) (aa_ExistOK r)) =
      Some (WAddr false false (aa_IfaceID r) ip4 (u8 (Mask_Size (IPNet_Mask (aa_Address r)))) (aa_ExistOK r))) as Hd
      by (by apply (decode_ip4_addr false)).
    eapply sent_served; [exact Hd|by eapply decode_request_small|done|done|done].
  - destruct (To16 (IPNet_IP (aa_Address r))) as [ip6|] eqn:E6; [|by eexists s, n, _].
    apply To16_length in E6. eapply (Hgen true ip6); [done|]. intros s' st rp Hst Hfit Hs.
    rewrite ip6_payload_u8.
    assert (decode_request TypeIP6AddrAdd (ip6_addr_payload (aa_IfaceID r) ip6
      (u8 (Mask_Size (IPNet_Mask (aa_Address r)))) (aa_ExistOK r)) =
      Some (WAddr false true (aa_IfaceID r) ip6 (u8 (Mask_Size (IPNet_Mask (aa_Address r)))) (aa_ExistOK r))) as Hd
      by (by apply (decode_ip6_addr false)).
    eapply sent_served; [exact Hd|by eapply decode_request_small|done|done|done].
Qed.

Lemma filter_families (l : list (bool * IP * Z)) :
  filter (λ k, k.1.1 = negb true) (filter (λ k, k.1.1 = negb false) l) = [].
Proof.
  rewrite list_filter_filter. apply list_filter_none. intros [[v ip] p] _. simpl. by intros [-> ?].
Qed.

Lemma AddressFlush_daemon s id :
  d_valid s → is_u16 id →
  served (AddressFlush id) s (λ s' x,
    d_ifaces s' = d_ifaces s ∧ (∀ id', id' ≠ id → d_addrs s' id' = d_addrs s id') ∧
    (x = Ok tt → d_addrs s' id = []) ∧ (id ∈ if_ID <$> d_ifaces s → x = Ok tt)).
Proof.
  intros Hv Hid n e. unfold AddressFlush.
  pose proof (decode_addr_flush false id Hid) as Hd4. pose proof (decode_addr_flush true id Hid) as Hd6.
  cbv iota in Hd4, Hd6.
  destruct (d_flush s false id Hv Hid) as (s1 & st & rp & (Hs & Hst & Hfit & Hv1) & E1 & F1 & Hok1 & Hrel1).
  rewrite est_bind_eq.
  rewrite (sent_served s s1 n e TypeIP4AddrFlush _ (WAddrFlush false id) _ st rp) by
    (done || by eapply decode_request_small).
  unfold status_result at 1. destruct (decide (st = 0)) as [->|Hne].
  2:{ rewrite decide_True by done. eexists s1, (next n), _. split; [done|]. split; [done|]. simpl.
      split_and!; [done|done|done|]. intros Hin. by destruct (Hne (Hrel1 Hin)). }
  rewrite decide_False by auto. simpl map_err. cbv iota.
  destruct (d_flush s1 true id Hv1 Hid) as (s2 & st2 & rp2 & (Hs2 & Hst2 & Hfit2 & Hv2) & E2 & F2 & Hok2 & Hrel2).
  rewrite (sent_served s1 s2 (next n) e TypeIP6AddrFlush _ (WAddrFlush true id) _ st2 rp2) by
    (done || by eapply decode_request_small).
  eexists s2, (next (next n)), _. split; [done|]. split; [done|]. split_and!.
  - by rewrite E2.
  - intros id' Hne. by rewrite F2, F1.
  - unfold status_result. destruct (decide (st2 = 0)) as [->|Hne]; [|by rewrite decide_True].
    intros _. rewrite Hok2, Hok1 by done. apply filter_families.
  - intros Hin. unfold status_result. rewrite decide_False; [done|]. intros Hne. apply Hne, Hrel2. by rewrite E1.
Qed.
End calls.

(** ** The linked world *)

Section link.
Context `{CniLib} {T} `{!GroutServer T} `{!GroutDaemon T} `{!GroutDaemonLaws T} {W : Type}.
Variable base : handler CniSig W.

Definition daemon_of (c : Client (Socket T)) : T := sk_srv (c_peer (cl_conn c)).

Definition linked_valid (x : Client (Socket T) * W) : Prop :=
  ∃ s n e, x.1 = ready s n e ∧ d_valid s.

Definition linked_world : Grout (Client (Socket T) * W) := {|
  env := linked base;
  valid := linked_valid;
  ifaces x := d_ifaces (daemon_of x.1);
  addrs x := d_addrs (daemon_of x.1)
|}.

(** A method, seen as an operation of the linked world. *)
Lemma method_served {A} (m : est (Client (Socket T)) A) s n e (w : W) Post :
  served m s Post →
  ∃ s' n' r, method m (ready s n e, w) = (ready s' n' e, w, r) ∧ d_valid s' ∧ Post s' r.
Proof.
  intros Hm. destruct (Hm n e) as (s' & n' & r & E & Hv & HP).
  exists s', n', r. split; [|done]. unfold method. simpl. by rewrite E.
Qed.

#[local] Existing Instance linked_world.

Lemma linked_other o (x : Client (Socket T) * W) : is_grout o = false → (link_env base o x).1.1 = x.1.
Proof. intros Ho. destruct x as [c w]. destruct o; try done; simpl; by destruct (base _ w). Qed.

Ltac at_ready :=
  match goal with
  | Hv : linked_valid ?x |- _ =>
      let c := fresh "c" in let w := fresh "w" in
      destruct x as [c w]; destruct Hv as (s & n & e & Hr & Hv); simpl in Hr; subst c
  end.

(** The state after an operation, the daemon's state that of a served method. *)
Lemma linked_list s n e w r :
  d_valid s → il_Type r = 0 → ∃ s' n',
  link_env base (GInterfaceList r) (ready s n e, w) = (ready s' n' e, w, Ok (d_ifaces s)) ∧ d_valid s' ∧ d_same s s'.
Proof.
  intros Hv Hr. destruct r as [ty]. simpl in Hr. subst ty.
  destruct (method_served _ s n e w _ (InterfaceList_daemon s Hv)) as (s' & n' & x & E & Hv' & -> & Hs).
  by exists s', n'.
Qed.

Lemma linked_op_valid o x : linked_valid x → wf_op o → linked_valid (link_env base o x).1.
Proof.
  intros Hv Ho. at_ready. destruct (is_grout o) eqn:Eg.
  2:{ exists s, n, e. split; [|done]. by apply (linked_other o). }
  destruct o; try done; simpl in Ho.
  - destruct (linked_list s n e w r Hv Ho) as (s' & n' & -> & Hv' & _). by exists s', n', e.
  - destruct (method_served _ s n e w _ (InterfaceAdd_daemon s r Hv Ho)) as (s' & n' & x & E & Hv' & _).
    simpl. rewrite E. by exists s', n', e.
  - destruct (method_served _ s n e w _ (InterfaceDel_daemon s r Hv Ho)) as (s' & n' & x & E & Hv' & _).
    simpl. rewrite E. by exists s', n', e.
  - destruct (method_served _ s n e w _ (AddressAdd_daemon s r Hv Ho)) as (s' & n' & x & E & Hv' & _).
    simpl. rewrite E. by exists s', n', e.
  - destruct (method_served _ s n e w _ (AddressFlush_daemon s ifaceID Hv Ho)) as (s' & n' & x & E & Hv' & _).
    simpl. rewrite E. by exists s', n', e.
Qed.

Lemma linked_frame o x : linked_valid x → wf_op o → is_mutation o = false → same x (link_env base o x).1.
Proof.
  intros Hv Ho Hm. destruct (is_grout o) eqn:Eg.
  - destruct o; try done; simpl in Ho. at_ready.
    destruct (linked_list s n e w r Hv Ho) as (s' & n' & -> & _ & [Es As]). by split.
  - unfold same. cbn [ifaces addrs linked_world]. by rewrite (linked_other o).
Qed.

Lemma linked_laws : GroutLaws (Client (Socket T) * W).
Proof.
  split; cbn [valid env ifaces addrs linked_world].
  - intros x Hv. at_ready. by apply d_names.
  - intros x Hv. at_ready. by apply d_ids.
  - intros x i Hv Hi. at_ready. by destruct (d_u16 s i Hv Hi) as (? & ? & ?).
  - intros x i Hv Hi. at_ready. by destruct (d_u16 s i Hv Hi) as (? & ? & ?).
  - intros o x. apply linked_op_valid.
  - intros o x. apply linked_frame.
  - intros x l Hv. at_ready. intros Hl.
    destruct (linked_list s n e w (mkInterfaceListRequest 0) Hv eq_refl) as (s' & n' & E & _).
    unfold linked, list_all in Hl. rewrite E in Hl. simpl in Hl. by injection Hl as <-.
  - intros req x err Hv Hwf. at_ready. unfold linked. simpl.
    destruct (method_served _ s n e w _ (InterfaceAdd_daemon s req Hv Hwf)) as (s' & n' & x & -> & _ & HP).
    simpl. by intros ->.
  - intros r x err Hv Hid. at_ready. unfold linked. simpl.
    destruct (method_served _ s n e w _ (InterfaceDel_daemon s r Hv Hid)) as (s' & n' & x & -> & _ & HP & _).
    simpl. by intros ->.
  - intros r x err Hv Hid. at_ready. unfold linked. simpl.
    destruct (method_served _ s n e w _ (AddressAdd_daemon s r Hv Hid)) as (s' & n' & x & -> & _ & HP).
    simpl. by intros ->.
  - intros req x resp Hv Hwf. at_ready. unfold linked. simpl.
    destruct (method_served _ s n e w _ (InterfaceAdd_daemon s req Hv Hwf)) as (s' & n' & x & -> & _ & HP).
    simpl. by intros ->.
  - intros r x Hv Hid. at_ready. unfold linked. simpl.
    destruct (method_served _ s n e w _ (InterfaceDel_daemon s r Hv Hid)) as (s' & n' & x & -> & _ & HP & _).
    simpl. by intros ->.
  - intros r x Hv Hid. at_ready. unfold linked. simpl.
    destruct (method_served _ s n e w _ (AddressAdd_daemon s r Hv Hid)) as (s' & n' & x & -> & _ & HP).
    simpl. by intros ->.
  - intros id x Hv Hid. at_ready. unfold linked. simpl.
    destruct (method_served _ s n e w _ (AddressFlush_daemon s id Hv Hid)) as (s' & n' & x & -> & _ & HP & HF & Hok & _).
    simpl. by split_and!.
Qed.

Lemma linked_reliable : GroutReliable (Client (Socket T) * W).
Proof.
  split; cbn [valid env ifaces addrs linked_world].
  - intros x Hv. at_ready.
    destruct (linked_list s n e w (mkInterfaceListRequest 0) Hv eq_refl) as (s' & n' & E & _).
    exists (d_ifaces s). unfold linked, list_all. by rewrite E.
  - intros id x Hv. at_ready. intros Hin. unfold linked. simpl.
    assert (is_u16 id) as Hid.
    { apply list_elem_of_fmap in Hin as (i & -> & Hi). by apply (d_u16 s). }
    destruct (method_served _ s n e w _ (AddressFlush_daemon s id Hv Hid)) as (s' & n' & x & -> & _ & _ & _ & _ & Hrel).
    simpl. by apply Hrel.
  - intros r x Hv. at_ready. intros Hin Ha. unfold linked. simpl.
    assert (is_u16 (id_IfaceID r)) as Hid.
    { apply list_elem_of_fmap in Hin as (i & -> & Hi). by apply (d_u16 s). }
    destruct (method_served _ s n e w _ (InterfaceDel_daemon s r Hv Hid)) as (s' & n' & x & -> & _ & _ & Hrel).
    simpl. by apply Hrel.
Qed.
End link.

(** ** The commands *)

Section commands.
Context `{CniLib} {T} `{!GroutServer T} `{!GroutDaemon T} `{!GroutDaemonLaws T} {W : Type}.
Variable Unmarshal : list byte → PluginConf → result PluginConf.
Variable base : handler CniSig W.
Variable SetDefault : Z → W → W.
Variable net_dial : gostring → W → W * result (Conn (Socket T)).
Variable Print : Result → W → W * result unit.

#[local] Instance this_world : Grout (Client (Socket T) * W) := linked_world base.
#[local] Instance this_laws : GroutLaws (Client (Socket T) * W) := linked_laws base.
#[local] Instance this_reliable : GroutReliable (Client (Socket T) * W) := linked_reliable base.

(** A new connection to a daemon. *)
Definition fresh_conn (s : T) (e : stream_end) : Conn (Socket T) := mkConn (mkSocket [] s) [] e false.

Lemma Dial_daemon s e :
  d_valid s → ∃ s', Dial (Ok (fresh_conn s e)) = Dialed (ready s' 1 e) ∧ d_valid s' ∧ d_same s s'.
Proof.
  intros Hv. destruct (d_hello s Hv) as (s' & rp & (Hs & Hst & Hfit & Hv') & Hsame). exists s'.
  split; [|done]. unfold Dial, hello, request_nil, fresh_conn. fold (ready s 0 e).
  by rewrite (request_served s s' 0 e TypeHello hello_payload _ tt None 0 rp decode_hello);
    [|by apply (decode_request_small _ _ _ decode_hello)|done..].
Qed.

(** A command against a daemon: the handler's run starts from the daemon's
    interfaces, and the daemon it leaves behind is the one the connection,
    now closed, was to. *)
Lemma with_client_daemon {A} args config body w w1 s e (Q : T → outcome (result A) → Prop) :
  LoadConfig Unmarshal (StdinData args) = Ok config →
  net_dial (GroutSocketPath config) (ConfigureLogging SetDefault config w) = (w1, Ok (fresh_conn s e)) → d_valid s →
  (∀ x, linked_valid x → d_ifaces (daemon_of x.1) = d_ifaces s →
     (∀ id, d_addrs (daemon_of x.1) id = d_addrs s id) →
     let '(x', out) := body config x in linked_valid x' ∧ Q (daemon_of x'.1) out) →
  ∃ w' cn s' out, with_client Unmarshal SetDefault net_dial args body w = (w', Some cn, out) ∧ c_closed cn = true ∧
    sk_srv (c_peer cn) = s' ∧ d_valid s' ∧ Q s' out.
Proof.
  intros Hload Hdial Hv Hbody. unfold with_client. rewrite Hload, Hdial.
  destruct (Dial_daemon s e Hv) as (s0 & -> & Hv0 & [E0 A0]).
  specialize (Hbody (ready s0 1 e, w1)). simpl in Hbody.
  destruct (body config (ready s0 1 e, w1)) as [[c w'] out].
  destruct Hbody as [(s' & n' & e' & Hr & Hv') HQ]; [by exists s0, 1, e|by rewrite <-E0|by intros; rewrite <-A0|].
  simpl in Hr. subst c. eexists w', _, s', out. by split_and!.
Qed.

(** What [cmdAdd] does with the client. *)
Definition add_body (args : CmdArgs) (config : PluginConf) (x : Client (Socket T) * W)
    : Client (Socket T) * W * outcome (result unit) :=
  let '(x, out) := interp (linked base) (HandleAdd (mkAddConfig config args ipamAddFunc ipamDelFunc moveLinkFunc configurePodIfaceFunc)) x in
  match out with
  | Returns (Ok result) => let '(w, r) := Print result x.2 in (x.1, w, Returns r)
  | Returns (Err e) => (x, Returns (Err (Errorf "CNI ADD: %w" [AErr e])))
  | Panics => (x, Panics)
  end.

(** The attachment of a container is in place: its port, as a member of the
    network's bridge, is all that was added to the interfaces [l0], with the
    bridge if it was not there. *)
Definition attached (config : PluginConf) (args : CmdArgs) (l0 l : list InterfaceInfo) : Prop :=
  let name := groutPortName (ContainerID args) (IfName args) in
  ∃ pid bid l1, only_bridge (Bridge config) l0 l1 ∧ has_bridge bid (Bridge config) l1 ∧
    name ∉ if_Name <$> l1 ∧ l ≡ₚ mkInterfaceInfo pid Types.InterfaceTypeTAP name bid :: l1.

(** C1: The ADD command, from the configuration on its standard input to the
    bytes on grout's socket.  Against any daemon that keeps grout's laws, and
    whatever the operating system and the IPAM plugin do: the command ends with
    its connection closed and the daemon in a valid state; when it succeeds the
    attachment is in place in the daemon; when it fails (and the result could
    be printed) or panics, the daemon's interfaces are what they were, except
    that the network's bridge may have been created. *)
Theorem cmdAdd_end_to_end args config w w1 s e :
  LoadConfig Unmarshal (StdinData args) = Ok config →
  x00 ∉ Bridge config → x00 ∉ GroutSocketPath config →
  net_dial (GroutSocketPath config) (ConfigureLogging SetDefault config w) = (w1, Ok (fresh_conn s e)) → d_valid s →
  ∃ w' cn s' out, cmdAdd Unmarshal base SetDefault net_dial Print args w = (w', Some cn, out) ∧
    c_closed cn = true ∧ sk_srv (c_peer cn) = s' ∧ d_valid s' ∧
    (out = Returns (Ok tt) → attached config args (d_ifaces s) (d_ifaces s')) ∧
    ((∀ res w, (Print res w).2 = Ok tt) → out ≠ Returns (Ok tt) →
       only_bridge (Bridge config) (d_ifaces s) (d_ifaces s')).
Proof.
  intros Hload Hb Hsock Hdial Hv.
  assert (clean_conf config) as Hclean.
  { split; [by eapply LoadConfig_gives_usable|done|done]. }
  destruct (with_client_daemon args config (add_body args) w w1 s e (λ s' out,
      (out = Returns (Ok tt) → attached config args (d_ifaces s) (d_ifaces s')) ∧
      ((∀ res w, (Print res w).2 = Ok tt) → out ≠ Returns (Ok tt) →
         only_bridge (Bridge config) (d_ifaces s) (d_ifaces s')))
      Hload Hdial Hv) as (w' & cn & s' & out & Hrun & Hcl & Hs & Hv' & HQ); [|by exists w', cn, s', out].
  intros x Hx Ex _. set (cfg := mkAddConfig config args ipamAddFunc ipamDelFunc moveLinkFunc configurePodIfaceFunc).
  pose proof (run_HandleAdd cfg x) as Hadd. unfold run in Hadd. cbn [env this_world linked_world] in Hadd.
  unfold add_body. fold cfg. destruct (interp (linked base) (HandleAdd cfg) x) as [x' out0] eqn:Ei.
  destruct Hadd as [Hx' Hst]; [done|done|done|].
  assert (attached config args (d_ifaces s) (d_ifaces (daemon_of x'.1)) ∨
          only_bridge (Bridge config) (d_ifaces s) (d_ifaces (daemon_of x'.1)) ∧ ∀ res, out0 ≠ Returns (Ok res)) as Hcase.
  { unfold add_state in Hst. cbn [ifaces this_world linked_world] in Hst. rewrite Ex in Hst.
    destruct out0 as [[res|err]|]; [left|by right..].
    destruct Hst as (pid & bid & l & gws & ? & ? & ? & ? & _). by exists pid, bid, l. }
  destruct out0 as [[res|err]|].
  - destruct Hcase as [Hat|[_ Hno]]; [|by destruct (Hno res)].
    pose proof (λ Hp : (∀ res w, (Print res w).2 = Ok tt), Hp res x'.2) as Hprint.
    destruct (Print res x'.2) as [w2 r]. simpl in *. split; [by destruct x'|]. split; [done|].
    intros Hp Hne. by rewrite (Hprint Hp) in Hne.
  - split; [done|]. split; [done|]. intros _ _. unfold add_state in Hst.
    cbn [ifaces this_world linked_world] in Hst. by rewrite Ex in Hst.
  - split; [done|]. split; [done|]. intros _ _. unfold add_state in Hst.
    cbn [ifaces this_world linked_world] in Hst. by rewrite Ex in Hst.
Qed.

(** C13: The DEL command, over the wire.  Against any daemon that keeps grout's
    laws, whatever the operating system and the IPAM plugin do: the command
    ends with its connection closed; when it succeeds the attachment's port is
    gone from the daemon, and the bridge with it if it was the last member, and
    nothing else; when it fails nothing changed; it does not panic. *)
Theorem cmdDel_end_to_end args config w w1 s e :
  LoadConfig Unmarshal (StdinData args) = Ok config →
  net_dial (GroutSocketPath config) (ConfigureLogging SetDefault config w) = (w1, Ok (fresh_conn s e)) → d_valid s →
  (∀ p, findPortByName (d_ifaces s) (groutPortName (ContainerID args) (IfName args)) = Some p →
     d_addrs s (if_ID p) = []) →
  ∃ w' cn s' out, cmdDel Unmarshal base SetDefault net_dial args w = (w', Some cn, out) ∧
    c_closed cn = true ∧ sk_srv (c_peer cn) = s' ∧ d_valid s' ∧
    match out with
    | Returns (Ok _) =>
        d_ifaces s' ≡ₚ after_del (groutPortName (ContainerID args) (IfName args)) (d_ifaces s) ∧
        groutPortName (ContainerID args) (IfName args) ∉ if_Name <$> d_ifaces s'
    | Returns (Err _) => d_ifaces s' = d_ifaces s
    | Panics => False
    end.
Proof.
  intros Hload Hdial Hv Hports. set (cfg := mkDelConfig config args ipamDelFunc None).
  apply (with_client_daemon args config _ w w1 s e (λ s' out, match out with
    | Returns (Ok _) => d_ifaces s' ≡ₚ after_del (groutPortName (ContainerID args) (IfName args)) (d_ifaces s) ∧
        groutPortName (ContainerID args) (IfName args) ∉ if_Name <$> d_ifaces s'
    | Returns (Err _) => d_ifaces s' = d_ifaces s
    | Panics => False
    end) Hload Hdial Hv).
  intros x Hx Ex Ax. fold cfg. pose proof (run_HandleDel cfg x) as Hdel. unfold run, del_state in Hdel.
  cbn [env ifaces addrs valid this_world linked_world] in Hdel. rewrite Ex in Hdel.
  destruct (interp (linked base) (HandleDel cfg) x) as [x' out].
  apply Hdel; [done|done|]. intros p Hp. rewrite Ax. by apply Hports.
Qed.

(** C37: The STATUS command.  With an invalid configuration it fails and connects to
    nothing; when a daemon that keeps grout's laws answers at the configured
    socket, the plugin is available, the connection is closed and the daemon
    is as it was; when the socket cannot be connected to, or the handshake is
    refused, the plugin reports the CNI error code 50, and no connection stays
    open. *)
Theorem cmdStatus_end_to_end args w :
  (∀ err, LoadConfig Unmarshal (StdinData args) = Err err →
     cmdStatus Unmarshal SetDefault net_dial args w = (w, None, Failed (loading err))) ∧
  (∀ config w1, LoadConfig Unmarshal (StdinData args) = Ok config →
     (∀ s e, net_dial (GroutSocketPath config) (ConfigureLogging SetDefault config w) = (w1, Ok (fresh_conn s e)) → d_valid s →
        ∃ cn s', cmdStatus Unmarshal SetDefault net_dial args w = (w1, Some cn, Available) ∧ c_closed cn = true ∧
          sk_srv (c_peer cn) = s' ∧ d_valid s' ∧ d_same s s') ∧
     (∀ conn lft err, net_dial (GroutSocketPath config) (ConfigureLogging SetDefault config w) = (w1, conn) → Dial conn = DialFailed lft err →
        (∃ msg, cmdStatus Unmarshal SetDefault net_dial args w = (w1, lft, Unavailable 50 msg)) ∧
        ∀ cn, lft = Some cn → c_closed cn = true)).
Proof.
  unfold cmdStatus. split; [by intros err ->|]. intros config w1 ->. split.
  - intros s e -> Hv. destruct (Dial_daemon s e Hv) as (s' & -> & Hv' & Hs). eexists _, s'. by split_and!.
  - intros conn lft err -> Hd. rewrite Hd. split; [by eexists|]. by eapply Dial_failed_closed.
Qed.
End commands.
