(* ===== verification/Commands.v ===== *)
(** * Commands: the registry over the wire

    The commands of main.go against a grout daemon: from the configuration on
    standard input to the daemon's state after the connection was closed, every
    command implements the registry of attachments of Registry. *)

From stdpp Require Import gmap.
From S2P Require Import Prelude Bytes Protocol NetIP Types GoLib Client Socket Wire GroutApi Cni PortName.
From S2P Require Import Config Lock Netns Handler HandlerFacts Main Serial Ledger Runs World Typing Registry EndToEnd.
From Stdlib Require Import Lia ZArith.
Open Scope Z_scope.
#[local] Opaque groutPortName.

(** The commands that reach a handler. *)
Inductive command := CAdd | CDel | CCheck | CGC.

Section commands.
Context `{CniLib} {T} `{!GroutServer T} `{!GroutDaemon T} `{!GroutDaemonLaws T} {W : Type}.
Variable Unmarshal : list byte → PluginConf → result PluginConf.
Variable base : handler CniSig W.
Variable SetDefault : Z → W → W.
Variable net_dial : gostring → W → W * result (Conn (Socket T)).
Variable Print : Result → W → W * result unit.
Variable Bs : list gostring.
Hypothesis HBs : ∀ b, b ∈ Bs → HasPrefix b portPrefix = false.

#[local] Instance wire_world : Grout (Client (Socket T) * W) := linked_world base.
#[local] Instance wire_laws : GroutLaws (Client (Socket T) * W) := linked_laws base.
#[local] Instance wire_reliable : GroutReliable (Client (Socket T) * W) := linked_reliable base.

Definition run_command (c : command) (args : CmdArgs) : W → W * option (Conn (Socket T)) * outcome (result unit) :=
  match c with
  | CAdd => cmdAdd Unmarshal base SetDefault net_dial Print args
  | CDel => cmdDel Unmarshal base SetDefault net_dial args
  | CCheck => cmdCheck Unmarshal base SetDefault net_dial args
  | CGC => cmdGC Unmarshal base SetDefault net_dial args
  end.

Definition command_verb (c : command) (config : PluginConf) (args : CmdArgs) : verb :=
  match c with
  | CAdd => VAdd (mkAddConfig config args ipamAddFunc ipamDelFunc moveLinkFunc configurePodIfaceFunc)
  | CDel => VDel (mkDelConfig config args ipamDelFunc None)
  | CCheck => VCheck (mkDelConfig config args None None)
  | CGC => VGC (mkGCConfig config args None)
  end.

(** The daemon of a well-configured node. *)
Record d_node (s : T) : Prop := {
  d_node_valid : d_valid s;
  d_node_bare : ∀ p, p ∈ d_ifaces s → plugin_port p → d_addrs s (if_ID p) = [];
  d_node_shape : shape Bs (d_ifaces s) }.

(** The handler's verdict behind a command's result: the same, unless an ADD
    that succeeded could not print its result. *)
Definition answered (c : command) (out : outcome (result unit)) (a : verdict) : Prop :=
  a = verdict_of out ∨
  c = CAdd ∧ a = Succeeded ∧ ∃ res w err, (Print res w).2 = Err err ∧ out = Returns (Err err).

(** What a command does with the client it has connected. *)
Definition command_body (c : command) (args : CmdArgs) (config : PluginConf) (x : Client (Socket T) * W)
    : Client (Socket T) * W * outcome (result unit) :=
  match c with
  | CAdd => add_body base Print args config x
  | CDel => interp (linked base) (HandleDel (mkDelConfig config args ipamDelFunc None)) x
  | CCheck => interp (linked base) (HandleCheck (mkDelConfig config args None None)) x
  | CGC => interp (linked base) (HandleGC (mkGCConfig config args None)) x
  end.

Lemma run_command_body c args : run_command c args = with_client Unmarshal SetDefault net_dial args (command_body c args).
Proof. by destruct c. Qed.

(** The state a command leaves, and its result. *)
Definition registry_after (v : verb) (m : registry) (answered : verdict → Prop) (s : T) : Prop :=
  ∃ a, answered a ∧ d_node s ∧ tracks (d_ifaces s) (spec v a m) ∧ spec_answer v a m.

Lemma registry_after_mono v m (P Q : verdict → Prop) s :
  registry_after v m P s → (∀ a, P a → Q a) → registry_after v m Q s.
Proof. intros (a & Ha & Hs) HPQ. exists a. auto. Qed.

(** A run of a handler with the client, as a fact about the daemon. *)
Lemma handler_implements {A} (p : cni (outcome (result A))) v m (x : Client (Socket T) * W) :
  run p x (λ x' out, node Bs x' ∧ tracks (ifaces x') (spec v (verdict_of out) m) ∧ spec_answer v (verdict_of out) m) →
  let '(x', out) := interp (linked base) p x in
  linked_valid x' ∧ registry_after v m (.= verdict_of out) (daemon_of x'.1).
Proof.
  unfold run. change (@env _ _ wire_world) with (linked (P := Socket T) base).
  destruct (interp (linked base) p x) as [x' out]. intros ([Hv Hb Hs] & Ht & Ha). split; [done|].
  exists (verdict_of out). split_and!; [done| |done|done]. split; [|done|done].
  by destruct Hv as (s & n & e & -> & Hv).
Qed.

Lemma answered_mono c v m out s :
  registry_after v m (.= verdict_of out) s → registry_after v m (answered c out) s.
Proof. intros Hs. eapply registry_after_mono; [exact Hs|]. by left. Qed.

Lemma command_body_implements c args config m x :
  clean_conf config → Bridge config ∈ Bs → linked_valid x → d_node (daemon_of x.1) →
  tracks (d_ifaces (daemon_of x.1)) m →
  let '(x', out) := command_body c args config x in
  linked_valid x' ∧ registry_after (command_verb c config args) m (answered c out) (daemon_of x'.1).
Proof.
  intros Hc Hin Hv [Hd Hb Hs] Ht. assert (node Bs x) as Hn by (by split).
  destruct c; unfold command_body, command_verb.
  - pose proof (handler_implements _ _ m x
      (add_refines Bs HBs (mkAddConfig config args ipamAddFunc ipamDelFunc moveLinkFunc configurePodIfaceFunc) x m ltac:(done) Hc Hin Hn Ht)) as Hr.
    unfold add_body. destruct (interp (linked base) _ x) as [x' out]. destruct Hr as [Hv' Hr].
    destruct out as [[res|err]|];
      [|split; [done|]; eapply registry_after_mono; [exact Hr|]; intros a ->; by left..].
    destruct (Print res x'.2) as [w2 r] eqn:Ep. split; [done|].
    eapply registry_after_mono; [exact Hr|]. intros a ->. destruct r as [[]|err]; [by left|]. right.
    split_and!; [done|done|]. exists res, x'.2, err. by rewrite Ep.
  - pose proof (handler_implements _ _ m x
      (del_refines Bs HBs (mkDelConfig config args ipamDelFunc None) x m ltac:(done) Hn Ht)) as Hr.
    destruct (interp (linked base) _ x). destruct Hr as [? ?%(answered_mono CDel)]. by split.
  - pose proof (handler_implements _ _ m x
      (check_refines Bs (mkDelConfig config args None None) x m ltac:(done) Hn Ht)) as Hr.
    destruct (interp (linked base) _ x). destruct Hr as [? ?%(answered_mono CCheck)]. by split.
  - pose proof (handler_implements _ _ m x
      (gc_refines Bs (mkGCConfig config args None) x m ltac:(done) Hin Hn Ht)) as Hr.
    destruct (interp (linked base) _ x). destruct Hr as [? ?%(answered_mono CGC)]. by split.
Qed.

(** C2: The commands of the plugin implement the registry of attachments, from
    the configuration on standard input to the bytes on grout's socket.  Against
    any daemon that keeps grout's laws and whose interfaces hold the registry
    [m], whatever the operating system and the IPAM plugin do: ADD, DEL, CHECK
    and GC end with their connection closed and the daemon's interfaces holding
    the registry of the specification for the handler's verdict, which is the
    command's result, except that an ADD whose result could not be printed
    reports that error with the attachment in place. *)
Theorem commands_refine_registry c args config w w1 s e m :
  LoadConfig Unmarshal (StdinData args) = Ok config →
  x00 ∉ Bridge config → x00 ∉ GroutSocketPath config → Bridge config ∈ Bs →
  net_dial (GroutSocketPath config) (ConfigureLogging SetDefault config w) = (w1, Ok (fresh_conn s e)) → d_node s → tracks (d_ifaces s) m →
  ∃ w' cn s' out, run_command c args w = (w', Some cn, out) ∧ c_closed cn = true ∧ sk_srv (c_peer cn) = s' ∧
    registry_after (command_verb c config args) m (answered c out) s'.
Proof.
  intros Hload Hb Hsock Hin Hdial [Hv Hbare Hs] Ht.
  assert (clean_conf config) as Hclean by (split; [by eapply LoadConfig_gives_usable|done|done]).
  destruct (with_client_daemon Unmarshal SetDefault net_dial args config (command_body c args) w w1 s e
    (λ s' out, registry_after (command_verb c config args) m (answered c out) s') Hload Hdial Hv)
    as (w' & cn & s' & out & Hrun & Hcl & Es & _ & HQ).
  - intros x Hx Ex Ax. apply command_body_implements; [done|done|done| |by rewrite Ex].
    split; [by destruct Hx as (? & ? & ? & -> & ?)| |by rewrite Ex].
    intros p. rewrite Ex, Ax. apply Hbare.
  - exists w', cn, s', out. by rewrite run_command_body.
Qed.
End commands.
