(* ===== verification/Mock.v ===== *)
(** * Mock: a concrete world, for the witnesses

    A small grout (interfaces with fresh ids, addresses), an IPAM plugin with one
    answer, and an operating system in which everything succeeds.  It satisfies
    the laws of World, so the theorems stated against them apply to it. *)

From stdpp Require Import gmap.
From S2P Require Import Prelude Bytes NetIP Types GoLib Client Wire Cni PortName Config Lock Netns.
From S2P Require Import Handler HandlerFacts Serial Ledger Runs Interleave Progress Serializable Waiter Files World.
From S2P Require Import Crash Json Unmarshal Typing Registry.
From Stdlib Require Import Lia ZArith.
Open Scope Z_scope.
#[local] Opaque groutPortName.

#[global] Instance mock_types : CniTypes := {|
  RawResult := list (option (IPNet * option IP));
  RawPrev := list (option (IPNet * option IP));
  Route := unit; DNS := unit; Link := gostring * bool; NetNS := gostring;   (* a name and whether it is up; a path *)
  link_flags l := if l.2 then 1 else 0;
  link_hwaddr _ := [x02; x00; x0a; x00; x00; x02]
|}.

Definition mock_ips (raw : list (option (IPNet * option IP))) : list (option IPConfig) :=
  map (option_map (λ a, mkIPConfig None a.1 a.2)) raw.

#[global] Instance mock_lib : CniLib := {|
  NewResultFromResult raw := Ok (mkResult (str "1.0.0") [] (mock_ips raw) [] tt);
  ParsePrevResult _ raw := Ok (Some raw);
  IPAM_IsEmpty i := bool_decide (IPAM_Type i = [])
|}.

Record mock := mkMock {
  m_ifaces : list InterfaceInfo;
  m_addrs : list (Z * (bool * IP * Z));
  m_pool : list (option (IPNet * option IP)) }.

Definition mock_addrs (m : mock) (id : Z) : list (bool * IP * Z) :=
  (filter (λ a, a.1 = id) (m_addrs m)).*2.

(** An id that is neither an interface nor a domain. *)
Definition mock_fresh (m : mock) : Z :=
  1 + foldr Z.max 0 ((if_ID <$> m_ifaces m) ++ (if_Domain <$> m_ifaces m)).

Definition mock_add (r : InterfaceAddRequest) (m : mock) : mock * result InterfaceAddResponse :=
  let id := mock_fresh m in
  if decide (ia_Name r ∈ if_Name <$> m_ifaces m ∨ 65535 < id) then (m, Err (EExt 17))
  else (mkMock (m_ifaces m ++ [mkInterfaceInfo id (ia_Type r) (ia_Name r) (ia_DomainID r)])
          (filter (λ a, a.1 ≠ id) (m_addrs m)) (m_pool m),
        Ok (mkInterfaceAddResponse id)).

Definition mock_del (id : Z) (m : mock) : mock * result unit :=
  if decide (id ∈ if_ID <$> m_ifaces m ∧ mock_addrs m id = [])
  then (mkMock (without id (m_ifaces m)) (m_addrs m) (m_pool m), Ok tt)
  else (m, Err (EExt 16)).

Definition mock_addr_add (r : AddressAddRequest) (m : mock) : mock * result unit :=
  match addr_key (aa_Address r) with
  | Some k => (mkMock (m_ifaces m) ((aa_IfaceID r, k) :: m_addrs m) (m_pool m), Ok tt)
  | None => (m, Err (EExt 22))
  end.

Definition mock_env (o : cni_op) (m : mock) : mock * cni_res o :=
  match o with
  | GInterfaceList _ => (m, Ok (m_ifaces m))
  | GInterfaceAdd r => mock_add r m
  | GInterfaceDel r => mock_del (id_IfaceID r) m
  | GAddressAdd r => mock_addr_add r m
  | GAddressFlush id => (mkMock (m_ifaces m) (filter (λ a, a.1 ≠ id) (m_addrs m)) (m_pool m), Ok tt)
  | DelegateAdd _ _ => (m, Ok (m_pool m))
  | Remove _ => (m, Removed)
  | Stat _ => (m, true)
  | OpenLock _ => (m, Ok 3)
  | FlockEx _ => (m, Locked)
  | LinkByName name => (m, Ok (name, true))
  | AddrList _ => (m, Ok (map (option_map fst) (m_pool m)))
  | GetNS path => (m, Ok path)
  | NsLeave _ => (m, tt)
  | _ => (m, Ok tt)
  end.

Record mock_valid (m : mock) : Prop := {
  mv_names : NoDup (if_Name <$> m_ifaces m);
  mv_ids : NoDup (if_ID <$> m_ifaces m);
  mv_u16 : ∀ i, i ∈ m_ifaces m → is_u16 (if_ID i) ∧ is_u16 (if_Domain i) ∧ if_ID i ≠ 0 }.

#[global] Instance mock_grout_world : Grout mock := {|
  env := mock_env; valid := mock_valid; ifaces := m_ifaces; addrs := mock_addrs |}.

Lemma mock_fresh_spec m id :
  id ∈ (if_ID <$> m_ifaces m) ++ (if_Domain <$> m_ifaces m) → id < mock_fresh m.
Proof.
  unfold mock_fresh. generalize ((if_ID <$> m_ifaces m) ++ (if_Domain <$> m_ifaces m)).
  induction l as [|x l IH]; [by intros ?%not_elem_of_nil|]. simpl. intros [->|Hid]%elem_of_cons; [lia|].
  specialize (IH Hid). lia.
Qed.

Lemma mock_fresh_pos m : 0 < mock_fresh m.
Proof.
  unfold mock_fresh. generalize ((if_ID <$> m_ifaces m) ++ (if_Domain <$> m_ifaces m)).
  induction l; simpl; lia.
Qed.

Lemma mock_add_ok r m m' resp :
  mock_add r m = (m', Ok resp) →
  ia_Name r ∉ if_Name <$> m_ifaces m ∧ IfaceID resp = mock_fresh m ∧ is_u16 (mock_fresh m) ∧
  m_ifaces m' = m_ifaces m ++ [mkInterfaceInfo (mock_fresh m) (ia_Type r) (ia_Name r) (ia_DomainID r)] ∧
  m_addrs m' = filter (λ a, a.1 ≠ mock_fresh m) (m_addrs m).
Proof.
  unfold mock_add. case_decide as Hd; intros ?; simplify_eq/=.
  pose proof (mock_fresh_pos m). split_and!; try done; [naive_solver|]. unfold is_u16.
  destruct (decide (65535 < mock_fresh m)); [naive_solver|lia].
Qed.

Lemma mock_add_err r m m' e : mock_add r m = (m', Err e) → m' = m.
Proof. unfold mock_add. case_decide; intros ?; by simplify_eq. Qed.

Lemma mock_del_ok id m m' :
  mock_del id m = (m', Ok tt) → mock_addrs m id = [] ∧ m' = mkMock (without id (m_ifaces m)) (m_addrs m) (m_pool m).
Proof. unfold mock_del. case_decide; intros ?; simplify_eq. naive_solver. Qed.

Lemma mock_del_err id m m' e : mock_del id m = (m', Err e) → m' = m.
Proof. unfold mock_del. case_decide; intros ?; by simplify_eq. Qed.

Lemma mock_addrs_filter m id l p i :
  mock_addrs (mkMock l (filter (λ a, a.1 ≠ id) (m_addrs m)) p) i =
  if decide (i = id) then [] else mock_addrs m i.
Proof.
  unfold mock_addrs. simpl. rewrite list_filter_filter. case_decide as Hi.
  - subst. rewrite list_filter_none; [done|]. naive_solver.
  - f_equal. apply list_filter_iff_in. intros [a k] _. simpl. naive_solver.
Qed.

Lemma without_NoDup {B} (f : InterfaceInfo → B) id l : NoDup (f <$> l) → NoDup (f <$> without id l).
Proof.
  induction l as [|i l IH]; [done|]. rewrite fmap_cons, NoDup_cons. intros [Hi Hl]. unfold without.
  rewrite filter_cons. case_decide; [|by apply IH]. rewrite fmap_cons, NoDup_cons. split; [|by apply IH].
  intros (j & Ej & Hj)%list_elem_of_fmap. apply list_elem_of_filter in Hj as [_ Hj]. apply Hi.
  rewrite Ej. by apply list_elem_of_fmap_2.
Qed.

Lemma mock_add_valid r m m' resp :
  wf_iface_req r → mock_valid m → mock_add r m = (m', Ok resp) → mock_valid m'.
Proof.
  intros Hwf [Hn Hi Hu] (Hname & _ & Hf & E & _)%mock_add_ok.
  assert (mock_fresh m ∉ if_ID <$> m_ifaces m) as Hfr.
  { intros Hin. assert (mock_fresh m < mock_fresh m); [|lia]. apply mock_fresh_spec. set_solver. }
  pose proof (mock_fresh_pos m). split; rewrite E, ?fmap_app.
  - apply NoDup_app. split_and!; [done|set_solver|apply NoDup_singleton].
  - apply NoDup_app. split_and!; [done|set_solver|apply NoDup_singleton].
  - intros i [Hin|Hin]%elem_of_app; [by apply Hu|]. apply list_elem_of_singleton in Hin as ->. destruct Hwf as [_ Hd _ _ _ _].
    split_and!; [done|done|simpl; lia].
Qed.

Lemma mock_env_valid o m : wf_op o → mock_valid m → mock_valid (mock_env o m).1.
Proof.
  intros Hwf Hv. destruct o; try done; simpl in *.
  - destruct (mock_add r m) as [m' [resp|e]] eqn:E; [by eapply mock_add_valid|].
    by apply mock_add_err in E as ->.
  - destruct (mock_del (id_IfaceID r) m) as [m' [[]|e]] eqn:E; [|by apply mock_del_err in E as ->].
    apply mock_del_ok in E as [_ ->]. destruct Hv as [Hn Hi Hu].
    split; [by apply without_NoDup|by apply without_NoDup|].
    intros i Hin. apply Hu. simpl in Hin. apply elem_of_without in Hin. naive_solver.
  - unfold mock_addr_add. destruct (addr_key (aa_Address r)); [|done]. by destruct Hv.
  - by destruct Hv.
Qed.

Lemma mock_law_add req m resp :
  mock_valid m → wf_iface_req req → (mock_env (GInterfaceAdd req) m).2 = Ok resp →
  added req (IfaceID resp) m (mock_env (GInterfaceAdd req) m).1.
Proof.
  intros Hv Hwf E2. simpl in *. destruct (mock_add req m) as [m' r] eqn:E. simpl in E2. subst r.
  pose proof (mock_add_valid _ _ _ _ Hwf Hv E) as Hv'.
  destruct (mock_add_ok _ _ _ _ E) as (Hn & -> & Hf & Ei & Ea). pose proof (mock_fresh_pos m).
  assert (∀ id, id ∈ (if_ID <$> m_ifaces m) ++ (if_Domain <$> m_ifaces m) → id ≠ mock_fresh m) as Hfr.
  { intros id Hid%mock_fresh_spec. lia. }
  assert (∀ i, mock_addrs m' i = if decide (i = mock_fresh m) then [] else mock_addrs m i) as Haddr.
  { intros i. rewrite <-(mock_addrs_filter m (mock_fresh m) (m_ifaces m') (m_pool m')).
    unfold mock_addrs. simpl. by rewrite Ea. }
  split; simpl.
  - lia.
  - done.
  - intros Hin. apply (Hfr (mock_fresh m)); [apply elem_of_app; by left|done].
  - intros Hin. apply (Hfr (mock_fresh m)); [apply elem_of_app; by right|done].
  - exists (ia_DomainID req). split_and!; [by rewrite Ei, Permutation_app_comm|done|].
    intros -> (i & E0 & Hi)%list_elem_of_fmap. by destruct (mv_u16 _ Hv' i Hi) as (_ & _ & []).
  - rewrite Haddr. by rewrite decide_True.
  - intros id Hid. rewrite Haddr. by rewrite decide_False.
Qed.

#[global] Instance mock_laws : GroutLaws mock.
Proof.
  split.
  - by intros w [].
  - by intros w [].
  - intros w i [_ _ Hu] Hi. by destruct (Hu i Hi) as (? & ? & ?).
  - intros w i [_ _ Hu] Hi. by destruct (Hu i Hi) as (? & ? & ?).
  - intros o w Hv Ho. by apply mock_env_valid.
  - by intros [] w Hv Ho Hm.
  - intros w l Hv E. simpl in E. by simplify_eq.
  - intros req w e Hv Hwf E. simpl in *. destruct (mock_add req w) as [m' r] eqn:Em. simpl in E. subst r.
    by apply mock_add_err in Em as ->.
  - intros r w e Hv Hwf E. simpl in *. destruct (mock_del (id_IfaceID r) w) as [m' x] eqn:Em. simpl in E. subst x.
    by apply mock_del_err in Em as ->.
  - intros r w e Hv Hwf E. simpl in *. unfold mock_addr_add in *. by destruct (addr_key (aa_Address r)).
  - intros req w resp Hv Hwf E. by destruct (mock_law_add req w resp Hv Hwf E).
  - intros r w Hv Hwf E. simpl in *. destruct (mock_del (id_IfaceID r) w) as [m' x] eqn:Em. simpl in E. subst x.
    by apply mock_del_ok in Em as [? ->].
  - intros r w Hv Hwf E. simpl in *. unfold mock_addr_add in *. destruct (addr_key (aa_Address r)) as [k|]; [|done].
    split_and!; [done| |exists k; split; [done|]].
    + intros id Hid. unfold mock_addrs. simpl. by rewrite filter_cons_False by auto.
    + intros k'. unfold mock_addrs. simpl. rewrite filter_cons_True by done. simpl. by rewrite elem_of_cons.
  - intros id w Hv Hwf. simpl. split_and!; [done| |intros _].
    + intros id' Hid. rewrite mock_addrs_filter. by rewrite decide_False.
    + rewrite mock_addrs_filter. by rewrite decide_True.
Qed.

#[global] Instance mock_reliable : GroutReliable mock.
Proof.
  split.
  - intros w _. by eexists.
  - done.
  - intros r w Hv Hin Ha. simpl in *. unfold mock_del. by rewrite decide_True.
Qed.

Definition mock_run : handler CniSig mock := mock_env.

(** ** A network, a pod and its calls *)

(** A text with its quotation marks written as apostrophes. *)
Definition jtext (s : string) : list byte := (λ c, if decide (c = x27) then x22 else c) <$> str s.

(** Three fields of [types.NetConf], stored as encoding/json does. *)
Definition demo_net : list field := [
  string_field "cniVersion" (λ s c, mkPluginConf s (Name c) (IPAM_conf c) (RawPrevResult c) (ValidAttachments c)
    (GroutSocketPath c) (Bridge c) (MTU c) (InterfaceType c) (LogLevel c));
  string_field "name" (λ s c, mkPluginConf (CNIVersion c) s (IPAM_conf c) (RawPrevResult c) (ValidAttachments c)
    (GroutSocketPath c) (Bridge c) (MTU c) (InterfaceType c) (LogLevel c));
  (str "ipam", λ j c,
    match j with
    | JObj [(_, JStr s)] => (mkPluginConf (CNIVersion c) (Name c) (mkIPAM s) (RawPrevResult c) (ValidAttachments c)
        (GroutSocketPath c) (Bridge c) (MTU c) (InterfaceType c) (LogLevel c), None)
    | _ => (c, Some (UnmarshalTypeError (str "ipam")))
    end)].

Lemma demo_net_embedded : embedded demo_net.
Proof.
  intros f j c Hf. unfold demo_net in Hf.
  repeat (apply elem_of_cons in Hf as [->|Hf]; [simpl; by repeat case_match|]). by apply not_elem_of_nil in Hf.
Qed.

(** Names up to case, a repeated member, a null and an unknown member. *)
Definition demo_text : list byte :=
  jtext "{ 'cniVersion': '1.0.0', 'name': 'net1', 'type': 'grout-cni', 'ipam': {'type': 'host-local'}, 'MTU': 9000, 'mtu': 1500, 'bridge': null }".
Definition demo_members : list (gostring * json) :=
  [(str "cniVersion", JStr (str "1.0.0")); (str "name", JStr (str "net1")); (str "type", JStr (str "grout-cni"));
   (str "ipam", JObj [(str "type", JStr (str "host-local"))]); (str "MTU", JNum (str "9000"));
   (str "mtu", JNum (str "1500")); (str "bridge", JNull)].

Definition demo_conf : PluginConf :=
  mkPluginConf (str "1.0.0") (str "net1") (mkIPAM (str "host-local")) None [] (str "/run/grout/grout.sock")
    (str "br-net1") 1500 InterfaceTypeTAP [].
Definition demo_args : CmdArgs := mkCmdArgs (str "c0ffee") (str "/proc/7/ns/net") (str "eth0") demo_text.
Definition demo_add : AddConfig := mkAddConfig demo_conf demo_args None None None None.
Definition demo_del : DelConfig := mkDelConfig demo_conf demo_args None None.
Definition demo_gc : GCConfig := mkGCConfig demo_conf demo_args None.

Lemma demo_text_loads : LoadConfig (Unmarshal demo_net) demo_text = Ok demo_conf.
Proof. by vm_compute. Qed.

(** One IPv4 address without a gateway, and a physical port in grout. *)
Definition demo_pool : list (option (IPNet * option IP)) :=
  [Some (mkIPNet [x0a; x00; x00; x02] (CIDRMask 24 4), None)].
Definition demo_world : mock := mkMock [mkInterfaceInfo 1 2 (str "p0") 0] [] demo_pool.

Lemma demo_production : production_add demo_add ∧ production_del demo_del ∧ production_gc demo_gc.
Proof. done. Qed.

Lemma demo_clean : clean_conf demo_conf.
Proof.
  split; [split; [done|simpl; lia|by left]|..]; by apply (bool_decide_eq_false_1 _).
Qed.

Lemma demo_valid : valid demo_world.
Proof.
  split; simpl; [apply NoDup_singleton..|].
  intros i ->%list_elem_of_singleton. by split_and!.
Qed.

(** The world after the ADD: the bridge and the port. *)
Definition demo_added : mock := (interp mock_run (HandleAdd demo_add) demo_world).1.

(** The ADD succeeds, and ADD, CHECK, DEL and GC do what they should. *)
Example demo_add_run :
  m_ifaces demo_added =
    [mkInterfaceInfo 1 2 (str "p0") 0; mkInterfaceInfo 2 6 (str "br-net1") 0;
     mkInterfaceInfo 3 2 (groutPortName (str "c0ffee") (str "eth0")) 2] ∧
  m_addrs demo_added = [(2, (false, [x0a; x00; x00; x01], 24))].
Proof. by vm_compute. Qed.

Example demo_check_run : (interp mock_run (HandleCheck demo_del) demo_added).2 = Returns (Ok tt).
Proof. by vm_compute. Qed.

Example demo_del_run :
  m_ifaces (interp mock_run (HandleDel demo_del) demo_added).1 = m_ifaces demo_world.
Proof. by vm_compute. Qed.

Example demo_gc_run :
  m_ifaces (interp mock_run (HandleGC demo_gc) demo_added).1 = m_ifaces demo_world.
Proof. by vm_compute. Qed.

Lemma demo_added_valid : valid demo_added.
Proof.
  split; rewrite (proj1 demo_add_run); simpl.
  - repeat (apply NoDup_cons; split); [by apply (bool_decide_eq_false_1 _)..|apply NoDup_nil_2].
  - repeat (apply NoDup_cons; split); [by apply (bool_decide_eq_false_1 _)..|apply NoDup_nil_2].
  - intros i Hi. repeat (apply elem_of_cons in Hi as [->|Hi]; [by split_and!|]). by apply not_elem_of_nil in Hi.
Qed.

(** ** Witnesses *)

Lemma verbs_serialized_witness :
  production (VAdd demo_add) ∧
  always (run_verb (VAdd demo_add))
    (λ t _, serialized (str "/run/grout/grout.sock.lock") t).
Proof. split; [done|]. apply (verbs_serialized (VAdd demo_add)). done. Defined.

Lemma HandleAdd_transactional_witness :
  let '(_, t, out) := interp_trace mock_run (HandleAdd demo_add) demo_world in add_outcome [] (ledger_of t) out.
Proof. apply (always_interp_trace (S := CniSig) mock_run). apply HandleAdd_transactional. done. Defined.

(** A library that refuses every IPAM answer. *)
Definition strict_lib : CniLib := {|
  NewResultFromResult _ := Err (EExt 22); ParsePrevResult _ raw := Ok (Some raw); IPAM_IsEmpty _ := false
|}.

Lemma convert_failure_keeps_lease_witness :
  let allocation := existT (P := res CniSig) (DelegateAdd (IPAM_Type (IPAM_conf (add_Config demo_add)))
                      (StdinData (add_Args demo_add))) (Ok (m_pool demo_world)) in
  let '(_, t, out) := interp_trace mock_run (HandleAdd (H0 := strict_lib) demo_add) demo_world in
  allocation ∈ t ∧ work t = [allocation] ∧
  out = Returns (Err (Errorf "converting IPAM result: %w"
          [AErr (Errorf "converting result to 1.0.0 format: %w" [AErr (EExt 22)])])).
Proof.
  intros allocation.
  pose proof (always_interp_trace (S := CniSig) mock_run _ demo_world _
    (convert_failure_keeps_lease (H0 := strict_lib) demo_add ltac:(done))) as Hrun.
  assert (allocation ∈ (interp_trace mock_run (HandleAdd (H0 := strict_lib) demo_add) demo_world).1.2) as Hin
    by (apply (list_elem_of_lookup_2 _ 3); vm_compute; reflexivity).
  destruct (interp_trace mock_run _ demo_world) as [[w t] out]. simpl in Hin.
  destruct (Hrun _ _ _ _ Hin eq_refl) as [-> Hwork]. auto.
Defined.




Lemma HandleAdd_state_witness :
  run (HandleAdd demo_add) demo_world (λ w' out, valid w' ∧ add_state demo_add demo_world w' out).
Proof. apply HandleAdd_state; [done|apply demo_clean|apply demo_valid]. Defined.

Lemma HandleDel_state_witness :
  run (HandleDel demo_del) demo_added (λ w' out, valid w' ∧ del_state demo_del demo_added w' out).
Proof.
  apply HandleDel_state; [done|apply demo_added_valid|].
  intros p Hp. vm_compute in Hp. injection Hp as <-. by vm_compute.
Defined.

Lemma HandleGC_state_witness :
  run (HandleGC demo_gc) demo_added (λ w' out,
    valid w' ∧
    match out with
    | Returns (Ok _) => ifaces w' ≡ₚ after_gc demo_conf (ifaces demo_added)
    | Returns (Err _) => ifaces w' = ifaces demo_added
    | Panics => False
    end).
Proof.
  apply (HandleGC_state demo_gc); [done|apply demo_added_valid|].
  intros id i Hid Hi. vm_compute in Hid. injection Hid as <-. vm_compute in Hi.
  apply list_elem_of_singleton in Hi as ->. by vm_compute.
Defined.

Lemma add_then_del_witness :
  run (HandleAdd demo_add) demo_world (λ w1 out1, ∀ res, out1 = Returns (Ok res) →
    run (HandleDel demo_del) w1 (λ w2 out2, out2 = Returns (Ok tt) →
      (Bridge demo_conf ∉ if_Name <$> ifaces demo_world → ifaces w2 ≡ₚ ifaces demo_world) ∧
      (∀ b, b ∈ ifaces demo_world → if_Name b = Bridge demo_conf →
         ifaces w2 ≡ₚ collect (if_ID b) (ifaces demo_world)))).
Proof. apply (add_then_del demo_add demo_del); [done|done|apply demo_clean|apply demo_valid|done|done]. Defined.

(** The ADD is killed when the port is in grout and not yet in the pod. *)
Lemma killed_add_recovered_witness :
  let w1 := run_killed 8 (HandleAdd demo_add) demo_world in
  m_ifaces w1 = m_ifaces demo_added ∧
  run (HandleDel demo_del) w1 (λ w2 out,
    out ≠ Panics ∧
    (out = Returns (Ok tt) →
       add_name demo_add ∉ if_Name <$> ifaces w2 ∧
       ∀ i, if_Name i ≠ str "br-net1" → i ∈ ifaces w2 ↔ i ∈ ifaces demo_world)).
Proof.
  split; [by vm_compute|].
  apply (killed_add_recovered demo_add demo_del demo_world 8);
    [done|done|exact demo_clean|exact demo_valid|by vm_compute| |done|done].
  apply (bool_decide_eq_false_1 _). by vm_compute.
Defined.

(** The DEL is killed when the port is deleted and the bridge is not. *)
Lemma killed_del_resumed_witness :
  let w1 := run_killed 6 (HandleDel demo_del) demo_added in
  m_ifaces w1 = [mkInterfaceInfo 1 2 (str "p0") 0; mkInterfaceInfo 2 6 (str "br-net1") 0] ∧
  run (HandleDel demo_del) w1 (λ w2 out,
    out ≠ Panics ∧
    (out = Returns (Ok tt) →
       del_name demo_del ∉ if_Name <$> ifaces w2 ∧ (∀ i, i ∈ ifaces w2 → i ∈ ifaces demo_added) ∧
       ∀ i, i ∈ ifaces demo_added → if_Name i ≠ del_name demo_del →
         (∀ p, findPortByName (ifaces demo_added) (del_name demo_del) = Some p → if_ID i ≠ if_Domain p) → i ∈ ifaces w2)).
Proof.
  split; [by vm_compute|].
  apply (killed_del_resumed demo_del demo_del demo_added 6); [done|done|exact demo_added_valid|done|].
  intros p Hp. vm_compute in Hp. injection Hp as <-. by vm_compute.
Defined.

Lemma LoadConfig_usable_witness :
  LoadConfig (Unmarshal demo_net) demo_text = Ok demo_conf ∧ usable demo_conf.
Proof. split; [apply demo_text_loads|]. apply (LoadConfig_usable (Unmarshal demo_net) demo_text). apply demo_text_loads. Defined.

(** Two calls at once: the first has taken the lock and asks the IPAM plugin. *)
Definition demo_calls : list verb := [VAdd demo_add; VDel demo_del].

Lemma demo_calls_ok :
  ∀ v, v ∈ demo_calls → production v ∧
    lockPathForSocket (GroutSocketPath (verb_conf v)) = str "/run/grout/grout.sock.lock".
Proof.
  intros v [->|[->|Hv]%elem_of_cons]%elem_of_cons; [done|done|]. by apply not_elem_of_nil in Hv.
Qed.

Lemma calls_exclude_each_other_witness :
  ∃ s s', reachable demo_calls s ∧ step s 0 (DelegateAdd (str "host-local") demo_text) s' ∧ holder s = Some 0%nat.
Proof.
  set (dir := MkdirAll (str "/run/grout")).
  eexists _, _.
  assert (∀ s s', reachable demo_calls s → step s 0 (DelegateAdd (str "host-local") demo_text) s' →
    reachable demo_calls s ∧ step s 0 (DelegateAdd (str "host-local") demo_text) s' ∧ holder s = Some 0%nat) as Hw.
  { intros s s' Hr Hs. split_and!; [done|done|].
    apply (calls_exclude_each_other _ _ _ _ _ _ demo_calls_ok Hr Hs). by intros [?|[? ?]]. }
  apply Hw.
  - eapply rtc_l; [eexists 0%nat, dir; eapply (step_other _ _ dir _ (Ok tt)); [reflexivity|by left]|].
    eapply rtc_l; [eexists 0%nat, _; eapply (step_other _ _ (OpenLock _) _ (Ok 3)); [reflexivity|right; by eexists]|].
    eapply rtc_l; [eexists 0%nat, _; eapply (step_lock _ _ 3); [reflexivity|reflexivity]|].
    apply rtc_refl.
  - eapply (step_other _ _ (DelegateAdd (str "host-local") demo_text) _ (Err EOF)); [reflexivity|by left].
Defined.

Lemma derived_gateway_in_subnet_witness :
  ∃ gw, gateway_of (mkIPConfig None (mkIPNet [x0a; x00; x01; x02] (CIDRMask 23 4)) None) = Some gw ∧
    IP_Mask gw (CIDRMask 23 4) = Some [x0a; x00; x00; x00] ∧ gw ≠ [x0a; x00; x00; x00].
Proof.
  apply (derived_gateway_in_subnet None [x0a; x00; x01; x02] (CIDRMask 23 4) [x0a; x00; x00; x00] x00); reflexivity.
Defined.

Definition demo_result (ips : list (option IPConfig)) : Result := mkResult [] [] ips [] tt.
Definition demo_ip (ip : IP) (ones : Z) : IPConfig := mkIPConfig None (mkIPNet ip (CIDRMask ones (length ip))) None.

Lemma gatewaysFor_spec_witness :
  let ips := [demo_ip [x0a; x00; x00; x02] 24; demo_ip [x0a; x00; x01; x02] 24] in
  gatewaysFor (demo_result (Some <$> ips)) = mapM gateway_net (first_per_family ips) ∧
  (length (filter (λ ip, is_v4 ip = true) (first_per_family ips)) ≤ 1)%nat ∧
  (length (filter (λ ip, is_v4 ip = false) (first_per_family ips)) ≤ 1)%nat.
Proof.
  intros ips. apply (gatewaysFor_spec (demo_result (Some <$> ips)) ips). reflexivity.
Defined.

Lemma nil_entry_panics_witness :
  gatewaysFor (demo_result [Some (demo_ip [x0a; x00; x00; x02] 24); None]) = None.
Proof.
  apply (nil_entry_panics (demo_result [Some (demo_ip [x0a; x00; x00; x02] 24); None])).
  apply list_elem_of_further, list_elem_of_here.
Defined.

Lemma podMAC_distinct_witness : [x0a; x00; x00; x02] = [x0a; x00; x00; x02].
Proof.
  apply (podMAC_distinct (demo_result [Some (demo_ip [x0a; x00; x00; x02] 24)])
           (demo_result [None; Some (demo_ip [x0a; x00; x00; x02] 24)]) [x0a; x00; x00; x02] [x0a; x00; x00; x02]
           [x02; x00; x0a; x00; x00; x02]); reflexivity.
Defined.

(** ADD and DEL of the same attachment at once: the goroutine of the DEL waits in
    flock(2) while the ADD works, is given the lock when the ADD gives it up, and
    then the DEL undoes what the ADD did. *)
Definition demo_schedule : list (nat * turn) :=
  [(0, Main); (0, Main); (1, Main); (1, Main); (0, Goroutine); (1, Goroutine); (0, Goroutine); (1, Goroutine);
   (0, Goroutine); (0, Main)]%nat ++ replicate 30 (0%nat, Main) ++
  [(1, Goroutine); (1, Goroutine); (1, Main)]%nat ++ replicate 12 (1%nat, Main).

(** In the middle the ADD is inside, the interface is there, and the DEL waits. *)
Example demo_schedule_midway :
  let s := fturns mock_run demo_calls demo_world (take 20 demo_schedule) in
  inside (fbase s) 0 = true ∧ inside (fbase s) 1 = false ∧ m_ifaces (fworld s) ≠ m_ifaces demo_world.
Proof. by vm_compute. Qed.

Definition demo_all : fwsys := fturns mock_run demo_calls demo_world demo_schedule.

Lemma demo_all_free i : inside (fbase demo_all) i = false.
Proof. destruct i as [|[|i]]; by vm_compute. Qed.

Lemma calls_serializable_witness :
  fprocs (fbase demo_all) = [(Ret Succeeded, Over); (Ret Succeeded, Over)] ∧
  m_ifaces (fworld demo_all) = m_ifaces demo_world ∧
  ∃ order, serialized_state mock_run demo_calls demo_world (seen demo_all) order.
Proof.
  split_and!; [by vm_compute..|].
  apply (calls_serializable mock_run _ demo_calls demo_world demo_all demo_calls_ok);
    [apply fturns_reachable|apply demo_all_free].
Defined.

(** Calls for different grout sockets do not exclude each other: each locks a file
    of its own, and both are in their critical sections at once. *)
Definition other_conf : PluginConf :=
  mkPluginConf (str "1.0.0") (str "net1") (mkIPAM (str "host-local")) None [] (str "/run/grout/other.sock")
    (str "br-net1") 1500 InterfaceTypeTAP [].
Definition other_calls : list verb := [VAdd demo_add; VDel (mkDelConfig other_conf demo_args None None)].

Lemma sockets_overlap :
  ∃ s, freachable mock_run other_calls demo_world s ∧ inside (fbase s) 0 = true ∧ inside (fbase s) 1 = true ∧
    flocks (fbase s) (str "/run/grout/grout.sock.lock") = Some 0%nat ∧
    flocks (fbase s) (str "/run/grout/other.sock.lock") = Some 1%nat.
Proof.
  exists (fturns mock_run other_calls demo_world
    ([(0, Main); (0, Main); (1, Main); (1, Main); (0, Goroutine); (1, Goroutine); (0, Goroutine); (1, Goroutine);
      (0, Goroutine); (1, Goroutine); (0, Main); (1, Main)]%nat)).
  split; [apply fturns_reachable|by vm_compute].
Qed.

Lemma calls_finish_witness :
  sn any_step (start demo_calls) ∧
  ∀ s, reachable demo_calls s →
    (all_ended s ∧ holder s = None) ∨
    ∃ i o s', step s i o s' ∧ ((∃ fd, o = FlockEx fd) → holder s' = Some i).
Proof. apply (calls_finish _ _ demo_calls_ok). Defined.

(** The goroutine of the DEL's [Lock] waits when its timer fires and its file is
    closed; it is given the lock when the ADD has ended. *)
Definition demo_orphan : list (nat * turn) :=
  [(0, Main); (0, Main); (0, Goroutine); (0, Goroutine); (0, Goroutine);
   (1, Main); (1, Main); (1, Goroutine); (1, Fire); (0, Main); (1, Main)]%nat ++
  replicate 30 (0%nat, Main) ++ [(1%nat, Goroutine)].

Lemma lock_refines_flock_witness :
  let s := turns mock_run demo_calls demo_world demo_orphan in
  m_ifaces (kworld s) = m_ifaces demo_added ∧
  kprocs (kbase s) = [(Ret Succeeded, Over); (Ret Errored, OrphanHeld)] ∧ klock (kbase s) = Some 1%nat ∧
  ∃ order, serialized_state mock_run demo_calls demo_world (absw s) order.
Proof.
  intros s. split_and!; [by vm_compute..|].
  destruct (lock_refines_flock _ demo_calls demo_calls_ok) as (_ & _ & Hs).
  apply (Hs _ mock_run); [|by vm_compute]. apply turns_kwstep. apply (bool_decide_unpack _). by vm_compute.
Defined.

(** The ADD is killed in its critical section; the DEL is given its lock, but its
    timer is chosen. *)
Definition demo_killed : list (nat * turn) :=
  [(0, Main); (0, Main); (0, Goroutine); (0, Goroutine); (0, Goroutine); (1, Main); (1, Main); (1, Goroutine);
   (0, Main); (0, Main); (0, Main); (0, Kill); (1, Goroutine); (1, Fire)]%nat.

Lemma killed_calls_release_lock_witness :
  let s := kbase (turns mock_run demo_calls demo_world demo_killed) in
  (snd <$> kprocs s) = [Over; LateHeld] ∧ klock s = Some 1%nat ∧
  sn kany (kstart demo_calls) ∧ (gone s ∨ proceeds s).
Proof.
  intros s. split_and!; [by vm_compute..| |];
    destruct (killed_calls_release_lock _ demo_calls demo_calls_ok) as [Hsn Hs]; [done|].
  apply Hs, turns_kany.
Defined.

(** ** The registry *)

Definition demo_bridges : list gostring := [str "br-net1"].

Lemma demo_bridges_ok : ∀ b, b ∈ demo_bridges → HasPrefix b portPrefix = false.
Proof. intros b ->%list_elem_of_singleton. by vm_compute. Qed.

(** Interfaces without ports of the plugin and without the network's bridge. *)
Lemma demo_shape name : HasPrefix name portPrefix = false → name ∉ demo_bridges →
  shape demo_bridges [mkInterfaceInfo 1 2 name 0] ∧ tracks [mkInterfaceInfo 1 2 name 0] ∅.
Proof.
  intros Hn Hb. split.
  - split; [apply NoDup_singleton..| |].
    + intros p ->%list_elem_of_singleton Hp. unfold plugin_port in Hp. simpl in Hp. by rewrite Hn in Hp.
    + by intros br ->%list_elem_of_singleton.
  - intros n b. rewrite lookup_empty. split; [done|].
    intros (p & br & ->%list_elem_of_singleton & Hp & _). unfold plugin_port in Hp. simpl in Hp. by rewrite Hn in Hp.
Qed.

Lemma demo_node : node demo_bridges demo_world ∧ tracks (ifaces demo_world) ∅.
Proof.
  destruct (demo_shape (str "p0")) as [Hs Ht]; [done|by apply (bool_decide_eq_false_1 _)|].
  split; [|done]. split; [apply demo_valid| |done]. by intros p ->%list_elem_of_singleton.
Qed.

Lemma demo_configured : ∀ v, v ∈ demo_calls → well_configured demo_bridges v.
Proof.
  intros v Hv. destruct (demo_calls_ok v Hv) as [Hp _].
  apply elem_of_cons in Hv as [->|Hv]; [|apply list_elem_of_singleton in Hv as ->];
    (split_and!; [done|apply demo_clean|apply list_elem_of_here]).
Qed.

Lemma verbs_refine_registry_witness :
  implements demo_bridges (VAdd demo_add) demo_world ∅ ∧
  (interp mock_run (run_verb (VAdd demo_add)) demo_world).2 = Succeeded.
Proof.
  split; [|by vm_compute]. destruct demo_node as [Hn Ht].
  apply (verbs_refine_registry demo_bridges demo_bridges_ok (VAdd demo_add) demo_world ∅);
    [apply demo_configured, list_elem_of_here|exact Hn|exact Ht].
Defined.

Lemma interleaved_registry_witness :
  fprocs (fbase demo_all) = [(Ret Succeeded, Over); (Ret Succeeded, Over)] ∧
  ∃ t m, NoDup t.*1 ∧ spec_run demo_calls ∅ t m ∧ node demo_bridges (fworld demo_all) ∧
    tracks (ifaces (fworld demo_all)) m ∧
    ∀ i a w, fprocs (fbase demo_all) !! i = Some (Ret a, w) → (i, a) ∈ t ∨ (i ∉ t.*1 ∧ a = Errored).
Proof.
  split; [by vm_compute|]. destruct demo_node as [Hn Ht].
  apply (interleaved_registry demo_bridges demo_bridges_ok (str "/run/grout/grout.sock.lock") demo_calls demo_world ∅ demo_all);
    [|exact Hn|exact Ht|apply fturns_reachable|apply demo_all_free].
  intros v Hv. split; [by apply demo_configured|by apply demo_calls_ok].
Defined.

(** ** The text of a configuration *)

Lemma demo_document : document demo_text (JObj demo_members).
Proof. apply parse_document. by vm_compute. Qed.

Lemma LoadConfig_reads_text_witness :
  GroutSocketPath demo_conf = said_string demo_net "groutSocketPath" DefaultSocketPath demo_members ∧
  Bridge demo_conf = (let b := said_string demo_net "bridge" [] demo_members in
    if decide (b = []) then bridgeNameFor (Name demo_conf) else b) ∧
  MTU demo_conf = said_int demo_net "mtu" 0 demo_members ∧
  InterfaceType demo_conf = (let t := said_string demo_net "interfaceType" [] demo_members in
    if decide (t = []) then InterfaceTypeTAP else t) ∧
  LogLevel demo_conf = said_string demo_net "logLevel" [] demo_members.
Proof.
  apply (LoadConfig_reads_text demo_net demo_net_embedded demo_text demo_members demo_conf);
    [apply demo_document|apply demo_text_loads].
Defined.

Lemma LoadConfig_refuses_text_witness :
  ∃ e, LoadConfig (Unmarshal demo_net) (jtext "{'Mtu': 1.5}") = Err (Errorf "parsing CNI config: %w" [AErr e]).
Proof.
  apply (LoadConfig_refuses_text demo_net (jtext "{'Mtu': 1.5}")) with
    (ms := [(str "Mtu", JNum (str "1.5"))]) (m := (str "Mtu", JNum (str "1.5"))) (f := field_mtu).
  - apply parse_document. by vm_compute.
  - apply list_elem_of_here.
  - reflexivity.
  - split; [by do 2 right; left|]. intros c. eexists. reflexivity.
Defined.

Lemma demo_acceptable : acceptable demo_conf.
Proof. split; [done|done|by vm_compute|simpl; lia|right; left|by left]. Qed.

Definition demo_net_members : list (gostring * json) := take 4 demo_members.

Lemma demo_net_writable : Forall (λ m, utf8 m.1 ∧ writable (pred max_depth) m.2) demo_net_members.
Proof.
  assert (pred max_depth = S (Z.to_nat 9998)) as -> by (unfold max_depth; lia). generalize (Z.to_nat 9998) as d.
  intros d. repeat (apply Forall_cons_2; [split|]); try apply Forall_nil_2;
    try (apply utf8_ascii; repeat (apply Forall_cons_2; [done|]); by apply Forall_nil_2).
  destruct d; apply utf8_ascii; repeat (apply Forall_cons_2; [done|]); by apply Forall_nil_2.
Qed.

Lemma demo_own_writable : own_writable (own demo_conf).
Proof. split; try (apply utf8_ascii; by repeat constructor). by vm_compute. Qed.

Definition demo_net_conf : PluginConf := (foldl (store_member demo_net) (default_conf, None) demo_net_members).1.

Lemma LoadConfig_roundtrip_witness :
  LoadConfig (Unmarshal demo_net) (print (JObj (demo_net_members ++ own_members (own demo_conf)))) =
    Ok (with_defaults demo_conf).
Proof.
  apply (LoadConfig_roundtrip demo_net demo_net_members demo_conf demo_net_conf);
    [apply demo_acceptable|apply demo_own_writable|apply demo_net_writable|by vm_compute|by vm_compute].
Defined.
