(* ===== verification/PodMock.v ===== *)
(** * PodMock: a concrete kernel for the pod's side, for the witnesses

    The world of Mock with the interfaces of the host and of the pods' namespaces,
    the namespace the thread is in, and the sockets of vhost-user ports.  It
    satisfies the laws of Pod. *)

From S2P Require Import Prelude Bytes NetIP Types GoLib Client Wire Cni PortName Config Lock Netns.
From S2P Require Import Handler HandlerFacts Serial Ledger Runs World Pod Mock.
From Stdlib Require Import Lia ZArith.
Open Scope Z_scope.
#[local] Opaque groutPortName.

(** The interfaces of a namespace by name: whether up, and the addresses. *)
Abbreviation links := (option gostring → gostring → option (bool * list IPNet)).

Record podmock := mkPodmock {
  pm_grout : mock; pm_inside : option gostring; pm_links : links; pm_sockets : list gostring }.

Definition set_link (ns : option gostring) (name : gostring) (x : option (bool * list IPNet)) (l : links) : links :=
  λ ns' name', if decide (ns' = ns ∧ name' = name) then x else l ns' name'.

Definition with_links (f : links → links) (w : podmock) : podmock :=
  mkPodmock (pm_grout w) (pm_inside w) (f (pm_links w)) (pm_sockets w).

(** A change of the link that a name stands for where the thread is. *)
Definition on_link (name : gostring) (f : bool * list IPNet → links → links) (w : podmock) : podmock * result unit :=
  match pm_links w (pm_inside w) name with
  | Some x => (with_links (f x) w, Ok tt)
  | None => (w, Err (EExt 19))
  end.

Definition pod_add (r : InterfaceAddRequest) (w : podmock) : podmock * result InterfaceAddResponse :=
  match mock_add r (pm_grout w) with
  | (m, Ok resp) =>
      (if decide (ia_VhostUserPath r = [])
       then mkPodmock m (pm_inside w) (set_link None (ia_Name r) (Some (false, [])) (pm_links w)) (pm_sockets w)
       else mkPodmock m (pm_inside w) (pm_links w) (ia_VhostUserPath r :: pm_sockets w), Ok resp)
  | (m, Err e) => (mkPodmock m (pm_inside w) (pm_links w) (pm_sockets w), Err e)
  end.

Definition result_nets (r : Result) : list IPNet :=
  omap (λ x, x ≫= λ ip, match ipc_Interface ip with Some _ => Some (ipc_Address ip) | None => None end) (r_IPs r).

Definition pod_env (o : cni_op) (w : podmock) : podmock * cni_res o :=
  match o with
  | GInterfaceAdd r => pod_add r w
  | Remove p =>
      (mkPodmock (pm_grout w) (pm_inside w) (pm_links w) (filter (λ q, q ≠ p) (pm_sockets w)),
       if decide (p ∈ pm_sockets w) then Removed else NotExist)
  | Stat p => (w, bool_decide (p ∈ pm_sockets w))
  | LinkByName name =>
      (w, match pm_links w (pm_inside w) name with Some x => Ok (name, x.1) | None => Err (EExt 19) end)
  | LinkSetNsFd l ns => on_link l.1 (λ x t, set_link (Some ns) l.1 (Some x) (set_link (pm_inside w) l.1 None t)) w
  | LinkSetDown l => on_link l.1 (λ x, set_link (pm_inside w) l.1 (Some (false, x.2))) w
  | LinkSetName l name =>
      on_link l.1 (λ x t, set_link (pm_inside w) name (Some x) (set_link (pm_inside w) l.1 None t)) w
  | AddrList l =>
      (w, match pm_links w (pm_inside w) l.1 with Some x => Ok (Some <$> x.2) | None => Err (EExt 19) end)
  | ConfigureIface name r => on_link name (λ x, set_link (pm_inside w) name (Some (true, result_nets r ++ x.2))) w
  | NsEnter ns => (mkPodmock (pm_grout w) (Some ns) (pm_links w) (pm_sockets w), Ok tt)
  | NsLeave _ => (mkPodmock (pm_grout w) None (pm_links w) (pm_sockets w), tt)
  | o =>
      let '(m, r) := mock_env o (pm_grout w) in (mkPodmock m (pm_inside w) (pm_links w) (pm_sockets w), r)
  end.

#[global] Instance podmock_world : Grout podmock := {|
  env := pod_env; valid w := mock_valid (pm_grout w); ifaces w := m_ifaces (pm_grout w);
  addrs w := mock_addrs (pm_grout w) |}.

(** grout does not notice the difference. *)
Lemma pod_env_grout o (w : podmock) : pm_grout (env o w).1 = (env o (pm_grout w)).1.
Proof.
  destruct o; simpl; try done; unfold pod_add, on_link; by repeat case_match.
Qed.

Lemma pod_env_answer o (w : podmock) : is_grout o = true → (env o w).2 = (env o (pm_grout w)).2.
Proof.
  destruct o; intros Ho; try done; simpl.
  - unfold pod_add. by destruct (mock_add r (pm_grout w)) as [m [resp|e]].
  - by destruct (mock_del (id_IfaceID r) (pm_grout w)).
  - by destruct (mock_addr_add r (pm_grout w)).
Qed.

#[global] Instance podmock_laws : GroutLaws podmock.
Proof.
  split; unfold same; cbn [valid ifaces addrs podmock_world]; intros *; rewrite ?pod_env_grout, ?pod_env_answer by done.
  - apply (@law_names _ mock mock_grout_world _).
  - apply (@law_ids _ mock mock_grout_world _).
  - apply (@law_u16 _ mock mock_grout_world _).
  - apply (@law_nonzero _ mock mock_grout_world _).
  - apply (@law_valid _ mock mock_grout_world _).
  - apply (@law_frame _ mock mock_grout_world _).
  - apply (@law_list _ mock mock_grout_world _).
  - apply (@law_add_refused _ mock mock_grout_world _).
  - apply (@law_del_refused _ mock mock_grout_world _).
  - apply (@law_addr_refused _ mock mock_grout_world _).
  - apply (@law_add _ mock mock_grout_world _).
  - apply (@law_del _ mock mock_grout_world _).
  - apply (@law_addr _ mock mock_grout_world _).
  - apply (@law_flush _ mock mock_grout_world _).
Qed.

#[global] Instance podmock_reliable : GroutReliable podmock.
Proof.
  split; cbn [valid ifaces addrs podmock_world]; intros *; rewrite ?pod_env_answer by done.
  - apply (@rel_list _ mock mock_grout_world _).
  - apply (@rel_flush _ mock mock_grout_world _).
  - apply (@rel_del _ mock mock_grout_world _).
Qed.

(** The interface is up, and has the addresses. *)
Definition has_addrs (ips : list IP) (x : option (bool * list IPNet)) : Prop :=
  ∃ l, x = Some (true, l) ∧ ∀ ip, ip ∈ ips → ∃ n, n ∈ l ∧ IPNet_IP n = ip.

#[global] Instance podmock_view : PodView podmock := {|
  inside := pm_inside; refers _ n p := n = p;
  pod_iface w ns name ips := has_addrs ips (pm_links w (Some ns) name);
  socket_at w p := p ∈ pm_sockets w |}.

Lemma IP_Equal_refl ip : IP_Equal ip ip = true.
Proof. unfold IP_Equal. by rewrite decide_True, bool_decide_true. Qed.

(** Operations that look change neither interfaces nor sockets. *)
Lemma pod_env_looks o (w : podmock) : looks o = true →
  pm_links (env o w).1 = pm_links w ∧ pm_sockets (env o w).1 = pm_sockets w.
Proof. by destruct o. Qed.

Lemma result_nets_assigned r ip : ip ∈ assigned r → ∃ n, n ∈ result_nets r ∧ IPNet_IP n = ip.
Proof.
  unfold assigned, result_nets. intros (x & Hx & E)%list_elem_of_omap.
  destruct x as [c|]; [|done]. simpl in E. destruct (ipc_Interface c) eqn:Ei; [|done]. simplify_eq.
  exists (ipc_Address c). split; [|done]. apply list_elem_of_omap. exists (Some c). split; [done|]. simpl. by rewrite Ei.
Qed.

#[global] Instance podmock_pods : PodLaws podmock.
Proof.
  split; unfold pod_iface, socket_at, inside, refers; cbn [podmock_view].
  - intros o w ns name ips Ho. by rewrite (proj1 (pod_env_looks o w Ho)).
  - intros o w p Ho. by rewrite (proj2 (pod_env_looks o w Ho)).
  - intros o w Ho. destruct o; simpl; try done; unfold pod_add, on_link; by repeat case_match.
  - intros p w n E. simpl in E. by simplify_eq.
  - by intros n p w ->.
  - intros name r ns w Hin E. simpl in *. unfold on_link in *. rewrite Hin in *.
    destruct (pm_links w (Some ns) name) as [x|]; [|done]. simpl. unfold set_link. rewrite decide_True by done.
    eexists. split; [done|]. intros ip (n & Hn & E')%result_nets_assigned. exists n. set_solver.
  - intros name ns ips l w Hin (as_ & Hl & Has) E. simpl in E. rewrite Hin, Hl in E. simplify_eq/=. split; [done|].
    intros found Ef ip Hip. rewrite Hin, Hl in Ef. simplify_eq/=. destruct (Has ip Hip) as (n & Hn & <-).
    exists n. split; [by apply list_elem_of_fmap_2|apply IP_Equal_refl].
  - intros req resp w E Hp. simpl in *. unfold pod_add in *. destruct (mock_add req (pm_grout w)) as [m [resp'|e]]; [|done].
    simpl. rewrite decide_False by done. apply list_elem_of_here.
  - intros p w Hp. simpl. by apply bool_decide_true.
Qed.

(** ** Witnesses *)

Definition demo_pods : podmock := mkPodmock demo_world None (λ _ _, None) [].

(** The runtime passes the result of the ADD on to the CHECK. *)
Definition demo_prev_conf : PluginConf :=
  mkPluginConf (str "1.0.0") (str "net1") (mkIPAM (str "host-local")) (Some demo_pool) [] (str "/run/grout/grout.sock")
    (str "br-net1") 1500 InterfaceTypeTAP [].
Definition demo_check : DelConfig := mkDelConfig demo_prev_conf demo_args None None.

Lemma add_then_check_witness :
  let '(w1, out1) := interp env (HandleAdd demo_add) demo_pods in
  ∃ got, out1 = Returns (Ok got) ∧ result_ips got = [[x0a; x00; x00; x02]] ∧ checks demo_add got demo_check ∧
    let '(_, t, out2) := interp_trace env (HandleCheck demo_check) w1 in
    out2 = Returns (Ok tt) ∨ ∃ o r, existT (P := res CniSig) o r ∈ t ∧ failed o r = true.
Proof.
  pose proof (add_then_check demo_add demo_check demo_pods (proj1 demo_production) eq_refl demo_clean demo_valid) as Hc.
  assert (∃ got, (interp env (HandleAdd demo_add) demo_pods).2 = Returns (Ok got) ∧
    result_ips got = [[x0a; x00; x00; x02]]) as (got & Eg & Ei) by (vm_compute; eexists; split; reflexivity).
  unfold run in Hc. destruct (interp env (HandleAdd demo_add) demo_pods) as [w1 out1]. simpl in Eg. subst out1.
  assert (checks demo_add got demo_check) as Hch.
  { split; try done. intros raw [= <-]. eexists _, _. split_and!; [done|done|]. rewrite Ei. by vm_compute. }
  exists got. split_and!; [done..|]. exact (Hc got eq_refl Hch).
Defined.

Example demo_check_pods :
  (interp env (HandleCheck demo_check) (interp env (HandleAdd demo_add) demo_pods).1).2 = Returns (Ok tt) ∧
  is_Some (pm_links (interp env (HandleAdd demo_add) demo_pods).1 (Some (str "/proc/7/ns/net")) (str "eth0")).
Proof. split; [by vm_compute|]. vm_compute. by eexists. Qed.

(** The same for a virtio port. *)
Definition demo_virtio_conf (prev : option RawPrev) : PluginConf :=
  mkPluginConf (str "1.0.0") (str "net1") (mkIPAM (str "host-local")) prev [] (str "/run/grout/grout.sock")
    (str "br-net1") 1500 InterfaceTypeVirtio [].

Example demo_check_virtio :
  let w := (interp env (HandleAdd (mkAddConfig (demo_virtio_conf None) demo_args None None None None)) demo_pods).1 in
  pm_sockets w = [str "/run/grout/vhost/" ++ groutPortName (str "c0ffee") (str "eth0") ++ str ".sock"] ∧
  (interp env (HandleCheck (mkDelConfig (demo_virtio_conf None) demo_args None None)) w).2 = Returns (Ok tt).
Proof. split; by vm_compute. Qed.

Definition demo_pods_added : podmock := (interp env (HandleAdd demo_add) demo_pods).1.

Lemma demo_pods_valid : valid demo_pods_added.
Proof.
  assert (m_ifaces (pm_grout demo_pods_added) = m_ifaces demo_added) as E by (by vm_compute).
  destruct demo_added_valid as [Hn Hi Hu]. split; by rewrite E.
Qed.

Lemma del_then_check_witness :
  let '(w1, out1) := interp env (HandleDel demo_del) demo_pods_added in
  out1 = Returns (Ok tt) ∧ run (HandleCheck demo_check) w1 (λ _ out2, ∃ e, out2 = Returns (Err e)).
Proof.
  assert (run (HandleDel demo_del) demo_pods_added (λ w1 out1, out1 = Returns (Ok tt) →
    run (HandleCheck demo_check) w1 (λ _ out2, ∃ e, out2 = Returns (Err e)))) as Hc.
  { apply (del_then_check demo_del demo_check demo_pods_added); [done|exact demo_pods_valid| |done].
    intros p Hp. vm_compute in Hp. injection Hp as <-. by vm_compute. }
  assert ((interp env (HandleDel demo_del) demo_pods_added).2 = Returns (Ok tt)) as E by (by vm_compute).
  unfold run at 1 in Hc. destruct (interp env (HandleDel demo_del) demo_pods_added) as [w1 out1]. simpl in E. subst out1.
  split; [done|by apply Hc].
Defined.
