(* ===== verification/Daemon.v ===== *)
(** * Daemon: a concrete grout daemon on the wire, for the witnesses

    The grout of Mock behind the protocol: it answers decoded requests with
    statuses and encoded structures.  It satisfies the laws of EndToEnd. *)

From stdpp Require Import gmap.
From S2P Require Import Prelude Bytes Protocol NetIP Types GoLib Client Socket Wire GroutApi Cni PortName.
From S2P Require Import Config Lock Netns Handler HandlerFacts Main Serial Ledger Runs World Typing Registry.
From S2P Require Import Json Unmarshal EndToEnd Commands Mock.
From Stdlib Require Import Lia ZArith.
Open Scope Z_scope.
#[local] Opaque groutPortName.

(** An entry of an interface list, as grout writes it. *)
Definition encode_iface (i : InterfaceInfo) : list byte :=
  copy_at offIfaceName ifNameSize (if_Name i)
    (write_at offIfaceDomain (put_u16 (if_Domain i))
       (set_byte offIfaceType (if_Type i) (write_at offIfaceID (put_u16 (if_ID i)) (make ifaceSize)))).

Record wf_info (i : InterfaceInfo) : Prop := {
  wfn_name : wf_name (if_Name i); wfn_type : 0 ≤ if_Type i < 256 }.

Lemma length_encode_iface i : length (encode_iface i) = ifaceSize.
Proof. unfold encode_iface, copy_at, set_byte. wlen. Qed.

Lemma decode_encode_iface i :
  wf_info i → is_u16 (if_ID i) → is_u16 (if_Domain i) → decode_iface (encode_iface i) = Some i.
Proof.
  intros [[Hlen Hnul] Hty] Hid Hdom. unfold decode_iface.
  rewrite decide_False by (rewrite length_encode_iface; lia). destruct i as [id ty name dom]. simpl in *.
  assert (le_get (le_put 1 ty) = ty) as Hty' by (by apply (le_get_put 1)).
  do 2 f_equal; unfold encode_iface, get_u16, get_byte; cbn [if_ID if_Type if_Name if_Domain].
  - unfold copy_at, set_byte. wire. by apply le_get_put_u16.
  - unfold copy_at, set_byte. wire. done.
  - rewrite read_copied.
    + apply cString_padded; [done|unfold ifNameSize; lia].
    + done.
    + unfold set_byte. wlen.
    + unfold set_byte. by wire.
  - unfold copy_at, set_byte. wire. by apply le_get_put_u16.
Qed.

Definition request_of (w : wire_iface) : InterfaceAddRequest :=
  mkInterfaceAddRequest (w_name w) (w_type w) (w_domain w) (w_mtu w) [] None.

Definition status_of {A} (r : result A) (ok : A → list byte) : list (Z * list byte) :=
  match r with Ok a => [(0, ok a)] | Err _ => [(17, [])] end.

#[local] Opaque encode_iface.

#[global] Instance daemon_server : GroutServer mock := {|
  gserve m r :=
    match r with
    | WIfaceAdd w => let '(m', x) := mock_add (request_of w) m in (m', status_of x (λ a, put_u16 (IfaceID a)))
    | WIfaceDel id => let '(m', x) := mock_del id m in (m', status_of x (λ _, []))
    | WIfaceList _ => (m, stream_answers (encode_iface <$> m_ifaces m))
    | WAddr false v6 id ip ones _ =>
        (mkMock (m_ifaces m) ((id, (v6, ip, ones)) :: m_addrs m) (m_pool m), [(0, [])])
    | WAddrFlush v6 id =>
        (mkMock (m_ifaces m) (filter (λ a, ¬ (a.1 = id ∧ a.2.1.1 = v6)) (m_addrs m)) (m_pool m), [(0, [])])
    | _ => (m, [(0, [])])
    end
|}.

#[global] Instance daemon_mock : GroutDaemon mock := {|
  d_valid m := mock_valid m ∧ ∀ i, i ∈ m_ifaces m → wf_info i;
  d_ifaces := m_ifaces;
  d_addrs := mock_addrs
|}.

Lemma request_of_wire req m :
  mock_add (request_of (wire_of req)) m = mock_add req m.
Proof. done. Qed.

Lemma small_fits p : (length p ≤ 1024)%nat → fits p.
Proof. unfold fits, maxMsgLen. lia. Qed.

Lemma fits_nil : fits [].
Proof. apply small_fits. simpl. lia. Qed.
Lemma fits_u16 z : fits (put_u16 z).
Proof. apply small_fits. simpl. lia. Qed.

Lemma omap_decode_encode m :
  mock_valid m → (∀ i, i ∈ m_ifaces m → wf_info i) →
  omap decode_iface (encode_iface <$> m_ifaces m) = m_ifaces m.
Proof.
  intros Hv Hwf. assert (∀ i, i ∈ m_ifaces m → decode_iface (encode_iface i) = Some i) as Hd.
  { intros i Hi. destruct (mv_u16 m Hv i Hi) as (? & ? & _). by apply decode_encode_iface; [apply Hwf|..]. }
  revert Hd. generalize (m_ifaces m) as l. induction l as [|i l IH]; intros Hd; [done|].
  cbn [fmap list_fmap omap list_omap]. rewrite Hd by apply list_elem_of_here. f_equal. apply IH. intros j Hj. by apply Hd, list_elem_of_further.
Qed.

Lemma mock_addrs_flush m v6 id id' :
  mock_addrs (mkMock (m_ifaces m) (filter (λ a, ¬ (a.1 = id ∧ a.2.1.1 = v6)) (m_addrs m)) (m_pool m)) id' =
  if decide (id' = id) then filter (λ k, k.1.1 = negb v6) (mock_addrs m id') else mock_addrs m id'.
Proof.
  unfold mock_addrs. simpl. case_decide as Hid.
  - subst. rewrite list_filter_map, !list_filter_filter. f_equal. apply list_filter_iff_in.
    intros [a [[v ip] p]] _. simpl. destruct v, v6; naive_solver.
  - f_equal. rewrite list_filter_filter. apply list_filter_iff_in. intros [a k] _. simpl. naive_solver.
Qed.

#[global] Instance daemon_laws : GroutDaemonLaws mock.
Proof.
  split.
  - by intros m [[] _].
  - by intros m [[] _].
  - intros m i [[_ _ Hu] _] Hi. by apply Hu.
  - intros m Hv. eexists m, []. split; [split_and!; [done|by vm_compute|apply fits_nil|done]|done].
  - intros m [Hv Hwf]. eexists m, _. split_and!; [done| |by apply omap_decode_encode|done|done].
    apply Forall_fmap, Forall_forall. intros i _. split; [|apply small_fits; rewrite length_encode_iface; autounfold with layout; lia].
    intros E. apply (f_equal length) in E. by rewrite length_encode_iface in E.
  - intros m req [Hv Hwf] Hreq. cbn [gserve daemon_server].
    pose proof (mock_law_add req m) as Hadd. cbn [mock_env] in Hadd.
    unfold one_answer. cbn [gserve daemon_server]. rewrite request_of_wire.
    destruct (mock_add req m) as [m' [resp|err]] eqn:E.
    + pose proof (mock_add_valid _ _ _ _ Hreq Hv E) as Hv'.
      destruct (Hadd resp Hv Hreq eq_refl) as [H1 H2 H3 H4 (d & H5 & H6 & H7) H8 H9]. simpl in H5, H7, H8, H9.
      assert (mkInterfaceInfo (IfaceID resp) (ia_Type req) (ia_Name req) d ∈ m_ifaces m') as Hin
        by (rewrite H5; apply list_elem_of_here).
      exists m', 0, (put_u16 (IfaceID resp)). split_and!; [done|by vm_compute|apply fits_u16|split; [done|]|by intros []|].
      * intros i. rewrite H5. intros [->|Hi]%elem_of_cons; [|by apply Hwf]. destruct Hreq. by split.
      * intros _. exists (IfaceID resp), d. split_and!; try done. by apply (mv_u16 m' Hv' _ Hin).
    + apply mock_add_err in E as ->. exists m, 17, []. split_and!; try done; by vm_compute.
  - intros m id [Hv Hwf] Hid. unfold one_answer. cbn [gserve daemon_server].
    pose proof (mock_env_valid (GInterfaceDel (mkInterfaceDelRequest id)) m Hid Hv) as Hv'. cbn [mock_env id_IfaceID] in Hv'.
    destruct (mock_del id m) as [m' [[]|err]] eqn:E.
    + apply mock_del_ok in E as [Ha ->]. eexists _, 0, []. split_and!; [done|by vm_compute|apply fits_nil|split; [done|]|by intros []|done|done].
      intros i [Hi _]%elem_of_without. by apply Hwf.
    + pose proof E as E'. apply mock_del_err in E as ->. exists m, 17, [].
      split_and!; [done|by vm_compute|apply fits_nil|done|done|done|].
      intros Hin Ha. unfold mock_del in E'. by rewrite decide_True in E'.
  - intros m id v6 ip ones flag [Hv Hwf] Hid. eexists _, 0, []. split_and!; [|by intros []|].
    { split_and!; [done|by vm_compute|apply fits_nil|]. split; [by destruct Hv|done]. }
    intros _. split_and!; [done| |].
    + intros id' Hne. cbn [d_addrs daemon_mock]. unfold mock_addrs. cbn [m_addrs]. by rewrite filter_cons_False by auto.
    + intros k. cbn [d_addrs daemon_mock]. unfold mock_addrs. cbn [m_addrs]. rewrite filter_cons_True by done. simpl. by rewrite elem_of_cons.
  - intros m v6 id [Hv Hwf] Hid. eexists _, 0, []. split.
    { split_and!; [done|by vm_compute|apply fits_nil|]. split; [by destruct Hv|done]. }
    split_and!; [done| | |done].
    + intros id' Hne. cbn [d_addrs daemon_mock]. rewrite mock_addrs_flush. by rewrite decide_False.
    + intros _. cbn [d_addrs daemon_mock]. rewrite mock_addrs_flush. by rewrite decide_True.
Qed.

(** ** The commands, run *)

Definition demo_daemon : mock := mkMock [mkInterfaceInfo 1 2 (str "p0") 0] [] [].
Definition demo_dial (d : mock) (path : gostring) (w : mock) : mock * result (Conn (Socket mock)) :=
  (w, Ok (fresh_conn d Closed)).
(** The level of the logger is not kept. *)
Definition demo_SetDefault (level : Z) (w : mock) : mock := w.
Definition demo_print (res : Result) (w : mock) : mock * result unit := (w, Ok tt).

Definition demo_cmdAdd : mock * option (Conn (Socket mock)) * outcome (result unit) :=
  cmdAdd (Unmarshal demo_net) mock_run demo_SetDefault (demo_dial demo_daemon) demo_print demo_args demo_world.

(** The daemon after the ADD command. *)
Definition demo_daemon_added : mock :=
  match demo_cmdAdd with (_, Some cn, _) => sk_srv (c_peer cn) | _ => demo_daemon end.

(** The command succeeds; over the wire the daemon got the bridge, its gateway
    address and the port. *)
Example demo_cmdAdd_run :
  demo_cmdAdd.2 = Returns (Ok tt) ∧
  m_ifaces demo_daemon_added =
    [mkInterfaceInfo 1 2 (str "p0") 0; mkInterfaceInfo 2 6 (str "br-net1") 0;
     mkInterfaceInfo 3 2 (groutPortName (str "c0ffee") (str "eth0")) 2] ∧
  m_addrs demo_daemon_added = [(2, (false, [x0a; x00; x00; x01], 24))].
Proof. by vm_compute. Qed.

Lemma demo_daemon_valid : d_valid demo_daemon.
Proof.
  split; [split; simpl; [apply NoDup_singleton..|]|]; intros i ->%list_elem_of_singleton; [by split_and!|].
  split; [split; [unfold ifNameSize; simpl; lia|by apply (bool_decide_eq_false_1 _)]|simpl; lia].
Qed.

Lemma demo_daemon_added_valid : d_valid demo_daemon_added.
Proof.
  destruct demo_cmdAdd_run as (_ & E & _).
  split; [split|cbn [d_ifaces daemon_mock]]; rewrite E; clear E; simpl.
  - repeat (apply NoDup_cons; split); [by apply (bool_decide_eq_false_1 _)..|apply NoDup_nil_2].
  - repeat (apply NoDup_cons; split); [by apply (bool_decide_eq_false_1 _)..|apply NoDup_nil_2].
  - intros i Hi. repeat (apply elem_of_cons in Hi as [->|Hi]; [by split_and!|]). by apply not_elem_of_nil in Hi.
  - intros i Hi. apply elem_of_cons in Hi as [->|Hi]; [|apply elem_of_cons in Hi as [->|Hi]].
    + split; [split; [unfold ifNameSize; simpl; lia|by apply (bool_decide_eq_false_1 _)]|simpl; lia].
    + split; [split; [unfold ifNameSize; simpl; lia|by apply (bool_decide_eq_false_1 _)]|simpl; lia].
    + apply list_elem_of_singleton in Hi as ->. split; [|simpl; lia]. cbn [if_Name].
      split; [rewrite groutPortName_length; unfold ifNameSize; lia|apply groutPortName_no_nul].
Qed.

Lemma cmdAdd_end_to_end_witness :
  ∃ w' cn s' out, demo_cmdAdd = (w', Some cn, out) ∧
    c_closed cn = true ∧ sk_srv (c_peer cn) = s' ∧ d_valid s' ∧
    (out = Returns (Ok tt) → attached demo_conf demo_args (d_ifaces demo_daemon) (d_ifaces s')) ∧
    ((∀ res w, (demo_print res w).2 = Ok tt) → out ≠ Returns (Ok tt) →
       only_bridge (Bridge demo_conf) (d_ifaces demo_daemon) (d_ifaces s')).
Proof.
  apply (cmdAdd_end_to_end (Unmarshal demo_net) mock_run demo_SetDefault (demo_dial demo_daemon) demo_print demo_args demo_conf
           demo_world demo_world demo_daemon Closed);
    [apply demo_text_loads|by apply (bool_decide_eq_false_1 _)|by apply (bool_decide_eq_false_1 _)|reflexivity
    |apply demo_daemon_valid].
Defined.

Lemma cmdDel_end_to_end_witness :
  ∃ w' cn s' out,
    cmdDel (Unmarshal demo_net) mock_run demo_SetDefault (demo_dial demo_daemon_added) demo_args demo_world = (w', Some cn, out) ∧
    c_closed cn = true ∧ sk_srv (c_peer cn) = s' ∧ d_valid s' ∧
    match out with
    | Returns (Ok _) =>
        d_ifaces s' ≡ₚ after_del (groutPortName (str "c0ffee") (str "eth0")) (d_ifaces demo_daemon_added) ∧
        groutPortName (str "c0ffee") (str "eth0") ∉ if_Name <$> d_ifaces s'
    | Returns (Err _) => d_ifaces s' = d_ifaces demo_daemon_added
    | Panics => False
    end.
Proof.
  apply (cmdDel_end_to_end (Unmarshal demo_net) mock_run demo_SetDefault (demo_dial demo_daemon_added) demo_args demo_conf
           demo_world demo_world demo_daemon_added Closed);
    [apply demo_text_loads|reflexivity|apply demo_daemon_added_valid|].
  intros p Hp. vm_compute in Hp. injection Hp as <-. by vm_compute.
Defined.

Lemma demo_d_node : d_node demo_bridges demo_daemon ∧ tracks (d_ifaces demo_daemon) ∅.
Proof.
  destruct demo_node as [[_ _ Hs] Ht]. split; [|done]. split; [apply demo_daemon_valid| |done].
  by intros p ->%list_elem_of_singleton.
Qed.

Lemma commands_refine_registry_witness :
  ∃ w' cn s' out,
    run_command (Unmarshal demo_net) mock_run demo_SetDefault (demo_dial demo_daemon) demo_print CAdd demo_args demo_world =
      (w', Some cn, out) ∧
    c_closed cn = true ∧ sk_srv (c_peer cn) = s' ∧
    registry_after demo_bridges (command_verb CAdd demo_conf demo_args) ∅ (answered demo_print CAdd out) s'.
Proof.
  destruct demo_d_node as [Hn Ht].
  apply (commands_refine_registry (Unmarshal demo_net) mock_run demo_SetDefault (demo_dial demo_daemon) demo_print demo_bridges
           demo_bridges_ok CAdd demo_args demo_conf demo_world demo_world demo_daemon Closed ∅);
    [apply demo_text_loads|by apply (bool_decide_eq_false_1 _)|by apply (bool_decide_eq_false_1 _)|apply list_elem_of_here
    |reflexivity|exact Hn|exact Ht].
Defined.

(** The ADD over a connection to the daemon. *)
Lemma requests_well_formed_witness :
  let '(_, t, _) := interp_trace (linked mock_run) (run_verb (VAdd demo_add))
                      (mkClient (fresh_conn demo_daemon Closed) 0, demo_world) in Forall wf_op (ops t).
Proof.
  apply (requests_well_formed mock_run (VAdd demo_add) _ demo_world demo_text (Unmarshal demo_net));
    [done|apply demo_text_loads|by apply (bool_decide_eq_false_1 _)|by apply (bool_decide_eq_false_1 _)].
Defined.

Lemma cmdStatus_end_to_end_witness :
  ∃ cn s', cmdStatus (Unmarshal demo_net) demo_SetDefault (demo_dial demo_daemon) demo_args demo_world = (demo_world, Some cn, Available) ∧
    c_closed cn = true ∧ sk_srv (c_peer cn) = s' ∧ d_valid s' ∧ d_same demo_daemon s'.
Proof.
  apply (cmdStatus_end_to_end (Unmarshal demo_net) demo_SetDefault (demo_dial demo_daemon) demo_args demo_world) with
    (config := demo_conf) (w1 := demo_world) (s := demo_daemon) (e := Closed);
    [apply demo_text_loads|reflexivity|apply demo_daemon_valid].
Defined.
